(* ===== verification/_CoqProject ===== *)
-Q . S2P
Prelude.v
Binary.v
Paths.v
Pebble.v
FileSystem.v
DataDir.v
Snapshot.v
Json.v
Store.v
Fsm.v
Races.v
History.v
Replica.v
Replicas.v
Leader.v
Observer.v
Kv.v
Cluster.v
Watch.v
Addr.v
Gossip.v
Service.v
Engine.v
Output.v
Stats.v
System.v
Client.v
