(* ===== verification/Prelude.v ===== *)
(** * raft-example: a verification development

    The repository is a replicated key-value store in Go: a Pebble database under
    hashicorp/raft, served over gRPC, with gossip to find the nodes. This
    development models the program's own code (src/app.go, cmd, engine, fsm,
    gossip, resolver, service) and proves what makes its parts correct.

    ** The parts and how they interact

    A client calls the RPC service of any node. The service forwards inserts and
    linearizable reads to the leader, over a cached connection to the address
    that a resolver (static or gossip) gives. On the leader an insert becomes an
    entry of raft's log; raft hands every committed entry to the state machine of
    every node, which writes it to its store. A linearizable read verifies the
    leadership, waits for the flag that the leader loop raises after its barrier,
    and reads the local store. Raft compacts its log through snapshots of the
    store; restoring one replaces the database and wakes the blocking queries.

    ** The files

    - Prelude.v (this file): bytes, Go's fixed-width integers, errors, the state
      and error monad [GoM] with its notations and tactics, shared lemmas.
    - Binary.v, Paths.v, Json.v, Addr.v, Output.v: the parts of Go's standard
      library that the program relies on: encoding/binary, crc32 and md5,
      path/filepath, encoding/json and base64 (reading any text; writing the
      program's types), net.SplitHostPort and strconv, MarshalIndent and
      Duration.String. [ParseHostPort] of gossip/gossip.go is in Addr.v.
    - Pebble.v: the class of what the program asks of the database engine, its
      laws, and an instance that evaluates.
    - FileSystem.v: the disk with system calls that may fail (a fault oracle), and
      the disks that a crash can leave behind (a trace of disks; unsynced data may
      be lost, and every directory entry that was made, renamed or removed may come
      back as it was until its directory is synced).
    - DataDir.v: fsm/utils.go, the marker file that names the current database.
    - Snapshot.v, Store.v: fsm/store.go and fsm/wb.go, the snapshot stream, the
      store and the restore.
    - Fsm.v: fsm/fsm.go and fsm/apply.go, the state machine, with the abstract
      machine [spec_run] that it refines.
    - Races.v: a read, a restore and a shutdown of fsm/store.go and fsm/apply.go,
      cut into the pieces between which another goroutine can run.
    - History.v: the log as writes to keys, and the reopened database to which raft
      replays it.
    - Replica.v: what one replica's database holds of the log while it applies
      (in two steps, the index and the write), raises its index as [newRaft] does,
      takes and installs snapshots, stops and crashes.
    - Replicas.v: all the replicas of a cluster, which exchange snapshots.
    - Leader.v: engine/raft.go (monitorLeadership, leaderLoop) as a step relation,
      and engine/linearizable.go.
    - Observer.v: the raft observer of engine/raft.go.
    - Kv.v: engine/kv.go and IsVoter, over the class [Raft] and its [RaftLaws].
      Raft drives the state machine while a call waits for it, by the steps of
      Replica.v; what it has done is tied to the cluster's log.
    - Cluster.v: a linearizable read at one node (Leader.v and Replica.v) of a
      cluster that elects, commits and acknowledges around it, while the node
      installs snapshots, crashes and starts again.
    - Watch.v: service/blocking_query.go and the Watch handlers as step relations,
      interleaved with raft, the state machine and restores; one watcher, and
      several of one node.
    - Gossip.v: gossip/gossip.go (with its configuration and callbacks) and
      resolver/resolver.go; the interface [AddressResolver] with its two instances.
    - Service.v: service/service.go, the handlers against the interfaces [KV] (of
      which Kv.v gives the instance) and [AddressResolver], and the connection
      cache, over the class [Grpc].
    - Engine.v: engine/engine.go, [newRaft] and [close] of engine/raft.go, and
      app.go: the start and the shutdown as traces of resources, over the class
      [Platform] of the outcomes of the libraries' calls. What running handlers and
      raft do between the steps of the shutdown is an argument ([interference]).
    - Stats.v: the statistics (engine/kv.go) and their RPC (service/service.go).
    - System.v: the service on the node.
    - Client.v: cmd/cmd.go, the demonstration client: the program, its calls, its
      watch and its random identifiers.

    ** What is shown

    - The replicated state: [Apply] refines the abstract machine on logs of any
      bytes, snapshot, restore and replay give the same state as the log, a write
      is visible to later reads (Fsm.v, Kv.v, System.v). A machine that starts
      again catches up with the log, although its reads may go back meanwhile
      (History.v). Replicas that exchange snapshots and crash serve the same map
      when they have applied the same log, and a local read returns what some prefix
      of the log wrote, with at least what the node has applied; the index it
      reports may be ahead of that (Replicas.v).
    - Races: a read beside a restore or the shutdown sees one whole state, an
      error, or the panic of the database engine; the last can happen (Races.v).
    - Snapshots: the restore reads what the save wrote, rejects a damaged byte,
      keeps the old store when it fails before the switch, and a crash at any
      point leaves the old or the new state (Snapshot.v, Store.v, DataDir.v). A
      process that is only killed there starts again as well, but a later crash of
      the machine may then lose both ([killed_restore_is_not_durable]).
    - Leadership: the flag implies a running, established leader loop, and, once
      the monitor has caught up, leadership and a barrier in the present term; a
      loss can always be handled (Leader.v). Then linearizable reads of a node see
      every write acknowledged by any node, and what earlier linearizable reads of
      the node saw, before they were asked for, whatever snapshots, crashes
      and restarts the node has been through; with a flag that is stale they may
      not (Cluster.v). Nothing is claimed about what reads of other nodes have
      seen: those may be ahead.
    - Watches: indexes advance, abandonment is reported once per restore at most,
      a restore wakes every waiting watcher, and a call answers what its query
      read or the end of its time; what can be missed is shown too (Watch.v).
    - The service: an insert is handled in one place, a linearizable answer comes
      from the leader or from a local consistent read and any other from the local
      store, the connection cache stays consistent under concurrency (Service.v);
      the gossip view and its callbacks follow the events (Gossip.v); the shutdown
      releases what the start acquired, except the goroutines that are only told to
      end and the connections that a late handler makes, and a restart keeps the
      data (Engine.v); Stats reports the servers in order, and Stat answers JSON
      (Stats.v).
    - Where the code does not do what its comments say, a theorem shows a run
      (the theorems whose comments say "can miss", "breaks", "leaks", "differs").

    ** Bounds and fuel

    [restore_loop] gets one unit of fuel more than the stream has bytes; every
    round but the last consumes at least one ([restore_loop_terminates]). The
    JSON parser gets two units per character and one more; more does not change
    its answer ([parse_fuel_enough]). [random_loop] counts reads of the random
    source; how many are needed depends on the bytes ([randomBytesMod_result] of
    Client.v). Polling loops ([poll], [watch_loop], [watch_demo]) run over the
    explicit list of the events that wake them and give [NoFuel] while none has
    ended them. Indexes and counters are 64 bits where the code computes with
    them ([uint 64], [int64]).

    ** What is not modelled

    Pebble, gzip, raft, memberlist, gRPC and strcase are parameters: classes with
    laws or arguments. In Cluster.v and Replicas.v raft's guarantees (one log, a
    new leader has every committed entry, a barrier waits for what was committed
    before it, a verified leader has not been replaced, a snapshot is installed
    whole or fails) are side conditions of the steps; a restore that fails after
    the switch is the subject of Store.v and DataDir.v only. There a node that was
    killed in the middle of a restore can stop and start again, but no crash of its
    machine is considered from then on (see [leaves_disk] of Replica.v). What raft's
    goroutine does to the state machine after a start is not part of Engine.v. In Stats.v raft's
    statistics, the observer's counters and the text of a time (in the host's time
    zone) are arguments. Left out, since nothing of the program's state depends on
    them: the generated protocol code, log lines, [Logger], [logWriter] and the
    delegate methods of gossip.go with empty bodies, keep-alive options and the
    registration of signals; the client's library is an argument of [client_main].
    Goroutines other than those of Leader.v, Races.v, Observer.v and Watch.v appear
    as what may happen between two steps ([between] in Service.v, [observation] in
    Kv.v, [interference] in Engine.v) or as resources (Engine.v).

    Time passes as events (a tick, an expired timer). Go's [select] takes any case
    that is ready, so the code gives no bound on the rounds that a blocking query
    makes after its time is over, and none is stated. *)
From stdpp Require Export prelude gmap strings list pretty sorting.
From Stdlib Require Export ZArith Lia.
From Stdlib Require Strings.Byte.

#[global] Open Scope Z_scope.

(** ** Bytes and Go strings

    A Go [[]byte] is a list of bytes (the code never distinguishes a nil slice
    from an empty one); a Go [string] is a sequence of bytes, which is what
    [String.string] is. *)

Abbreviation byte := Corelib.Init.Byte.byte.
Abbreviation bytes := (list Corelib.Init.Byte.byte).

#[global] Instance byte_eq_dec : EqDecision byte := Stdlib.Strings.Byte.byte_eq_dec.

#[global] Instance byte_countable : Countable byte.
Proof.
  refine (inj_countable Stdlib.Strings.Byte.to_N Stdlib.Strings.Byte.of_N _).
  apply Stdlib.Strings.Byte.of_to_N.
Defined.

Definition string_bytes (s : string) : bytes := String.list_byte_of_string s.
Definition bytes_string (b : bytes) : string := String.string_of_list_byte b.

Lemma bytes_string_bytes s : bytes_string (string_bytes s) = s.
Proof. apply String.string_of_list_byte_of_string. Qed.

Lemma string_bytes_string b : string_bytes (bytes_string b) = b.
Proof. apply String.list_byte_of_string_of_list_byte. Qed.

Definition byte_val (b : byte) : Z := Z.of_N (Stdlib.Strings.Byte.to_N b).

(** [byte(z)]: the conversion to a byte keeps the low eight bits. *)
Definition byte_of_Z (z : Z) : byte :=
  default Corelib.Init.Byte.x00 (Stdlib.Strings.Byte.of_N (Z.to_N (z mod 256))).

(** The length of a slice, as Go's [len] gives it. *)
Definition len {A} (l : list A) : Z := Z.of_nat (length l).

(** ** Machine integers *)

(** [uintW(z)]: conversion to an unsigned type of [w] bits. *)
Definition uint (w z : Z) : Z := z mod 2 ^ w.

(** [int64(z)]: two's complement reading of the low 64 bits. *)
Definition int64 (z : Z) : Z :=
  let u := z mod 2 ^ 64 in if decide (u < 2 ^ 63) then u else u - 2 ^ 64.

(** ** Errors, results and effects *)

(** An argument of a [fmt] verb. *)
Inductive fmt_arg :=
| FInt (z : Z)
| FStr (s : string).

#[global] Instance fmt_arg_eq_dec : EqDecision fmt_arg.
Proof. solve_decision. Defined.

(** The error values of the program: the sentinels it compares with [==], the
    errors it builds with [errors.New] / [fmt.Errorf] (format and arguments, and
    the wrapped error when there is one), and [Errno n] for any other error that
    the operating system or a library hands out. *)
Inductive error :=
| EOF
| ErrUnexpectedEOF
| ErrNotExist
| ErrClosed
| ErrNotFound
| ErrNotLeader
| ErrLeadershipLost
| ErrNotReadyForConsistentReads
| ErrNoLeader
| ErrCanceled
| ErrDeadlineExceeded
| Errno (n : Z)
| Errorf (format : string) (args : list fmt_arg)
| Wrapf (format : string) (args : list fmt_arg) (inner : error).

#[global] Instance error_eq_dec : EqDecision error.
Proof. solve_decision. Defined.

(** What a Go call comes back with: a value, an error, a panic; [NoFuel] marks a
    loop of the model that was given too little fuel (the termination theorems
    show that it does not happen). *)
Inductive res (A : Type) :=
| Ok (a : A)
| Err (e : error)
| Panic (msg : string)
| NoFuel.
Arguments Ok {A} a.
Arguments Err {A} e.
Arguments Panic {A} msg.
Arguments NoFuel {A}.

#[global] Instance res_eq_dec {A} `{!EqDecision A} : EqDecision (res A).
Proof. solve_decision. Defined.

Definition is_ok {A} (r : res A) : bool := match r with Ok _ => true | _ => false end.

Definition res_bind {A B} (r : res A) (f : A → res B) : res B :=
  match r with
  | Ok a => f a
  | Err e => Err e
  | Panic m => Panic m
  | NoFuel => NoFuel
  end.

(** The outcome of a library call that returns a value or an error. *)
Definition of_sum {A} (x : A + error) : res A :=
  match x with inl a => Ok a | inr e => Err e end.

(** [opt_err o]: the Go idiom [if err != nil { return ..., err }]. *)
Definition opt_err (o : option error) : res unit :=
  match o with Some e => Err e | None => Ok tt end.

(** Effectful Go code over a state [S]. An error or a panic keeps the effects
    made before it. *)
Definition GoM (S A : Type) : Type := S → res A * S.

Definition go_ret {S A} (a : A) : GoM S A := λ s, (Ok a, s).
Definition go_err {S A} (e : error) : GoM S A := λ s, (Err e, s).
Definition go_panic {S A} (m : string) : GoM S A := λ s, (Panic m, s).
Definition go_lift {S A} (r : res A) : GoM S A := λ s, (r, s).
Definition go_get {S} : GoM S S := λ s, (Ok s, s).
Definition go_modify {S} (f : S → S) : GoM S unit := λ s, (Ok tt, f s).

Definition go_bind {S A B} (m : GoM S A) (f : A → GoM S B) : GoM S B :=
  λ s, match m s with
       | (Ok a, s') => f a s'
       | (Err e, s') => (Err e, s')
       | (Panic p, s') => (Panic p, s')
       | (NoFuel, s') => (NoFuel, s')
       end.

(** [go_try m k]: [v, err := m; ...], where the code looks at the error itself
    instead of returning it. A panic still unwinds. *)
Definition go_try {S A B} (m : GoM S A) (k : A + error → GoM S B) : GoM S B :=
  λ s, match m s with
       | (Ok a, s') => k (inl a) s'
       | (Err e, s') => k (inr e) s'
       | (Panic p, s') => (Panic p, s')
       | (NoFuel, s') => (NoFuel, s')
       end.

(** [go_ignore m]: a call whose error is not looked at. *)
Definition go_ignore {S A} (m : GoM S A) : GoM S unit := go_try m (λ _, go_ret tt).

(** [go_on_err m h]: on an error of [m], run the handler [h] (its own error is
    not looked at) and return the error of [m]. *)
Definition go_on_err {S A} (m : GoM S A) (h : GoM S unit) : GoM S A :=
  go_try m (λ r, match r with
                 | inl a => go_ret a
                 | inr e => go_bind (go_ignore h) (λ _, go_err e)
                 end).

(** [go_map_err m f]: [return fmt.Errorf("...: %w", err)]. *)
Definition go_map_err {S A} (m : GoM S A) (f : error → error) : GoM S A :=
  go_try m (λ r, match r with inl a => go_ret a | inr e => go_err (f e) end).

Declare Scope go_scope.
Delimit Scope go_scope with go.
Bind Scope go_scope with GoM.
Open Scope go_scope.

Notation "x <- m ;; k" := (go_bind m (λ x, k))
  (at level 20, m at level 99, k at level 200, only parsing) : go_scope.
Notation "' p <- m ;; k" := (go_bind m (λ p, k))
  (at level 20, p pattern, m at level 99, k at level 200, only parsing) : go_scope.
Notation "m ;; k" := (go_bind m (λ _, k))
  (at level 100, k at level 200, only parsing, right associativity) : go_scope.

(** ** Automation

    [go_simpl] runs straight-line code: it unfolds the combinators and
    reduces the matches on known results. [go_inv H] splits a finished run of
    a bind into the run of its first half and that of the rest. The [go_db]
    database holds the composition lemmas of [maintains], so that
    [eauto with go_db] proves that a handler keeps a relation from the lemmas
    of the operations it calls. *)

Create HintDb go_db discriminated.
#[export] Hint Constants Opaque : go_db.
#[export] Hint Variables Opaque : go_db.

Ltac go_unfold :=
  unfold go_on_err, go_map_err, go_ignore, go_try, go_bind, go_ret, go_err,
         go_panic, go_lift, go_get, go_modify in *.

Ltac go_simpl := go_unfold; simpl in *.

(** Case analysis on the scrutinee of a match in the goal or in a hypothesis. *)
Ltac case_go :=
  match goal with
  | H : context [match ?x with _ => _ end] |- _ =>
      lazymatch type of x with
      | sumbool _ _ => destruct x
      | _ => let E := fresh "E" in destruct x eqn:E
      end
  | |- context [match ?x with _ => _ end] =>
      lazymatch type of x with
      | sumbool _ _ => destruct x
      | _ => let E := fresh "E" in destruct x eqn:E
      end
  end.

Section go_lemmas.
Context {S : Type}.

Lemma go_bind_ok {A B} (m : GoM S A) (f : A → GoM S B) s a s' :
  m s = (Ok a, s') → go_bind m f s = f a s'.
Proof. unfold go_bind. by intros ->. Qed.

Lemma go_try_ok {A B} (m : GoM S A) (k : A + error → GoM S B) s a s' :
  m s = (Ok a, s') → go_try m k s = k (inl a) s'.
Proof. unfold go_try. by intros ->. Qed.

Lemma go_bind_err {A B} (m : GoM S A) (f : A → GoM S B) s e s' :
  m s = (Err e, s') → go_bind m f s = (Err e, s').
Proof. unfold go_bind. by intros ->. Qed.

Lemma go_bind_Ok_inv {A B} (m : GoM S A) (f : A → GoM S B) s b s' :
  go_bind m f s = (Ok b, s') → ∃ a s1, m s = (Ok a, s1) ∧ f a s1 = (Ok b, s').
Proof. unfold go_bind. destruct (m s) as [[a|e|p|] s1]; naive_solver. Qed.

Lemma go_bind_assoc {A B C} (m : GoM S A) (f : A → GoM S B) (g : B → GoM S C) s :
  go_bind (go_bind m f) g s = go_bind m (λ a, go_bind (f a) g) s.
Proof. unfold go_bind. by destruct (m s) as [[] ?]. Qed.

(** [maintains R m]: whatever [m] comes back with, its run relates the state
    before to the state after by [R]. *)
Definition maintains {A} (R : S → S → Prop) (m : GoM S A) : Prop :=
  ∀ s, R s (m s).2.

Context (R : S → S → Prop) `{!Reflexive R, !Transitive R}.

Lemma maintains_ret {A} (a : A) : maintains R (go_ret a).
Proof. intros s. done. Qed.
Lemma maintains_err {A} e : maintains R (go_err (A:=A) e).
Proof. intros s. done. Qed.
Lemma maintains_panic {A} p : maintains R (go_panic (A:=A) p).
Proof. intros s. done. Qed.
Lemma maintains_lift {A} (r : res A) : maintains R (go_lift r).
Proof. intros s. done. Qed.
Lemma maintains_get : maintains R go_get.
Proof. intros s. done. Qed.

Lemma maintains_bind {A B} (m : GoM S A) (f : A → GoM S B) :
  maintains R m → (∀ a, maintains R (f a)) → maintains R (go_bind m f).
Proof.
  intros Hm Hf s. specialize (Hm s). unfold go_bind.
  destruct (m s) as [[a|e|p|] s1]; simpl in *; try done.
  etrans; [done|apply Hf].
Qed.

(** The same at one state, where what [m] returned is known. *)
Lemma maintains_bind_at {A B} (m : GoM S A) (f : A → GoM S B) s :
  R s (m s).2 → (∀ a s', m s = (Ok a, s') → R s' (f a s').2) → R s (go_bind m f s).2.
Proof.
  intros Hm Hf. unfold go_bind. destruct (m s) as [[a|e|p|] s1]; try done.
  etrans; [exact Hm|]. by apply Hf.
Qed.

Lemma maintains_try {A B} (m : GoM S A) (k : A + error → GoM S B) :
  maintains R m → (∀ r, maintains R (k r)) → maintains R (go_try m k).
Proof.
  intros Hm Hk s. specialize (Hm s). unfold go_try.
  destruct (m s) as [[a|e|p|] s1]; simpl in *; try done; (etrans; [done|apply Hk]).
Qed.

Lemma maintains_ignore {A} (m : GoM S A) : maintains R m → maintains R (go_ignore m).
Proof. intros. apply maintains_try; auto using maintains_ret. Qed.

Lemma maintains_on_err {A} (m : GoM S A) h :
  maintains R m → maintains R h → maintains R (go_on_err m h).
Proof.
  intros. apply maintains_try; [done|]. intros []; [apply maintains_ret|].
  apply maintains_bind; auto using maintains_ignore, maintains_err.
Qed.

Lemma maintains_map_err {A} (m : GoM S A) f :
  maintains R m → maintains R (go_map_err m f).
Proof.
  intros. apply maintains_try; [done|].
  intros []; auto using maintains_ret, maintains_err.
Qed.
End go_lemmas.

#[export] Hint Resolve maintains_ret maintains_err maintains_panic maintains_lift
  maintains_get maintains_bind maintains_try maintains_ignore maintains_on_err
  maintains_map_err : go_db.

(** ** Lemmas on bytes, lists and integers *)

Lemma byte_val_range b : 0 ≤ byte_val b < 256.
Proof.
  unfold byte_val. pose proof (Stdlib.Strings.Byte.to_N_bounded b). lia.
Qed.

Lemma byte_val_of_Z z : byte_val (byte_of_Z z) = z mod 256.
Proof.
  unfold byte_val, byte_of_Z.
  pose proof (Z.mod_pos_bound z 256 ltac:(lia)) as Hz.
  destruct (Stdlib.Strings.Byte.of_N (Z.to_N (z mod 256))) as [b|] eqn:E; simpl.
  - apply Stdlib.Strings.Byte.to_of_N in E. lia.
  - apply Stdlib.Strings.Byte.of_N_None_iff in E. lia.
Qed.

#[global] Instance byte_val_inj : Inj (=) (=) byte_val.
Proof.
  intros a b Hab. unfold byte_val in Hab.
  apply (inj Some). rewrite <-!Stdlib.Strings.Byte.of_to_N. f_equal. lia.
Qed.

Lemma byte_of_val b : byte_of_Z (byte_val b) = b.
Proof.
  apply (inj byte_val). rewrite byte_val_of_Z.
  apply Z.mod_small, byte_val_range.
Qed.

Lemma len_nonneg {A} (l : list A) : 0 ≤ len l.
Proof. unfold len. lia. Qed.

Lemma len_app {A} (l k : list A) : len (l ++ k) = len l + len k.
Proof. unfold len. rewrite length_app. lia. Qed.

Lemma len_cons {A} (x : A) l : len (x :: l) = 1 + len l.
Proof. unfold len. simpl. lia. Qed.

Lemma uint_small w z : 0 ≤ z < 2 ^ w → uint w z = z.
Proof. apply Z.mod_small. Qed.

Lemma uint_range w z : 0 ≤ w → 0 ≤ uint w z < 2 ^ w.
Proof. intros. apply Z.mod_pos_bound. lia. Qed.

Lemma int64_mod z : int64 z mod 2 ^ 64 = z mod 2 ^ 64.
Proof.
  unfold int64. case_decide; [apply Zmod_mod|].
  rewrite <-(Z.mod_add (z mod 2 ^ 64 - 2 ^ 64) 1) by lia.
  replace (z mod 2 ^ 64 - 2 ^ 64 + 1 * 2 ^ 64) with (z mod 2 ^ 64) by lia. apply Zmod_mod.
Qed.

Lemma int64_cong a b : a mod 2 ^ 64 = b mod 2 ^ 64 → int64 a = int64 b.
Proof. intros H. unfold int64. by rewrite H. Qed.

(** The wrap-around of a sum does not depend on earlier wrap-arounds. *)
Lemma int64_add_l a b : int64 (int64 a + b) = int64 (a + b).
Proof. apply int64_cong. by rewrite Zplus_mod, int64_mod, <-Zplus_mod. Qed.

Lemma int64_idem a : int64 (int64 a) = int64 a.
Proof. apply int64_cong, int64_mod. Qed.

Lemma int64_small a : - 2 ^ 63 ≤ a < 2 ^ 63 → int64 a = a.
Proof.
  intros Ha. unfold int64. case_decide as Hd.
  - destruct (decide (0 ≤ a)); [apply Z.mod_small; lia|].
    rewrite <-(Z.mod_add a 1) in Hd by lia. rewrite Z.mod_small in Hd; lia.
  - destruct (decide (0 ≤ a)); [rewrite Z.mod_small in Hd; lia|].
    rewrite <-(Z.mod_add a 1) by lia. rewrite Z.mod_small; lia.
Qed.

Lemma int64_range z : - 2 ^ 63 ≤ int64 z < 2 ^ 63.
Proof.
  unfold int64. pose proof (Z.mod_pos_bound z (2 ^ 64) ltac:(lia)). case_decide; lia.
Qed.

Lemma uint_int64 z : 0 ≤ z < 2 ^ 64 → uint 64 (int64 z) = z.
Proof. intros. unfold uint. rewrite int64_mod. by apply Z.mod_small. Qed.

Lemma uint_add_l w a b : uint w (uint w a + b) = uint w (a + b).
Proof. unfold uint. by rewrite Zplus_mod, Zmod_mod, <-Zplus_mod. Qed.

Lemma int64_uint z : - 2 ^ 63 ≤ z < 2 ^ 63 → int64 (uint 64 z) = z.
Proof.
  intros Hz. rewrite <-(int64_small z) at 2 by done. apply int64_cong, Zmod_mod.
Qed.

Lemma take_drop_app_exact {A} (n : nat) (l k : list A) :
  length l = n → take n (l ++ k) = l ∧ drop n (l ++ k) = k.
Proof. intros <-. by rewrite take_app_length, drop_app_length. Qed.

Lemma filter_all {A} (P : A → Prop) `{!∀ x, Decision (P x)} (l : list A) :
  Forall P l → filter P l = l.
Proof.
  induction 1 as [|x l Hx _ IH]; [done|]. by rewrite filter_cons_True, IH.
Qed.

(** ** Loops that retry

    [for i := 0; i < n; i++ { if err := attempt(i); err != nil { continue };
    return }]: whether an attempt succeeded, and how many were made. *)

Fixpoint retry (attempt : nat → option error) (i n : nat) : bool * nat :=
  match n with
  | O => (false, i)
  | S n => match attempt i with
           | Some _ => retry attempt (S i) n
           | None => (true, S i)
           end
  end.

Lemma retry_spec attempt n : ∀ i,
  match retry attempt i n with
  | (true, k) => ∃ j, k = S j ∧ (i ≤ j < i + n)%nat ∧ attempt j = None ∧
                      ∀ l, (i ≤ l < j)%nat → attempt l ≠ None
  | (false, k) => k = (i + n)%nat ∧ ∀ l, (i ≤ l < i + n)%nat → attempt l ≠ None
  end.
Proof.
  induction n as [|n IH]; intros i; simpl; [split; lia|].
  destruct (attempt i) as [e|] eqn:Ei; [|exists i; split_and!; (done || lia)].
  specialize (IH (S i)).
  assert (∀ l, (i ≤ l)%nat → (S i ≤ l)%nat ∨ attempt l ≠ None) as Hl.
  { intros l ?. destruct (decide (l = i)) as [->|]; [right; congruence|left; lia]. }
  destruct (retry attempt (S i) n) as [[] k].
  - destruct IH as (j & -> & ? & ? & Hk). exists j. split_and!; try (done || lia).
    intros l ?. destruct (Hl l); [lia|apply Hk; lia|done].
  - destruct IH as (-> & Hk). split; [lia|]. intros l ?. destruct (Hl l); [lia|apply Hk; lia|done].
Qed.
