(* ===== verification/Binary.v ===== *)
(** * Binary.v: the parts of Go's standard library that the snapshot and data
    directory formats are built from.

    [encoding/binary] (little endian), [hash/crc32] (the IEEE polynomial),
    [crypto/md5] and [io.ReadFull]. These model the language's library as the
    program uses it: [fsm/store.go] and [fsm/utils.go] are their callers. *)
From S2P Require Import Prelude.

(** ** encoding/binary: LittleEndian *)

(** [PutUintW] on [n] bytes: [b[i] = byte(v >> 8i)]. *)
Fixpoint le_put (n : nat) (v : Z) : bytes :=
  match n with
  | O => []
  | S n => byte_of_Z v :: le_put n (Z.shiftr v 8)
  end.

(** [UintW]: [b[0] | b[1]<<8 | ...]. *)
Fixpoint le_get (b : bytes) : Z :=
  match b with
  | [] => 0
  | x :: b => Z.lor (byte_val x) (Z.shiftl (le_get b) 8)
  end.

Definition PutUint16 (v : Z) : bytes := le_put 2 v.
Definition PutUint32 (v : Z) : bytes := le_put 4 v.
Definition PutUint64 (v : Z) : bytes := le_put 8 v.

Definition Uint16 (b : bytes) : Z := le_get (take 2 b).
Definition Uint32 (b : bytes) : Z := le_get (take 4 b).
Definition Uint64 (b : bytes) : Z := le_get (take 8 b).

(** ** hash/crc32: the IEEE table and the update loop *)

Definition crc_poly : Z := 0xedb88320.
Definition mask32 : Z := 0xffffffff.

(** One round of [simpleMakeTable]'s inner loop. *)
Definition crc_round (crc : Z) : Z :=
  if Z.testbit crc 0 then Z.lxor (Z.shiftr crc 1) crc_poly else Z.shiftr crc 1.

(** The table entry of byte [i]. *)
Definition crc_entry (i : Z) : Z := Nat.iter 8 crc_round i.

(** [crc = tab[byte(crc)^v] ^ (crc >> 8)] *)
Definition crc_byte (crc : Z) (v : byte) : Z :=
  Z.lxor (crc_entry (Z.lxor (crc mod 256) (byte_val v))) (Z.shiftr crc 8).

Definition crc32_update (crc : Z) (p : bytes) : Z :=
  Z.lxor (foldl crc_byte (Z.lxor crc mask32) p) mask32.

(** A hasher is its running checksum: [NewIEEE], [Write] and [Sum32]. *)
Definition crc32_new : Z := 0.
Definition crc32 (p : bytes) : Z := crc32_update crc32_new p.

(** ** crypto/md5 *)

Definition md5_K : list Z :=
  [
    0xd76aa478; 0xe8c7b756; 0x242070db; 0xc1bdceee; 0xf57c0faf; 0x4787c62a; 0xa8304613; 0xfd469501;
    0x698098d8; 0x8b44f7af; 0xffff5bb1; 0x895cd7be; 0x6b901122; 0xfd987193; 0xa679438e; 0x49b40821;
    0xf61e2562; 0xc040b340; 0x265e5a51; 0xe9b6c7aa; 0xd62f105d; 0x02441453; 0xd8a1e681; 0xe7d3fbc8;
    0x21e1cde6; 0xc33707d6; 0xf4d50d87; 0x455a14ed; 0xa9e3e905; 0xfcefa3f8; 0x676f02d9; 0x8d2a4c8a;
    0xfffa3942; 0x8771f681; 0x6d9d6122; 0xfde5380c; 0xa4beea44; 0x4bdecfa9; 0xf6bb4b60; 0xbebfbc70;
    0x289b7ec6; 0xeaa127fa; 0xd4ef3085; 0x04881d05; 0xd9d4d039; 0xe6db99e5; 0x1fa27cf8; 0xc4ac5665;
    0xf4292244; 0x432aff97; 0xab9423a7; 0xfc93a039; 0x655b59c3; 0x8f0ccc92; 0xffeff47d; 0x85845dd1;
    0x6fa87e4f; 0xfe2ce6e0; 0xa3014314; 0x4e0811a1; 0xf7537e82; 0xbd3af235; 0x2ad7d2bb; 0xeb86d391
  ].

Definition md5_S : list Z :=
  [7; 12; 17; 22; 5; 9; 14; 20; 4; 11; 16; 23; 6; 10; 15; 21].

Definition rotl32 (x s : Z) : Z :=
  Z.lor (uint 32 (Z.shiftl x s)) (Z.shiftr x (32 - s)).

Definition not32 (x : Z) : Z := Z.lxor x mask32.

(** The chaining state of the digest. *)
Record md5_state := MkMd5 { md5_a : Z; md5_b : Z; md5_c : Z; md5_d : Z }.

Definition md5_init : md5_state :=
  MkMd5 0x67452301 0xefcdab89 0x98badcfe 0x10325476.

(** The round function and the message word that step [i] uses. *)
Definition md5_fg (i : nat) (b c d : Z) : Z * nat :=
  match (i `div` 16)%nat with
  | 0%nat => (Z.lor (Z.land b c) (Z.land (not32 b) d), i)
  | 1%nat => (Z.lor (Z.land d b) (Z.land (not32 d) c), ((5 * i + 1) `mod` 16)%nat)
  | 2%nat => (Z.lxor (Z.lxor b c) d, ((3 * i + 5) `mod` 16)%nat)
  | _ => (Z.lxor c (Z.lor b (not32 d)), ((7 * i) `mod` 16)%nat)
  end.

Definition md5_round (words : list Z) (st : md5_state) (i : nat) : md5_state :=
  let '(MkMd5 a b c d) := st in
  let '(f, g) := md5_fg i b c d in
  let t := uint 32 (a + f + nth i md5_K 0 + nth g words 0) in
  let s := nth (4 * (i `div` 16) + i `mod` 4) md5_S 0 in
  MkMd5 d (uint 32 (b + rotl32 t s)) b c.

Definition md5_words (block : bytes) : list Z :=
  (λ i, Uint32 (drop (4 * i) block)) <$> seq 0 16.

Definition md5_block (st : md5_state) (block : bytes) : md5_state :=
  let st' := foldl (md5_round (md5_words block)) st (seq 0 64) in
  MkMd5 (uint 32 (md5_a st + md5_a st')) (uint 32 (md5_b st + md5_b st'))
        (uint 32 (md5_c st + md5_c st')) (uint 32 (md5_d st + md5_d st')).

(** The padding: 0x80, zeros up to 56 modulo 64, and the length in bits. *)
Definition md5_pad (msg : bytes) : bytes :=
  let n := length msg in
  let z := ((119 - n `mod` 64) `mod` 64)%nat in
  msg ++ [byte_of_Z 0x80] ++ replicate z (byte_of_Z 0) ++ le_put 8 (8 * Z.of_nat n).

Fixpoint md5_blocks (n : nat) (data : bytes) (st : md5_state) : md5_state :=
  match n with
  | O => st
  | S n => md5_blocks n (drop 64 data) (md5_block st (take 64 data))
  end.

(** [h := md5.New(); h.Write(msg); h.Sum(nil)] *)
Definition md5_sum (msg : bytes) : bytes :=
  let data := md5_pad msg in
  let st := md5_blocks (length data `div` 64) data md5_init in
  le_put 4 (md5_a st) ++ le_put 4 (md5_b st) ++ le_put 4 (md5_c st) ++ le_put 4 (md5_d st).

(** ** io.Reader and io.ReadFull

    A reader is the data it still has to give and what it returns after it:
    [None] for io.EOF, [Some e] for a read error. *)
Record reader := MkReader { r_data : bytes; r_err : option error }.

(** [n, err := io.ReadFull(r, buf)] with [len(buf) = n]: the bytes read, the
    error, and the reader afterwards. An empty buffer is always filled. *)
Definition ReadFull (n : Z) (r : reader) : bytes * option error * reader :=
  if decide (n ≤ len (r_data r)) then
    (take (Z.to_nat n) (r_data r), None, MkReader (drop (Z.to_nat n) (r_data r)) (r_err r))
  else
    (r_data r,
     Some (match r_err r with
           | Some e => e
           | None => match r_data r with [] => EOF | _ => ErrUnexpectedEOF end
           end),
     MkReader [] (r_err r)).

(** ** Lemmas *)

Lemma lor_shiftl_add x y : 0 ≤ x < 256 → Z.lor x (Z.shiftl y 8) = x + 256 * y.
Proof.
  intros Hx. assert (Z.land x (Z.shiftl y 8) = 0) as Hl.
  { apply Z.bits_inj_iff'. intros i Hi.
    rewrite Z.land_spec, Z.bits_0, Z.shiftl_spec by lia.
    destruct (decide (i < 8)) as [Hi8|Hi8].
    - rewrite (Z.testbit_neg_r y) by lia. apply andb_false_r.
    - assert (x = x mod 2 ^ 8) as -> by (rewrite Z.mod_small; lia).
      rewrite Z.mod_pow2_bits_high by lia. done. }
  pose proof (Z.add_lor_land x (Z.shiftl y 8)) as Ha.
  rewrite Hl, Z.shiftl_mul_pow2 in Ha by lia.
  rewrite Z.shiftl_mul_pow2 by lia. lia.
Qed.

Lemma length_le_put n v : length (le_put n v) = n.
Proof. revert v. induction n; intros v; simpl; auto. Qed.

Lemma le_get_put n v : le_get (le_put n v) = v mod 2 ^ (8 * Z.of_nat n).
Proof.
  revert v. induction n as [|n IH]; intros v; simpl le_put; simpl le_get.
  { by rewrite Z.mod_1_r. }
  rewrite lor_shiftl_add by apply byte_val_range.
  rewrite IH, byte_val_of_Z, Z.shiftr_div_pow2 by lia.
  replace (8 * Z.of_nat (S n)) with (8 + 8 * Z.of_nat n) by lia.
  rewrite Z.pow_add_r by lia. change (2 ^ 8) with 256.
  rewrite Z.rem_mul_r by lia. lia.
Qed.

Lemma le_get_range b : 0 ≤ le_get b < 2 ^ (8 * len b).
Proof.
  induction b as [|x b IH]; [done|]. simpl le_get.
  pose proof (byte_val_range x). rewrite lor_shiftl_add, len_cons by done.
  replace (8 * (1 + len b)) with (8 + 8 * len b) by lia.
  rewrite Z.pow_add_r by (pose proof (len_nonneg b); lia).
  change (2 ^ 8) with 256. lia.
Qed.

(** Putting back what was read. *)
Lemma le_put_get b n : length b = n → le_put n (le_get b) = b.
Proof.
  revert n. induction b as [|x b IH]; intros [|n] Hn; try done. simpl in Hn.
  simpl le_get. simpl le_put.
  pose proof (byte_val_range x). rewrite lor_shiftl_add by done. f_equal.
  - apply (inj byte_val). rewrite byte_val_of_Z.
    rewrite (Z.mul_comm 256), Z.mod_add by lia. by apply Z.mod_small.
  - rewrite Z.shiftr_div_pow2 by lia. change (2 ^ 8) with 256.
    rewrite (Z.mul_comm 256), Z.div_add, Z.div_small by lia. simpl. apply IH. lia.
Qed.

Lemma Put_Uint64 b : (8 ≤ length b)%nat → PutUint64 (Uint64 b) = take 8 b.
Proof. intros. apply le_put_get. rewrite length_take. lia. Qed.
Lemma Put_Uint32 b : (4 ≤ length b)%nat → PutUint32 (Uint32 b) = take 4 b.
Proof. intros. apply le_put_get. rewrite length_take. lia. Qed.
Lemma Put_Uint16 b : (2 ≤ length b)%nat → PutUint16 (Uint16 b) = take 2 b.
Proof. intros. apply le_put_get. rewrite length_take. lia. Qed.

Lemma le_get_take_range n b : 0 ≤ le_get (take n b) < 2 ^ (8 * Z.of_nat n).
Proof.
  pose proof (le_get_range (take n b)) as H. unfold len in H. rewrite length_take in H.
  split; [lia|]. eapply Z.lt_le_trans; [apply H|]. apply Z.pow_le_mono_r; lia.
Qed.
Lemma Uint64_range b : 0 ≤ Uint64 b < 2 ^ 64.
Proof. apply (le_get_take_range 8). Qed.
Lemma Uint32_range b : 0 ≤ Uint32 b < 2 ^ 32.
Proof. apply (le_get_take_range 4). Qed.
Lemma Uint16_range b : 0 ≤ Uint16 b < 2 ^ 16.
Proof. apply (le_get_take_range 2). Qed.

(** Reading back what was put, with anything after it in the buffer. *)
Lemma Uint64_Put v k : 0 ≤ v < 2 ^ 64 → Uint64 (PutUint64 v ++ k) = v.
Proof.
  intros. unfold Uint64, PutUint64.
  rewrite (take_app_length' (le_put 8 v)) by by rewrite length_le_put.
  rewrite le_get_put. by apply Z.mod_small.
Qed.

Lemma Uint32_Put v k : 0 ≤ v < 2 ^ 32 → Uint32 (PutUint32 v ++ k) = v.
Proof.
  intros. unfold Uint32, PutUint32.
  rewrite (take_app_length' (le_put 4 v)) by by rewrite length_le_put.
  rewrite le_get_put. by apply Z.mod_small.
Qed.

Lemma Uint16_Put v k : 0 ≤ v < 2 ^ 16 → Uint16 (PutUint16 v ++ k) = v.
Proof.
  intros. unfold Uint16, PutUint16.
  rewrite (take_app_length' (le_put 2 v)) by by rewrite length_le_put.
  rewrite le_get_put. by apply Z.mod_small.
Qed.

(** Hashing piecewise is hashing the concatenation. *)
Lemma crc32_update_app c p q : crc32_update (crc32_update c p) q = crc32_update c (p ++ q).
Proof.
  unfold crc32_update. rewrite foldl_app. f_equal. f_equal.
  by rewrite Z.lxor_assoc, Z.lxor_nilpotent, Z.lxor_0_r.
Qed.

Lemma crc32_update_nil c : crc32_update c [] = c.
Proof.
  unfold crc32_update. simpl. by rewrite Z.lxor_assoc, Z.lxor_nilpotent, Z.lxor_0_r.
Qed.

Lemma lxor_bound n x y :
  0 < n → 0 ≤ x < 2 ^ n → 0 ≤ y < 2 ^ n → 0 ≤ Z.lxor x y < 2 ^ n.
Proof.
  intros Hn [Hx0 Hx] [Hy0 Hy].
  assert (0 ≤ Z.lxor x y) as H0 by (apply Z.lxor_nonneg; lia). split; [done|].
  destruct (decide (Z.lxor x y = 0)) as [->|Hne]; [lia|].
  apply Z.log2_lt_pow2; [lia|].
  eapply Z.le_lt_trans; [by apply Z.log2_lxor|].
  apply Z.max_lub_lt.
  - destruct (decide (x = 0)) as [->|]; [done|]. apply Z.log2_lt_pow2; lia.
  - destruct (decide (y = 0)) as [->|]; [done|]. apply Z.log2_lt_pow2; lia.
Qed.

Lemma lxor_bound32 x y : 0 ≤ x < 2 ^ 32 → 0 ≤ y < 2 ^ 32 → 0 ≤ Z.lxor x y < 2 ^ 32.
Proof. by apply lxor_bound. Qed.
Lemma lxor_bound8 x y : 0 ≤ x < 256 → 0 ≤ y < 256 → 0 ≤ Z.lxor x y < 256.
Proof. by apply (lxor_bound 8). Qed.

Lemma shiftr_bound32 x k : 0 ≤ k → 0 ≤ x < 2 ^ 32 → 0 ≤ Z.shiftr x k < 2 ^ 32.
Proof.
  intros Hk [Hx0 Hx]. rewrite Z.shiftr_div_pow2 by done.
  split; [apply Z.div_pos; lia|].
  apply Z.div_lt_upper_bound; [lia|]. nia.
Qed.

Lemma crc_entry_range i : 0 ≤ i < 2 ^ 32 → 0 ≤ crc_entry i < 2 ^ 32.
Proof.
  intros Hi. unfold crc_entry. generalize 8%nat as n.
  induction n as [|n IH]; [done|]. simpl. unfold crc_round at 1 3.
  destruct (Z.testbit _ 0).
  - apply lxor_bound32; [by apply shiftr_bound32|]. unfold crc_poly. lia.
  - by apply shiftr_bound32.
Qed.

(** The top bytes of the table entries are pairwise different. *)
Lemma crc_entry_top i j :
  0 ≤ i < 256 → 0 ≤ j < 256 →
  Z.shiftr (crc_entry i) 24 = Z.shiftr (crc_entry j) 24 → i = j.
Proof.
  intros Hi Hj.
  assert (∀ n : nat, (n < 256)%nat → ∀ k : nat, (k < 256)%nat →
            Z.shiftr (crc_entry (Z.of_nat n)) 24 = Z.shiftr (crc_entry (Z.of_nat k)) 24 → n = k) as H.
  { assert (NoDup ((λ n : nat, Z.shiftr (crc_entry (Z.of_nat n)) 24) <$> seq 0 256)) as Hnd
      by (apply (bool_decide_unpack _); vm_compute; exact I).
    intros n Hn k Hk Heq. eapply (NoDup_lookup _ n k); [exact Hnd| |];
      rewrite list_lookup_fmap, lookup_seq_lt by lia; [reflexivity|]. simpl. by rewrite Heq. }
  intros Heq. specialize (H (Z.to_nat i) ltac:(lia) (Z.to_nat j) ltac:(lia)).
  rewrite !Z2Nat.id in H by lia. specialize (H Heq). lia.
Qed.

(** A step of the checksum loses nothing of the running value, and sees every
    byte. *)
Lemma crc_byte_inj c1 c2 v1 v2 :
  0 ≤ c1 < 2 ^ 32 → 0 ≤ c2 < 2 ^ 32 → crc_byte c1 v1 = crc_byte c2 v2 →
  Z.lxor (c1 mod 256) (byte_val v1) = Z.lxor (c2 mod 256) (byte_val v2) ∧
  Z.shiftr c1 8 = Z.shiftr c2 8.
Proof.
  intros H1 H2 Heq. unfold crc_byte in Heq.
  assert (∀ c v, 0 ≤ Z.lxor (c mod 256) (byte_val v) < 256) as Hidx.
  { intros c v. apply lxor_bound8; [|apply byte_val_range]. apply Z.mod_pos_bound. lia. }
  assert (∀ c, 0 ≤ c < 2 ^ 32 → Z.shiftr (Z.shiftr c 8) 24 = 0) as Htop.
  { intros c Hc. rewrite Z.shiftr_shiftr, Z.shiftr_div_pow2 by lia. apply Z.div_small. simpl. lia. }
  assert (Z.lxor (c1 mod 256) (byte_val v1) = Z.lxor (c2 mod 256) (byte_val v2)) as Hi.
  { apply crc_entry_top; [apply Hidx..|].
    apply (f_equal (λ z, Z.shiftr z 24)) in Heq.
    by rewrite !Z.shiftr_lxor, !Htop, !Z.lxor_0_r in Heq. }
  split; [done|]. rewrite Hi in Heq.
  apply (f_equal (Z.lxor (crc_entry (Z.lxor (c2 mod 256) (byte_val v2))))) in Heq.
  by rewrite <-!Z.lxor_assoc, !Z.lxor_nilpotent, !Z.lxor_0_l in Heq.
Qed.

Lemma lxor_cancel_l a b c : Z.lxor a b = Z.lxor a c → b = c.
Proof.
  intros H%(f_equal (Z.lxor a)). by rewrite <-!Z.lxor_assoc, !Z.lxor_nilpotent, !Z.lxor_0_l in H.
Qed.

Lemma crc_byte_range c v : 0 ≤ c < 2 ^ 32 → 0 ≤ crc_byte c v < 2 ^ 32.
Proof.
  intros Hc. unfold crc_byte. pose proof (Z.mod_pos_bound c 256 ltac:(lia)).
  pose proof (byte_val_range v).
  apply lxor_bound32; [|by apply shiftr_bound32].
  apply crc_entry_range, lxor_bound32; lia.
Qed.

Lemma crc_fold_inj p c1 c2 :
  0 ≤ c1 < 2 ^ 32 → 0 ≤ c2 < 2 ^ 32 → foldl crc_byte c1 p = foldl crc_byte c2 p → c1 = c2.
Proof.
  revert c1 c2. induction p as [|b p IH]; intros c1 c2 H1 H2; [done|]. simpl. intros H.
  apply IH in H; [|by apply crc_byte_range..].
  apply crc_byte_inj in H as [Hlo Hhi]; [|done..].
  rewrite !(Z.lxor_comm _ (byte_val b)) in Hlo. apply lxor_cancel_l in Hlo.
  rewrite !Z.shiftr_div_pow2 in Hhi by lia. change (2 ^ 8) with 256 in Hhi.
  pose proof (Z.div_mod c1 256 ltac:(lia)). pose proof (Z.div_mod c2 256 ltac:(lia)). lia.
Qed.

Lemma crc_fold_range p c : 0 ≤ c < 2 ^ 32 → 0 ≤ foldl crc_byte c p < 2 ^ 32.
Proof.
  revert c. induction p as [|b p IH]; intros c Hc; [done|]. by apply IH, crc_byte_range.
Qed.

Lemma crc32_range p : 0 ≤ crc32 p < 2 ^ 32.
Proof.
  unfold crc32, crc32_update. apply lxor_bound32; [|unfold mask32; lia].
  apply crc_fold_range. vm_compute. split; congruence.
Qed.

(** Changing one byte changes the checksum. *)
Lemma crc32_one_byte p a b q : crc32 (p ++ a :: q) = crc32 (p ++ b :: q) → a = b.
Proof.
  unfold crc32, crc32_update. rewrite !(Z.lxor_comm _ mask32). intros H%lxor_cancel_l.
  rewrite !foldl_app in H. simpl in H.
  assert (0 ≤ foldl crc_byte (Z.lxor mask32 crc32_new) p < 2 ^ 32) as Hr
    by (apply crc_fold_range; vm_compute; split; congruence).
  apply crc_fold_inj in H; [|by apply crc_byte_range..].
  apply crc_byte_inj in H as [H _]; [|done..]. apply lxor_cancel_l in H. by apply (inj byte_val).
Qed.

Lemma length_md5_sum msg : length (md5_sum msg) = 16%nat.
Proof. unfold md5_sum. by rewrite !length_app, !length_le_put. Qed.

(** [ReadFull] of a prefix that is there. *)
Lemma ReadFull_app n p q e :
  len p = n → ReadFull n (MkReader (p ++ q) e) = (p, None, MkReader q e).
Proof.
  intros <-. unfold ReadFull. simpl. rewrite len_app.
  rewrite decide_True by (pose proof (len_nonneg q); lia).
  unfold len. rewrite Nat2Z.id. by rewrite take_app_length, drop_app_length.
Qed.

(** A successful [ReadFull] consumes exactly the bytes it returns. *)
Lemma ReadFull_None n r b r' :
  0 ≤ n → ReadFull n r = (b, None, r') →
  len b = n ∧ r_data r = b ++ r_data r' ∧ r_err r' = r_err r.
Proof.
  intros Hn. unfold ReadFull, len. case_decide; intros [= <- <-]. simpl.
  rewrite length_take, take_drop. split; [lia|done].
Qed.

(** A failed [ReadFull] leaves nothing to read. *)
Lemma ReadFull_Some n r b e r' :
  ReadFull n r = (b, Some e, r') → b = r_data r ∧ len b < n ∧ r' = MkReader [] (r_err r).
Proof. unfold ReadFull. case_decide; intros [= <- <- <-]. split; [done|]. split; [lia|done]. Qed.

(** Reading at the end of the stream. *)
Lemma ReadFull_EOF n : 0 < n → ReadFull n (MkReader [] None) = ([], Some EOF, MkReader [] None).
Proof. intros. unfold ReadFull. simpl. by rewrite decide_False by (unfold len; simpl; lia). Qed.

(** Reading exactly what is left. *)
Lemma ReadFull_all p e : ReadFull (len p) (MkReader p e) = (p, None, MkReader [] e).
Proof. pose proof (ReadFull_app (len p) p [] e eq_refl) as H. by rewrite app_nil_r in H. Qed.

Example crc32_check : crc32 (string_bytes "123456789") = 0xcbf43926.
Proof. reflexivity. Qed.

Example md5_check :
  md5_sum (string_bytes "abc") =
  byte_of_Z <$> [0x90; 0x01; 0x50; 0x98; 0x3c; 0xd2; 0x4f; 0xb0;
                 0xd6; 0x96; 0x3f; 0x7d; 0x28; 0xe1; 0x7f; 0x72].
Proof. vm_compute. reflexivity. Qed.

(** Proofs work with these through their lemmas. *)
#[global] Arguments le_put : simpl never.
#[global] Arguments le_get : simpl never.
#[global] Arguments PutUint16 : simpl never.
#[global] Arguments PutUint32 : simpl never.
#[global] Arguments PutUint64 : simpl never.
#[global] Arguments Uint16 : simpl never.
#[global] Arguments Uint32 : simpl never.
#[global] Arguments Uint64 : simpl never.
#[global] Arguments crc32_update : simpl never.
#[global] Arguments md5_sum : simpl never.
#[global] Arguments ReadFull : simpl never.
