(* ===== verification/Paths.v ===== *)
(** * Paths.v: Go's [path/filepath] on Unix, as the data directory code uses it.

    A path string is parsed into its lexical meaning: whether it is rooted, and
    its components once [.], [..] and repeated slashes are gone. [Clean] prints
    that back, [Join] and [Dir] are defined from it. Paths are also the keys of
    the file system model (FileSystem.v). *)
From Stdlib Require Import Ascii.
From S2P Require Import Prelude.

Record path := MkPath { p_rooted : bool; p_comps : list string }.

#[global] Instance path_eq_dec : EqDecision path.
Proof. solve_decision. Defined.
#[global] Instance path_countable : Countable path.
Proof.
  refine (inj_countable' (λ p, (p_rooted p, p_comps p)) (λ x, MkPath x.1 x.2) _).
  by intros [].
Defined.

(** The pieces of a path string between slashes. *)
Fixpoint split_slash (s : string) : list string :=
  match s with
  | EmptyString => [EmptyString]
  | String c s' =>
      if decide (c = "/"%char) then EmptyString :: split_slash s'
      else match split_slash s' with
           | [] => [String c EmptyString]
           | p :: ps => String c p :: ps
           end
  end.

Definition is_rooted (s : string) : bool :=
  match s with String c _ => bool_decide (c = "/"%char) | _ => false end.

(** One piece against the components seen so far (last one first). *)
Definition clean_step (rooted : bool) (stack : list string) (c : string) : list string :=
  if decide (c = "" ∨ c = ".") then stack
  else if decide (c = "..") then
    match stack with
    | [] => if rooted then [] else [".."]
    | top :: rest => if decide (top = "..") then ".." :: stack else rest
    end
  else c :: stack.

Definition clean_pieces (rooted : bool) (pieces : list string) : list string :=
  reverse (foldl (clean_step rooted) [] pieces).

Definition path_of (s : string) : path :=
  MkPath (is_rooted s) (clean_pieces (is_rooted s) (split_slash s)).

Definition path_str (p : path) : string :=
  if p_rooted p then "/" +:+ String.concat "/" (p_comps p)
  else match p_comps p with [] => "." | cs => String.concat "/" cs end.

Definition Clean (s : string) : string := path_str (path_of s).

(** [filepath.Join(dir, name)]: empty elements are skipped. *)
Definition Join (dir name : string) : string :=
  if decide (dir = "") then (if decide (name = "") then "" else Clean name)
  else if decide (name = "") then Clean dir
  else Clean (dir +:+ "/" +:+ name).

(** [filepath.Dir(s)]: everything up to the last slash, cleaned. *)
Definition Dir (s : string) : string :=
  path_str (MkPath (is_rooted s) (clean_pieces (is_rooted s) (removelast (split_slash s)))).

(** [below p q]: [q] is [p] or lies under it. *)
Definition below (p q : path) : Prop :=
  p_rooted p = p_rooted q ∧ p_comps p `prefix_of` p_comps q.
#[global] Instance below_dec p q : Decision (below p q) := _.

Definition child (p : path) (name : string) : path :=
  MkPath (p_rooted p) (p_comps p ++ [name]).

Definition parent (p : path) : path := MkPath (p_rooted p) (removelast (p_comps p)).

(** A file name: one piece, and not one that [Clean] drops. *)
Definition fname (n : string) : Prop :=
  split_slash n = [n] ∧ n ≠ "" ∧ n ≠ "." ∧ n ≠ "..".
#[global] Instance fname_dec n : Decision (fname n) := _.

(** ** Lemmas *)

Lemma split_slash_nonnil s : split_slash s ≠ [].
Proof. destruct s; simpl; [done|]. case_decide; [done|]. by destruct (split_slash s). Qed.

Lemma split_slash_app a b :
  split_slash (a +:+ "/" +:+ b) = split_slash a ++ split_slash b.
Proof.
  induction a as [|c a IH]; [done|]. simpl. rewrite IH.
  case_decide; [done|]. pose proof (split_slash_nonnil a).
  by destruct (split_slash a).
Qed.

Lemma string_app_nil s : s +:+ "" = s.
Proof. induction s as [|c s IH]; [done|]. exact (f_equal (String c) IH). Qed.

Lemma is_rooted_app a b : a ≠ "" → is_rooted (a +:+ b) = is_rooted a.
Proof. by destruct a. Qed.

Lemma split_slash_concat cs :
  cs ≠ [] → Forall (λ c, split_slash c = [c]) cs →
  split_slash (String.concat "/" cs) = cs.
Proof.
  induction cs as [|c cs IH]; [done|]. intros _ [Hc Hcs]%Forall_cons.
  destruct cs as [|c' cs]; [done|].
  change (String.concat "/" (c :: c' :: cs)) with (c +:+ "/" +:+ String.concat "/" (c' :: cs)).
  rewrite split_slash_app, Hc. simpl. f_equal. by apply IH.
Qed.

(** The shape [Clean] produces: a run of [..] (none when rooted), then names. *)
Definition wf_comps (rooted : bool) (cs : list string) : Prop :=
  ∃ k ns, cs = replicate k ".." ++ ns ∧ Forall fname ns ∧ (rooted = true → k = 0%nat).

Definition wf_path (p : path) : Prop := wf_comps (p_rooted p) (p_comps p).

Lemma fname_piece n : fname n → split_slash n = [n].
Proof. by intros [? _]. Qed.

Lemma clean_step_fname r st n : fname n → clean_step r st n = n :: st.
Proof.
  intros (_ & ? & ? & ?). unfold clean_step.
  rewrite decide_False by naive_solver. by rewrite decide_False.
Qed.

Lemma foldl_clean_fnames r st ns :
  Forall fname ns → foldl (clean_step r) st ns = reverse ns ++ st.
Proof.
  revert st. induction ns as [|n ns IH]; intros st; [done|].
  intros [Hn Hns]%Forall_cons_1. simpl. rewrite clean_step_fname, IH by done.
  by rewrite reverse_cons, <-(assoc_L (++)).
Qed.

Lemma clean_dotdots j k :
  foldl (clean_step false) (replicate j "..") (replicate k "..") = replicate (k + j) "..".
Proof.
  revert j. induction k as [|k IH]; intros j; [done|]. simpl.
  assert (clean_step false (replicate j "..") ".." = replicate (S j) "..") as ->
    by by destruct j.
  rewrite IH. by rewrite Nat.add_succ_r.
Qed.

Lemma clean_pieces_wf r cs : wf_comps r cs → clean_pieces r cs = cs.
Proof.
  intros (k & ns & -> & Hns & Hr). unfold clean_pieces. rewrite foldl_app.
  assert (foldl (clean_step r) [] (replicate k "..") = replicate k "..") as ->.
  { destruct r; [by rewrite Hr|].
    pose proof (clean_dotdots 0 k) as H. by rewrite Nat.add_0_r in H. }
  rewrite foldl_clean_fnames by done.
  rewrite reverse_app, reverse_involutive. f_equal. apply reverse_replicate.
Qed.

Lemma wf_comps_pieces r cs :
  wf_comps r cs → Forall (λ c, split_slash c = [c]) cs.
Proof.
  intros (k & ns & -> & Hns & _). apply Forall_app. split.
  - apply Forall_replicate. done.
  - eapply Forall_impl; [done|]. intros ? [? _]. done.
Qed.

Lemma is_rooted_concat cs r : wf_comps r cs → is_rooted (String.concat "/" cs) = false.
Proof.
  intros Hwf. destruct cs as [|c cs]; [done|].
  assert (∀ t, split_slash c = [c] → c ≠ "" → is_rooted (c +:+ t) = false) as Hc.
  { intros t. destruct c as [|x c]; [done|]. simpl. intros Hs _.
    apply bool_decide_eq_false. intros ->. by rewrite decide_True in Hs. }
  assert (split_slash c = [c] ∧ c ≠ "") as [H1 H2].
  { split; [by apply wf_comps_pieces, Forall_cons in Hwf as [? _]|].
    destruct Hwf as ([|k] & ns & Heq & Hns & _); simpl in Heq; [|naive_solver].
    subst. by apply Forall_cons in Hns as [(_ & ? & _) _]. }
  destruct cs as [|c' cs].
  - specialize (Hc "" H1 H2). simpl.
    by rewrite string_app_nil in Hc.
  - apply (Hc ("/" +:+ String.concat "/" (c' :: cs)) H1 H2).
Qed.

(** Printing and parsing a cleaned path gives it back. *)
Lemma path_of_str p : wf_path p → path_of (path_str p) = p.
Proof.
  destruct p as [r cs]. intros Hwf. unfold wf_path in Hwf. simpl in Hwf.
  unfold path_of, path_str. cbn [p_rooted p_comps]. destruct r.
  - change (is_rooted ("/" +:+ String.concat "/" cs)) with true. f_equal.
    change (split_slash ("/" +:+ String.concat "/" cs)) with ("" :: split_slash (String.concat "/" cs)).
    assert (clean_pieces true ("" :: split_slash (String.concat "/" cs)) =
            clean_pieces true (split_slash (String.concat "/" cs))) as -> by done.
    destruct cs as [|c cs]; [done|].
    rewrite split_slash_concat by (eauto using wf_comps_pieces; done).
    by apply clean_pieces_wf.
  - destruct cs as [|c cs]; [done|].
    rewrite (is_rooted_concat _ _ Hwf). f_equal.
    rewrite split_slash_concat by (eauto using wf_comps_pieces; done).
    by apply clean_pieces_wf.
Qed.

Lemma wf_comps_app_fname r cs n : wf_comps r cs → fname n → wf_comps r (cs ++ [n]).
Proof.
  intros (k & ns & -> & Hns & Hr) Hn. exists k, (ns ++ [n]).
  rewrite (assoc_L (++)). split; [done|]. split; [|done].
  apply Forall_app. by rewrite Forall_singleton.
Qed.

Lemma split_slash_piece s c : c ∈ split_slash s → split_slash c = [c].
Proof.
  revert c. induction s as [|x s IH]; intros c; simpl.
  { by intros ->%list_elem_of_singleton. }
  case_decide as Hx.
  { intros [->|Hc]%elem_of_cons; [done|auto]. }
  destruct (split_slash s) as [|p ps] eqn:E.
  { by apply split_slash_nonnil in E. }
  intros [->|Hc]%elem_of_cons; [|apply IH; by apply elem_of_cons; right].
  simpl. rewrite decide_False by done. rewrite IH by (apply elem_of_cons; by left). done.
Qed.

Lemma wf_comps_clean r ps :
  Forall (λ c, split_slash c = [c]) ps → wf_comps r (clean_pieces r ps).
Proof.
  intros Hps. unfold clean_pieces.
  assert (wf_comps r (reverse [])) as H0 by (exists 0%nat, []; done).
  revert H0. generalize (@nil string) as st.
  induction ps as [|c ps IH]; intros st Hst; [done|].
  apply Forall_cons in Hps as [Hc Hps]. simpl. apply (IH Hps).
  unfold clean_step. case_decide as H1; [done|]. case_decide as H2.
  - destruct st as [|top rest].
    { destruct r; [done|]. exists 1%nat, []. done. }
    destruct Hst as (k & ns & Heq & Hns & Hr).
    rewrite reverse_cons in Heq. case_decide as H3.
    + subst. destruct ns as [|n ns' _] using rev_ind.
      * rewrite app_nil_r in Heq. exists (S k), [].
        rewrite app_nil_r, !reverse_cons, Heq, replicate_S_end.
        split; [done|]. split; [done|]. intros Hr'. rewrite (Hr Hr') in Heq.
        by destruct (reverse rest).
      * rewrite (assoc_L (++)) in Heq. apply app_inj_2 in Heq as [_ [= <-]]; [|done].
        rewrite Forall_app, Forall_singleton in Hns. destruct Hns as [_ (_ & _ & _ & Hn)]. by destruct Hn.
    + destruct ns as [|n ns' _] using rev_ind.
      * rewrite app_nil_r in Heq. destruct k as [|k]; [by destruct (reverse rest)|].
        rewrite replicate_S_end in Heq. apply app_inj_2 in Heq as [_ [= ->]]; done.
      * rewrite (assoc_L (++)) in Heq. apply app_inj_2 in Heq as [Heq _]; [|done].
        exists k, ns'. apply Forall_app in Hns as [Hns _]. done.
  - rewrite reverse_cons. apply wf_comps_app_fname; [done|].
    unfold fname. naive_solver.
Qed.

Lemma wf_path_of s : wf_path (path_of s).
Proof.
  unfold wf_path, path_of. simpl. apply wf_comps_clean, Forall_forall.
  intros c Hc. by eapply split_slash_piece.
Qed.

Lemma wf_child p n : wf_path p → fname n → wf_path (child p n).
Proof. apply wf_comps_app_fname. Qed.

Lemma path_of_Clean s : path_of (Clean s) = path_of s.
Proof. apply path_of_str, wf_path_of. Qed.

Lemma clean_pieces_snoc r ps n :
  fname n → clean_pieces r (ps ++ [n]) = clean_pieces r ps ++ [n].
Proof.
  intros Hn. unfold clean_pieces. rewrite foldl_app. simpl.
  by rewrite clean_step_fname, reverse_cons.
Qed.

(** [Join] on a file name adds one component. *)
Lemma path_of_Join d n : fname n → path_of (Join d n) = child (path_of d) n.
Proof.
  intros Hn. unfold Join. pose proof Hn as (Hs & Hne & _ & _).
  rewrite !(decide_False (P := n = "")) by done. case_decide as Hd.
  - subst d. rewrite path_of_Clean. unfold path_of, child. simpl. rewrite Hs.
    assert (is_rooted n = false) as ->.
    { destruct n as [|c n]; [done|]. apply bool_decide_eq_false. intros ->.
      by simpl in Hs. }
    f_equal. apply (clean_pieces_snoc false [] n Hn).
  - rewrite path_of_Clean. unfold path_of, child. simpl.
    rewrite is_rooted_app, split_slash_app, Hs by done. f_equal.
    by apply clean_pieces_snoc.
Qed.

Lemma Join_Clean d n : fname n → Clean (Join d n) = Join d n.
Proof.
  intros Hn. unfold Join. pose proof Hn as (_ & Hne & _).
  rewrite !(decide_False (P := n = "")) by done.
  case_decide; unfold Clean; by rewrite path_of_str by apply wf_path_of.
Qed.

(** A joined path is the printed child: two names give two different paths. *)
Lemma Join_str d n : fname n → Join d n = path_str (child (path_of d) n).
Proof. intros Hn. rewrite <-(Join_Clean d n Hn). unfold Clean. by rewrite path_of_Join. Qed.

(** [Dir] undoes [Join]. *)
Lemma path_of_Dir_Join d n : fname n → path_of (Dir (Join d n)) = path_of d.
Proof.
  intros Hn. rewrite Join_str by done.
  pose proof (wf_path_of d) as Hwf. pose proof (wf_child _ n Hwf Hn) as Hwc.
  destruct (path_of d) as [r cs]. unfold wf_path in *. simpl in *.
  assert (split_slash (String.concat "/" (cs ++ [n])) = cs ++ [n]) as Hsp.
  { apply split_slash_concat; [by destruct cs|]. by eapply wf_comps_pieces. }
  unfold Dir, path_str, child. cbn [p_rooted p_comps]. destruct r.
  - set (t := String.concat "/" (cs ++ [n])) in *. change (is_rooted ("/" +:+ t)) with true.
    change (split_slash ("/" +:+ t)) with ("" :: split_slash t).
    rewrite Hsp, app_comm_cons, removelast_last.
    assert (clean_pieces true ("" :: cs) = cs) as ->.
    { transitivity (clean_pieces true cs); [done|by apply clean_pieces_wf]. }
    apply (path_of_str (MkPath true cs)). done.
  - assert (match cs ++ [n] with [] => "." | c :: l => String.concat "/" (c :: l) end =
            String.concat "/" (cs ++ [n])) as -> by by destruct cs.
    rewrite (is_rooted_concat _ _ Hwc), Hsp, removelast_last, clean_pieces_wf by done.
    apply (path_of_str (MkPath false cs)). done.
Qed.

Lemma Join_inj d n n' : fname n → fname n' → Join d n = Join d n' → n = n'.
Proof.
  intros Hn Hn' Heq%(f_equal path_of). rewrite !path_of_Join in Heq by done.
  unfold child in Heq. injection Heq as Heq. by apply app_inj_tail in Heq as [_ ?].
Qed.

Lemma parent_child p n : parent (child p n) = p.
Proof. destruct p. unfold parent, child. simpl. by rewrite removelast_last. Qed.

Lemma below_refl p : below p p.
Proof. by split. Qed.

#[global] Instance below_trans : Transitive below.
Proof. intros p q r [H1 H2] [H3 H4]. split; [congruence|by etrans]. Qed.

Lemma below_child p n : below p (child p n).
Proof. split; [done|]. simpl. by apply prefix_app_r. Qed.

Lemma below_child_cases p q n : below q (child p n) → below q p ∨ q = child p n.
Proof.
  intros [Hr [k Hp]]. destruct q as [r cs]. simpl in *. subst r.
  destruct k as [|x k _] using rev_ind.
  - right. rewrite app_nil_r in Hp. unfold child. by rewrite Hp.
  - left. rewrite (assoc_L (++)) in Hp. apply app_inj_tail in Hp as [Hp _].
    split; [done|]. by exists k.
Qed.

Lemma below_child_inj p n n' q :
  below (child p n) q → below (child p n') q → n = n'.
Proof.
  intros [_ [k1 H1]] [_ [k2 H2]]. simpl in *. rewrite H1 in H2.
  rewrite <-!(assoc_L (++)) in H2. by apply (inj (p_comps p ++.)) in H2 as [= ? _].
Qed.

Lemma not_below_child p n : ¬ below (child p n) p.
Proof. intros [_ H%prefix_length]. simpl in H. rewrite length_app in H. simpl in H. lia. Qed.

Example Clean_examples :
  Clean "a//b/./c/../d/" = "a/b/d" ∧ Clean "/../x" = "/x" ∧ Clean "" = "." ∧
  Join "/data/node1/" "user_data" = "/data/node1/user_data" ∧ Join "" "x" = "x" ∧
  Dir "/data/n/123_4" = "/data/n" ∧ Dir "x" = "." ∧ Clean "../a/../../b" = "../../b".
Proof. by vm_compute. Qed.
