(* ===== verification/Pebble.v ===== *)
(** * Pebble.v: what the program asks of its storage engine.

    [github.com/cockroachdb/pebble/v2] is not part of the repository: the class
    [Pebble] lists the operations the sources call, [PebbleLaws] what their
    documentation promises when a call succeeds, and [PebbleReliable] the
    absence of I/O failures. Nothing is assumed of a call that fails. The store
    and the state machine are written against this interface; [Mem] below is a
    concrete instance that evaluates, and that can be told to fail commits. *)
From S2P Require Import Prelude.

Class Pebble := {
  DB : Type;
  Batch : Type;
  Snapshot : Type;
  (** a database just created in an empty directory *)
  db_fresh : DB;
  (** [db.Get(key)]: [ErrNotFound] when the key is absent *)
  db_Get : DB → bytes → bytes + error;
  (** [db.NewBatch()], [b.Set], [b.Delete] *)
  db_NewBatch : DB → Batch;
  batch_Set : Batch → bytes → bytes → option error * Batch;
  batch_Delete : Batch → bytes → option error * Batch;
  (** [b.Commit(pebble.Sync)] on the database it was made from *)
  batch_Commit : DB → Batch → option error * DB;
  (** [db.NewSnapshot()] *)
  db_NewSnapshot : DB → Snapshot;
  (** [snapshot.NewIter]; then the entries that [First]/[Valid]/[Next] walk
      through and what [iter.Error()] says at the end *)
  snap_NewIter : Snapshot → (list (bytes * bytes) * option error) + error;
  (** the contents the documentation talks about *)
  db_map : DB → gmap bytes bytes;
  batch_map : Batch → gmap bytes bytes → gmap bytes bytes;
  snap_map : Snapshot → gmap bytes bytes;
}.

Class PebbleLaws (P : Pebble) : Prop := {
  db_fresh_map : db_map db_fresh = ∅;
  db_Get_Ok db k v : db_Get db k = inl v → db_map db !! k = Some v;
  db_Get_NotFound db k : db_Get db k = inr ErrNotFound → db_map db !! k = None;
  db_NewBatch_map db m : batch_map (db_NewBatch db) m = m;
  batch_Set_map b k v b' m :
    batch_Set b k v = (None, b') → batch_map b' m = <[k := v]> (batch_map b m);
  batch_Delete_map b k b' m :
    batch_Delete b k = (None, b') → batch_map b' m = delete k (batch_map b m);
  batch_Commit_map db b db' :
    batch_Commit db b = (None, db') → db_map db' = batch_map b (db_map db);
  db_NewSnapshot_map db : snap_map (db_NewSnapshot db) = db_map db;
  snap_NewIter_map s l :
    snap_NewIter s = inl (l, None) → NoDup l.*1 ∧ list_to_map l = snap_map s;
}.

Class PebbleReliable (P : Pebble) : Prop := {
  db_Get_total db k : (∃ v, db_Get db k = inl v) ∨ db_Get db k = inr ErrNotFound;
  batch_Set_ok b k v : (batch_Set b k v).1 = None;
  batch_Commit_ok db b : (batch_Commit db b).1 = None;
  snap_NewIter_ok s : ∃ l, snap_NewIter s = inl (l, None);
}.

Section pebble_facts.
Context `{PL : PebbleLaws, !PebbleReliable _}.

(** On a reliable engine a read is the lookup. *)
Lemma db_Get_lookup db k :
  db_Get db k = match db_map db !! k with Some v => inl v | None => inr ErrNotFound end.
Proof.
  destruct (db_Get_total db k) as [[v Hv]|Hn].
  - by rewrite Hv, (db_Get_Ok _ _ _ Hv).
  - by rewrite Hn, (db_Get_NotFound _ _ Hn).
Qed.

(** On a reliable engine a batch of one [Set] is an insertion. *)
Lemma batch_Set_reliable b k v :
  ∃ b', batch_Set b k v = (None, b') ∧ ∀ m, batch_map b' m = <[k := v]> (batch_map b m).
Proof.
  pose proof (batch_Set_ok b k v) as H. destruct (batch_Set b k v) as [o b'] eqn:E.
  simpl in H. subst o. exists b'. split; [done|]. intros m. by eapply batch_Set_map.
Qed.

Lemma batch_Commit_reliable db b :
  ∃ db', batch_Commit db b = (None, db') ∧ db_map db' = batch_map b (db_map db).
Proof.
  pose proof (batch_Commit_ok db b) as H. destruct (batch_Commit db b) as [o db'] eqn:E.
  simpl in H. subst o. exists db'. split; [done|]. by eapply batch_Commit_map.
Qed.
End pebble_facts.

(** ** An in-memory engine

    [Mem bad]: the database is a finite map; a commit fails, and changes
    nothing, when it would write a key of which [bad] holds. *)
Definition mem_batch : Type := list (bytes * option bytes).

Definition mem_apply (b : mem_batch) (m : gmap bytes bytes) : gmap bytes bytes :=
  foldr (λ kv m, match kv.2 with Some v => <[kv.1 := v]> m | None => delete kv.1 m end) m b.

Definition Mem (bad : bytes → bool) : Pebble := {|
  DB := gmap bytes bytes;
  Batch := mem_batch;
  Snapshot := gmap bytes bytes;
  db_fresh := ∅;
  db_Get db k := match db !! k with Some v => inl v | None => inr ErrNotFound end;
  db_NewBatch _ := [];
  batch_Set b k v := (None, (k, Some v) :: b);
  batch_Delete b k := (None, (k, None) :: b);
  batch_Commit db b :=
    if existsb (λ kv, bad kv.1) b then (Some (Errno 5), db) else (None, mem_apply b db);
  db_NewSnapshot db := db;
  snap_NewIter s := inl (map_to_list s, None);
  db_map db := db;
  batch_map := mem_apply;
  snap_map s := s;
|}.

Definition no_fault (_ : bytes) : bool := false.

#[global] Instance mem_laws bad : PebbleLaws (Mem bad).
Proof.
  split; simpl; try done.
  - intros db k v. by destruct (db !! k); intros [= ->].
  - intros db k. by destruct (db !! k).
  - by intros b k v b' m [= <-].
  - by intros b k b' m [= <-].
  - intros db b db'. by destruct (existsb _ _); intros [= <-].
  - intros s l [= <-]. split; [apply NoDup_fst_map_to_list|apply list_to_map_to_list].
Qed.

Lemma existsb_no_fault {A} (f : A → bytes) b : existsb (λ kv, no_fault (f kv)) b = false.
Proof. by induction b. Qed.

#[global] Instance mem_reliable : PebbleReliable (Mem no_fault).
Proof.
  split; simpl; try done; [|..].
  - intros db k. destruct (db !! k); naive_solver.
  - intros db b. by rewrite existsb_no_fault.
  - eauto.
Qed.
