(* ===== verification/FileSystem.v ===== *)
(** * FileSystem.v: the operating system as the store sees it.

    The disk is a finite map from paths to directories and files, plus the
    database held by each database directory. Every system call first consults
    a fault oracle (so that each error branch of the callers can be reached),
    and a call that changes the disk records the new disk in a trace: the disks
    of the trace are the ones a crash can leave behind. A file remembers
    whether its data has been synced; a crash may replace the data of a file
    that has not been. A directory entry that was made, renamed or removed
    remembers what it was before until its directory is synced: a crash may bring
    any of that back, in any combination, and takes along what lies below. *)
From S2P Require Import Prelude Binary Paths Pebble.

Inductive node :=
| NDir
| NFile (data : bytes) (synced : bool).

#[global] Instance node_eq_dec : EqDecision node.
Proof. solve_decision. Defined.

Section filesystem.
Context {P : Pebble}.

Record disk := MkDisk {
  d_fs : gmap path node;
  d_dbs : gmap path DB;
  d_old : gmap path (list (option node));
      (** what the entries were, since their directory was synced last *)
}.

Record world := MkWorld {
  w_disk : disk;
  w_closed : gset path;          (** database handles that were closed *)
  w_orc : list (option error);   (** the faults to come; none when empty *)
  w_rand : list Z;               (** results of [rand.Uint64()] *)
  w_clock : list Z;              (** results of [time.Now()], in nanoseconds *)
  w_trace : list disk;           (** the disks after each change so far *)
}.

(** One system call: it fails when the oracle says so, else it runs [f]. *)
Definition sys {A} (f : disk → res A * disk) : GoM world A :=
  λ w, match w_orc w with
       | Some e :: o =>
           (Err e, MkWorld (w_disk w) (w_closed w) o (w_rand w) (w_clock w) (w_trace w))
       | o =>
           let '(r, d) := f (w_disk w) in
           (r, MkWorld d (w_closed w) (tail o) (w_rand w) (w_clock w) (w_trace w ++ [d]))
       end.

Definition set_fs (f : gmap path node → gmap path node) (d : disk) : disk :=
  MkDisk (f (d_fs d)) (d_dbs d) (d_old d).

(** An entry that is about to change. *)
Definition push (p : path) (was : option node) (old : gmap path (list (option node))) :
    gmap path (list (option node)) := <[p := was :: default [] (old !! p)]> old.

Definition link (p : path) (n : node) (d : disk) : disk :=
  MkDisk (<[p := n]> (d_fs d)) (d_dbs d) (push p (d_fs d !! p) (d_old d)).

(** The directory [p] is synced. *)
Definition dir_synced (p : path) (d : disk) : disk :=
  MkDisk (d_fs d) (d_dbs d) (filter (λ kv, parent kv.1 ≠ p) (d_old d)).

(** ENOTDIR, EISDIR, EEXIST: the errors of a call on the wrong kind of node. *)
Definition ENOTDIR : error := Errno 20.
Definition EISDIR : error := Errno 21.
Definition EEXIST : error := Errno 17.

Definition is_dir (d : disk) (p : path) : bool :=
  match d_fs d !! p with Some NDir => true | _ => false end.

(** A directory exists when it is recorded, and the root and the working
    directory always do. *)
Definition dir_exists (d : disk) (p : path) : bool :=
  match p_comps p with [] => true | _ => is_dir d p end.

(** [os.Stat(name)]: whether it is a directory. *)
Definition os_Stat (name : string) : GoM world bool :=
  sys (λ d, let p := path_of name in
            match d_fs d !! p with
            | Some NDir => (Ok true, d)
            | Some (NFile _ _) => (Ok false, d)
            | None => if decide (p_comps p = []) then (Ok true, d) else (Err ErrNotExist, d)
            end).

(** The directories [MkdirAll] makes on the way to [p]. *)
Definition prefixes (p : path) : list path :=
  (λ k, MkPath (p_rooted p) (take k (p_comps p))) <$> seq 1 (length (p_comps p)).

Definition mkdirs (fs : gmap path node) (ps : list path) : gmap path node :=
  foldl (λ fs p, match fs !! p with Some _ => fs | None => <[p := NDir]> fs end) fs ps.

(** [os.MkdirAll(dir, perm)] *)
Definition os_MkdirAll (dir : string) : GoM world unit :=
  sys (λ d, let ps := prefixes (path_of dir) in
            if existsb (λ p, match d_fs d !! p with Some (NFile _ _) => true | _ => false end) ps
            then (Err ENOTDIR, d)
            else (Ok tt, MkDisk (mkdirs (d_fs d) ps) (d_dbs d)
                           (foldr (λ p, push p None) (d_old d) (filter (λ p, d_fs d !! p = None) ps)))).

(** [os.Create(name)]: an empty file, in a directory that exists. *)
Definition os_Create (name : string) : GoM world unit :=
  sys (λ d, let p := path_of name in
            if dir_exists d (parent p) then
              match d_fs d !! p with
              | Some NDir => (Err EISDIR, d)
              | _ => (Ok tt, link p (NFile [] false) d)
              end
            else (Err ErrNotExist, d)).

(** [f.Write(data)] on the file created at [name]. *)
Definition f_Write (name : string) (data : bytes) : GoM world unit :=
  sys (λ d, let p := path_of name in
            match d_fs d !! p with
            | Some (NFile old _) => (Ok tt, set_fs <[p := NFile (old ++ data) false]> d)
            | _ => (Err ErrNotExist, d)
            end).

(** [f.Sync()] *)
Definition f_Sync (name : string) : GoM world unit :=
  sys (λ d, let p := path_of name in
            match d_fs d !! p with
            | Some (NFile data _) => (Ok tt, set_fs <[p := NFile data true]> d)
            | _ => (Err ErrNotExist, d)
            end).

(** [f.Close()] of a file or directory handle. *)
Definition f_Close : GoM world unit := sys (λ d, (Ok tt, d)).

(** [os.Open(dir)] and [df.Sync()] of a directory handle. *)
Definition os_OpenDir (name : string) : GoM world unit :=
  sys (λ d, if dir_exists d (path_of name) then (Ok tt, d) else (Err ErrNotExist, d)).
Definition f_SyncDir (name : string) : GoM world unit := sys (λ d, (Ok tt, dir_synced (path_of name) d)).

(** [os.Rename(a, b)] of a file. *)
Definition os_Rename (a b : string) : GoM world unit :=
  sys (λ d, let pa := path_of a in let pb := path_of b in
            match d_fs d !! pa with
            | Some (NFile data s) =>
                if dir_exists d (parent pb) then
                  match d_fs d !! pb with
                  | Some NDir => (Err EEXIST, d)
                  | _ => (Ok tt, MkDisk (<[pb := NFile data s]> (delete pa (d_fs d))) (d_dbs d)
                                   (push pb (d_fs d !! pb) (push pa (d_fs d !! pa) (d_old d))))
                  end
                else (Err ErrNotExist, d)
            | Some NDir => (Err EISDIR, d)
            | None => (Err ErrNotExist, d)
            end).

(** [os.OpenFile(name, os.O_RDONLY, _)]; the handle is the name. *)
Definition os_OpenRead (name : string) : GoM world unit :=
  sys (λ d, match d_fs d !! path_of name with
            | Some _ => (Ok tt, d)
            | None => (Err ErrNotExist, d)
            end).

(** [io.ReadAll(f)] *)
Definition f_ReadAll (name : string) : GoM world bytes :=
  sys (λ d, match d_fs d !! path_of name with
            | Some (NFile data _) => (Ok data, d)
            | Some NDir => (Err EISDIR, d)
            | None => (Err ErrNotExist, d)
            end).

(** [os.ReadDir(dir)]: the entries with their kinds. *)
Definition dir_entries (d : disk) (p : path) : list (string * bool) :=
  omap (λ '(q, n), match last (p_comps q) with
                   | Some name =>
                       if decide (q = child p name)
                       then Some (name, match n with NDir => true | _ => false end)
                       else None
                   | None => None
                   end) (map_to_list (d_fs d)).

Definition os_ReadDir (dir : string) : GoM world (list (string * bool)) :=
  sys (λ d, if dir_exists d (path_of dir) then (Ok (dir_entries d (path_of dir)), d)
            else (Err ErrNotExist, d)).

(** What is at the paths [X] is removed. *)
Definition remove_if (X : path → Prop) `{!∀ q, Decision (X q)} (d : disk) : disk :=
  MkDisk (filter (λ kv, ¬ X kv.1) (d_fs d)) (filter (λ kv, ¬ X kv.1) (d_dbs d))
    (union_with (λ a b, Some (a ++ b)) ((λ n, [Some n]) <$> filter (λ kv, X kv.1) (d_fs d)) (d_old d)).

(** [os.RemoveAll(name)]: everything at or under the path; no error when
    there is nothing. *)
Definition os_RemoveAll (name : string) : GoM world unit :=
  sys (λ d, (Ok tt, remove_if (below (path_of name)) d)).

(** [rand.Uint64()] and [time.Now()] *)
Definition rand_Uint64 : GoM world Z :=
  λ w, (Ok (uint 64 (default 0 (head (w_rand w)))),
        MkWorld (w_disk w) (w_closed w) (w_orc w) (tail (w_rand w)) (w_clock w) (w_trace w)).
Definition time_Now : GoM world Z :=
  λ w, (Ok (int64 (default 0 (head (w_clock w)))),
        MkWorld (w_disk w) (w_closed w) (w_orc w) (w_rand w) (tail (w_clock w)) (w_trace w)).

(** [pebbledb.OpenPebbleDB(cfg, dir, log)]: opens the database that lives in
    [dir], creating the directory and an empty database when there is none.
    The handle is the directory. *)
Definition OpenPebbleDB (dir : string) : GoM world path :=
  os_MkdirAll dir ;;
  sys (λ d, let p := path_of dir in
            (Ok p, MkDisk (d_fs d)
                     (match d_dbs d !! p with Some _ => d_dbs d | None => <[p := db_fresh]> (d_dbs d) end)
                     (d_old d))) ;;
  (λ w, (Ok (path_of dir),
         MkWorld (w_disk w) (w_closed w ∖ {[path_of dir]}) (w_orc w) (w_rand w) (w_clock w) (w_trace w))).

(** Using a database through its handle: a closed handle panics. *)
Definition with_db {A} (h : path) (f : DB → res A * DB) : GoM world A :=
  λ w, if decide (h ∈ w_closed w) then (Panic "pebble: closed", w)
       else match d_dbs (w_disk w) !! h with
            | Some db =>
                let '(r, db') := f db in
                let d := MkDisk (d_fs (w_disk w)) (<[h := db']> (d_dbs (w_disk w))) (d_old (w_disk w)) in
                (r, MkWorld d (w_closed w) (w_orc w) (w_rand w) (w_clock w) (w_trace w ++ [d]))
            | None => (Panic "pebble: closed", w)
            end.

(** [db.Flush()] and [db.Close()] *)
Definition pebble_Flush (h : path) : GoM world unit :=
  λ w, if decide (h ∈ w_closed w) then (Panic "pebble: closed", w)
       else sys (λ d, (Ok tt, d)) w.
Definition pebble_Close (h : path) : GoM world unit :=
  λ w, if decide (h ∈ w_closed w) then (Panic "pebble: closed", w)
       else (Ok tt, MkWorld (w_disk w) ({[h]} ∪ w_closed w) (w_orc w) (w_rand w) (w_clock w) (w_trace w)).
End filesystem.
Arguments disk _ : clear implicits.
Arguments world _ : clear implicits.
Arguments disk {P}.
Arguments world {P}.

(** ** Frames

    [steps_off X w w']: going from [w] to [w'], every disk on the way agrees
    with the one of [w] outside the set of paths [X], and no handle outside [X]
    is opened or closed. *)
Section frames.
Context {P : Pebble}.

(** An entry as it was, or synced. *)
Definition settles (o o' : option (list (option node))) : Prop := o' = o ∨ o' = None.

Lemma settles_trans o1 o2 o3 : settles o1 o2 → settles o2 o3 → settles o1 o3.
Proof. unfold settles. intuition congruence. Qed.

Lemma settles_synced p d q : settles (d_old d !! q) (d_old (dir_synced p d) !! q).
Proof.
  destruct (d_old (dir_synced p d) !! q) as [x|] eqn:E; [|by right]. left.
  by apply map_lookup_filter_Some in E as [-> _].
Qed.

Lemma synced_none p d q : d_old d !! q = None → d_old (dir_synced p d) !! q = None.
Proof. intros H. destruct (settles_synced p d q) as [->| ->]; done. Qed.

Definition agree_off (X : path → Prop) (d d' : disk) : Prop :=
  ∀ p, ¬ X p → d_fs d' !! p = d_fs d !! p ∧ d_dbs d' !! p = d_dbs d !! p ∧
               settles (d_old d !! p) (d_old d' !! p).

(** From [w] to [w'], every disk on the way is related to the one of [w] by
    [R], and only handles in [X] were opened or closed. *)
Definition steps (R : disk → disk → Prop) (X : path → Prop) (w w' : world) : Prop :=
  R (w_disk w) (w_disk w') ∧
  (∃ l, w_trace w' = w_trace w ++ l ∧ Forall (R (w_disk w)) l) ∧
  (∀ p, ¬ X p → (p ∈ w_closed w' ↔ p ∈ w_closed w)).

Definition steps_off (X : path → Prop) : world → world → Prop := steps (agree_off X) X.

(** The same, where directories above [new] may also have been made. *)
Definition grows (new : path) (d d' : disk) : Prop :=
  ∀ p, ¬ below new p →
    ((d_fs d' !! p = d_fs d !! p ∧ settles (d_old d !! p) (d_old d' !! p)) ∨
     (p ∈ prefixes new ∧ d_fs d !! p = None ∧ d_fs d' !! p = Some NDir)) ∧
    d_dbs d' !! p = d_dbs d !! p.

Definition steps_grows (new : path) : world → world → Prop := steps (grows new) (below new).

#[export] Instance agree_off_refl X : Reflexive (agree_off X).
Proof. intros d p Hp. by repeat split; left. Qed.
#[export] Instance agree_off_trans X : Transitive (agree_off X).
Proof.
  intros d1 d2 d3 H1 H2 p Hp. destruct (H1 p Hp) as (F1 & B1 & S1), (H2 p Hp) as (F2 & B2 & S2).
  rewrite F2, B2. split; [done|]. split; [done|]. by eapply settles_trans.
Qed.

#[export] Instance grows_refl new : Reflexive (grows new).
Proof. intros d p Hp. split; [|done]. left. by split; [|left]. Qed.
#[export] Instance grows_trans new : Transitive (grows new).
Proof.
  intros d1 d2 d3 H1 H2 p Hp. destruct (H1 p Hp) as [F1 B1], (H2 p Hp) as [F2 B2].
  split; [|by rewrite B2]. destruct F1 as [[F1 S1]|(? & ? & F1)], F2 as [[F2 S2]|(? & ? & F2)].
  - left. rewrite F2. split; [done|]. by eapply settles_trans.
  - right. by rewrite <-F1.
  - right. by rewrite F2.
  - by rewrite F1 in *.
Qed.

Section steps.
Context (R : disk → disk → Prop) (X : path → Prop) `{!Reflexive R, !Transitive R}.

#[export] Instance steps_refl : Reflexive (steps R X).
Proof. intros w. split; [done|]. split; [|done]. exists []. by rewrite app_nil_r. Qed.
#[export] Instance steps_trans : Transitive (steps R X).
Proof.
  intros w1 w2 w3 (H1 & (l1 & T1 & F1) & C1) (H2 & (l2 & T2 & F2) & C2).
  split; [by etrans|]. split; [|intros p Hp; by rewrite C2, C1].
  exists (l1 ++ l2). rewrite T2, T1, (assoc_L (++)). split; [done|].
  apply Forall_app. split; [done|]. eapply Forall_impl; [done|]. intros d Hd. by etrans.
Qed.

Lemma sys_steps {A} (f : disk → res A * disk) :
  (∀ d, R d (f d).2) → maintains (steps R X) (sys f).
Proof.
  intros Hf w. unfold sys. specialize (Hf (w_disk w)).
  destruct (w_orc w) as [|[e|] o]; [| |];
    try (destruct (f (w_disk w)) as [r d]; simpl in *; split; [done|]; split; [|done];
         exists [d]; by rewrite Forall_singleton).
  split; [done|]. split; [|done]. exists []. by rewrite app_nil_r.
Qed.

(** A step that leaves the disk alone. *)
Lemma quiet_steps w w' :
  w_disk w' = w_disk w → w_trace w' = w_trace w →
  (∀ p, ¬ X p → (p ∈ w_closed w' ↔ p ∈ w_closed w)) → steps R X w w'.
Proof.
  intros Hd Ht Hc. split; [by rewrite Hd|]. split; [|done]. exists []. by rewrite app_nil_r.
Qed.
End steps.

#[export] Instance steps_off_refl X : Reflexive (steps_off X).
Proof. apply steps_refl, _. Qed.
#[export] Instance steps_off_trans X : Transitive (steps_off X).
Proof. apply steps_trans, _. Qed.
#[export] Instance steps_grows_refl new : Reflexive (steps_grows new).
Proof. apply steps_refl, _. Qed.
#[export] Instance steps_grows_trans new : Transitive (steps_grows new).
Proof. apply steps_trans, _. Qed.

Lemma steps_mono (R R' : disk → disk → Prop) (X Y : path → Prop) w w' :
  (∀ d d', R d d' → R' d d') → (∀ p, X p → Y p) → steps R X w w' → steps R' Y w w'.
Proof.
  intros HR HXY (H & (l & T & F) & C). split; [by apply HR|]. split.
  - exists l. split; [done|]. eapply Forall_impl; [done|]. by apply HR.
  - intros p Hp. apply C. naive_solver.
Qed.

Lemma agree_off_mono (X Y : path → Prop) d d' :
  (∀ p, X p → Y p) → agree_off X d d' → agree_off Y d d'.
Proof. intros HXY H p Hp. apply H. naive_solver. Qed.

Lemma steps_off_mono (X Y : path → Prop) w w' :
  (∀ p, X p → Y p) → steps_off X w w' → steps_off Y w w'.
Proof. intros HXY. apply steps_mono; [|done]. intros d d'. by apply agree_off_mono. Qed.

Lemma steps_off_grows new w w' : steps_off (below new) w w' → steps_grows new w w'.
Proof.
  apply steps_mono; [|done]. intros d d' H p Hp. destruct (H p Hp) as (? & ? & ?). by split; [left|].
Qed.

Section ops.
Context (X : path → Prop).

Lemma sys_off {A} (f : disk → res A * disk) :
  (∀ d, agree_off X d (f d).2) → maintains (steps_off X) (sys f).
Proof. apply sys_steps, _. Qed.

Lemma set_fs_off p n d : X p → agree_off X d (set_fs <[p := n]> d).
Proof.
  intros Hp q Hq. simpl. rewrite lookup_insert_ne by naive_solver. by repeat split; left.
Qed.

Lemma link_off p n d : X p → agree_off X d (link p n d).
Proof.
  intros Hp q Hq. simpl. unfold push. rewrite !lookup_insert_ne by naive_solver. by repeat split; left.
Qed.

Lemma synced_off p d : agree_off X d (dir_synced p d).
Proof. intros q Hq. split; [done|]. split; [done|]. apply settles_synced. Qed.

Lemma remove_if_off Y `{!∀ q, Decision (Y q)} d : (∀ q, Y q → X q) → agree_off X d (remove_if Y d).
Proof.
  intros HX q Hq. simpl. split_and!; [apply option_eq; intros x; rewrite map_lookup_filter_Some; naive_solver..|].
  left. rewrite lookup_union_with, lookup_fmap.
  assert (filter (λ kv, Y kv.1) (d_fs d) !! q = None) as ->.
  { apply map_lookup_filter_None. right. naive_solver. }
  by destruct (d_old d !! q).
Qed.

Ltac sys_read := apply sys_off; intros d; cbv zeta; repeat case_match; simpl; reflexivity.

Lemma os_Stat_off n : maintains (steps_off X) (os_Stat n).
Proof. sys_read. Qed.
Lemma f_Close_off : maintains (steps_off X) f_Close.
Proof. sys_read. Qed.
Lemma os_OpenDir_off n : maintains (steps_off X) (os_OpenDir n).
Proof. sys_read. Qed.
Lemma f_SyncDir_off n : maintains (steps_off X) (f_SyncDir n).
Proof. apply sys_off. intros d. apply synced_off. Qed.
Lemma os_OpenRead_off n : maintains (steps_off X) (os_OpenRead n).
Proof. sys_read. Qed.
Lemma f_ReadAll_off n : maintains (steps_off X) (f_ReadAll n).
Proof. sys_read. Qed.
Lemma os_ReadDir_off n : maintains (steps_off X) (os_ReadDir n).
Proof. sys_read. Qed.
Lemma pebble_Flush_off h : maintains (steps_off X) (pebble_Flush h).
Proof.
  intros w. unfold pebble_Flush. case_decide; [done|].
  by apply (sys_off (λ d, (Ok tt, d))).
Qed.

Lemma os_Create_off n : X (path_of n) → maintains (steps_off X) (os_Create n).
Proof. intros. apply sys_off. intros d. cbv zeta. repeat case_match; simpl; by (reflexivity || apply link_off). Qed.
Lemma f_Write_off n b : X (path_of n) → maintains (steps_off X) (f_Write n b).
Proof. intros. apply sys_off. intros d. cbv zeta. repeat case_match; simpl; by (reflexivity || apply set_fs_off). Qed.
Lemma f_Sync_off n : X (path_of n) → maintains (steps_off X) (f_Sync n).
Proof. intros. apply sys_off. intros d. cbv zeta. repeat case_match; simpl; by (reflexivity || apply set_fs_off). Qed.

Lemma os_Rename_off a b :
  X (path_of a) → X (path_of b) → maintains (steps_off X) (os_Rename a b).
Proof.
  intros Ha Hb. apply sys_off. intros d. cbv zeta. repeat case_match; simpl; try reflexivity;
    (intros q Hq; simpl; unfold push;
     rewrite !lookup_insert_ne, lookup_delete_ne by naive_solver; by repeat split; left).
Qed.

Lemma os_RemoveAll_off n :
  (∀ q, below (path_of n) q → X q) → maintains (steps_off X) (os_RemoveAll n).
Proof. intros HX. apply sys_off. intros d. by apply remove_if_off. Qed.

(** What the missing directories were. *)
Lemma pushes_off old ps q : (∀ p, p ∈ ps → X p) → ¬ X q → foldr (λ p, push p None) old ps !! q = old !! q.
Proof.
  intros Hps Hq. induction ps as [|p ps IH]; [done|]. simpl. unfold push at 1.
  rewrite lookup_insert_ne by (intros ->; apply Hq, Hps; by left). apply IH. intros. apply Hps. by right.
Qed.

Lemma mkdirs_off fs ps q :
  (∀ p, p ∈ ps → X p) → ¬ X q → mkdirs fs ps !! q = fs !! q.
Proof.
  intros Hps Hq. unfold mkdirs. revert fs.
  induction ps as [|p ps IH]; intros fs; [done|]. simpl.
  rewrite IH by (intros; apply Hps; by apply elem_of_cons; right).
  case_match; [done|]. rewrite lookup_insert_ne; [done|].
  intros ->. apply Hq, Hps. apply elem_of_cons. by left.
Qed.

Lemma prefixes_below p q : q ∈ prefixes p → below q p.
Proof.
  intros (k & -> & _)%list_elem_of_fmap. split; [done|]. simpl.
  exists (drop k (p_comps p)). by rewrite take_drop.
Qed.

Lemma os_MkdirAll_off n :
  (∀ q, below q (path_of n) → X q) → maintains (steps_off X) (os_MkdirAll n).
Proof.
  intros HX. apply sys_off. intros d. cbv zeta. case_match; [reflexivity|]. intros q Hq. simpl.
  split; [apply mkdirs_off; [|done]; eauto using prefixes_below|]. split; [done|]. left.
  apply pushes_off; [|done]. intros p [_ Hp]%list_elem_of_filter. eauto using prefixes_below.
Qed.

Lemma rand_Uint64_off : maintains (steps_off X) rand_Uint64.
Proof. intros w. by apply quiet_steps; [apply _|..]. Qed.
Lemma time_Now_off : maintains (steps_off X) time_Now.
Proof. intros w. by apply quiet_steps; [apply _|..]. Qed.

Lemma with_db_off {A} h (f : DB → res A * DB) :
  X h → maintains (steps_off X) (with_db h f).
Proof.
  intros Hh w. unfold with_db. case_decide; [done|].
  destruct (d_dbs (w_disk w) !! h) as [db|]; [|done].
  destruct (f db) as [r db']. simpl.
  assert (agree_off X (w_disk w) (MkDisk (d_fs (w_disk w)) (<[h:=db']> (d_dbs (w_disk w))) (d_old (w_disk w)))).
  { intros q Hq. simpl. rewrite lookup_insert_ne by naive_solver. by repeat split; left. }
  split; [done|]. split; [|done]. eexists. split; [done|]. by rewrite Forall_singleton.
Qed.

Lemma pebble_Close_off h : X h → maintains (steps_off X) (pebble_Close h).
Proof.
  intros Hh w. unfold pebble_Close. case_decide; [done|]. apply quiet_steps; [apply _|done..|].
  intros p Hp. simpl. rewrite elem_of_union, elem_of_singleton. naive_solver.
Qed.
End ops.

(** [MkdirAll] adds what is missing. *)
Lemma mkdirs_keep fs ps q n : fs !! q = Some n → mkdirs fs ps !! q = Some n.
Proof.
  unfold mkdirs. revert fs. induction ps as [|p ps IH]; intros fs Hq; [done|]. simpl.
  apply IH. destruct (fs !! p) eqn:E; [done|]. rewrite lookup_insert_ne; [done|]. congruence.
Qed.

Lemma mkdirs_made fs ps q : q ∈ ps → fs !! q = None → mkdirs fs ps !! q = Some NDir.
Proof.
  unfold mkdirs. revert fs. induction ps as [|p ps IH]; intros fs Hq Hn; [by apply elem_of_nil in Hq|].
  simpl. destruct (decide (p = q)) as [->|Hne].
  - rewrite Hn. apply (mkdirs_keep _ ps). apply lookup_insert_eq.
  - apply elem_of_cons in Hq as [->|Hq]; [done|]. apply IH; [done|].
    destruct (fs !! p) eqn:E; [done|]. by rewrite lookup_insert_ne.
Qed.

Lemma mkdirs_files fs ps q data s :
  mkdirs fs ps !! q = Some (NFile data s) → fs !! q = Some (NFile data s).
Proof.
  unfold mkdirs. revert fs. induction ps as [|p ps IH]; intros fs; [done|]. simpl.
  intros Hq%IH. destruct (fs !! p) eqn:E; [done|].
  apply lookup_insert_Some in Hq as [[_ ?]|[_ ?]]; done.
Qed.

Lemma OpenPebbleDB_grows dir : maintains (steps_grows (path_of dir)) (OpenPebbleDB dir).
Proof.
  apply maintains_bind; [apply _| |intros _; apply maintains_bind; [apply _| |]].
  - apply sys_steps; [apply _|]. intros d. cbv zeta. case_match; [reflexivity|].
    intros q Hq. split; [|done]. simpl.
    destruct (decide (q ∈ prefixes (path_of dir) ∧ d_fs d !! q = None)) as [[Hb Hn]|Hb].
    + right. split; [done|]. split; [done|]. by apply mkdirs_made.
    + left. split.
      * destruct (d_fs d !! q) as [n|] eqn:E; [by apply mkdirs_keep|]. rewrite <-E.
        apply (mkdirs_off (λ q, q ∈ prefixes (path_of dir))); [done|]. naive_solver.
      * left. apply (pushes_off (λ p, p ∈ prefixes (path_of dir) ∧ d_fs d !! p = None)); [|done].
        intros p [? ?]%list_elem_of_filter. done.
  - apply sys_steps; [apply _|]. intros d q Hq. simpl. split; [left; by split; [|left]|].
    case_match; [done|]. rewrite lookup_insert_ne; [done|]. intros <-. apply Hq, below_refl.
  - intros _ w. apply quiet_steps; [apply _|done..|]. intros p Hp. simpl.
    rewrite elem_of_difference, elem_of_singleton.
    split; [naive_solver|]. intros Hin. split; [done|]. intros ->. apply Hp, below_refl.
Qed.

(** Every disk written from [w] to [w'] satisfies [Q]. *)
Definition visits (Q : disk → Prop) (w w' : world) : Prop :=
  ∃ l, w_trace w' = w_trace w ++ l ∧ Forall Q l.

Lemma visits_refl Q w w' : w_trace w' = w_trace w → visits Q w w'.
Proof. intros H. exists []. by rewrite H, app_nil_r. Qed.

Lemma visits_trans Q w1 w2 w3 : visits Q w1 w2 → visits Q w2 w3 → visits Q w1 w3.
Proof.
  intros (l1 & T1 & F1) (l2 & T2 & F2). exists (l1 ++ l2).
  rewrite T2, T1, (assoc_L (++)). split; [done|]. by apply Forall_app.
Qed.

Lemma visits_steps R X Q w w' :
  steps R X w w' → (∀ d, R (w_disk w) d → Q d) → visits Q w w'.
Proof.
  intros (_ & (l & T & F) & _) HQ. exists l. split; [done|]. by eapply Forall_impl.
Qed.

Lemma visits_elem Q w w' l d : visits Q w w' → w_trace w' = w_trace w ++ l → d ∈ l → Q d.
Proof.
  intros (l' & T & F) T' Hd. rewrite T' in T. apply (inj (w_trace w ++.)) in T. subst l'.
  rewrite Forall_forall in F. by apply F.
Qed.

(** The entry [p] and those of the directories above it are synced. *)
Definition settled (d : disk) (p : path) : Prop := ∀ q, below q p → d_old d !! q = None.

(** A crash. Data that was not synced may come back as anything. An entry in
    directories that are settled may come back as any of what it was since its own
    directory was synced; below an entry that is not settled, anything may be
    found, in the database of its directory too. What is found is on the disk. *)
Definition crash_node (n n' : option node) : Prop :=
  match n with
  | Some (NFile _ false) => ∃ data, n' = Some (NFile data true)
  | _ => n' = n
  end.

Definition entries (d : disk) (p : path) : list (option node) :=
  d_fs d !! p :: default [] (d_old d !! p).

Definition crash (d d' : disk) : Prop :=
  d_old d' = ∅ ∧
  ∀ p, (∀ q, below q p → q ≠ p → d_old d !! q = None) →
    (∃ n, n ∈ entries d p ∧ crash_node n (d_fs d' !! p)) ∧
    (d_old d !! p = None → d_dbs d' !! p = d_dbs d !! p).

(** What is settled stays, up to unsynced data. *)
Lemma crash_settled d d' p :
  crash d d' → settled d p →
  crash_node (d_fs d !! p) (d_fs d' !! p) ∧ d_dbs d' !! p = d_dbs d !! p.
Proof.
  intros [_ Hc] Hs. destruct (Hc p) as [(n & Hn & Hcn) Hdb]; [by auto|].
  pose proof (Hs p (below_refl p)) as Hp. unfold entries in Hn. rewrite Hp in Hn.
  apply list_elem_of_singleton in Hn as ->. split; [done|]. by apply Hdb.
Qed.

(** One thing a crash may do: everything had reached the disk. *)
Definition sync_all (d : disk) : disk :=
  MkDisk ((λ n, match n with NFile data _ => NFile data true | NDir => NDir end) <$> d_fs d)
         (d_dbs d) ∅.

Lemma crash_sync_all d : crash d (sync_all d).
Proof.
  split; [done|]. intros p _. split; [|done]. exists (d_fs d !! p). split; [by left|].
  simpl. rewrite lookup_fmap. destruct (d_fs d !! p) as [[|data []]|]; simpl; eauto.
Qed.

(** ** Runs without faults *)

Definition upd (w : world) (d : disk) : world :=
  MkWorld d (w_closed w) [] (w_rand w) (w_clock w) (w_trace w ++ [d]).

Lemma sys_ok {A} (f : disk → res A * disk) w r d :
  w_orc w = [] → f (w_disk w) = (r, d) → sys f w = (r, upd w d).
Proof. intros Ho Hf. unfold sys. by rewrite Ho, Hf. Qed.

(** From [w] to [w'] only the database behind [h] has changed. *)
Definition only_db (h : path) (w w' : world) : Prop :=
  d_fs (w_disk w') = d_fs (w_disk w) ∧ w_closed w' = w_closed w ∧
  (w_orc w = [] → w_orc w' = []) ∧ w_rand w' = w_rand w ∧ w_clock w' = w_clock w ∧
  (∀ q, q ≠ h → d_dbs (w_disk w') !! q = d_dbs (w_disk w) !! q) ∧
  d_old (w_disk w') = d_old (w_disk w).

#[export] Instance only_db_refl h : Reflexive (only_db h).
Proof. by intros w. Qed.
#[export] Instance only_db_trans h : Transitive (only_db h).
Proof.
  intros w1 w2 w3 (A1 & A2 & A3 & A4 & A5 & A6 & A7) (B1 & B2 & B3 & B4 & B5 & B6 & B7).
  unfold only_db. rewrite B1, B2, B4, B5, B7. split_and!; [done..|by auto|done|done| |done].
  intros q Hq. rewrite B6, A6; done.
Qed.

(** Using an open database. *)
Lemma with_db_ok {A} h (f : DB → res A * DB) w db r db' :
  h ∉ w_closed w → d_dbs (w_disk w) !! h = Some db → f db = (r, db') →
  ∃ w', with_db h f w = (r, w') ∧ only_db h w w' ∧ d_dbs (w_disk w') !! h = Some db'.
Proof.
  intros Hc Hd Hf. unfold with_db. rewrite decide_False, Hd, Hf by done.
  eexists. split; [reflexivity|]. simpl. rewrite lookup_insert_eq. split; [|done].
  repeat split; try done. intros q Hq. simpl. by rewrite lookup_insert_ne.
Qed.

Lemma prefixes_self p : p_comps p ≠ [] → p ∈ prefixes p.
Proof.
  intros Hp. apply list_elem_of_fmap. exists (length (p_comps p)).
  rewrite firstn_all. split; [by destruct p|]. apply elem_of_seq.
  destruct (p_comps p); [done|]. simpl. lia.
Qed.

Lemma os_MkdirAll_ok dir w :
  w_orc w = [] →
  (∀ q data s, below q (path_of dir) → d_fs (w_disk w) !! q ≠ Some (NFile data s)) →
  os_MkdirAll dir w =
    (Ok tt, upd w (MkDisk (mkdirs (d_fs (w_disk w)) (prefixes (path_of dir))) (d_dbs (w_disk w))
       (foldr (λ p, push p None) (d_old (w_disk w))
          (filter (λ p, d_fs (w_disk w) !! p = None) (prefixes (path_of dir)))))).
Proof.
  intros Ho Hnf. apply sys_ok; [done|]. cbv zeta.
  destruct (existsb _ _) eqn:E; [|reflexivity]. exfalso.
  apply existsb_exists in E as (q & Hq & E). apply list_elem_of_In, prefixes_below in Hq.
  destruct (d_fs (w_disk w) !! q) as [[|data s]|] eqn:E'; try done. by eapply Hnf.
Qed.

(** The directory [p] and all above it are there. *)
Definition chain (d : disk) (p : path) : Prop :=
  ∀ q, below q p → p_comps q ≠ [] → d_fs d !! q = Some NDir.

Lemma prefixes_nonroot p q : q ∈ prefixes p → p_comps q ≠ [].
Proof.
  intros (k & -> & Hk)%list_elem_of_fmap. apply elem_of_seq in Hk. simpl.
  destruct (p_comps p); [simpl in Hk; lia|]. by destruct k; [lia|].
Qed.

(** Making directories that are there. *)
Lemma mkdirs_chain d p :
  chain d p →
  mkdirs (d_fs d) (prefixes p) = d_fs d ∧ filter (λ q, d_fs d !! q = None) (prefixes p) = [].
Proof.
  intros Hc. assert (∀ q, q ∈ prefixes p → d_fs d !! q = Some NDir) as H.
  { intros q Hq. apply Hc; [by apply prefixes_below|by eapply prefixes_nonroot]. }
  revert H. generalize (prefixes p). intros ps. unfold mkdirs.
  induction ps as [|q ps IH]; intros H; [done|]. simpl. rewrite (H q) by by left.
  destruct IH as [E1 E2]; [intros; apply H; by right|]. split; [done|].
  rewrite filter_cons, decide_False; [done|]. by rewrite (H q) by by left.
Qed.

(** Opening the database of a directory. *)
Lemma OpenPebbleDB_existing dir w db :
  w_orc w = [] →
  (∀ q data s, below q (path_of dir) → d_fs (w_disk w) !! q ≠ Some (NFile data s)) →
  d_fs (w_disk w) !! path_of dir = Some NDir → d_dbs (w_disk w) !! path_of dir = Some db →
  ∃ w', OpenPebbleDB dir w = (Ok (path_of dir), w') ∧
        w_orc w' = [] ∧ w_closed w' = w_closed w ∖ {[path_of dir]} ∧
        d_dbs (w_disk w') = d_dbs (w_disk w) ∧
        (∀ q n, d_fs (w_disk w) !! q = Some n → d_fs (w_disk w') !! q = Some n) ∧
        (∀ q data s, d_fs (w_disk w') !! q = Some (NFile data s) →
                     d_fs (w_disk w) !! q = Some (NFile data s)) ∧
        (∀ q, ¬ below q (path_of dir) → d_fs (w_disk w') !! q = d_fs (w_disk w) !! q) ∧
        (chain (w_disk w) (path_of dir) → w_disk w' = w_disk w).
Proof.
  intros Ho Hnf Hfs Hdb. unfold OpenPebbleDB.
  erewrite go_bind_ok by by apply os_MkdirAll_ok. erewrite go_bind_ok.
  2:{ apply sys_ok; [done|]. cbn [w_disk upd d_dbs]. rewrite Hdb. reflexivity. }
  eexists. split; [reflexivity|]. cbn [w_disk w_orc w_closed upd d_dbs d_fs d_old].
  split_and!; try done.
  - intros q n. apply mkdirs_keep.
  - intros q data s. apply mkdirs_files.
  - intros q Hq. apply (mkdirs_off (λ q, below q (path_of dir))); [|done].
    intros p. apply prefixes_below.
  - intros [-> ->]%mkdirs_chain. by destruct (w_disk w).
Qed.

(** Opening a database in a new directory. *)
Lemma OpenPebbleDB_fresh dir w :
  w_orc w = [] → p_comps (path_of dir) ≠ [] →
  (∀ q data s, below q (path_of dir) → d_fs (w_disk w) !! q ≠ Some (NFile data s)) →
  d_fs (w_disk w) !! path_of dir = None → d_dbs (w_disk w) !! path_of dir = None →
  ∃ w', OpenPebbleDB dir w = (Ok (path_of dir), w') ∧
        w_orc w' = [] ∧ w_rand w' = w_rand w ∧ w_clock w' = w_clock w ∧
        w_closed w' = w_closed w ∖ {[path_of dir]} ∧
        d_dbs (w_disk w') = <[path_of dir := db_fresh]> (d_dbs (w_disk w)) ∧
        d_fs (w_disk w') !! path_of dir = Some NDir ∧
        (∀ q n, d_fs (w_disk w) !! q = Some n → d_fs (w_disk w') !! q = Some n) ∧
        (∀ q data s, d_fs (w_disk w') !! q = Some (NFile data s) →
                     d_fs (w_disk w) !! q = Some (NFile data s)) ∧
        (∀ q, ¬ below q (path_of dir) → d_fs (w_disk w') !! q = d_fs (w_disk w) !! q).
Proof.
  intros Ho Hp Hnf Hfs Hdb. unfold OpenPebbleDB.
  erewrite go_bind_ok by by apply os_MkdirAll_ok.
  erewrite go_bind_ok.
  2:{ apply sys_ok; [done|]. cbn [w_disk upd d_dbs]. rewrite Hdb. reflexivity. }
  eexists. split; [reflexivity|]. cbn [w_disk w_orc w_rand w_clock w_closed upd d_dbs d_fs].
  repeat split; try done.
  - apply mkdirs_made; [by apply prefixes_self|done].
  - intros q n. apply mkdirs_keep.
  - intros q data s. apply mkdirs_files.
  - intros q Hq. apply (mkdirs_off (λ q, below q (path_of dir))); [|done].
    intros p. apply prefixes_below.
Qed.

Lemma pebble_Flush_ok h w :
  h ∉ w_closed w →
  ∃ w', go_ignore (pebble_Flush h) w = (Ok tt, w') ∧ only_db h w w' ∧ w_disk w' = w_disk w.
Proof.
  intros Hc. unfold go_ignore, go_try, pebble_Flush, sys. rewrite decide_False by done.
  unfold only_db.
  destruct (w_orc w) as [|[e|] o] eqn:Ho; simpl; eexists; (split; [reflexivity|]); simpl; done.
Qed.
End frames.

#[export] Hint Resolve os_Stat_off f_Close_off os_OpenDir_off f_SyncDir_off os_OpenRead_off
  f_ReadAll_off os_ReadDir_off pebble_Flush_off os_Create_off f_Write_off f_Sync_off
  os_Rename_off os_RemoveAll_off os_MkdirAll_off rand_Uint64_off time_Now_off with_db_off
  pebble_Close_off steps_off_refl steps_off_trans : go_db.
