(* ===== verification/DataDir.v ===== *)
(** * DataDir.v: fsm/utils.go, which database directory is current.

    A node keeps its databases in randomly named directories under one base
    directory; the file [pebble.running] names the current one, guarded by the
    first eight bytes of an MD5 digest, and is replaced through
    [pebble.updating] and a rename. *)
From Stdlib Require Import Ascii.
From S2P Require Import Prelude Binary Paths Pebble FileSystem.

Definition currentDBFilename : string := "pebble.running".
Definition updatingDBFilename : string := "pebble.updating".

(** What the file says for a directory: checksum, then the name. *)
Definition dirname_record (dbdir : string) : bytes :=
  take 8 (md5_sum (string_bytes dbdir)) ++ string_bytes dbdir.

Section datadir.
Context {P : Pebble}.

(** [syncDir], on an operating system other than Windows; the deferred
    [Close] only reports its error when there is no other. *)
Definition syncDir (dir : string) : GoM world unit :=
  isDir <- os_Stat dir ;;
  if negb isDir then go_ret tt
  else
    os_OpenDir (Clean dir) ;;
    go_try (f_SyncDir (Clean dir)) (λ r, go_try f_Close (λ c,
      match r, c with
      | inr e, _ => go_err e
      | inl _, inr e => go_err e
      | inl _, inl _ => go_ret tt
      end)).

Definition isNewRun (dir : string) : GoM world bool :=
  let fp := Join dir currentDBFilename in
  go_try (os_Stat fp) (λ r, match r with
                            | inr e => go_ret (bool_decide (e = ErrNotExist))
                            | inl _ => go_ret false
                            end).

Definition getNewRandomDBDirName (dir : string) : GoM world string :=
  rn <- rand_Uint64 ;;
  ct <- time_Now ;;
  go_ret (Join dir (pretty rn +:+ "_" +:+ pretty ct)).

Definition replaceCurrentDBFile (dir : string) : GoM world unit :=
  let fp := Join dir currentDBFilename in
  let tmpFp := Join dir updatingDBFilename in
  os_Rename tmpFp fp ;;
  syncDir dir.

(** [defer d] around [body]: [d] runs whatever [body] came back with, and a
    panic of [d] wins. *)
Definition go_defer {A} (body : GoM world A) (d : GoM world unit) : GoM world A :=
  λ w, let '(r, w1) := body w in
       match d w1 with
       | (Ok _, w2) => (r, w2)
       | (Err e, w2) => (r, w2)
       | (Panic p, w2) => (Panic p, w2)
       | (NoFuel, w2) => (NoFuel, w2)
       end.

Definition or_panic {A} (m : GoM world A) : GoM world unit :=
  go_try m (λ r, match r with inl _ => go_ret tt | inr _ => go_panic "panic(err)" end).

Definition saveCurrentDBDirName (dir dbdir : string) : GoM world unit :=
  let h := md5_sum (string_bytes dbdir) in
  let fp := Join dir updatingDBFilename in
  os_Create fp ;;
  go_defer
    (f_Write fp (take 8 h) ;;
     f_Write fp (string_bytes dbdir) ;;
     f_Sync fp)
    (or_panic f_Close ;; or_panic (syncDir dir)).

Definition getCurrentDBDirName (dir : string) : GoM world string :=
  let fp := Join dir currentDBFilename in
  os_OpenRead fp ;;
  go_defer
    (data <- f_ReadAll fp ;;
     if decide (len data ≤ 8) then go_err (Errorf "corrupted content" [])
     else
       let crc := take 8 data in
       let content := drop 8 data in
       if decide (crc = take 8 (md5_sum content)) then go_ret (bytes_string content)
       else go_err (Errorf "corrupted content with not matched crc" []))
    (go_ignore f_Close).

Definition createNodeDataDir (dir : string) : GoM world unit :=
  os_MkdirAll dir ;; syncDir (Dir dir).

(** The loop of [cleanupNodeDataDir] over the entries of the directory. *)
Fixpoint removeOthers (dir dbdir : string) (files : list (string * bool)) : GoM world unit :=
  match files with
  | [] => go_ret tt
  | (name, isDir) :: rest =>
      if negb isDir then removeOthers dir dbdir rest
      else
        let toDelete := Join dir name in
        if decide (toDelete ≠ dbdir) then
          os_RemoveAll toDelete ;; removeOthers dir dbdir rest
        else removeOthers dir dbdir rest
  end.

Definition cleanupNodeDataDir (dir : string) : GoM world unit :=
  go_ignore (os_RemoveAll (Join dir updatingDBFilename)) ;;
  dbdir <- getCurrentDBDirName dir ;;
  files <- os_ReadDir dir ;;
  removeOthers dir dbdir files.

Definition getPebbleDBDir (dir : string) : GoM world string :=
  newRunning <- isNewRun dir ;;
  if (newRunning : bool) then
    dbdir <- getNewRandomDBDirName dir ;;
    saveCurrentDBDirName dir dbdir ;;
    replaceCurrentDBFile dir ;;
    go_ret dbdir
  else
    cleanupNodeDataDir dir ;;
    dbdir <- getCurrentDBDirName dir ;;
    go_try (os_Stat dbdir) (λ r, match r with
      | inr ErrNotExist => go_err (Errorf "db dir unexpectedly deleted" [])
      | _ => go_ret dbdir
      end).

(** [existFilePath]: [os.IsExist] holds of EEXIST errors only. *)
Definition existFilePath (p : string) : GoM world bool :=
  go_try (os_Stat p) (λ r, match r with
    | inl _ => go_ret true
    | inr e => go_ret (bool_decide (e = EEXIST))
    end).

(** [filepath.Walk] hands the callback each entry or the error of its
    [Lstat]; the callback of [DirSize] skips the files that are gone. *)
Definition os_Lstat (p : path) : GoM world node :=
  sys (λ d, match d_fs d !! p with Some n => (Ok n, d) | None => (Err ErrNotExist, d) end).

Fixpoint walk_sizes (entries : list path) (size : Z) : GoM world Z :=
  match entries with
  | [] => go_ret size
  | p :: rest =>
      go_try (os_Lstat p) (λ r, match r with
        | inr e => if decide (e = ErrNotExist) then walk_sizes rest size else go_err e
        | inl NDir => walk_sizes rest size
        | inl (NFile data _) => walk_sizes rest (size + len data)
        end)
  end.

Definition DirSize (name : string) : GoM world Z :=
  w <- go_get ;;
  walk_sizes (filter (below (path_of name)) (map_to_list (d_fs (w_disk w))).*1) 0.
End datadir.

(** ** Lemmas: runs without faults *)

Lemma fname_current : fname currentDBFilename.
Proof. by split. Qed.
Lemma fname_updating : fname updatingDBFilename.
Proof. by split. Qed.
#[export] Hint Resolve fname_current fname_updating : go_db.

Section datadir_ok.
Context {P : Pebble}.
Context (dir : string).

Abbreviation base := (path_of dir).
Abbreviation running := (child (path_of dir) currentDBFilename).
Abbreviation updating := (child (path_of dir) updatingDBFilename).

(** The world [w] without faults left, at disk [d] and trace [tr]. *)
Definition at_disk (w : world) (d : disk) (tr : list disk) : world :=
  MkWorld d (w_closed w) [] (w_rand w) (w_clock w) tr.

Lemma path_running : path_of (Join dir currentDBFilename) = running.
Proof. apply path_of_Join, fname_current. Qed.
Lemma path_updating : path_of (Join dir updatingDBFilename) = updating.
Proof. apply path_of_Join, fname_updating. Qed.

Lemma running_ne_updating : running ≠ updating.
Proof. intros H. injection H as H. by apply app_inj_tail in H as [_ ?]. Qed.

Lemma parent_running : parent running = base.
Proof. apply parent_child. Qed.
Lemma parent_updating : parent updating = base.
Proof. apply parent_child. Qed.

Lemma dir_exists_base d : d_fs d !! base = Some NDir → dir_exists d base = true.
Proof. intros H. unfold dir_exists, is_dir. rewrite H. by destruct (p_comps base). Qed.

(** Syncing a directory settles what was done to its entries. *)
Lemma synced_push p n (o : gmap path (list (option node))) :
  parent p = base → filter (λ kv, parent kv.1 ≠ base) (push p n o) = filter (λ kv, parent kv.1 ≠ base) o.
Proof.
  intros Hp. unfold push. apply map_eq. intros q. apply option_eq. intros x.
  rewrite !map_lookup_filter_Some. simpl. destruct (decide (p = q)) as [<-|]; [naive_solver|].
  by rewrite lookup_insert_ne.
Qed.

Lemma dir_synced_twice d : dir_synced base (dir_synced base d) = dir_synced base d.
Proof. unfold dir_synced. f_equal. simpl. apply map_filter_filter_l. naive_solver. Qed.

Lemma dir_synced_set_fs f d : dir_synced base (set_fs f (dir_synced base d)) = dir_synced base (set_fs f d).
Proof. unfold dir_synced, set_fs. simpl. f_equal. apply map_filter_filter_l. naive_solver. Qed.

Lemma syncDir_ok w :
  w_orc w = [] → d_fs (w_disk w) !! base = Some NDir →
  ∃ tr, syncDir dir w = (Ok tt, at_disk w (dir_synced base (w_disk w)) tr).
Proof.
  destruct w as [d cl orc rd ck tr]. simpl. intros -> Hd. eexists.
  unfold syncDir, os_Stat, os_OpenDir, f_SyncDir, f_Close, go_bind, go_try, sys. simpl.
  rewrite Hd. simpl. rewrite path_of_Clean, (dir_exists_base _ Hd). done.
Qed.

Lemma save_ok w dbdir :
  w_orc w = [] → d_fs (w_disk w) !! base = Some NDir →
  d_fs (w_disk w) !! updating ≠ Some NDir →
  ∃ tr, saveCurrentDBDirName dir dbdir w =
        (Ok tt, at_disk w (dir_synced base (set_fs <[updating := NFile (dirname_record dbdir) true]> (w_disk w))) tr).
Proof.
  intros Ho Hd Hu. destruct w as [d cl orc rd ck tr]. simpl in *. subst orc.
  unfold saveCurrentDBDirName, go_defer, or_panic, os_Create, f_Write, f_Sync, f_Close.
  unfold go_bind, go_try, sys. simpl w_orc. simpl w_disk. cbv iota beta.
  rewrite path_updating, parent_updating, (dir_exists_base _ Hd).
  set (f := NFile [] false).
  replace (match d_fs d !! updating with
           | Some NDir => (Err EISDIR, d)
           | _ => (Ok tt, link updating f d)
           end) with (Ok tt, link updating f d)
    by (destruct (d_fs d !! updating) as [[]|]; done).
  simpl. rewrite !lookup_insert_eq. simpl. rewrite !lookup_insert_eq. simpl.
  rewrite !lookup_insert_eq. simpl.
  match goal with |- context [syncDir dir ?w1] => pose proof (syncDir_ok w1) as Hs end.
  simpl in Hs. destruct Hs as [tr' Hs]; [done| |].
  { rewrite !lookup_insert_ne; [done|..]; intros Heq;
      apply (not_below_child base updatingDBFilename); rewrite Heq; apply below_refl. }
  exists tr'. rewrite Hs. unfold at_disk, set_fs, dir_synced. simpl.
  by rewrite !insert_insert_eq, synced_push by apply parent_updating.
Qed.

Lemma replace_ok w data s :
  w_orc w = [] → d_fs (w_disk w) !! base = Some NDir →
  d_fs (w_disk w) !! updating = Some (NFile data s) →
  d_fs (w_disk w) !! running ≠ Some NDir →
  ∃ tr, replaceCurrentDBFile dir w =
        (Ok tt, at_disk w (dir_synced base (set_fs (λ fs, <[running := NFile data s]> (delete updating fs)) (w_disk w))) tr).
Proof.
  intros Ho Hd Hu Hr. destruct w as [d cl orc rd ck tr]. simpl in *. subst orc.
  unfold replaceCurrentDBFile, os_Rename, go_bind, sys. simpl.
  rewrite path_updating, path_running, parent_running, (dir_exists_base _ Hd), Hu.
  destruct (d_fs d !! running) as [[]|] eqn:E; [done|..];
    (match goal with |- context [syncDir dir ?w1] => pose proof (syncDir_ok w1) as Hs end;
     simpl in Hs; destruct Hs as [tr' Hs];
       [done| |exists tr'; rewrite Hs; unfold at_disk, dir_synced; simpl;
               by rewrite !synced_push by (apply parent_running || apply parent_updating)];
     rewrite lookup_insert_ne, lookup_delete_ne; [done|..]; intros Heq;
     [ apply (not_below_child base updatingDBFilename)
     | apply (not_below_child base currentDBFilename)]; rewrite Heq; apply below_refl).
Qed.

Lemma get_ok w dbdir s :
  w_orc w = [] → d_fs (w_disk w) !! running = Some (NFile (dirname_record dbdir) s) →
  dbdir ≠ "" →
  ∃ tr, getCurrentDBDirName dir w = (Ok dbdir, at_disk w (w_disk w) tr).
Proof.
  intros Ho Hr Hne. destruct w as [d cl orc rd ck tr]. simpl in *. subst orc. eexists.
  unfold getCurrentDBDirName, go_defer, os_OpenRead, f_ReadAll, go_ignore, f_Close, go_try, go_bind, sys.
  simpl. rewrite path_running, Hr. simpl. rewrite Hr.
  assert (length (take 8 (md5_sum (string_bytes dbdir))) = 8%nat) as H8
    by (rewrite length_take, length_md5_sum; lia).
  assert (string_bytes dbdir ≠ []) as Hb.
  { intros Hb. apply Hne. by rewrite <-(bytes_string_bytes dbdir), Hb. }
  rewrite decide_False.
  2:{ unfold dirname_record. rewrite len_app. unfold len. rewrite H8.
      destruct (string_bytes dbdir); simpl in *; [done|lia]. }
  unfold dirname_record.
  destruct (take_drop_app_exact 8 _ (string_bytes dbdir) H8) as [Ht Hdr].
  rewrite Ht, Hdr, decide_True, bytes_string_bytes by done. done.
Qed.
End datadir_ok.

(** ** The random directory name is a file name *)

(** The first character is neither a dot nor the first one of a marker file. *)
Definition no_dot_head (s : string) : Prop :=
  match s with String c _ => c ≠ "."%char ∧ c ≠ "p"%char | EmptyString => False end.

Lemma piece_cons c s : c ≠ "/"%char → split_slash s = [s] → split_slash (String c s) = [String c s].
Proof. intros Hc Hs. simpl. by rewrite decide_False, Hs. Qed.

Lemma piece_app s t : split_slash s = [s] → split_slash t = [t] → split_slash (s +:+ t) = [s +:+ t].
Proof.
  induction s as [|c s IH]; [done|]. intros Hs Ht. simpl in Hs.
  destruct (decide (c = "/"%char)); [done|].
  destruct (split_slash s) as [|p ps] eqn:E; [by apply split_slash_nonnil in E|].
  change (String c s +:+ t) with (String c (s +:+ t)).
  apply piece_cons; [done|]. apply IH; [|done]. by simplify_eq.
Qed.

Lemma pretty_char_ok x :
  pretty_N_char x ≠ "/"%char ∧ pretty_N_char x ≠ "."%char ∧ pretty_N_char x ≠ "p"%char.
Proof. unfold pretty_N_char. repeat split; repeat case_match; done. Qed.

Lemma pretty_go_ok x s :
  split_slash s = [s] → (no_dot_head s ∨ (0 < x)%N) →
  split_slash (pretty_N_go x s) = [pretty_N_go x s] ∧ no_dot_head (pretty_N_go x s).
Proof.
  revert s. induction (N.lt_wf_0 x) as [x _ IH]. intros s Hs Hd.
  destruct (decide (x = 0%N)) as [->|].
  { rewrite pretty_N_go_0. split; [done|]. destruct Hd; [done|lia]. }
  rewrite pretty_N_go_step by lia.
  destruct (pretty_char_ok (x `mod` 10)) as [H1 H2].
  apply IH; [apply N.div_lt; lia|by apply piece_cons|by left].
Qed.

Lemma pretty_Z_ok (z : Z) :
  split_slash (pretty z) = [pretty z] ∧ no_dot_head (pretty z).
Proof.
  assert (∀ p, split_slash (pretty (N.pos p)) = [pretty (N.pos p)] ∧ no_dot_head (pretty (N.pos p))) as Hp.
  { intros p. apply pretty_go_ok; [done|]. right. lia. }
  destruct z as [|p|p]; [done|apply Hp|].
  change (pretty (Z.neg p)) with (String "-" (pretty (N.pos p))).
  split; [|done]. by apply piece_cons, Hp.
Qed.

Definition random_name (rn ct : Z) : string := pretty rn +:+ "_" +:+ pretty ct.

Lemma fname_random rn ct : fname (random_name rn ct).
Proof.
  unfold random_name.
  destruct (pretty_Z_ok rn) as [H1 H2], (pretty_Z_ok ct) as [H3 _].
  split; [apply piece_app; [done|]; by apply piece_cons|].
  destruct (pretty rn) as [|c s]; [done|]. simpl in H2.
  change (String c s +:+ "_" +:+ pretty ct) with (String c (s +:+ "_" +:+ pretty ct)).
  split; [done|]. destruct H2. split; intros [= ]; congruence.
Qed.

(** It is not the name of a marker file. *)
Lemma random_name_marker rn ct :
  random_name rn ct ≠ currentDBFilename ∧ random_name rn ct ≠ updatingDBFilename.
Proof.
  unfold random_name. destruct (pretty_Z_ok rn) as [_ H].
  destruct (pretty rn) as [|c s]; [done|]. destruct H as [_ H].
  change (String c s +:+ "_" +:+ pretty ct) with (String c (s +:+ "_" +:+ pretty ct)).
  split; intros [= ]; congruence.
Qed.
#[export] Hint Resolve fname_random : go_db.

(** ** Inversion and frames: runs with any faults *)

Section datadir_frames.
Context {P : Pebble}.

Lemma sys_Ok_inv {A} (f : disk → res A * disk) w a w' :
  sys f w = (Ok a, w') → f (w_disk w) = (Ok a, w_disk w').
Proof.
  unfold sys. destruct (w_orc w) as [|[e|] o]; [|done|];
    destruct (f (w_disk w)) as [r d]; by intros [= -> <-].
Qed.

Lemma go_defer_Ok_inv {A} (body : GoM world A) d w a w' :
  go_defer body d w = (Ok a, w') → ∃ w1, body w = (Ok a, w1) ∧ (d w1).2 = w'.
Proof.
  unfold go_defer. destruct (body w) as [r w1]. destruct (d w1) as [[] w2] eqn:E;
    intros H; simplify_eq; exists w1; by rewrite E.
Qed.

Lemma go_defer_off (X : path → Prop) {A} (body : GoM world A) d :
  maintains (steps_off X) body → maintains (steps_off X) d →
  maintains (steps_off X) (go_defer body d).
Proof.
  intros Hb Hd w. unfold go_defer. specialize (Hb w). destruct (body w) as [r w1].
  specialize (Hd w1). destruct (d w1) as [[] w2]; simpl in *; by etrans.
Qed.

Lemma or_panic_off X {A} (m : GoM world A) :
  maintains (steps_off X) m → maintains (steps_off X) (or_panic m).
Proof. intros. apply maintains_try; [apply _|done|]. intros []; eauto with go_db. Qed.

Hint Resolve go_defer_off or_panic_off : go_db.

Lemma syncDir_off X dir : maintains (steps_off X) (syncDir dir).
Proof.
  apply maintains_bind; [apply _|eauto with go_db|]. intros []; simpl; [|eauto with go_db].
  apply maintains_bind; [apply _|eauto with go_db|]. intros _.
  apply maintains_try; [apply _|eauto with go_db|]. intros r.
  apply maintains_try; [apply _|eauto with go_db|]. intros c.
  destruct r, c; eauto with go_db.
Qed.
Hint Resolve syncDir_off : go_db.

Lemma save_off X dir dbdir :
  X (child (path_of dir) updatingDBFilename) →
  maintains (steps_off X) (saveCurrentDBDirName dir dbdir).
Proof.
  intros HX. rewrite <-path_updating in HX. unfold saveCurrentDBDirName.
  apply maintains_bind; [apply _|eauto with go_db|]. intros _.
  apply go_defer_off.
  - repeat (apply maintains_bind; [apply _|eauto with go_db|intros ?]). eauto with go_db.
  - apply maintains_bind; [apply _|eauto with go_db|]. eauto with go_db.
Qed.

Lemma replace_off X dir :
  X (child (path_of dir) updatingDBFilename) → X (child (path_of dir) currentDBFilename) →
  maintains (steps_off X) (replaceCurrentDBFile dir).
Proof.
  intros HX HY. rewrite <-path_updating in HX. rewrite <-path_running in HY.
  apply maintains_bind; [apply _| |]; eauto with go_db.
Qed.

Lemma get_off X dir : maintains (steps_off X) (getCurrentDBDirName dir).
Proof.
  apply maintains_bind; [apply _|eauto with go_db|]. intros _.
  apply go_defer_off; [|eauto with go_db].
  apply maintains_bind; [apply _|eauto with go_db|]. intros data.
  case_decide; [eauto with go_db|]. cbv zeta. case_decide; eauto with go_db.
Qed.

Lemma create_Ok_inv n w u w' :
  os_Create n w = (Ok u, w') → d_fs (w_disk w') !! path_of n = Some (NFile [] false).
Proof.
  intros H%sys_Ok_inv. cbv zeta in H. destruct (dir_exists _ _); [|done].
  destruct (d_fs (w_disk w) !! path_of n) as [[]|]; [done|..];
    apply (f_equal snd) in H; simpl in H; rewrite <-H; apply lookup_insert_eq.
Qed.

Lemma write_Ok_inv n b w u w' old s :
  d_fs (w_disk w) !! path_of n = Some (NFile old s) → f_Write n b w = (Ok u, w') →
  d_fs (w_disk w') !! path_of n = Some (NFile (old ++ b) false).
Proof.
  intros E H%sys_Ok_inv. cbv zeta in H. rewrite E in H.
  apply (f_equal snd) in H; simpl in H; rewrite <-H; apply lookup_insert_eq.
Qed.

Lemma sync_Ok_inv n w u w' old s :
  d_fs (w_disk w) !! path_of n = Some (NFile old s) → f_Sync n w = (Ok u, w') →
  d_fs (w_disk w') !! path_of n = Some (NFile old true).
Proof.
  intros E H%sys_Ok_inv. cbv zeta in H. rewrite E in H.
  apply (f_equal snd) in H; simpl in H; rewrite <-H; apply lookup_insert_eq.
Qed.

(** A save that reports success leaves a complete, synced record. *)
Lemma save_Ok_inv dir dbdir w w' :
  saveCurrentDBDirName dir dbdir w = (Ok tt, w') →
  d_fs (w_disk w') !! child (path_of dir) updatingDBFilename =
    Some (NFile (dirname_record dbdir) true).
Proof.
  unfold saveCurrentDBDirName. rewrite <-path_updating.
  set (fp := path_of (Join dir updatingDBFilename)).
  intros (? & w1 & Hc & H)%go_bind_Ok_inv.
  apply go_defer_Ok_inv in H as (w4 & H & Hd).
  apply go_bind_Ok_inv in H as (? & w2 & Hw1 & H).
  apply go_bind_Ok_inv in H as (? & w3 & Hw2 & Hs).
  apply create_Ok_inv in Hc.
  eapply write_Ok_inv in Hw1; [|exact Hc]. eapply write_Ok_inv in Hw2; [|exact Hw1].
  eapply sync_Ok_inv in Hs as E4; [|exact Hw2]. change ([] ++ ?x) with x in E4.
  fold fp in E4. fold (dirname_record dbdir) in E4. subst w'.
  rewrite <-E4.
  assert (maintains (steps_off (λ _, False)) (or_panic f_Close ;; or_panic (syncDir dir))) as Hm
    by (apply maintains_bind; [apply _|eauto with go_db|eauto with go_db]).
  destruct (Hm w4) as [Ha _]. apply Ha. by intros [].
Qed.

Lemma get_Ok_inv dir w name w' :
  getCurrentDBDirName dir w = (Ok name, w') →
  name ≠ "" ∧ ∃ s, d_fs (w_disk w) !! child (path_of dir) currentDBFilename =
                   Some (NFile (dirname_record name) s).
Proof.
  unfold getCurrentDBDirName. rewrite <-path_running.
  intros (? & w1 & Ho & H)%go_bind_Ok_inv.
  apply go_defer_Ok_inv in H as (w3 & H & _).
  apply go_bind_Ok_inv in H as (data & w2 & Hr & H).
  apply sys_Ok_inv in Ho, Hr. cbv beta in *.
  assert (w_disk w1 = w_disk w) as Hw by (by repeat case_match; simplify_eq).
  rewrite Hw in Hr.
  destruct (d_fs (w_disk w) !! _) as [[|dat s]|] eqn:E; simplify_eq.
  case_decide as Hl; [done|]. case_decide as Hc; [|done].
  unfold go_ret in H. simplify_eq. split.
  - intros He. apply Hl.
    assert (drop 8 data = []) as Hn by by rewrite <-(string_bytes_string (drop 8 data)), He.
    apply (f_equal length) in Hn. rewrite length_drop in Hn. unfold len. simpl in Hn. lia.
  - exists s. unfold dirname_record. rewrite string_bytes_string, <-Hc, take_drop. done.
Qed.
End datadir_frames.
#[export] Hint Resolve go_defer_off or_panic_off syncDir_off save_off replace_off get_off : go_db.

(** ** What [cleanupNodeDataDir] removes *)

Section cleanup.
Context {P : Pebble}.
Context (dir : string).
Abbreviation base := (path_of dir).

(** [q] lies in a directory of the listing other than [dbdir]. *)
Definition doomed (dbdir : string) (files : list (string * bool)) (q : path) : Prop :=
  Exists (λ f, f.2 = true ∧ Join dir f.1 ≠ dbdir ∧ below (child base f.1) q) files.
#[export] Instance doomed_dec dbdir files q : Decision (doomed dbdir files q) := _.

(** What is remembered of a removed entry. *)
Lemma remove_if_old X `{!∀ q, Decision (X q)} d q :
  d_old (remove_if X d) !! q =
    match d_fs d !! q with
    | Some n => if decide (X q) then Some (Some n :: default [] (d_old d !! q)) else d_old d !! q
    | None => d_old d !! q
    end.
Proof.
  simpl. rewrite lookup_union_with, lookup_fmap.
  destruct (filter (λ kv, X kv.1) (d_fs d) !! q) as [n|] eqn:E.
  - apply map_lookup_filter_Some in E as [-> Hx]. rewrite decide_True by done. by destruct (d_old d !! q).
  - simpl. apply map_lookup_filter_None in E as [->|Hx]; [by destruct (d_old d !! q)|].
    destruct (d_fs d !! q) as [n|] eqn:Hn; [|by destruct (d_old d !! q)].
    rewrite decide_False by naive_solver. by destruct (d_old d !! q).
Qed.

Lemma disk_eq d d' : d_fs d = d_fs d' → d_dbs d = d_dbs d' → d_old d = d_old d' → d = d'.
Proof. destruct d, d'. simpl. by intros -> -> ->. Qed.

Lemma remove_if_lookup {A} X `{!∀ q, Decision (X q)} (m : gmap path A) q :
  filter (λ kv, ¬ X kv.1) m !! q = if decide (X q) then None else m !! q.
Proof.
  case_decide; [apply map_lookup_filter_None; right; naive_solver|].
  apply option_eq. intros x. rewrite map_lookup_filter_Some. naive_solver.
Qed.

Lemma remove_if_none X `{!∀ q, Decision (X q)} d : (∀ q, ¬ X q) → remove_if X d = d.
Proof.
  intros HX. apply disk_eq; apply map_eq; intros q; [simpl; rewrite remove_if_lookup; by rewrite decide_False..|].
  rewrite remove_if_old. destruct (d_fs d !! q); [|done]. by rewrite decide_False.
Qed.

Lemma remove_if_ext X Y `{!∀ q, Decision (X q), !∀ q, Decision (Y q)} d :
  (∀ q, X q ↔ Y q) → remove_if X d = remove_if Y d.
Proof.
  intros HX. apply disk_eq; apply map_eq; intros q; [simpl; rewrite !remove_if_lookup..|rewrite !remove_if_old];
    specialize (HX q); try destruct (d_fs d !! q); repeat case_decide; naive_solver.
Qed.

Lemma remove_if_twice X Y Z `{!∀ q, Decision (X q), !∀ q, Decision (Y q), !∀ q, Decision (Z q)} d :
  (∀ q, Z q ↔ X q ∨ Y q) → remove_if Y (remove_if X d) = remove_if Z d.
Proof.
  intros HZ. apply disk_eq; apply map_eq; intros q; [simpl; rewrite !remove_if_lookup; specialize (HZ q);
    repeat case_decide; naive_solver..|].
  rewrite !remove_if_old. simpl d_fs. rewrite remove_if_lookup. specialize (HZ q).
  destruct (d_fs d !! q); repeat case_decide; naive_solver.
Qed.

Lemma removeOthers_ok w dbdir files :
  w_orc w = [] → Forall (λ f, fname f.1) files →
  ∃ tr, removeOthers dir dbdir files w =
        (Ok tt, at_disk w (remove_if (doomed dbdir files) (w_disk w)) tr).
Proof.
  intros Ho Hf. revert w Ho. induction files as [|[m b] files IH]; intros w Ho.
  { exists (w_trace w). destruct w. simpl in *. subst.
    unfold go_ret, at_disk. simpl. rewrite remove_if_none; [done|]. by intros q ?%Exists_nil. }
  apply Forall_cons in Hf as [Hm Hf]. simpl in Hm. simpl removeOthers.
  destruct b; simpl.
  2:{ destruct (IH Hf w Ho) as [tr ->]. exists tr. unfold at_disk. do 2 f_equal.
      apply remove_if_ext. intros q. unfold doomed. rewrite Exists_cons. naive_solver. }
  case_decide as Hd.
  - destruct (IH Hf (upd w (remove_if (below (child base m)) (w_disk w)))) as [tr Htr]; [done|].
    exists tr. erewrite go_bind_ok.
    2:{ apply sys_ok; [done|]. rewrite path_of_Join by done. reflexivity. }
    rewrite Htr. unfold at_disk. cbn [upd w_disk w_closed w_rand w_clock]. do 2 f_equal.
    apply remove_if_twice. intros q. unfold doomed. rewrite Exists_cons. simpl. naive_solver.
  - destruct (IH Hf w Ho) as [tr ->]. exists tr. unfold at_disk. do 2 f_equal.
    apply remove_if_ext. intros q. unfold doomed. rewrite Exists_cons. naive_solver.
Qed.

Lemma elem_of_dir_entries d m b :
  (m, b) ∈ dir_entries d base →
  ∃ n, d_fs d !! child base m = Some n ∧ b = match n with NDir => true | _ => false end.
Proof.
  unfold dir_entries. intros ([q n] & Hin & H)%list_elem_of_omap.
  apply elem_of_map_to_list in Hin.
  destruct (last (p_comps q)); [|done]. case_decide; [|done]. simplify_eq. eauto.
Qed.

Lemma dir_entries_dir d m :
  d_fs d !! child base m = Some NDir → (m, true) ∈ dir_entries d base.
Proof.
  intros H. apply list_elem_of_omap. exists (child base m, NDir).
  split; [by apply elem_of_map_to_list|]. simpl. rewrite last_snoc.
  by rewrite decide_True.
Qed.
End cleanup.

Section switch.
Context {P : Pebble}.

Lemma get_Ok_of_record dir w name s :
  w_orc w = [] → name ≠ "" →
  d_fs (w_disk w) !! child (path_of dir) currentDBFilename = Some (NFile (dirname_record name) s) →
  (getCurrentDBDirName dir w).1 = Ok name.
Proof. intros Ho Hne Hs. by destruct (get_ok dir w name s Ho Hs Hne) as [tr ->]. Qed.

(** Whatever a crash makes of the current file is fine: the directories above it
    are settled, and all it has been since the base directory was synced is. *)
Definition marker_ok (dir : string) (ok : option node → Prop) (d : disk) : Prop :=
  settled d (path_of dir) ∧ ∀ n, n ∈ entries d (child (path_of dir) currentDBFilename) → ok n.

Lemma entries_settles d d' p :
  d_fs d' !! p = d_fs d !! p → settles (d_old d !! p) (d_old d' !! p) →
  ∀ n, n ∈ entries d' p → n ∈ entries d p.
Proof.
  intros Hf Hs n. unfold entries. rewrite Hf. destruct Hs as [->| ->]; [done|].
  intros ->%list_elem_of_singleton. by left.
Qed.

Lemma marker_ok_agree X dir ok d d' :
  (∀ q, below q (child (path_of dir) currentDBFilename) → ¬ X q) →
  agree_off X d d' → marker_ok dir ok d → marker_ok dir ok d'.
Proof.
  intros HX H [Hs Hok]. split.
  - intros q Hq. destruct (H q) as (_ & _ & [->| ->]); [|by apply Hs|done].
    apply HX. etrans; [exact Hq|apply below_child].
  - intros n Hn. apply Hok. destruct (H (child (path_of dir) currentDBFilename)) as (Hf & _ & Ho); [apply HX, below_refl|].
    by eapply entries_settles.
Qed.

Lemma settled_marker dir (ok : option node → Prop) d :
  settled d (child (path_of dir) currentDBFilename) →
  ok (d_fs d !! child (path_of dir) currentDBFilename) → marker_ok dir ok d.
Proof.
  intros Hs Hok. split; [intros q Hq; apply Hs; etrans; [exact Hq|apply below_child]|].
  intros n. unfold entries. rewrite (Hs _ (below_refl _)). by intros ->%list_elem_of_singleton.
Qed.

(** The current file through a crash. *)
Lemma marker_ok_crash dir ok d d' :
  marker_ok dir ok d → crash d d' →
  ∃ n, ok n ∧ crash_node n (d_fs d' !! child (path_of dir) currentDBFilename).
Proof.
  intros [Hs Hok] [_ Hc]. destruct (Hc (child (path_of dir) currentDBFilename)) as [(n & Hn & Hcn) _].
  - intros q Hq Hne. apply below_child_cases in Hq as [Hq| ->]; [|done]. by apply Hs.
  - exists n. split; [by apply Hok|done].
Qed.

Section markers.
Context (dir dbdir : string) (ok : option node → Prop).
Hypothesis (Hok : ok (Some (NFile (dirname_record dbdir) true))).
Abbreviation good := (marker_ok dir ok).

(** From [w] to [w'] the current file stays good. *)
Definition keeps_good (w w' : world) : Prop := visits good w w' ∧ good (w_disk w').

Lemma keeps_good_off X w w' :
  (∀ q, below q (child (path_of dir) currentDBFilename) → ¬ X q) →
  steps_off X w w' → good (w_disk w) → keeps_good w w'.
Proof.
  intros HX (Ha & (l & T & F) & _) Hg. split; [|by eapply marker_ok_agree].
  exists l. split; [done|]. eapply Forall_impl; [exact F|]. intros d Hd. by eapply marker_ok_agree.
Qed.

Lemma keeps_good_trans w1 w2 w3 : keeps_good w1 w2 → keeps_good w2 w3 → keeps_good w1 w3.
Proof. intros [V1 _] [V2 G]. split; [by eapply visits_trans|done]. Qed.

Lemma rename_good w :
  d_fs (w_disk w) !! child (path_of dir) updatingDBFilename = Some (NFile (dirname_record dbdir) true) →
  good (w_disk w) →
  keeps_good w (os_Rename (Join dir updatingDBFilename) (Join dir currentDBFilename) w).2.
Proof.
  intros Hu Hg. set (run := child (path_of dir) currentDBFilename).
  assert (good (MkDisk (<[run := NFile (dirname_record dbdir) true]>
            (delete (child (path_of dir) updatingDBFilename) (d_fs (w_disk w)))) (d_dbs (w_disk w))
            (push run (d_fs (w_disk w) !! run) (push (child (path_of dir) updatingDBFilename)
               (d_fs (w_disk w) !! child (path_of dir) updatingDBFilename) (d_old (w_disk w)))))) as Hg'.
  { destruct Hg as [Hs Hg]. pose proof (running_ne_updating dir) as Hne. split.
    - intros q Hq. simpl. unfold push. rewrite !lookup_insert_ne; [by apply Hs|..];
        intros <-; by eapply not_below_child.
    - intros n. unfold entries. simpl. rewrite lookup_insert_eq. unfold push at 1.
      rewrite lookup_insert_eq. unfold push. rewrite lookup_insert_ne by done.
      intros [->|Hn]%elem_of_cons; [done|]. by apply Hg. }
  unfold os_Rename, sys. rewrite path_updating, path_running. fold run. fold run in Hg'.
  destruct (w_orc w) as [|[e|] o]; cbv zeta; rewrite ?Hu in *;
    try (split; [by apply visits_refl|done]);
    (destruct (dir_exists _ _); [destruct (d_fs (w_disk w) !! run) as [[]|] eqn:E|]);
    (split; [eexists [_]; split; [reflexivity|]; apply Forall_singleton|]; cbn [w_disk snd]; try done).
Qed.

Lemma replace_good w :
  d_fs (w_disk w) !! child (path_of dir) updatingDBFilename = Some (NFile (dirname_record dbdir) true) →
  good (w_disk w) → keeps_good w (replaceCurrentDBFile dir w).2.
Proof.
  intros Hu Hg. pose proof (rename_good w Hu Hg) as H. unfold replaceCurrentDBFile, go_bind.
  destruct (os_Rename _ _ w) as [[u|e|p|] w1]; try done. cbn [snd] in H.
  eapply keeps_good_trans; [exact H|]. apply (keeps_good_off (λ _, False)); [by intros q _ []|apply syncDir_off|apply H].
Qed.

(** Every disk of the switch. *)
Lemma switch_good w :
  good (w_disk w) → keeps_good w ((saveCurrentDBDirName dir dbdir ;; replaceCurrentDBFile dir) w).2.
Proof.
  intros Hg.
  assert (keeps_good w (saveCurrentDBDirName dir dbdir w).2) as H.
  { apply (keeps_good_off (λ p, p = child (path_of dir) updatingDBFilename)); [|by apply save_off|done].
    intros q Hq ->. apply below_child_cases in Hq as [Hq|Hq]; [by eapply not_below_child|].
    by eapply running_ne_updating. }
  unfold go_bind. destruct (saveCurrentDBDirName dir dbdir w) as [[u|e|p|] w1] eqn:E; try done.
  cbn [snd] in H. eapply keeps_good_trans; [exact H|]. apply replace_good; [|apply H].
  destruct u. by apply save_Ok_inv in E.
Qed.
End markers.
End switch.

Section restart.
Context {P : Pebble}.

Lemma RemoveAll_ok name w :
  w_orc w = [] →
  os_RemoveAll name w = (Ok tt, upd w (remove_if (below (path_of name)) (w_disk w))).
Proof. intros Ho. by apply sys_ok. Qed.

Lemma isNewRun_ok dir w :
  w_orc w = [] →
  isNewRun dir w =
    (Ok (bool_decide (d_fs (w_disk w) !! child (path_of dir) currentDBFilename = None)),
     upd w (w_disk w)).
Proof.
  intros Ho. unfold isNewRun, go_try, os_Stat. rewrite path_running.
  assert (p_comps (child (path_of dir) currentDBFilename) ≠ []) as Hne.
  { simpl. intros H. by destruct (clean_pieces _ _). }
  unfold sys. rewrite Ho. cbv zeta.
  destruct (d_fs (w_disk w) !! child (path_of dir) currentDBFilename) as [[]|]; [done..|].
  by rewrite decide_False.
Qed.

(** [cleanupNodeDataDir] without faults, when the current file names [dbdir]. *)
Lemma cleanup_ok dir dbdir s w :
  w_orc w = [] → dbdir ≠ "" →
  d_fs (w_disk w) !! path_of dir = Some NDir →
  d_fs (w_disk w) !! child (path_of dir) currentDBFilename =
    Some (NFile (dirname_record dbdir) s) →
  (∀ m, is_Some (d_fs (w_disk w) !! child (path_of dir) m) → fname m) →
  let d1 := remove_if (below (child (path_of dir) updatingDBFilename)) (w_disk w) in
  ∃ tr, cleanupNodeDataDir dir w =
        (Ok tt, at_disk w (remove_if (doomed dir dbdir (dir_entries d1 (path_of dir))) d1) tr).
Proof.
  intros Ho Hne Hd Hr Hent d1. unfold cleanupNodeDataDir.
  erewrite go_bind_ok.
  2:{ unfold go_ignore, go_try. rewrite RemoveAll_ok, path_updating by done. reflexivity. }
  fold d1.
  assert (d_fs d1 !! child (path_of dir) currentDBFilename =
          Some (NFile (dirname_record dbdir) s)) as Hr1.
  { apply map_lookup_filter_Some_2; [done|]. simpl. intros Hb.
    by pose proof (below_child_inj _ _ _ _ Hb (below_refl _)). }
  assert (d_fs d1 !! path_of dir = Some NDir) as Hd1.
  { apply map_lookup_filter_Some_2; [done|]. apply not_below_child. }
  destruct (get_ok dir (upd w d1) dbdir s) as [tr1 H1]; [done|done|done|].
  erewrite go_bind_ok by exact H1. erewrite go_bind_ok.
  2:{ apply sys_ok; [done|]. simpl w_disk. rewrite dir_exists_base by done. reflexivity. }
  match goal with |- context [removeOthers _ _ _ ?w2] =>
    destruct (removeOthers_ok dir w2 dbdir (dir_entries d1 (path_of dir))) as [tr2 H2] end;
    [done| |by exists tr2].
  apply Forall_forall. intros [m b] (nd & Hm & _)%elem_of_dir_entries. simpl.
  apply Hent. apply map_lookup_filter_Some in Hm as [Hm _]. by eexists.
Qed.

(** The current database directory is never doomed; the others are. *)
Lemma not_doomed_below dir n files q :
  below (child (path_of dir) n) q → ¬ doomed dir (Join dir n) files q.
Proof.
  intros Hb (f & _ & _ & Hne & Hf)%Exists_exists.
  apply Hne. f_equal. by eapply below_child_inj.
Qed.

Lemma Join_nonempty dir n : fname n → Join dir n ≠ "".
Proof.
  intros Hn He%(f_equal path_of). rewrite path_of_Join in He by done.
  apply (f_equal p_comps) in He. simpl in He. by destruct (clean_pieces _ _).
Qed.

Lemma child_ne p n : p ≠ child p n.
Proof. intros Heq. apply (not_below_child p n). rewrite <-Heq. apply below_refl. Qed.

Lemma child_child_ne p n m : n ≠ m → child p n ≠ child p m.
Proof. intros Hne Heq. injection Heq as Heq. by apply app_inj_tail in Heq as [_ ?]. Qed.

(** The listing of [cleanupNodeDataDir], once [pebble.updating] is gone. *)
Lemma entry_not_updating dir d m :
  d_fs d !! child (path_of dir) m = Some NDir → m ≠ updatingDBFilename →
  (m, true) ∈ dir_entries (remove_if (below (child (path_of dir) updatingDBFilename)) d) (path_of dir).
Proof.
  intros Hm Hmu. apply dir_entries_dir, map_lookup_filter_Some_2; [done|]. simpl.
  intros Hb. by pose proof (below_child_inj _ _ _ _ Hb (below_refl _)).
Qed.

Lemma doomed_gone dir dbdir files d q :
  doomed dir dbdir files q →
  d_fs (remove_if (doomed dir dbdir files) d) !! q = None ∧
  d_dbs (remove_if (doomed dir dbdir files) d) !! q = None.
Proof.
  intros Hq. split; apply eq_None_not_Some; intros [x Hx];
    apply map_lookup_filter_Some in Hx as [_ Hx]; by apply Hx.
Qed.

(** The current file survives the cleanup. *)
Lemma running_not_doomed dir dbdir d data s :
  let d1 := remove_if (below (child (path_of dir) updatingDBFilename)) d in
  d_fs d !! child (path_of dir) currentDBFilename = Some (NFile data s) →
  d_fs (remove_if (doomed dir dbdir (dir_entries d1 (path_of dir))) d1)
    !! child (path_of dir) currentDBFilename = Some (NFile data s).
Proof.
  intros d1 Hr. apply map_lookup_filter_Some_2.
  - apply map_lookup_filter_Some_2; [done|]. simpl. intros Hb.
    by pose proof (below_child_inj _ _ _ _ Hb (below_refl _)).
  - simpl. intros ([m b] & Hin & Hb & _ & Hf)%Exists_exists. simpl in *. subst b.
    pose proof (below_child_inj _ _ _ _ Hf (below_refl _)) as ->.
    apply elem_of_dir_entries in Hin as (nd & Hm & ?).
    apply map_lookup_filter_Some in Hm as [Hm _]. rewrite Hr in Hm. by simplify_eq.
Qed.

(** A start that finds the current file naming the directory [n]. *)
Lemma reopen_ok dir n s w :
  w_orc w = [] → fname n → n ≠ updatingDBFilename →
  d_fs (w_disk w) !! path_of dir = Some NDir →
  d_fs (w_disk w) !! child (path_of dir) currentDBFilename =
    Some (NFile (dirname_record (Join dir n)) s) →
  (∀ m, is_Some (d_fs (w_disk w) !! child (path_of dir) m) → fname m) →
  ∃ d2 tr,
    getPebbleDBDir dir w =
      (match d_fs (w_disk w) !! child (path_of dir) n with
       | Some _ => Ok (Join dir n)
       | None => Err (Errorf "db dir unexpectedly deleted" [])
       end, at_disk w d2 tr) ∧
    (∀ q, below (child (path_of dir) n) q →
          d_fs d2 !! q = d_fs (w_disk w) !! q ∧ d_dbs d2 !! q = d_dbs (w_disk w) !! q) ∧
    (∀ m q, m ≠ n → m ≠ updatingDBFilename →
            d_fs (w_disk w) !! child (path_of dir) m = Some NDir →
            below (child (path_of dir) m) q → d_fs d2 !! q = None ∧ d_dbs d2 !! q = None) ∧
    d_fs d2 !! child (path_of dir) currentDBFilename =
      Some (NFile (dirname_record (Join dir n)) s) ∧
    d_fs d2 !! child (path_of dir) updatingDBFilename = None ∧
    (∀ q, (∀ k, ¬ below (child (path_of dir) k) q) → d_fs d2 !! q = d_fs (w_disk w) !! q) ∧
    (∀ q, below q (child (path_of dir) n) ∨ q = child (path_of dir) currentDBFilename →
          d_old d2 !! q = d_old (w_disk w) !! q).
Proof.
  intros Ho Hn Hnu Hd Hr Hent. pose proof (Join_nonempty dir n Hn) as Hne.
  unfold getPebbleDBDir. erewrite go_bind_ok by by apply isNewRun_ok.
  rewrite Hr, bool_decide_eq_false_2 by done.
  destruct (cleanup_ok dir (Join dir n) s (upd w (w_disk w))) as [tr1 H1]; [done..|].
  erewrite go_bind_ok by exact H1. clear H1. simpl w_disk.
  set (files := dir_entries _ _). set (d1 := remove_if (below _) _).
  exists (remove_if (doomed dir (Join dir n) files) d1).
  assert (∀ q, below (child (path_of dir) n) q →
            d_fs (remove_if (doomed dir (Join dir n) files) d1) !! q = d_fs (w_disk w) !! q ∧
            d_dbs (remove_if (doomed dir (Join dir n) files) d1) !! q = d_dbs (w_disk w) !! q) as Hkeep.
  { intros q Hq. assert (¬ below (child (path_of dir) updatingDBFilename) q) as Hq'
      by (intros ?; by eapply Hnu, below_child_inj).
    pose proof (not_doomed_below dir n files q Hq).
    split; apply option_eq; intros x; unfold d1, remove_if; simpl;
      rewrite !map_lookup_filter_Some; naive_solver. }
  edestruct (get_ok dir) as [tr2 H2]; [| | |erewrite go_bind_ok by exact H2].
  { done. } { by apply running_not_doomed. } { done. }
  eexists. split; [|split; [exact Hkeep|split; [|split; [by apply running_not_doomed|split; [|split]]]]].
  - unfold go_try, os_Stat, sys. simpl w_orc. cbv iota zeta. simpl w_disk.
    rewrite path_of_Join, (proj1 (Hkeep _ (below_refl _))) by done.
    destruct (d_fs (w_disk w) !! child (path_of dir) n) as [[]|]; [done..|].
    rewrite decide_False; [done|]. simpl. by destruct (clean_pieces _ _).
  - intros m q Hmn Hmu Hm Hq. apply doomed_gone, Exists_exists. exists (m, true).
    split; [by apply entry_not_updating|]. split; [done|]. split; [|done].
    intros Hj. apply Hmn. eapply Join_inj; [apply Hent; by eexists|done|exact Hj].
  - apply map_lookup_filter_None. left. apply map_lookup_filter_None. right.
    intros x _ Hx. apply Hx, below_refl.
  - intros q Hq. apply option_eq. intros x. unfold d1, remove_if. simpl.
    rewrite !map_lookup_filter_Some. simpl. split; [naive_solver|]. intros Hx.
    split; [split; [done|by apply Hq]|]. intros (f & _ & _ & _ & Hf)%Exists_exists. by apply Hq in Hf.
  - assert (∀ X `{!∀ q, Decision (X q)} d q, ¬ X q → d_old (remove_if X d) !! q = d_old d !! q) as Hold.
    { intros X ? d q Hx. rewrite remove_if_old. destruct (d_fs d !! q); [|done]. by rewrite decide_False. }
    intros q Hq.
    assert (¬ below (child (path_of dir) updatingDBFilename) q) as H1.
    { intros Hb. destruct Hq as [Hq| ->].
      - assert (below (child (path_of dir) updatingDBFilename) (child (path_of dir) n)) as Hx by by etrans.
        by pose proof (below_child_inj _ _ _ _ Hx (below_refl _)).
      - by pose proof (below_child_inj _ _ _ _ Hb (below_refl _)). }
    rewrite Hold; [by apply Hold|]. destruct Hq as [Hq| ->].
    + intros (f & _ & _ & Hf & Hb)%Exists_exists. apply Hf. f_equal.
      assert (below (child (path_of dir) f.1) (child (path_of dir) n)) as Hx by by etrans.
      by pose proof (below_child_inj _ _ _ _ Hx (below_refl _)).
    + intros Hx. pose proof (running_not_doomed dir (Join dir n) (w_disk w) _ _ Hr) as Hr2. simpl in Hr2.
      apply map_lookup_filter_Some in Hr2 as [_ Hr2]. by apply Hr2.
Qed.

(** A first start. *)
Lemma fresh_ok dir w :
  let n := random_name (uint 64 (default 0 (head (w_rand w))))
                       (int64 (default 0 (head (w_clock w)))) in
  w_orc w = [] →
  d_fs (w_disk w) !! path_of dir = Some NDir →
  d_fs (w_disk w) !! child (path_of dir) updatingDBFilename ≠ Some NDir →
  d_fs (w_disk w) !! child (path_of dir) currentDBFilename = None →
  ∃ d tr,
    getPebbleDBDir dir w =
      (Ok (Join dir n), MkWorld d (w_closed w) [] (tail (w_rand w)) (tail (w_clock w)) tr) ∧
    d_fs d !! child (path_of dir) currentDBFilename =
      Some (NFile (dirname_record (Join dir n)) true) ∧
    d_fs d !! child (path_of dir) updatingDBFilename = None ∧
    d_dbs d = d_dbs (w_disk w) ∧
    (∀ q, q ≠ child (path_of dir) currentDBFilename →
          q ≠ child (path_of dir) updatingDBFilename →
          d_fs d !! q = d_fs (w_disk w) !! q).
Proof.
  intros n Ho Hd Hu Hr. pose proof (running_ne_updating dir) as Hru.
  unfold getPebbleDBDir. erewrite go_bind_ok by by apply isNewRun_ok.
  rewrite Hr, bool_decide_eq_true_2 by done. erewrite go_bind_ok by reflexivity.
  change (Join dir _) with (Join dir n).
  edestruct (save_ok dir) as [tr1 H1]; [| | |erewrite go_bind_ok by exact H1]; [done..|].
  edestruct (replace_ok dir) as [tr2 H2]; [| | | |erewrite go_bind_ok by exact H2].
  { done. }
  { simpl. rewrite lookup_insert_ne; [done|]. apply not_eq_sym, child_ne. }
  { apply lookup_insert_eq. }
  { simpl. by rewrite lookup_insert_ne, Hr. }
  eexists _, _. split; [reflexivity|]. split; [apply lookup_insert_eq|].
  split; [simpl; rewrite lookup_insert_ne by done; apply lookup_delete_eq|]. split; [done|].
  intros q Hq1 Hq2. simpl. by rewrite lookup_insert_ne, lookup_delete_ne, lookup_insert_ne.
Qed.
End restart.

(** ** Theorems *)

(** A disk for the witnesses: the base directory [/d] exists and is empty. *)
Definition demo_disk : disk (P := Mem no_fault) :=
  MkDisk (<[path_of "/d" := NDir]> ∅) ∅ ∅.
Definition demo_world : world (P := Mem no_fault) :=
  MkWorld demo_disk ∅ [] [7] [1700000000] [].

Section datadir_theorems.
Context {P : Pebble}.

(** [getCurrentDBDirName] returns a name exactly when [pebble.running] is
    a complete record of it (digest prefix, then the non-empty name); every
    other content, a missing file included, is an error. *)
Theorem getCurrentDBDirName_spec dir w name :
  w_orc w = [] →
  ((getCurrentDBDirName dir w).1 = Ok name ↔
   name ≠ "" ∧ ∃ s, d_fs (w_disk w) !! child (path_of dir) currentDBFilename =
                    Some (NFile (dirname_record name) s)).
Proof.
  intros Ho. split.
  - intros H. destruct (getCurrentDBDirName dir w) as [r w'] eqn:E. simpl in H. subst r.
    by eapply get_Ok_inv.
  - intros (Hne & s & Hs). by destruct (get_ok dir w name s Ho Hs Hne) as [tr ->].
Qed.

(** saving the name of a database directory and replacing the current
    file makes [getCurrentDBDirName] return it, and changes nothing else on
    the disk than the two marker files. *)
Theorem saved_dirname_is_current dir dbdir w :
  w_orc w = [] →
  d_fs (w_disk w) !! path_of dir = Some NDir →
  d_fs (w_disk w) !! child (path_of dir) updatingDBFilename ≠ Some NDir →
  d_fs (w_disk w) !! child (path_of dir) currentDBFilename ≠ Some NDir →
  dbdir ≠ "" →
  ∃ w', (saveCurrentDBDirName dir dbdir ;; replaceCurrentDBFile dir) w = (Ok tt, w') ∧
        (getCurrentDBDirName dir w').1 = Ok dbdir ∧
        d_fs (w_disk w') !! child (path_of dir) updatingDBFilename = None ∧
        agree_off (λ p, p = child (path_of dir) updatingDBFilename ∨
                        p = child (path_of dir) currentDBFilename) (w_disk w) (w_disk w').
Proof.
  intros Ho Hd Hu Hr Hne. pose proof (running_ne_updating dir) as Hru.
  destruct (save_ok dir w dbdir Ho Hd Hu) as [tr1 H1].
  set (w1 := at_disk _ _ _) in H1.
  destruct (replace_ok dir w1 (dirname_record dbdir) true) as [tr2 H2]; [done|..].
  { simpl. rewrite lookup_insert_ne; [done|]. intros Heq.
    apply (not_below_child (path_of dir) updatingDBFilename). rewrite Heq. apply below_refl. }
  { apply lookup_insert_eq. }
  { simpl. by rewrite lookup_insert_ne. }
  eexists. erewrite go_bind_ok by exact H1. split; [exact H2|]. split; [|split].
  - eapply get_Ok_of_record; [done|done|]. apply lookup_insert_eq.
  - simpl. rewrite lookup_insert_ne by done. apply lookup_delete_eq.
  - intros q Hq. split; [|split; [done|]].
    + simpl. rewrite lookup_insert_ne, lookup_delete_ne, lookup_insert_ne by naive_solver. done.
    + exact (settles_trans _ _ _ (settles_synced (path_of dir) (w_disk w) q)
                             (settles_synced (path_of dir) (w_disk w1) q)).
Qed.

(** C30: whatever fails, and whenever the node crashes during the switch, the
    current file afterwards is the one from before or the complete new
    record: never a torn one, and never none when there was one. The entry of the
    current file and those of the directories above it had reached the disk before. *)
Theorem switch_is_crash_safe dir dbdir w w' l d d' :
  (∀ data, d_fs (w_disk w) !! child (path_of dir) currentDBFilename ≠ Some (NFile data false)) →
  settled (w_disk w) (child (path_of dir) currentDBFilename) →
  ((saveCurrentDBDirName dir dbdir ;; replaceCurrentDBFile dir) w).2 = w' →
  w_trace w' = w_trace w ++ l → d ∈ l → crash d d' →
  d_fs d' !! child (path_of dir) currentDBFilename =
    d_fs (w_disk w) !! child (path_of dir) currentDBFilename ∨
  d_fs d' !! child (path_of dir) currentDBFilename = Some (NFile (dirname_record dbdir) true).
Proof.
  set (run := child (path_of dir) currentDBFilename).
  intros Hsync Hs Hw' Htr Hd Hcr.
  set (ok n := n = d_fs (w_disk w) !! run ∨ n = Some (NFile (dirname_record dbdir) true)).
  destruct (switch_good dir dbdir ok (or_intror eq_refl) w) as [V _].
  { apply settled_marker; [done|by left]. }
  rewrite Hw' in V. pose proof (visits_elem _ _ _ _ _ V Htr Hd) as Hg.
  destruct (marker_ok_crash _ _ _ _ Hg Hcr) as (n & [->| ->] & Hn); [|by right]. left. fold run in Hn.
  destruct (d_fs (w_disk w) !! run) as [[|data []]|] eqn:E; simpl in Hn; try done.
  by edestruct Hsync.
Qed.

(** on a restart the node comes back to the directory the current file
    names. Everything in it, its database included, is untouched, and every
    other database directory of the base directory (a half-restored one, or
    the previous one) is gone. *)
Theorem restart_keeps_current_db dir n s w :
  w_orc w = [] → fname n → n ≠ updatingDBFilename →
  d_fs (w_disk w) !! path_of dir = Some NDir →
  d_fs (w_disk w) !! child (path_of dir) currentDBFilename =
    Some (NFile (dirname_record (Join dir n)) s) →
  is_Some (d_fs (w_disk w) !! child (path_of dir) n) →
  (∀ m, is_Some (d_fs (w_disk w) !! child (path_of dir) m) → fname m) →
  ∃ w', getPebbleDBDir dir w = (Ok (Join dir n), w') ∧
    (∀ q, below (child (path_of dir) n) q →
          d_fs (w_disk w') !! q = d_fs (w_disk w) !! q ∧
          d_dbs (w_disk w') !! q = d_dbs (w_disk w) !! q) ∧
    (∀ m q, m ≠ n → m ≠ updatingDBFilename →
            d_fs (w_disk w) !! child (path_of dir) m = Some NDir →
            below (child (path_of dir) m) q →
            d_fs (w_disk w') !! q = None ∧ d_dbs (w_disk w') !! q = None).
Proof.
  intros Ho Hn Hnu Hd Hr [nd Hdb] Hent.
  destruct (reopen_ok dir n s w) as (d2 & tr & H & Hkeep & Hgone & _); [done..|].
  rewrite Hdb in H. eauto.
Qed.

(** the name of a fresh database directory is made current before the
    directory exists. A node that stops between the two (the store opens the
    database right after) finds the record on its next start, and refuses to
    start: "db dir unexpectedly deleted". *)
Theorem stop_before_first_open_blocks_start dir w :
  let n := random_name (uint 64 (default 0 (head (w_rand w))))
                       (int64 (default 0 (head (w_clock w)))) in
  w_orc w = [] →
  d_fs (w_disk w) !! path_of dir = Some NDir →
  d_fs (w_disk w) !! child (path_of dir) updatingDBFilename ≠ Some NDir →
  d_fs (w_disk w) !! child (path_of dir) currentDBFilename = None →
  d_fs (w_disk w) !! child (path_of dir) n = None →
  (∀ m, is_Some (d_fs (w_disk w) !! child (path_of dir) m) → fname m) →
  ∃ w1, getPebbleDBDir dir w = (Ok (Join dir n), w1) ∧
    ∀ w2, w_disk w2 = w_disk w1 → w_orc w2 = [] →
          (getPebbleDBDir dir w2).1 = Err (Errorf "db dir unexpectedly deleted" []).
Proof.
  intros n Ho Hd Hu Hr Hn Hent.
  destruct (random_name_marker (uint 64 (default 0 (head (w_rand w))))
              (int64 (default 0 (head (w_clock w))))) as [Hnc Hnu]. fold n in Hnc, Hnu.
  destruct (fresh_ok dir w Ho Hd Hu Hr) as (d & tr & H & Hrd & _ & _ & Hdq). fold n in H, Hrd.
  eexists. split; [exact H|]. simpl. intros w2 Hw2 Ho2.
  destruct (reopen_ok dir n true w2) as (d2 & tr2 & -> & _); rewrite ?Hw2.
  { done. } { apply fname_random. } { done. }
  { rewrite Hdq by apply child_ne. done. }
  { done. }
  { intros m [x Hm].
    destruct (decide (m = currentDBFilename)) as [->|]; [apply fname_current|].
    destruct (decide (m = updatingDBFilename)) as [->|]; [apply fname_updating|].
    rewrite Hdq in Hm by by apply child_child_ne. by eauto. }
  by rewrite Hdq, Hn by by apply child_child_ne.
Qed.

(** the current file holds the full path of the database directory, and
    the start compares it as a string with the paths under the base
    directory. A base directory that is reached by another path (moved, or
    given relative instead of absolute) matches nothing: the start deletes
    every database under it and then refuses to start. *)
Theorem relocated_base_dir_loses_databases dir dbdir s w m :
  w_orc w = [] → dbdir ≠ "" →
  d_fs (w_disk w) !! path_of dir = Some NDir →
  d_fs (w_disk w) !! child (path_of dir) currentDBFilename =
    Some (NFile (dirname_record dbdir) s) →
  (∀ k, is_Some (d_fs (w_disk w) !! child (path_of dir) k) → fname k ∧ Join dir k ≠ dbdir) →
  d_fs (w_disk w) !! path_of dbdir = None → p_comps (path_of dbdir) ≠ [] →
  d_fs (w_disk w) !! child (path_of dir) m = Some NDir → m ≠ updatingDBFilename →
  ∃ w', getPebbleDBDir dir w = (Err (Errorf "db dir unexpectedly deleted" []), w') ∧
        ∀ q, below (child (path_of dir) m) q →
             d_fs (w_disk w') !! q = None ∧ d_dbs (w_disk w') !! q = None.
Proof.
  intros Ho Hne Hd Hr Hent Hdb Hroot Hm Hmu. unfold getPebbleDBDir.
  erewrite go_bind_ok by by apply isNewRun_ok. rewrite Hr, bool_decide_eq_false_2 by done.
  destruct (cleanup_ok dir dbdir s (upd w (w_disk w))) as [tr1 H1]; [done..| |].
  { intros k Hk. by apply Hent. }
  erewrite go_bind_ok by exact H1. clear H1. simpl w_disk.
  set (d2 := remove_if (doomed _ _ _) _).
  destruct (get_ok dir (at_disk w d2 tr1) dbdir s) as [tr2 H2].
  { done. } { simpl w_disk. by apply running_not_doomed. } { done. }
  eexists. erewrite go_bind_ok by exact H2. split.
  - assert (d_fs d2 !! path_of dbdir = None) as Hnone.
    { apply eq_None_not_Some. intros [x Hx].
      apply map_lookup_filter_Some in Hx as [Hx _].
      apply map_lookup_filter_Some in Hx as [Hx _]. by rewrite Hdb in Hx. }
    unfold go_try, os_Stat, sys. simpl w_orc. cbv iota zeta. simpl w_disk.
    by rewrite Hnone, decide_False.
  - intros q Hq. apply doomed_gone. apply Exists_exists. exists (m, true).
    split; [by apply entry_not_updating|]. split; [done|]. split; [|done].
    apply Hent. by eexists.
Qed.
End datadir_theorems.

(** ** Witnesses *)

(** A node whose current database is [/d/a], with a leftover directory [/d/b]. *)
Definition demo_disk2 (current : string) : disk (P := Mem no_fault) :=
  MkDisk (<[path_of "/d" := NDir]> (<[path_of "/d/a" := NDir]> (<[path_of "/d/b" := NDir]>
           (<[path_of "/d/pebble.running" := NFile (dirname_record current) true]> ∅))))
         (<[path_of "/d/a" := ({[ string_bytes "k" := string_bytes "v" ]} : gmap bytes bytes)]>
           (<[path_of "/d/b" := ∅]> ∅)) ∅.
Definition demo_world2 (current : string) : world (P := Mem no_fault) :=
  MkWorld (demo_disk2 current) ∅ [] [7] [1700000000] [].

Ltac demo_entries :=
  intros m [x Hx]; simpl in Hx;
  repeat (apply lookup_insert_Some in Hx as [[Hp _]|[_ Hx]];
          [injection Hp as Hp; vm_compute in Hp |- *; simplify_eq; by split|]);
  by rewrite lookup_empty in Hx.

Lemma getCurrentDBDirName_spec_witness :
  (getCurrentDBDirName "/d" (demo_world2 "/d/a")).1 = Ok "/d/a" ∧
  (getCurrentDBDirName "/d" demo_world).1 ≠ Ok "/d/a".
Proof.
  split.
  - apply (getCurrentDBDirName_spec "/d" (demo_world2 "/d/a") "/d/a"); [reflexivity|].
    split; [done|]. exists true. by vm_compute.
  - intros H. apply (getCurrentDBDirName_spec "/d" demo_world "/d/a") in H; [|reflexivity].
    destruct H as (_ & s & Hs). by vm_compute in Hs.
Defined.

Lemma saved_dirname_is_current_witness :
  ∃ w', (saveCurrentDBDirName "/d" "/d/7_1" ;; replaceCurrentDBFile "/d") demo_world = (Ok tt, w') ∧
        (getCurrentDBDirName "/d" w').1 = Ok "/d/7_1".
Proof.
  destruct (saved_dirname_is_current "/d" "/d/7_1" demo_world) as (w' & H1 & H2 & _);
    [by vm_compute..|]. exact (ex_intro _ w' (conj H1 H2)).
Defined.

(** The third disk of the trace is the one with a half-written update file. *)
Lemma switch_is_crash_safe_witness :
  let w' := ((saveCurrentDBDirName "/d" "/d/b" ;; replaceCurrentDBFile "/d") (demo_world2 "/d/a")).2 in
  let d := nth 2 (w_trace w') (demo_disk2 "") in
  d_fs d !! child (path_of "/d") updatingDBFilename = Some (NFile (dirname_record "/d/b") false) ∧
  (d_fs (sync_all d) !! child (path_of "/d") currentDBFilename =
     d_fs (w_disk (demo_world2 "/d/a")) !! child (path_of "/d") currentDBFilename ∨
   d_fs (sync_all d) !! child (path_of "/d") currentDBFilename =
     Some (NFile (dirname_record "/d/b") true)).
Proof.
  intros w' d. split; [by vm_compute|].
  pose proof (switch_is_crash_safe "/d" "/d/b" (demo_world2 "/d/a") w' (w_trace w') d (sync_all d)) as H.
  apply H.
  - intros data Hd. by vm_compute in Hd.
  - intros q _. apply lookup_empty.
  - reflexivity.
  - reflexivity.
  - apply list_elem_of_In, nth_In. vm_compute. lia.
  - apply crash_sync_all.
Defined.

Lemma restart_keeps_current_db_witness :
  ∃ w', getPebbleDBDir "/d" (demo_world2 "/d/a") = (Ok "/d/a", w') ∧
        d_dbs (w_disk w') !! path_of "/d/a" =
          Some ({[ string_bytes "k" := string_bytes "v" ]} : gmap bytes bytes) ∧
        d_dbs (w_disk w') !! path_of "/d/b" = None.
Proof.
  destruct (restart_keeps_current_db "/d" "a" true (demo_world2 "/d/a")) as (w' & H & Hk & Hg);
    [by vm_compute|by split|done|by vm_compute|by vm_compute|by vm_compute; eexists|demo_entries|].
  exists w'. split; [exact H|]. split.
  - etrans; [apply (proj2 (Hk (path_of "/d/a") (below_refl _)))|]. apply lookup_insert_eq.
  - apply (Hg "b" (path_of "/d/b")); [done|done|by vm_compute|apply below_refl].
Defined.

Lemma stop_before_first_open_blocks_start_witness :
  ∃ w1, getPebbleDBDir "/d" demo_world = (Ok "/d/7_1700000000", w1) ∧
        (getPebbleDBDir "/d" w1).1 = Err (Errorf "db dir unexpectedly deleted" []).
Proof.
  destruct (stop_before_first_open_blocks_start "/d" demo_world) as (w1 & H1 & H2);
    [by vm_compute|by vm_compute|by vm_compute|by vm_compute|by vm_compute|demo_entries|].
  exists w1. split; [exact H1|]. apply H2; [reflexivity|].
  assert (w1 = (getPebbleDBDir "/d" demo_world).2) as -> by by rewrite H1.
  by vm_compute.
Defined.

Lemma relocated_base_dir_loses_databases_witness :
  ∃ w', getPebbleDBDir "/d" (demo_world2 "data/a") =
          (Err (Errorf "db dir unexpectedly deleted" []), w') ∧
        d_dbs (w_disk w') !! path_of "/d/a" = None.
Proof.
  destruct (relocated_base_dir_loses_databases "/d" "data/a" true (demo_world2 "data/a") "a")
    as (w' & H & Hq); [by vm_compute|done|by vm_compute|by vm_compute| |by vm_compute|done|by vm_compute|done|].
  { intros m [x Hx]; simpl in Hx;
    repeat (apply lookup_insert_Some in Hx as [[Hp _]|[_ Hx]];
            [injection Hp as Hp; vm_compute in Hp |- *; simplify_eq; by split|]);
    by rewrite lookup_empty in Hx. }
  exists w'. split; [exact H|]. apply (Hq (path_of "/d/a")), below_refl.
Defined.
