(* ===== verification/Snapshot.v ===== *)
(** * Snapshot.v: the snapshot stream of fsm/store.go.

    [saveSnapShot] writes a header, length-prefixed records with compressed
    values and a trailing CRC-32 to a sink; [recoverSnapShot] reads such a
    stream into a new database in batches and makes that database the current
    one. The write batch of fsm/wb.go and the gzip helpers of fsm/utils.go are
    here too. *)
From S2P Require Import Prelude Binary Paths Pebble FileSystem DataDir.

(** ** compress/gzip

    The compressor's output is the library's business: the model takes its
    writer and reader as parameters. *)
Class Gzip := {
  gz_writer : Type;
  gz_NewWriter : gz_writer;  (** over an empty [bytes.Buffer] *)
  gz_Write : gz_writer → bytes → option error * gz_writer;
  gz_Flush : gz_writer → option error * gz_writer;
  gz_Close : gz_writer → option error * gz_writer;
  gz_Bytes : gz_writer → bytes;  (** [buffer.Bytes()] *)
  gz_reader : Type;
  gz_NewReader : bytes → gz_reader + error;
  gz_ReadAll : gz_reader → bytes + error;
}.

(** Writing to memory does not fail, and reading back a closed stream gives
    what was written. *)
Class GzipLaws (G : Gzip) : Prop := {
  gz_memory c :
    ∃ w1 w2 w3, gz_Write gz_NewWriter c = (None, w1) ∧ gz_Flush w1 = (None, w2) ∧
                gz_Close w2 = (None, w3);
  gz_read_back c w1 w2 w3 :
    gz_Write gz_NewWriter c = (None, w1) → gz_Flush w1 = (None, w2) →
    gz_Close w2 = (None, w3) →
    ∃ r, gz_NewReader (gz_Bytes w3) = inl r ∧ gz_ReadAll r = inl c;
}.

(** A codec for the witnesses: the gzip magic byte, then the content as it is. *)
Definition Stored : Gzip := {|
  gz_writer := bytes;
  gz_NewWriter := [];
  gz_Write w c := (None, w ++ c);
  gz_Flush w := (None, w);
  gz_Close w := (None, w);
  gz_Bytes w := byte_of_Z 0x1f :: w;
  gz_reader := bytes;
  gz_NewReader b := match b with
                    | x :: c => if decide (byte_val x = 0x1f) then inl c else inr (Errno 1)
                    | [] => inr EOF
                    end;
  gz_ReadAll r := inl r;
|}.

#[global] Instance stored_laws : GzipLaws Stored.
Proof.
  split; simpl; [eauto 10|]. intros c w1 w2 w3 [= <-] [= <-] [= <-]. eauto.
Qed.

Definition gzipEncode {G : Gzip} (content : bytes) : res bytes :=
  let '(e1, w1) := gz_Write gz_NewWriter content in
  res_bind (opt_err e1) (λ _,
  let '(e2, w2) := gz_Flush w1 in
  res_bind (opt_err e2) (λ _,
  let '(e3, w3) := gz_Close w2 in
  res_bind (opt_err e3) (λ _, Ok (gz_Bytes w3)))).

Definition gzipDecode {G : Gzip} (gzipMsg : bytes) : res bytes :=
  res_bind (of_sum (gz_NewReader gzipMsg)) (λ r, of_sum (gz_ReadAll r)).

(** ** The stream format *)

Definition snapshotVersion : Z := 1.
Definition snapshotMagic : Z := 0x52414654.

Record SnapshotHeader := MkHeader {
  Magic : Z;
  Version : Z;
  LastIndex : Z;
  Timestamp : Z;
  NodeId : string;
  Checksum : Z;
}.

Record SnapshotResult := MkResult {
  Size : Z;
  Records : Z;
  ResChecksum : Z;
  Duration : Z;
}.

(** [headerBuf]: the fields at their offsets, then four zero bytes where the
    header checksum would be. *)
Definition headerBuf (nodeId : string) (lastIndex unix : Z) : bytes :=
  PutUint32 snapshotMagic ++ PutUint32 snapshotVersion ++ PutUint64 lastIndex ++
  PutUint64 (uint 64 unix) ++ PutUint16 (uint 16 (len (string_bytes nodeId))) ++
  string_bytes nodeId ++ replicate 4 (byte_of_Z 0).

(** ** raft.SnapshotSink

    The sink as the calls that were made on it: what the writes that succeeded were
    given, whether [Close] and [Cancel] were called, whatever they returned, and the
    faults to come. What a sink does with a call that fails is its own affair. *)
Record sink := MkSink {
  sk_data : bytes;
  sk_close_called : bool;
  sk_cancel_called : bool;
  sk_faults : list (option error);
}.

Definition sink_Write (p : bytes) : GoM sink unit :=
  λ s, match sk_faults s with
       | Some e :: f => (Err e, MkSink (sk_data s) (sk_close_called s) (sk_cancel_called s) f)
       | f => (Ok tt, MkSink (sk_data s ++ p) (sk_close_called s) (sk_cancel_called s) (tail f))
       end.
Definition sink_Close : GoM sink unit :=
  λ s, match sk_faults s with
       | Some e :: f => (Err e, MkSink (sk_data s) true (sk_cancel_called s) f)
       | f => (Ok tt, MkSink (sk_data s) true (sk_cancel_called s) (tail f))
       end.
Definition sink_Cancel : GoM sink unit :=
  λ s, (Ok tt, MkSink (sk_data s) (sk_close_called s) true (sk_faults s)).

(** [if err := ...; err != nil { sink.Cancel(); return nil, err }] *)
Definition or_cancel {A} (m : GoM sink A) : GoM sink A := go_on_err m sink_Cancel.

(** The running totals of [saveSnapShot]. *)
Record totals := MkTotals { totalSize : Z; count : Z; hasher : Z }.

Section save.
Context {P : Pebble} {G : Gzip}.

(** [sink.Write(b); totalSize += len(b); hasher.Write(b)] *)
Definition write_hashed (b : bytes) (t : totals) : GoM sink totals :=
  or_cancel (sink_Write b) ;;
  go_ret (MkTotals (int64 (totalSize t + len b)) (count t) (crc32_update (hasher t) b)).

(** The body of the iteration over the database snapshot. *)
Definition save_record (kv : bytes * bytes) (t : totals) : GoM sink totals :=
  let '(key, val) := kv in
  let t := MkTotals (totalSize t) (uint 64 (count t + 1)) (hasher t) in
  t <- write_hashed (PutUint64 (len key)) t ;;
  t <- write_hashed key t ;;
  gzipVal <- or_cancel (go_lift (gzipEncode val)) ;;
  t <- write_hashed (PutUint64 (len gzipVal)) t ;;
  write_hashed gzipVal t.

Fixpoint save_records (l : list (bytes * bytes)) (t : totals) : GoM sink totals :=
  match l with
  | [] => go_ret t
  | kv :: l => t' <- save_record kv t ;; save_records l t'
  end.

(** [unix] and [duration] are what the clock says at the header and at the
    end. *)
Definition saveSnapShot (nodeId : string) (lastIndex : Z) (snapshot : Snapshot)
    (unix duration : Z) : GoM sink SnapshotResult :=
  '(entries, iterErr) <- go_lift (of_sum (snap_NewIter snapshot)) ;;
  let hdr := headerBuf nodeId lastIndex unix in
  or_cancel (sink_Write hdr) ;;
  t <- save_records entries (MkTotals (int64 (len hdr)) 0 crc32_new) ;;
  or_cancel (match iterErr with
             | Some e => go_err (Wrapf "iterator error during snapshot" [] e)
             | None => go_ret tt
             end) ;;
  let checksum := hasher t in
  or_cancel (sink_Write (PutUint32 checksum)) ;;
  let size := int64 (totalSize t + 4) in
  sink_Close ;;
  go_ret (MkResult size (count t) checksum duration).
End save.

(** ** Reading the header *)

Definition read_full (n : Z) : GoM reader bytes :=
  λ r, match ReadFull n r with
       | (b, None, r') => (Ok b, r')
       | (_, Some e, r') => (Err e, r')
       end.

Definition readSnapshotHeader : GoM reader SnapshotHeader :=
  buf <- go_map_err (read_full 26) (Wrapf "failed to read header" []) ;;
  let magic := Uint32 buf in
  if decide (magic ≠ snapshotMagic) then
    go_err (Errorf "invalid snapshot magic" [FInt snapshotMagic; FInt magic])
  else
    let version := Uint32 (drop 4 buf) in
    if decide (version > snapshotVersion) then
      go_err (Errorf "unsupported snapshot version" [FInt version; FInt snapshotVersion])
    else
      let lastIndex := Uint64 (drop 8 buf) in
      let timestamp := int64 (Uint64 (drop 16 buf)) in
      let nodeIdLen := Uint16 (drop 24 buf) in
      nodeIdBuf <- go_map_err (read_full nodeIdLen) (Wrapf "failed to read nodeId" []) ;;
      checksumBuf <- go_map_err (read_full 4) (Wrapf "failed to read header checksum" []) ;;
      go_ret (MkHeader magic version lastIndex timestamp (bytes_string nodeIdBuf)
                       (Uint32 checksumBuf)).

(** ** fsm/wb.go: the write batch *)

Section restore.
Context {P : Pebble} {G : Gzip}.

Record pebbleWriteBatch := MkWB { wb_wb : Batch; wb_db : path }.

Definition newPebbleWriteBatch (db : path) : GoM world pebbleWriteBatch :=
  b <- with_db db (λ d, (Ok (db_NewBatch d), d)) ;;
  go_ret (MkWB b db).

(** [Destroy] only closes the batch: what it holds is dropped with it. *)
Definition wb_Destroy (w : pebbleWriteBatch) : GoM world unit := go_ret tt.

Definition wb_Put (w : pebbleWriteBatch) (key val : bytes) : option error * pebbleWriteBatch :=
  let '(e, b) := batch_Set (wb_wb w) key val in (e, MkWB b (wb_db w)).

Definition wb_Delete (w : pebbleWriteBatch) (key : bytes) : option error * pebbleWriteBatch :=
  let '(e, b) := batch_Delete (wb_wb w) key in (e, MkWB b (wb_db w)).

(** The error of the commit is not looked at. *)
Definition wb_Commit (w : pebbleWriteBatch) : GoM world pebbleWriteBatch :=
  go_ignore (with_db (wb_db w) (λ d, let '(e, d') := batch_Commit d (wb_wb w) in (opt_err e, d'))) ;;
  newPebbleWriteBatch (wb_db w).

(** ** The restore loop *)

(** The largest slice [make] gives before it panics (64-bit platforms). *)
Definition maxAlloc : Z := 2 ^ 48.
Definition maxKey : Z := 2 ^ 30.

Record restoring := MkRestoring {
  rs_reader : reader;
  rs_count : Z;
  rs_hasher : Z;
  rs_k : Z;
  rs_wb : pebbleWriteBatch;
}.

(** [cleanupNewDB] *)
Definition cleanupNewDB (newdb : path) (dbdir : string) : GoM world unit :=
  pebble_Close newdb ;;
  go_ignore (os_RemoveAll dbdir).

(** [wb.Destroy(); cleanupNewDB(); return nil, err] *)
Definition restore_fail {A} (st : restoring) (newdb : path) (dbdir : string) (e : error) : GoM world A :=
  wb_Destroy (rs_wb st) ;;
  cleanupNewDB newdb dbdir ;;
  go_err e.

(** One turn of the loop: [inl st] goes on with [st], [inr st] breaks. *)
Definition restore_step (newdb : path) (dbdir : string) (st : restoring)
    : GoM world (restoring + restoring) :=
  let count := uint 64 (rs_count st + 1) in
  let fail := restore_fail (A := restoring + restoring) st newdb dbdir in
  let '(sz, err, rd) := ReadFull 8 (rs_reader st) in
  match err with
  | Some EOF => go_ret (inr (MkRestoring rd count (rs_hasher st) (rs_k st) (rs_wb st)))
  | Some ErrUnexpectedEOF =>
      if decide (len sz = 4) then
        let expected := Uint32 sz in
        let actual := rs_hasher st in
        if decide (expected ≠ actual) then
          fail (Errorf "snapshot checksum mismatch" [FInt expected; FInt actual])
        else
          go_ret (inr (MkRestoring rd (uint 64 (count - 1)) (rs_hasher st) (rs_k st) (rs_wb st)))
      else fail (Wrapf "unexpected partial read" [FInt (len sz)] ErrUnexpectedEOF)
  | Some e => fail e
  | None =>
      let keyLen := Uint64 sz in
      if decide (keyLen > maxKey) then
        fail (Errorf "invalid key length" [FInt keyLen])
      else
      let hash := crc32_update (rs_hasher st) sz in
      let '(kdata, err, rd) := ReadFull keyLen rd in
      match err with
      | Some EOF => go_ret (inr (MkRestoring rd count hash (rs_k st) (rs_wb st)))
      | Some e => fail e
      | None =>
        let hash := crc32_update hash kdata in
        let '(sz, err, rd) := ReadFull 8 rd in
        match err with
        | Some EOF => go_ret (inr (MkRestoring rd count hash (rs_k st) (rs_wb st)))
        | Some e => fail e
        | None =>
          let hash := crc32_update hash sz in
          let toRead := Uint64 sz in
          if decide (toRead > maxAlloc) then go_panic "makeslice: len out of range"
          else
          let '(vdata, err, rd) := ReadFull toRead rd in
          match err with
          | Some EOF => go_ret (inr (MkRestoring rd count hash (rs_k st) (rs_wb st)))
          | Some e => fail e
          | None =>
            let hash := crc32_update hash vdata in
            match gzipDecode vdata with
            | Ok val =>
                let '(_, wb) := wb_Put (rs_wb st) kdata val in
                let k := rs_k st + 1 in
                if decide (k >= 100) then
                  wb <- wb_Commit wb ;;
                  go_ret (inl (MkRestoring rd count hash 0 wb))
                else go_ret (inl (MkRestoring rd count hash k wb))
            | Err e => fail (Wrapf "failed to decompress snapshot data" [] e)
            | Panic m => go_panic m
            | NoFuel => go_lift NoFuel
            end
          end
        end
      end
  end.

Fixpoint restore_loop (fuel : nat) (newdb : path) (dbdir : string) (st : restoring)
    : GoM world restoring :=
  match fuel with
  | O => go_lift NoFuel
  | S fuel =>
      r <- restore_step newdb dbdir st ;;
      match r with
      | inl st' => restore_loop fuel newdb dbdir st'
      | inr st' => go_ret st'
      end
  end.

(** Every turn that goes on consumes at least the sixteen bytes of the two
    lengths, so the bytes left bound the number of turns. *)
Definition restore_fuel (r : reader) : nat := S (length (r_data r)).
End restore.

(** ** Lemmas: the bytes of a stream *)

Section stream.
Context `{GL : GzipLaws}.

Lemma gzip_round_trip v : ∃ g, gzipEncode v = Ok g ∧ gzipDecode g = Ok v.
Proof.
  destruct (gz_memory v) as (w1 & w2 & w3 & H1 & H2 & H3).
  destruct (gz_read_back v _ _ _ H1 H2 H3) as (r & H4 & H5).
  exists (gz_Bytes w3). unfold gzipEncode, gzipDecode.
  by rewrite H1, H2, H3, H4; simpl; rewrite H5.
Qed.

(** What [gzipEncode] gives for [v]. *)
Definition compressed (v : bytes) : bytes :=
  match gzipEncode v with Ok g => g | _ => [] end.

Lemma gzipEncode_compressed v : gzipEncode v = Ok (compressed v).
Proof. unfold compressed. by destruct (gzip_round_trip v) as (g & -> & _). Qed.

Lemma gzipDecode_compressed v : gzipDecode (compressed v) = Ok v.
Proof. unfold compressed. by destruct (gzip_round_trip v) as (g & -> & ->). Qed.

(** The framing of a key and a compressed value. *)
Definition raw_record (r : bytes * bytes) : bytes :=
  PutUint64 (len r.1) ++ r.1 ++ PutUint64 (len r.2) ++ r.2.
Definition raw_bytes (l : list (bytes * bytes)) : bytes := mjoin (raw_record <$> l).

Definition compress (kv : bytes * bytes) : bytes * bytes := (kv.1, compressed kv.2).
Definition record_bytes (kv : bytes * bytes) : bytes := raw_record (compress kv).
Definition data_bytes (l : list (bytes * bytes)) : bytes := raw_bytes (compress <$> l).

Definition stream_bytes (nodeId : string) (lastIndex unix : Z) (l : list (bytes * bytes)) : bytes :=
  headerBuf nodeId lastIndex unix ++ data_bytes l ++ PutUint32 (crc32 (data_bytes l)).

Lemma data_bytes_cons kv l : data_bytes (kv :: l) = record_bytes kv ++ data_bytes l.
Proof. done. Qed.

Lemma data_bytes_app l k : data_bytes (l ++ k) = data_bytes l ++ data_bytes k.
Proof. unfold data_bytes, raw_bytes. by rewrite !fmap_app, join_app. Qed.

Lemma len_PutUint64 v : len (PutUint64 v) = 8.
Proof. unfold len, PutUint64. by rewrite length_le_put. Qed.
Lemma len_PutUint32 v : len (PutUint32 v) = 4.
Proof. unfold len, PutUint32. by rewrite length_le_put. Qed.
Lemma len_PutUint16 v : len (PutUint16 v) = 2.
Proof. unfold len, PutUint16. by rewrite length_le_put. Qed.

(** ** Saving without sink faults *)

Lemma write_hashed_ok b t s :
  sk_faults s = [] →
  write_hashed b t s =
    (Ok (MkTotals (int64 (totalSize t + len b)) (count t) (crc32_update (hasher t) b)),
     MkSink (sk_data s ++ b) (sk_close_called s) (sk_cancel_called s) []).
Proof.
  intros Hf. unfold write_hashed, or_cancel, go_on_err, go_try, go_bind, sink_Write.
  by rewrite Hf.
Qed.

Lemma save_record_ok kv t s :
  sk_faults s = [] →
  save_record kv t s =
    (Ok (MkTotals (int64 (totalSize t + len (record_bytes kv))) (uint 64 (count t + 1))
                  (crc32_update (hasher t) (record_bytes kv))),
     MkSink (sk_data s ++ record_bytes kv) (sk_close_called s) (sk_cancel_called s) []).
Proof.
  intros Hf. destruct kv as [key val]. unfold save_record.
  erewrite go_bind_ok by by apply write_hashed_ok.
  erewrite go_bind_ok by by apply write_hashed_ok.
  erewrite go_bind_ok.
  2:{ unfold or_cancel, go_on_err, go_try, go_lift. rewrite gzipEncode_compressed. reflexivity. }
  erewrite go_bind_ok by by apply write_hashed_ok.
  rewrite write_hashed_ok by done. simpl.
  rewrite !crc32_update_app. unfold record_bytes, raw_record. cbn [fst snd compress].
  rewrite <- ?Z.add_assoc, ?int64_add_l, <- ?Z.add_assoc, ?int64_add_l, !len_app.
  by rewrite <-!(assoc_L (++)), <- ?Z.add_assoc.
Qed.

Lemma save_records_ok l t s :
  sk_faults s = [] → int64 (totalSize t) = totalSize t → uint 64 (count t) = count t →
  crc32_update (hasher t) [] = hasher t →
  save_records l t s =
    (Ok (MkTotals (int64 (totalSize t + len (data_bytes l))) (uint 64 (count t + len l))
                  (crc32_update (hasher t) (data_bytes l))),
     MkSink (sk_data s ++ data_bytes l) (sk_close_called s) (sk_cancel_called s) []).
Proof.
  revert t s. induction l as [|kv l IH]; intros t s Hf Ht Hc Hh.
  - change (data_bytes []) with (@nil byte). change (len []) with 0.
    rewrite !Z.add_0_r, app_nil_r, Ht, Hc, Hh. destruct t, s. simpl in Hf. by subst.
  - cbn [save_records]. erewrite go_bind_ok by by apply save_record_ok.
    rewrite IH; simpl; [|done|apply int64_idem|unfold uint; by rewrite Zmod_mod
                        |by rewrite crc32_update_app, app_nil_r].
    rewrite data_bytes_cons, crc32_update_app, int64_add_l, uint_add_l, len_app, len_cons.
    by rewrite <-(assoc_L (++)), !Z.add_assoc.
Qed.
End stream.

Section save_ok.
Context {P : Pebble} `{GL : GzipLaws}.

Lemma saveSnapShot_ok nodeId lastIndex snap l unix dur s :
  sk_faults s = [] → snap_NewIter snap = inl (l, None) →
  let full := stream_bytes nodeId lastIndex unix l in
  saveSnapShot nodeId lastIndex snap unix dur s =
    (Ok (MkResult (int64 (len full)) (uint 64 (len l)) (crc32 (data_bytes l)) dur),
     MkSink (sk_data s ++ full) true (sk_cancel_called s) []).
Proof.
  intros Hf Hit full. unfold saveSnapShot. rewrite Hit.
  erewrite go_bind_ok by reflexivity. cbv beta iota zeta.
  erewrite go_bind_ok.
  2:{ unfold or_cancel, go_on_err, go_try, sink_Write. rewrite Hf. reflexivity. }
  erewrite go_bind_ok.
  2:{ apply save_records_ok; [done|apply int64_idem|done|done]. }
  erewrite go_bind_ok by reflexivity.
  erewrite go_bind_ok by reflexivity.
  erewrite go_bind_ok by reflexivity. unfold go_ret. cbn [totalSize count hasher sk_data tail].
  subst full. unfold stream_bytes. rewrite !len_app, len_PutUint32.
  rewrite !int64_add_l, <- ?Z.add_assoc, ?int64_add_l, <-!(assoc_L (++)). done.
Qed.

(** ** The sink when calls fail *)

(** [m] never closes the sink, and cancels it whenever it fails. *)
Definition cancels {A} (m : GoM sink A) : Prop :=
  ∀ s, sk_close_called (m s).2 = sk_close_called s ∧
       match (m s).1 with
       | Ok _ => sk_cancel_called (m s).2 = sk_cancel_called s
       | _ => sk_cancel_called (m s).2 = true
       end.

Lemma cancels_ret {A} (a : A) : cancels (go_ret a).
Proof. done. Qed.

Lemma cancels_bind {A B} (m : GoM sink A) (f : A → GoM sink B) :
  cancels m → (∀ a, cancels (f a)) → cancels (go_bind m f).
Proof.
  intros Hm Hf s. destruct (Hm s) as [Hc Hx]. unfold go_bind.
  destruct (m s) as [[a|e|p|] s1]; simpl in *; try done.
  destruct (Hf a s1) as [Hc' Hx']. rewrite Hc', Hc. split; [done|].
  by destruct (f a s1) as [[] s2]; simpl in *; rewrite ?Hx', ?Hx.
Qed.

Lemma cancels_or_cancel_Write b : cancels (or_cancel (sink_Write b)).
Proof.
  intros s. unfold or_cancel, go_on_err, go_try, sink_Write.
  by destruct (sk_faults s) as [|[] ?].
Qed.

Lemma cancels_or_cancel_lift {A} (r : res A) :
  (∀ m, r ≠ Panic m) → r ≠ NoFuel → cancels (or_cancel (go_lift r)).
Proof. intros Hp Hf s. by destruct r; try (by destruct Hf); try (by edestruct Hp). Qed.

Lemma write_hashed_cancels b t : cancels (write_hashed b t).
Proof. apply cancels_bind; [apply cancels_or_cancel_Write|done]. Qed.

Lemma save_records_cancels l t : cancels (save_records l t).
Proof.
  revert t. induction l as [|[key val] l IH]; intros t; [done|]. simpl.
  apply cancels_bind; [|done]. unfold save_record.
  do 2 (apply cancels_bind; [apply write_hashed_cancels|intros ?]).
  apply cancels_bind; [rewrite gzipEncode_compressed; by apply cancels_or_cancel_lift|intros ?].
  apply cancels_bind; [apply write_hashed_cancels|intros ?]. apply write_hashed_cancels.
Qed.

(** [m], when it succeeds, has appended [b], and its result satisfies [Q]. *)
Definition yields {A} (m : GoM sink A) (b : bytes) (Q : A → Prop) : Prop :=
  ∀ s a s1, m s = (Ok a, s1) → sk_data s1 = sk_data s ++ b ∧ Q a.

Lemma yields_bind {A B} (m : GoM sink A) (f : A → GoM sink B) b1 b2 Q1 Q2 :
  yields m b1 Q1 → (∀ a, Q1 a → yields (f a) b2 Q2) → yields (go_bind m f) (b1 ++ b2) Q2.
Proof.
  intros Hm Hf s a s2 (a1 & s1 & H1 & H2)%go_bind_Ok_inv.
  apply Hm in H1 as [H1 HQ]. apply (Hf _ HQ) in H2 as [H2 HQ2].
  by rewrite H2, H1, (assoc_L (++)).
Qed.

Lemma or_cancel_Ok {A} (m : GoM sink A) s a s1 : or_cancel m s = (Ok a, s1) → m s = (Ok a, s1).
Proof.
  unfold or_cancel, go_on_err, go_try. destruct (m s) as [[] s0]; try done.
Qed.

Lemma yields_Write b : yields (or_cancel (sink_Write b)) b (λ _, True).
Proof.
  intros s a s1 H%or_cancel_Ok. unfold sink_Write in H.
  by destruct (sk_faults s) as [|[] ?]; simplify_eq.
Qed.

Lemma yields_lift {A} (r : res A) : yields (or_cancel (go_lift r)) [] (λ a, r = Ok a).
Proof.
  intros s a s1 H%or_cancel_Ok. unfold go_lift in H. simplify_eq. by rewrite app_nil_r.
Qed.

Lemma yields_hashed b t c :
  hasher t = c → yields (write_hashed b t) b (λ t', hasher t' = crc32_update c b).
Proof.
  intros <-. rewrite <-(app_nil_r b) at 2. eapply yields_bind; [apply yields_Write|].
  intros _ _ s a s1 [= <- <-]. by rewrite app_nil_r.
Qed.

Lemma yields_record kv t c :
  hasher t = c → yields (save_record kv t) (record_bytes kv)
                   (λ t', hasher t' = crc32_update c (record_bytes kv)).
Proof.
  intros <-. destruct kv as [key val]. unfold save_record, record_bytes, raw_record. cbn [fst snd compress].
  eapply yields_bind; [by apply yields_hashed|]. intros t1 H1.
  eapply yields_bind; [by apply yields_hashed|]. intros t2 H2.
  rewrite <-(app_nil_l (PutUint64 (len (compressed val)) ++ compressed val)).
  eapply yields_bind; [apply yields_lift|]. intros g Hg.
  rewrite gzipEncode_compressed in Hg. simplify_eq.
  eapply yields_bind; [by apply yields_hashed|]. intros t3 H3 s a s1 Ha.
  eapply yields_hashed in Ha as [? Ha]; [|done]. split; [done|].
  rewrite Ha, H3, H2, H1. simpl. by rewrite !crc32_update_app.
Qed.

Lemma yields_records l t c :
  hasher t = c → crc32_update c [] = c →
  yields (save_records l t) (data_bytes l) (λ t', hasher t' = crc32_update c (data_bytes l)).
Proof.
  revert t c. induction l as [|kv l IH]; intros t c <- Hc.
  { intros s a s1 [= <- <-]. by rewrite app_nil_r. }
  rewrite data_bytes_cons. cbn [save_records].
  eapply yields_bind; [by apply yields_record|]. intros t1 H1 s a s1 Ha.
  eapply IH in Ha as [? Ha]; [|done|by rewrite H1, crc32_update_app, app_nil_r].
  split; [done|]. by rewrite Ha, H1, Hc, crc32_update_app.
Qed.

(** Everything [saveSnapShot] does before it closes the sink. *)
Definition save_body (nodeId : string) (lastIndex unix : Z)
    (l : list (bytes * bytes)) (ie : option error) : GoM sink totals :=
  or_cancel (sink_Write (headerBuf nodeId lastIndex unix)) ;;
  t <- save_records l (MkTotals (int64 (len (headerBuf nodeId lastIndex unix))) 0 crc32_new) ;;
  or_cancel (match ie with
             | Some e => go_err (Wrapf "iterator error during snapshot" [] e)
             | None => go_ret tt
             end) ;;
  or_cancel (sink_Write (PutUint32 (hasher t))) ;;
  go_ret t.

Lemma save_body_eq nodeId lastIndex snap unix dur l ie s :
  snap_NewIter snap = inl (l, ie) →
  saveSnapShot nodeId lastIndex snap unix dur s =
    go_bind (save_body nodeId lastIndex unix l ie) (λ t, sink_Close ;;
      go_ret (MkResult (int64 (totalSize t + 4)) (count t) (hasher t) dur)) s.
Proof.
  intros Hit. unfold saveSnapShot, save_body, go_bind, go_lift. rewrite Hit. cbn [of_sum].
  destruct (or_cancel (sink_Write (headerBuf _ _ _)) s) as [[] s1]; [|done..].
  destruct (save_records l _ s1) as [[t|e|m|] s2]; [|done..].
  destruct (or_cancel _ s2) as [[] s3]; [|done..].
  by destruct (or_cancel _ s3) as [[] s4].
Qed.

Lemma save_body_cancels nodeId lastIndex unix l ie :
  cancels (save_body nodeId lastIndex unix l ie).
Proof.
  apply cancels_bind; [apply cancels_or_cancel_Write|intros _].
  apply cancels_bind; [apply save_records_cancels|intros t].
  apply cancels_bind; [by destruct ie|intros _].
  apply cancels_bind; [apply cancels_or_cancel_Write|done].
Qed.

Lemma save_body_Ok nodeId lastIndex unix l ie s t s1 :
  save_body nodeId lastIndex unix l ie s = (Ok t, s1) →
  ie = None ∧ sk_data s1 = sk_data s ++ stream_bytes nodeId lastIndex unix l.
Proof.
  intros H. unfold save_body in H. unfold stream_bytes.
  apply go_bind_Ok_inv in H as (? & s2 & H1%yields_Write & H).
  apply go_bind_Ok_inv in H as (t' & s3 & H2 & H).
  eapply yields_records in H2; [|reflexivity|reflexivity].
  apply go_bind_Ok_inv in H as (? & s4 & H3%or_cancel_Ok & H).
  apply go_bind_Ok_inv in H as (? & s5 & H4%yields_Write & H).
  destruct ie; [done|]. split; [done|]. unfold go_ret in *. simplify_eq.
  destruct H1 as [H1 _], H2 as [H2 Hh], H4 as [H4 _].
  rewrite H4, Hh, H2, H1, <-!(assoc_L (++)). done.
Qed.
End save_ok.

(** ** Lemmas: reading a stream back *)

Lemma drop_app_n {A} n (p q : list A) : length p = n → drop n (p ++ q) = q.
Proof. intros <-. apply drop_app_length. Qed.

Lemma read_full_app n p q e :
  len p = n → read_full n (MkReader (p ++ q) e) = (Ok p, MkReader q e).
Proof. intros H. unfold read_full. by rewrite ReadFull_app. Qed.

(** The bytes of a header. *)
Definition header_fixed (h : SnapshotHeader) : bytes :=
  PutUint32 (Magic h) ++ PutUint32 (Version h) ++ PutUint64 (LastIndex h) ++
  PutUint64 (uint 64 (Timestamp h)) ++ PutUint16 (len (string_bytes (NodeId h))).
Definition header_bytes (h : SnapshotHeader) : bytes :=
  header_fixed h ++ string_bytes (NodeId h) ++ PutUint32 (Checksum h).

(** The headers a reader of this version takes. *)
Definition header_ok (h : SnapshotHeader) : Prop :=
  Magic h = snapshotMagic ∧ 0 ≤ Version h ≤ snapshotVersion ∧ 0 ≤ LastIndex h < 2 ^ 64 ∧
  - 2 ^ 63 ≤ Timestamp h < 2 ^ 63 ∧ len (string_bytes (NodeId h)) < 2 ^ 16 ∧
  0 ≤ Checksum h < 2 ^ 32.

Lemma len_header_fixed h : len (header_fixed h) = 26.
Proof. unfold header_fixed. by rewrite !len_app, !len_PutUint32, !len_PutUint64, len_PutUint16. Qed.

Lemma header_fixed_fields h :
  header_ok h →
  Uint32 (header_fixed h) = snapshotMagic ∧ Uint32 (drop 4 (header_fixed h)) = Version h ∧
  Uint64 (drop 8 (header_fixed h)) = LastIndex h ∧
  Uint64 (drop 16 (header_fixed h)) = uint 64 (Timestamp h) ∧
  Uint16 (drop 24 (header_fixed h)) = len (string_bytes (NodeId h)).
Proof.
  intros (Hm & Hv & Hl & Ht & Hid & _). unfold snapshotVersion in Hv.
  pose proof (len_nonneg (string_bytes (NodeId h))). unfold header_fixed.
  split; [rewrite Uint32_Put; [done|rewrite Hm; done]|]. split.
  { rewrite drop_app_n by apply length_le_put. apply Uint32_Put. lia. }
  split.
  { rewrite (assoc_L (++)), drop_app_n
      by by rewrite length_app; unfold PutUint32; rewrite !length_le_put.
    by apply Uint64_Put. }
  split.
  { rewrite 2!(assoc_L (++)), drop_app_n
      by by rewrite !length_app; unfold PutUint32, PutUint64; rewrite !length_le_put.
    apply Uint64_Put, uint_range. lia. }
  rewrite 3!(assoc_L (++)), drop_app_n
    by by rewrite !length_app; unfold PutUint32, PutUint64; rewrite !length_le_put.
  rewrite <-(app_nil_r (PutUint16 _)). apply Uint16_Put. lia.
Qed.

Lemma readSnapshotHeader_bytes h rest e :
  header_ok h →
  readSnapshotHeader (MkReader (header_bytes h ++ rest) e) = (Ok h, MkReader rest e).
Proof.
  intros Hok. destruct (header_fixed_fields h Hok) as (E1 & E2 & E3 & E4 & E5).
  destruct Hok as (Hm & Hv & Hl & Ht & Hid & Hc).
  unfold readSnapshotHeader, header_bytes. rewrite <-!(assoc_L (++)).
  erewrite go_bind_ok.
  2:{ unfold go_map_err, go_try. rewrite read_full_app by apply len_header_fixed. reflexivity. }
  cbv zeta. rewrite E1, E2, E3, E4, E5, !decide_False by (lia || naive_solver).
  erewrite go_bind_ok.
  2:{ unfold go_map_err, go_try. rewrite read_full_app by done. reflexivity. }
  erewrite go_bind_ok.
  2:{ unfold go_map_err, go_try. rewrite read_full_app by apply len_PutUint32. reflexivity. }
  rewrite int64_uint, bytes_string_bytes by done.
  rewrite <-(app_nil_r (PutUint32 _)), Uint32_Put by done. rewrite <-Hm. by destruct h.
Qed.

Lemma headerBuf_bytes nodeId lastIndex unix :
  len (string_bytes nodeId) < 2 ^ 16 →
  headerBuf nodeId lastIndex unix =
    header_bytes (MkHeader snapshotMagic snapshotVersion lastIndex unix nodeId 0).
Proof.
  intros Hid. pose proof (len_nonneg (string_bytes nodeId)).
  unfold headerBuf, header_bytes, header_fixed. cbn [Magic Version LastIndex Timestamp NodeId Checksum].
  rewrite (uint_small 16) by lia. rewrite <- ?(assoc_L (++)). reflexivity.
Qed.

Lemma readSnapshotHeader_ok nodeId lastIndex unix rest e :
  len (string_bytes nodeId) < 2 ^ 16 → 0 ≤ lastIndex < 2 ^ 64 → - 2 ^ 63 ≤ unix < 2 ^ 63 →
  readSnapshotHeader (MkReader (headerBuf nodeId lastIndex unix ++ rest) e) =
    (Ok (MkHeader snapshotMagic snapshotVersion lastIndex unix nodeId 0), MkReader rest e).
Proof.
  intros. rewrite headerBuf_bytes by done. apply readSnapshotHeader_bytes.
  unfold header_ok, snapshotVersion. simpl. repeat split; (done || lia).
Qed.

Lemma read_full_Ok n f r b r' :
  0 ≤ n → go_map_err (read_full n) f r = (Ok b, r') →
  len b = n ∧ r_data r = b ++ r_data r' ∧ r_err r' = r_err r.
Proof.
  intros Hn. unfold go_map_err, go_try, read_full.
  destruct (ReadFull n r) as [[x [e|]] r1] eqn:E; [done|].
  intros [= <- <-]. by apply ReadFull_None.
Qed.

(** The five fields of 26 bytes are all of them. *)
Lemma header_fields_bytes buf :
  len buf = 26 →
  PutUint32 (Uint32 buf) ++ PutUint32 (Uint32 (drop 4 buf)) ++ PutUint64 (Uint64 (drop 8 buf)) ++
  PutUint64 (Uint64 (drop 16 buf)) ++ PutUint16 (Uint16 (drop 24 buf)) = buf.
Proof.
  unfold len. intros Hl.
  rewrite !Put_Uint32, !Put_Uint64, Put_Uint16 by (rewrite ?length_drop; lia).
  rewrite (take_ge (drop 24 buf) 2) by (rewrite length_drop; lia).
  assert (∀ i j n, n = (i + j)%nat → take j (drop i buf) ++ drop n buf = drop i buf) as Hcut.
  { intros i j n ->. rewrite <-drop_drop. apply take_drop. }
  rewrite (Hcut 16 8 24)%nat, (Hcut 8 8 16)%nat, (Hcut 4 4 8)%nat by done. by rewrite take_drop.
Qed.

Lemma readSnapshotHeader_Ok r h r' :
  readSnapshotHeader r = (Ok h, r') →
  header_ok h ∧ r_data r = header_bytes h ++ r_data r' ∧ r_err r' = r_err r.
Proof.
  unfold readSnapshotHeader.
  intros (buf & r1 & (L1 & D1 & E1)%read_full_Ok & H)%go_bind_Ok_inv; [|lia]. cbv zeta in H.
  case_decide as Hm; [done|]. case_decide as Hv; [done|].
  apply go_bind_Ok_inv in H as (ids & r2 & (L2 & D2 & E2)%read_full_Ok & H); [|apply Uint16_range].
  apply go_bind_Ok_inv in H as (cs & r3 & (L3 & D3 & E3)%read_full_Ok & H); [|lia].
  unfold go_ret in H. injection H as <- <-.
  pose proof (Uint16_range (drop 24 buf)). pose proof (Uint32_range (drop 4 buf)).
  pose proof (Uint64_range (drop 8 buf)). pose proof (Uint64_range (drop 16 buf)).
  split; [|split; [|by rewrite E3, E2]].
  - unfold header_ok. simpl. rewrite string_bytes_string.
    split; [by destruct (decide (Uint32 buf = snapshotMagic))|]. split; [lia|]. split; [done|].
    split; [apply int64_range|]. split; [lia|]. apply Uint32_range.
  - unfold header_bytes, header_fixed. cbn [Magic Version LastIndex Timestamp NodeId Checksum]. rewrite string_bytes_string, L2, uint_int64 by done.
    rewrite header_fields_bytes, Put_Uint32 by (unfold len in *; lia).
    rewrite take_ge by (unfold len in *; lia). by rewrite D1, D2, D3, <-!(assoc_L (++)).
Qed.

Section restore_ok.
Context {P : Pebble} `{GL : GzipLaws}.
Context (newdb : path) (dbdir : string).

(** A record that the restore can read: the lengths pass its checks. *)
Definition raw_ok (r : bytes * bytes) : Prop := len r.1 ≤ maxKey ∧ len r.2 ≤ maxAlloc.
Definition entry_ok (kv : bytes * bytes) : Prop := raw_ok (compress kv).

(** ** Termination *)

Lemma restore_fail_cases {A} st e w :
  (∃ w', restore_fail (A := A) st newdb dbdir e w = (Err e, w')) ∨
  (∃ m w', restore_fail (A := A) st newdb dbdir e w = (Panic m, w')).
Proof.
  unfold restore_fail, wb_Destroy, cleanupNewDB, go_bind, go_ret, go_ignore, go_try, pebble_Close.
  case_decide; [by right; eauto|]. left.
  unfold os_RemoveAll, sys. simpl. by destruct (w_orc w) as [|[] ?]; simpl; eauto.
Qed.

Lemma restore_fail_not_Ok {A} st e w (a : A) w' :
  restore_fail st newdb dbdir e w ≠ (Ok a, w').
Proof. by destruct (restore_fail_cases (A := A) st e w) as [(? & ->)|(? & ? & ->)]. Qed.

Lemma restore_fail_fuel {A} st e w :
  (restore_fail (A := A) st newdb dbdir e w).1 ≠ NoFuel.
Proof. by destruct (restore_fail_cases (A := A) st e w) as [(? & ->)|(? & ? & ->)]. Qed.

Lemma wb_Commit_fuel wb w : (wb_Commit wb w).1 ≠ NoFuel.
Proof.
  unfold wb_Commit, newPebbleWriteBatch, go_bind, go_ignore, go_try, go_ret, with_db, opt_err.
  repeat (case_match; simplify_eq/=; try done).
Qed.

Lemma gzipDecode_cases b : (∃ v, gzipDecode b = Ok v) ∨ (∃ e, gzipDecode b = Err e).
Proof.
  unfold gzipDecode. destruct (gz_NewReader b) as [r|e]; simpl; [|by eauto].
  destruct (gz_ReadAll r); simpl; eauto.
Qed.

(** What a turn that goes on has read. *)
Lemma restore_step_inl st w st' w' :
  restore_step newdb dbdir st w = (Ok (inl st'), w') →
  ∃ sz kdata sz2 vdata,
    r_data (rs_reader st) = sz ++ kdata ++ sz2 ++ vdata ++ r_data (rs_reader st') ∧
    len sz = 8 ∧ len sz2 = 8.
Proof.
  unfold restore_step. intros H.
  destruct (ReadFull 8 (rs_reader st)) as [[sz e1] rd1] eqn:E1.
  destruct e1 as [[]|]; try done;
    try (by apply restore_fail_not_Ok in H);
    [repeat case_decide; try done; by apply restore_fail_not_Ok in H|].
  case_decide; [by apply restore_fail_not_Ok in H|].
  destruct (ReadFull _ rd1) as [[kdata e2] rd2] eqn:E2.
  destruct e2 as [[]|]; try done; try (by apply restore_fail_not_Ok in H).
  destruct (ReadFull 8 rd2) as [[sz2 e3] rd3] eqn:E3.
  destruct e3 as [[]|]; try done; try (by apply restore_fail_not_Ok in H).
  case_decide; [done|].
  destruct (ReadFull _ rd3) as [[vdata e4] rd4] eqn:E4.
  destruct e4 as [[]|]; try done; try (by apply restore_fail_not_Ok in H).
  apply ReadFull_None in E1 as (L1 & R1 & _); [|lia].
  apply ReadFull_None in E2 as (L2 & R2 & _); [|apply Uint64_range].
  apply ReadFull_None in E3 as (L3 & R3 & _); [|lia].
  apply ReadFull_None in E4 as (L4 & R4 & _); [|apply Uint64_range].
  assert (rs_reader st' = rd4) as <-.
  { destruct (gzipDecode_cases vdata) as [[v Hv]|[e He]]; [rewrite Hv in H|].
    2:{ rewrite He in H. by apply restore_fail_not_Ok in H. }
    destruct (wb_Put _ _ _) as [o wb]. case_decide; [|by injection H as <-].
    apply go_bind_Ok_inv in H as (? & ? & _ & H). by injection H as <-. }
  exists sz, kdata, sz2, vdata. by rewrite R1, R2, R3, R4.
Qed.

Lemma restore_step_fuel st w : (restore_step newdb dbdir st w).1 ≠ NoFuel.
Proof.
  unfold restore_step.
  destruct (ReadFull 8 (rs_reader st)) as [[sz e1] rd1].
  destruct e1 as [[]|]; try done; try apply restore_fail_fuel;
    [repeat case_decide; try done; apply restore_fail_fuel|].
  case_decide; [apply restore_fail_fuel|].
  destruct (ReadFull _ rd1) as [[kdata [[]|]] rd2]; try done; try apply restore_fail_fuel.
  destruct (ReadFull 8 rd2) as [[sz2 [[]|]] rd3]; try done; try apply restore_fail_fuel.
  case_decide; [done|].
  destruct (ReadFull _ rd3) as [[vdata [[]|]] rd4]; try done; try apply restore_fail_fuel.
  destruct (gzipDecode_cases vdata) as [[v ->]|[e ->]]; [|apply restore_fail_fuel].
  destruct (wb_Put _ _ _) as [o wb]. case_decide; [|done].
  pose proof (wb_Commit_fuel wb w). unfold go_bind. by destruct (wb_Commit wb w) as [[] ?].
Qed.

Lemma restore_loop_fuel fuel st w :
  (length (r_data (rs_reader st)) < fuel)%nat →
  (restore_loop fuel newdb dbdir st w).1 ≠ NoFuel.
Proof.
  revert st w. induction fuel as [|fuel IH]; intros st w Hf; [lia|]. simpl.
  pose proof (restore_step_fuel st w) as Hs. unfold go_bind at 1.
  destruct (restore_step newdb dbdir st w) as [[[st'|st']|e|m|] w1] eqn:E; try done.
  apply restore_step_inl in E as (sz & kd & sz2 & vd & E & H8 & _).
  apply IH. rewrite E, !length_app in Hf. unfold len in H8. lia.
Qed.

(** ** Reading the records of a stream *)

(** One record: its value is decompressed and goes into the batch, and every
    hundredth record commits the batch. *)
Lemma restore_step_raw kg rest e st w :
  raw_ok kg → rs_reader st = MkReader (raw_record kg ++ rest) e →
  restore_step newdb dbdir st w =
    match gzipDecode kg.2 with
    | Ok v =>
       let '(_, wb) := wb_Put (rs_wb st) kg.1 v in
       let rd := MkReader rest e in
       let count := uint 64 (rs_count st + 1) in
       let hash := crc32_update (rs_hasher st) (raw_record kg) in
       if decide (rs_k st + 1 >= 100) then
         (wb <- wb_Commit wb ;; go_ret (inl (MkRestoring rd count hash 0 wb))) w
       else go_ret (inl (MkRestoring rd count hash (rs_k st + 1) wb)) w
    | Err e => restore_fail st newdb dbdir (Wrapf "failed to decompress snapshot data" [] e) w
    | Panic m => go_panic m w
    | NoFuel => go_lift NoFuel w
    end.
Proof.
  intros [Hk Hv] Hrd. destruct kg as [k g]. unfold raw_record in *. cbn [fst snd] in *.
  pose proof (len_nonneg k). pose proof (len_nonneg g).
  unfold maxKey, maxAlloc in *.
  unfold restore_step. rewrite Hrd, <-!(assoc_L (++)).
  rewrite ReadFull_app by apply len_PutUint64. cbv beta iota.
  rewrite <-(app_nil_r (PutUint64 (len k))), !Uint64_Put by lia. rewrite app_nil_r.
  rewrite decide_False by (unfold maxKey; lia).
  rewrite ReadFull_app by done. cbv beta iota.
  rewrite ReadFull_app by apply len_PutUint64. cbv beta iota.
  rewrite <-(app_nil_r (PutUint64 (len g))), !Uint64_Put by lia. rewrite app_nil_r.
  rewrite decide_False by (unfold maxAlloc; lia).
  rewrite ReadFull_app by done. cbv beta iota.
  destruct (gzipDecode g) as [v| | |]; [|done..].
  rewrite !crc32_update_app, <- ?(assoc_L (++)).
  destruct (wb_Put _ _ _) as [? wb]. by case_decide.
Qed.
End restore_ok.

(** ** Restoring on a reliable engine *)

Section restore_data.
Context `{PL : PebbleLaws, !PebbleReliable _, GL : GzipLaws}.
Context (newdb : path) (dbdir : string).

(** The new database and the batch together hold the map [m]; right after a
    commit the database alone does. *)
Definition loaded (st : restoring) (w : world) (m : gmap bytes bytes) : Prop :=
  (newdb ∉ w_closed w) ∧ wb_db (rs_wb st) = newdb ∧ 0 ≤ rs_k st ∧
  ∃ db, d_dbs (w_disk w) !! newdb = Some db ∧
        batch_map (wb_wb (rs_wb st)) (db_map db) = m ∧
        (rs_k st = 0 → db_map db = m).

Lemma newPebbleWriteBatch_ok w db :
  newdb ∉ w_closed w → d_dbs (w_disk w) !! newdb = Some db →
  ∃ b w', newPebbleWriteBatch newdb w = (Ok (MkWB b newdb), w') ∧ only_db newdb w w' ∧
          d_dbs (w_disk w') !! newdb = Some db ∧ ∀ m, batch_map b m = m.
Proof.
  intros Hc Hd. unfold newPebbleWriteBatch.
  destruct (with_db_ok newdb (λ d, (Ok (db_NewBatch d), d)) w db _ _ Hc Hd eq_refl)
    as (w' & Hr & Ho & Hd').
  exists (db_NewBatch db), w'. erewrite go_bind_ok by done.
  split; [done|]. split; [done|]. split; [done|]. apply db_NewBatch_map.
Qed.

(** A commit moves what the batch holds into the database and starts an
    empty batch. *)
Lemma wb_Commit_loaded b w db m :
  newdb ∉ w_closed w → d_dbs (w_disk w) !! newdb = Some db → batch_map b (db_map db) = m →
  ∃ b' w' db', wb_Commit (MkWB b newdb) w = (Ok (MkWB b' newdb), w') ∧ only_db newdb w w' ∧
               d_dbs (w_disk w') !! newdb = Some db' ∧ db_map db' = m ∧
               ∀ m', batch_map b' m' = m'.
Proof.
  intros Hc Hd Hm. unfold wb_Commit. simpl.
  destruct (batch_Commit_reliable db b) as (db' & Hb & Hm').
  destruct (with_db_ok newdb (λ d, let '(e, d') := batch_Commit d b in (opt_err e, d'))
              w db (Ok tt) db' Hc Hd) as (w1 & Hr & Ho & Hd1); [by rewrite Hb|].
  assert (newdb ∉ w_closed w1) as Hc1 by by destruct Ho as (_ & -> & _).
  destruct (newPebbleWriteBatch_ok w1 db' Hc1 Hd1) as (b' & w2 & Hn & Ho2 & Hd2 & Hb2).
  exists b', w2, db'. rewrite Hm', Hm. split; [|split; [by etrans|done]].
  erewrite go_bind_ok; [done|]. unfold go_ignore, go_try. by rewrite Hr.
Qed.

Lemma restore_fail_open {A} st e w :
  newdb ∉ w_closed w → ∃ w', restore_fail (A := A) st newdb dbdir e w = (Err e, w').
Proof.
  intros Hc. unfold restore_fail, wb_Destroy, cleanupNewDB, pebble_Close, go_bind, go_ret.
  rewrite decide_False by done. unfold go_ignore, go_try, os_RemoveAll, sys. simpl.
  by destruct (w_orc w) as [|[] ?]; simpl; eauto.
Qed.

Lemma restore_step_loaded kg v rest e st w m :
  raw_ok kg → gzipDecode kg.2 = Ok v →
  rs_reader st = MkReader (raw_record kg ++ rest) e → loaded st w m →
  ∃ st' w', restore_step newdb dbdir st w = (Ok (inl st'), w') ∧ only_db newdb w w' ∧
            loaded st' w' (<[kg.1 := v]> m) ∧ rs_reader st' = MkReader rest e ∧
            rs_hasher st' = crc32_update (rs_hasher st) (raw_record kg).
Proof.
  intros Hok Hg Hrd (Hc & Hw & Hk & db & Hd & Hm & _).
  rewrite (restore_step_raw _ _ kg rest e st w Hok Hrd), Hg.
  destruct st as [rd cnt hs k [b q]]. simpl in *. subst q.
  destruct (batch_Set_reliable b kg.1 v) as (b' & Hset & Hm').
  unfold wb_Put. simpl. rewrite Hset. case_decide as Hd100.
  - destruct (wb_Commit_loaded b' w db (<[kg.1:=v]> m) Hc Hd)
      as (b2 & w2 & db2 & Hr & Ho & Hd2 & Hm2 & Hb2); [by rewrite Hm', Hm|].
    erewrite go_bind_ok by done. eexists _, w2. split; [reflexivity|]. split; [done|].
    split; [|done]. unfold loaded. simpl. split; [by destruct Ho as (_ & -> & _)|].
    split; [done|]. split; [done|]. exists db2. by rewrite Hb2.
  - eexists _, w. split; [reflexivity|]. split; [done|]. split; [|done].
    unfold loaded. simpl. split; [done|]. split; [done|]. split; [lia|].
    exists db. rewrite Hm', Hm. split; [done|]. split; [done|]. lia.
Qed.

(** Inserting a list of entries in order. *)
Definition inserts (m : gmap bytes bytes) (l : list (bytes * bytes)) : gmap bytes bytes :=
  foldl (λ m kv, <[kv.1 := kv.2]> m) m l.

(** The loop over the records of a stream: it stops with an error at the
    first value that does not decompress, or gets to the rest of the stream
    with every record loaded and hashed. *)
Lemma restore_loop_raw l rest e fuel st w m :
  Forall raw_ok l → rs_reader st = MkReader (raw_bytes l ++ rest) e → loaded st w m →
  (∃ vs st' w',
     Forall2 (λ kg v, gzipDecode kg.2 = Ok v) l vs ∧
     restore_loop (length l + fuel) newdb dbdir st w = restore_loop fuel newdb dbdir st' w' ∧
     only_db newdb w w' ∧ loaded st' w' (inserts m (zip l.*1 vs)) ∧
     rs_reader st' = MkReader rest e ∧
     rs_hasher st' = crc32_update (rs_hasher st) (raw_bytes l)) ∨
  (∃ err w', Exists (λ kg, ∃ e, gzipDecode kg.2 = Err e) l ∧
             restore_loop (length l + fuel) newdb dbdir st w = (Err err, w')).
Proof.
  revert st w m. induction l as [|kg l IH]; intros st w m Hok Hrd Hl.
  { left. exists [], st, w. rewrite crc32_update_nil. split; [done|]. by split. }
  apply Forall_cons in Hok as [Hkg Hok].
  change (raw_bytes (kg :: l)) with (raw_record kg ++ raw_bytes l) in *.
  rewrite <-(assoc_L (++)) in Hrd.
  cbn [length Nat.add restore_loop].
  destruct (gzipDecode_cases kg.2) as [[v Hg]|[e' Hg]].
  2:{ right. destruct (restore_fail_open (A := restoring + restoring) st
        (Wrapf "failed to decompress snapshot data" [] e') w) as [w' Hf]; [apply Hl|].
      eexists _, w'. split; [by left; eauto|].
      apply go_bind_err. by rewrite (restore_step_raw _ _ kg _ e st w Hkg Hrd), Hg. }
  destruct (restore_step_loaded kg v _ e st w m Hkg Hg Hrd Hl) as (st1 & w1 & Hs & Ho & Hl1 & Hrd1 & Hh1).
  rewrite (go_bind_ok _ _ _ _ _ Hs).
  destruct (IH st1 w1 _ Hok Hrd1 Hl1) as
    [(vs & st2 & w2 & Hvs & Hs2 & Ho2 & Hl2 & Hrd2 & Hh2)|(err & w2 & Hex & Hs2)]; [left|right].
  - exists (v :: vs), st2, w2. split; [by constructor|]. split; [done|].
    split; [by etrans|]. split; [done|]. by rewrite Hh2, Hh1, crc32_update_app.
  - exists err, w2. split; [by right|done].
Qed.

(** The same over what [saveSnapShot] writes. *)
Lemma restore_loop_loaded l rest e fuel st w m :
  Forall entry_ok l → rs_reader st = MkReader (data_bytes l ++ rest) e → loaded st w m →
  ∃ st' w', restore_loop (length l + fuel) newdb dbdir st w = restore_loop fuel newdb dbdir st' w' ∧
            only_db newdb w w' ∧ loaded st' w' (inserts m l) ∧
            rs_reader st' = MkReader rest e ∧
            rs_hasher st' = crc32_update (rs_hasher st) (data_bytes l).
Proof.
  intros Hok Hrd Hl. rewrite <-(length_fmap compress l).
  destruct (restore_loop_raw (compress <$> l) rest e fuel st w m) as
    [(vs & st' & w' & Hvs & H)|(err & w' & Hex & _)]; [by apply Forall_fmap|done|done| |].
  - exists st', w'. enough (zip (compress <$> l).*1 vs = l) as Hz by by rewrite Hz in H.
    clear -Hvs GL. revert vs Hvs. induction l as [|[k v] l IH]; intros vs Hvs.
    { by apply Forall2_nil_inv_l in Hvs as ->. }
    apply Forall2_cons_inv_l in Hvs as (v' & vs' & Hv & Hvs & ->). simpl in Hv.
    rewrite gzipDecode_compressed in Hv. simplify_eq. simpl. f_equal. by apply IH.
  - exfalso. apply Exists_exists in Hex as (kg & Hin & e' & He).
    apply list_elem_of_fmap in Hin as ([k v] & -> & _). simpl in He.
    by rewrite gzipDecode_compressed in He.
Qed.

Lemma inserts_list_to_map l : NoDup l.*1 → inserts ∅ l = list_to_map l.
Proof.
  induction l as [|kv l IH] using rev_ind; intros Hnd; [done|].
  rewrite (list_to_map_proper (l ++ [kv]) (kv :: l)) by (done || apply Permutation_sym, Permutation_cons_append).
  unfold inserts in *. rewrite foldl_app. simpl.
  rewrite fmap_app in Hnd. apply NoDup_app in Hnd as [Hnd _]. by rewrite IH.
Qed.
End restore_data.

(** ** Theorems *)

Section snapshot_theorems.
Context `{PL : PebbleLaws, GL : GzipLaws}.

(** on a sink and an engine that do not fail, [saveSnapShot] writes the
    header, one framed record per entry of the snapshot (no key twice, all of
    them), and the CRC-32 of the records; it closes the sink, and its result
    reports the number of bytes and records written and that checksum. *)
Theorem saveSnapShot_writes_stream `{!PebbleReliable _} nodeId lastIndex snap unix dur s :
  sk_faults s = [] →
  ∃ l, NoDup l.*1 ∧ list_to_map l = snap_map snap ∧
    let full := stream_bytes nodeId lastIndex unix l in
    saveSnapShot nodeId lastIndex snap unix dur s =
      (Ok (MkResult (int64 (len full)) (uint 64 (len l)) (crc32 (data_bytes l)) dur),
       MkSink (sk_data s ++ full) true (sk_cancel_called s) []).
Proof.
  intros Hf. destruct (snap_NewIter_ok snap) as [l Hl].
  destruct (snap_NewIter_map _ _ Hl) as [Hnd Hm]. exists l.
  split; [done|]. split; [done|]. by apply saveSnapShot_ok.
Qed.

(** C32: Whatever the sink does, [saveSnapShot] calls at most one of [Close] and
    [Cancel] on it. When it succeeds it has written the whole stream and the
    [Close] after it has succeeded. When it fails, a write, the compressor or
    the iterator has failed and it has called [Cancel] and not [Close]; or, and
    then it has not called [Cancel], the iterator could not be made and nothing was
    called at all, or the whole stream was written and [Close] itself failed. *)
Theorem saveSnapShot_outcome nodeId lastIndex snap unix dur s r s' :
  sk_close_called s = false → sk_cancel_called s = false →
  saveSnapShot nodeId lastIndex snap unix dur s = (r, s') →
  let written := ∃ l, snap_NewIter snap = inl (l, None) ∧
                      sk_data s' = sk_data s ++ stream_bytes nodeId lastIndex unix l in
  match r with
  | Ok _ => sk_close_called s' = true ∧ sk_cancel_called s' = false ∧ written ∧
            ∃ s1, sink_Close s1 = (Ok tt, s')
  | _ =>
      (sk_close_called s' = false ∧ sk_cancel_called s' = true) ∨
      (s' = s ∧ ∃ e, snap_NewIter snap = inr e ∧ r = Err e) ∨
      (sk_close_called s' = true ∧ sk_cancel_called s' = false ∧ written ∧
       ∃ e s1, sink_Close s1 = (Err e, s') ∧ r = Err e)
  end.
Proof.
  intros Hcl Hca Hrun.
  destruct (snap_NewIter snap) as [[l ie]|e] eqn:Hit.
  2:{ unfold saveSnapShot in Hrun. rewrite Hit in Hrun. injection Hrun as <- <-. right; left. eauto. }
  erewrite save_body_eq in Hrun by done.
  destruct (save_body_cancels nodeId lastIndex unix l ie s) as [Hc1 Hx].
  unfold go_bind at 1 in Hrun.
  destruct (save_body nodeId lastIndex unix l ie s) as [[t|e|p|] s1] eqn:Eb; simpl in *;
    try (injection Hrun as <- <-; rewrite Hc1; by left).
  apply save_body_Ok in Eb as [-> Hd].
  unfold go_bind in Hrun. destruct (sink_Close s1) as [rc s2] eqn:Ec.
  assert (sk_close_called s2 = true ∧ sk_cancel_called s2 = false ∧ sk_data s2 = sk_data s1 ∧
          (rc = Ok tt ∨ ∃ e, rc = Err e)) as (H1 & H2 & H3 & Hrc).
  { unfold sink_Close in Ec. destruct (sk_faults s1) as [|[e|] f]; injection Ec as <- <-; simpl;
      rewrite Hx; eauto 10. }
  rewrite <-H3 in Hd. destruct Hrc as [->|[e ->]]; injection Hrun as <- <-; cbv beta zeta; [by eauto 10|].
  right; right. eauto 10.
Qed.

(** [readSnapshotHeader] accepts exactly the encodings of the headers with
    the right magic number and a version that is not newer; it consumes the
    bytes of the header and nothing more, and what it returns is the header
    that was encoded. *)
Theorem readSnapshotHeader_accepts r h r' :
  readSnapshotHeader r = (Ok h, r') ↔
  header_ok h ∧ r_data r = header_bytes h ++ r_data r' ∧ r_err r' = r_err r.
Proof.
  split; [apply readSnapshotHeader_Ok|]. intros (Hok & Hd & He).
  destruct r as [d e], r' as [d' e']. simpl in *. subst. by apply readSnapshotHeader_bytes.
Qed.

(** C31: the restore loop comes to an end on every input, whatever the stream
    holds and however the reader fails: the fuel of the model, one turn per
    byte left and one more, never runs out. *)
Theorem restore_loop_terminates newdb dbdir rd count hash k wb w :
  (restore_loop (restore_fuel rd) newdb dbdir (MkRestoring rd count hash k wb) w).1 ≠ NoFuel.
Proof. apply restore_loop_fuel. simpl. unfold restore_fuel. lia. Qed.
End snapshot_theorems.

Section commit_errors.
Context `{PL : PebbleLaws}.

(** when a commit of the restore fails, nobody is told. [Commit] of the
    write batch drops the error and goes on with a new, empty batch; what the
    failed batch held is not in it, so up to a hundred entries are lost. *)
Theorem failed_commit_is_dropped b h w db e db' :
  h ∉ w_closed w → d_dbs (w_disk w) !! h = Some db → batch_Commit db b = (Some e, db') →
  ∃ b' w', wb_Commit (MkWB b h) w = (Ok (MkWB b' h), w') ∧
           d_dbs (w_disk w') !! h = Some db' ∧ ∀ m, batch_map b' m = m.
Proof.
  intros Hc Hd He. unfold wb_Commit. simpl.
  destruct (with_db_ok h (λ d, let '(e, d') := batch_Commit d b in (opt_err e, d'))
              w db (Err e) db' Hc Hd) as (w1 & Hr & Ho & Hd1); [by rewrite He|].
  destruct (newPebbleWriteBatch_ok h w1 db') as (b' & w2 & Hn & Ho2 & Hd2 & Hb2);
    [by destruct Ho as (_ & -> & _)|done|].
  exists b', w2. split; [|done]. erewrite go_bind_ok; [done|]. unfold go_ignore, go_try. by rewrite Hr.
Qed.
End commit_errors.

(** ** Witnesses *)

Definition demo_entries_kv : list (bytes * bytes) :=
  [(string_bytes "a", string_bytes "1"); (string_bytes "b", string_bytes "22")].
Definition demo_snap : Snapshot (Pebble := Mem no_fault) := list_to_map demo_entries_kv.

Lemma saveSnapShot_writes_stream_witness :
  let s := MkSink [] false false [] in
  ∃ l, list_to_map l = snap_map demo_snap ∧
       (saveSnapShot (P := Mem no_fault) (G := Stored) "node1" 7 demo_snap 1700000000 5 s).2 =
       MkSink (stream_bytes (G := Stored) "node1" 7 1700000000 l) true false [].
Proof.
  intros s.
  destruct (saveSnapShot_writes_stream (PL := mem_laws no_fault) (GL := stored_laws)
              "node1" 7 demo_snap 1700000000 5 s) as (l & _ & Hm & Hr); [reflexivity|].
  refine (ex_intro _ l (conj Hm _)). by rewrite Hr.
Defined.

(** The third write of the run fails. *)
Lemma saveSnapShot_outcome_witness :
  let s := MkSink [] false false [None; None; Some (Errno 28)] in
  let run := saveSnapShot (P := Mem no_fault) (G := Stored) "node1" 7 demo_snap 1700000000 5 s in
  run.1 = Err (Errno 28) ∧ sk_cancel_called run.2 = true.
Proof.
  intros s run. assert (run.1 = Err (Errno 28)) as Hr by (vm_compute; reflexivity).
  split; [exact Hr|].
  pose proof (saveSnapShot_outcome (GL := stored_laws) (P := Mem no_fault)
    "node1" 7 demo_snap 1700000000 5 s run.1 run.2 eq_refl eq_refl (surjective_pairing _)) as H.
  rewrite Hr in H. destruct H as [[_ H]|[[H _]|(H & _)]]; [exact H|..];
    (apply (f_equal sk_data) in H || idtac); exfalso; vm_compute in H; discriminate H.
Defined.
