(* ===== verification/Json.v ===== *)
(** * Json.v: encoding/json and encoding/base64 as the commands use them.

    The commands of the replicated log are two JSON objects, one inside the
    other: [Command{type, payload}] and [SetPayload{key, val}], whose byte
    slices are base64 strings. [Marshal] is modelled for these two types;
    [Unmarshal] for any input: the whole text is checked first (a syntax error
    changes nothing), then the fields are stored one by one, and the first
    mismatch is remembered while the decoding goes on. *)
From S2P Require Import Prelude.

(** ** base64.StdEncoding *)

Definition b64_char (v : Z) : byte :=
  byte_of_Z (if decide (v < 26) then v + 65
             else if decide (v < 52) then v + 71
             else if decide (v < 62) then v - 4
             else if decide (v = 62) then 43 else 47).

Definition b64_val (c : byte) : option Z :=
  let x := byte_val c in
  if decide (65 ≤ x ≤ 90) then Some (x - 65)
  else if decide (97 ≤ x ≤ 122) then Some (x - 71)
  else if decide (48 ≤ x ≤ 57) then Some (x + 4)
  else if decide (x = 43) then Some 62
  else if decide (x = 47) then Some 63
  else None.

Definition b64_pad : byte := byte_of_Z 61.

Fixpoint b64_encode (l : bytes) : bytes :=
  match l with
  | [] => []
  | [a] =>
      let x := byte_val a in
      [b64_char (x / 4); b64_char (x mod 4 * 16); b64_pad; b64_pad]
  | [a; b] =>
      let x := byte_val a in let y := byte_val b in
      [b64_char (x / 4); b64_char (x mod 4 * 16 + y / 16); b64_char (y mod 16 * 4); b64_pad]
  | a :: b :: c :: l =>
      let x := byte_val a in let y := byte_val b in let z := byte_val c in
      b64_char (x / 4) :: b64_char (x mod 4 * 16 + y / 16) ::
      b64_char (y mod 16 * 4 + z / 64) :: b64_char (z mod 64) :: b64_encode l
  end.

(** The quanta of four characters, once the line breaks are gone; the bits of a
    padded quantum that do not reach a byte are not looked at. *)
Fixpoint b64_quanta (l : bytes) : option bytes :=
  match l with
  | [] => Some []
  | a :: b :: c :: d :: rest =>
      match b64_val a, b64_val b with
      | Some x, Some y =>
          if decide (d = b64_pad) then
            match rest with
            | [] =>
                if decide (c = b64_pad) then Some [byte_of_Z (x * 4 + y / 16)]
                else match b64_val c with
                     | Some z => Some [byte_of_Z (x * 4 + y / 16); byte_of_Z (y * 16 + z / 4)]
                     | None => None
                     end
            | _ => None
            end
          else
            match b64_val c, b64_val d, b64_quanta rest with
            | Some z, Some u, Some r =>
                Some (byte_of_Z (x * 4 + y / 16) :: byte_of_Z (y * 16 + z / 4) ::
                      byte_of_Z (z * 64 + u) :: r)
            | _, _, _ => None
            end
      | _, _ => None
      end
  | _ => None
  end.

Definition b64_decode (l : bytes) : option bytes :=
  b64_quanta (filter (λ c, byte_val c ≠ 10 ∧ byte_val c ≠ 13) l).

(** ** JSON values *)

Inductive json :=
| JNull
| JBool (b : bool)
| JNum (literal : bytes)
| JStr (s : bytes)
| JArr (l : list json)
| JObj (l : list (bytes * json)).

Definition is_space (b : byte) : bool :=
  let x := byte_val b in
  bool_decide (x = 32) || bool_decide (x = 9) || bool_decide (x = 10) || bool_decide (x = 13).

Fixpoint skip_ws (l : bytes) : bytes :=
  match l with
  | b :: r => if is_space b then skip_ws r else l
  | [] => []
  end.

(** ** Strings *)

Definition hex_val (b : byte) : option Z :=
  let x := byte_val b in
  if decide (48 ≤ x ≤ 57) then Some (x - 48)
  else if decide (97 ≤ x ≤ 102) then Some (x - 87)
  else if decide (65 ≤ x ≤ 70) then Some (x - 55)
  else None.

Definition hex4 (a b c d : byte) : option Z :=
  match hex_val a, hex_val b, hex_val c, hex_val d with
  | Some x, Some y, Some z, Some u => Some (((x * 16 + y) * 16 + z) * 16 + u)
  | _, _, _, _ => None
  end.

(** [utf8.EncodeRune] *)
Definition utf8_encode (r : Z) : bytes :=
  if decide (r < 0x80) then [byte_of_Z r]
  else if decide (r < 0x800) then [byte_of_Z (0xC0 + r / 64); byte_of_Z (0x80 + r mod 64)]
  else if decide (r < 0x10000) then
    [byte_of_Z (0xE0 + r / 4096); byte_of_Z (0x80 + r / 64 mod 64); byte_of_Z (0x80 + r mod 64)]
  else
    [byte_of_Z (0xF0 + r / 262144); byte_of_Z (0x80 + r / 4096 mod 64);
     byte_of_Z (0x80 + r / 64 mod 64); byte_of_Z (0x80 + r mod 64)].

Definition replacement : bytes := utf8_encode 0xFFFD.

Definition cont (b : byte) : Prop := 0x80 ≤ byte_val b ≤ 0xBF.
#[global] Instance cont_dec b : Decision (cont b) := _.

(** The encodings that [utf8.DecodeRune] takes, by their first two bytes. *)
Definition utf8_two (a b : byte) : Prop := 0xC2 ≤ byte_val a ≤ 0xDF ∧ cont b.
Definition utf8_three (a b : byte) : Prop :=
  let x := byte_val a in
  (x = 0xE0 ∧ 0xA0 ≤ byte_val b ≤ 0xBF) ∨
  ((0xE1 ≤ x ≤ 0xEC ∨ 0xEE ≤ x ≤ 0xEF) ∧ cont b) ∨
  (x = 0xED ∧ 0x80 ≤ byte_val b ≤ 0x9F).
Definition utf8_four (a b : byte) : Prop :=
  let x := byte_val a in
  (x = 0xF0 ∧ 0x90 ≤ byte_val b ≤ 0xBF) ∨ (0xF1 ≤ x ≤ 0xF3 ∧ cont b) ∨
  (x = 0xF4 ∧ 0x80 ≤ byte_val b ≤ 0x8F).
#[global] Instance utf8_two_dec a b : Decision (utf8_two a b) := _.
#[global] Instance utf8_three_dec a b : Decision (utf8_three a b) := _.
#[global] Instance utf8_four_dec a b : Decision (utf8_four a b) := _.

Definition is_high (r : Z) : Prop := 0xD800 ≤ r < 0xDC00.
Definition is_low (r : Z) : Prop := 0xDC00 ≤ r < 0xE000.
#[global] Instance is_high_dec r : Decision (is_high r) := _.
#[global] Instance is_low_dec r : Decision (is_low r) := _.

(** What [\c] stands for. *)
Definition escape (c : byte) : option byte :=
  let x := byte_val c in
  if decide (x = 34 ∨ x = 92 ∨ x = 47) then Some c
  else if decide (x = 98) then Some (byte_of_Z 8)
  else if decide (x = 102) then Some (byte_of_Z 12)
  else if decide (x = 110) then Some (byte_of_Z 10)
  else if decide (x = 114) then Some (byte_of_Z 13)
  else if decide (x = 116) then Some (byte_of_Z 9)
  else None.

Definition prepend (p : bytes) (o : option (bytes * bytes)) : option (bytes * bytes) :=
  match o with Some (s, r) => Some (p ++ s, r) | None => None end.

(** The characters of a string up to its closing quote, unquoted: a lone
    surrogate and a byte that is no UTF-8 become the replacement character. *)
Fixpoint parse_str (l : bytes) : option (bytes * bytes) :=
  match l with
  | [] => None
  | c :: l1 =>
    let x := byte_val c in
    if decide (x = 34) then Some ([], l1)
    else if decide (x < 32) then None
    else if decide (x = 92) then
      match l1 with
      | u :: l2 =>
        if decide (byte_val u = 117) then
          match l2 with
          | a1 :: a2 :: a3 :: a4 :: l3 =>
            match hex4 a1 a2 a3 a4 with
            | None => None
            | Some r =>
              if decide (is_high r ∨ is_low r) then
                match l3 with
                | s :: v :: b1 :: b2 :: b3 :: b4 :: l4 =>
                  match hex4 b1 b2 b3 b4 with
                  | Some r' =>
                    if decide (byte_val s = 92 ∧ byte_val v = 117 ∧ is_high r ∧ is_low r') then
                      prepend (utf8_encode ((r - 0xD800) * 1024 + (r' - 0xDC00) + 0x10000)) (parse_str l4)
                    else prepend replacement (parse_str l3)
                  | None => prepend replacement (parse_str l3)
                  end
                | _ => prepend replacement (parse_str l3)
                end
              else prepend (utf8_encode r) (parse_str l3)
            end
          | _ => None
          end
        else match escape u with
             | Some e => prepend [e] (parse_str l2)
             | None => None
             end
      | [] => None
      end
    else if decide (x < 0x80) then prepend [c] (parse_str l1)
    else
      match l1 with
      | b1 :: l2 =>
        if decide (utf8_two c b1) then prepend [c; b1] (parse_str l2)
        else match l2 with
        | b2 :: l3 =>
          if decide (utf8_three c b1 ∧ cont b2) then prepend [c; b1; b2] (parse_str l3)
          else match l3 with
          | b3 :: l4 =>
            if decide (utf8_four c b1 ∧ cont b2 ∧ cont b3) then prepend [c; b1; b2; b3] (parse_str l4)
            else prepend replacement (parse_str l1)
          | [] => prepend replacement (parse_str l1)
          end
        | [] => prepend replacement (parse_str l1)
        end
      | [] => prepend replacement (parse_str l1)
      end
  end.

(** ** Numbers *)

Definition is_digit (b : byte) : bool := bool_decide (48 ≤ byte_val b ≤ 57).

(** The longest run of digits. *)
Fixpoint digits (l : bytes) : bytes * bytes :=
  match l with
  | b :: r => if is_digit b then let '(d, r') := digits r in (b :: d, r') else ([], l)
  | [] => ([], [])
  end.

(** [(0 | [1-9][0-9]* )], then an optional fraction and exponent. *)
Definition parse_int_part (l : bytes) : option (bytes * bytes) :=
  match digits l with
  | ([], _) => None
  | (b :: d, r) =>
      if decide (byte_val b = 48) then Some ([b], d ++ r) else Some (b :: d, r)
  end.

Definition parse_frac (l : bytes) : option (bytes * bytes) :=
  match l with
  | b :: r =>
      if decide (byte_val b = 46) then
        match digits r with
        | ([], _) => None
        | (d, r') => Some (b :: d, r')
        end
      else Some ([], l)
  | [] => Some ([], [])
  end.

Definition parse_exp (l : bytes) : option (bytes * bytes) :=
  match l with
  | b :: r =>
      if decide (byte_val b = 101 ∨ byte_val b = 69) then
        let '(sg, r1) := match r with
                         | s :: r' => if decide (byte_val s = 43 ∨ byte_val s = 45) then ([s], r') else ([], r)
                         | [] => ([], [])
                         end in
        match digits r1 with
        | ([], _) => None
        | (d, r') => Some (b :: sg ++ d, r')
        end
      else Some ([], l)
  | [] => Some ([], [])
  end.

Definition parse_num (l : bytes) : option (bytes * bytes) :=
  let '(sg, l1) := match l with
                   | b :: r => if decide (byte_val b = 45) then ([b], r) else ([], l)
                   | [] => ([], [])
                   end in
  match parse_int_part l1 with
  | None => None
  | Some (i, l2) =>
      match parse_frac l2 with
      | None => None
      | Some (f, l3) =>
          match parse_exp l3 with
          | None => None
          | Some (e, l4) => Some (sg ++ i ++ f ++ e, l4)
          end
      end
  end.

(** ** Values *)

Definition maxNestingDepth : Z := 10000.

(** [strip p l]: [l] without the prefix [p]. *)
Fixpoint strip (p l : bytes) : option bytes :=
  match p, l with
  | [], _ => Some l
  | a :: p, b :: l => if decide (a = b) then strip p l else None
  | _, [] => None
  end.

Definition char_is (x : Z) (b : byte) : bool := bool_decide (byte_val b = x).

(** [value] after white space; [members] and [elements] after the opening
    bracket or a comma, [depth] brackets deep. Every call but the first follows
    at least one character, so the length of the text bounds the recursion. *)
Fixpoint value (fuel : nat) (depth : Z) (l : bytes) : option (json * bytes) :=
  match fuel with
  | O => None
  | S fuel =>
    match skip_ws l with
    | [] => None
    | c :: r =>
      if char_is 123 c then
        if decide (depth >= maxNestingDepth) then None
        else match skip_ws r with
             | c' :: r' =>
                 if char_is 125 c' then Some (JObj [], r')
                 else match members fuel (depth + 1) (c' :: r') with
                      | Some (ms, r2) => Some (JObj ms, r2)
                      | None => None
                      end
             | [] => None
             end
      else if char_is 91 c then
        if decide (depth >= maxNestingDepth) then None
        else match skip_ws r with
             | c' :: r' =>
                 if char_is 93 c' then Some (JArr [], r')
                 else match elements fuel (depth + 1) (c' :: r') with
                      | Some (es, r2) => Some (JArr es, r2)
                      | None => None
                      end
             | [] => None
             end
      else if char_is 34 c then
        match parse_str r with Some (s, r') => Some (JStr s, r') | None => None end
      else if char_is 116 c then
        match strip (string_bytes "rue") r with Some r' => Some (JBool true, r') | None => None end
      else if char_is 102 c then
        match strip (string_bytes "alse") r with Some r' => Some (JBool false, r') | None => None end
      else if char_is 110 c then
        match strip (string_bytes "ull") r with Some r' => Some (JNull, r') | None => None end
      else
        match parse_num (c :: r) with Some (n, r') => Some (JNum n, r') | None => None end
    end
  end
with members (fuel : nat) (depth : Z) (l : bytes) : option (list (bytes * json) * bytes) :=
  match fuel with
  | O => None
  | S fuel =>
    match skip_ws l with
    | q :: r =>
      if negb (char_is 34 q) then None
      else match parse_str r with
      | None => None
      | Some (k, r1) =>
        match skip_ws r1 with
        | c :: r2 =>
          if negb (char_is 58 c) then None
          else match value fuel depth r2 with
          | None => None
          | Some (v, r3) =>
            match skip_ws r3 with
            | e :: r4 =>
                if char_is 125 e then Some ([(k, v)], r4)
                else if char_is 44 e then
                  match members fuel depth r4 with
                  | Some (ms, r5) => Some ((k, v) :: ms, r5)
                  | None => None
                  end
                else None
            | [] => None
            end
          end
        | [] => None
        end
      end
    | [] => None
    end
  end
with elements (fuel : nat) (depth : Z) (l : bytes) : option (list json * bytes) :=
  match fuel with
  | O => None
  | S fuel =>
    match value fuel depth l with
    | None => None
    | Some (v, r1) =>
      match skip_ws r1 with
      | e :: r2 =>
          if char_is 93 e then Some ([v], r2)
          else if char_is 44 e then
            match elements fuel depth r2 with
            | Some (es, r3) => Some (v :: es, r3)
            | None => None
            end
          else None
      | [] => None
      end
    end
  end.

(** [checkValid] and the value it describes: one value, then white space only. *)
Definition parse (l : bytes) : option json :=
  match value (S (2 * length l)) 0 l with
  | Some (v, r) => match skip_ws r with [] => Some v | _ => None end
  | None => None
  end.

(** ** Storing into fields

    The error of [Unmarshal] is the first one met; a field with a mismatch
    keeps what it had, and the decoding goes on. *)
Definition syntaxError : error := Errorf "json: syntax error" [].
Definition typeError : error := Errorf "json: cannot unmarshal" [].
Definition base64Error : error := Errorf "illegal base64 data" [].

Definition first_err (a b : option error) : option error :=
  match a with Some e => Some e | None => b end.

(** [strconv.ParseInt(lit, 10, 64)] and [ParseUint] of a JSON number. *)
Definition digits_val (d : bytes) : Z := foldl (λ acc b, acc * 10 + (byte_val b - 48)) 0 d.

Definition parse_int64 (lit : bytes) : option Z :=
  let '(neg, d) := match lit with
                   | b :: r => if char_is 45 b then (true, r) else (false, lit)
                   | [] => (false, [])
                   end in
  if decide (d ≠ [] ∧ forallb is_digit d) then
    let v := if neg : bool then - digits_val d else digits_val d in
    if decide (- 2 ^ 63 ≤ v < 2 ^ 63) then Some v else None
  else None.

Definition parse_uint8 (lit : bytes) : option byte :=
  if decide (lit ≠ [] ∧ forallb is_digit lit) then
    if decide (digits_val lit < 256) then Some (byte_of_Z (digits_val lit)) else None
  else None.

(** Into a field of an integer type. *)
Definition store_int (old : Z) (v : json) : Z * option error :=
  match v with
  | JNull => (old, None)
  | JNum lit => match parse_int64 lit with
                | Some z => (z, None)
                | None => (old, Some typeError)
                end
  | _ => (old, Some typeError)
  end.

(** The elements of an array into a byte slice that had [old]: an element that
    does not fit keeps what was there (zero beyond the old length). *)
Fixpoint store_elems (old : bytes) (l : list json) : bytes * option error :=
  match l with
  | [] => ([], None)
  | v :: l =>
      let o := default (byte_of_Z 0) (head old) in
      let '(b, e) := match v with
                     | JNull => (o, None)
                     | JNum lit => match parse_uint8 lit with
                                   | Some b => (b, None)
                                   | None => (o, Some typeError)
                                   end
                     | _ => (o, Some typeError)
                     end in
      let '(bs, e') := store_elems (tail old) l in
      (b :: bs, first_err e e')
  end.

(** Into a field of type [[]byte]. *)
Definition store_bytes (old : bytes) (v : json) : bytes * option error :=
  match v with
  | JNull => ([], None)
  | JStr s => match b64_decode s with
              | Some b => (b, None)
              | None => (old, Some base64Error)
              end
  | JArr l => store_elems old l
  | _ => (old, Some typeError)
  end.

(** Names match up to the case of ASCII letters; the Kelvin sign folds to k. *)
Fixpoint fold_name (s : bytes) : bytes :=
  match s with
  | a :: r =>
      let x := byte_val a in
      if decide (97 ≤ x ≤ 122) then byte_of_Z (x - 32) :: fold_name r
      else match r with
           | b :: c :: r' =>
               if decide (x = 0xE2 ∧ byte_val b = 0x84 ∧ byte_val c = 0xAA)
               then byte_of_Z 75 :: fold_name r' else a :: fold_name r
           | _ => a :: fold_name r
           end
  | [] => []
  end.

Definition names (field : string) (key : bytes) : bool :=
  bool_decide (fold_name key = fold_name (string_bytes field)).

(** ** The two types *)

Record Command := MkCommand { Type_ : Z; Payload : bytes }.
Record SetPayload := MkSetPayload { Key : bytes; Value : bytes }.

Fixpoint store_command (c : Command) (l : list (bytes * json)) : Command * option error :=
  match l with
  | [] => (c, None)
  | (k, v) :: l =>
      let '(c', e) :=
        if names "type" k then
          let '(t, e) := store_int (Type_ c) v in (MkCommand t (Payload c), e)
        else if names "payload" k then
          let '(p, e) := store_bytes (Payload c) v in (MkCommand (Type_ c) p, e)
        else (c, None) in
      let '(r, e') := store_command c' l in (r, first_err e e')
  end.

Fixpoint store_payload (p : SetPayload) (l : list (bytes * json)) : SetPayload * option error :=
  match l with
  | [] => (p, None)
  | (k, v) :: l =>
      let '(p', e) :=
        if names "key" k then
          let '(x, e) := store_bytes (Key p) v in (MkSetPayload x (Value p), e)
        else if names "val" k then
          let '(x, e) := store_bytes (Value p) v in (MkSetPayload (Key p) x, e)
        else (p, None) in
      let '(r, e') := store_payload p' l in (r, first_err e e')
  end.

(** [json.Unmarshal(data, &v)] of a struct whose members are stored by [f]. *)
Definition unmarshal {A} (zero : A) (f : A → list (bytes * json) → A * option error)
    (data : bytes) : res A :=
  match parse data with
  | None => Err syntaxError
  | Some JNull => Ok zero
  | Some (JObj l) => let '(a, e) := f zero l in
                     match e with Some e => Err e | None => Ok a end
  | Some _ => Err typeError
  end.

Definition Unmarshal_Command : bytes → res Command := unmarshal (MkCommand 0 []) store_command.
Definition Unmarshal_SetPayload : bytes → res SetPayload := unmarshal (MkSetPayload [] []) store_payload.

(** [json.Marshal]: the fields in order; base64 needs no escaping. *)
Definition quote : byte := Corelib.Init.Byte.x22.
Definition lbrace : byte := Corelib.Init.Byte.x7b.
Definition rbrace : byte := Corelib.Init.Byte.x7d.
Definition colon : byte := Corelib.Init.Byte.x3a.
Definition comma : byte := Corelib.Init.Byte.x2c.

(** ["s"], followed by [rest]. *)
Definition quoted (s : bytes) (rest : bytes) : bytes := quote :: s ++ quote :: rest.

Definition Marshal_SetPayload (p : SetPayload) : bytes :=
  lbrace :: quoted (string_bytes "key") (colon :: quoted (b64_encode (Key p))
    (comma :: quoted (string_bytes "val") (colon :: quoted (b64_encode (Value p)) [rbrace]))).

Definition Marshal_Command (c : Command) : bytes :=
  lbrace :: quoted (string_bytes "type") (colon :: string_bytes (pretty (Type_ c)) ++
    (comma :: quoted (string_bytes "payload") (colon :: quoted (b64_encode (Payload c)) [rbrace]))).

Example Marshal_example :
  bytes_string (Marshal_Command (MkCommand 1 (Marshal_SetPayload
    (MkSetPayload (string_bytes "k") (string_bytes "hello"))))) =
  bytes_string (lbrace :: quoted (string_bytes "type") (colon :: string_bytes "1" ++
    comma :: quoted (string_bytes "payload") (colon ::
    quoted (string_bytes "eyJrZXkiOiJhdz09IiwidmFsIjoiYUdWc2JHOD0ifQ==") [rbrace]))).
Proof. by vm_compute. Qed.

(** ** Lemmas *)

Lemma b64_char_val v : 0 ≤ v < 64 → b64_val (b64_char v) = Some v.
Proof.
  intros Hv. unfold b64_val, b64_char. rewrite byte_val_of_Z.
  repeat case_decide; rewrite Z.mod_small in * by lia; try lia; f_equal; lia.
Qed.

Lemma b64_char_range v : 0 ≤ v < 64 → 43 ≤ byte_val (b64_char v) ≤ 122 ∧
  byte_val (b64_char v) ≠ 61 ∧ byte_val (b64_char v) ≠ 92.
Proof.
  intros Hv. unfold b64_char. rewrite byte_val_of_Z. repeat case_decide; rewrite Z.mod_small by lia; lia.
Qed.

(** Three bytes at a time. *)
Lemma bytes_ind3 (Q : bytes → Prop) :
  Q [] → (∀ a, Q [a]) → (∀ a b, Q [a; b]) → (∀ a b c l, Q l → Q (a :: b :: c :: l)) → ∀ l, Q l.
Proof.
  intros H0 H1 H2 H3 l. enough (Q l ∧ (∀ a, Q (a :: l)) ∧ (∀ a b, Q (a :: b :: l))) as [H _] by done.
  induction l as [|x l (IH1 & IH2 & IH3)]; [by auto|]. split; [apply IH2|].
  split; [intros a; apply IH3|]. intros a b. by apply H3.
Qed.

(** A character that the encoder writes. *)
Definition b64_ok (b : byte) : Prop := 43 ≤ byte_val b ≤ 122 ∧ byte_val b ≠ 92.

Lemma b64_char_ok v : 0 ≤ v < 64 → b64_ok (b64_char v).
Proof. intros Hv. destruct (b64_char_range v Hv) as (? & _ & ?). by split. Qed.

Ltac b64_bounds a :=
  let x := fresh "x" in
  pose proof (byte_val_range a); set (x := byte_val a) in *;
  pose proof (Z.div_mod x 4 ltac:(lia)); pose proof (Z.mod_pos_bound x 4 ltac:(lia));
  pose proof (Z.div_mod x 16 ltac:(lia)); pose proof (Z.mod_pos_bound x 16 ltac:(lia));
  pose proof (Z.div_mod x 64 ltac:(lia)); pose proof (Z.mod_pos_bound x 64 ltac:(lia)).

Lemma b64_encode_ok l : Forall b64_ok (b64_encode l).
Proof.
  assert (b64_ok b64_pad) as Hp by by split.
  induction l as [|a|a b|a b c l IH] using bytes_ind3; [constructor|..]; simpl b64_encode; cbv zeta;
    b64_bounds a; try b64_bounds b; try b64_bounds c;
    repeat (apply Forall_cons; split); try done; apply b64_char_ok; lia.
Qed.

(** Decoding undoes encoding. *)
Lemma b64_decode_encode l : b64_decode (b64_encode l) = Some l.
Proof.
  unfold b64_decode. rewrite filter_all.
  2:{ eapply Forall_impl; [apply b64_encode_ok|]. intros b [? ?]. lia. }
  assert (∀ v, 0 ≤ v < 64 → b64_char v ≠ b64_pad) as Hpad.
  { intros v Hv Heq. destruct (b64_char_range v Hv) as (_ & Hn & _). by rewrite Heq in Hn. }
  assert (∀ z a, z mod 256 = byte_val a → byte_of_Z z = a) as Hb.
  { intros z a Hz. apply (inj byte_val). by rewrite byte_val_of_Z. }
  induction l as [|a|a b|a b c l IH] using bytes_ind3; [done|..]; simpl b64_encode; cbv zeta;
    cbn [b64_quanta]; b64_bounds a; try b64_bounds b; try b64_bounds c;
    rewrite !b64_char_val by lia.
  - rewrite !decide_True by done. do 2 f_equal. apply Hb. fold x.
    rewrite Z.div_mul, Z.mod_small by lia. lia.
  - rewrite decide_True, decide_False by (done || apply Hpad; lia).
    f_equal. f_equal; [|f_equal]; apply Hb; fold x x0.
    + rewrite Z.div_add_l, (Z.div_small (x0 / 16)) by lia. rewrite Z.mod_small by lia. lia.
    + rewrite (Z.div_mul (x0 mod 16)) by lia.
      replace ((x mod 4 * 16 + x0 / 16) * 16 + x0 mod 16) with (x0 + x mod 4 * 256) by lia.
      rewrite Z.mod_add by lia. by apply Z.mod_small.
  - rewrite decide_False by (apply Hpad; lia). rewrite IH, ?b64_char_val by lia.
    f_equal. f_equal; [|f_equal; [|f_equal]]; apply Hb; fold x x0 x1.
    + rewrite Z.div_add_l, (Z.div_small (x0 / 16)) by lia. rewrite Z.mod_small by lia. lia.
    + rewrite (Z.div_add_l (x0 mod 16)), (Z.div_small (x1 / 64)) by lia.
      replace ((x mod 4 * 16 + x0 / 16) * 16 + (x0 mod 16 + 0)) with (x0 + x mod 4 * 256) by lia.
      rewrite Z.mod_add by lia. by apply Z.mod_small.
    + replace ((x0 mod 16 * 4 + x1 / 64) * 64 + x1 mod 64) with (x1 + x0 mod 16 * 256) by lia.
      rewrite Z.mod_add by lia. by apply Z.mod_small.
Qed.

(** ** Reading what [Marshal] writes *)

(** A character that stands for itself in a string. *)
Definition plain (b : byte) : Prop :=
  32 ≤ byte_val b < 0x80 ∧ byte_val b ≠ 34 ∧ byte_val b ≠ 92.

Lemma plain_b64 l : Forall plain (b64_encode l).
Proof. eapply Forall_impl; [apply b64_encode_ok|]. intros b [? ?]. split; lia. Qed.

Lemma parse_str_plain s rest : Forall plain s → parse_str (s ++ quote :: rest) = Some (s, rest).
Proof.
  induction 1 as [|b s (Hb & Hq & Hs) _ IH]; [done|]. cbn [app parse_str]. cbv zeta.
  rewrite decide_False by done. rewrite decide_False by lia. rewrite decide_False by done.
  rewrite decide_True by lia. by rewrite IH.
Qed.

Lemma value_quoted f d s rest :
  Forall plain s → value (S f) d (quoted s rest) = Some (JStr s, rest).
Proof.
  intros Hs. unfold quoted. cbn [value skip_ws]. change (is_space quote) with false. cbv iota.
  change (char_is 123 quote) with false. change (char_is 91 quote) with false.
  change (char_is 34 quote) with true. cbv iota. by rewrite parse_str_plain.
Qed.

Lemma members_quoted f d k l :
  Forall plain k →
  members (S f) d (quoted k (colon :: l)) =
    match value f d l with
    | None => None
    | Some (v, r3) =>
        match skip_ws r3 with
        | e :: r4 =>
            if char_is 125 e then Some ([(k, v)], r4)
            else if char_is 44 e then
              match members f d r4 with
              | Some (ms, r5) => Some ((k, v) :: ms, r5)
              | None => None
              end
            else None
        | [] => None
        end
    end.
Proof.
  intros Hk. unfold quoted. cbn [members skip_ws]. change (is_space quote) with false. cbv iota.
  change (negb (char_is 34 quote)) with false. cbv iota. rewrite parse_str_plain by done.
  cbn [skip_ws]. change (is_space colon) with false. cbv iota.
  by change (negb (char_is 58 colon)) with false.
Qed.

Lemma value_object f k l :
  value (S f) 0 (lbrace :: quoted k l) =
    match members f 1 (quoted k l) with
    | Some (ms, r2) => Some (JObj ms, r2)
    | None => None
    end.
Proof. reflexivity. Qed.

(** An object of two members, of which the first value is read by [H1]. *)
Lemma parse_object2 k1 k2 t1 v1 s2 :
  Forall plain k1 → Forall plain k2 → Forall plain s2 →
  (∀ f r, value (S f) 1 (t1 ++ comma :: r) = Some (v1, comma :: r)) →
  parse (lbrace :: quoted k1 (colon :: t1 ++ comma :: quoted k2 (colon :: quoted s2 [rbrace]))) =
    Some (JObj [(k1, v1); (k2, JStr s2)]).
Proof.
  intros H1 H2 Hs Hv. unfold parse.
  assert (∀ n, (4 ≤ n)%nat → ∃ f, S (2 * n) = S (S (S (S f)))) as Hf.
  { intros n Hn. exists (2 * n - 3)%nat. lia. }
  destruct (Hf (length (lbrace :: quoted k1 (colon :: t1 ++ comma :: quoted k2 (colon :: quoted s2 [rbrace])))))
    as [f ->].
  { unfold quoted. simpl. rewrite !length_app. simpl. lia. }
  rewrite value_object, members_quoted, Hv by done. cbn [skip_ws].
  change (is_space comma) with false. change (char_is 125 comma) with false.
  change (char_is 44 comma) with true. cbv iota.
  rewrite members_quoted, value_quoted by done. cbn. done.
Qed.

Lemma plain_string s :
  forallb (λ b, bool_decide (plain b)) (string_bytes s) = true → Forall plain (string_bytes s).
Proof.
  intros H. apply Forall_forall. intros b Hb. rewrite forallb_forall in H.
  apply list_elem_of_In in Hb. by apply H, bool_decide_eq_true in Hb.
Qed.

(** What [Marshal] writes, [Unmarshal] reads back. *)
Lemma Unmarshal_Marshal_SetPayload p : Unmarshal_SetPayload (Marshal_SetPayload p) = Ok p.
Proof.
  unfold Unmarshal_SetPayload, unmarshal, Marshal_SetPayload.
  assert (Forall plain (string_bytes "key")) as Hk by by apply plain_string; vm_compute.
  assert (Forall plain (string_bytes "val")) as Hv by by apply plain_string; vm_compute.
  pose proof (plain_b64 (Key p)) as Hb. pose proof (plain_b64 (Value p)) as Hb'.
  set (body := quoted (b64_encode (Key p)) _).
  assert (body = (quote :: b64_encode (Key p) ++ [quote]) ++
    comma :: quoted (string_bytes "val") (colon :: quoted (b64_encode (Value p)) [rbrace])) as ->.
  { unfold body, quoted. simpl. by rewrite <-(assoc_L (++)). }
  rewrite (parse_object2 _ _ _ (JStr (b64_encode (Key p)))); [|done..|].
  2:{ intros f r. simpl app. rewrite <-(assoc_L (++)). by apply value_quoted. }
  unfold store_payload.
  change (names "key" (string_bytes "key")) with true.
  change (names "key" (string_bytes "val")) with false.
  change (names "val" (string_bytes "val")) with true.
  cbv iota. cbn [store_bytes]. rewrite !b64_decode_encode. by destruct p.
Qed.

Lemma Unmarshal_Marshal_Command c :
  Type_ c = 0 ∨ Type_ c = 1 → Unmarshal_Command (Marshal_Command c) = Ok c.
Proof.
  intros Ht. unfold Unmarshal_Command, unmarshal, Marshal_Command.
  assert (Forall plain (string_bytes "type")) as Hk by by apply plain_string; vm_compute.
  assert (Forall plain (string_bytes "payload")) as Hv by by apply plain_string; vm_compute.
  pose proof (plain_b64 (Payload c)) as Hb.
  rewrite (parse_object2 _ _ _ (JNum (string_bytes (pretty (Type_ c))))); [|done..|].
  2:{ intros f r. by destruct Ht as [-> | ->]. }
  unfold store_command.
  change (names "type" (string_bytes "type")) with true.
  change (names "type" (string_bytes "payload")) with false.
  change (names "payload" (string_bytes "payload")) with true.
  cbv iota. cbn [store_int store_bytes]. rewrite b64_decode_encode.
  destruct c as [t p]. simpl in *. by destruct Ht as [-> | ->].
Qed.

Example Unmarshal_examples :
  let go s := Unmarshal_SetPayload (lbrace :: quoted (string_bytes "KEY") (colon :: string_bytes s)) in
  go "[65, 66], }" = Err syntaxError ∧
  go "[65, 66] }" = Ok (MkSetPayload (string_bytes "AB") []) ∧
  go "null}" = Ok (MkSetPayload [] []) ∧
  go "true}" = Err typeError ∧
  Unmarshal_Command (string_bytes "null") = Ok (MkCommand 0 []) ∧
  Unmarshal_Command (string_bytes "[]") = Err typeError ∧
  Unmarshal_Command [] = Err syntaxError.
Proof. by vm_compute. Qed.

(** ** The fuel of the parser is enough

    What a parser leaves over is no longer than what it was given, and every
    recursive call of [value], [members] and [elements] is on a shorter text or
    goes from [elements] to [value]. *)

Definition leaves {A} (l : bytes) (o : option (A * bytes)) : Prop :=
  match o with Some (_, r) => (length r ≤ length l)%nat | None => True end.

Lemma skip_ws_length l : (length (skip_ws l) ≤ length l)%nat.
Proof. induction l as [|b l IH]; simpl; [done|]. destruct (is_space b); simpl; lia. Qed.

Lemma skip_ws_cons l c r : skip_ws l = c :: r → (length r < length l)%nat.
Proof. intros H. pose proof (skip_ws_length l). rewrite H in *. simpl in *. lia. Qed.

Lemma leaves_prepend p l l' o : leaves l o → (length l ≤ length l')%nat → leaves l' (prepend p o).
Proof. destruct o as [[s r]|]; simpl; [lia|done]. Qed.

Lemma parse_str_leaves l : leaves l (parse_str l).
Proof.
  induction l as [l IH] using (induction_ltof1 _ length). unfold ltof in IH.
  destruct l as [|c l1]; [done|]. cbn [parse_str].
  repeat first
    [ apply leaves_prepend with (l := l1); [apply IH; simpl; lia|simpl; lia]
    | match goal with
      | |- leaves _ (prepend _ (parse_str ?k)) => apply leaves_prepend with (l := k); [apply IH; simpl; lia|simpl; lia]
      | |- leaves _ None => exact I
      | |- leaves _ (Some _) => simpl; lia
      | |- leaves _ (if ?d then _ else _) => destruct d
      | |- leaves _ (match ?x with _ => _ end) => is_var x; destruct x
      | |- leaves _ (match ?x with _ => _ end) => destruct x
      end ].
Qed.

Lemma digits_leaves l : (length (digits l).2 ≤ length l)%nat.
Proof.
  induction l as [|b l IH]; simpl; [done|]. destruct (is_digit b); [|done].
  destruct (digits l) as [d r]. simpl in *. lia.
Qed.

Lemma digits_length l : (length (digits l).1 + length (digits l).2 = length l)%nat.
Proof.
  induction l as [|b l IH]; simpl; [done|]. destruct (is_digit b); [|done].
  destruct (digits l) as [d r]. simpl in *. lia.
Qed.

Lemma parse_int_part_leaves l : leaves l (parse_int_part l).
Proof.
  unfold parse_int_part. pose proof (digits_length l). destruct (digits l) as [[|b d] r]; [done|].
  simpl in *. case_decide; simpl; rewrite ?length_app; lia.
Qed.

Lemma parse_frac_leaves l : leaves l (parse_frac l).
Proof.
  unfold parse_frac. destruct l as [|b r]; [simpl; lia|]. case_decide; [|simpl; lia].
  pose proof (digits_leaves r). destruct (digits r) as [[|x d] r']; simpl in *; [done|lia].
Qed.

Lemma parse_exp_leaves l : leaves l (parse_exp l).
Proof.
  unfold parse_exp. destruct l as [|b r]; [simpl; lia|]. case_decide; [|simpl; lia].
  set (p := match r with [] => _ | _ => _ end).
  assert (length p.2 ≤ length r)%nat as Hp.
  { subst p. destruct r as [|s r']; [done|]. case_decide; simpl; lia. }
  destruct p as [sg r1]. simpl in *.
  pose proof (digits_leaves r1). destruct (digits r1) as [[|x d] r']; simpl in *; [done|lia].
Qed.

Lemma parse_num_leaves l : leaves l (parse_num l).
Proof.
  unfold parse_num.
  set (p := match l with [] => _ | _ => _ end).
  assert (length p.2 ≤ length l)%nat as Hp.
  { subst p. destruct l as [|s r']; [done|]. case_decide; simpl; lia. }
  destruct p as [sg l1]. simpl in *.
  pose proof (parse_int_part_leaves l1). destruct (parse_int_part l1) as [[i l2]|]; [|done].
  pose proof (parse_frac_leaves l2). destruct (parse_frac l2) as [[f l3]|]; [|done].
  pose proof (parse_exp_leaves l3). destruct (parse_exp l3) as [[e l4]|]; [|done].
  simpl in *. lia.
Qed.

Lemma strip_leaves p l r : strip p l = Some r → (length r ≤ length l)%nat.
Proof.
  revert l. induction p as [|a p IH]; intros [|b l]; simpl; try (by intros [= <-]); try done.
  case_decide; [|done]. intros Hr. specialize (IH _ Hr). lia.
Qed.

(** One step of each of the three, given what the calls below them leave. *)
Definition all_leave (fuel : nat) : Prop :=
  ∀ depth l, leaves l (value fuel depth l) ∧ leaves l (members fuel depth l) ∧ leaves l (elements fuel depth l).

Lemma value_leaves fuel : all_leave fuel.
Proof.
  induction fuel as [|fuel IH]; intros depth l; [done|]. split_and!.
  - cbn [value]. destruct (skip_ws l) as [|c r] eqn:E; [done|]. apply skip_ws_cons in E.
    destruct (char_is 123 c); [|destruct (char_is 91 c)].
    1,2: destruct (decide _); [done|]; destruct (skip_ws r) as [|c' r'] eqn:E'; [done|]; apply skip_ws_cons in E';
      destruct (char_is _ c'); [simpl; lia|]; destruct (IH (depth + 1) (c' :: r')) as (_ & Hm & He).
    + destruct (members fuel _ _) as [[ms r2]|]; simpl in *; [lia|done].
    + destruct (elements fuel _ _) as [[ms r2]|]; simpl in *; [lia|done].
    + pose proof (parse_str_leaves r). pose proof (parse_num_leaves (c :: r)).
      repeat match goal with
      | |- leaves _ (if ?d then _ else _) => destruct d
      | |- leaves _ (match strip ?p ?k with _ => _ end) => destruct (strip p k) eqn:Es; [apply strip_leaves in Es|]
      | |- leaves _ (match ?x with _ => _ end) => destruct x as [[? ?]|]
      end; simpl in *; try done; lia.
  - cbn [members]. destruct (skip_ws l) as [|q r] eqn:E; [done|]. apply skip_ws_cons in E.
    destruct (negb _); [done|]. pose proof (parse_str_leaves r). destruct (parse_str r) as [[k r1]|]; [|done].
    destruct (skip_ws r1) as [|c r2] eqn:E1; [done|]. apply skip_ws_cons in E1. destruct (negb _); [done|].
    destruct (IH depth r2) as (Hv & _ & _). destruct (value fuel depth r2) as [[v r3]|]; [|done].
    destruct (skip_ws r3) as [|e r4] eqn:E3; [done|]. apply skip_ws_cons in E3. simpl in *.
    destruct (char_is 125 e); [simpl; lia|]. destruct (char_is 44 e); [|done].
    destruct (IH depth r4) as (_ & Hm & _). destruct (members fuel depth r4) as [[ms r5]|]; simpl in *; [lia|done].
  - cbn [elements]. destruct (IH depth l) as (Hv & _ & _). destruct (value fuel depth l) as [[v r1]|]; [|done].
    destruct (skip_ws r1) as [|e r2] eqn:E1; [done|]. apply skip_ws_cons in E1. simpl in *.
    destruct (char_is 93 e); [simpl; lia|]. destruct (char_is 44 e); [|done].
    destruct (IH depth r2) as (_ & _ & He). destruct (elements fuel depth r2) as [[ms r5]|]; simpl in *; [lia|done].
Qed.

Lemma more_fuel fuel fuel' :
  (fuel ≤ fuel')%nat →
  (∀ depth l, (2 * length l < fuel)%nat → value fuel depth l = value fuel' depth l) ∧
  (∀ depth l, (2 * length l < fuel)%nat → members fuel depth l = members fuel' depth l) ∧
  (∀ depth l, (2 * length l + 1 < fuel)%nat → elements fuel depth l = elements fuel' depth l).
Proof.
  revert fuel'. induction fuel as [|fuel IH]; intros [|fuel'] Hle; [split_and!; intros; lia..|].
  destruct (IH fuel' ltac:(lia)) as (IHv & IHm & IHe). clear IH. split_and!; intros depth l Hf.
  - cbn [value]. destruct (skip_ws l) as [|c r] eqn:E; [done|]. apply skip_ws_cons in E.
    destruct (char_is 123 c); [|destruct (char_is 91 c); [|done]]; (destruct (decide _); [done|]);
      (destruct (skip_ws r) as [|c' r'] eqn:E'; [done|]); apply skip_ws_cons in E'.
    + rewrite <-(IHm (depth + 1) (c' :: r')) by (simpl; lia). done.
    + rewrite <-(IHe (depth + 1) (c' :: r')) by (simpl; lia). done.
  - cbn [members]. destruct (skip_ws l) as [|q r] eqn:E; [done|]. apply skip_ws_cons in E.
    destruct (negb _); [done|]. pose proof (parse_str_leaves r) as Hs. destruct (parse_str r) as [[k r1]|]; [|done].
    destruct (skip_ws r1) as [|c r2] eqn:E1; [done|]. apply skip_ws_cons in E1. destruct (negb _); [done|].
    simpl in Hs. rewrite <-(IHv depth r2) by lia.
    destruct (value_leaves fuel depth r2) as (Hv & _ & _). destruct (value fuel depth r2) as [[v r3]|]; [|done].
    destruct (skip_ws r3) as [|e r4] eqn:E3; [done|]. apply skip_ws_cons in E3. simpl in Hv.
    by rewrite <-(IHm depth r4) by lia.
  - cbn [elements]. rewrite <-(IHv depth l) by lia.
    destruct (value_leaves fuel depth l) as (Hv & _ & _). destruct (value fuel depth l) as [[v r1]|]; [|done].
    destruct (skip_ws r1) as [|e r2] eqn:E1; [done|]. apply skip_ws_cons in E1. simpl in Hv.
    by rewrite <-(IHe depth r2) by lia.
Qed.

(** [parse] never fails for want of fuel: the parser gives the same answer with
    any larger amount, so a syntax error of [Unmarshal] is a property of the text. *)
Theorem parse_fuel_enough l fuel :
  (2 * length l < fuel)%nat →
  parse l = match value fuel 0 l with
            | Some (v, r) => match skip_ws r with [] => Some v | _ => None end
            | None => None
            end.
Proof.
  intros Hf. unfold parse. destruct (more_fuel (S (2 * length l)) fuel Hf) as (-> & _); [done|lia].
Qed.
