(* ===== verification/Store.v ===== *)
(** * Store.v: fsm/store.go and fsm/apply.go's storage half.

    The [store] of a node: the handle of its current database, swapped by a
    restore, and the closed flag. [recoverSnapShot] is split where the code
    has finished reading the stream: [recover_load] fills a new database,
    [recover_switch] makes it the current one. *)
From S2P Require Import Prelude Binary Paths Pebble FileSystem DataDir Snapshot.

(** [pebbleCfMap] and its only key. *)
Definition cf_default : string := "default".
Definition pebbleCfMap : gmap string byte := {[ cf_default := byte_of_Z 1 ]}.

(** The fields of [store]; the database handle is the directory it was opened
    in. *)
Record store := MkStore {
  baseDir : string;
  st_db : path;
  st_closed : bool;
}.

Section store.
Context {P : Pebble} {G : Gzip}.

(** The store and the world it lives in. *)
Record sworld := MkSW { sw_store : store; sw_world : world }.

Definition on_world {A} (m : GoM world A) : GoM sworld A :=
  λ s, let '(r, w) := m (sw_world s) in (r, MkSW (sw_store s) w).
Definition the_store : GoM sworld store := λ s, (Ok (sw_store s), s).
Definition set_store (st : store) : GoM sworld unit :=
  λ s, (Ok tt, MkSW st (sw_world s)).

Definition newStore (dir : string) : GoM world store :=
  os_MkdirAll dir ;;
  dbdir <- getPebbleDBDir dir ;;
  db <- OpenPebbleDB dbdir ;;
  go_ret (MkStore dir db false).

(** A key that is not in the map gives the zero byte. *)
Definition getColumnFamily (cf : string) : byte :=
  default (byte_of_Z 0) (pebbleCfMap !! cf).

Definition isclosed : GoM sworld bool :=
  s <- the_store ;; go_ret (st_closed s).

(** A missing key reads as the empty value. *)
Definition getBytes (key : bytes) : GoM sworld bytes :=
  s <- the_store ;;
  if st_closed s then go_err ErrClosed
  else on_world (with_db (st_db s) (λ d,
         match db_Get d key with
         | inr ErrNotFound => (Ok [], d)
         | inr e => (Err e, d)
         | inl val => (Ok val, d)
         end)).

Definition buildColumnFamilyKey (cf : byte) (key : bytes) : bytes := [cf] ++ key.

Definition batch : GoM sworld Batch :=
  s <- the_store ;; on_world (with_db (st_db s) (λ d, (Ok (db_NewBatch d), d))).

(** [b.Commit(pebble.Sync)] goes to the database the batch was made from. *)
Definition write (h : path) (b : Batch) : GoM sworld unit :=
  on_world (with_db h (λ d, let '(e, d') := batch_Commit d b in (opt_err e, d'))).

Definition getSnapshot : GoM sworld Snapshot :=
  s <- the_store ;; on_world (with_db (st_db s) (λ d, (Ok (db_NewSnapshot d), d))).

Definition close : GoM sworld unit :=
  s <- the_store ;;
  set_store (MkStore (baseDir s) (st_db s) true) ;;
  on_world (go_ignore (pebble_Flush (st_db s)) ;; pebble_Close (st_db s)).

(** ** recoverSnapShot *)

(** From [newPebbleWriteBatch] to [newdb.Flush()]: the loop that fills the new
    database. *)
Definition load_records (newdb : path) (dbdir : string) (rd : reader) : GoM world unit :=
  wb <- newPebbleWriteBatch newdb ;;
  st <- restore_loop (restore_fuel rd) newdb dbdir (MkRestoring rd 0 crc32_new 0 wb) ;;
  wb <- (if decide (rs_k st > 0) then wb_Commit (rs_wb st) else go_ret (rs_wb st)) ;;
  wb_Destroy wb ;;
  go_ignore (pebble_Flush newdb).

(** The first half: the header, the directory names and the new database. *)
Definition recover_load (base : string) (rd : reader)
    : GoM world (SnapshotHeader * string * string * path) :=
  let '(hr, rd) := readSnapshotHeader rd in
  header <- go_map_err (go_lift hr) (Wrapf "failed to read snapshot header" []) ;;
  dbdir <- getNewRandomDBDirName base ;;
  oldDirName <- getCurrentDBDirName base ;;
  newdb <- OpenPebbleDB dbdir ;;
  load_records newdb dbdir rd ;;
  go_ret (header, dbdir, oldDirName, newdb).

(** The rest: the marker file, the swap, the removal of the old directory. *)
Definition recover_switch (header : SnapshotHeader) (dbdir oldDirName : string) (newdb : path)
    : GoM sworld SnapshotHeader :=
  s <- the_store ;;
  on_world (go_on_err (saveCurrentDBDirName (baseDir s) dbdir) (cleanupNewDB newdb dbdir)) ;;
  on_world (go_on_err (replaceCurrentDBFile (baseDir s)) (cleanupNewDB newdb dbdir)) ;;
  set_store (MkStore (baseDir s) newdb (st_closed s)) ;;
  on_world (pebble_Close (st_db s)) ;;
  on_world (os_RemoveAll oldDirName) ;;
  on_world (syncDir (Dir oldDirName)) ;;
  go_ret header.

Definition recoverSnapShot (rd : reader) : GoM sworld SnapshotHeader :=
  s <- the_store ;;
  '(header, dbdir, oldDirName, newdb) <- on_world (recover_load (baseDir s) rd) ;;
  recover_switch header dbdir oldDirName newdb.
End store.

(** ** Lemmas: what the load touches *)

Section load_frames.
Context {P : Pebble} {G : Gzip}.
Context (X : path → Prop) (newdb : path) (dbdir : string).
Hypotheses (HX : X newdb) (HXd : ∀ q, below (path_of dbdir) q → X q).

Lemma newPebbleWriteBatch_off : maintains (steps_off X) (newPebbleWriteBatch newdb).
Proof. apply maintains_bind; [apply _|by apply with_db_off|]. intros. apply maintains_ret, _. Qed.

Lemma wb_Commit_off wb : wb_db wb = newdb → maintains (steps_off X) (wb_Commit wb).
Proof.
  intros Hw. unfold wb_Commit. rewrite Hw.
  apply maintains_bind; [apply _| |intros _; apply newPebbleWriteBatch_off].
  apply maintains_ignore; [apply _..|]. by apply with_db_off.
Qed.

Lemma cleanupNewDB_off : maintains (steps_off X) (cleanupNewDB newdb dbdir).
Proof.
  apply maintains_bind; [apply _|by apply pebble_Close_off|]. intros _.
  apply maintains_ignore; [apply _..|]. by apply os_RemoveAll_off.
Qed.

Lemma restore_fail_off {A} st e : maintains (steps_off X) (restore_fail (A := A) st newdb dbdir e).
Proof.
  apply maintains_bind; [apply _|apply maintains_ret, _|]. intros _.
  apply maintains_bind; [apply _|apply cleanupNewDB_off|]. intros _. apply maintains_err, _.
Qed.

(** A step keeps the batch on the new database. *)
Lemma wb_Commit_db wb w wb' w' : wb_Commit wb w = (Ok wb', w') → wb_db wb' = wb_db wb.
Proof.
  intros (_ & w1 & _ & (b & w2 & _ & H)%go_bind_Ok_inv)%go_bind_Ok_inv. by injection H as <-.
Qed.

Lemma restore_step_off st :
  wb_db (rs_wb st) = newdb → maintains (steps_off X) (restore_step newdb dbdir st).
Proof.
  intros Hw. unfold restore_step. destruct (ReadFull 8 (rs_reader st)) as [[sz e1] rd1].
  destruct e1 as [[]|]; try apply restore_fail_off; try apply maintains_ret, _;
    [repeat case_decide; first [apply restore_fail_off|apply maintains_ret, _]|].
  cbv zeta. case_decide; [apply restore_fail_off|].
  destruct (ReadFull _ rd1) as [[kdata [[]|]] rd2];
    try apply restore_fail_off; try apply maintains_ret, _.
  destruct (ReadFull 8 rd2) as [[sz2 [[]|]] rd3];
    try apply restore_fail_off; try apply maintains_ret, _.
  case_decide; [apply maintains_panic, _|].
  destruct (ReadFull _ rd3) as [[vdata [[]|]] rd4];
    try apply restore_fail_off; try apply maintains_ret, _.
  destruct (gzipDecode vdata) as [v| | |];
    [|apply restore_fail_off|apply maintains_panic, _|apply maintains_lift, _].
  destruct (wb_Put (rs_wb st) kdata v) as [o wb] eqn:E. case_decide; [|apply maintains_ret, _].
  apply maintains_bind; [apply _| |intros; apply maintains_ret, _]. apply wb_Commit_off.
  unfold wb_Put in E. destruct (batch_Set _ _ _). by injection E as _ <-.
Qed.

Lemma restore_step_db st w st' w' :
  restore_step newdb dbdir st w = (Ok st', w') →
  match st' with inl st' | inr st' => wb_db (rs_wb st') = wb_db (rs_wb st) end.
Proof.
  unfold restore_step. intros H. destruct (ReadFull 8 (rs_reader st)) as [[sz e1] rd1].
  destruct e1 as [[]|]; try (by apply restore_fail_not_Ok in H); try (by injection H as <-);
    [repeat case_decide; by (apply restore_fail_not_Ok in H || injection H as <-)|].
  cbv zeta in H. case_decide; [by apply restore_fail_not_Ok in H|].
  destruct (ReadFull _ rd1) as [[kdata [[]|]] rd2];
    try (by apply restore_fail_not_Ok in H); try (by injection H as <-).
  destruct (ReadFull 8 rd2) as [[sz2 [[]|]] rd3];
    try (by apply restore_fail_not_Ok in H); try (by injection H as <-).
  case_decide; [done|].
  destruct (ReadFull _ rd3) as [[vdata [[]|]] rd4];
    try (by apply restore_fail_not_Ok in H); try (by injection H as <-).
  destruct (gzipDecode vdata) as [v| | |]; try (by apply restore_fail_not_Ok in H); try done.
  destruct (wb_Put (rs_wb st) kdata v) as [o wb] eqn:E.
  unfold wb_Put in E. destruct (batch_Set _ _ _). injection E as _ <-.
  case_decide; [|by injection H as <-].
  apply go_bind_Ok_inv in H as (wb' & w1 & Hc & H). injection H as <-. by apply wb_Commit_db in Hc.
Qed.

Lemma restore_loop_off fuel st :
  wb_db (rs_wb st) = newdb → maintains (steps_off X) (restore_loop fuel newdb dbdir st).
Proof.
  revert st. induction fuel as [|fuel IH]; intros st Hw; [apply maintains_lift, _|].
  intros w. cbn [restore_loop]. apply maintains_bind_at; [apply _|by apply restore_step_off|].
  intros [st'|st'] w1 E; [|done]. apply restore_step_db in E. apply IH. by rewrite E.
Qed.

Lemma restore_loop_db fuel st w st' w' :
  restore_loop fuel newdb dbdir st w = (Ok st', w') → wb_db (rs_wb st') = wb_db (rs_wb st).
Proof.
  revert st w. induction fuel as [|fuel IH]; intros st w; [done|]. cbn [restore_loop].
  intros (r & w1 & Hs%restore_step_db & H)%go_bind_Ok_inv.
  destruct r as [st1|st1]; [|by injection H as <-]. rewrite <-Hs. by eapply IH.
Qed.

Lemma load_records_off rd : maintains (steps_off X) (load_records newdb dbdir rd).
Proof.
  intros w. unfold load_records.
  apply maintains_bind_at; [apply _|apply newPebbleWriteBatch_off|]. intros wb w1 E1.
  assert (wb_db wb = newdb) as Hw.
  { apply go_bind_Ok_inv in E1 as (? & ? & _ & E1). by injection E1 as <-. }
  apply maintains_bind_at; [apply _|by apply restore_loop_off|].
  intros st w2 E2%restore_loop_db. simpl in E2.
  apply maintains_bind_at; [apply _|case_decide; [apply wb_Commit_off; congruence|done]|].
  intros ? w3 _. apply maintains_bind_at; [apply _|done|]. intros _ ? _.
  apply maintains_ignore; [apply _..|]. apply pebble_Flush_off.
Qed.
End load_frames.

(** The name a world gives to the next database directory. *)
Definition next_name {P : Pebble} (w : world) : string :=
  random_name (uint 64 (default 0 (head (w_rand w)))) (int64 (default 0 (head (w_clock w)))).

Lemma getNewRandomDBDirName_ok {P : Pebble} base w :
  getNewRandomDBDirName base w =
    (Ok (Join base (next_name w)),
     MkWorld (w_disk w) (w_closed w) (w_orc w) (tail (w_rand w)) (tail (w_clock w)) (w_trace w)).
Proof. done. Qed.

Lemma path_next {P : Pebble} base w :
  path_of (Join base (next_name w)) = child (path_of base) (next_name w).
Proof. apply path_of_Join, fname_random. Qed.

Lemma next_name_marker {P : Pebble} w :
  next_name w ≠ currentDBFilename ∧ next_name w ≠ updatingDBFilename.
Proof. apply random_name_marker. Qed.

Section load.
Context `{PL : PebbleLaws, !PebbleReliable _, GL : GzipLaws}.

(** Whatever the stream holds and whatever fails, the load changes nothing
    but the new directory (and makes the missing directories above it). *)
Lemma recover_load_grows base rd w :
  steps_grows (child (path_of base) (next_name w)) w (recover_load base rd w).2.
Proof.
  pose proof (path_next base w) as Hp. set (new := child _ _) in *.
  assert (∀ q, below (path_of (Join base (next_name w))) q → below new q) as Hbn by by rewrite Hp.
  unfold recover_load. destruct (readSnapshotHeader rd) as [hr rd'].
  apply maintains_bind_at; [apply _|by destruct hr|].
  intros h w0 E0. assert (w0 = w) as ->.
  { revert E0. unfold go_map_err, go_try, go_lift. by destruct hr; intros [= _ <-]. }
  apply maintains_bind_at; [apply _|by apply quiet_steps; [apply _|..]|].
  intros dbdir w1 E1. rewrite getNewRandomDBDirName_ok in E1. injection E1 as <- <-.
  apply maintains_bind_at; [apply _|apply steps_off_grows, get_off|]. intros old w2 _.
  apply maintains_bind_at; [apply _|rewrite <-Hp; apply OpenPebbleDB_grows|].
  intros newdb w3 E3. assert (newdb = new) as ->.
  { unfold OpenPebbleDB in E3. rewrite Hp in E3.
    apply go_bind_Ok_inv in E3 as (? & ? & _ & E3).
    apply go_bind_Ok_inv in E3 as (? & ? & _ & E3). by injection E3 as <- _. }
  apply maintains_bind_at; [apply _|apply steps_off_grows, load_records_off|by intros].
  - apply below_refl.
  - done.
Qed.

Lemma length_raw_bytes l : (length l ≤ length (raw_bytes l))%nat.
Proof.
  induction l as [|r l IH]; [done|].
  change (raw_bytes (r :: l)) with (raw_record r ++ raw_bytes l).
  rewrite length_app. unfold raw_record, PutUint64. rewrite length_app, length_le_put. simpl. lia.
Qed.

(** Four bytes where eight are asked for. *)
Lemma ReadFull_checksum c :
  ReadFull 8 (MkReader (PutUint32 c) None) = (PutUint32 c, Some ErrUnexpectedEOF, MkReader [] None).
Proof.
  unfold ReadFull. cbn [r_data r_err]. rewrite len_PutUint32, decide_False by lia.
  destruct (PutUint32 c) eqn:E; [by apply (f_equal length) in E|done].
Qed.

(** The turn that meets the end of the stream: it breaks the loop. *)
Definition breaks_at (newdb : path) (dbdir : string) (rd : reader) (hash : Z) : Prop :=
  ∀ st w, rs_reader st = rd → rs_hasher st = hash →
  ∃ st', restore_step newdb dbdir st w = (Ok (inr st'), w) ∧
         rs_wb st' = rs_wb st ∧ rs_k st' = rs_k st.

(** After the loop: the last commit leaves everything in the database. *)
Lemma load_finish newdb st w m :
  loaded newdb st w m →
  ∃ w' db,
    (wb <- (if decide (rs_k st > 0) then wb_Commit (rs_wb st) else go_ret (rs_wb st)) ;;
     wb_Destroy wb ;; go_ignore (pebble_Flush newdb)) w = (Ok tt, w') ∧
    only_db newdb w w' ∧ d_dbs (w_disk w') !! newdb = Some db ∧ db_map db = m.
Proof.
  intros (Hc & Hw & Hk & db & Hd & Hm & H0).
  destruct st as [rd cnt hs k [b q]]. simpl in *. subst q.
  assert (∃ wb w1 db1, (if decide (k > 0) then wb_Commit (MkWB b newdb) else go_ret (MkWB b newdb)) w
            = (Ok wb, w1) ∧ only_db newdb w w1 ∧
            d_dbs (w_disk w1) !! newdb = Some db1 ∧ db_map db1 = m) as (wb & w1 & db1 & H1 & Ho & Hd1 & Hm1).
  { case_decide.
    - destruct (wb_Commit_loaded newdb b w db m Hc Hd Hm) as (b' & w1 & db1 & Hcm & ? & ? & ? & _). eauto 10.
    - eexists _, w, db. split; [reflexivity|]. split; [done|]. split; [done|]. apply H0. lia. }
  destruct (pebble_Flush_ok newdb w1) as (w2 & H2 & Ho2 & Hw2); [by destruct Ho as (_ & -> & _)|].
  exists w2, db1. erewrite go_bind_ok by exact H1. erewrite go_bind_ok by reflexivity.
  split; [exact H2|]. rewrite Hw2. split; [by etrans|done].
Qed.

(** The loop starts with an empty batch on the new database, and has fuel for
    every record of the stream and one turn more. *)
Lemma load_records_start newdb dbdir l rest e w db :
  newdb ∉ w_closed w → d_dbs (w_disk w) !! newdb = Some db →
  ∃ st0 w1 f,
    load_records newdb dbdir (MkReader (raw_bytes l ++ rest) e) w =
      (st <- restore_loop (length l + S f) newdb dbdir st0 ;;
       wb <- (if decide (rs_k st > 0) then wb_Commit (rs_wb st) else go_ret (rs_wb st)) ;;
       wb_Destroy wb ;;
       go_ignore (pebble_Flush newdb)) w1 ∧
    rs_reader st0 = MkReader (raw_bytes l ++ rest) e ∧ rs_hasher st0 = crc32_new ∧
    only_db newdb w w1 ∧ loaded newdb st0 w1 (db_map db).
Proof.
  intros Hc Hd. unfold load_records.
  destruct (newPebbleWriteBatch_ok newdb w db Hc Hd) as (b & w1 & H1 & Ho1 & Hd1 & Hb).
  erewrite go_bind_ok by exact H1. set (rd := MkReader _ _).
  exists (MkRestoring rd 0 crc32_new 0 (MkWB b newdb)), w1,
    (length (raw_bytes l) + length rest - length l)%nat.
  replace (length l + S (length (raw_bytes l) + length rest - length l))%nat with (restore_fuel rd).
  2:{ unfold restore_fuel, rd. simpl. rewrite length_app. pose proof (length_raw_bytes l). lia. }
  do 4 (split; [done|]). split; [by destruct Ho1 as (_ & -> & _)|]. split; [done|]. split; [done|].
  exists db. split; [done|]. by rewrite Hb.
Qed.

(** Loading the records of a stream that ends in a break. *)
Lemma load_records_ok newdb dbdir l rest e w db :
  Forall entry_ok l → breaks_at newdb dbdir (MkReader rest e) (crc32 (data_bytes l)) →
  newdb ∉ w_closed w → d_dbs (w_disk w) !! newdb = Some db → db_map db = ∅ →
  ∃ w' db', load_records newdb dbdir (MkReader (data_bytes l ++ rest) e) w = (Ok tt, w') ∧
            only_db newdb w w' ∧ d_dbs (w_disk w') !! newdb = Some db' ∧
            db_map db' = inserts ∅ l.
Proof.
  intros Hok Hbr Hc Hd Hm.
  destruct (load_records_start newdb dbdir (compress <$> l) rest e w db Hc Hd)
    as (st0 & w1 & f & H0 & Hrd0 & Hh0 & Ho1 & Hl0). rewrite Hm in Hl0. rewrite length_fmap in H0.
  destruct (restore_loop_loaded newdb dbdir l rest e (S f) st0 w1 ∅ Hok Hrd0 Hl0)
    as (st & w2 & H2 & Ho2 & Hl2 & Hrd & Hh). rewrite Hh0 in Hh.
  destruct (Hbr st w2 Hrd Hh) as (st' & H3 & Hwb & Hk).
  destruct (load_finish newdb st' w2 (inserts ∅ l)) as (w3 & db3 & H4 & Ho4 & Hd4 & Hm4).
  { unfold loaded. by rewrite Hwb, Hk. }
  exists w3, db3. split; [|split; [|done]].
  - etrans; [exact H0|]. erewrite go_bind_ok; [exact H4|].
    rewrite H2. cbn [restore_loop]. by erewrite go_bind_ok by exact H3.
  - etrans; [exact Ho1|]. by etrans.
Qed.

(** A trailing checksum that does not agree stops the load with an error. *)
Lemma load_records_mismatch newdb dbdir l c w db :
  Forall raw_ok l → 0 ≤ c < 2 ^ 32 → c ≠ crc32 (raw_bytes l) →
  newdb ∉ w_closed w → d_dbs (w_disk w) !! newdb = Some db →
  ∃ e w', load_records newdb dbdir (MkReader (raw_bytes l ++ PutUint32 c) None) w = (Err e, w').
Proof.
  intros Hok Hc Hne Hcl Hd.
  destruct (load_records_start newdb dbdir l (PutUint32 c) None w db Hcl Hd)
    as (st0 & w1 & f & -> & Hrd0 & Hh0 & _ & Hl0).
  destruct (restore_loop_raw newdb dbdir l (PutUint32 c) None (S f) st0 w1 _ Hok Hrd0 Hl0)
    as [(vs & st & w2 & _ & H2 & _ & Hl2 & Hrd & Hh)|(e & w2 & _ & H2)].
  2:{ exists e, w2. by apply go_bind_err. }
  destruct (restore_fail_open newdb dbdir (A := restoring + restoring) st
    (Errorf "snapshot checksum mismatch" [FInt c; FInt (crc32 (raw_bytes l))]) w2) as [w3 H3]; [apply Hl2|].
  eexists _, w3. apply go_bind_err. rewrite H2. cbn [restore_loop]. apply go_bind_err.
  unfold restore_step. rewrite Hrd, Hh, Hh0, ReadFull_checksum, decide_True by apply len_PutUint32.
  rewrite <-(app_nil_r (PutUint32 c)), Uint32_Put by done. rewrite decide_True by done. exact H3.
Qed.

(** The break at a trailing checksum that agrees. *)
Lemma breaks_at_checksum newdb dbdir c :
  0 ≤ c < 2 ^ 32 → breaks_at newdb dbdir (MkReader (PutUint32 c) None) c.
Proof.
  intros Hc st w Hrd Hh. unfold restore_step. rewrite Hrd, Hh.
  rewrite ReadFull_checksum, decide_True by apply len_PutUint32.
  rewrite <-(app_nil_r (PutUint32 c)), Uint32_Put by done.
  rewrite decide_False by naive_solver. by eexists.
Qed.
End load.

(** ** The store invariant

    [serves n m sw]: the store is open on the directory [n] of its base
    directory, the marker file names that directory, and the database in it
    holds the map [m]. *)
Section invariant.
Context {P : Pebble}.

Record serves (n : string) (m : gmap bytes bytes) (sw : sworld) : Prop := {
  sv_fname : fname n;
  sv_name : n ≠ currentDBFilename ∧ n ≠ updatingDBFilename;
  sv_base : d_fs (w_disk (sw_world sw)) !! path_of (baseDir (sw_store sw)) = Some NDir;
  sv_above : ∀ q data s, below q (path_of (baseDir (sw_store sw))) →
                         d_fs (w_disk (sw_world sw)) !! q ≠ Some (NFile data s);
  sv_running : d_fs (w_disk (sw_world sw)) !! child (path_of (baseDir (sw_store sw))) currentDBFilename =
               Some (NFile (dirname_record (Join (baseDir (sw_store sw)) n)) true);
  sv_updating : d_fs (w_disk (sw_world sw)) !! child (path_of (baseDir (sw_store sw))) updatingDBFilename
                ≠ Some NDir;
  sv_handle : st_db (sw_store sw) = child (path_of (baseDir (sw_store sw))) n;
  sv_dir : d_fs (w_disk (sw_world sw)) !! st_db (sw_store sw) = Some NDir;
  sv_open : st_db (sw_store sw) ∉ w_closed (sw_world sw);
  sv_db : ∃ db, d_dbs (w_disk (sw_world sw)) !! st_db (sw_store sw) = Some db ∧ db_map db = m;
}.

(** The next directory name is unused. *)
Definition name_free (base : string) (w : world) : Prop :=
  d_fs (w_disk w) !! child (path_of base) (next_name w) = None ∧
  d_dbs (w_disk w) !! child (path_of base) (next_name w) = None.
End invariant.

Section recover_ok.
Context `{PL : PebbleLaws, !PebbleReliable _, GL : GzipLaws}.

Lemma on_world_ok {A} (m : GoM world A) sw r w' :
  m (sw_world sw) = (r, w') → on_world m sw = (r, MkSW (sw_store sw) w').
Proof. unfold on_world. by intros ->. Qed.

(** The start of a load, without faults: the header is read and an empty
    database is open in the new directory. *)
Lemma recover_load_opened n m sw h body :
  let base := baseDir (sw_store sw) in
  let w := sw_world sw in
  let new := child (path_of base) (next_name w) in
  serves n m sw → w_orc w = [] → name_free base w → header_ok h →
  ∃ w2,
    recover_load base (MkReader (header_bytes h ++ body) None) w =
      (load_records new (Join base (next_name w)) (MkReader body None) ;;
       go_ret (h, Join base (next_name w), Join base n, new)) w2 ∧
    w_orc w2 = [] ∧ w_closed w2 = w_closed w ∖ {[new]} ∧
    d_dbs (w_disk w2) !! new = Some db_fresh ∧ d_fs (w_disk w2) !! new = Some NDir.
Proof.
  intros base w new Hsv Ho [Hf1 Hf2] Hh. unfold recover_load.
  rewrite readSnapshotHeader_bytes by done.
  erewrite go_bind_ok by reflexivity. erewrite go_bind_ok by apply getNewRandomDBDirName_ok.
  edestruct (get_ok base) as [tr1 H1]; [| | |erewrite go_bind_ok by exact H1].
  { exact Ho. } { apply Hsv. } { apply Join_nonempty, Hsv. }
  edestruct OpenPebbleDB_fresh as (w2 & H2 & Ho2 & Hr2 & Hc2 & Hcl2 & Hdb2 & Hd2 & _);
    [| | | | |erewrite go_bind_ok by exact H2].
  { done. } { rewrite path_next. simpl. by destruct (clean_pieces _ _). }
  { rewrite path_next. intros q data s Hq. simpl.
    apply below_child_cases in Hq as [Hq| ->]; [by apply Hsv|]. fold base w. by rewrite Hf1. }
  { by rewrite path_next. } { by rewrite path_next. }
  rewrite path_next in Hcl2, Hdb2, Hd2 |- *. cbn [w_disk w_closed at_disk] in *.
  fold new in Hcl2, Hdb2, Hd2 |- *.
  exists w2. do 3 (split; [done|]). split; [|done]. rewrite Hdb2. apply lookup_insert_eq.
Qed.

(** The load of a well-formed stream, without faults. [rest] is what is left
    of the stream where the loop breaks. *)
Lemma recover_load_ok n m sw h l rest :
  let base := baseDir (sw_store sw) in
  let w := sw_world sw in
  let new := child (path_of base) (next_name w) in
  serves n m sw → w_orc w = [] → name_free base w → header_ok h → Forall entry_ok l →
  breaks_at new (Join base (next_name w)) (MkReader rest None) (crc32 (data_bytes l)) →
  ∃ w' db,
    recover_load base (MkReader (header_bytes h ++ data_bytes l ++ rest) None) w =
      (Ok (h, Join base (next_name w), Join base n, new), w') ∧
    w_orc w' = [] ∧ w_closed w' = w_closed w ∖ {[new]} ∧
    d_dbs (w_disk w') !! new = Some db ∧ db_map db = inserts ∅ l ∧
    d_fs (w_disk w') !! new = Some NDir.
Proof.
  intros base w new Hsv Ho Hfree Hh Hok Hbr.
  destruct (recover_load_opened n m sw h (data_bytes l ++ rest) Hsv Ho Hfree Hh)
    as (w2 & H2 & Ho2 & Hcl2 & Hdb2 & Hd2). fold base w new in H2, Hcl2, Hdb2, Hd2.
  destruct (load_records_ok new (Join base (next_name w)) l rest None w2 db_fresh)
    as (w3 & db & H3 & (Hfs3 & Hcl3 & Ho3 & _) & Hd3 & Hm3); [done|done| |done|apply db_fresh_map|].
  { rewrite Hcl2. set_solver. }
  exists w3, db. rewrite H2. erewrite go_bind_ok by exact H3.
  split; [reflexivity|]. split; [by apply Ho3|]. split; [by rewrite Hcl3|].
  split; [done|]. by rewrite Hfs3.
Qed.

Lemma not_below_sibling p n n' : n ≠ n' → ¬ below (child p n) (child p n').
Proof. intros Hne Hb. by pose proof (below_child_inj _ _ _ _ Hb (below_refl _)). Qed.

(** Work in another directory of the base directory does not disturb the
    store. *)
Lemma serves_grows n n' m st w w' :
  serves n m (MkSW st w) → n' ≠ n → n' ≠ currentDBFilename → n' ≠ updatingDBFilename →
  steps_grows (child (path_of (baseDir st)) n') w w' → serves n m (MkSW st w').
Proof.
  intros [S1 [S2 S2'] S3 S4 S5 S6 S7 S8 S9 [db [S10 S11]]] Hn Hnc Hnu (Hg & _ & Hcl).
  simpl in *. set (base := path_of (baseDir st)) in *. set (new := child base n') in *.
  assert (∀ k, k ≠ n' → ¬ below new (child base k)) as Hsib
    by (intros k Hk; by apply not_below_sibling).
  assert (∀ q x, d_fs (w_disk w) !! q = Some x → ¬ below new q → d_fs (w_disk w') !! q = Some x) as Hkeep.
  { intros q x Hq Hb. destruct (Hg q Hb) as [[[E _]|(_ & E & _)] _]; congruence. }
  split; cbn [sw_store sw_world]; fold base; try done.
  - apply Hkeep; [done|]. apply not_below_child.
  - intros q data s Hq Hqf. destruct (Hg q) as [[[E _]|(_ & E & E')] _]; [|rewrite E in Hqf; by eapply S4|congruence].
    intros Hb. apply (not_below_child base n'). by etrans.
  - apply Hkeep; [done|]. by apply Hsib.
  - destruct (Hg (child base updatingDBFilename)) as [[[E _]|(Hb & _)] _]; [by apply Hsib|by rewrite E|].
    exfalso. by eapply not_below_sibling; [|apply prefixes_below; exact Hb].
  - apply Hkeep; [done|]. rewrite S7. by apply Hsib.
  - rewrite Hcl; [done|]. rewrite S7. by apply Hsib.
  - exists db. destruct (Hg (st_db st)) as [_ E]; [rewrite S7; by apply Hsib|]. by rewrite E.
Qed.

(** ** The switch, without faults

    From the current directory [n] to a database that is complete in the
    directory [n']. *)

(** A start on the disk [d] finds the directory [n] and the map [m] in it. *)
Definition recoverable (dir n : string) (m : gmap bytes bytes) (d : disk) : Prop :=
  d_fs d !! child (path_of dir) currentDBFilename = Some (NFile (dirname_record (Join dir n)) true) ∧
  d_fs d !! child (path_of dir) n = Some NDir ∧
  ∃ db, d_dbs d !! child (path_of dir) n = Some db ∧ db_map db = m.

Lemma serves_recoverable n m sw :
  serves n m sw → recoverable (baseDir (sw_store sw)) n m (w_disk (sw_world sw)).
Proof.
  intros [S1 S2 S3 S4 S5 S6 S7 S8 S9 S10]. unfold recoverable. rewrite <-S7. done.
Qed.

Lemma recoverable_grows dir n n' m d d' :
  n' ≠ n → n' ≠ currentDBFilename → grows (child (path_of dir) n') d d' →
  recoverable dir n m d → recoverable dir n m d'.
Proof.
  intros Hn Hnc Hg (Hr & Hd & Hdb). unfold recoverable.
  destruct (Hg (child (path_of dir) currentDBFilename)) as [[[E1 _]|(_ & E1 & _)] _];
    [by apply not_below_sibling| |congruence].
  destruct (Hg (child (path_of dir) n)) as [[[E2 _]|(_ & E2 & _)] E3];
    [by apply not_below_sibling| |congruence].
  by rewrite E1, E2, E3.
Qed.

(** The record of the directory [n], synced. *)
Definition record (dir n : string) : option node := Some (NFile (dirname_record (Join dir n)) true).

(** The directory [n] has reached the disk with the map [m] in its database. *)
Definition db_at (dir n : string) (m : gmap bytes bytes) (d : disk) : Prop :=
  settled d (child (path_of dir) n) ∧ chain d (child (path_of dir) n) ∧
  ∃ db, d_dbs d !! child (path_of dir) n = Some db ∧ db_map db = m.

(** The same, and the current file that names it. *)
Definition durable (dir n : string) (m : gmap bytes bytes) (d : disk) : Prop :=
  marker_ok dir (λ x, x = record dir n) d ∧ db_at dir n m d.

(** Whatever a crash makes of the current file, it names [n] with [m] or [n']
    with [m']. *)
Definition survives (dir n : string) (m : gmap bytes bytes) (n' : string) (m' : gmap bytes bytes)
    (d : disk) : Prop :=
  marker_ok dir (λ x, (x = record dir n ∧ db_at dir n m d) ∨ (x = record dir n' ∧ db_at dir n' m' d)) d.

Lemma marker_ok_mono dir (ok ok' : option node → Prop) d :
  (∀ x, ok x → ok' x) → marker_ok dir ok d → marker_ok dir ok' d.
Proof. intros H [Hs Hok]. split; [done|]. intros x Hx. by apply H, Hok. Qed.

Lemma durable_survives_l dir n m n' m' d : durable dir n m d → survives dir n m n' m' d.
Proof. intros [Hm Hd]. eapply marker_ok_mono; [|exact Hm]. intros x ->. by left. Qed.
Lemma durable_survives_r dir n m n' m' d : durable dir n' m' d → survives dir n m n' m' d.
Proof. intros [Hm Hd]. eapply marker_ok_mono; [|exact Hm]. intros x ->. by right. Qed.

Lemma child_nonroot p n : p_comps (child p n) ≠ [].
Proof. simpl. by destruct (p_comps p). Qed.

Lemma db_at_dir dir n m d : db_at dir n m d → d_fs d !! child (path_of dir) n = Some NDir.
Proof. intros (_ & Hc & _). apply Hc; [apply below_refl|apply child_nonroot]. Qed.

Lemma db_at_agree X dir n m d d' :
  (∀ q, below q (child (path_of dir) n) → ¬ X q) → agree_off X d d' → db_at dir n m d → db_at dir n m d'.
Proof.
  intros HX H (Hs & Hc & db & Hdb & Hm). split_and!.
  - intros q Hq. destruct (H q (HX q Hq)) as (_ & _ & [->| ->]); [by apply Hs|done].
  - intros q Hq Hr. destruct (H q (HX q Hq)) as (-> & _). by apply Hc.
  - exists db. destruct (H (child (path_of dir) n)) as (_ & -> & _); [apply HX, below_refl|done].
Qed.

Lemma durable_agree X dir n m d d' :
  (∀ q, below q (child (path_of dir) n) ∨ q = child (path_of dir) currentDBFilename → ¬ X q) →
  agree_off X d d' → durable dir n m d → durable dir n m d'.
Proof.
  intros HX H [Hm Hd]. split.
  - eapply marker_ok_agree; [|exact H|exact Hm]. intros q Hq.
    apply below_child_cases in Hq as [Hq| ->]; apply HX; [left|by right]. etrans; [exact Hq|apply below_child].
  - eapply db_at_agree; [|exact H|exact Hd]. intros q Hq. apply HX. by left.
Qed.

Lemma durable_grows dir n n' m d d' :
  n' ≠ n → n' ≠ currentDBFilename → grows (child (path_of dir) n') d d' →
  durable dir n m d → durable dir n m d'.
Proof.
  intros Hn Hnc Hg [[Hs Hok] (Hs2 & Hc & db & Hdb & Hm)].
  assert (∀ q, below q (child (path_of dir) n) → ¬ below (child (path_of dir) n') q) as Hnb.
  { intros q Hq Hb. assert (below (child (path_of dir) n') (child (path_of dir) n)) as Hx by by etrans.
    by pose proof (below_child_inj _ _ _ _ Hx (below_refl _)). }
  assert (∀ q, below q (child (path_of dir) n) →
    d_fs d' !! q = d_fs d !! q ∧ settles (d_old d !! q) (d_old d' !! q)) as Hk.
  { intros q Hq. destruct (Hg q (Hnb q Hq)) as [[[E S]|(Hp & E & _)] _]; [done|].
    rewrite (Hc q Hq) in E; [done|]. by eapply prefixes_nonroot. }
  assert (settled d' (child (path_of dir) n)) as Hs'.
  { intros q Hq. destruct (Hk q Hq) as [_ [->| ->]]; [by apply Hs2|done]. }
  split; [split|split_and!].
  - intros q Hq. apply Hs'. etrans; [exact Hq|apply below_child].
  - intros x Hx. apply Hok. destruct (Hg (child (path_of dir) currentDBFilename)) as [[[E S]|(_ & E & _)] _].
    + by apply not_below_sibling.
    + by eapply entries_settles.
    + specialize (Hok _ (list_elem_of_here _ _)). cbv beta in Hok. by rewrite E in Hok.
  - done.
  - intros q Hq Hr. rewrite (proj1 (Hk q Hq)). by apply Hc.
  - exists db. destruct (Hg (child (path_of dir) n)) as [_ ->]; [by apply Hnb, below_refl|done].
Qed.

Lemma durable_recoverable dir n m d : durable dir n m d → recoverable dir n m d.
Proof.
  intros [[_ Hok] Hd]. split; [exact (Hok _ (list_elem_of_here _ _))|]. split; [by eapply db_at_dir|apply Hd].
Qed.

(** What the process leaves when it stops. *)
Lemma survives_recoverable dir n m n' m' d :
  survives dir n m n' m' d → recoverable dir n m d ∨ recoverable dir n' m' d.
Proof.
  intros [_ Hok]. destruct (Hok _ (list_elem_of_here _ _)) as [[E Hd]|[E Hd]]; [left|right];
    (split; [exact E|]; split; [by eapply db_at_dir|apply Hd]).
Qed.

(** Everything is settled after a crash. *)
Lemma db_at_crash dir n m d d' : crash d d' → db_at dir n m d → db_at dir n m d'.
Proof.
  intros Hcr (Hs & Hc & db & Hdb & Hm). pose proof Hcr as [Ho _]. split_and!.
  - intros q _. rewrite Ho. apply lookup_empty.
  - intros q Hq Hr. destruct (crash_settled d d' q Hcr) as [Hn _].
    { intros x Hx. apply Hs. by etrans. }
    by rewrite (Hc q Hq Hr) in Hn.
  - exists db. destruct (crash_settled d d' _ Hcr Hs) as [_ ->]. done.
Qed.

Lemma survives_crash dir n m n' m' d d' :
  survives dir n m n' m' d → crash d d' → durable dir n m d' ∨ durable dir n' m' d'.
Proof.
  intros Hg Hcr. destruct (marker_ok_crash _ _ _ _ Hg Hcr) as (x & Hx & Hn). pose proof Hcr as [Ho _].
  assert (∀ n0, x = record dir n0 → marker_ok dir (λ y, y = record dir n0) d') as Hmk.
  { intros n0 ->. apply settled_marker; [intros q _; rewrite Ho; apply lookup_empty|exact Hn]. }
  destruct Hx as [[E Hd]|[E Hd]]; [left|right]; (split; [by apply Hmk|by eapply db_at_crash]).
Qed.

Lemma durable_crash dir n m d d' : durable dir n m d → crash d d' → durable dir n m d'.
Proof. intros H Hcr. by destruct (survives_crash dir n m n m d d' (durable_survives_l _ _ _ _ _ _ H) Hcr). Qed.

(** The disk after the switch. *)
Definition switched (dir n n' : string) (d : disk) : disk :=
  let running := child (path_of dir) currentDBFilename in
  let updating := child (path_of dir) updatingDBFilename in
  let record := NFile (dirname_record (Join dir n')) true in
  dir_synced (path_of dir) (remove_if (below (child (path_of dir) n))
    (dir_synced (path_of dir)
       (set_fs (λ fs, <[running := record]> (delete updating (<[updating := record]> fs))) d))).

Section switched.
Context (dir n n' : string) (d : disk).
Hypotheses (Hnc : n ≠ currentDBFilename) (Hnu : n ≠ updatingDBFilename).
Abbreviation base := (path_of dir).

Lemma switched_other q :
  ¬ below (child base n) q → q ≠ child base currentDBFilename → q ≠ child base updatingDBFilename →
  d_fs (switched dir n n' d) !! q = d_fs d !! q ∧
  d_dbs (switched dir n n' d) !! q = d_dbs d !! q.
Proof.
  intros Hq Hqr Hqu. unfold switched. simpl.
  split; apply option_eq; intros x; rewrite map_lookup_filter_Some; [|naive_solver].
  rewrite lookup_insert_ne, lookup_delete_ne, lookup_insert_ne by done. naive_solver.
Qed.

Lemma switched_gone q :
  below (child base n) q →
  d_fs (switched dir n n' d) !! q = None ∧ d_dbs (switched dir n n' d) !! q = None.
Proof. intros Hq. split; apply map_lookup_filter_None; right; naive_solver. Qed.

Lemma switched_running :
  d_fs (switched dir n n' d) !! child base currentDBFilename =
    Some (NFile (dirname_record (Join dir n')) true).
Proof. apply map_lookup_filter_Some_2; [apply lookup_insert_eq|]. by apply not_below_sibling. Qed.

Lemma switched_updating : d_fs (switched dir n n' d) !! child base updatingDBFilename = None.
Proof.
  apply map_lookup_filter_None. left. simpl.
  rewrite lookup_insert_ne by apply running_ne_updating. apply lookup_delete_eq.
Qed.

Lemma switched_base : d_fs (switched dir n n' d) !! base = d_fs d !! base.
Proof. apply switched_other; [apply not_below_child|apply child_ne..]. Qed.

Lemma switched_new :
  n' ≠ n → n' ≠ currentDBFilename → n' ≠ updatingDBFilename →
  d_fs (switched dir n n' d) !! child base n' = d_fs d !! child base n' ∧
  d_dbs (switched dir n n' d) !! child base n' = d_dbs d !! child base n'.
Proof.
  intros. apply switched_other; [by apply not_below_sibling, not_eq_sym|by apply child_child_ne..].
Qed.
End switched.

(** While the marker files are switched, every disk survives a crash: with the
    old database or with the new one, which is settled before it is named. *)
Lemma markers_survive dir n n' m m' w w1 w2 :
  durable dir n m (w_disk w) →
  d_fs (w_disk w) !! child (path_of dir) n' = Some NDir →
  (∃ db, d_dbs (w_disk w) !! child (path_of dir) n' = Some db ∧ db_map db = m') →
  n ≠ currentDBFilename → n ≠ updatingDBFilename →
  n' ≠ currentDBFilename → n' ≠ updatingDBFilename →
  saveCurrentDBDirName dir (Join dir n') w = (Ok tt, w1) →
  (∃ d, w_disk w1 = dir_synced (path_of dir) d) →
  replaceCurrentDBFile dir w1 = (Ok tt, w2) →
  visits (survives dir n m n' m') w w2 ∧ db_at dir n' m' (w_disk w2).
Proof.
  intros Hdur Hd' Hdb' Hn1 Hn2 Hn1' Hn2' Hs [ds Hds] Hr. set (base := path_of dir) in *.
  assert (∀ k (X : path → Prop), k ≠ updatingDBFilename → k ≠ currentDBFilename →
    ∀ q, below q (child base k) → ¬ (q = child base updatingDBFilename ∨ q = child base currentDBFilename)) as Hoff.
  { intros k _ H1 H2 q Hq [->| ->]; apply below_child_cases in Hq as [Hq|Hq];
      first [by eapply not_below_child|by apply child_child_ne in Hq; auto]. }
  pose proof (save_off (λ p, p = child base updatingDBFilename) dir (Join dir n') eq_refl w) as S1.
  rewrite Hs in S1. cbn [snd] in S1.
  assert (∀ d, agree_off (λ p, p = child base updatingDBFilename) (w_disk w) d → durable dir n m d) as Hold.
  { intros d Hd. eapply durable_agree; [|exact Hd|exact Hdur]. intros q [Hq| ->] Hu.
    - eapply (Hoff n (λ _, True)); [done|done|exact Hq|]. by left.
    - by eapply running_ne_updating. }
  pose proof S1 as (A1 & (l1 & T1 & F1) & _).
  assert (db_at dir n' m' (w_disk w1)) as Hnew.
  { destruct (Hold _ A1) as [[Hst _] (_ & Hc & _)]. fold base in Hst, Hc. unfold db_at. fold base. split_and!.
    - intros q Hq. apply below_child_cases in Hq as [Hq| ->]; [by apply Hst|]. rewrite Hds. simpl.
      apply map_lookup_filter_None. right. intros x _. simpl. rewrite parent_child. naive_solver.
    - intros q Hq Hr0. apply below_child_cases in Hq as [Hq| ->].
      + apply Hc; [|done]. etrans; [exact Hq|apply below_child].
      + rewrite (proj1 (A1 (child base n') ltac:(intros E; by apply child_child_ne in E))). done.
    - destruct Hdb' as (db & Hdb & Hm). exists db. split; [|done].
      destruct (A1 (child base n')) as (_ & -> & _); [intros E; by apply child_child_ne in E|done]. }
  pose proof (replace_off (λ p, p = child base updatingDBFilename ∨ p = child base currentDBFilename) dir
    (or_introl eq_refl) (or_intror eq_refl) w1) as S2. rewrite Hr in S2. cbn [snd] in S2.
  pose proof S2 as (A2 & (l2 & T2 & F2) & _).
  set (ok x := x = record dir n ∨ x = record dir n').
  destruct (replace_good dir (Join dir n') ok (or_intror eq_refl) w1) as [V2 _].
  { by apply save_Ok_inv in Hs. }
  { eapply marker_ok_mono; [|apply (Hold _ A1)]. intros x ->. by left. }
  rewrite Hr in V2. cbn [snd] in V2. destruct V2 as (l2' & T2' & G2).
  assert (l2' = l2) as -> by (rewrite T2 in T2'; by apply (inj (w_trace w1 ++.)) in T2').
  split; [|eapply db_at_agree; [|exact A2|exact Hnew]; by apply (Hoff n' (λ _, True))].
  eapply (visits_trans _ _ w1).
  - exists l1. split; [done|]. eapply Forall_impl; [exact F1|]. intros d Hd.
    by apply durable_survives_l, Hold.
  - exists l2. split; [done|]. apply Forall_forall. intros d Hd.
    rewrite Forall_forall in F2, G2. specialize (F2 d Hd). specialize (G2 d Hd).
    eapply marker_ok_mono; [|exact G2]. intros x [->| ->]; [left|right]; (split; [done|]);
      (eapply db_at_agree; [|exact F2|]); [by apply (Hoff n (λ _, True))|apply (Hold _ A1)|
                                           by apply (Hoff n' (λ _, True))|exact Hnew].
Qed.

Lemma recover_switch_run n n' m m' db st w h :
  let base := path_of (baseDir st) in
  serves n m (MkSW st w) → w_orc w = [] →
  n' ≠ n → n' ≠ currentDBFilename → n' ≠ updatingDBFilename →
  d_fs (w_disk w) !! child base n' = Some NDir →
  d_dbs (w_disk w) !! child base n' = Some db → db_map db = m' →
  ∃ tr, let w' := MkWorld (switched (baseDir st) n n' (w_disk w)) ({[st_db st]} ∪ w_closed w) []
                          (w_rand w) (w_clock w) tr in
    recover_switch h (Join (baseDir st) n') (Join (baseDir st) n) (child base n') (MkSW st w) =
      (Ok h, MkSW (MkStore (baseDir st) (child base n') (st_closed st)) w') ∧
    (durable (baseDir st) n m (w_disk w) →
     visits (survives (baseDir st) n m n' m') w w' ∧ durable (baseDir st) n' m' (w_disk w')).
Proof.
  intros base Hsv Ho Hnn Hnc Hnu Hdir Hdb Hm.
  pose proof Hsv as [Hn [Hn1 Hn2] Hb Hab Hrun Hupd Hst Hsd Hop (db0 & Hdb0 & Hm0)].
  simpl in *. fold base in Hb, Hab, Hrun, Hupd, Hst. rewrite Hst in Hsd, Hdb0.
  unfold recover_switch. erewrite go_bind_ok by reflexivity. cbn [sw_store].
  destruct (save_ok (baseDir st) w (Join (baseDir st) n') Ho Hb Hupd) as [tr1 H1].
  erewrite go_bind_ok by (apply on_world_ok; unfold go_on_err, go_try; cbn [sw_world]; rewrite H1; reflexivity).
  edestruct (replace_ok (baseDir st)) as [tr2 H2];
    [| | | |erewrite go_bind_ok by (apply on_world_ok; unfold go_on_err, go_try; cbn [sw_world]; rewrite H2; reflexivity)].
  { done. }
  { simpl. rewrite lookup_insert_ne; [done|]. apply not_eq_sym, child_ne. }
  { apply lookup_insert_eq. }
  { simpl. rewrite lookup_insert_ne by apply not_eq_sym, running_ne_updating. fold base. by rewrite Hrun. }
  erewrite go_bind_ok by reflexivity. erewrite go_bind_ok.
  2:{ apply on_world_ok. unfold pebble_Close. rewrite decide_False by done. reflexivity. }
  erewrite go_bind_ok by (apply on_world_ok, RemoveAll_ok; done). rewrite path_of_Join by done.
  set (w3 := upd _ _).
  assert (dir_synced base (w_disk w3) = switched (baseDir st) n n' (w_disk w)) as Hw3
    by (unfold w3, switched; cbn [upd w_disk at_disk]; by rewrite dir_synced_set_fs).
  assert (d_fs (w_disk w3) !! base = Some NDir) as Hb3.
  { change (d_fs (dir_synced base (w_disk w3)) !! base = Some NDir). rewrite Hw3. etrans; [apply switched_base|exact Hb]. }
  destruct (syncDir_ok (Dir (Join (baseDir st) n)) w3) as [tr4 H4]; [done|by rewrite path_of_Dir_Join|].
  erewrite go_bind_ok by (apply on_world_ok; exact H4). rewrite path_of_Dir_Join in H4 |- * by done.
  change (path_of (baseDir st)) with base in H4 |- *. rewrite Hw3 in H4 |- *.
  exists tr4. split; [done|]. intros Hdur.
  set (w1 := at_disk w _ tr1) in *. set (w2 := at_disk w1 _ tr2) in *.
  destruct (markers_survive (baseDir st) n n' m m' w w1 w2 Hdur Hdir (ex_intro _ db (conj Hdb Hm)) Hn1 Hn2 Hnc Hnu
              H1 (ex_intro _ _ eq_refl) H2) as [V Hnew].
  assert (durable (baseDir st) n' m' (w_disk w2)) as Hd2.
  { split; [|done]. pose proof Hdur as [[Hs _] _]. apply settled_marker.
    - intros q Hq. apply below_child_cases in Hq as [Hq| ->].
      { apply (synced_none base (w_disk w1)), (synced_none base (w_disk w)). by apply Hs. }
      apply map_lookup_filter_None. right. intros x _. simpl. rewrite parent_child. naive_solver.
    - simpl. apply lookup_insert_eq. }
  assert (∀ q, below q (child base n') ∨ q = child base currentDBFilename → ¬ below (child base n) q) as Hoff.
  { intros q [Hq| ->] Hbq; [|by eapply not_below_sibling; [|exact Hbq]].
    eapply not_below_sibling; [|by etrans; [exact Hbq|exact Hq]]. done. }
  assert (durable (baseDir st) n' m' (w_disk w3)) as Hd3.
  { eapply durable_agree; [exact Hoff| |exact Hd2]. by apply remove_if_off. }
  pose proof (syncDir_off (λ _, False) (Dir (Join (baseDir st) n)) w3) as S4. rewrite H4 in S4. cbn [snd] in S4.
  assert (∀ d, agree_off (λ _, False) (w_disk w3) d → durable (baseDir st) n' m' d) as Hd4.
  { intros d Hd. eapply durable_agree; [|exact Hd|exact Hd3]. by intros q _ []. }
  split; [|by apply Hd4, S4].
  eapply visits_trans; [exact V|].
  eapply (visits_trans _ _ w3); [eexists [_]; split; [reflexivity|]; apply Forall_singleton; by apply durable_survives_r|].
  eapply visits_steps; [exact S4|]. intros d Hd. by apply durable_survives_r, Hd4.
Qed.

(** A store whose handle is the new database, on the disk that the switch leaves. *)
Lemma switched_serves n n' m m' db st w w' :
  let base := path_of (baseDir st) in
  serves n m (MkSW st w) → fname n' → n' ≠ n → n' ≠ currentDBFilename → n' ≠ updatingDBFilename →
  child base n' ∉ w_closed w → d_fs (w_disk w) !! child base n' = Some NDir →
  d_dbs (w_disk w) !! child base n' = Some db → db_map db = m' →
  w_disk w' = switched (baseDir st) n n' (w_disk w) → w_closed w' = {[st_db st]} ∪ w_closed w →
  serves n' m' (MkSW (MkStore (baseDir st) (child base n') (st_closed st)) w').
Proof.
  intros base Hsv Hn' Hnn Hnc Hnu Hcl Hdir Hdb Hm Ed Ec.
  destruct Hsv as [Hn [Hn1 Hn2] Hb Hab Hrun Hupd Hst Hsd Hop _]. simpl in *.
  destruct (switched_new (baseDir st) n n' (w_disk w)) as [E1 E2]; [done..|].
  split; cbn [sw_store sw_world baseDir st_db]; rewrite ?Ed, ?Ec; fold base; try done.
  - etrans; [apply switched_base|done].
  - intros q data s Hq Hqf. destruct (decide (q = base)) as [->|].
    { eapply (Hab base); [done|]. etrans; [symmetry; apply switched_base|exact Hqf]. }
    destruct (switched_other (baseDir st) n n' (w_disk w) q) as [E _];
      [| | |rewrite E in Hqf; by eapply Hab].
    + intros Hq2. apply (not_below_child base n). by etrans.
    + intros ->. by eapply not_below_child.
    + intros ->. by eapply not_below_child.
  - by apply switched_running.
  - intros E. rewrite (switched_updating (baseDir st)) in E. done.
  - etrans; [exact E1|done].
  - rewrite Hst. apply not_elem_of_union. split; [|done].
    apply not_elem_of_singleton. by apply child_child_ne.
  - exists db. split; [|done]. etrans; [exact E2|done].
Qed.

Lemma recover_switch_ok n n' m m' db st w h :
  let base := path_of (baseDir st) in
  serves n m (MkSW st w) → w_orc w = [] → fname n' →
  n' ≠ n → n' ≠ currentDBFilename → n' ≠ updatingDBFilename →
  child base n' ∉ w_closed w → d_fs (w_disk w) !! child base n' = Some NDir →
  d_dbs (w_disk w) !! child base n' = Some db → db_map db = m' →
  ∃ sw', recover_switch h (Join (baseDir st) n') (Join (baseDir st) n) (child base n') (MkSW st w) =
           (Ok h, sw') ∧
         serves n' m' sw' ∧ w_orc (sw_world sw') = [] ∧
         sw_store sw' = MkStore (baseDir st) (child base n') (st_closed st) ∧
         st_db st ∈ w_closed (sw_world sw') ∧
         (∀ q, below (child base n) q → d_fs (w_disk (sw_world sw')) !! q = None ∧
                                        d_dbs (w_disk (sw_world sw')) !! q = None) ∧
         (durable (baseDir st) n m (w_disk w) →
          visits (survives (baseDir st) n m n' m') w (sw_world sw') ∧
          durable (baseDir st) n' m' (w_disk (sw_world sw'))).
Proof.
  intros base Hsv Ho Hn' Hnn Hnc Hnu Hcl Hdir Hdb Hm.
  destruct (recover_switch_run n n' m m' db st w h Hsv Ho Hnn Hnc Hnu Hdir Hdb Hm) as (tr & H & V).
  pose proof (sv_name _ _ _ Hsv) as [Hn1 Hn2].
  eexists. split; [exact H|]. cbn [sw_world sw_store w_orc w_closed w_disk].
  split; [by apply (switched_serves n n' m m' db st w)|].
  do 2 (split; [done|]). split; [set_solver|]. split; [by apply switched_gone|exact V].
Qed.

Lemma next_name_fresh n m sw :
  serves n m sw → name_free (baseDir (sw_store sw)) (sw_world sw) →
  next_name (sw_world sw) ≠ n.
Proof.
  intros Hsv [Hf _] Heq. pose proof (sv_dir _ _ _ Hsv) as Hd.
  rewrite (sv_handle _ _ _ Hsv), <-Heq in Hd. by rewrite Hf in Hd.
Qed.

(** What a restore leaves behind: the store serves [m] from the directory
    [n'], and nothing is left of the one it used before. *)
Definition restored (n' : string) (m : gmap bytes bytes) (sw sw' : sworld) : Prop :=
  serves n' m sw' ∧ w_orc (sw_world sw') = [] ∧
  baseDir (sw_store sw') = baseDir (sw_store sw) ∧
  st_closed (sw_store sw') = st_closed (sw_store sw) ∧
  st_db (sw_store sw) ∈ w_closed (sw_world sw') ∧
  ∀ q, below (st_db (sw_store sw)) q →
       d_fs (w_disk (sw_world sw')) !! q = None ∧ d_dbs (w_disk (sw_world sw')) !! q = None.

Lemma recoverSnapShot_ok n m sw h l rest :
  let base := baseDir (sw_store sw) in
  let w := sw_world sw in
  serves n m sw → w_orc w = [] → name_free base w → header_ok h → Forall entry_ok l →
  breaks_at (child (path_of base) (next_name w)) (Join base (next_name w))
            (MkReader rest None) (crc32 (data_bytes l)) →
  ∃ sw', recoverSnapShot (MkReader (header_bytes h ++ data_bytes l ++ rest) None) sw = (Ok h, sw') ∧
         restored (next_name w) (inserts ∅ l) sw sw' ∧
         (durable base n m (w_disk w) →
          visits (survives base n m (next_name w) (inserts ∅ l)) w (sw_world sw') ∧
          durable base (next_name w) (inserts ∅ l) (w_disk (sw_world sw'))).
Proof.
  intros base w Hsv Ho Hfree Hh Hok Hbr.
  destruct (recover_load_ok n m sw h l rest Hsv Ho Hfree Hh Hok Hbr)
    as (w1 & db & H1 & Ho1 & Hcl1 & Hdb1 & Hm1 & Hd1).
  fold base w in H1, Hcl1, Hdb1, Hd1.
  set (new := child (path_of base) (next_name w)) in *.
  destruct (next_name_marker w) as [Hmk1 Hmk2].
  pose proof (sv_handle _ _ _ Hsv) as Hst. fold base in Hst.
  assert (next_name w ≠ n) as Hne by by apply (next_name_fresh n m sw).
  pose proof (recover_load_grows base (MkReader (header_bytes h ++ data_bytes l ++ rest) None) w) as Hg.
  rewrite H1 in Hg. cbn [snd] in Hg.
  assert (serves n m (MkSW (sw_store sw) w1)) as Hsv1.
  { by apply (serves_grows n (next_name w) m (sw_store sw) w w1); [destruct sw|..]. }
  destruct (recover_switch_ok n (next_name w) m (inserts ∅ l) db (sw_store sw) w1 h)
    as (sw' & H2 & Hsv' & Ho' & Hst' & Hcl' & Hgone & V); try done.
  { apply fname_random. } { fold base new. rewrite Hcl1. set_solver. }
  exists sw'. split; [|split].
  - unfold recoverSnapShot. erewrite go_bind_ok by reflexivity. fold base.
    erewrite go_bind_ok by (apply on_world_ok; exact H1). exact H2.
  - unfold restored. rewrite Hst'. cbn [baseDir st_closed]. fold base.
    do 4 (split; [done|]). split; [done|]. by rewrite Hst.
  - intros Hdur.
    assert (∀ d, grows new (w_disk w) d → durable base n m d) as Hk.
    { intros d Hd. by eapply durable_grows. }
    destruct V as [V Hd']; [by apply Hk, Hg|]. split; [|done].
    eapply visits_trans; [|exact V]. eapply visits_steps; [exact Hg|]. intros d Hd.
    by apply durable_survives_l, Hk.
Qed.
End recover_ok.

(** ** Ends of a stream at which the restore loop breaks *)

Section breaks.
Context `{GL : GzipLaws} {P : Pebble}.
Context (newdb : path) (dbdir : string).

Lemma breaks_at_nothing hash : breaks_at newdb dbdir (MkReader [] None) hash.
Proof.
  intros st w Hrd _. unfold restore_step. rewrite Hrd, ReadFull_EOF by lia. by eexists.
Qed.

Lemma breaks_at_key_size n hash :
  0 < n ≤ maxKey → breaks_at newdb dbdir (MkReader (PutUint64 n) None) hash.
Proof.
  intros Hn st w Hrd _. unfold restore_step. rewrite Hrd.
  unfold maxKey in Hn. rewrite <-(app_nil_r (PutUint64 n)).
  rewrite ReadFull_app by apply len_PutUint64. cbv beta iota.
  rewrite <-(app_nil_r (PutUint64 n)), Uint64_Put by lia.
  rewrite decide_False by (unfold maxKey; lia). rewrite ReadFull_EOF by lia. by eexists.
Qed.

Lemma breaks_at_key k hash :
  len k ≤ maxKey → breaks_at newdb dbdir (MkReader (PutUint64 (len k) ++ k) None) hash.
Proof.
  intros Hk st w Hrd _. unfold restore_step. rewrite Hrd.
  unfold maxKey in Hk. pose proof (len_nonneg k).
  rewrite ReadFull_app by apply len_PutUint64. cbv beta iota.
  rewrite <-(app_nil_r (PutUint64 (len k))), Uint64_Put by lia.
  rewrite decide_False by (unfold maxKey; lia).
  rewrite ReadFull_all. cbv beta iota. rewrite ReadFull_EOF by lia. by eexists.
Qed.

Lemma breaks_at_value_size k n hash :
  len k ≤ maxKey → 0 < n ≤ maxAlloc →
  breaks_at newdb dbdir (MkReader (PutUint64 (len k) ++ k ++ PutUint64 n) None) hash.
Proof.
  intros Hk Hn st w Hrd _. unfold restore_step. rewrite Hrd.
  unfold maxKey, maxAlloc in *. pose proof (len_nonneg k).
  rewrite ReadFull_app by apply len_PutUint64. cbv beta iota.
  rewrite <-(app_nil_r (PutUint64 (len k))), Uint64_Put by lia.
  rewrite decide_False by (unfold maxKey; lia).
  rewrite ReadFull_app by done. cbv beta iota. rewrite <-(app_nil_r (PutUint64 n)).
  rewrite ReadFull_app by apply len_PutUint64. cbv beta iota.
  rewrite <-(app_nil_r (PutUint64 n)), Uint64_Put by lia.
  rewrite decide_False by (unfold maxAlloc; lia). rewrite ReadFull_EOF by lia. by eexists.
Qed.

(** The four places inside a record at which a cut goes unnoticed. *)
Definition blind_cut (kv : bytes * bytes) (j : Z) : Prop :=
  j = 0 ∨ j = 8 ∨ j = 8 + len kv.1 ∨ (j = 16 + len kv.1 ∧ compressed kv.2 ≠ []).

Lemma breaks_at_cut kv j hash :
  entry_ok kv → blind_cut kv j →
  breaks_at newdb dbdir (MkReader (take (Z.to_nat j) (record_bytes kv)) None) hash.
Proof.
  destruct kv as [k v]. intros [Hk Hv] Hj. unfold blind_cut in Hj.
  unfold record_bytes, raw_record. cbn [fst snd compress] in *.
  pose proof (length_le_put 8 (len k)) as L8. fold (PutUint64 (len k)) in L8.
  pose proof (len_nonneg k). pose proof (len_nonneg (compressed v)) as Hc0.
  destruct Hj as [->|[->|[->|[-> Hc]]]].
  - apply breaks_at_nothing.
  - rewrite take_app_length' by by rewrite L8.
    destruct (decide (k = [])) as [->|Hne].
    + rewrite <-(app_nil_r (PutUint64 _)). by apply breaks_at_key.
    + apply breaks_at_key_size. unfold len in *. destruct k; simpl in *; [done|lia].
  - rewrite (assoc_L (++)),  take_app_length' by (rewrite length_app, L8; unfold len; lia).
    by apply breaks_at_key.
  - set (g := PutUint64 (len (compressed v))).
    replace (PutUint64 (len k) ++ k ++ g ++ compressed v)
      with ((PutUint64 (len k) ++ k ++ g) ++ compressed v) by by rewrite <-!(assoc_L (++)).
    rewrite take_app_length'.
    2:{ rewrite !length_app, L8. unfold g, PutUint64. rewrite length_le_put. unfold len. lia. }
    apply breaks_at_value_size; [done|]. split; [|done].
    unfold len in *. destruct (compressed v); simpl in *; [done|lia].
Qed.
End breaks.

(** ** Starting a store *)

Section new_store.
Context `{PL : PebbleLaws}.
Context (dir : string).
Abbreviation base := (path_of dir).

(** The base directory can be used: nothing above it is a file, and what is
    in it has a file name. *)
Record base_ok (w : world) : Prop := {
  bo_above : ∀ q data s, below q base → d_fs (w_disk w) !! q ≠ Some (NFile data s);
  bo_root : p_comps base ≠ [];
  bo_names : ∀ k, is_Some (d_fs (w_disk w) !! child base k) → fname k;
}.

(** [os.MkdirAll(baseDir)]: the base directory is there, and what is in it is
    as before. *)
Lemma mkdir_base w :
  w_orc w = [] → base_ok w →
  ∃ w1, os_MkdirAll dir w = (Ok tt, w1) ∧ w_orc w1 = [] ∧ w_closed w1 = w_closed w ∧
        w_rand w1 = w_rand w ∧ w_clock w1 = w_clock w ∧ base_ok w1 ∧
        d_fs (w_disk w1) !! base = Some NDir ∧ d_dbs (w_disk w1) = d_dbs (w_disk w) ∧
        (∀ k q, below (child base k) q → d_fs (w_disk w1) !! q = d_fs (w_disk w) !! q) ∧
        (chain (w_disk w) base → w_disk w1 = w_disk w).
Proof.
  intros Ho [Ha Hr Hn]. rewrite os_MkdirAll_ok by done. eexists. split; [reflexivity|].
  cbn [upd w_orc w_closed w_rand w_clock w_disk d_fs d_dbs].
  assert (∀ k q, below (child base k) q →
            mkdirs (d_fs (w_disk w)) (prefixes base) !! q = d_fs (w_disk w) !! q) as Hoff.
  { intros k q Hq. apply (mkdirs_off (λ q, below q base)); [intros p; apply prefixes_below|].
    intros Hb. apply (not_below_child base k). by etrans. }
  do 4 (split; [done|]). split; [|split; [|split; [done|split; [done|]]]].
  - split; cbn [upd w_disk d_fs]; [|done|].
    + intros q data s Hq Hf. apply mkdirs_files in Hf. by eapply Ha.
    + intros k [x Hx]. rewrite (Hoff k) in Hx by apply below_refl. by apply Hn.
  - destruct (d_fs (w_disk w) !! base) as [[|data s]|] eqn:E.
    + by apply mkdirs_keep.
    + exfalso. by apply (Ha base data s (below_refl _)).
    + apply mkdirs_made; [by apply prefixes_self|done].
  - intros [-> ->]%mkdirs_chain. by destruct (w_disk w).
Qed.

(** A start on a disk that names the directory [n] serves what is in it. *)
Lemma newStore_reopen n m w :
  w_orc w = [] → base_ok w → fname n → n ≠ currentDBFilename → n ≠ updatingDBFilename →
  recoverable dir n m (w_disk w) →
  ∃ st w', newStore dir w = (Ok st, w') ∧ serves n m (MkSW st w') ∧
           baseDir st = dir ∧ st_closed st = false ∧ w_orc w' = [] ∧
           (durable dir n m (w_disk w) → durable dir n m (w_disk w')).
Proof.
  intros Ho Hbo Hn Hnc Hnu (Hr & Hd & db & Hdb & Hm). unfold newStore.
  destruct (mkdir_base w Ho Hbo) as (w1 & H1 & Ho1 & Hc1 & _ & _ & Hbo1 & Hb1 & Hdbs1 & Hin1 & Hch1).
  erewrite go_bind_ok by exact H1.
  rewrite <-(Hin1 currentDBFilename) in Hr by apply below_refl.
  rewrite <-(Hin1 n) in Hd by apply below_refl. rewrite <-Hdbs1 in Hdb.
  destruct (reopen_ok dir n true w1) as (d2 & tr & H2 & Hkeep & _ & Hr2 & Hu2 & Hout & Hold2);
    [done..|apply Hbo1|].
  rewrite Hd in H2. erewrite go_bind_ok by exact H2.
  destruct (Hkeep (child base n) (below_refl _)) as [E1 E2].
  assert (∀ q data s, below q base → d_fs d2 !! q ≠ Some (NFile data s)) as Ha2.
  { intros q data s Hq. rewrite Hout; [by apply Hbo1|].
    intros k Hk. apply (not_below_child base k). by etrans. }
  edestruct OpenPebbleDB_existing as (w3 & H3 & Ho3 & Hc3 & Hdbs3 & Hkeep3 & Hf3 & Hoff3 & Hch3);
    [| | | |erewrite go_bind_ok by exact H3].
  { done. }
  { rewrite path_of_Join by done. cbn [at_disk w_disk]. intros q data s Hq.
    apply below_child_cases in Hq as [Hq| ->]; [by apply Ha2|]. by rewrite E1, Hd. }
  { rewrite path_of_Join by done. etrans; [exact E1|done]. }
  { rewrite path_of_Join by done. etrans; [exact E2|done]. }
  rewrite path_of_Join in Hc3, Hoff3, Hch3 |- * by done. cbn [at_disk w_disk w_closed] in *.
  eexists _, w3. split; [reflexivity|]. split; [|split; [done|split; [done|split; [done|]]]].
  2:{ intros [[Hs Hok] (Hs2 & Hc & _)]. rewrite Hch1 in * by (intros q Hq; apply Hc; etrans; [exact Hq|apply below_child]).
      assert (∀ q, below q (child base n) → d_fs d2 !! q = d_fs (w_disk w) !! q) as Hfs2.
      { intros q Hq. apply below_child_cases in Hq as [Hq| ->]; [|done]. apply Hout.
        intros k Hk. apply (not_below_child base k). by etrans. }
      rewrite Hch3 by (intros q Hq Hq0; rewrite Hfs2 by done; by apply Hc).
      assert (settled d2 (child base n)) as Hs2'.
      { intros q Hq. rewrite Hold2 by by left. by apply Hs2. }
      split; [|split; [exact Hs2'|split; [intros q Hq Hq0; rewrite Hfs2 by done; by apply Hc|]]].
      - split; [intros q Hq; apply Hs2'; etrans; [exact Hq|apply below_child]|].
        intros x Hx. apply Hok. unfold entries in *. by rewrite Hr, <-Hr2, <-Hold2 by by right.
      - exists db. split; [|done]. by rewrite E2. }
  split; cbn [sw_store sw_world baseDir st_db]; try done.
  - apply Hkeep3. rewrite Hout; [done|]. intros k. apply not_below_child.
  - intros q data s Hq Hf. apply Hf3 in Hf. by eapply Ha2.
  - by apply Hkeep3.
  - rewrite Hoff3, Hu2; [done|]. by apply not_below_sibling, not_eq_sym.
  - apply Hkeep3. etrans; [exact E1|done].
  - rewrite Hc3. set_solver.
  - exists db. rewrite Hdbs3. split; [|done]. etrans; [exact E2|done].
Qed.

(** A first start serves the empty map. *)
Lemma newStore_fresh w :
  w_orc w = [] → base_ok w → name_free dir w →
  d_fs (w_disk w) !! child base currentDBFilename = None →
  d_fs (w_disk w) !! child base updatingDBFilename ≠ Some NDir →
  ∃ st w', newStore dir w = (Ok st, w') ∧ serves (next_name w) ∅ (MkSW st w') ∧
           baseDir st = dir ∧ st_closed st = false ∧ w_orc w' = [].
Proof.
  intros Ho Hbo [Hf1 Hf2] Hr Hu. unfold newStore.
  destruct (mkdir_base w Ho Hbo) as (w1 & H1 & Ho1 & Hc1 & Hrd1 & Hck1 & Hbo1 & Hb1 & Hdbs1 & Hin1 & _).
  erewrite go_bind_ok by exact H1.
  rewrite <-(Hin1 currentDBFilename) in Hr by apply below_refl.
  rewrite <-(Hin1 updatingDBFilename) in Hu by apply below_refl.
  rewrite <-(Hin1 (next_name w)) in Hf1 by apply below_refl. rewrite <-Hdbs1 in Hf2.
  destruct (next_name_marker w) as [Hm1 Hm2].
  assert (next_name w = random_name (uint 64 (default 0 (head (w_rand w1))))
                                    (int64 (default 0 (head (w_clock w1))))) as Hnm
    by by rewrite Hrd1, Hck1.
  destruct (fresh_ok dir w1 Ho1 Hb1 Hu Hr) as (d2 & tr & H2 & Hr2 & Hu2 & Hdbs2 & Hoff2).
  rewrite <-Hnm in H2, Hr2. erewrite go_bind_ok by exact H2.
  assert (∀ q, below q base → d_fs d2 !! q = d_fs (w_disk w1) !! q) as Ha2.
  { intros q Hq. apply Hoff2; intros ->; by eapply not_below_child. }
  edestruct OpenPebbleDB_fresh as (w3 & H3 & Ho3 & _ & _ & Hc3 & Hdbs3 & Hd3 & Hkeep3 & Hf3 & Hoff3);
    [| | | | |erewrite go_bind_ok by exact H3].
  { done. } { rewrite path_next. simpl. by destruct (clean_pieces _ _). }
  { rewrite path_next. cbn [w_disk]. intros q data s Hq.
    apply below_child_cases in Hq as [Hq| ->]; [rewrite Ha2 by done; by apply Hbo1|].
    rewrite Hoff2, Hf1 by by apply child_child_ne. done. }
  { rewrite path_next. cbn [w_disk]. by rewrite Hoff2, Hf1 by by apply child_child_ne. }
  { rewrite path_next. cbn [w_disk]. by rewrite Hdbs2. }
  rewrite path_next in Hc3, Hdbs3, Hd3, Hoff3 |- *. cbn [w_disk w_closed] in *.
  eexists _, w3. split; [reflexivity|]. split; [|done].
  split; cbn [sw_store sw_world baseDir st_db]; try done.
  - apply fname_random.
  - apply Hkeep3. rewrite Ha2; [done|apply below_refl].
  - intros q data s Hq Hf. apply Hf3 in Hf. rewrite Ha2 in Hf by done. by eapply Hbo1.
  - by apply Hkeep3.
  - rewrite Hoff3, Hu2; [done|]. by apply not_below_sibling, not_eq_sym.
  - rewrite Hc3. set_solver.
  - exists db_fresh. rewrite Hdbs3, lookup_insert_eq. split; [done|]. apply db_fresh_map.
Qed.
End new_store.

(** ** Theorems *)

(** The header that [saveSnapShot] writes. *)
Definition saved_header (nodeId : string) (lastIndex unix : Z) : SnapshotHeader :=
  MkHeader snapshotMagic snapshotVersion lastIndex unix nodeId 0.

Definition header_fits (nodeId : string) (lastIndex unix : Z) : Prop :=
  len (string_bytes nodeId) < 2 ^ 16 ∧ 0 ≤ lastIndex < 2 ^ 64 ∧ - 2 ^ 63 ≤ unix < 2 ^ 63.

Lemma saved_header_ok nodeId lastIndex unix :
  header_fits nodeId lastIndex unix → header_ok (saved_header nodeId lastIndex unix).
Proof. intros (? & ? & ?). unfold header_ok, snapshotVersion. simpl. repeat split; (done || lia). Qed.

Section store_theorems.
Context `{PL : PebbleLaws, !PebbleReliable _, GL : GzipLaws}.

Lemma recover_stream nodeId lastIndex unix l n m sw :
  let w := sw_world sw in
  let base := baseDir (sw_store sw) in
  serves n m sw → w_orc w = [] → name_free base w →
  header_fits nodeId lastIndex unix → Forall entry_ok l → NoDup l.*1 →
  ∃ sw', recoverSnapShot (MkReader (stream_bytes nodeId lastIndex unix l) None) sw =
           (Ok (saved_header nodeId lastIndex unix), sw') ∧
         restored (next_name w) (list_to_map l) sw sw' ∧
         (durable base n m (w_disk w) →
          visits (survives base n m (next_name w) (list_to_map l)) w (sw_world sw') ∧
          durable base (next_name w) (list_to_map l) (w_disk (sw_world sw'))).
Proof.
  intros w base Hsv Ho Hfree Hfit Hok Hnd. unfold stream_bytes.
  rewrite headerBuf_bytes by apply Hfit. rewrite <-(inserts_list_to_map l) by done.
  apply recoverSnapShot_ok; [done..|by apply saved_header_ok|done|].
  apply breaks_at_checksum, crc32_range.
Qed.

(** C9: restoring a stream that [saveSnapShot] wrote for the entries [l]
    succeeds, and the store then serves exactly the map of [l] from a new
    directory: the marker file names it, the old handle is closed and nothing
    is left of the old directory. The header comes back as it was written. *)
Theorem recoverSnapShot_restores nodeId lastIndex unix l n m sw :
  serves n m sw → w_orc (sw_world sw) = [] → name_free (baseDir (sw_store sw)) (sw_world sw) →
  header_fits nodeId lastIndex unix → Forall entry_ok l → NoDup l.*1 →
  ∃ sw', recoverSnapShot (MkReader (stream_bytes nodeId lastIndex unix l) None) sw =
           (Ok (saved_header nodeId lastIndex unix), sw') ∧
         restored (next_name (sw_world sw)) (list_to_map l) sw sw'.
Proof.
  intros Hsv Ho Hfree Hfit Hok Hnd.
  destruct (recover_stream nodeId lastIndex unix l n m sw) as (sw' & H & Hr & _); eauto.
Qed.

(** C10: a restore is atomic against crashes. The directories of a store and its
    current file have reached the disk. If the machine crashes at any disk that a
    restore goes through (data that was not synced is lost or torn, and of the
    directory entries that were made, renamed or removed since their directory was
    synced any may come back as they were), the next start succeeds, and serves
    either the map from before or the map of the stream; and what it serves has
    reached the disk again. *)
Theorem restore_is_crash_atomic nodeId lastIndex unix l n m sw r sw' tr d d' w2 :
  serves n m sw → durable (baseDir (sw_store sw)) n m (w_disk (sw_world sw)) →
  w_orc (sw_world sw) = [] → name_free (baseDir (sw_store sw)) (sw_world sw) →
  header_fits nodeId lastIndex unix → Forall entry_ok l → NoDup l.*1 →
  recoverSnapShot (MkReader (stream_bytes nodeId lastIndex unix l) None) sw = (r, sw') →
  w_trace (sw_world sw') = w_trace (sw_world sw) ++ tr → d ∈ tr → crash d d' →
  w_disk w2 = d' → w_orc w2 = [] → base_ok (baseDir (sw_store sw)) w2 →
  ∃ st w3, newStore (baseDir (sw_store sw)) w2 = (Ok st, w3) ∧
    ((serves n m (MkSW st w3) ∧ durable (baseDir (sw_store sw)) n m (w_disk w3)) ∨
     (serves (next_name (sw_world sw)) (list_to_map l) (MkSW st w3) ∧
      durable (baseDir (sw_store sw)) (next_name (sw_world sw)) (list_to_map l) (w_disk w3))).
Proof.
  intros Hsv Hdur Ho Hfree Hfit Hok Hnd Hrun Htr Hd Hcr Hw2 Ho2 Hbo.
  destruct (recover_stream nodeId lastIndex unix l n m sw) as (sw1 & H & _ & V); [done..|].
  rewrite H in Hrun. injection Hrun as <- <-. destruct (V Hdur) as [V' _].
  pose proof (visits_elem _ _ _ _ _ V' Htr Hd) as Hsurv. rewrite <-Hw2 in Hcr.
  destruct (next_name_marker (sw_world sw)) as [Hm1 Hm2].
  destruct (survives_crash _ _ _ _ _ _ _ Hsurv Hcr) as [Hrec|Hrec].
  - destruct (newStore_reopen _ n m w2 Ho2 Hbo) as (st & w3 & H3 & Hs & _ & _ & _ & Hk);
      [apply Hsv|apply Hsv|apply Hsv|by apply durable_recoverable|]. exists st, w3. split; [done|]. left. auto.
  - destruct (newStore_reopen _ (next_name (sw_world sw)) (list_to_map l) w2 Ho2 Hbo)
      as (st & w3 & H3 & Hs & _ & _ & _ & Hk); [apply fname_random|done|done|by apply durable_recoverable|].
    exists st, w3. split; [done|]. right. auto.
Qed.

(** C22: whatever the stream holds, however the reader, the engine and the
    system calls fail: a restore that fails before the switch leaves the store
    as it was. The store serves the same map from the same directory, and so
    does every disk on the way. *)
Theorem failed_load_keeps_store rd n m sw :
  serves n m sw → name_free (baseDir (sw_store sw)) (sw_world sw) →
  is_ok (recover_load (baseDir (sw_store sw)) rd (sw_world sw)).1 = false →
  let '(r, sw') := recoverSnapShot rd sw in
  is_ok r = false ∧ sw_store sw' = sw_store sw ∧ serves n m sw' ∧
  visits (recoverable (baseDir (sw_store sw)) n m) (sw_world sw) (sw_world sw').
Proof.
  intros Hsv Hfree Hfail. destruct (next_name_marker (sw_world sw)) as [Hm1 Hm2].
  pose proof (recover_load_grows (baseDir (sw_store sw)) rd (sw_world sw)) as Hg.
  pose proof (next_name_fresh n m sw Hsv Hfree) as Hne.
  assert (recoverSnapShot rd sw =
    (match (recover_load (baseDir (sw_store sw)) rd (sw_world sw)).1 with
     | Ok _ => NoFuel | Err e => Err e | Panic p => Panic p | NoFuel => NoFuel end,
     MkSW (sw_store sw) (recover_load (baseDir (sw_store sw)) rd (sw_world sw)).2)) as ->.
  { unfold recoverSnapShot, go_bind, the_store, on_world.
    destruct (recover_load _ rd (sw_world sw)) as [[a|e|p|] w1]; [done|done..]. }
  destruct (recover_load _ rd (sw_world sw)) as [rr w1]. cbn [fst snd] in *.
  split; [by destruct rr|]. split; [done|]. split.
  - apply (serves_grows n (next_name (sw_world sw)) m (sw_store sw) (sw_world sw) w1);
      [by destruct sw|done..].
  - eapply visits_steps; [exact Hg|]. intros d Hd.
    eapply recoverable_grows; [done..|]. by apply serves_recoverable.
Qed.

(** C23: one damaged byte does not get through. Take the records of a stream
    with their checksum, change one byte of them so that they still parse as
    records (in a key, in a compressed value, in a length): the restore
    returns an error, and the store serves what it served before. *)
Theorem damaged_byte_is_rejected h l l' p a b q n m sw :
  serves n m sw → w_orc (sw_world sw) = [] → name_free (baseDir (sw_store sw)) (sw_world sw) →
  header_ok h → Forall raw_ok l' →
  raw_bytes l = p ++ a :: q → raw_bytes l' = p ++ b :: q → a ≠ b →
  ∃ e sw',
    recoverSnapShot (MkReader (header_bytes h ++ raw_bytes l' ++ PutUint32 (crc32 (raw_bytes l))) None) sw
      = (Err e, sw') ∧ sw_store sw' = sw_store sw ∧ serves n m sw'.
Proof.
  intros Hsv Ho Hfree Hh Hok Hl Hl' Hab.
  set (rd := MkReader _ _). set (base := baseDir (sw_store sw)). set (w := sw_world sw).
  destruct (next_name_marker w) as [Hm1 Hm2].
  pose proof (next_name_fresh n m sw Hsv Hfree) as Hne. fold w in Hne.
  destruct (recover_load_opened n m sw h (raw_bytes l' ++ PutUint32 (crc32 (raw_bytes l))) Hsv Ho Hfree Hh)
    as (w2 & H2 & _ & Hcl2 & Hdb2 & _). fold base w rd in H2, Hcl2, Hdb2.
  destruct (load_records_mismatch (child (path_of base) (next_name w)) (Join base (next_name w))
              l' (crc32 (raw_bytes l)) w2 db_fresh) as (e & w3 & H3); [done| | | |done|].
  { apply crc32_range. }
  { rewrite Hl, Hl'. by intros ?%crc32_one_byte. }
  { rewrite Hcl2. set_solver. }
  rewrite (go_bind_err _ _ _ _ _ H3) in H2.
  pose proof (recover_load_grows base rd w) as Hg. rewrite H2 in Hg.
  exists e, (MkSW (sw_store sw) w3). split; [|split; [done|]].
  - unfold recoverSnapShot, go_bind, the_store, on_world. fold base w. by rewrite H2.
  - apply (serves_grows n (next_name w) m (sw_store sw) w w3); [by destruct sw|done..].
Qed.

(** C40: a stream that was cut short is taken for a complete one when the cut
    falls before a record, or inside one right after the key length, the key
    or the value length: the loop ends without looking at a checksum, the
    restore reports success and the store serves a part of the entries. *)
Theorem truncated_stream_is_accepted nodeId lastIndex unix l1 kv j n m sw :
  serves n m sw → w_orc (sw_world sw) = [] → name_free (baseDir (sw_store sw)) (sw_world sw) →
  header_fits nodeId lastIndex unix → Forall entry_ok l1 → entry_ok kv → NoDup l1.*1 →
  blind_cut kv j →
  let cut := headerBuf nodeId lastIndex unix ++ data_bytes l1 ++ take (Z.to_nat j) (record_bytes kv) in
  (∀ l2, cut `prefix_of` stream_bytes nodeId lastIndex unix (l1 ++ kv :: l2)) ∧
  ∃ sw', recoverSnapShot (MkReader cut None) sw = (Ok (saved_header nodeId lastIndex unix), sw') ∧
         serves (next_name (sw_world sw)) (list_to_map l1) sw'.
Proof.
  intros Hsv Ho Hfree Hfit Hok Hkv Hnd Hj cut. split.
  - intros l2. unfold cut, stream_bytes. rewrite data_bytes_app, data_bytes_cons, <-!(assoc_L (++)).
    apply prefix_app, prefix_app. rewrite <-(take_drop (Z.to_nat j) (record_bytes kv)) at 2.
    rewrite <-(assoc_L (++)). by apply prefix_app_r.
  - unfold cut. rewrite headerBuf_bytes by apply Hfit.
    destruct (recoverSnapShot_ok n m sw (saved_header nodeId lastIndex unix) l1
                (take (Z.to_nat j) (record_bytes kv))) as (sw' & H & Hr & _);
      [done|done|done|by apply saved_header_ok|done|by apply breaks_at_cut|].
    exists sw'. split; [exact H|]. rewrite <-(inserts_list_to_map l1) by done. apply Hr.
Qed.

(** the length of a value is not checked before the buffer for it is made.
    A stream with a value length above the largest allocation makes the
    restore panic (it is the node that goes down, not the restore that
    fails); the key length right before it is checked. *)
Theorem huge_value_length_panics h l k len_v rest n m sw :
  serves n m sw → w_orc (sw_world sw) = [] → name_free (baseDir (sw_store sw)) (sw_world sw) →
  header_ok h → Forall entry_ok l → len k ≤ maxKey → maxAlloc < len_v < 2 ^ 64 →
  (recoverSnapShot (MkReader (header_bytes h ++ data_bytes l ++
     PutUint64 (len k) ++ k ++ PutUint64 len_v ++ rest) None) sw).1 =
  Panic "makeslice: len out of range".
Proof.
  intros Hsv Ho Hfree Hh Hok Hk Hv. unfold maxKey, maxAlloc in *. pose proof (len_nonneg k).
  set (tail := PutUint64 (len k) ++ _). set (base := baseDir (sw_store sw)). set (w := sw_world sw).
  destruct (recover_load_opened n m sw h (data_bytes l ++ tail) Hsv Ho Hfree Hh)
    as (w2 & H2 & _ & Hcl2 & Hdb2 & _). fold base w in H2, Hcl2, Hdb2.
  set (new := child (path_of base) (next_name w)) in *.
  destruct (load_records_start new (Join base (next_name w)) (compress <$> l) tail None w2 db_fresh)
    as (st0 & w3 & f & H3 & Hrd0 & Hh0 & _ & Hl0); [rewrite Hcl2; set_solver|done|].
  rewrite db_fresh_map in Hl0. rewrite length_fmap in H3.
  destruct (restore_loop_loaded new (Join base (next_name w)) l tail None (S f) st0 w3 ∅ Hok Hrd0 Hl0)
    as (st & w4 & H4 & _ & _ & Hrd & _).
  assert ((restore_step new (Join base (next_name w)) st w4).1 = Panic "makeslice: len out of range") as Hs.
  { unfold restore_step. rewrite Hrd. unfold tail.
    rewrite ReadFull_app by apply len_PutUint64. cbv beta iota.
    rewrite <-(app_nil_r (PutUint64 (len k))), Uint64_Put by lia.
    rewrite decide_False by (unfold maxKey; lia).
    rewrite ReadFull_app by done. cbv beta iota.
    rewrite ReadFull_app by apply len_PutUint64. cbv beta iota.
    rewrite <-(app_nil_r (PutUint64 len_v)), Uint64_Put by lia.
    by rewrite decide_True by (unfold maxAlloc; lia). }
  unfold recoverSnapShot, the_store, on_world, go_bind at 1. fold base. unfold go_bind at 1. fold w.
  rewrite H2. unfold go_bind at 1. unfold data_bytes. rewrite H3. unfold go_bind at 1.
  rewrite H4. cbn [restore_loop]. unfold go_bind at 1.
  destruct (restore_step new _ st w4) as [r w5]. simpl in Hs. by rewrite Hs.
Qed.
End store_theorems.

(** ** Witnesses *)

(** The node of [demo_world2], serving one entry from [/d/a]. *)
Definition demo_map : gmap bytes bytes := {[ string_bytes "k" := string_bytes "v" ]}.
Definition demo_store : sworld (P := Mem no_fault) :=
  MkSW (MkStore "/d" (path_of "/d/a") false) (demo_world2 "/d/a").

Lemma demo_serves : serves "a" demo_map demo_store.
Proof.
  split; [by vm_compute|by split|by vm_compute| |by vm_compute..| |].
  - intros q data s Hq Hf. cbn [sw_world demo_store demo_world2 w_disk demo_disk2 d_fs] in Hf.
    repeat (apply lookup_insert_Some in Hf as [[Hp Hd]|[_ Hf]]; [try done|]);
      [|by rewrite lookup_empty in Hf].
    subst q. destruct Hq as [_ Hq]. vm_compute in Hq. destruct Hq as [k Hk].
    by apply (f_equal length) in Hk.
  - apply not_elem_of_empty.
  - exists demo_map. split; [|done]. apply lookup_insert_eq.
Qed.

Lemma demo_free : name_free "/d" (sw_world demo_store).
Proof. split; by vm_compute. Qed.

Lemma demo_fits : header_fits "node1" 7 1700000000.
Proof. unfold header_fits. vm_compute. repeat split; congruence. Qed.

Lemma demo_entries_ok : Forall (entry_ok (G := Stored)) demo_entries_kv.
Proof. repeat constructor; vm_compute; congruence. Qed.

Lemma demo_entries_nodup : NoDup demo_entries_kv.*1.
Proof. apply (bool_decide_unpack _). by vm_compute. Qed.

Abbreviation demo_stream := (stream_bytes (G := Stored) "node1" 7 1700000000 demo_entries_kv).

Lemma recoverSnapShot_restores_witness :
  ∃ sw', recoverSnapShot (G := Stored) (MkReader demo_stream None) demo_store =
           (Ok (saved_header "node1" 7 1700000000), sw') ∧
         serves "7_1700000000" (list_to_map demo_entries_kv) sw'.
Proof.
  destruct (recoverSnapShot_restores (GL := stored_laws) "node1" 7 1700000000 demo_entries_kv "a" demo_map demo_store)
    as (sw' & H & Hr);
    [exact demo_serves|reflexivity|exact demo_free|exact demo_fits|exact demo_entries_ok
    |exact demo_entries_nodup|].
  exact (ex_intro _ sw' (conj H (proj1 Hr))).
Defined.

Lemma failed_load_keeps_store_witness :
  let '(r, sw') := recoverSnapShot (G := Stored) (MkReader [] None) demo_store in
  is_ok r = false ∧ serves "a" demo_map sw'.
Proof.
  pose proof (failed_load_keeps_store (G := Stored) (MkReader [] None) "a" demo_map demo_store
    demo_serves demo_free eq_refl) as H.
  destruct (recoverSnapShot _ demo_store) as [r sw'].
  exact (conj (proj1 H) (proj1 (proj2 (proj2 H)))).
Defined.

(** The value of [a] damaged in its last byte. *)
Lemma damaged_byte_is_rejected_witness :
  let raw g := [(string_bytes "a", byte_of_Z 0x1f :: string_bytes g)] in
  ∃ e sw',
    recoverSnapShot (G := Stored) (MkReader (header_bytes (saved_header "node1" 7 1700000000) ++
       raw_bytes (raw "2") ++ PutUint32 (crc32 (raw_bytes (raw "1")))) None) demo_store = (Err e, sw') ∧
    serves "a" demo_map sw'.
Proof.
  intros raw.
  destruct (damaged_byte_is_rejected (GL := stored_laws) (saved_header "node1" 7 1700000000)
    (raw "1") (raw "2")
    (PutUint64 1 ++ string_bytes "a" ++ PutUint64 2 ++ [byte_of_Z 0x1f])
    (byte_of_Z 0x31) (byte_of_Z 0x32) [] "a" demo_map demo_store) as (e & sw' & H & _ & Hs).
  - exact demo_serves.
  - reflexivity.
  - exact demo_free.
  - apply saved_header_ok, demo_fits.
  - repeat constructor; vm_compute; congruence.
  - vm_compute. reflexivity.
  - vm_compute. reflexivity.
  - vm_compute. congruence.
  - exact (ex_intro _ e (ex_intro _ sw' (conj H Hs))).
Defined.

(** The stream of two entries, cut before the second one. *)
Lemma truncated_stream_is_accepted_witness :
  let cut := headerBuf "node1" 7 1700000000 ++
             data_bytes (G := Stored) [(string_bytes "a", string_bytes "1")] in
  ∃ sw', recoverSnapShot (G := Stored) (MkReader cut None) demo_store =
           (Ok (saved_header "node1" 7 1700000000), sw') ∧
         serves "7_1700000000" {[ string_bytes "a" := string_bytes "1" ]} sw'.
Proof.
  destruct (truncated_stream_is_accepted (GL := stored_laws) "node1" 7 1700000000
    [(string_bytes "a", string_bytes "1")] (string_bytes "b", string_bytes "22") 0 "a" demo_map demo_store)
    as (_ & sw' & H & Hs).
  - exact demo_serves.
  - reflexivity.
  - exact demo_free.
  - exact demo_fits.
  - repeat constructor; vm_compute; congruence.
  - split; vm_compute; congruence.
  - repeat constructor. by intros ?%elem_of_nil.
  - left. reflexivity.
  - exact (ex_intro _ sw' (conj H Hs)).
Defined.

Lemma huge_value_length_panics_witness :
  (recoverSnapShot (G := Stored) (MkReader (header_bytes (saved_header "node1" 7 1700000000) ++
     data_bytes (G := Stored) demo_entries_kv ++
     PutUint64 1 ++ string_bytes "c" ++ PutUint64 (2 ^ 63) ++ []) None) demo_store).1 =
  Panic "makeslice: len out of range".
Proof.
  apply (huge_value_length_panics (GL := stored_laws) (saved_header "node1" 7 1700000000)
    demo_entries_kv (string_bytes "c") (2 ^ 63) [] "a" demo_map demo_store).
  - exact demo_serves.
  - reflexivity.
  - exact demo_free.
  - apply saved_header_ok, demo_fits.
  - exact demo_entries_ok.
  - vm_compute. congruence.
  - unfold maxAlloc. lia.
Defined.

(** An engine that refuses to write the key [b], and the whole restore on it:
    the restore reports success, and neither entry is there. *)
Definition bad_b (k : bytes) : bool := bool_decide (k = string_bytes "b").

Definition demo_store_bad : sworld (P := Mem bad_b) :=
  MkSW (MkStore "/d" (path_of "/d/a") false)
    (MkWorld (MkDisk (<[path_of "/d" := NDir]> (<[path_of "/d/a" := NDir]>
       (<[path_of "/d/pebble.running" := NFile (dirname_record "/d/a") true]> ∅)))
       (<[path_of "/d/a" := ∅]> ∅) ∅) ∅ [] [7] [1700000000] []).

Definition demo_batch : Batch (Pebble := Mem bad_b) :=
  ([(string_bytes "b", Some (string_bytes "22")); (string_bytes "a", Some (string_bytes "1"))]
   : mem_batch).

Lemma failed_commit_is_dropped_witness :
  (∃ b' w', wb_Commit (P := Mem bad_b)
              (MkWB demo_batch (path_of "/d/a")) (sw_world demo_store_bad) = (Ok (MkWB b' (path_of "/d/a")), w') ∧
            d_dbs (w_disk w') !! path_of "/d/a" = Some ∅) ∧
  let run := recoverSnapShot (P := Mem bad_b) (G := Stored) (MkReader demo_stream None) demo_store_bad in
  run.1 = Ok (saved_header "node1" 7 1700000000) ∧
  (getBytes (P := Mem bad_b) (string_bytes "a") run.2).1 = Ok [].
Proof.
  split; [|vm_compute; split; reflexivity].
  destruct (failed_commit_is_dropped (PL := mem_laws bad_b) demo_batch
    (path_of "/d/a") (sw_world demo_store_bad) ∅ (Errno 5) ∅) as (b' & w' & H & Hd & _).
  - by intros ?%elem_of_empty.
  - apply lookup_insert_eq.
  - vm_compute. reflexivity.
  - exact (ex_intro _ b' (ex_intro _ w' (conj H Hd))).
Defined.

(** A node whose [k]-th system call from now on fails. *)
Definition demo_store_fault (k : nat) (e : error) : sworld (P := Mem no_fault) :=
  MkSW (MkStore "/d" (path_of "/d/a") false)
    (MkWorld (demo_disk2 "/d/a") ∅ (replicate k None ++ [Some e]) [7] [1700000000] []).

(** [replaceCurrentDBFile] renames first and syncs the directory after. When
    that sync fails, the restore deletes the new database although the marker
    file already names it: the restore reports the error and the node still
    serves the old database, but the next start deletes the old database as a
    leftover and then refuses to start. *)
Theorem failed_dir_sync_loses_databases e :
  let run := recoverSnapShot (G := Stored) (MkReader demo_stream None) (demo_store_fault 16 e) in
  let w2 := MkWorld (w_disk (sw_world run.2)) ∅ [] [8] [1700000001] [] in
  run.1 = Err e ∧
  (getBytes (string_bytes "k") run.2).1 = Ok (string_bytes "v") ∧
  (newStore "/d" w2).1 = Err (Errorf "db dir unexpectedly deleted" []) ∧
  d_dbs (w_disk (newStore "/d" w2).2) !! path_of "/d/a" = None.
Proof. vm_compute. repeat split; reflexivity. Qed.

Lemma demo_names k : is_Some (d_fs (demo_disk2 "/d/a") !! child (path_of "/d") k) → fname k.
Proof. revert k. demo_entries. Qed.

Lemma demo_durable : durable "/d" "a" demo_map (w_disk (sw_world demo_store)).
Proof.
  split; [|split; [|split]].
  - apply settled_marker; [intros q _; apply lookup_empty|by vm_compute].
  - intros q _. apply lookup_empty.
  - intros q Hq Hr. apply below_child_cases in Hq as [Hq| ->]; [|by vm_compute].
    destruct Hq as [Hq1 [k Hk]]. destruct q as [r cs]. cbn in *. subst r.
    destruct cs as [|c [|c2 cs]]; [done| |by destruct k]. injection Hk as <- _. by vm_compute.
  - eexists. split; [by vm_compute|reflexivity].
Qed.

(** The entry [p] comes back as it was, everything else had reached the disk. *)
Definition with_old (p : path) (data : bytes) (d : disk (P := Mem no_fault)) : disk (P := Mem no_fault) :=
  MkDisk (<[p := NFile data true]> (d_fs (sync_all d))) (d_dbs d) ∅.

Lemma crash_with_old p data d : Some (NFile data true) ∈ default [] (d_old d !! p) → crash d (with_old p data d).
Proof.
  intros Hin. destruct (crash_sync_all d) as [_ Hs]. split; [done|]. intros q Hq. split; [|done].
  destruct (decide (q = p)) as [->|Hne].
  - exists (Some (NFile data true)). split; [by right|]. cbn [with_old d_fs]. by rewrite lookup_insert_eq.
  - cbn [with_old d_fs]. rewrite lookup_insert_ne by done. apply Hs, Hq.
Qed.

(** A node that is killed in the middle of a restore can lose everything in a later
    crash. The process is killed after the current file was renamed and before
    its directory was synced. The start that follows finds the new record,
    removes the old database as a leftover and never syncs the directory
    ([cleanupNodeDataDir], fsm/utils.go); if the machine crashes then, the old
    record may come back, which names the database that is gone, and the node
    does not start any more. *)
Theorem killed_restore_is_not_durable :
  let killed := nth 18 (w_trace (sw_world (recoverSnapShot (G := Stored) (MkReader demo_stream None) demo_store).2))
                  (demo_disk2 "/d/a") in
  let start := newStore "/d" (MkWorld killed ∅ [] [8] [1700000001] []) in
  is_ok start.1 = true ∧
  ∃ d, crash (w_disk start.2) d ∧
       (newStore "/d" (MkWorld d ∅ [] [9] [1700000002] [])).1 = Err (Errorf "db dir unexpectedly deleted" []).
Proof.
  intros killed start. split; [vm_compute; reflexivity|].
  exists (with_old (child (path_of "/d") currentDBFilename) (dirname_record "/d/a") (w_disk start.2)).
  split; [|vm_compute; reflexivity]. apply crash_with_old.
  assert (bool_decide (Some (NFile (dirname_record "/d/a") true) ∈
    default [] (d_old (w_disk start.2) !! child (path_of "/d") currentDBFilename)) = true) as H
    by (vm_compute; reflexivity).
  exact (bool_decide_eq_true_1 _ H).
Qed.

(** The restore of [demo_stream] on [demo_store], and a crash at its very first
    disk. *)
Lemma restore_is_crash_atomic_witness :
  let run := recoverSnapShot (G := Stored) (MkReader demo_stream None) demo_store in
  let d := nth 0 (w_trace (sw_world run.2)) (demo_disk2 "/d/a") in
  let w2 := MkWorld (sync_all d) ∅ [] [8] [1700000001] [] in
  ∃ st w3, newStore "/d" w2 = (Ok st, w3) ∧
    ((serves "a" demo_map (MkSW st w3) ∧ durable "/d" "a" demo_map (w_disk w3)) ∨
     (serves "7_1700000000" (list_to_map demo_entries_kv) (MkSW st w3) ∧
      durable "/d" "7_1700000000" (list_to_map demo_entries_kv) (w_disk w3))).
Proof.
  intros run d w2.
  apply (restore_is_crash_atomic (GL := stored_laws) "node1" 7 1700000000 demo_entries_kv "a" demo_map demo_store
    run.1 run.2 (w_trace (sw_world run.2)) d (sync_all d) w2).
  - exact demo_serves.
  - exact demo_durable.
  - reflexivity.
  - exact demo_free.
  - exact demo_fits.
  - exact demo_entries_ok.
  - exact demo_entries_nodup.
  - apply surjective_pairing.
  - reflexivity.
  - apply list_elem_of_In, nth_In. vm_compute. lia.
  - apply crash_sync_all.
  - reflexivity.
  - reflexivity.
  - assert (d = demo_disk2 "/d/a") as Hd by reflexivity.
    split; [|by vm_compute|].
    + intros q data s Hq. cbn [w2 w_disk sync_all d_fs]. rewrite lookup_fmap, Hd.
      intros ([|data' s'] & Hf & Hx)%fmap_Some; [done|]. by eapply (sv_above _ _ _ demo_serves).
    + intros k [x Hx]. cbn [w2 w_disk sync_all d_fs] in Hx. rewrite lookup_fmap, Hd in Hx.
      apply fmap_Some in Hx as (x' & Hx & _). apply demo_names. by exists x'.
Defined.
