(* ===== verification/Fsm.v ===== *)
(** * Fsm.v: fsm/fsm.go and fsm/apply.go, the replicated state machine.

    Raft calls [Apply] with each committed log entry, [Snapshot] and [Persist]
    to compact its log and [Restore] to replace the state. The state machine
    adds to the store an index, the channel that a restore closes to wake the
    blocking queries, and metrics. *)
From S2P Require Import Prelude Binary Paths Pebble FileSystem DataDir Snapshot Json Store.

(** The command types; a command of any other type is undefined. *)
Definition Query : Z := 0.
Definition Insert : Z := 1.

Record CommandResponse := MkResponse { Val : bytes; RespError : option error }.

#[global] Instance CommandResponse_eq_dec : EqDecision CommandResponse.
Proof. solve_decision. Defined.

(** [val, err := m; return &CommandResponse{Val: val, Error: err}] *)
Definition respond {S} (m : GoM S bytes) : GoM S CommandResponse :=
  go_try m (λ r, go_ret (match r with
                         | inl v => MkResponse v None
                         | inr e => MkResponse [] (Some e)
                         end)).

Section apply.
Context {P : Pebble}.

(** The error of [batch.Set] is not looked at. *)
Definition insert (data : bytes) : GoM sworld unit :=
  match Unmarshal_SetPayload data with
  | Ok sp =>
      s <- the_store ;;
      b <- batch ;;
      let cf := getColumnFamily cf_default in
      let '(_, b) := batch_Set b (buildColumnFamilyKey cf (Key sp)) (Value sp) in
      write (st_db s) b
  | Err e => go_err (Errorf "Could not parse payload" [])
  | Panic m => go_panic m
  | NoFuel => go_lift NoFuel
  end.

Definition query (key : bytes) : GoM sworld bytes :=
  closed <- isclosed ;;
  if closed : bool then go_err ErrClosed
  else
    let cf := getColumnFamily cf_default in
    getBytes (buildColumnFamilyKey cf key).

Definition applyCommand (data : bytes) : GoM sworld CommandResponse :=
  match Unmarshal_Command data with
  | Ok c =>
      if decide (Type_ c = Query) then respond (query (Payload c))
      else if decide (Type_ c = Insert) then respond (insert (Payload c) ;; go_ret [])
      else go_ret (MkResponse [] (Some (Errorf "command is undefined" [])))
  | Err e => go_ret (MkResponse [] (Some e))
  | Panic m => go_panic m
  | NoFuel => go_lift NoFuel
  end.
End apply.

(** ** The state machine *)

(** Times and durations are in nanoseconds. *)
Record SnapshotMetrics := MkMetrics {
  LastSnapshotDuration : Z;
  LastSnapshotSize : Z;
  LastSnapshotRecords : Z;
  LastSnapshotTime : Z;
  LastRestoreDuration : Z;
  LastRestoreTime : Z;
  SnapshotCount : Z;
  RestoreCount : Z;
}.

(** A channel is a number; closing is the only thing that happens to it. *)
Record chans := MkChans { ch_next : nat; ch_closed : gset nat }.

Record StateMachine := MkSM {
  raftAddr : string;
  nodeId : string;
  fsmIndex : Z;
  abandonCh : nat;
  metrics : SnapshotMetrics;
}.

Record raft_Log := MkLog { Index : Z; Data : bytes }.

Section fsm.
Context {P : Pebble} {G : Gzip}.

(** The state machine, its store and the world around them. *)
Record fworld := MkFW { fw_sm : StateMachine; fw_sw : sworld; fw_ch : chans }.

Definition on_store {A} (m : GoM sworld A) : GoM fworld A :=
  λ s, let '(r, sw) := m (fw_sw s) in (r, MkFW (fw_sm s) sw (fw_ch s)).
Definition the_sm : GoM fworld StateMachine := λ s, (Ok (fw_sm s), s).
Definition set_sm (sm : StateMachine) : GoM fworld unit :=
  λ s, (Ok tt, MkFW sm (fw_sw s) (fw_ch s)).

Definition set_index (sm : StateMachine) (i : Z) : StateMachine :=
  MkSM (raftAddr sm) (nodeId sm) i (abandonCh sm) (metrics sm).
Definition set_metrics (sm : StateMachine) (m : SnapshotMetrics) : StateMachine :=
  MkSM (raftAddr sm) (nodeId sm) (fsmIndex sm) (abandonCh sm) m.

Definition chan_make : GoM fworld nat :=
  λ s, (Ok (ch_next (fw_ch s)),
        MkFW (fw_sm s) (fw_sw s) (MkChans (S (ch_next (fw_ch s))) (ch_closed (fw_ch s)))).
Definition chan_close (c : nat) : GoM fworld unit :=
  λ s, if decide (c ∈ ch_closed (fw_ch s)) then (Panic "close of closed channel", s)
       else (Ok tt, MkFW (fw_sm s) (fw_sw s) (MkChans (ch_next (fw_ch s)) ({[c]} ∪ ch_closed (fw_ch s)))).

Definition NewStateMachine (addr id dir : string) : GoM world fworld :=
  st <- newStore dir ;;
  λ w, (Ok (MkFW (MkSM addr id 0 0%nat (MkMetrics 0 0 0 0 0 0 0 0)) (MkSW st w) (MkChans 1 ∅)), w).

Definition GetFsmIndex : GoM fworld Z := sm <- the_sm ;; go_ret (fsmIndex sm).

Definition UpdateFsmIndex (index : Z) : GoM fworld unit :=
  sm <- the_sm ;;
  if decide (fsmIndex sm < index) then set_sm (set_index sm index) else go_ret tt.

Definition ReadLocal (key : bytes) : GoM fworld CommandResponse := on_store (respond (query key)).

(** What [Stats] puts into its map. *)
Record fsm_stats := MkStats {
  stat_index : Z; stat_dir : string; stat_dir_size : Z; stat_metrics : SnapshotMetrics }.

Definition Stats : GoM fworld fsm_stats :=
  s <- on_store the_store ;;
  dirSz <- on_store (on_world (DirSize (baseDir s))) ;;
  sm <- the_sm ;;
  go_ret (MkStats (fsmIndex sm) (baseDir s) dirSz (metrics sm)).

Definition Apply (log : raft_Log) : GoM fworld CommandResponse :=
  closed <- on_store isclosed ;;
  if closed : bool then go_ret (MkResponse [] (Some ErrClosed))
  else
    sm <- the_sm ;;
    set_sm (set_index sm (Index log)) ;;
    on_store (applyCommand (Data log)).

Record fsmSnapshot := MkFsmSnapshot { fs_snapshot : Snapshot; fs_lastIndex : Z; fs_startTime : Z }.

(** [now] is what the clock says. *)
Definition fsm_Snapshot (now : Z) : GoM fworld fsmSnapshot :=
  closed <- on_store isclosed ;;
  if closed : bool then go_err ErrClosed
  else
    snap <- on_store getSnapshot ;;
    sm <- the_sm ;;
    go_ret (MkFsmSnapshot snap (fsmIndex sm) now).

(** [Persist] writes to the sink; then it updates the metrics. [unix] and [dur]
    are the clock readings of [saveSnapShot], [now] the one after it. *)
Definition Persist (fs : fsmSnapshot) (unix dur now : Z) : GoM (fworld * sink) unit :=
  λ '(s, k),
    match saveSnapShot (nodeId (fw_sm s)) (fs_lastIndex fs) (fs_snapshot fs) unix dur k with
    | (Ok result, k') =>
        let m := metrics (fw_sm s) in
        let m' := MkMetrics (now - fs_startTime fs) (Size result) (Records result) now
                    (LastRestoreDuration m) (LastRestoreTime m)
                    (uint 64 (SnapshotCount m + 1)) (RestoreCount m) in
        (Ok tt, (MkFW (set_metrics (fw_sm s) m') (fw_sw s) (fw_ch s), k'))
    | (Err e, k') => (Err e, (s, k'))
    | (Panic p, k') => (Panic p, (s, k'))
    | (NoFuel, k') => (NoFuel, (s, k'))
    end.

(** Closes the current channel after a new one has taken its place. *)
Definition abandon : GoM fworld unit :=
  sm <- the_sm ;;
  let oldCh := abandonCh sm in
  newCh <- chan_make ;;
  set_sm (MkSM (raftAddr sm) (nodeId sm) (fsmIndex sm) newCh (metrics sm)) ;;
  chan_close oldCh.

(** [start] and [now] are the clock readings around the recovery. *)
Definition Restore (rd : reader) (start now : Z) : GoM fworld unit :=
  closed <- on_store isclosed ;;
  if closed : bool then go_err ErrClosed
  else
    header <- on_store (recoverSnapShot rd) ;;
    sm <- the_sm ;;
    (if decide (LastIndex header > 0) then set_sm (set_index sm (LastIndex header)) else go_ret tt) ;;
    sm <- the_sm ;;
    let m := metrics sm in
    set_sm (set_metrics sm
      (MkMetrics (LastSnapshotDuration m) (LastSnapshotSize m) (LastSnapshotRecords m)
         (LastSnapshotTime m) (now - start) now (SnapshotCount m) (uint 64 (RestoreCount m + 1)))) ;;
    abandon.

Definition Close : GoM fworld unit :=
  closed <- on_store isclosed ;;
  if closed : bool then go_ret tt else on_store close.
End fsm.

(** ** The abstract state machine

    What the log means: a map from keys to values, changed by the insert
    commands; every other entry only gets a response. *)

Definition cf_key (key : bytes) : bytes := buildColumnFamilyKey (getColumnFamily cf_default) key.

Definition spec_apply (m : gmap bytes bytes) (data : bytes) : CommandResponse * gmap bytes bytes :=
  match Unmarshal_Command data with
  | Ok c =>
      if decide (Type_ c = Query) then (MkResponse (default [] (m !! cf_key (Payload c))) None, m)
      else if decide (Type_ c = Insert) then
        match Unmarshal_SetPayload (Payload c) with
        | Ok sp => (MkResponse [] None, <[cf_key (Key sp) := Value sp]> m)
        | _ => (MkResponse [] (Some (Errorf "Could not parse payload" [])), m)
        end
      else (MkResponse [] (Some (Errorf "command is undefined" [])), m)
  | Err e => (MkResponse [] (Some e), m)
  | _ => (MkResponse [] None, m)
  end.

Fixpoint spec_run (m : gmap bytes bytes) (logs : list raft_Log) : list CommandResponse * gmap bytes bytes :=
  match logs with
  | [] => ([], m)
  | log :: logs =>
      let '(r, m1) := spec_apply m (Data log) in
      let '(rs, m2) := spec_run m1 logs in (r :: rs, m2)
  end.

(** ** Lemmas *)

Lemma unmarshal_cases {A} (zero : A) f data :
  (∃ a, unmarshal zero f data = Ok a) ∨ (∃ e, unmarshal zero f data = Err e).
Proof.
  unfold unmarshal. destruct (parse data) as [[]|]; eauto.
  destruct (f zero l) as [a [e|]]; eauto.
Qed.

Section fsm_ok.
Context `{PL : PebbleLaws, !PebbleReliable _, GL : GzipLaws}.

(** Writing through the current handle keeps the invariant. *)
Lemma serves_write n m m' st w w' db' :
  serves n m (MkSW st w) → only_db (st_db st) w w' →
  d_dbs (w_disk w') !! st_db st = Some db' → db_map db' = m' →
  serves n m' (MkSW st w').
Proof.
  intros [S1 S2 S3 S4 S5 S6 S7 S8 S9 S10] (O1 & O2 & _ & _ & _ & _) Hd Hm. simpl in *.
  split; cbn [sw_store sw_world]; rewrite ?O1, ?O2; eauto.
Qed.

(** The state of an open state machine that serves [m]. *)
Definition running (n : string) (m : gmap bytes bytes) (fw : fworld) : Prop :=
  serves n m (fw_sw fw) ∧ st_closed (sw_store (fw_sw fw)) = false.

Lemma isclosed_running n m sm sw ch :
  running n m (MkFW sm sw ch) → on_store isclosed (MkFW sm sw ch) = (Ok false, MkFW sm sw ch).
Proof. intros [_ Hc]. unfold on_store, isclosed, go_bind, the_store, go_ret. simpl in *. by rewrite Hc. Qed.

(** Reading gives the value of the map, or the empty value. *)
Lemma query_ok key n m sw :
  serves n m sw → st_closed (sw_store sw) = false →
  ∃ w', query key sw = (Ok (default [] (m !! cf_key key)), MkSW (sw_store sw) w') ∧
        serves n m (MkSW (sw_store sw) w') ∧ only_db (st_db (sw_store sw)) (sw_world sw) w'.
Proof.
  intros Hsv Hcl. destruct sw as [st w]. simpl in *.
  pose proof Hsv as [_ _ _ _ _ _ _ _ Hop (db & Hdb & Hm)]. simpl in *.
  unfold query, isclosed. rewrite go_bind_assoc. erewrite go_bind_ok by reflexivity.
  erewrite go_bind_ok by reflexivity. cbn [sw_store]. rewrite Hcl.
  unfold getBytes. erewrite go_bind_ok by reflexivity. cbn [sw_store]. rewrite Hcl.
  fold (cf_key key).
  destruct (with_db_ok (st_db st) (λ d,
         match db_Get d (cf_key key) with
         | inr ErrNotFound => (Ok [], d)
         | inr e => (Err e, d)
         | inl val => (Ok val, d)
         end) w db (Ok (default [] (m !! cf_key key))) db Hop Hdb) as (w' & H & Ho & Hd).
  { rewrite db_Get_lookup, Hm. by destruct (m !! cf_key key). }
  exists w'. split; [|split; [by eapply serves_write|done]].
  exact (on_world_ok _ (MkSW st w) _ _ H).
Qed.

(** An insert adds one entry. *)
Lemma insert_ok data sp n m sw :
  serves n m sw → Unmarshal_SetPayload data = Ok sp →
  ∃ w', insert data sw = (Ok tt, MkSW (sw_store sw) w') ∧
        serves n (<[cf_key (Key sp) := Value sp]> m) (MkSW (sw_store sw) w') ∧
        only_db (st_db (sw_store sw)) (sw_world sw) w'.
Proof.
  intros Hsv Hu. destruct sw as [st w]. simpl in *.
  pose proof Hsv as [_ _ _ _ _ _ _ _ Hop (db & Hdb & Hm)]. simpl in *.
  unfold insert. rewrite Hu. erewrite go_bind_ok by reflexivity.
  destruct (with_db_ok (st_db st) (λ d, (Ok (db_NewBatch d), d)) w db _ _ Hop Hdb eq_refl)
    as (w1 & H1 & Ho1 & Hd1).
  erewrite go_bind_ok.
  2:{ unfold batch. erewrite go_bind_ok by reflexivity. exact (on_world_ok _ (MkSW st w) _ _ H1). }
  cbv zeta. fold (cf_key (Key sp)).
  destruct (batch_Set_reliable (db_NewBatch db) (cf_key (Key sp)) (Value sp)) as (b & -> & Hb).
  destruct (batch_Commit_reliable db b) as (db' & Hc & Hm').
  destruct (with_db_ok (st_db st) (λ d, let '(e, d') := batch_Commit d b in (opt_err e, d'))
              w1 db (Ok tt) db') as (w2 & H2 & Ho2 & Hd2);
    [by destruct Ho1 as (_ & -> & _)|done|by rewrite Hc|].
  exists w2. split; [exact (on_world_ok _ (MkSW st w1) _ _ H2)|].
  assert (only_db (st_db st) w w2) as Ho by by etrans.
  split; [|done]. eapply serves_write; [done..|]. by rewrite Hm', Hb, db_NewBatch_map, Hm.
Qed.

(** [applyCommand] does what the abstract machine says. *)
Lemma applyCommand_ok data n m sw :
  serves n m sw → st_closed (sw_store sw) = false →
  ∃ w', applyCommand data sw = (Ok (spec_apply m data).1, MkSW (sw_store sw) w') ∧
        serves n (spec_apply m data).2 (MkSW (sw_store sw) w') ∧
        only_db (st_db (sw_store sw)) (sw_world sw) w'.
Proof.
  intros Hsv Hcl. unfold applyCommand, spec_apply.
  assert (MkSW (sw_store sw) (sw_world sw) = sw) as Hsw by by destruct sw.
  assert (∀ r : CommandResponse, ∃ w', go_ret r sw = (Ok r, MkSW (sw_store sw) w') ∧
            serves n m (MkSW (sw_store sw) w') ∧ only_db (st_db (sw_store sw)) (sw_world sw) w') as Hret.
  { intros r. exists (sw_world sw). by rewrite Hsw. }
  destruct (unmarshal_cases (MkCommand 0 []) store_command data) as [[c Hc]|[e He]];
    fold Unmarshal_Command in *; [rewrite Hc|rewrite He; apply Hret].
  case_decide as Hq; [|case_decide as Hi; [|apply Hret]].
  - destruct (query_ok (Payload c) n m sw Hsv Hcl) as (w' & H & Hs & Ho).
    exists w'. split; [|done]. unfold respond, go_try. by rewrite H.
  - destruct (unmarshal_cases (MkSetPayload [] []) store_payload (Payload c)) as [[sp Hsp]|[e He]];
      fold Unmarshal_SetPayload in *.
    + rewrite Hsp. destruct (insert_ok _ sp n m sw Hsv Hsp) as (w' & H & Hs & Ho).
      exists w'. split; [|done]. unfold respond, go_try, go_bind. by rewrite H.
    + rewrite He. unfold respond, go_try, go_bind, insert. rewrite He.
      exists (sw_world sw). by rewrite Hsw.
Qed.

(** ** The state machine on a reliable engine *)

Lemma Apply_ok log n m fw :
  running n m fw →
  ∃ sw', Apply log fw = (Ok (spec_apply m (Data log)).1,
                         MkFW (set_index (fw_sm fw) (Index log)) sw' (fw_ch fw)) ∧
         running n (spec_apply m (Data log)).2
                 (MkFW (set_index (fw_sm fw) (Index log)) sw' (fw_ch fw)) ∧
         sw_store sw' = sw_store (fw_sw fw) ∧
         only_db (st_db (sw_store (fw_sw fw))) (sw_world (fw_sw fw)) (sw_world sw').
Proof.
  destruct fw as [sm sw ch]. intros Hr. unfold Apply.
  erewrite go_bind_ok by by eapply isclosed_running. cbv iota.
  erewrite go_bind_ok by reflexivity. erewrite go_bind_ok by reflexivity.
  destruct Hr as [Hsv Hcl]. simpl in *.
  destruct (applyCommand_ok (Data log) n m sw Hsv Hcl) as (w' & H & Hs & Ho).
  exists (MkSW (sw_store sw) w'). split; [|done]. unfold on_store. cbn [fw_sw]. by rewrite H.
Qed.

(** What a read of the node gives. *)
Lemma ReadLocal_ok key n m fw :
  running n m fw →
  ∃ fw', ReadLocal key fw = (Ok (MkResponse (default [] (m !! cf_key key)) None), fw') ∧ running n m fw'.
Proof.
  intros [Hsv Hcl]. destruct (query_ok key n m _ Hsv Hcl) as (w' & H & Hs & _).
  eexists. unfold ReadLocal, on_store, respond, go_try. rewrite H. split; [done|].
  split; [exact Hs|exact Hcl].
Qed.

(** A read changes neither index, channels nor metrics. *)
Lemma ReadLocal_frame key fw r fw' :
  ReadLocal key fw = (r, fw') → fw' = MkFW (fw_sm fw) (fw_sw fw') (fw_ch fw).
Proof. unfold ReadLocal, on_store. destruct (respond _ _). by intros [= _ <-]. Qed.

(** Applying a sequence of entries, as raft does. *)
Fixpoint apply_all (logs : list raft_Log) : GoM fworld (list CommandResponse) :=
  match logs with
  | [] => go_ret []
  | log :: logs => r <- Apply log ;; rs <- apply_all logs ;; go_ret (r :: rs)
  end.

(** The index after a sequence of entries. *)
Definition last_index (i : Z) (logs : list raft_Log) : Z := foldl (λ _ log, Index log) i logs.

Lemma apply_all_ok logs n m fw :
  running n m fw →
  ∃ fw', apply_all logs fw = (Ok (spec_run m logs).1, fw') ∧ running n (spec_run m logs).2 fw' ∧
         fsmIndex (fw_sm fw') = last_index (fsmIndex (fw_sm fw)) logs ∧
         nodeId (fw_sm fw') = nodeId (fw_sm fw) ∧
         sw_store (fw_sw fw') = sw_store (fw_sw fw) ∧ fw_ch fw' = fw_ch fw ∧
         only_db (st_db (sw_store (fw_sw fw))) (sw_world (fw_sw fw)) (sw_world (fw_sw fw')).
Proof.
  revert m fw. induction logs as [|log logs IH]; intros m fw Hr; [by exists fw|].
  cbn [apply_all spec_run].
  destruct (Apply_ok log n m fw Hr) as (sw1 & H1 & Hr1 & Hst1 & Ho1).
  erewrite go_bind_ok by exact H1.
  destruct (spec_apply m (Data log)) as [r m1]. cbn [fst snd] in *.
  destruct (IH m1 _ Hr1) as (fw2 & H2 & Hr2 & Hi2 & Hid2 & Hst2 & Hch2 & Ho2).
  erewrite go_bind_ok by exact H2.
  destruct (spec_run m1 logs) as [rs m2]. cbn [fst snd] in *.
  exists fw2. simpl in *. rewrite Hst1 in Hst2, Ho2.
  do 6 (split; [done|]). by etrans.
Qed.
End fsm_ok.

(** ** Snapshot, persist and restore *)

Section fsm_restore.
Context `{PL : PebbleLaws, !PebbleReliable _, GL : GzipLaws}.

Lemma fsm_Snapshot_ok now n m fw :
  running n m fw →
  ∃ snap w', fsm_Snapshot now fw =
               (Ok (MkFsmSnapshot snap (fsmIndex (fw_sm fw)) now),
                MkFW (fw_sm fw) (MkSW (sw_store (fw_sw fw)) w') (fw_ch fw)) ∧
             snap_map snap = m ∧
             running n m (MkFW (fw_sm fw) (MkSW (sw_store (fw_sw fw)) w') (fw_ch fw)) ∧
             only_db (st_db (sw_store (fw_sw fw))) (sw_world (fw_sw fw)) w'.
Proof.
  destruct fw as [sm sw ch]. intros Hr. unfold fsm_Snapshot.
  erewrite go_bind_ok by by eapply isclosed_running. cbv iota.
  destruct Hr as [Hsv Hcl], sw as [st w]. simpl in *.
  pose proof Hsv as [_ _ _ _ _ _ _ _ Hop (db & Hdb & Hm)]. simpl in *.
  destruct (with_db_ok (st_db st) (λ d, (Ok (db_NewSnapshot d), d)) w db _ _ Hop Hdb eq_refl)
    as (w1 & H1 & Ho1 & Hd1).
  exists (db_NewSnapshot db), w1. split; [|split; [by rewrite db_NewSnapshot_map|]].
  - assert (on_store getSnapshot (MkFW sm (MkSW st w) ch) =
            (Ok (db_NewSnapshot db), MkFW sm (MkSW st w1) ch)) as H2.
    { unfold on_store, getSnapshot. cbn [fw_sw]. erewrite go_bind_ok by reflexivity. cbn [sw_store].
      by rewrite (on_world_ok _ (MkSW st w) _ _ H1). }
    by rewrite (go_bind_ok _ _ _ _ _ H2).
  - split; [|done]. split; [|done]. by eapply serves_write.
Qed.

(** The entries of a snapshot. *)
Definition map_ok (m : gmap bytes bytes) : Prop := ∀ k v, m !! k = Some v → entry_ok (k, v).

Lemma map_ok_entries l : NoDup l.*1 → map_ok (list_to_map l) → Forall entry_ok l.
Proof.
  intros Hnd Hok. apply Forall_forall. intros [k v] Hin. apply Hok.
  by apply elem_of_list_to_map.
Qed.

(** [Persist] to a new sink that does not fail. *)
Lemma Persist_ok fs unix dur now fw :
  ∃ l fw', Persist fs unix dur now (fw, MkSink [] false false []) =
             (Ok tt, (fw', MkSink (stream_bytes (nodeId (fw_sm fw)) (fs_lastIndex fs) unix l)
                                  true false [])) ∧
           NoDup l.*1 ∧ list_to_map l = snap_map (fs_snapshot fs) ∧
           fw_sw fw' = fw_sw fw ∧ fw_ch fw' = fw_ch fw.
Proof.
  destruct (snap_NewIter_ok (fs_snapshot fs)) as [l Hl].
  destruct (snap_NewIter_map _ _ Hl) as [Hnd Hm].
  eexists l, _. split; [|split; [exact Hnd|split; [exact Hm|]]].
  - unfold Persist. rewrite (saveSnapShot_ok _ _ _ l) by done. reflexivity.
  - done.
Qed.

(** The channel watchers wait on is open, and every channel was made. *)
Definition chan_ok (fw : fworld) : Prop :=
  (abandonCh (fw_sm fw) < ch_next (fw_ch fw))%nat ∧ (abandonCh (fw_sm fw) ∉ ch_closed (fw_ch fw)) ∧
  ∀ c, c ∈ ch_closed (fw_ch fw) → (c < ch_next (fw_ch fw))%nat.

(** [abandon] puts a new open channel in place and closes the old one. *)
Lemma abandon_ok fw :
  chan_ok fw →
  ∃ fw', abandon fw = (Ok tt, fw') ∧ fw_sw fw' = fw_sw fw ∧
         fsmIndex (fw_sm fw') = fsmIndex (fw_sm fw) ∧ nodeId (fw_sm fw') = nodeId (fw_sm fw) ∧
         metrics (fw_sm fw') = metrics (fw_sm fw) ∧
         chan_ok fw' ∧ abandonCh (fw_sm fw') ≠ abandonCh (fw_sm fw) ∧
         abandonCh (fw_sm fw) ∈ ch_closed (fw_ch fw').
Proof.
  destruct fw as [sm sw [nx cl]]. intros (Hc1 & Hc2 & Hc3). simpl in *.
  unfold abandon, the_sm, set_sm, chan_make, chan_close, go_bind. cbn.
  rewrite decide_False by done. eexists. split; [reflexivity|]. cbn.
  do 4 (split; [done|]). split; [|split; [lia|set_solver]].
  split; [simpl; lia|]. split; simpl.
  - rewrite not_elem_of_union, not_elem_of_singleton. split; [lia|]. intros H%Hc3. lia.
  - intros c. rewrite elem_of_union, elem_of_singleton. intros [->|H%Hc3]; lia.
Qed.

(** Everything [Restore] does once the store has recovered. *)
Lemma Restore_ok rd start now header sw' fw :
  st_closed (sw_store (fw_sw fw)) = false → chan_ok fw →
  recoverSnapShot rd (fw_sw fw) = (Ok header, sw') →
  ∃ fw', Restore rd start now fw = (Ok tt, fw') ∧ fw_sw fw' = sw' ∧
         fsmIndex (fw_sm fw') =
           (if decide (LastIndex header > 0) then LastIndex header else fsmIndex (fw_sm fw)) ∧
         nodeId (fw_sm fw') = nodeId (fw_sm fw) ∧
         chan_ok fw' ∧ abandonCh (fw_sm fw') ≠ abandonCh (fw_sm fw) ∧
         abandonCh (fw_sm fw) ∈ ch_closed (fw_ch fw') ∧
         RestoreCount (metrics (fw_sm fw')) = uint 64 (RestoreCount (metrics (fw_sm fw)) + 1).
Proof.
  intros Hcl Hc Hrec. destruct fw as [sm sw ch]. simpl in *.
  set (sm1 := if decide (LastIndex header > 0) then set_index sm (LastIndex header) else sm).
  set (m := metrics sm1).
  set (sm2 := set_metrics sm1 (MkMetrics (LastSnapshotDuration m) (LastSnapshotSize m)
    (LastSnapshotRecords m) (LastSnapshotTime m) (now - start) now (SnapshotCount m)
    (uint 64 (RestoreCount m + 1)))).
  assert (Restore rd start now (MkFW sm sw ch) = abandon (MkFW sm2 sw' ch)) as ->.
  { unfold Restore, on_store at 1, isclosed, go_bind at 1 2, the_store, go_ret at 1.
    cbn [fw_sw fw_sm fw_ch]. rewrite Hcl. cbv iota.
    unfold on_store, go_bind, the_sm, set_sm, go_ret. cbn [fw_sw fw_sm fw_ch]. rewrite Hrec.
    unfold sm2, m, sm1. by destruct (decide (LastIndex header > 0)). }
  destruct (abandon_ok (MkFW sm2 sw' ch)) as (fw' & H & H1 & H2 & H3 & H4 & H5 & H6 & H7).
  { unfold chan_ok, sm2, m, sm1 in *. by destruct (decide (LastIndex header > 0)). }
  exists fw'. rewrite H1, H2, H3, H4. simpl in *. unfold sm2, m, sm1 in *.
  by destruct (decide (LastIndex header > 0)).
Qed.

Lemma Restore_err rd start now e sw' fw :
  st_closed (sw_store (fw_sw fw)) = false → recoverSnapShot rd (fw_sw fw) = (Err e, sw') →
  Restore rd start now fw = (Err e, MkFW (fw_sm fw) sw' (fw_ch fw)).
Proof.
  intros Hcl Hrec. destruct fw as [sm sw ch]. simpl in *.
  unfold Restore, on_store at 1, isclosed, go_bind at 1 2, the_store, go_ret at 1.
  cbn [fw_sw fw_sm fw_ch]. rewrite Hcl. cbv iota.
  unfold on_store, go_bind. cbn [fw_sw fw_sm fw_ch]. by rewrite Hrec.
Qed.
End fsm_restore.

(** ** Theorems *)

Section fsm_theorems.
Context `{PL : PebbleLaws, !PebbleReliable _, GL : GzipLaws}.

(** C4: [Apply] refines the abstract machine. For every sequence of log
    entries, whatever bytes they hold, the responses are those of the abstract
    machine, the store serves its map, and the index is that of the last
    entry. *)
Theorem apply_refines_spec logs n m fw :
  running n m fw →
  ∃ fw', apply_all logs fw = (Ok (spec_run m logs).1, fw') ∧
         running n (spec_run m logs).2 fw' ∧
         fsmIndex (fw_sm fw') = last_index (fsmIndex (fw_sm fw)) logs.
Proof. intros Hr. destruct (apply_all_ok logs n m fw Hr) as (fw' & H & Hr' & Hi & _). eauto. Qed.

(** a value that was inserted is read back, and no other key is touched:
    after the entry that the engine proposes for the key [k] and the value
    [v], [ReadLocal k'] gives [v] for [k' = k] and the old value otherwise. *)
Theorem inserted_value_is_read i k v k' n m fw :
  running n m fw →
  let entry := Marshal_Command (MkCommand Insert (Marshal_SetPayload (MkSetPayload k v))) in
  ∃ fw1 fw2,
    Apply (MkLog i entry) fw = (Ok (MkResponse [] None), fw1) ∧
    ReadLocal k' fw1 =
      (Ok (MkResponse (if decide (k' = k) then v else default [] (m !! cf_key k')) None), fw2) ∧
    running n (<[cf_key k := v]> m) fw2 ∧ fsmIndex (fw_sm fw2) = i.
Proof.
  intros Hr entry.
  destruct (Apply_ok (MkLog i entry) n m fw Hr) as (sw1 & H1 & Hr1 & _).
  assert (spec_apply m entry = (MkResponse [] None, <[cf_key k := v]> m)) as Hs.
  { unfold spec_apply, entry. rewrite Unmarshal_Marshal_Command by by right. simpl.
    by rewrite Unmarshal_Marshal_SetPayload. }
  cbn [Data] in *. rewrite Hs in *. cbn [fst snd] in *.
  destruct Hr1 as [Hsv1 Hcl1]. cbn [fw_sw] in *.
  destruct (query_ok k' n _ sw1 Hsv1 Hcl1) as (w2 & H2 & Hs2 & _).
  eexists _, (MkFW (set_index (fw_sm fw) i) (MkSW (sw_store sw1) w2) (fw_ch fw)).
  split; [exact H1|]. split; [|done].
  unfold ReadLocal, on_store, respond, go_try. cbn [fw_sw Index]. rewrite H2. cbn.
  do 3 f_equal. case_decide as Hk.
  - subst. by rewrite lookup_insert_eq.
  - rewrite lookup_insert_ne; [done|]. unfold cf_key, buildColumnFamilyKey. intros Heq.
    apply (inj (app [_])) in Heq. done.
Qed.

(** C5: compacting the log loses nothing. Node A takes a snapshot, applies
    [logs] after it, and only then persists the snapshot; node B, whatever it
    held, restores that stream and applies the same [logs]. Both give the same
    responses and serve the same map, and B's index is A's. *)
Theorem restored_replica_catches_up t unix dur now start logs nA mA fwA nB mB fwB :
  running nA mA fwA → map_ok mA → 0 < fsmIndex (fw_sm fwA) →
  header_fits (nodeId (fw_sm fwA)) (fsmIndex (fw_sm fwA)) unix →
  running nB mB fwB → chan_ok fwB → w_orc (sw_world (fw_sw fwB)) = [] →
  name_free (baseDir (sw_store (fw_sw fwB))) (sw_world (fw_sw fwB)) →
  ∃ fs fwA1 fwA2 fwA3 rs data fwB1 fwB2 m,
    fsm_Snapshot t fwA = (Ok fs, fwA1) ∧
    apply_all logs fwA1 = (Ok rs, fwA2) ∧
    Persist fs unix dur now (fwA2, MkSink [] false false []) =
      (Ok tt, (fwA3, MkSink data true false [])) ∧
    Restore (MkReader data None) start now fwB = (Ok tt, fwB1) ∧
    fsmIndex (fw_sm fwB1) = fsmIndex (fw_sm fwA) ∧
    apply_all logs fwB1 = (Ok rs, fwB2) ∧
    running nA m fwA3 ∧ running (next_name (sw_world (fw_sw fwB))) m fwB2 ∧
    fsmIndex (fw_sm fwB2) = fsmIndex (fw_sm fwA2).
Proof.
  intros HrA Hok Hi Hfit HrB HcB HoB HfreeB.
  destruct (fsm_Snapshot_ok t nA mA fwA HrA) as (snap & w1 & H1 & Hsm & HrA1 & _).
  destruct (apply_all_ok logs nA mA _ HrA1) as (fwA2 & H2 & HrA2 & Hi2 & Hid2 & _).
  destruct (Persist_ok (MkFsmSnapshot snap (fsmIndex (fw_sm fwA)) t) unix dur now fwA2)
    as (l & fwA3 & H3 & Hnd & Hlm & Hsw3 & _).
  cbn [fs_snapshot fs_lastIndex] in *. rewrite Hsm in Hlm. cbn [fw_sm] in Hi2, Hid2. rewrite Hid2 in H3.
  destruct (recover_stream (nodeId (fw_sm fwA)) (fsmIndex (fw_sm fwA)) unix l nB mB (fw_sw fwB))
    as (swB & H4 & (Hsv & _ & _ & HclB & _) & _); [apply HrB|done|done|done| |done|].
  { apply map_ok_entries; [done|]. by rewrite Hlm. }
  destruct (Restore_ok _ start now _ _ fwB (proj2 HrB) HcB H4) as (fwB1 & H5 & Hsw5 & Hi5 & _).
  cbn [LastIndex saved_header] in Hi5. rewrite decide_True in Hi5 by lia.
  assert (running (next_name (sw_world (fw_sw fwB))) mA fwB1) as HrB1.
  { rewrite <-Hlm. split; rewrite Hsw5; [done|]. rewrite HclB. apply HrB. }
  destruct (apply_all_ok logs _ mA fwB1 HrB1) as (fwB2 & H6 & HrB2 & Hi6 & _).
  exists (MkFsmSnapshot snap (fsmIndex (fw_sm fwA)) t).
  eexists _, fwA2, fwA3, _, _, fwB1, fwB2, (spec_run mA logs).2.
  do 6 (split; [done|]). split; [by split; rewrite Hsw3; apply HrA2|]. split; [done|].
  by rewrite Hi6, Hi2, Hi5.
Qed.

(** a restore that succeeds wakes every watcher of the state it replaced:
    the channel that [AbandonCh] returned before is closed, the one it returns
    from then on is a new one and open. The index becomes that of the
    snapshot (a snapshot of index 0 leaves it as it is). A restore that fails
    leaves index, metrics and channels as they were. *)
Theorem restore_abandons_watchers rd start now fw :
  st_closed (sw_store (fw_sw fw)) = false → chan_ok fw →
  match recoverSnapShot rd (fw_sw fw) with
  | (Ok header, sw') =>
      ∃ fw', Restore rd start now fw = (Ok tt, fw') ∧ fw_sw fw' = sw' ∧ chan_ok fw' ∧
             abandonCh (fw_sm fw) ∈ ch_closed (fw_ch fw') ∧
             abandonCh (fw_sm fw') ≠ abandonCh (fw_sm fw) ∧
             fsmIndex (fw_sm fw') =
               if decide (LastIndex header > 0) then LastIndex header else fsmIndex (fw_sm fw)
  | (Err e, sw') => Restore rd start now fw = (Err e, MkFW (fw_sm fw) sw' (fw_ch fw))
  | (Panic p, sw') => (Restore rd start now fw).1 = Panic p
  | (NoFuel, sw') => (Restore rd start now fw).1 = NoFuel
  end.
Proof.
  intros Hcl Hc. destruct (recoverSnapShot rd (fw_sw fw)) as [[header|e|p|] sw'] eqn:E.
  - destruct (Restore_ok rd start now header sw' fw Hcl Hc E) as (fw' & H & ? & ? & ? & ? & ? & ? & ?).
    exists fw'. done.
  - by apply Restore_err.
  - destruct fw as [sm sw ch]. simpl in *.
    unfold Restore, on_store at 1, isclosed, go_bind at 1 2, the_store, go_ret at 1.
    cbn [fw_sw fw_sm fw_ch]. rewrite Hcl. cbv iota.
    unfold on_store, go_bind. cbn [fw_sw fw_sm fw_ch]. by rewrite E.
  - destruct fw as [sm sw ch]. simpl in *.
    unfold Restore, on_store at 1, isclosed, go_bind at 1 2, the_store, go_ret at 1.
    cbn [fw_sw fw_sm fw_ch]. rewrite Hcl. cbv iota.
    unfold on_store, go_bind. cbn [fw_sw fw_sm fw_ch]. by rewrite E.
Qed.
End fsm_theorems.

Section closed_theorem.
Context {P : Pebble} {G : Gzip}.

(** What [Close] does to an open machine. *)
Lemma Close_ok n m fw :
  running n m fw →
  ∃ fw1, Close fw = (Ok tt, fw1) ∧ fw_sm fw1 = fw_sm fw ∧ fw_ch fw1 = fw_ch fw ∧
    sw_store (fw_sw fw1) = MkStore (baseDir (sw_store (fw_sw fw))) (st_db (sw_store (fw_sw fw))) true ∧
    st_db (sw_store (fw_sw fw)) ∈ w_closed (sw_world (fw_sw fw1)) ∧
    w_disk (sw_world (fw_sw fw1)) = w_disk (sw_world (fw_sw fw)) ∧
    (w_orc (sw_world (fw_sw fw)) = [] → w_orc (sw_world (fw_sw fw1)) = []).
Proof.
  destruct fw as [sm [st w] ch]. intros Hr. pose proof Hr as [Hsv Hcl]. simpl in *.
  pose proof (sv_open _ _ _ Hsv) as Hop. simpl in Hop.
  destruct (pebble_Flush_ok (st_db st) w Hop) as (w1 & H1 & (_ & Hc1 & Ho1 & _) & Hd1).
  exists (MkFW sm (MkSW (MkStore (baseDir st) (st_db st) true)
      (MkWorld (w_disk w1) ({[st_db st]} ∪ w_closed w1) (w_orc w1) (w_rand w1) (w_clock w1) (w_trace w1))) ch).
  split; [|simpl; split_and!; try done; by apply elem_of_union_l, elem_of_singleton].
  unfold Close. erewrite go_bind_ok by by eapply isclosed_running.
  unfold on_store, close, go_bind at 1 2, the_store, set_store. cbn [fw_sw sw_store].
  unfold on_world. cbn [sw_world sw_store].
  rewrite (go_bind_ok _ _ _ _ _ H1). unfold pebble_Close. by rewrite decide_False by by rewrite Hc1.
Qed.

(** A closed machine answers so. *)
Lemma isclosed_closed fw :
  st_closed (sw_store (fw_sw fw)) = true → on_store isclosed fw = (Ok true, fw).
Proof. destruct fw as [sm sw ch]. simpl. intros Hc. unfold on_store, isclosed, go_bind, the_store, go_ret. simpl. by rewrite Hc. Qed.

(** C29: after [Close] nothing gets through any more: [Apply], [ReadLocal],
    [Snapshot] and [Restore] answer "closed" and change nothing, a second
    [Close] does nothing, and the database on the disk is what it was. *)
Theorem closed_machine_refuses log key rd start now n m fw :
  running n m fw →
  ∃ fw1, Close fw = (Ok tt, fw1) ∧
    Apply log fw1 = (Ok (MkResponse [] (Some ErrClosed)), fw1) ∧
    ReadLocal key fw1 = (Ok (MkResponse [] (Some ErrClosed)), fw1) ∧
    fsm_Snapshot now fw1 = (Err ErrClosed, fw1) ∧
    Restore rd start now fw1 = (Err ErrClosed, fw1) ∧
    Close fw1 = (Ok tt, fw1) ∧
    st_db (sw_store (fw_sw fw)) ∈ w_closed (sw_world (fw_sw fw1)) ∧
    w_disk (sw_world (fw_sw fw1)) = w_disk (sw_world (fw_sw fw)).
Proof.
  intros Hr. destruct (Close_ok n m fw Hr) as (fw1 & Hclose & _ & _ & Hst & Hc & Hd & _).
  assert (on_store isclosed fw1 = (Ok true, fw1)) as Hcl by (apply isclosed_closed; by rewrite Hst).
  exists fw1. split; [done|].
  assert (ReadLocal key fw1 = (Ok (MkResponse [] (Some ErrClosed)), fw1)) as Hread.
  { destruct fw1 as [sm [st w] ch]. simpl in *. subst st. reflexivity. }
  split_and!; try done; unfold Apply, fsm_Snapshot, Restore, Close; by rewrite (go_bind_ok _ _ _ _ _ Hcl).
Qed.
End closed_theorem.

(** replicas agree. Two state machines that serve the same map, on whatever
    engines, in whatever directories, with whatever indexes, give the same
    responses to the same log entries and end with the same map and, unless the
    log is empty, with the same index. *)
Theorem replicas_agree {P1 P2 : Pebble} `{!PebbleLaws P1, !PebbleReliable P1}
    `{!PebbleLaws P2, !PebbleReliable P2} logs m n1 n2 (fw1 : fworld (P := P1)) (fw2 : fworld (P := P2)) :
  running n1 m fw1 → running n2 m fw2 →
  ∃ rs m' fw1' fw2',
    apply_all logs fw1 = (Ok rs, fw1') ∧ apply_all logs fw2 = (Ok rs, fw2') ∧
    running n1 m' fw1' ∧ running n2 m' fw2' ∧
    (logs ≠ [] → fsmIndex (fw_sm fw1') = fsmIndex (fw_sm fw2')).
Proof.
  intros Hr1 Hr2.
  destruct (apply_all_ok logs n1 m fw1 Hr1) as (fw1' & H1 & Hr1' & Hi1 & _).
  destruct (apply_all_ok logs n2 m fw2 Hr2) as (fw2' & H2 & Hr2' & Hi2 & _).
  exists (spec_run m logs).1, (spec_run m logs).2, fw1', fw2'. do 4 (split; [done|]).
  intros Hne. rewrite Hi1, Hi2. destruct logs as [|log logs]; [done|]. reflexivity.
Qed.

(** ** Witnesses *)

Definition demo_sm : StateMachine := MkSM "127.0.0.1:7000" "node1" 7 0%nat (MkMetrics 0 0 0 0 0 0 0 0).
Definition demo_fsm : fworld (P := Mem no_fault) := MkFW demo_sm demo_store (MkChans 1 ∅).

Lemma demo_running : running "a" demo_map demo_fsm.
Proof. split; [exact demo_serves|done]. Qed.

Lemma demo_chan : chan_ok demo_fsm.
Proof. split; [simpl; lia|]. split; [apply not_elem_of_empty|]. by intros c ?%elem_of_empty. Qed.

Definition demo_entry (k v : string) : bytes :=
  Marshal_Command (MkCommand Insert (Marshal_SetPayload
    (MkSetPayload (string_bytes k) (string_bytes v)))).

(** An insert, and an entry that is no JSON. *)
Lemma apply_refines_spec_witness :
  let logs := [MkLog 8 (demo_entry "x" "1"); MkLog 9 (string_bytes "{")] in
  ∃ fw', apply_all logs demo_fsm = (Ok [MkResponse [] None; MkResponse [] (Some syntaxError)], fw') ∧
         running "a" (<[cf_key (string_bytes "x") := string_bytes "1"]> demo_map) fw' ∧
         fsmIndex (fw_sm fw') = 9.
Proof.
  intros logs.
  destruct (apply_refines_spec logs "a" demo_map demo_fsm demo_running) as (fw' & H & Hr & Hi).
  exact (ex_intro _ fw' (conj H (conj Hr Hi))).
Defined.

Lemma inserted_value_is_read_witness :
  ∃ fw1 fw2, Apply (MkLog 8 (demo_entry "x" "1")) demo_fsm = (Ok (MkResponse [] None), fw1) ∧
             ReadLocal (string_bytes "x") fw1 = (Ok (MkResponse (string_bytes "1") None), fw2).
Proof.
  destruct (inserted_value_is_read 8 (string_bytes "x") (string_bytes "1") (string_bytes "x")
    "a" demo_map demo_fsm demo_running) as (fw1 & fw2 & H1 & H2 & _).
  exact (ex_intro _ fw1 (ex_intro _ fw2 (conj H1 H2))).
Defined.

Lemma demo_map_ok : map_ok (G := Stored) demo_map.
Proof.
  intros k v H. unfold demo_map in H. apply lookup_singleton_Some in H as [<- <-]. split; vm_compute; congruence.
Qed.

Lemma restored_replica_catches_up_witness :
  ∃ fs fwA1 fwA2 fwA3 rs data fwB1,
    fsm_Snapshot 0 demo_fsm = (Ok fs, fwA1) ∧
    apply_all [MkLog 8 (demo_entry "x" "1")] fwA1 = (Ok rs, fwA2) ∧
    Persist (G := Stored) fs 1700000000 5 0 (fwA2, MkSink [] false false []) =
      (Ok tt, (fwA3, MkSink data true false [])) ∧
    Restore (G := Stored) (MkReader data None) 0 0 demo_fsm = (Ok tt, fwB1) ∧
    fsmIndex (fw_sm fwB1) = 7.
Proof.
  destruct (restored_replica_catches_up (GL := stored_laws) 0 1700000000 5 0 0
    [MkLog 8 (demo_entry "x" "1")] "a" demo_map demo_fsm "a" demo_map demo_fsm)
    as (fs & fwA1 & fwA2 & fwA3 & rs & data & fwB1 & fwB2 & m & H1 & H2 & H3 & H4 & H5 & _).
  - exact demo_running.
  - exact demo_map_ok.
  - simpl. lia.
  - exact demo_fits.
  - exact demo_running.
  - exact demo_chan.
  - reflexivity.
  - exact demo_free.
  - exact (ex_intro _ fs (ex_intro _ fwA1 (ex_intro _ fwA2 (ex_intro _ fwA3 (ex_intro _ rs
      (ex_intro _ data (ex_intro _ fwB1 (conj H1 (conj H2 (conj H3 (conj H4 H5))))))))))).
Defined.

Lemma restore_abandons_watchers_witness :
  ∃ fw', Restore (G := Stored) (MkReader demo_stream None) 0 0 demo_fsm = (Ok tt, fw') ∧
         0%nat ∈ ch_closed (fw_ch fw') ∧ abandonCh (fw_sm fw') ≠ 0%nat.
Proof.
  pose proof (restore_abandons_watchers (G := Stored) (MkReader demo_stream None) 0 0 demo_fsm eq_refl demo_chan) as H.
  destruct (recover_stream (GL := stored_laws) "node1" 7 1700000000 demo_entries_kv "a" demo_map demo_store)
    as (sw' & Hrec & _);
    [exact demo_serves|reflexivity|exact demo_free|exact demo_fits|exact demo_entries_ok|exact demo_entries_nodup|].
  change (fw_sw demo_fsm) with demo_store in H. rewrite Hrec in H.
  destruct H as (fw' & H1 & _ & _ & H2 & H3 & _).
  exact (ex_intro _ fw' (conj H1 (conj H2 H3))).
Defined.

Lemma closed_machine_refuses_witness :
  ∃ fw1, Close demo_fsm = (Ok tt, fw1) ∧
         Apply (MkLog 8 (demo_entry "x" "1")) fw1 = (Ok (MkResponse [] (Some ErrClosed)), fw1).
Proof.
  destruct (closed_machine_refuses (G := Stored) (MkLog 8 (demo_entry "x" "1")) (string_bytes "x")
    (MkReader [] None) 0 0 "a" demo_map demo_fsm demo_running) as (fw1 & H1 & H2 & _).
  exact (ex_intro _ fw1 (conj H1 H2)).
Defined.

Lemma replicas_agree_witness :
  ∃ rs fw1 fw2, apply_all [MkLog 8 (demo_entry "x" "1")] demo_fsm = (Ok rs, fw1) ∧
                apply_all [MkLog 8 (demo_entry "x" "1")] demo_fsm = (Ok rs, fw2) ∧
                fsmIndex (fw_sm fw1) = fsmIndex (fw_sm fw2).
Proof.
  destruct (replicas_agree [MkLog 8 (demo_entry "x" "1")] demo_map "a" "a" demo_fsm demo_fsm
    demo_running demo_running) as (rs & m' & fw1 & fw2 & H1 & H2 & _ & _ & H3).
  exact (ex_intro _ rs (ex_intro _ fw1 (ex_intro _ fw2 (conj H1 (conj H2 (H3 ltac:(done))))))).
Defined.

(** a restore can fail after it has replaced the state. When the removal of
    the old directory fails, [Restore] returns the error, but the store already
    serves the entries of the stream; the index still is that of the old state
    and the watchers of the old state are not woken. *)
Theorem failed_removal_leaves_restore_half_done e :
  let fw := MkFW (set_index demo_sm 3) (demo_store_fault 20 e) (MkChans 1 ∅) in
  let run := Restore (G := Stored) (MkReader demo_stream None) 0 0 fw in
  run.1 = Err e ∧
  (on_store (getBytes (string_bytes "a")) run.2).1 = Ok (string_bytes "1") ∧
  (on_store (getBytes (string_bytes "k")) run.2).1 = Ok [] ∧
  fsmIndex (fw_sm run.2) = 3 ∧ ch_closed (fw_ch run.2) = ∅.
Proof. vm_compute. repeat split; reflexivity. Qed.
