(* ===== verification/Races.v ===== *)
(** * Races.v: a read that races with a restore or with the shutdown.

    [ReadLocal] runs in the goroutine of an RPC, [Apply] and [Restore] in raft's
    goroutine of the state machine; nothing but the two atomics of the store
    orders them. [query] (fsm/apply.go) and [recoverSnapShot], [close]
    (fsm/store.go) are cut here where another goroutine can run in between: at
    the loads of the closed flag and of the database pointer, at the swap of the
    pointer and at the closing of the old database. Run without interruption the
    pieces are the definitions of Store.v and Fsm.v. *)
From S2P Require Import Prelude Binary Paths Pebble FileSystem DataDir Snapshot Json Store Fsm.

Section races.
Context {P : Pebble} {G : Gzip}.

(** ** The goroutine of the state machine *)

(** Where it is in a restore, or in [close]. *)
Inductive fsm_pc :=
| FIdle
| FLoaded (header : SnapshotHeader) (dbdir oldDirName : string) (newdb : path)
| FMarked (header : SnapshotHeader) (oldDirName : string) (newdb : path)
| FSwapped (header : SnapshotHeader) (oldDirName : string) (old : path)
| FOldClosed (header : SnapshotHeader) (oldDirName : string)
| FRestored (header : SnapshotHeader)
| FClosing
| FFlushed
| FDown.

(** Up to [newdb.Flush()]. *)
Definition load_step (rd : reader) : GoM sworld fsm_pc :=
  s <- the_store ;;
  '(header, dbdir, oldDirName, newdb) <- on_world (recover_load (baseDir s) rd) ;;
  go_ret (FLoaded header dbdir oldDirName newdb).

(** [s.closed.Store(true)] *)
Definition close_begin : GoM sworld fsm_pc :=
  s <- the_store ;; set_store (MkStore (baseDir s) (st_db s) true) ;; go_ret FClosing.

Definition fsm_step (p : fsm_pc) : GoM sworld fsm_pc :=
  match p with
  | FLoaded header dbdir oldDirName newdb =>
      s <- the_store ;;
      on_world (go_on_err (saveCurrentDBDirName (baseDir s) dbdir) (cleanupNewDB newdb dbdir)) ;;
      on_world (go_on_err (replaceCurrentDBFile (baseDir s)) (cleanupNewDB newdb dbdir)) ;;
      go_ret (FMarked header oldDirName newdb)
  | FMarked header oldDirName newdb =>
      (** [old := s.db.Swap(newdb)] *)
      s <- the_store ;;
      set_store (MkStore (baseDir s) newdb (st_closed s)) ;;
      go_ret (FSwapped header oldDirName (st_db s))
  | FSwapped header oldDirName old => on_world (pebble_Close old) ;; go_ret (FOldClosed header oldDirName)
  | FOldClosed header oldDirName =>
      on_world (os_RemoveAll oldDirName) ;;
      on_world (syncDir (Dir oldDirName)) ;;
      go_ret (FRestored header)
  | FClosing => s <- the_store ;; on_world (go_ignore (pebble_Flush (st_db s))) ;; go_ret FFlushed
  | FFlushed => s <- the_store ;; on_world (pebble_Close (st_db s)) ;; go_ret FDown
  | p => go_ret p
  end.

(** The pieces make up the whole. *)
Definition restore_in_steps (rd : reader) : GoM sworld SnapshotHeader :=
  p <- load_step rd ;; p <- fsm_step p ;; p <- fsm_step p ;; p <- fsm_step p ;; p <- fsm_step p ;;
  match p with FRestored header => go_ret header | _ => go_lift NoFuel end.

Lemma restore_in_steps_ok rd sw : restore_in_steps rd sw = recoverSnapShot rd sw.
Proof.
  destruct sw as [st w]. unfold restore_in_steps, recoverSnapShot, load_step, the_store, on_world, go_bind, go_ret.
  cbn [sw_store sw_world].
  destruct (recover_load (baseDir st) rd w) as [[[[[h d] o] new]|e|p|] w1]; try done.
  unfold fsm_step, recover_switch, the_store, set_store, on_world, go_bind, go_ret. cbn [sw_store sw_world].
  destruct (go_on_err (saveCurrentDBDirName _ d) _ w1) as [[[]|?|?|] w2]; try done. cbn [sw_store sw_world].
  destruct (go_on_err (replaceCurrentDBFile _) _ w2) as [[[]|?|?|] w3]; try done. cbn [sw_store sw_world].
  destruct (pebble_Close _ w3) as [[[]|?|?|] w4]; try done. cbn [sw_store sw_world].
  destruct (os_RemoveAll o w4) as [[[]|?|?|] w5]; try done. cbn [sw_store sw_world].
  by destruct (syncDir (Dir o) w5) as [[[]|?|?|] w6].
Qed.

Definition close_in_steps : GoM sworld unit :=
  p <- close_begin ;; p <- fsm_step p ;; p <- fsm_step p ;; go_ret tt.

Lemma close_in_steps_ok sw : close_in_steps sw = close sw.
Proof.
  destruct sw as [st w].
  unfold close_in_steps, close_begin, fsm_step, close, the_store, set_store, on_world, go_bind, go_ret.
  cbn [sw_store sw_world st_db].
  destruct (go_ignore (pebble_Flush _) w) as [[[]|?|?|] w1]; try done. cbn [sw_store sw_world st_db].
  by destruct (pebble_Close _ w1) as [[[]|?|?|] w2].
Qed.

(** ** The goroutine of a read *)

(** [ReadLocal] has passed the check of [query]; the one of [getBytes]; has
    loaded the database pointer; is done. *)
Inductive query_pc :=
| QIdle
| QStart
| QChecked
| QOpen
| QLoaded (h : path)
| QDone (r : res CommandResponse).

(** [db.Get(key)] on a handle, and the response made of it. *)
Definition get_on (h : path) (key : bytes) : GoM sworld CommandResponse :=
  respond (on_world (with_db h (λ d,
    match db_Get d (cf_key key) with
    | inr ErrNotFound => (Ok [], d)
    | inr e => (Err e, d)
    | inl val => (Ok val, d)
    end))).

Definition closed_response : res CommandResponse := Ok (MkResponse [] (Some ErrClosed)).

Definition query_step (key : bytes) (p : query_pc) (sw : sworld) : query_pc * sworld :=
  match p with
  | QStart => (if st_closed (sw_store sw) then QDone closed_response else QChecked, sw)
  | QChecked => (if st_closed (sw_store sw) then QDone closed_response else QOpen, sw)
  | QOpen => (QLoaded (st_db (sw_store sw)), sw)
  | QLoaded h => let '(r, sw') := get_on h key sw in (QDone r, sw')
  | p => (p, sw)
  end.

Definition read_in_steps (key : bytes) (sw : sworld) : query_pc * sworld :=
  let '(p, sw) := query_step key QStart sw in
  let '(p, sw) := query_step key p sw in
  let '(p, sw) := query_step key p sw in
  query_step key p sw.

Lemma read_in_steps_ok key sw :
  read_in_steps key sw = let '(r, sw') := respond (query key) sw in (QDone r, sw').
Proof.
  destruct sw as [st w].
  unfold read_in_steps, query_step, respond, query, isclosed, getBytes, get_on, the_store, go_try, go_bind, go_ret.
  cbn [sw_store]. destruct (st_closed st) eqn:Hc; [by cbn; rewrite ?Hc|]. cbn [sw_store]. rewrite Hc.
  unfold respond, go_try, on_world, cf_key, go_ret. cbn [sw_store sw_world].
  by destruct (with_db _ _ w) as [[] ?].
Qed.

(** ** Both *)

(** [r_hist]: the maps that the store served, one after each step of the state
    machine. [r_from] and [r_upto] tell which of them was the last when the read
    was asked for, and when it came to its last step. *)
Record race := MkRace {
  r_sw : sworld;
  r_fsm : fsm_pc;
  r_hist : list (gmap bytes bytes);
  r_query : query_pc;
  r_from : nat;
  r_upto : nat;
}.

(** The map behind the database pointer. *)
Definition served (sw : sworld) : gmap bytes bytes :=
  from_option db_map ∅ (d_dbs (w_disk (sw_world sw)) !! st_db (sw_store sw)).

Definition stage (s : race) : nat := pred (length (r_hist s)).

(** The state machine has come to [p] and [sw]. *)
Definition moved (p : fsm_pc) (sw : sworld) (s : race) : race :=
  MkRace sw p (r_hist s ++ [served sw]) (r_query s) (r_from s) (r_upto s).

(** The name that a restore draws was never used for a directory. *)
Definition name_unused (sw : sworld) : Prop :=
  name_free (baseDir (sw_store sw)) (sw_world sw) ∧
  ∀ q, below (child (path_of (baseDir (sw_store sw))) (next_name (sw_world sw))) q → q ∉ w_closed (sw_world sw).

Inductive rstep (key : bytes) : race → race → Prop :=
| s_apply s data r sw :
    r_fsm s = FIdle → applyCommand data (r_sw s) = (Ok r, sw) → rstep key s (moved FIdle sw s)
| s_load_fails s rd e sw :
    (** whatever the stream holds and whatever fails *)
    r_fsm s = FIdle → name_unused (r_sw s) → load_step rd (r_sw s) = (Err e, sw) →
    rstep key s (moved FIdle sw s)
| s_load s id idx unix l p sw :
    (** a snapshot, when no system call fails *)
    r_fsm s = FIdle → name_unused (r_sw s) → w_orc (sw_world (r_sw s)) = [] →
    header_fits id idx unix → Forall entry_ok l → NoDup l.*1 →
    load_step (MkReader (stream_bytes id idx unix l) None) (r_sw s) = (Ok p, sw) →
    rstep key s (moved p sw s)
| s_close s sw :
    r_fsm s = FIdle → close_begin (r_sw s) = (Ok FClosing, sw) → rstep key s (moved FClosing sw s)
| s_fsm s p sw :
    r_fsm s ≠ FIdle → fsm_step (r_fsm s) (r_sw s) = (Ok p, sw) → rstep key s (moved p sw s)
| s_return s header :
    r_fsm s = FRestored header → rstep key s (moved FIdle (r_sw s) s)
| s_ask s :
    rstep key s (MkRace (r_sw s) (r_fsm s) (r_hist s) QStart (stage s) (stage s))
| s_query s p sw :
    query_step key (r_query s) (r_sw s) = (p, sw) →
    rstep key s (MkRace sw (r_fsm s) (r_hist s) p (r_from s) (if r_query s is QDone _ then r_upto s else stage s)).

Definition race_init (sw : sworld) : race := MkRace sw FIdle [served sw] QIdle 0 0.

Definition race_reachable (key : bytes) (sw : sworld) (s : race) : Prop :=
  rtc (rstep key) (race_init sw) s.
End races.

Section races_ok.
Context `{PL : PebbleLaws, !PebbleReliable _, GL : GzipLaws}.

(** The handle is open, on a database that holds [m]. *)
Definition alive (h : path) (m : gmap bytes bytes) (w : world) : Prop :=
  (h ∉ w_closed w) ∧ ∃ db, d_dbs (w_disk w) !! h = Some db ∧ db_map db = m.

Lemma alive_served sw m : alive (st_db (sw_store sw)) m (sw_world sw) → served sw = m.
Proof. intros (_ & db & Hdb & <-). unfold served. by rewrite Hdb. Qed.

Lemma serves_alive n m sw : serves n m sw → alive (st_db (sw_store sw)) m (sw_world sw).
Proof. intros Hs. split; [apply Hs|apply Hs]. Qed.

Lemma serves_served n m sw : serves n m sw → served sw = m.
Proof. intros Hs. by eapply alive_served, serves_alive. Qed.

(** The worlds differ only in their traces. *)
Definition same_world (w w' : world) : Prop :=
  w_disk w' = w_disk w ∧ w_closed w' = w_closed w ∧ w_orc w' = w_orc w.

Lemma serves_same n m st w w' : serves n m (MkSW st w) → same_world w w' → serves n m (MkSW st w').
Proof. intros [] (Hd & Hc & _). split; simpl in *; rewrite ?Hd, ?Hc; done. Qed.

Lemma alive_same h m w w' : alive h m w → same_world w w' → alive h m w'.
Proof. intros Ha (Hd & Hc & _). unfold alive. by rewrite Hd, Hc. Qed.

(** What a read finds on a handle, and that it changes nothing. *)
Lemma get_on_ok h key m sw :
  alive h m (sw_world sw) →
  ∃ w', get_on h key sw = (Ok (MkResponse (default [] (m !! cf_key key)) None), MkSW (sw_store sw) w') ∧
        same_world (sw_world sw) w'.
Proof.
  intros (Hop & db & Hdb & <-). destruct sw as [st w]. cbn [sw_store sw_world] in *.
  unfold get_on, respond, go_try, on_world, with_db. cbn [sw_store sw_world].
  rewrite decide_False by done. rewrite Hdb, db_Get_lookup.
  destruct (db_map db !! cf_key key) as [v|]; cbn; rewrite insert_id by done;
    (eexists; split; [reflexivity|]; split; [by destruct (w_disk w)|done]).
Qed.

Lemma get_on_closed h key sw :
  h ∈ w_closed (sw_world sw) → get_on h key sw = (Panic "pebble: closed", sw).
Proof.
  intros Hc. destruct sw as [st w]. unfold get_on, respond, go_try, on_world, with_db.
  cbn [sw_store sw_world] in *. by rewrite decide_True.
Qed.

(** ** The invariant *)

(** The new database [db] of the directory [n'] is loaded, the store still serves
    [m] from the directory [n]. *)
Definition switching (n n' : string) (m : gmap bytes bytes) (db : DB) (st : store) (w : world) : Prop :=
  serves n m (MkSW st w) ∧ st_closed st = false ∧ w_orc w = [] ∧ fname n' ∧ n' ≠ n ∧
  n' ≠ currentDBFilename ∧ n' ≠ updatingDBFilename ∧ (child (path_of (baseDir st)) n' ∉ w_closed w) ∧
  d_fs (w_disk w) !! child (path_of (baseDir st)) n' = Some NDir ∧
  d_dbs (w_disk w) !! child (path_of (baseDir st)) n' = Some db.

(** The disk once the marker file names the new directory. *)
Definition marked (dir n' : string) (d : disk) : disk :=
  let running := child (path_of dir) currentDBFilename in
  let updating := child (path_of dir) updatingDBFilename in
  let record := NFile (dirname_record (Join dir n')) true in
  dir_synced (path_of dir)
    (set_fs (λ fs, <[running := record]> (delete updating (<[updating := record]> fs))) d).

(** The disk and the handles of [w] between the switch of the marker file and the
    removal of the old directory, when [w0] was the world before. *)
Definition after_marks (st : store) (n' : string) (closed : gset path) (w0 w : world) : Prop :=
  w_disk w = marked (baseDir st) n' (w_disk w0) ∧ w_closed w = closed ∧ w_orc w = [].

Definition new_store (st : store) (n' : string) : store :=
  MkStore (baseDir st) (child (path_of (baseDir st)) n') (st_closed st).

Definition fsm_ok (s : race) : Prop :=
  let sw := r_sw s in
  match r_fsm s with
  | FIdle | FRestored _ => st_closed (sw_store sw) = false ∧ ∃ n m, serves n m sw
  | FLoaded _ dbdir old new =>
      ∃ n n' m db, switching n n' m db (sw_store sw) (sw_world sw) ∧
        dbdir = Join (baseDir (sw_store sw)) n' ∧ old = Join (baseDir (sw_store sw)) n ∧
        new = child (path_of (baseDir (sw_store sw))) n'
  | FMarked _ old new =>
      ∃ n n' m db w0, switching n n' m db (sw_store sw) w0 ∧
        old = Join (baseDir (sw_store sw)) n ∧ new = child (path_of (baseDir (sw_store sw))) n' ∧
        after_marks (sw_store sw) n' (w_closed w0) w0 (sw_world sw)
  | FSwapped _ old olddb =>
      ∃ n n' m db st w0, switching n n' m db st w0 ∧ old = Join (baseDir st) n ∧ olddb = st_db st ∧
        sw_store sw = new_store st n' ∧ after_marks st n' (w_closed w0) w0 (sw_world sw) ∧
        (0 < stage s)%nat ∧ r_hist s !! pred (stage s) = Some m
  | FOldClosed _ old =>
      ∃ n n' m db st w0, switching n n' m db st w0 ∧ old = Join (baseDir st) n ∧
        sw_store sw = new_store st n' ∧ after_marks st n' ({[st_db st]} ∪ w_closed w0) w0 (sw_world sw)
  | FClosing | FFlushed =>
      st_closed (sw_store sw) = true ∧ ∃ m, alive (st_db (sw_store sw)) m (sw_world sw)
  | FDown => st_closed (sw_store sw) = true ∧ st_db (sw_store sw) ∈ w_closed (sw_world sw)
  end.

(** What a read may come back with. *)
Definition verdict (key : bytes) (s : race) (r : res CommandResponse) : Prop :=
  (∃ j m, (r_from s ≤ j ≤ r_upto s)%nat ∧ r_hist s !! j = Some m ∧
          r = Ok (MkResponse (default [] (m !! cf_key key)) None)) ∨
  (r = closed_response ∧ st_closed (sw_store (r_sw s)) = true) ∨
  (r = Panic "pebble: closed" ∧ (r_from s < r_upto s)%nat).

Definition read_fine (key : bytes) (s : race) : Prop :=
  match r_query s with
  | QIdle | QStart => True
  | QChecked | QOpen => st_closed (sw_store (r_sw s)) = true → (r_from s < stage s)%nat
  | QLoaded h =>
      (h ∈ w_closed (sw_world (r_sw s)) ∧ (r_from s < stage s)%nat) ∨
      (h = st_db (sw_store (r_sw s)) ∧ (h ∉ w_closed (sw_world (r_sw s)))) ∨
      (∃ header old, r_fsm s = FSwapped header old h ∧ (r_from s < stage s)%nat)
  | QDone r => verdict key s r
  end.

Record rinv (key : bytes) (s : race) : Prop := {
  ri_fsm : fsm_ok s;
  ri_last : last (r_hist s) = Some (served (r_sw s));
  ri_from : (r_from s ≤ stage s)%nat;
  ri_read : read_fine key s;
}.

(** ** What the steps keep *)

Lemma stage_moved p sw s : last (r_hist s) = Some (served (r_sw s)) → stage (moved p sw s) = S (stage s).
Proof.
  unfold stage, moved. cbn [r_hist]. rewrite length_app. cbn.
  destruct (r_hist s); [done|]. cbn. lia.
Qed.

(** The marker files are no databases. *)
Lemma alive_old n n' m db st w0 w :
  switching n n' m db st w0 → after_marks st n' (w_closed w0) w0 w → alive (st_db st) m w.
Proof.
  intros (Hs & _) (Hd & Hc & _). destruct (serves_alive _ _ _ Hs) as [H1 H2].
  split; [by rewrite Hc|]. rewrite Hd. exact H2.
Qed.

Lemma alive_new n n' m db st closed w0 w :
  switching n n' m db st w0 → after_marks st n' closed w0 w →
  closed = w_closed w0 ∨ closed = {[st_db st]} ∪ w_closed w0 →
  alive (child (path_of (baseDir st)) n') (db_map db) w.
Proof.
  intros (Hs & _ & _ & _ & Hne & _ & _ & Hcl & _ & Hdb) (Hd & Hc & _) Hcc.
  split; [|rewrite Hd; by exists db]. rewrite Hc. destruct Hcc as [->| ->]; [done|].
  apply not_elem_of_union. split; [|done]. apply not_elem_of_singleton.
  pose proof (sv_handle _ _ _ Hs) as Hh. cbn [sw_store] in Hh. rewrite Hh. by apply child_child_ne.
Qed.

Lemma fsm_alive s :
  fsm_ok s → r_fsm s ≠ FDown → ∃ m, alive (st_db (sw_store (r_sw s))) m (sw_world (r_sw s)).
Proof.
  unfold fsm_ok. intros Hs Hd. destruct (r_fsm s) as [|h d o new|h o new|h o old|h o|h| | |]; try done.
  - destruct Hs as (_ & n & m & Hs). exists m. by eapply serves_alive.
  - destruct Hs as (n & n' & m & db & (Hs & _) & _). exists m.
    apply (serves_alive _ _ _ Hs).
  - destruct Hs as (n & n' & m & db & w0 & Hs & _ & _ & Ha). exists m. by eapply alive_old.
  - destruct Hs as (n & n' & m & db & st & w0 & Hs & _ & _ & Hst & Ha & _). exists (db_map db).
    rewrite Hst. eapply alive_new; [done..|]. by left.
  - destruct Hs as (n & n' & m & db & st & w0 & Hs & _ & Hst & Ha). exists (db_map db).
    rewrite Hst. eapply alive_new; [done..|]. by right.
  - destruct Hs as (_ & n & m & Hs). exists m. by eapply serves_alive.
  - by destruct Hs.
  - by destruct Hs.
Qed.

(** What a step of the state machine means for a read: handles stay closed; the
    handle that the store had is still the one, or was closed, or is the one that
    the swap has replaced; and the one that was replaced is closed next. *)
Record progress (p : fsm_pc) (sw : sworld) (p' : fsm_pc) (sw' : sworld) : Prop := {
  pg_closed : ∀ h, h ∈ w_closed (sw_world sw) → h ∈ w_closed (sw_world sw');
  pg_handle : st_db (sw_store sw) ∉ w_closed (sw_world sw) →
    st_db (sw_store sw) ∈ w_closed (sw_world sw') ∨
    (st_db (sw_store sw) = st_db (sw_store sw') ∧ (st_db (sw_store sw) ∉ w_closed (sw_world sw'))) ∨
    ∃ header old, p' = FSwapped header old (st_db (sw_store sw));
  pg_swapped : ∀ header old h, p = FSwapped header old h → h ∈ w_closed (sw_world sw');
  pg_flag : st_closed (sw_store sw) = true → st_closed (sw_store sw') = true;
}.

(** Steps that leave the store record and the handles in use alone. *)
Lemma progress_same p sw p' sw' :
  sw_store sw' = sw_store sw →
  (∀ h, h ∈ w_closed (sw_world sw) → h ∈ w_closed (sw_world sw')) →
  st_db (sw_store sw) ∉ w_closed (sw_world sw') →
  (∀ header old h, p ≠ FSwapped header old h) → progress p sw p' sw'.
Proof.
  intros Hst Hc Ho Hp. split; rewrite ?Hst; try done.
  - intros _. right. by left.
  - intros header old h ->. by destruct (Hp header old h).
Qed.

Lemma rinv_moved key s p sw :
  rinv key s → fsm_ok (moved p sw s) → progress (r_fsm s) (r_sw s) p sw → rinv key (moved p sw s).
Proof.
  intros [Hf Hl Hfr Hr] Hf' [P1 P2 P3 P4]. split; [done| | |].
  - unfold moved. cbn [r_hist r_sw]. by rewrite last_snoc.
  - rewrite stage_moved by done. cbn [moved r_from]. lia.
  - unfold read_fine in *. rewrite stage_moved by done. cbn [moved r_query r_from r_sw r_fsm].
    destruct (r_query s) as [| | | |h|r]; try done; try lia.
    + destruct Hr as [[Hr ?]|[[-> Ho]|(header & old & Hs & ?)]].
      * left. split; [by apply P1|lia].
      * destruct (P2 Ho) as [H|[[H1 H2]|(header & old & ->)]].
        -- left. split; [done|lia].
        -- right. left. split; [done|]. done.
        -- right. right. exists header, old. split; [done|lia].
      * left. split; [by eapply P3|lia].
    + unfold verdict in *. cbn [moved r_hist r_from r_upto r_sw].
      destruct Hr as [(j & m & Hj & Hm & ->)|[[-> Hc]|[-> ?]]].
      * left. exists j, m. split; [done|]. split; [|done]. by apply lookup_app_l_Some.
      * right. left. split; [done|by apply P4].
      * right. right. done.
Qed.

(** *** The steps of the state machine *)

Lemma apply_moves s data r sw :
  fsm_ok s → r_fsm s = FIdle → applyCommand data (r_sw s) = (Ok r, sw) →
  fsm_ok (moved FIdle sw s) ∧ progress FIdle (r_sw s) FIdle sw.
Proof.
  unfold fsm_ok. intros Hf Hp Ha. rewrite Hp in Hf. destruct Hf as (Hc & n & m & Hs).
  destruct (applyCommand_ok data n m (r_sw s) Hs Hc) as (w' & H & Hs' & (_ & Hcl & _)).
  rewrite Ha in H. injection H as _ ->. split; [by split; [|eauto]|].
  apply progress_same; cbn [sw_store sw_world]; rewrite ?Hcl; try done. apply Hs.
Qed.

(** A load touches nothing but the new directory. *)
Lemma load_keeps n m rd sw r sw' :
  serves n m sw → name_unused sw → load_step rd sw = (r, sw') →
  serves n m sw' ∧ sw_store sw' = sw_store sw ∧
  ∀ h, h ∈ w_closed (sw_world sw) → h ∈ w_closed (sw_world sw').
Proof.
  intros Hs [Hfree Hun] Hl. destruct sw as [st w]. cbn [sw_store sw_world] in *.
  pose proof (recover_load_grows (baseDir st) rd w) as Hg.
  destruct (next_name_marker w) as [Hm1 Hm2].
  pose proof (next_name_fresh n m (MkSW st w) Hs Hfree) as Hne. cbn [sw_world] in Hne.
  assert (sw' = MkSW st (recover_load (baseDir st) rd w).2) as ->.
  { revert Hl. unfold load_step, the_store, on_world, go_bind, go_ret. cbn [sw_store sw_world].
    by destruct (recover_load (baseDir st) rd w) as [[[[[h d] o] new]|e|p|] w1]; intros [= _ <-]. }
  split; [by eapply serves_grows|]. split; [done|]. cbn [sw_world]. intros h Hh.
  apply (proj2 (proj2 Hg) h); [|done]. intros Hb. by apply (Hun h Hb).
Qed.

Lemma load_fails_moves s rd e sw :
  fsm_ok s → r_fsm s = FIdle → name_unused (r_sw s) → load_step rd (r_sw s) = (Err e, sw) →
  fsm_ok (moved FIdle sw s) ∧ progress FIdle (r_sw s) FIdle sw.
Proof.
  unfold fsm_ok. intros Hf Hp Hun Hl. rewrite Hp in Hf. destruct Hf as (Hc & n & m & Hs).
  destruct (load_keeps n m rd _ _ _ Hs Hun Hl) as (Hs' & Hst & Hcl).
  cbn [moved r_fsm r_sw]. rewrite Hst. split; [by split; [|eauto]|].
  apply progress_same; [done..| |done]. rewrite <-Hst. apply Hs'.
Qed.

Lemma load_moves s id idx unix l p sw :
  fsm_ok s → r_fsm s = FIdle → name_unused (r_sw s) → w_orc (sw_world (r_sw s)) = [] →
  header_fits id idx unix → Forall entry_ok l → NoDup l.*1 →
  load_step (MkReader (stream_bytes id idx unix l) None) (r_sw s) = (Ok p, sw) →
  fsm_ok (moved p sw s) ∧ progress FIdle (r_sw s) p sw.
Proof.
  unfold fsm_ok at 1. intros Hf Hp Hun Ho Hfit Hok Hnd Hl. rewrite Hp in Hf. destruct Hf as (Hc & n & m & Hs).
  destruct (load_keeps n m _ _ _ _ Hs Hun Hl) as (Hs' & Hst & Hcl).
  split; [|apply progress_same; [done..| |done]; rewrite <-Hst; apply Hs'].
  destruct Hun as [Hfree Hun]. destruct (r_sw s) as [st w]. cbn [sw_store sw_world] in *.
  destruct (next_name_marker w) as [Hm1 Hm2].
  pose proof (next_name_fresh n m (MkSW st w) Hs Hfree) as Hne. cbn [sw_world] in Hne.
  destruct (recover_load_ok n m (MkSW st w) (saved_header id idx unix) l (PutUint32 (crc32 (data_bytes l))))
    as (w' & db & H & Ho' & Hcl' & Hdb & _ & Hd);
    [done..|by apply saved_header_ok|done|apply breaks_at_checksum, crc32_range|].
  cbn [sw_store sw_world] in *.
  assert (stream_bytes id idx unix l =
          header_bytes (saved_header id idx unix) ++ data_bytes l ++ PutUint32 (crc32 (data_bytes l))) as Hb.
  { unfold stream_bytes. by rewrite headerBuf_bytes by apply Hfit. }
  rewrite <-Hb in H. revert Hl.
  unfold load_step, the_store, on_world, go_bind, go_ret. cbn [sw_store sw_world]. rewrite H.
  intros [= <- <-]. unfold fsm_ok. cbn [moved r_fsm r_sw sw_store sw_world] in *.
  exists n, (next_name w), m, db. split; [|done].
  split; [done|]. do 2 (split; [done|]). split; [apply fname_random|]. do 3 (split; [done|]).
  split; [|done]. rewrite Hcl'. set_solver.
Qed.

Lemma close_moves s sw :
  fsm_ok s → r_fsm s = FIdle → close_begin (r_sw s) = (Ok FClosing, sw) →
  fsm_ok (moved FClosing sw s) ∧ progress FIdle (r_sw s) FClosing sw.
Proof.
  unfold fsm_ok. intros Hf Hp Hcl. rewrite Hp in Hf. destruct Hf as (Hc & n & m & Hs).
  destruct (r_sw s) as [st w]. cbn in Hcl. injection Hcl as <-. cbn [moved r_fsm r_sw sw_store sw_world].
  split; [split; [done|]; exists m; exact (serves_alive _ _ _ Hs)|].
  split; cbn [sw_store sw_world st_db st_closed]; try done. intros Ho. right. by left.
Qed.

Lemma mark_moves s header dbdir old new p sw :
  fsm_ok s → r_fsm s = FLoaded header dbdir old new → fsm_step (r_fsm s) (r_sw s) = (Ok p, sw) →
  fsm_ok (moved p sw s) ∧ progress (r_fsm s) (r_sw s) p sw.
Proof.
  unfold fsm_ok at 1. intros Hf Hp. rewrite Hp in *. intros Hstep.
  destruct Hf as (n & n' & m & db & Hsw & -> & -> & ->). destruct (r_sw s) as [st w]. cbn [sw_store sw_world] in *.
  pose proof Hsw as (Hs & _ & Ho & _).
  pose proof (sv_base _ _ _ Hs) as Hb. pose proof (sv_updating _ _ _ Hs) as Hu.
  pose proof (sv_running _ _ _ Hs) as Hrun. cbn [sw_store sw_world] in Hb, Hu, Hrun.
  destruct (save_ok (baseDir st) w (Join (baseDir st) n') Ho Hb Hu) as [tr1 H1].
  edestruct (replace_ok (baseDir st)) as [tr2 H2];
    [| | | |cbn [fsm_step] in Hstep;
            unfold the_store, on_world, go_on_err, go_try, go_bind, go_ret in Hstep;
            cbn [sw_store sw_world] in Hstep; rewrite H1 in Hstep; cbn [sw_store sw_world] in Hstep;
            rewrite H2 in Hstep; injection Hstep as <- <-].
  { done. }
  { simpl. rewrite lookup_insert_ne; [done|]. apply not_eq_sym, child_ne. }
  { apply lookup_insert_eq. }
  { simpl. rewrite lookup_insert_ne by apply not_eq_sym, running_ne_updating. by rewrite Hrun. }
  split.
  - unfold fsm_ok. cbn [moved r_fsm r_sw sw_store sw_world].
    exists n, n', m, db, w. do 3 (split; [done|]). split; [|done].
    cbn [at_disk w_disk]. by rewrite dir_synced_set_fs.
  - apply progress_same; cbn [sw_store sw_world]; try done. apply Hs.
Qed.

Lemma swap_moves s header old new p sw :
  fsm_ok s → last (r_hist s) = Some (served (r_sw s)) →
  r_fsm s = FMarked header old new → fsm_step (r_fsm s) (r_sw s) = (Ok p, sw) →
  fsm_ok (moved p sw s) ∧ progress (r_fsm s) (r_sw s) p sw.
Proof.
  unfold fsm_ok at 1. intros Hf Hl Hp. rewrite Hp in *. intros Hstep.
  destruct Hf as (n & n' & m & db & w0 & Hsw & -> & -> & Ha). pose proof Hsw as (_ & Hc & _).
  pose proof (alive_old _ _ _ _ _ _ _ Hsw Ha) as Hal. apply alive_served in Hal as Hm.
  pose proof (stage_moved p sw s Hl) as Hst.
  destruct (r_sw s) as [st w] eqn:Esw. cbn [sw_store sw_world] in *. cbn in Hstep. injection Hstep as <- <-.
  split.
  - unfold fsm_ok. rewrite Hst. cbn [moved r_fsm r_sw sw_store sw_world r_hist].
    exists n, n', m, db, st, w0. do 5 (split; [done|]). split; [lia|].
    cbn [pred]. apply lookup_app_l_Some. rewrite <-Hm. unfold stage.
    by rewrite <-last_lookup.
  - split; cbn [sw_store sw_world st_db st_closed]; try done. intros _. right. right. eauto.
Qed.

Lemma close_old_moves s header old olddb p sw :
  fsm_ok s → r_fsm s = FSwapped header old olddb → fsm_step (r_fsm s) (r_sw s) = (Ok p, sw) →
  fsm_ok (moved p sw s) ∧ progress (r_fsm s) (r_sw s) p sw.
Proof.
  unfold fsm_ok at 1. intros Hf Hp. rewrite Hp in *. intros Hstep.
  destruct Hf as (n & n' & m & db & st & w0 & Hsw & -> & -> & Hst & Ha & _).
  pose proof (alive_old _ _ _ _ _ _ _ Hsw Ha) as [Hop _].
  destruct (r_sw s) as [st1 w]. cbn [sw_store sw_world] in *. subst st1.
  cbn [fsm_step] in Hstep. unfold on_world, pebble_Close, go_bind, go_ret in Hstep.
  cbn [sw_store sw_world] in Hstep. rewrite decide_False in Hstep by done. injection Hstep as <- <-.
  assert (after_marks st n' ({[st_db st]} ∪ w_closed w0) w0
            (MkWorld (w_disk w) ({[st_db st]} ∪ w_closed w) (w_orc w) (w_rand w) (w_clock w) (w_trace w))) as Ha'.
  { destruct Ha as (Hd & Hc & Ho). split; [done|]. split; [cbn [w_closed]; by rewrite Hc|done]. }
  split.
  - unfold fsm_ok. cbn [moved r_fsm r_sw sw_store sw_world].
    exists n, n', m, db, st, w0. by do 3 (split; [done|]).
  - pose proof (alive_new _ _ _ _ _ _ _ _ Hsw Ha' (or_intror eq_refl)) as [Hno _].
    split; cbn [sw_store sw_world new_store st_db st_closed w_closed] in *; try done.
    + set_solver.
    + intros _. right. left. done.
    + intros h1 o1 h [= _ _ <-]. set_solver.
Qed.

Lemma remove_moves s header old p sw :
  fsm_ok s → r_fsm s = FOldClosed header old → fsm_step (r_fsm s) (r_sw s) = (Ok p, sw) →
  fsm_ok (moved p sw s) ∧ progress (r_fsm s) (r_sw s) p sw.
Proof.
  unfold fsm_ok at 1. intros Hf Hp. rewrite Hp in *. intros Hstep.
  destruct Hf as (n & n' & m & db & st & w0 & Hsw & -> & Hst & Ha).
  pose proof Hsw as (Hs & Hcl & _ & Hn' & Hne & Hnc & Hnu & Hc' & Hd' & Hdb').
  destruct Ha as (Hd & Hc & Ho). destruct (r_sw s) as [st1 w]. cbn [sw_store sw_world] in *. subst st1.
  pose proof (sv_fname _ _ _ Hs) as Hn. pose proof (sv_name _ _ _ Hs) as [Hn1 Hn2].
  pose proof (sv_base _ _ _ Hs) as Hb. cbn [sw_store sw_world] in Hb.
  cbn [fsm_step] in Hstep. unfold on_world, go_bind, go_ret in Hstep. cbn [sw_store sw_world] in Hstep.
  rewrite (RemoveAll_ok _ w Ho), path_of_Join in Hstep by done. cbn [sw_store sw_world] in Hstep.
  set (w1 := upd w (remove_if (below (child (path_of (baseDir st)) n)) (w_disk w))) in Hstep.
  assert (dir_synced (path_of (baseDir st)) (w_disk w1) = switched (baseDir st) n n' (w_disk w0)) as Hrm
    by (unfold w1; cbn [upd w_disk]; by rewrite Hd).
  destruct (syncDir_ok (Dir (Join (baseDir st) n)) w1) as [tr H]; [done| |].
  { rewrite path_of_Dir_Join by done.
    change (d_fs (dir_synced (path_of (baseDir st)) (w_disk w1)) !! path_of (baseDir st) = Some NDir).
    rewrite Hrm. by rewrite switched_base. }
  rewrite path_of_Dir_Join in H by done. rewrite Hrm in H. rewrite H in Hstep. injection Hstep as <- <-.
  set (w2 := at_disk w1 _ tr).
  assert (serves n' (db_map db) (MkSW (new_store st n') w2)) as Hs2.
  { apply (switched_serves n n' m (db_map db) db st w0 w2); done. }
  split; [unfold fsm_ok; cbn [moved r_fsm r_sw sw_store]; by split; [|eauto]|].
  apply progress_same; cbn [sw_store sw_world]; try done. apply Hs2.
Qed.

Lemma flush_moves s p sw :
  fsm_ok s → r_fsm s = FClosing ∨ r_fsm s = FFlushed → fsm_step (r_fsm s) (r_sw s) = (Ok p, sw) →
  fsm_ok (moved p sw s) ∧ progress (r_fsm s) (r_sw s) p sw.
Proof.
  unfold fsm_ok at 1. intros Hf Hp. destruct (r_sw s) as [st w]. destruct Hp as [Hp|Hp]; rewrite Hp in *.
  - destruct Hf as (Hc & m & Ha). cbn [sw_store sw_world] in *.
    destruct (pebble_Flush_ok (st_db st) w (proj1 Ha)) as (w1 & H & (_ & Hcl & _) & Hd).
    cbn [fsm_step]. unfold the_store, on_world, go_bind, go_ret. cbn [sw_store sw_world]. rewrite H.
    intros [= <- <-]. split.
    + unfold fsm_ok. cbn [moved r_fsm r_sw sw_store sw_world]. split; [done|]. exists m.
      unfold alive. by rewrite Hcl, Hd.
    + apply progress_same; cbn [sw_store sw_world]; rewrite ?Hcl; try done. apply Ha.
  - destruct Hf as (Hc & m & Ha). cbn [sw_store sw_world] in *.
    cbn [fsm_step]. unfold the_store, on_world, pebble_Close, go_bind, go_ret. cbn [sw_store sw_world].
    rewrite decide_False by apply Ha. intros [= <- <-]. split.
    + unfold fsm_ok. cbn [moved r_fsm r_sw sw_store sw_world w_closed]. split; [done|]. set_solver.
    + split; cbn [sw_store sw_world w_closed]; try done; [set_solver|]. intros _. left. set_solver.
Qed.

Lemma fsm_step_moves s p sw :
  fsm_ok s → last (r_hist s) = Some (served (r_sw s)) → r_fsm s ≠ FIdle →
  fsm_step (r_fsm s) (r_sw s) = (Ok p, sw) →
  fsm_ok (moved p sw s) ∧ progress (r_fsm s) (r_sw s) p sw.
Proof.
  intros Hf Hl Hne Hstep. destruct (r_fsm s) as [|h d o new|h o new|h o old|h o|h| | |] eqn:Hp; [done|..];
    rewrite <-Hp in *.
  - by eapply mark_moves.
  - by eapply swap_moves.
  - by eapply close_old_moves.
  - by eapply remove_moves.
  - rewrite Hp in *. injection Hstep as <- <-. unfold fsm_ok in *. rewrite Hp in Hf. split; [done|].
    destruct Hf as (_ & n & m & Hs). apply progress_same; try done. apply Hs.
  - by apply flush_moves; [|left|].
  - by apply flush_moves; [|right|].
  - rewrite Hp in *. injection Hstep as <- <-. unfold fsm_ok in *. rewrite Hp in Hf. split; [done|].
    destruct Hf as [Hc Hd]. split; try done.
Qed.

(** *** The steps of the read *)

Lemma eta_sworld (sw : sworld) : MkSW (sw_store sw) (sw_world sw) = sw.
Proof. by destruct sw. Qed.

(** A read changes nothing that the others look at. *)
Lemma fsm_ok_same s p from upto w :
  fsm_ok s → same_world (sw_world (r_sw s)) w →
  fsm_ok (MkRace (MkSW (sw_store (r_sw s)) w) (r_fsm s) (r_hist s) p from upto).
Proof.
  intros Hf Hw. pose proof Hw as (Hd & Hc & Ho). unfold fsm_ok in *. cbn [r_fsm r_sw r_hist sw_store sw_world].
  destruct (r_sw s) as [st w1]. cbn [sw_store sw_world] in *.
  assert (∀ n n' m db st0, switching n n' m db st0 w1 → switching n n' m db st0 w) as Hsw.
  { intros n n' m db st0 (H1 & H2 & H3 & H4 & H5 & H6 & H7 & H8 & H9 & H10).
    split; [by eapply serves_same|]. rewrite Ho, Hc, Hd. done. }
  assert (∀ st0 n' c w0, after_marks st0 n' c w0 w1 → after_marks st0 n' c w0 w) as Ham.
  { intros st0 n' c w0 (H1 & H2 & H3). unfold after_marks. by rewrite Hd, Hc, Ho. }
  destruct (r_fsm s) as [|h d o new|h o new|h o old|h o|h| | |].
  - destruct Hf as (? & n & m & Hs). split; [done|]. exists n, m. by eapply serves_same.
  - destruct Hf as (n & n' & m & db & ? & ?). exists n, n', m, db. split; [by apply Hsw|done].
  - destruct Hf as (n & n' & m & db & w0 & ? & ? & ? & ?). exists n, n', m, db, w0.
    do 3 (split; [done|]). by apply Ham.
  - destruct Hf as (n & n' & m & db & st0 & w0 & ? & ? & ? & ? & ? & ?). exists n, n', m, db, st0, w0.
    do 4 (split; [done|]). split; [by apply Ham|done].
  - destruct Hf as (n & n' & m & db & st0 & w0 & ? & ? & ? & ?). exists n, n', m, db, st0, w0.
    do 3 (split; [done|]). by apply Ham.
  - destruct Hf as (? & n & m & Hs). split; [done|]. exists n, m. by eapply serves_same.
  - destruct Hf as (? & m & Ha). split; [done|]. exists m. by eapply alive_same.
  - destruct Hf as (? & m & Ha). split; [done|]. exists m. by eapply alive_same.
  - by rewrite Hc.
Qed.

(** The handle that a read has loaded: what it finds there. *)
Lemma loaded_handle key s h :
  rinv key s → r_query s = QLoaded h →
  (h ∈ w_closed (sw_world (r_sw s)) ∧ (r_from s < stage s)%nat) ∨
  (∃ j m, (r_from s ≤ j ≤ stage s)%nat ∧ r_hist s !! j = Some m ∧ alive h m (sw_world (r_sw s))).
Proof.
  intros [Hf Hl Hfr Hr] Hq. unfold read_fine in Hr. rewrite Hq in Hr.
  destruct Hr as [?|[[-> Ho]|(header & old & Hp & Hlt)]]; [by left| |].
  - right. assert (r_fsm s ≠ FDown) as Hnd.
    { intros Hd. unfold fsm_ok in Hf. rewrite Hd in Hf. by destruct Hf. }
    destruct (fsm_alive s Hf Hnd) as [m Ha]. exists (stage s), m. split; [lia|]. split; [|done].
    rewrite (alive_served _ _ Ha) in Hl. unfold stage. by rewrite <-last_lookup.
  - right. unfold fsm_ok in Hf. rewrite Hp in Hf.
    destruct Hf as (n & n' & m & db & st & w0 & Hsw & _ & -> & _ & Ha & Hpos & Hm).
    exists (pred (stage s)), m. split; [lia|]. split; [done|]. by eapply alive_old.
Qed.

Lemma query_moves key s p sw :
  rinv key s → query_step key (r_query s) (r_sw s) = (p, sw) →
  rinv key (MkRace sw (r_fsm s) (r_hist s) p (r_from s) (if r_query s is QDone _ then r_upto s else stage s)).
Proof.
  intros Hinv Hq. pose proof Hinv as [Hf Hl Hfr Hr].
  assert (same_world (sw_world (r_sw s)) (sw_world (r_sw s))) as Hrefl by done.
  apply (fsm_ok_same s p (r_from s) (if r_query s is QDone _ then r_upto s else stage s)) in Hrefl as Hkeep;
    [|done]. rewrite (eta_sworld (r_sw s)) in Hkeep.
  destruct (r_query s) as [| | | |h|r] eqn:Hp; cbn [query_step] in Hq.
  - injection Hq as <- <-. by split.
  - injection Hq as <- <-. split; try done. unfold read_fine. cbn [r_query r_sw r_from r_upto].
    destruct (st_closed (sw_store (r_sw s))) eqn:Hc; [right; left; split; [done|exact Hc]|done].
  - injection Hq as <- <-. split; try done. unfold read_fine. cbn [r_query r_sw r_from r_upto].
    destruct (st_closed (sw_store (r_sw s))) eqn:Hc; [right; left; split; [done|exact Hc]|done].
  - injection Hq as <- <-. split; try done. unfold read_fine in *. cbn [r_query r_sw r_from]. rewrite Hp in Hr.
    destruct (decide (st_db (sw_store (r_sw s)) ∈ w_closed (sw_world (r_sw s)))) as [Hin|Hin];
      [left|by right; left].
    split; [done|]. apply Hr. assert (r_fsm s = FDown ∨ r_fsm s ≠ FDown) as [Hd|Hd] by (destruct (r_fsm s); eauto).
    + unfold fsm_ok in Hf. rewrite Hd in Hf. apply Hf.
    + destruct (fsm_alive s Hf Hd) as [m Ha]. by destruct Ha.
  - destruct (loaded_handle key s h Hinv Hp) as [[Hin Hlt]|(j & m & Hj & Hm & Ha)].
    + rewrite get_on_closed in Hq by done. injection Hq as <- <-. split; try done.
      right. right. done.
    + destruct (get_on_ok h key m (r_sw s) Ha) as (w & Hg & Hw). rewrite Hg in Hq. injection Hq as <- <-.
      split; cbn [r_hist r_sw r_from]; try done.
      * by apply fsm_ok_same.
      * destruct Hw as (Hd & _). unfold served in *. cbn [sw_store sw_world]. by rewrite Hd.
      * left. by exists j, m.
  - injection Hq as <- <-. split; try done. unfold read_fine in *. by rewrite Hp in Hr.
Qed.

Lemma rinv_step key s s' : rinv key s → rstep key s s' → rinv key s'.
Proof.
  intros Hinv H. pose proof Hinv as [Hf Hl Hfr Hr]. destruct H as
    [s data r sw Hp Ha|s rd e sw Hp Hun Hld|s id idx unix l p sw Hp Hun Ho Hfit Hok Hnd Hld|s sw Hp Hc
    |s p sw Hp Hst|s header Hp|s|s p sw Hq].
  - destruct (apply_moves s data r sw Hf Hp Ha). apply rinv_moved; [done..|]. by rewrite Hp.
  - destruct (load_fails_moves s rd e sw Hf Hp Hun Hld). apply rinv_moved; [done..|]. by rewrite Hp.
  - destruct (load_moves s id idx unix l p sw Hf Hp Hun Ho Hfit Hok Hnd Hld). apply rinv_moved; [done..|].
    by rewrite Hp.
  - destruct (close_moves s sw Hf Hp Hc). apply rinv_moved; [done..|]. by rewrite Hp.
  - destruct (fsm_step_moves s p sw Hf Hl Hp Hst). by apply rinv_moved.
  - apply rinv_moved; [done|..].
    + unfold fsm_ok in *. by rewrite Hp in Hf.
    + unfold fsm_ok in Hf. rewrite Hp in *. destruct Hf as (_ & n & m & Hs).
      apply progress_same; try done. apply Hs.
  - by split.
  - by apply query_moves.
Qed.

Lemma rinv_reachable n m key sw s :
  serves n m sw → st_closed (sw_store sw) = false → race_reachable key sw s → rinv key s.
Proof.
  intros Hs Hc H. assert (rinv key (race_init sw)) as Hi.
  { split; try done. split; [done|]. by exists n, m. }
  unfold race_reachable in H. remember (race_init sw) as s0 eqn:E. clear E.
  induction H as [|x y z Hxy _ IH]; [done|]. apply IH. by eapply rinv_step.
Qed.
End races_ok.

(** ** Theorems *)

Section race_theorems.
Context `{PL : PebbleLaws, !PebbleReliable _, GL : GzipLaws}.

(** C8: What a read that races with the state machine comes back with. However
    its steps are interleaved with those of [Apply], [Restore] and [Close], the
    answer is the value of the key in one of the maps that the store served
    between the moment the read was asked for and its last step; or the store
    has been closed and the answer says so; or the process panics, which it can
    only do when the state machine has made a step in between. The restores are
    those that fail while they load, on any stream, and those of a snapshot in
    which no system call fails. *)
Theorem racing_read_is_atomic n m key sw s r :
  serves n m sw → st_closed (sw_store sw) = false → race_reachable key sw s → r_query s = QDone r →
  (∃ j m', (r_from s ≤ j ≤ r_upto s)%nat ∧ r_hist s !! j = Some m' ∧
           r = Ok (MkResponse (default [] (m' !! cf_key key)) None)) ∨
  (r = closed_response ∧ st_closed (sw_store (r_sw s)) = true) ∨
  (r = Panic "pebble: closed" ∧ (r_from s < r_upto s)%nat).
Proof.
  intros Hs Hc Hr Hq. destruct (rinv_reachable n m key sw s Hs Hc Hr) as [_ _ _ Hrd].
  unfold read_fine in Hrd. by rewrite Hq in Hrd.
Qed.

(** C38: A read during a restore can take the process down. A restore of a good
    snapshot, in which nothing fails, closes the old database right after the
    swap: a read that has loaded the database pointer before the swap and uses it
    after that panics, although the store is open all the time. *)
Theorem read_during_restore_panics n m key id idx unix l sw :
  serves n m sw → st_closed (sw_store sw) = false → w_orc (sw_world sw) = [] → name_unused sw →
  header_fits id idx unix → Forall entry_ok l → NoDup l.*1 →
  ∃ s, race_reachable key sw s ∧ r_query s = QDone (Panic "pebble: closed") ∧
       r_fsm s = FRestored (saved_header id idx unix) ∧ st_closed (sw_store (r_sw s)) = false.
Proof.
  intros Hs Hc Ho Hun Hfit Hok Hnd.
  destruct (recover_stream id idx unix l n m sw) as (sw5 & H & Hrest & _); [done|done|apply Hun|done..|].
  destruct Hrest as (_ & _ & _ & Hcl5 & Hin & _). rewrite <-restore_in_steps_ok in H.
  apply go_bind_Ok_inv in H as (p1 & sw1 & H1 & H). apply go_bind_Ok_inv in H as (p2 & sw2 & H2 & H).
  apply go_bind_Ok_inv in H as (p3 & sw3 & H3 & H). apply go_bind_Ok_inv in H as (p4 & sw4 & H4 & H).
  apply go_bind_Ok_inv in H as (p5 & sw5' & H5 & H).
  assert (p5 = FRestored (saved_header id idx unix) ∧ sw5' = sw5) as [-> ->].
  { destruct p5; try discriminate H. by injection H as -> ->. }
  assert (∃ h d o new, p1 = FLoaded h d o new) as (h1 & d1 & o1 & new1 & ->).
  { unfold load_step in H1. apply go_bind_Ok_inv in H1 as (st & ? & _ & H1).
    apply go_bind_Ok_inv in H1 as ([[[h d] o] new] & ? & _ & H1). injection H1 as <- _. eauto. }
  assert (∃ h o new, p2 = FMarked h o new) as (h2 & o2 & new2 & ->).
  { cbn [fsm_step] in H2. apply go_bind_Ok_inv in H2 as (? & ? & _ & H2).
    apply go_bind_Ok_inv in H2 as (? & ? & _ & H2). apply go_bind_Ok_inv in H2 as (? & ? & _ & H2).
    injection H2 as <- _. eauto. }
  assert (∃ h o old, p3 = FSwapped h o old) as (h3 & o3 & old3 & ->).
  { cbn [fsm_step] in H3. apply go_bind_Ok_inv in H3 as (? & ? & _ & H3).
    apply go_bind_Ok_inv in H3 as (? & ? & _ & H3). injection H3 as <- _. eauto. }
  assert (∃ h o, p4 = FOldClosed h o) as (h4 & o4 & ->).
  { cbn [fsm_step] in H4. apply go_bind_Ok_inv in H4 as (? & ? & _ & H4). injection H4 as <- _. eauto. }
  eexists. split.
  - unfold race_reachable. eapply rtc_l; [apply s_ask|].
    eapply rtc_l; [apply (s_query key _ QChecked sw); cbn [query_step r_query r_sw race_init]; by rewrite Hc|].
    eapply rtc_l; [apply (s_query key _ QOpen sw); cbn [query_step r_query r_sw race_init]; by rewrite Hc|].
    eapply rtc_l; [by apply s_query|].
    eapply rtc_l; [eapply (s_load key _ id idx unix l); [done..|exact H1]|].
    eapply rtc_l; [eapply s_fsm; [done|exact H2]|]. eapply rtc_l; [eapply s_fsm; [done|exact H3]|].
    eapply rtc_l; [eapply s_fsm; [done|exact H4]|]. eapply rtc_l; [eapply s_fsm; [done|exact H5]|].
    eapply rtc_l; [|apply rtc_refl]. apply (s_query key _ (QDone (Panic "pebble: closed")) sw5).
    cbn [moved r_query r_sw query_step race_init]. by rewrite get_on_closed.
  - cbn [moved r_query r_fsm r_sw]. split; [done|]. split; [done|]. by rewrite Hcl5.
Qed.
End race_theorems.

(** ** Witnesses *)

Lemma demo_unused : name_unused demo_store.
Proof. split; [exact demo_free|]. intros q _. apply not_elem_of_empty. Qed.

(** A read that nothing disturbs. *)
Lemma racing_read_is_atomic_witness :
  ∃ s, race_reachable (G := Stored) (string_bytes "k") demo_store s ∧
       ∃ j m', (0 ≤ j ≤ 0)%nat ∧ r_hist s !! j = Some m' ∧
       r_query s = QDone (Ok (MkResponse (default [] (m' !! cf_key (string_bytes "k"))) None)).
Proof.
  destruct (get_on_ok (st_db (sw_store demo_store)) (string_bytes "k") demo_map demo_store
    (serves_alive _ _ _ demo_serves)) as (w & Hg & _).
  set (r := Ok (MkResponse (default [] (demo_map !! cf_key (string_bytes "k"))) None)) in Hg.
  set (s := MkRace (MkSW (sw_store demo_store) w) FIdle [served demo_store] (QDone r) 0 0).
  assert (query_step (string_bytes "k") (QLoaded (st_db (sw_store demo_store))) demo_store =
          (QDone r, MkSW (sw_store demo_store) w)) as Hg0 by (cbn [query_step]; by rewrite Hg).
  assert (race_reachable (G := Stored) (string_bytes "k") demo_store s) as Hr.
  { unfold race_reachable. eapply rtc_l; [apply s_ask|].
    eapply rtc_l; [apply (s_query _ _ QChecked demo_store); reflexivity|].
    eapply rtc_l; [apply (s_query _ _ QOpen demo_store); reflexivity|].
    eapply rtc_l; [by apply s_query|].
    eapply rtc_l; [|apply (rtc_refl _ s)].
    exact (s_query (G := Stored) (string_bytes "k")
      (MkRace demo_store FIdle [served demo_store] (QLoaded (st_db (sw_store demo_store))) 0 0)
      (QDone r) (MkSW (sw_store demo_store) w) Hg0). }
  exists s. split; [exact Hr|].
  destruct (racing_read_is_atomic (GL := stored_laws) "a" demo_map (string_bytes "k") demo_store s r
    demo_serves eq_refl Hr eq_refl) as [(j & m' & Hj & Hm & E)|[[_ Hc]|[_ Hlt]]].
  - exists j, m'. split; [exact Hj|]. split; [exact Hm|]. cbn [r_query s]. by rewrite E.
  - discriminate Hc.
  - simpl in Hlt. lia.
Defined.

Lemma read_during_restore_panics_witness :
  ∃ s, race_reachable (P := Mem no_fault) (G := Stored) (string_bytes "k") demo_store s ∧
       r_query s = QDone (Panic "pebble: closed").
Proof.
  destruct (read_during_restore_panics (GL := stored_laws) "a" demo_map (string_bytes "k") "node1" 7 1700000000
    demo_entries_kv demo_store demo_serves eq_refl eq_refl demo_unused demo_fits demo_entries_ok
    demo_entries_nodup) as (s & H1 & H2 & _).
  exact (ex_intro _ s (conj H1 H2)).
Defined.
