(* ===== verification/History.v ===== *)
(** * History.v: what the log makes of the database.

    The entries of the log as writes to single keys, the maps that the prefixes
    of a log make, and what becomes of a database that already holds the effect
    of entries that raft applies to it again: after a restart without a snapshot
    raft replays the log from its beginning, on top of the database that the
    store reopens. *)
From S2P Require Import Prelude Binary Paths Pebble FileSystem DataDir Snapshot Json Store Fsm.

(** ** What the entries of the log do to one key *)

(** The entry is an insert of the key. *)
Definition writes_key (key data : bytes) : bool :=
  match Unmarshal_Command data with
  | Ok c =>
      if decide (Type_ c = Query) then false
      else if decide (Type_ c = Insert) then
        match Unmarshal_SetPayload (Payload c) with
        | Ok sp => bool_decide (Key sp = key)
        | _ => false
        end
      else false
  | _ => false
  end.

#[global] Instance cf_key_inj : Inj (=) (=) cf_key.
Proof. intros a b H. unfold cf_key, buildColumnFamilyKey in H. by apply (inj (app [_])) in H. Qed.

Lemma spec_apply_other m key data :
  writes_key key data = false → (spec_apply m data).2 !! cf_key key = m !! cf_key key.
Proof.
  unfold writes_key, spec_apply. destruct (Unmarshal_Command data) as [c|?|?|]; try done.
  case_decide; [done|]. case_decide; [|done].
  destruct (Unmarshal_SetPayload (Payload c)) as [sp|?|?|]; try done.
  intros Hk%bool_decide_eq_false. simpl. apply lookup_insert_ne. by intros ?%(inj cf_key).
Qed.

Lemma spec_run_other m key logs :
  Forall (λ log, writes_key key (Data log) = false) logs →
  (spec_run m logs).2 !! cf_key key = m !! cf_key key.
Proof.
  intros H. revert m. induction H as [|log logs Hl _ IH]; intros m; [done|]. simpl.
  pose proof (spec_apply_other m key (Data log) Hl) as H1.
  destruct (spec_apply m (Data log)) as [r m1]. simpl in *. specialize (IH m1).
  destruct (spec_run m1 logs) as [rs m2]. simpl in *. congruence.
Qed.

Lemma spec_run_app m l1 l2 :
  spec_run m (l1 ++ l2) =
    ((spec_run m l1).1 ++ (spec_run (spec_run m l1).2 l2).1, (spec_run (spec_run m l1).2 l2).2).
Proof.
  revert m. induction l1 as [|log l1 IH]; intros m; simpl; [by destruct (spec_run m l2)|].
  destruct (spec_apply m (Data log)) as [r m1]. rewrite IH. by destruct (spec_run m1 l1).
Qed.

Lemma length_spec_run m logs : length (spec_run m logs).1 = length logs.
Proof.
  revert m. induction logs as [|log logs IH]; intros m; simpl; [done|].
  destruct (spec_apply m (Data log)) as [r m1]. specialize (IH m1).
  destruct (spec_run m1 logs). simpl in *. lia.
Qed.

(** An entry sets a key to the same value whatever the map, or leaves it. *)
Lemma spec_apply_at data key :
  (∀ X, (spec_apply X data).2 !! key = X !! key) ∨
  (∃ v, ∀ X, (spec_apply X data).2 !! key = Some v).
Proof.
  unfold spec_apply. destruct (Unmarshal_Command data) as [c|?|?|]; try by left.
  case_decide; [by left|]. case_decide; [|by left].
  destruct (Unmarshal_SetPayload (Payload c)) as [sp|?|?|]; try by left.
  destruct (decide (cf_key (Key sp) = key)) as [<-|Hk].
  - right. exists (Value sp). intros X. apply lookup_insert_eq.
  - left. intros X. by apply lookup_insert_ne.
Qed.

(** ** The maps of a log *)

(** What the first [k] entries make of [m]. *)
Definition prefix_map (m : gmap bytes bytes) (log : list raft_Log) (k : nat) : gmap bytes bytes :=
  (spec_run m (take k log)).2.

Lemma prefix_map_app m log l k :
  (k ≤ length log)%nat → prefix_map m (log ++ l) k = prefix_map m log k.
Proof. intros Hk. unfold prefix_map. by rewrite take_app_le. Qed.

Lemma prefix_map_S m log k e :
  log !! k = Some e → prefix_map m log (S k) = (spec_apply (prefix_map m log k) (Data e)).2.
Proof.
  intros He. unfold prefix_map. rewrite (take_S_r _ _ _ He), spec_run_app. simpl.
  by destruct (spec_apply _ (Data e)).
Qed.

Lemma prefix_map_all m log k : (length log ≤ k)%nat → prefix_map m log k = (spec_run m log).2.
Proof. intros Hk. unfold prefix_map. by rewrite take_ge. Qed.

(** Every key of the database has the value it has after some prefix, of at
    least [a] and at most [k] entries: [a] is what has been applied since the
    start, [k] what the database has seen altogether. *)
Definition between (m : gmap bytes bytes) (log : list raft_Log) (a k : nat) (X : gmap bytes bytes) : Prop :=
  ∀ key, ∃ j, (a ≤ j ≤ k)%nat ∧ X !! key = prefix_map m log j !! key.

Lemma between_prefix m log k : between m log k k (prefix_map m log k).
Proof. intros key. by exists k. Qed.

Lemma between_weaken m log a k a' k' X :
  between m log a k X → (a' ≤ a)%nat → (k ≤ k')%nat → between m log a' k' X.
Proof. intros H Ha Hk key. destruct (H key) as (j & Hj & E). exists j. split; [lia|done]. Qed.

Lemma between_le m log a k X : between m log a k X → (a ≤ k)%nat.
Proof. intros H. destruct (H []) as (j & ? & _). lia. Qed.

Lemma between_app m log l a k X :
  (k ≤ length log)%nat → between m log a k X → between m (log ++ l) a k X.
Proof.
  intros Hk H key. destruct (H key) as (j & Hj & E). exists j. split; [done|].
  by rewrite prefix_map_app by lia.
Qed.

(** A database that has seen no more than what is applied is the map of it. *)
Lemma between_exact m log a k X : between m log a k X → (k ≤ a)%nat → X = prefix_map m log a.
Proof.
  intros H Hk. apply map_eq. intros key. destruct (H key) as (j & Hj & E).
  by replace j with a in E by lia.
Qed.

(** Applying the next entry. *)
Lemma between_apply m log a k X e :
  between m log a k X → log !! a = Some e →
  between m log (S a) (Nat.max k (S a)) (spec_apply X (Data e)).2.
Proof.
  intros H He key. destruct (spec_apply_at (Data e) key) as [Hk|[v Hk]].
  - destruct (H key) as (j & Hj & E). destruct (decide (j = a)) as [->|Hne].
    + exists (S a). split; [lia|]. by rewrite (prefix_map_S _ _ _ _ He), !Hk.
    + exists j. split; [lia|]. by rewrite Hk.
  - exists (S a). split; [lia|]. by rewrite (prefix_map_S _ _ _ _ He), !Hk.
Qed.

(** Applying the rest of the log. *)
Lemma between_run m before logs k X :
  between m (before ++ logs) (length before) k X →
  between m (before ++ logs) (length (before ++ logs)) (Nat.max k (length (before ++ logs)))
    (spec_run X logs).2.
Proof.
  revert before k X. induction logs as [|e logs IH]; intros before k X H.
  - rewrite app_nil_r in *. by eapply between_weaken; [exact H|lia..].
  - assert ((before ++ e :: logs) !! length before = Some e) as He by by apply list_lookup_middle.
    apply (between_apply _ _ _ _ _ _ H) in He. cbn [spec_run].
    destruct (spec_apply X (Data e)) as [r X1]. cbn [snd] in He.
    rewrite cons_middle, (assoc_L (++)) in He |- *.
    replace (S (length before)) with (length (before ++ [e])) in He
      by (rewrite length_app; simpl; lia).
    apply IH in He. destruct (spec_run X1 logs) as [rs X2]. cbn [snd] in *.
    eapply between_weaken; [exact He|lia|]. rewrite !length_app. simpl. lia.
Qed.

(** Replaying a log on top of a database that holds the effect of a prefix of it
    gives what the log gives. *)
Lemma replay m log k X :
  between m log 0 k X → (k ≤ length log)%nat → (spec_run X log).2 = (spec_run m log).2.
Proof.
  intros H Hk. apply (between_run m [] log) in H. simpl in H.
  apply between_exact in H; [|lia]. by rewrite H, prefix_map_all.
Qed.

(** ** Restarts *)

Section restart.
Context {P : Pebble} `{!PebbleLaws P, !PebbleReliable P}.

(** A state machine opened on a disk from which the database can be recovered. *)
Lemma NewStateMachine_reopen addr id dir n m w :
  w_orc w = [] → base_ok dir w → fname n → n ≠ currentDBFilename → n ≠ updatingDBFilename →
  recoverable dir n m (w_disk w) →
  ∃ fw w', NewStateMachine addr id dir w = (Ok fw, w') ∧ running n m fw ∧ chan_ok fw ∧
           fsmIndex (fw_sm fw) = 0 ∧ baseDir (sw_store (fw_sw fw)) = dir ∧ w_orc (sw_world (fw_sw fw)) = [] ∧
           (durable dir n m (w_disk w) → durable dir n m (w_disk (sw_world (fw_sw fw)))).
Proof.
  intros Ho Hbo Hn Hc Hu Hrec.
  destruct (newStore_reopen dir n m w Ho Hbo Hn Hc Hu Hrec) as (st & w' & H & Hs & Hb & Hcl & Ho' & Hk).
  eexists _, w'. split; [unfold NewStateMachine; erewrite go_bind_ok by exact H; reflexivity|].
  split; [by split|]. split; [|done].
  split; [simpl; lia|]. split; [apply not_elem_of_empty|]. by intros c ?%elem_of_empty.
Qed.

(** The disk of an open machine, as it is or, when it has reached the disk, after a
    crash. *)
Definition left_disk (n : string) (m : gmap bytes bytes) (fw : fworld) (d : disk) : Prop :=
  d = w_disk (sw_world (fw_sw fw)) ∨
  durable (baseDir (sw_store (fw_sw fw))) n m (w_disk (sw_world (fw_sw fw))) ∧
  crash (w_disk (sw_world (fw_sw fw))) d.

Lemma running_recoverable n m fw d :
  running n m fw → left_disk n m fw d →
  fname n ∧ n ≠ currentDBFilename ∧ n ≠ updatingDBFilename ∧
  recoverable (baseDir (sw_store (fw_sw fw))) n m d.
Proof.
  intros [Hsv _] Hd. pose proof (sv_name _ _ _ Hsv) as [H1 H2].
  split; [apply Hsv|]. do 2 (split; [done|]). destruct Hd as [->|[Hd Hcr]].
  - exact (serves_recoverable _ _ _ Hsv).
  - by eapply durable_recoverable, durable_crash.
Qed.

(** C7: A restart does not lose or corrupt anything, whatever raft applies again.
    A machine stops, or crashes after its directories and its current file had
    reached the disk, with at most the first [k] entries of the log in
    its database, possibly in the middle of an earlier replay; it is opened again
    and raft, which has no snapshot, applies the log from its beginning: the
    machine ends with the map and the index of a machine that never stopped. *)
Theorem restarted_machine_catches_up addr id dir n m log k X fw w :
  running n X fw → between m log 0 k X → (k ≤ length log)%nat →
  baseDir (sw_store (fw_sw fw)) = dir →
  left_disk n X fw (w_disk w) →
  w_orc w = [] → base_ok dir w →
  ∃ fw1 w1 rs fw2,
    NewStateMachine addr id dir w = (Ok fw1, w1) ∧ apply_all log fw1 = (Ok rs, fw2) ∧
    running n (spec_run m log).2 fw2 ∧ fsmIndex (fw_sm fw2) = last_index 0 log.
Proof.
  intros Hr Hb Hk <- Hd Ho Hbo. destruct (running_recoverable n _ fw _ Hr Hd) as (Hn & Hc & Hu & Hrec).
  destruct (NewStateMachine_reopen addr id _ n _ w Ho Hbo Hn Hc Hu Hrec)
    as (fw1 & w1 & H1 & Hr1 & _ & Hi1 & _).
  destruct (apply_all_ok log n _ fw1 Hr1) as (fw2 & H2 & Hr2 & Hi2 & _).
  eexists fw1, w1, _, fw2. split; [done|]. split; [exact H2|]. split; [|by rewrite Hi2, Hi1].
  by rewrite (replay m log k) in Hr2.
Qed.

(** While the log is replayed, a stale read can go back: the reopened database
    answers with the value of the last entry, and, once the first entry is applied
    again, with that of the first. *)
Theorem replay_goes_back addr id dir n m key v1 v2 i1 i2 fw w :
  let entry v := Marshal_Command (MkCommand Insert (Marshal_SetPayload (MkSetPayload key v))) in
  let log := [MkLog i1 (entry v1); MkLog i2 (entry v2)] in
  running n (prefix_map m log 2) fw → baseDir (sw_store (fw_sw fw)) = dir →
  w_disk (sw_world (fw_sw fw)) = w_disk w → w_orc w = [] → base_ok dir w →
  ∃ fw1 w1 fw2 fw3 fw4,
    NewStateMachine addr id dir w = (Ok fw1, w1) ∧
    ReadLocal key fw1 = (Ok (MkResponse v2 None), fw2) ∧
    Apply (MkLog i1 (entry v1)) fw2 = (Ok (MkResponse [] None), fw3) ∧
    ReadLocal key fw3 = (Ok (MkResponse v1 None), fw4).
Proof.
  intros entry log Hr <- Hd Ho Hbo.
  destruct (running_recoverable n _ fw _ Hr (or_introl (eq_sym Hd))) as (Hn & Hc & Hu & Hrec).
  destruct (NewStateMachine_reopen addr id _ n _ w Ho Hbo Hn Hc Hu Hrec) as (fw1 & w1 & H1 & Hr1 & _).
  assert (∀ X v, spec_apply X (entry v) = (MkResponse [] None, <[cf_key key := v]> X)) as He.
  { intros X v. unfold spec_apply, entry. rewrite Unmarshal_Marshal_Command by by right. simpl.
    by rewrite Unmarshal_Marshal_SetPayload. }
  destruct (ReadLocal_ok key n _ _ Hr1) as (fw2 & H2 & Hr2).
  destruct (Apply_ok (MkLog i1 (entry v1)) n _ _ Hr2) as (sw3 & H3 & Hr3 & _).
  assert (prefix_map m log 2 = <[cf_key key := v2]> (<[cf_key key := v1]> m)) as Hm.
  { unfold prefix_map, log. cbn [take spec_run Data]. by rewrite !He. }
  rewrite Hm, lookup_insert_eq in H2. cbn [Data] in Hr3, H3. rewrite He in Hr3, H3.
  cbn [fst snd] in Hr3, H3.
  destruct (ReadLocal_ok key n _ _ Hr3) as (fw4 & H4 & _). rewrite lookup_insert_eq in H4.
  eexists fw1, w1, fw2, _, fw4. split; [done|]. split; [exact H2|]. split; [exact H3|exact H4].
Qed.
End restart.

(** ** Witnesses *)

Lemma demo_base_ok : base_ok "/d" (sw_world demo_store).
Proof. split; [exact (sv_above _ _ _ demo_serves)|by vm_compute|exact demo_names]. Qed.

Definition demo_history : list raft_Log := [MkLog 8 (demo_entry "x" "1")].

Lemma restarted_machine_catches_up_witness :
  ∃ fw1 w1 rs fw2,
    NewStateMachine "127.0.0.1:7000" "node1" "/d" (sw_world demo_store) = (Ok fw1, w1) ∧
    apply_all demo_history fw1 = (Ok rs, fw2) ∧
    running "a" (<[cf_key (string_bytes "x") := string_bytes "1"]> demo_map) fw2 ∧ fsmIndex (fw_sm fw2) = 8.
Proof.
  destruct (restarted_machine_catches_up "127.0.0.1:7000" "node1" "/d" "a" demo_map demo_history 0 demo_map
    demo_fsm (sw_world demo_store)) as (fw1 & w1 & rs & fw2 & H1 & H2 & H3 & H4).
  - exact demo_running.
  - exact (between_prefix demo_map demo_history 0).
  - simpl. lia.
  - reflexivity.
  - left. reflexivity.
  - reflexivity.
  - exact demo_base_ok.
  - exact (ex_intro _ fw1 (ex_intro _ w1 (ex_intro _ rs (ex_intro _ fw2 (conj H1 (conj H2 (conj H3 H4))))))).
Defined.
