(* ===== verification/Replica.v ===== *)
(** * Replica.v: the life of one replica's database.

    What raft does to a state machine: it applies the entries of the log in order,
    each in two steps between which anything else may read, takes, persists and
    installs snapshots, and starts the machine again after a stop or a crash;
    [newRaft] may raise the index of the machine to what raft has applied.
    [holds] is what the database then holds of the log; every step of
    [replica_step] keeps it. Cluster.v and Replicas.v put replicas into a
    cluster. *)
From S2P Require Import Prelude Binary Paths Pebble FileSystem DataDir Snapshot Json Store Fsm History.

Section replica.
Context {P : Pebble} {G : Gzip}.

(** [Apply] up to the write: the index is stored first. *)
Definition apply_begins (log : raft_Log) : GoM fworld bool :=
  closed <- on_store isclosed ;;
  if closed : bool then go_ret false
  else
    sm <- the_sm ;;
    set_sm (set_index sm (Index log)) ;;
    go_ret true.

(** The write. *)
Definition apply_writes (log : raft_Log) : GoM fworld CommandResponse := on_store (applyCommand (Data log)).

(** The restore of a snapshot is possible: no system call fails, and the name drawn
    for the new directory is unused. *)
Definition can_install (fw : fworld) : Prop :=
  w_orc (sw_world (fw_sw fw)) = [] ∧ name_free (baseDir (sw_store (fw_sw fw))) (sw_world (fw_sw fw)).

(** What is on the disk when the node stops, how much of the log it holds, and
    whether it has all reached the disk ([solid]). The process can stop, and the
    machine can crash, at any time, also in the middle of the restore of a
    snapshot. A process that is killed in the middle of a restore may leave the
    switch to the new database unsynced, and the start that follows does not sync
    it before it removes the old one (Store.v, [killed_restore_is_not_durable]):
    from then on no crash of the machine is considered for this node. [avail] are
    the snapshots, each with how much was applied and seen when it was taken. *)
Inductive leaves_disk (avail : bytes → nat → nat → Prop) (kept : nat) (solid : bool) (fw : fworld) :
    nat → bool → disk → Prop :=
| leaves_stops : leaves_disk avail kept solid fw kept solid (w_disk (sw_world (fw_sw fw)))
| leaves_crashes d :
    solid = true → crash (w_disk (sw_world (fw_sw fw))) d → leaves_disk avail kept solid fw kept true d
| leaves_killed_in_restore data a k r sw' tr d :
    solid = true → avail data a k → can_install fw →
    recoverSnapShot (MkReader data None) (fw_sw fw) = (r, sw') →
    w_trace (sw_world sw') = w_trace (sw_world (fw_sw fw)) ++ tr → d ∈ tr →
    leaves_disk avail kept solid fw (Nat.max kept k) false d
| leaves_crashes_in_restore data a k r sw' tr d d' :
    solid = true → avail data a k → can_install fw →
    recoverSnapShot (MkReader data None) (fw_sw fw) = (r, sw') →
    w_trace (sw_world sw') = w_trace (sw_world (fw_sw fw)) ++ tr → d ∈ tr → crash d d' →
    leaves_disk avail kept solid fw (Nat.max kept k) true d'.

(** [data] is a snapshot that a node persisted when it had applied [a] entries and
    its database had seen [k]. The index in its header is not tied to [a]: a node
    that has started raises its index to what raft has applied. *)
Definition snapshot_stream (m : gmap bytes bytes) (log : list raft_Log) (data : bytes) (a k : nat) : Prop :=
  ∃ nodeId lastIndex unix l,
    data = stream_bytes nodeId lastIndex unix l ∧ header_fits nodeId lastIndex unix ∧
    Forall entry_ok l ∧ NoDup l.*1 ∧ between m log a k (list_to_map l) ∧ (k ≤ length log)%nat.

(** The value of the key after the first [k] entries. *)
Definition value_at (m : gmap bytes bytes) (key : bytes) (log : list raft_Log) (k : nat) : bytes :=
  default [] (prefix_map m log k !! cf_key key).

(** A node: its state machine, how much of the log it has applied since its start
    and how much its database has seen, whether an [Apply] has stored its index and
    not written yet, the snapshot that raft is persisting, with the same numbers,
    and whether the database has reached the disk. *)
Record replica := MkReplica {
  rp_fw : fworld;
  rp_applied : nat;
  rp_kept : nat;
  rp_begun : bool;
  rp_taken : option (fsmSnapshot * nat * nat);
  rp_solid : bool;
}.

Definition with_rfw (fw : fworld) (r : replica) : replica :=
  MkReplica fw (rp_applied r) (rp_kept r) (rp_begun r) (rp_taken r) (rp_solid r).

(** What kind of step a node makes. *)
Inductive life := Works | Persists (data : bytes) (a k : nat) | Installs | Restarts.

(** The steps of a node. Raft calls [Apply], [Snapshot] and [Restore] from one
    goroutine, and [Persist] from another one: a snapshot that was taken may be
    persisted after others were installed. *)
Inductive replica_step (log : list raft_Log) (avail : bytes → nat → nat → Prop) :
    life → replica → replica → Prop :=
| rp_begins r e fw :
    rp_begun r = false → log !! rp_applied r = Some e → apply_begins e (rp_fw r) = (Ok true, fw) →
    replica_step log avail Works r
      (MkReplica fw (rp_applied r) (rp_kept r) true (rp_taken r) (rp_solid r))
| rp_writes r e resp fw :
    rp_begun r = true → log !! rp_applied r = Some e → apply_writes e (rp_fw r) = (Ok resp, fw) →
    replica_step log avail Works r
      (MkReplica fw (S (rp_applied r)) (Nat.max (rp_kept r) (S (rp_applied r))) false (rp_taken r) (rp_solid r))
| rp_raises r i fw :
    (** [newRaft], with what raft says it has applied; here, at any time *)
    UpdateFsmIndex i (rp_fw r) = (Ok tt, fw) → replica_step log avail Works r (with_rfw fw r)
| rp_reads r key resp fw :
    ReadLocal key (rp_fw r) = (Ok resp, fw) → replica_step log avail Works r (with_rfw fw r)
| rp_takes r now fs fw :
    rp_begun r = false → fsm_Snapshot now (rp_fw r) = (Ok fs, fw) →
    replica_step log avail Works r
      (MkReplica fw (rp_applied r) (rp_kept r) false (Some (fs, rp_applied r, rp_kept r)) (rp_solid r))
| rp_persists r fs a k unix dur now fw data :
    (** the sizes that the format can hold *)
    rp_taken r = Some (fs, a, k) → map_ok (snap_map (fs_snapshot fs)) →
    header_fits (nodeId (fw_sm (rp_fw r))) (fs_lastIndex fs) unix →
    Persist fs unix dur now (rp_fw r, MkSink [] false false []) = (Ok tt, (fw, MkSink data true false [])) →
    replica_step log avail (Persists data a k) r
      (MkReplica fw (rp_applied r) (rp_kept r) (rp_begun r) None (rp_solid r))
| rp_persist_fails r fs a k unix dur now e fw sk sk' :
    rp_taken r = Some (fs, a, k) → Persist fs unix dur now (rp_fw r, sk) = (Err e, (fw, sk')) →
    replica_step log avail Works r
      (MkReplica fw (rp_applied r) (rp_kept r) (rp_begun r) None (rp_solid r))
| rp_installs r data a k start now fw :
    (** what is installed does not take back what was applied *)
    rp_begun r = false → avail data a k → (rp_applied r ≤ a)%nat → can_install (rp_fw r) →
    Restore (MkReader data None) start now (rp_fw r) = (Ok tt, fw) →
    replica_step log avail Installs r (MkReplica fw a k false (rp_taken r) (rp_solid r))
| rp_install_fails r rd start now e e' fw :
    (** a restore fails before it has switched to the new database *)
    rp_begun r = false →
    name_free (baseDir (sw_store (fw_sw (rp_fw r)))) (sw_world (fw_sw (rp_fw r))) →
    (recover_load (baseDir (sw_store (fw_sw (rp_fw r)))) rd (sw_world (fw_sw (rp_fw r)))).1 = Err e →
    Restore rd start now (rp_fw r) = (Err e', fw) → replica_step log avail Works r (with_rfw fw r)
| rp_restarts r kept solid addr id w fw w' :
    leaves_disk avail (rp_kept r) (rp_solid r) (rp_fw r) kept solid (w_disk w) → w_orc w = [] →
    base_ok (baseDir (sw_store (fw_sw (rp_fw r)))) w →
    NewStateMachine addr id (baseDir (sw_store (fw_sw (rp_fw r)))) w = (Ok fw, w') →
    replica_step log avail Restarts r (MkReplica fw 0 kept false None solid).
End replica.

Section replica_ok.
Context `{PL : PebbleLaws, !PebbleReliable _, GL : GzipLaws}.

(** [Apply] is its two steps. *)
Lemma Apply_steps log fw :
  Apply log fw =
  (go <- apply_begins log ;;
   if go : bool then apply_writes log else go_ret (MkResponse [] (Some ErrClosed))) fw.
Proof.
  unfold Apply, apply_begins, apply_writes, go_bind, go_ret, on_store.
  destruct (isclosed (fw_sw fw)) as [[[]|e|p|] sw]; reflexivity.
Qed.

(** The directories of the store and its current file have reached the disk, with
    [X] in the database. *)
Definition on_disk (n : string) (X : gmap bytes bytes) (fw : fworld) : Prop :=
  durable (baseDir (sw_store (fw_sw fw))) n X (w_disk (sw_world (fw_sw fw))).

Lemma on_disk_db n X X' fw fw' :
  running n X' fw' → sw_store (fw_sw fw') = sw_store (fw_sw fw) →
  only_db (st_db (sw_store (fw_sw fw))) (sw_world (fw_sw fw)) (sw_world (fw_sw fw')) →
  on_disk n X fw → on_disk n X' fw'.
Proof.
  intros [Hsv _] Hst (Hfs & _ & _ & _ & _ & _ & Hold) ([Hs Hm] & Hs2 & Hc & _).
  pose proof (sv_handle _ _ _ Hsv) as Hh. destruct (sv_db _ _ _ Hsv) as (db & Hdb & Hdm).
  rewrite Hst in Hh. rewrite Hst, Hh in Hdb. unfold on_disk. rewrite Hst.
  unfold durable, marker_ok, db_at, settled, chain, entries in *. rewrite Hfs, Hold.
  split; [by split|]. split_and!; [done..|]. by exists db.
Qed.

(** The state machine serves what the log makes of [m]. *)
Definition holds (m : gmap bytes bytes) (log : list raft_Log) (a k : nat) (solid : bool) (fw : fworld) : Prop :=
  chan_ok fw ∧ ∃ n X, running n X fw ∧ between m log a k X ∧ (solid = true → on_disk n X fw).

Lemma holds_le m log a k s fw : holds m log a k s fw → (a ≤ k)%nat.
Proof. intros (_ & n & X & _ & Hb & _). by eapply between_le. Qed.

Lemma holds_app m log l a k s fw : (k ≤ length log)%nat → holds m log a k s fw → holds m (log ++ l) a k s fw.
Proof. intros Hk (Hc & n & X & Hr & Hb & Hd). split; [done|]. exists n, X. split; [done|]. split; [by apply between_app|done]. Qed.

(** A step that only touches the database behind the handle. *)
Lemma holds_db m log a' k' s n X X' fw fw' :
  chan_ok fw → fw_ch fw' = fw_ch fw → abandonCh (fw_sm fw') = abandonCh (fw_sm fw) →
  (s = true → on_disk n X fw) → running n X' fw' → between m log a' k' X' →
  sw_store (fw_sw fw') = sw_store (fw_sw fw) →
  only_db (st_db (sw_store (fw_sw fw))) (sw_world (fw_sw fw)) (sw_world (fw_sw fw')) →
  holds m log a' k' s fw'.
Proof.
  intros Hc H1 H2 Hd Hr Hb Hst Ho. split; [unfold chan_ok; by rewrite H1, H2|].
  exists n, X'. split; [done|]. split; [done|]. intros Hs. eapply on_disk_db; [done..|by apply Hd].
Qed.

Lemma apply_begins_eq e fw fw' :
  apply_begins e fw = (Ok true, fw') → fw' = MkFW (set_index (fw_sm fw) (Index e)) (fw_sw fw) (fw_ch fw).
Proof.
  unfold apply_begins, go_bind, go_ret, on_store, isclosed, the_store, the_sm, set_sm. simpl.
  destruct (st_closed _); simpl; by intros [= <-].
Qed.

(** On a machine that serves a map both steps succeed. *)
Lemma apply_in_steps e n m fw :
  running n m fw →
  ∃ fw1 fw2, apply_begins e fw = (Ok true, fw1) ∧
    apply_writes e fw1 = (Ok (spec_apply m (Data e)).1, fw2) ∧ running n (spec_apply m (Data e)).2 fw2 ∧
    sw_store (fw_sw fw2) = sw_store (fw_sw fw) ∧
    only_db (st_db (sw_store (fw_sw fw))) (sw_world (fw_sw fw)) (sw_world (fw_sw fw2)).
Proof.
  intros Hr. destruct (Apply_ok e n m fw Hr) as (sw & Ha & Hr' & Hst & Ho).
  exists (MkFW (set_index (fw_sm fw) (Index e)) (fw_sw fw) (fw_ch fw)), (MkFW (set_index (fw_sm fw) (Index e)) sw (fw_ch fw)).
  assert (apply_begins e fw = (Ok true, MkFW (set_index (fw_sm fw) (Index e)) (fw_sw fw) (fw_ch fw))) as Hb.
  { unfold apply_begins, go_bind, go_ret, on_store, isclosed, the_store. simpl. rewrite (proj2 Hr).
    by destruct fw as [sm [st w] ch]. }
  split; [exact Hb|]. split; [|done]. rewrite Apply_steps in Ha. by erewrite go_bind_ok in Ha by exact Hb.
Qed.

(** A step that leaves the store and the channels alone. *)
Lemma holds_sm m log a k s fw sm :
  holds m log a k s fw → abandonCh sm = abandonCh (fw_sm fw) → holds m log a k s (MkFW sm (fw_sw fw) (fw_ch fw)).
Proof. intros (Hc & H) Ha. split; [unfold chan_ok; simpl; by rewrite Ha|exact H]. Qed.

Lemma holds_writes m log a k s e r fw fw' :
  holds m log a k s fw → log !! a = Some e → apply_writes e fw = (Ok r, fw') →
  holds m log (S a) (Nat.max k (S a)) s fw'.
Proof.
  intros (Hc & n & X & [Hsv Hcl] & Hb & Hd) He Ha.
  destruct (applyCommand_ok (Data e) n X _ Hsv Hcl) as (w' & H & Hs & Ho).
  unfold apply_writes, on_store in Ha. rewrite H in Ha. injection Ha as _ <-.
  eapply (holds_db m log _ _ s n X _ fw); [done..|by split|by apply between_apply|done|done].
Qed.

Lemma holds_raises m log a k s i fw fw' :
  holds m log a k s fw → UpdateFsmIndex i fw = (Ok tt, fw') → holds m log a k s fw'.
Proof.
  intros H Hu. unfold UpdateFsmIndex, go_bind, the_sm, set_sm, go_ret in Hu.
  case_decide; injection Hu as <-; [by apply holds_sm|done].
Qed.

(** A read finds the value after some prefix between. *)
Lemma holds_read m key log a k s r fw fw' :
  holds m log a k s fw → ReadLocal key fw = (Ok r, fw') →
  holds m log a k s fw' ∧ ∃ j, (a ≤ j ≤ k)%nat ∧ r = MkResponse (value_at m key log j) None.
Proof.
  intros (Hc & n & X & [Hsv Hcl] & Hb & Hd) Hrl.
  destruct (query_ok key n X _ Hsv Hcl) as (w' & H & Hs & Ho).
  unfold ReadLocal, on_store, respond, go_try in Hrl. rewrite H in Hrl. injection Hrl as <- <-. split.
  - eapply (holds_db m log a k s n X X fw); [done..|by split|done|done|done].
  - destruct (Hb (cf_key key)) as (j & Hj & E). exists j. split; [done|]. unfold value_at. by rewrite E.
Qed.

Lemma holds_snapshot m log a k s now fs fw fw' :
  holds m log a k s fw → fsm_Snapshot now fw = (Ok fs, fw') →
  holds m log a k s fw' ∧ between m log a k (snap_map (fs_snapshot fs)).
Proof.
  intros (Hc & n & X & Hr & Hb & Hd) Hs.
  destruct (fsm_Snapshot_ok now n X fw Hr) as (snap & w & H & Hm & Hr' & Ho). rewrite Hs in H.
  injection H as -> ->. split; [|cbn; by rewrite Hm].
  by eapply (holds_db m log a k s n X X fw).
Qed.

Lemma holds_persist m log a k s fs unix dur now r fw fw' sk sk' :
  holds m log a k s fw → Persist fs unix dur now (fw, sk) = (r, (fw', sk')) → holds m log a k s fw'.
Proof.
  intros Hh Hp. unfold Persist in Hp. destruct (saveSnapShot _ _ _ _ _ _) as [[res|e|p|] sk1];
    injection Hp as _ <- _; [by apply holds_sm|done..].
Qed.

Lemma holds_install m log a0 k0 s a k data start now fw fw' :
  holds m log a0 k0 s fw → snapshot_stream m log data a k → can_install fw →
  Restore (MkReader data None) start now fw = (Ok tt, fw') → holds m log a k s fw'.
Proof.
  intros (Hc & n & X & Hr & _ & Hd) (id & idx & unix & l & -> & Hfit & Hok & Hnd & Hb & _) [Ho Hf] Hres.
  destruct (recover_stream id idx unix l n X (fw_sw fw)) as (sw' & H4 & (Hsv & _ & Hbd & Hcl & _) & V);
    [apply Hr|done..|].
  destruct (Restore_ok _ start now _ _ fw (proj2 Hr) Hc H4) as (fw1 & H5 & Hsw & _ & _ & Hc1 & _).
  rewrite Hres in H5. injection H5 as <-. split; [done|].
  eexists _, _. split; [|split; [exact Hb|]].
  - split; rewrite Hsw; [exact Hsv|]. rewrite Hcl. apply Hr.
  - intros Hs. unfold on_disk. rewrite Hsw, Hbd. by apply V, Hd.
Qed.

(** A restore that fails before the switch changes the world, and nothing else. *)
Lemma Restore_load_fails rd start now e e' fw fw' :
  st_closed (sw_store (fw_sw fw)) = false →
  (recover_load (baseDir (sw_store (fw_sw fw))) rd (sw_world (fw_sw fw))).1 = Err e →
  Restore rd start now fw = (Err e', fw') →
  fw' = MkFW (fw_sm fw) (MkSW (sw_store (fw_sw fw))
          (recover_load (baseDir (sw_store (fw_sw fw))) rd (sw_world (fw_sw fw))).2) (fw_ch fw).
Proof.
  destruct fw as [sm [st w] ch]. cbn [fw_sw fw_sm fw_ch sw_store sw_world]. intros Hcl Hld Hres.
  assert (recoverSnapShot rd (MkSW st w) = (Err e, MkSW st (recover_load (baseDir st) rd w).2)) as Hrec.
  { unfold recoverSnapShot, the_store, on_world, go_bind. cbn [sw_store sw_world].
    destruct (recover_load (baseDir st) rd w) as [r w1]. cbn [fst snd] in *. by subst r. }
  rewrite (Restore_err rd start now e _ (MkFW sm (MkSW st w) ch) Hcl Hrec) in Hres. by injection Hres as _ <-.
Qed.

(** A restore that fails before the switch, whatever the stream holds and whatever
    fails. *)
Lemma holds_install_fails m log a k s rd start now e e' fw fw' :
  holds m log a k s fw → name_free (baseDir (sw_store (fw_sw fw))) (sw_world (fw_sw fw)) →
  (recover_load (baseDir (sw_store (fw_sw fw))) rd (sw_world (fw_sw fw))).1 = Err e →
  Restore rd start now fw = (Err e', fw') → holds m log a k s fw'.
Proof.
  intros (Hc & n & X & Hr & Hb & Hd) Hf Hld Hres. destruct Hr as [Hs Hcl].
  rewrite (Restore_load_fails rd start now e e' fw fw' Hcl Hld Hres).
  destruct fw as [sm [st w] ch]. cbn [fw_sw sw_store sw_world] in *.
  destruct (next_name_marker w) as [Hm1 Hm2].
  pose proof (next_name_fresh n X (MkSW st w) Hs Hf) as Hne. cbn [sw_world] in Hne.
  pose proof (recover_load_grows (baseDir st) rd w) as Hg.
  split; [exact Hc|]. exists n, X. split; [|split; [done|]].
  - split; [|exact Hcl]. cbn [fw_sw]. by eapply serves_grows.
  - intros Hsl. specialize (Hd Hsl). unfold on_disk in *. cbn [fw_sw sw_store sw_world] in *.
    eapply durable_grows; [exact Hne|exact Hm1|apply Hg|exact Hd].
Qed.

(** Whatever is on the disk can be opened again. *)
Lemma leaves_disk_recoverable avail m log a0 k0 s0 fw kept s d :
  holds m log a0 k0 s0 fw → (k0 ≤ length log)%nat →
  (∀ data a k, avail data a k → snapshot_stream m log data a k) → leaves_disk avail k0 s0 fw kept s d →
  (kept ≤ length log)%nat ∧
  ∃ n X, fname n ∧ n ≠ currentDBFilename ∧ n ≠ updatingDBFilename ∧ between m log 0 kept X ∧
         recoverable (baseDir (sw_store (fw_sw fw))) n X d ∧
         (s = true → durable (baseDir (sw_store (fw_sw fw))) n X d).
Proof.
  intros (_ & n & X & Hr & Hb & Hd) Hk Hav Hl.
  pose proof (running_recoverable n X _ _ Hr (or_introl eq_refl)) as (Hn & Hnc & Hnu & Hrec).
  assert (∀ kept' n' X' d', (kept' ≤ length log)%nat → fname n' → n' ≠ currentDBFilename → n' ≠ updatingDBFilename →
    between m log 0 kept' X' → (s = true → durable (baseDir (sw_store (fw_sw fw))) n' X' d') →
    recoverable (baseDir (sw_store (fw_sw fw))) n' X' d' →
    (kept' ≤ length log)%nat ∧ ∃ n X, fname n ∧ n ≠ currentDBFilename ∧ n ≠ updatingDBFilename ∧
      between m log 0 kept' X ∧ recoverable (baseDir (sw_store (fw_sw fw))) n X d' ∧
      (s = true → durable (baseDir (sw_store (fw_sw fw))) n X d')) as Hgo by eauto 10.
  assert (∀ k, between m log 0 (Nat.max k0 k) X) as Hb0.
  { intros k. eapply between_weaken; [exact Hb|lia..]. }
  assert (∀ data a k r sw' tr d', s0 = true → avail data a k → can_install fw →
    recoverSnapShot (MkReader data None) (fw_sw fw) = (r, sw') →
    w_trace (sw_world sw') = w_trace (sw_world (fw_sw fw)) ++ tr → d' ∈ tr →
    (Nat.max k0 k ≤ length log)%nat ∧
    ∃ l, between m log 0 (Nat.max k0 k) (list_to_map l) ∧
      survives (baseDir (sw_store (fw_sw fw))) n X (next_name (sw_world (fw_sw fw))) (list_to_map l) d') as Hst.
  { intros data a k r sw' tr d' Hs0 Hst [Ho Hf] Hrun Htr Hin.
    destruct (Hav _ _ _ Hst) as (id & idx & unix & l & -> & Hfit & Hok & Hnd & Hbl & Hkl). split; [lia|].
    destruct (recover_stream id idx unix l n X (fw_sw fw)) as (sw1 & H & _ & V); [apply Hr|done..|].
    rewrite H in Hrun. injection Hrun as <- <-. exists l. split; [eapply between_weaken; [exact Hbl|lia..]|].
    eapply (visits_elem _ _ _ _ _ (proj1 (V (Hd Hs0)))); [exact Htr|exact Hin]. }
  destruct (next_name_marker (sw_world (fw_sw fw))) as [Hm1 Hm2].
  assert (fname (next_name (sw_world (fw_sw fw)))) as Hm0 by apply fname_random.
  destruct Hl as [|d Hs0 Hcr|data a k r sw' tr d Hs0 Hav0 Hci Hrun Htr Hin|data a k r sw' tr d d' Hs0 Hav0 Hci Hrun Htr Hin Hcr].
  - apply (Hgo k0 n X); try done. rewrite <-(Nat.max_id k0). apply Hb0.
  - assert (durable (baseDir (sw_store (fw_sw fw))) n X d) as Hd' by by eapply durable_crash; [apply Hd|].
    apply (Hgo k0 n X); try done; [rewrite <-(Nat.max_id k0); apply Hb0|by apply durable_recoverable].
  - destruct (Hst _ _ _ _ _ _ _ Hs0 Hav0 Hci Hrun Htr Hin) as (Hkl & l & Hbl & Hsv).
    destruct (survives_recoverable _ _ _ _ _ _ Hsv) as [H|H];
      [apply (Hgo _ n X)|apply (Hgo _ (next_name (sw_world (fw_sw fw))) (list_to_map l))]; done || apply Hb0.
  - destruct (Hst _ _ _ _ _ _ _ Hs0 Hav0 Hci Hrun Htr Hin) as (Hkl & l & Hbl & Hsv).
    destruct (survives_crash _ _ _ _ _ _ _ Hsv Hcr) as [H|H];
      [apply (Hgo _ n X)|apply (Hgo _ (next_name (sw_world (fw_sw fw))) (list_to_map l))];
      done || apply Hb0 || by apply durable_recoverable.
Qed.

Lemma holds_restart avail m log a0 k0 s0 fw kept s addr id w fw' w' :
  holds m log a0 k0 s0 fw → (k0 ≤ length log)%nat →
  (∀ data a k, avail data a k → snapshot_stream m log data a k) →
  leaves_disk avail k0 s0 fw kept s (w_disk w) → w_orc w = [] →
  base_ok (baseDir (sw_store (fw_sw fw))) w →
  NewStateMachine addr id (baseDir (sw_store (fw_sw fw))) w = (Ok fw', w') →
  holds m log 0 kept s fw' ∧ (kept ≤ length log)%nat.
Proof.
  intros Hh Hk Hav Hl Ho Hbo Hnew.
  destruct (leaves_disk_recoverable avail m log a0 k0 s0 fw kept s _ Hh Hk Hav Hl)
    as (Hkl & n & X & Hn & Hc & Hu & Hb & Hrec & Hd).
  destruct (NewStateMachine_reopen addr id _ n X w Ho Hbo Hn Hc Hu Hrec)
    as (fw1 & w1 & H1 & Hr1 & Hc1 & _ & Hbd & _ & Hk1).
  rewrite Hnew in H1. injection H1 as -> _. split; [|done]. split; [done|]. exists n, X.
  split; [done|]. split; [done|]. intros Hs. unfold on_disk. rewrite Hbd. by apply Hk1, Hd.
Qed.

(** What a machine persists can be installed elsewhere. *)
Lemma persisted_stream m log a k id idx unix l snap :
  NoDup l.*1 → list_to_map l = snap_map snap → map_ok (snap_map snap) → header_fits id idx unix →
  between m log a k (snap_map snap) → (k ≤ length log)%nat →
  snapshot_stream m log (stream_bytes id idx unix l) a k.
Proof.
  intros Hnd Hlm Hok Hfit Hb Hk. exists id, idx, unix, l. split; [done|]. split; [done|].
  split; [apply map_ok_entries; [done|]; by rewrite Hlm|]. split; [done|]. by rewrite Hlm.
Qed.

Lemma snapshot_stream_app m log l data a k :
  snapshot_stream m log data a k → snapshot_stream m (log ++ l) data a k.
Proof.
  intros (id & idx & unix & en & -> & Hf & Hok & Hnd & Hb & Hk). exists id, idx, unix, en.
  do 4 (split; [done|]). split; [by apply between_app|]. rewrite length_app. lia.
Qed.

(** *** Every step keeps a replica right *)

Definition taken_ok (m : gmap bytes bytes) (log : list raft_Log) (t : fsmSnapshot * nat * nat) : Prop :=
  let '(fs, a, k) := t in between m log a k (snap_map (fs_snapshot fs)) ∧ (k ≤ length log)%nat.

Record replica_ok (m : gmap bytes bytes) (log : list raft_Log) (r : replica) : Prop := {
  ro_holds : holds m log (rp_applied r) (rp_kept r) (rp_solid r) (rp_fw r);
  ro_kept : (rp_kept r ≤ length log)%nat;
  ro_taken : from_option (taken_ok m log) True (rp_taken r);
}.

Lemma replica_ok_app m log l r : replica_ok m log r → replica_ok m (log ++ l) r.
Proof.
  intros [Hh Hk Ht]. split; [by apply holds_app|rewrite length_app; lia|].
  destruct (rp_taken r) as [[[fs a] k]|]; [|done]. destruct Ht as (Hb & Hkl).
  split; [by apply between_app|]. rewrite length_app. lia.
Qed.

Lemma replica_step_ok m log avail what r r' :
  (∀ data a k, avail data a k → snapshot_stream m log data a k) →
  replica_ok m log r → replica_step log avail what r r' → replica_ok m log r'.
Proof.
  intros Hav [Hh Hk Ht] H.
  destruct H as [r e fw _ He Ha|r e resp fw _ He Ha|r i fw Ha|r key resp fw Ha|r now fs fw _ Ha
    |r fs a k unix dur now fw data Hta Hok Hfit Ha|r fs a k unix dur now e fw sk sk' Hta Ha
    |r data a k start now fw _ Hin Hap Hci Ha|r rd start now e e' fw _ Hf Hld Ha
    |r kept solid addr id w fw w' Hl Ho Hbo Ha];
    split; cbn [rp_fw rp_applied rp_kept rp_taken rp_solid with_rfw]; try done.
  - rewrite (apply_begins_eq _ _ _ Ha). by apply holds_sm.
  - by eapply holds_writes.
  - apply lookup_lt_Some in He. lia.
  - by eapply holds_raises.
  - by eapply holds_read.
  - by eapply holds_snapshot.
  - split; [by eapply holds_snapshot|done].
  - by eapply holds_persist.
  - by eapply holds_persist.
  - by eapply holds_install; [|apply Hav|..].
  - by destruct (Hav _ _ _ Hin) as (? & ? & ? & ? & _ & _ & _ & _ & _ & ?).
  - by eapply holds_install_fails.
  - by eapply holds_restart.
  - by eapply holds_restart.
Qed.

(** What a step does to the counts. *)
Lemma replica_step_counts log avail what r r' :
  replica_step log avail what r r' →
  match what with
  | Restarts => True
  | Installs => (rp_applied r ≤ rp_applied r')%nat
  | _ => (rp_applied r ≤ rp_applied r')%nat ∧ (rp_kept r' ≤ Nat.max (rp_kept r) (rp_applied r'))%nat
  end.
Proof. intros []; simpl; done || lia. Qed.

(** A step is possible with a longer log. *)
Lemma replica_step_app m log l what r r' :
  replica_step log (snapshot_stream m log) what r r' →
  replica_step (log ++ l) (snapshot_stream m (log ++ l)) what r r'.
Proof.
  intros H. destruct H as [r e fw ? He|r e resp fw ? He| | | | | |r data a k start now fw ? Hin| |r kept solid addr id w fw w' Hl];
    try by econstructor; eauto using lookup_app_l_Some.
  - econstructor; eauto. by apply snapshot_stream_app.
  - econstructor; eauto. destruct Hl; econstructor; eauto; by apply snapshot_stream_app.
Qed.

(** What a node persists is a snapshot that any node can install. *)
Lemma persists_stream m log avail data a k r r' :
  replica_ok m log r → replica_step log avail (Persists data a k) r r' → snapshot_stream m log data a k.
Proof.
  intros [Hh Hk Ht] H. inversion H as [| | | | |r0 fs a' k' unix dur now fw data' Hta Hok Hfit Hp| | | |]; subst.
  rewrite Hta in Ht. destruct Ht as [Hb Hkl].
  destruct (Persist_ok fs unix dur now (rp_fw r)) as (l & fw1 & Hp1 & Hnd & Hlm & _).
  rewrite Hp in Hp1. injection Hp1 as -> ->. by apply (persisted_stream _ _ _ _ _ _ _ _ (fs_snapshot fs)).
Qed.

(** A read succeeds, with the value after a prefix of the log that holds what the
    node has applied. *)
Lemma replica_read m log key r :
  replica_ok m log r →
  ∃ j fw, ReadLocal key (rp_fw r) = (Ok (MkResponse (value_at m key log j) None), fw) ∧
          (rp_applied r ≤ j ≤ rp_kept r)%nat.
Proof.
  intros [Hh Hk _]. pose proof Hh as (_ & n & X & Hr & _).
  destruct (ReadLocal_ok key n X _ Hr) as (fw & H & _).
  destruct (holds_read _ _ _ _ _ _ _ _ _ Hh H) as (_ & j & Hj & E). exists j, fw. by rewrite H, E.
Qed.

(** A node that has applied the whole log serves what the log makes of the
    initial map. *)
Lemma replica_serves_all m log r :
  replica_ok m log r → rp_applied r = length log → ∃ n, running n (spec_run m log).2 (rp_fw r).
Proof.
  intros [(_ & n & X & Hr & Hb & _) Hk _] Ha. exists n. rewrite Ha in Hb.
  rewrite (between_exact _ _ _ _ _ Hb Hk) in Hr. by rewrite prefix_map_all in Hr.
Qed.
End replica_ok.

(** How a node starts: its state machine serves [m] and has applied nothing; it
    survives crashes if its directories have reached the disk. *)
Definition replica_init {P : Pebble} (m : gmap bytes bytes) (r : replica) : Prop :=
  (∃ n, running n m (rp_fw r) ∧ (rp_solid r = true → on_disk n m (rp_fw r))) ∧ chan_ok (rp_fw r) ∧
  rp_applied r = 0%nat ∧ rp_kept r = 0%nat ∧ rp_begun r = false ∧ rp_taken r = None.

Lemma replica_init_ok {P : Pebble} m log r : replica_init m r → replica_ok m log r.
Proof.
  intros ((n & Hr & Hd) & Hc & Ha & Hk & _ & Ht). split; rewrite ?Ha, ?Hk, ?Ht; [|lia|done].
  split; [done|]. exists n, m. split; [done|]. split; [|done]. intros key. by exists 0%nat.
Qed.
