(* ===== verification/Replicas.v ===== *)
(** * Replicas.v: all the replicas of a cluster, and the snapshots between them.

    Raft gives the nodes one log. Each node applies it at its own pace, in the steps
    of Replica.v, takes and persists snapshots, installs those that any node has
    persisted, and stops, crashes and starts again whenever it likes. Nothing is
    assumed of the snapshots: what is installed is what the sources wrote. *)
From S2P Require Import Prelude Binary Paths Pebble FileSystem DataDir Snapshot Json Store Fsm History Replica.

Section replicas.
Context {P : Pebble} {G : Gzip}.

Record replicas := MkReplicas {
  y_log : list raft_Log;
  y_nodes : list replica;
  y_snapshots : list (bytes * nat * nat);
}.

Definition persisted (what : life) : list (bytes * nat * nat) :=
  match what with Persists data a k => [(data, a, k)] | _ => [] end.

Inductive replicas_step : replicas → replicas → Prop :=
| y_commits y e : replicas_step y (MkReplicas (y_log y ++ [e]) (y_nodes y) (y_snapshots y))
| y_node y i what r r' :
    y_nodes y !! i = Some r →
    replica_step (y_log y) (λ data a k, (data, a, k) ∈ y_snapshots y) what r r' →
    replicas_step y (MkReplicas (y_log y) (<[i := r']> (y_nodes y)) (y_snapshots y ++ persisted what)).

Definition replicas_reachable (m : gmap bytes bytes) (y : replicas) : Prop :=
  ∃ nodes, Forall (replica_init m) nodes ∧ rtc replicas_step (MkReplicas [] nodes []) y.
End replicas.

Section replicas_ok.
Context `{PL : PebbleLaws, !PebbleReliable _, GL : GzipLaws}.

Definition snapshot_ok (m : gmap bytes bytes) (log : list raft_Log) (x : bytes * nat * nat) : Prop :=
  let '(data, a, k) := x in snapshot_stream m log data a k.

Record replicas_ok (m : gmap bytes bytes) (y : replicas) : Prop := {
  yo_nodes : Forall (replica_ok m (y_log y)) (y_nodes y);
  yo_snapshots : Forall (snapshot_ok m (y_log y)) (y_snapshots y);
}.

Lemma replicas_step_ok m y y' : replicas_ok m y → replicas_step y y' → replicas_ok m y'.
Proof.
  intros [Hn Hs] H. destruct H as [y e|y i what r r' Hi Hr]; split; cbn [y_log y_nodes y_snapshots].
  - eapply Forall_impl; [exact Hn|]. intros r. apply replica_ok_app.
  - eapply Forall_impl; [exact Hs|]. intros [[data a] k]. apply snapshot_stream_app.
  - apply Forall_insert; [done|]. eapply replica_step_ok; [|by apply (Forall_lookup_1 _ _ _ _ Hn Hi)|exact Hr].
    intros data a k. apply (proj1 (Forall_forall _ _) Hs (data, a, k)).
  - apply Forall_app. split; [done|]. destruct what as [|data a k| |]; try by constructor.
    apply Forall_singleton. eapply persists_stream; [|exact Hr]. by apply (Forall_lookup_1 _ _ _ _ Hn Hi).
Qed.

Lemma replicas_reachable_ok m y : replicas_reachable m y → replicas_ok m y.
Proof.
  intros (nodes & Hi & H).
  assert (replicas_ok m (MkReplicas [] nodes [])) as H0.
  { split; [|by constructor]. eapply Forall_impl; [exact Hi|]. intros r. apply replica_init_ok. }
  clear Hi. remember (MkReplicas [] nodes []) as y0 eqn:E. clear E.
  induction H as [|x y z Hxy _ IH]; [done|]. apply IH. by eapply replicas_step_ok.
Qed.
End replicas_ok.

(** ** Theorems *)

Section replicas_theorems.
Context `{PL : PebbleLaws, !PebbleReliable _, GL : GzipLaws}.

(** C2: Replicas converge. However the nodes of a cluster apply the log, snapshot
    it, install one another's snapshots, fail to, stop, are killed, crash and start
    again: a node that has applied the whole log serves exactly what the log makes
    of the initial map. So any two such nodes serve the same map. *)
Theorem replicas_converge m y i r :
  replicas_reachable m y → y_nodes y !! i = Some r → rp_applied r = length (y_log y) →
  ∃ n, running n (spec_run m (y_log y)).2 (rp_fw r).
Proof.
  intros Hy Hi Ha. destruct (replicas_reachable_ok m y Hy) as [Hn _].
  exact (replica_serves_all _ _ _ (Forall_lookup_1 _ _ _ _ Hn Hi) Ha).
Qed.

(** C3: A stale read is never made up, and it does not miss what the node has
    applied: in any state of the cluster, also between the two steps of [Apply], a
    local read of any node succeeds, and gives the value of the key after some
    prefix of the committed log that holds at least the entries that the node has
    applied since its start (by [Apply], or in a snapshot that it installed). *)
Theorem local_reads_are_prefixes m y i r key :
  replicas_reachable m y → y_nodes y !! i = Some r →
  ∃ j fw, ReadLocal key (rp_fw r) = (Ok (MkResponse (value_at m key (y_log y) j) None), fw) ∧
    (rp_applied r ≤ j ≤ length (y_log y))%nat.
Proof.
  intros Hy Hi. destruct (replicas_reachable_ok m y Hy) as [Hn _].
  pose proof (Forall_lookup_1 _ _ _ _ Hn Hi) as Hr. pose proof (ro_kept _ _ _ Hr).
  destruct (replica_read m (y_log y) key r Hr) as (j & fw & H1 & H2). exists j, fw. split; [done|lia].
Qed.

(** The index of a node can be ahead of its database: [Apply] stores the index
    before it writes, and a read in between answers with the value from before the
    entry, while the node already reports the index of the entry. *)
Theorem index_is_ahead m n key i v fw r :
  let log := [MkLog i (Marshal_Command (MkCommand Insert (Marshal_SetPayload (MkSetPayload key v))))] in
  running n m fw → r = MkReplica fw 0 0 false None false →
  ∃ r', replica_step log (λ _ _ _, False) Works r r' ∧ fsmIndex (fw_sm (rp_fw r')) = i ∧
    (∃ fw', ReadLocal key (rp_fw r') = (Ok (MkResponse (default [] (m !! cf_key key)) None), fw')) ∧
    value_at m key log 1 = v.
Proof.
  intros log [Hsv Hcl] ->. set (fw1 := MkFW (set_index (fw_sm fw) i) (fw_sw fw) (fw_ch fw)).
  exists (MkReplica fw1 0 0 true None false). split_and!; [|done| |].
  - eapply rp_begins; [done|reflexivity|]. unfold apply_begins, go_bind, go_ret, on_store, isclosed, the_store.
    simpl. by rewrite Hcl; destruct fw as [sm [st w] ch].
  - destruct (ReadLocal_ok key n m fw1) as (fw' & H & _); [by split|]. by exists fw'.
  - unfold value_at, prefix_map, log. cbn [take spec_run Data]. unfold spec_apply.
    rewrite Unmarshal_Marshal_Command by by right. simpl. rewrite Unmarshal_Marshal_SetPayload. simpl.
    by rewrite lookup_insert_eq.
Qed.
End replicas_theorems.

(** ** Witnesses *)

(** A node of the demonstration before it has applied anything. *)
Definition fresh_fsm : fworld (P := Mem no_fault) := MkFW (set_index demo_sm 0) demo_store (MkChans 1 ∅).
Definition fresh_replica : replica (P := Mem no_fault) := MkReplica fresh_fsm 0 0 false None true.

Lemma fresh_running : running "a" demo_map fresh_fsm.
Proof. split; [exact demo_serves|done]. Qed.

Lemma fresh_init : replica_init demo_map fresh_replica.
Proof.
  split; [exists "a"; split; [exact fresh_running|intros _; exact demo_durable]|].
  split; [exact demo_chan|]. repeat split; reflexivity.
Qed.

Definition demo_written_map : gmap bytes bytes := <[cf_key (string_bytes "x") := string_bytes "1"]> demo_map.

Lemma demo_written_map_ok : map_ok (G := Stored) demo_written_map.
Proof.
  intros k v H. unfold demo_written_map in H. apply lookup_insert_Some in H as [[<- <-]|[_ H]].
  - split; vm_compute; congruence.
  - by apply demo_map_ok.
Qed.

(** After a crash. *)
Lemma base_ok_synced dir (w : world (P := Mem no_fault)) cl o rn ck tr :
  base_ok dir w → base_ok dir (MkWorld (sync_all (w_disk w)) cl o rn ck tr).
Proof.
  intros [B1 B2 B3]. split; [|done|]; cbn [w_disk sync_all d_fs].
  - intros q data s Hq Hf. rewrite lookup_fmap in Hf.
    destruct (d_fs (w_disk w) !! q) as [[|data' s']|] eqn:E; try done. by eapply B1.
  - intros k. rewrite lookup_fmap, fmap_is_Some. apply B3.
Qed.

Lemma NewStateMachine_id {P : Pebble} addr id dir w fw w' :
  NewStateMachine addr id dir w = (Ok fw, w') → nodeId (fw_sm fw) = id.
Proof. unfold NewStateMachine, go_bind. destruct (newStore dir w) as [[st|?|?|] w1]; [by intros [= <- _]|discriminate..]. Qed.

(** The first node crashes and starts again, raises its index, applies an entry, is
    read in the middle of that, takes a snapshot and persists it; the second one
    installs it. *)
Lemma demo_replicas :
  ∃ (nodes : list (replica (P := Mem no_fault))) snapshots r,
    replicas_reachable (G := Stored) demo_map (MkReplicas demo_history nodes snapshots) ∧
    nodes !! 1%nat = Some r ∧ rp_applied r = 1%nat.
Proof.
  set (e := MkLog 8 (demo_entry "x" "1")).
  set (w := MkWorld (sync_all (w_disk (sw_world demo_store))) ∅ [] [8] [1700000001] []).
  assert (base_ok "/d" w) as Hbo by apply base_ok_synced, demo_base_ok.
  assert (durable "/d" "a" demo_map (w_disk w)) as Hdw by exact (durable_crash _ _ _ _ _ demo_durable (crash_sync_all _)).
  pose proof (running_recoverable "a" demo_map fresh_fsm _ fresh_running (or_introl eq_refl)) as (Hn & Hnc & Hnu & _).
  destruct (NewStateMachine_reopen "127.0.0.1:7000" "node1" "/d" "a" demo_map w eq_refl Hbo Hn Hnc Hnu
    (durable_recoverable _ _ _ _ Hdw)) as (fw0 & w0 & H0 & Hr0 & _).
  pose proof (NewStateMachine_id _ _ _ _ _ _ H0) as Hid. 
  set (fw1 := MkFW (if decide (fsmIndex (fw_sm fw0) < 3) then set_index (fw_sm fw0) 3 else fw_sm fw0) (fw_sw fw0) (fw_ch fw0)).
  assert (UpdateFsmIndex 3 fw0 = (Ok tt, fw1)) as H1.
  { unfold UpdateFsmIndex, go_bind, the_sm, set_sm, go_ret, fw1. case_decide; [done|]. by destruct fw0. }
  set (fw2 := MkFW (set_index (fw_sm fw1) 8) (fw_sw fw1) (fw_ch fw1)).
  assert (running "a" demo_map fw2) as Hr2 by exact Hr0.
  assert (apply_begins e fw1 = (Ok true, fw2)) as H2.
  { unfold apply_begins, go_bind, go_ret, on_store, isclosed, the_store. simpl.
    by rewrite (proj2 Hr0); destruct (fw_sw fw0). }
  destruct (ReadLocal_ok (string_bytes "x") "a" demo_map fw2 Hr2) as (fw3 & H3 & Hr3).
  destruct (applyCommand_ok (Data e) "a" demo_map (fw_sw fw3) (proj1 Hr3) (proj2 Hr3)) as (w4 & H4 & Hs4 & _).
  change (spec_apply demo_map (Data e)).2 with demo_written_map in Hs4.
  set (fw4 := MkFW (fw_sm fw3) (MkSW (sw_store (fw_sw fw3)) w4) (fw_ch fw3)).
  assert (∃ resp, apply_writes e fw3 = (Ok resp, fw4)) as [resp H4'].
  { eexists. unfold apply_writes, on_store. by rewrite H4. }
  assert (running "a" demo_written_map fw4) as Hr4 by (split; [exact Hs4|exact (proj2 Hr3)]).
  destruct (fsm_Snapshot_ok 0 "a" _ fw4 Hr4) as (snap & w5 & H5 & Hm & _).
  set (fw5 := MkFW (fw_sm fw4) (MkSW (sw_store (fw_sw fw4)) w5) (fw_ch fw4)) in *.
  set (fs := MkFsmSnapshot snap (fsmIndex (fw_sm fw4)) 0) in *.
  destruct (Persist_ok (G := Stored) fs 1700000000 5 0 fw5) as (l & fw6 & H6 & Hnd & Hlm & _).
  assert (map_ok (G := Stored) (snap_map (fs_snapshot fs))) as Hmo.
  { cbn [fs_snapshot fs]. rewrite Hm. exact demo_written_map_ok. }
  assert (header_fits (nodeId (fw_sm fw5)) (fs_lastIndex fs) 1700000000) as Hfit.
  { assert (fw_sm fw3 = fw_sm fw2) as E by (rewrite (ReadLocal_frame _ _ _ _ H3); done).
    cbn [fs_lastIndex fs fw5 fw4 fw_sm]. rewrite E. cbn [fw2 fw_sm fw1 set_index nodeId fsmIndex].
    destruct (decide (fsmIndex (fw_sm fw0) < 3)); cbn [set_index nodeId]; rewrite Hid;
      (unfold header_fits; vm_compute; repeat split; congruence). }
  set (data := stream_bytes (G := Stored) (nodeId (fw_sm fw5)) (fs_lastIndex fs) 1700000000 l) in *.
  destruct (recover_stream (GL := stored_laws) (nodeId (fw_sm fw5)) (fs_lastIndex fs) 1700000000 l "a" demo_map demo_store)
    as (sw7 & H7 & _); [exact demo_serves|reflexivity|exact demo_free|exact Hfit| |exact Hnd|].
  { apply (map_ok_entries (G := Stored)); [exact Hnd|]. by rewrite Hlm. }
  destruct (Restore_ok (MkReader data None) 0 0 _ sw7 fresh_fsm eq_refl demo_chan H7) as (fw8 & H8 & _).
  exists [MkReplica fw6 1 1 false None true; MkReplica fw8 1 1 false None true], [(data, 1%nat, 1%nat)],
    (MkReplica fw8 1 1 false None true).
  split; [|split; reflexivity].
  exists [fresh_replica; fresh_replica]. split; [constructor; [exact fresh_init|constructor; [exact fresh_init|constructor]]|].
  eapply rtc_l; [apply (y_commits _ e)|].
  eapply rtc_l; [eapply (y_node _ 0%nat Restarts); [reflexivity|]|].
  { eapply (rp_restarts _ _ _ 0 true _ _ w); [|reflexivity|exact Hbo|exact H0].
    apply leaves_crashes; [reflexivity|apply crash_sync_all]. }
  eapply rtc_l; [eapply (y_node _ 0%nat Works); [reflexivity|eapply rp_raises; exact H1]|].
  eapply rtc_l; [eapply (y_node _ 0%nat Works); [reflexivity|eapply rp_begins; [reflexivity|reflexivity|exact H2]]|].
  eapply rtc_l; [eapply (y_node _ 0%nat Works); [reflexivity|eapply rp_reads; exact H3]|].
  eapply rtc_l; [eapply (y_node _ 0%nat Works); [reflexivity|eapply rp_writes; [reflexivity|reflexivity|exact H4']]|].
  eapply rtc_l; [eapply (y_node _ 0%nat Works); [reflexivity|eapply rp_takes; [reflexivity|exact H5]]|].
  eapply rtc_l; [eapply (y_node _ 0%nat (Persists data 1 1)); [reflexivity|eapply rp_persists; [reflexivity| | |exact H6]]|].
  { exact Hmo. }
  { exact Hfit. }
  eapply rtc_l; [eapply (y_node _ 1%nat Installs fresh_replica (MkReplica fw8 1 1 false None true)); [reflexivity|]|apply rtc_refl].
  apply (rp_installs _ _ fresh_replica data 1 1 0 0 fw8); [reflexivity| |simpl; lia| |exact H8].
  { cbn [y_snapshots persisted app]. apply list_elem_of_here. }
  split; [reflexivity|exact demo_free].
Qed.

Lemma replicas_converge_witness :
  ∃ (r : replica (P := Mem no_fault)) n, running n demo_written_map (rp_fw r).
Proof.
  destruct demo_replicas as (nodes & snapshots & r & H & Hi & Ha). exists r.
  exact (replicas_converge (GL := stored_laws) demo_map _ 1 r H Hi Ha).
Defined.

Lemma local_reads_are_prefixes_witness :
  ∃ (r : replica (P := Mem no_fault)) j fw, (1 ≤ j ≤ 1)%nat ∧
    ReadLocal (string_bytes "x") (rp_fw r) =
      (Ok (MkResponse (value_at demo_map (string_bytes "x") demo_history j) None), fw).
Proof.
  destruct demo_replicas as (nodes & snapshots & r & H & Hi & Ha). exists r.
  destruct (local_reads_are_prefixes (GL := stored_laws) demo_map _ 1 r (string_bytes "x") H Hi)
    as (j & fw & H1 & H2). exists j, fw. rewrite Ha in H2. exact (conj H2 H1).
Defined.
