(* ===== verification/Leader.v ===== *)
(** * Leader.v: engine/raft.go and engine/linearizable.go, leadership.

    Raft reports every gain and loss of leadership on a channel. One goroutine
    ([monitorLeadership]) reads it, and starts or stops another one
    ([leaderLoop]), which waits for a barrier and then raises the flag that
    linearizable reads look at. The two goroutines and raft are interleaved
    step by step: [step] is what one of them does next. *)
From S2P Require Import Prelude.

(** ** leadershipTransfer: three attempts *)

(** [attempt i] is the outcome of the [i]-th call of [raft.LeadershipTransfer].
    The result comes with the number of calls that were made. *)
Definition leadershipTransfer (attempt : nat → option error) : option error * nat :=
  let retryCount := 3%nat in
  let '(ok, n) := retry attempt 0 retryCount in
  (if ok then None
   else Some (Errorf "failed to transfer leadership in %d attempts" [FInt (Z.of_nat retryCount)]), n).

(** ** The two goroutines

    Raft runs beside them. A gain of leadership is the moment its leader loop
    starts, which is after it has sent [true] on [NotifyCh]; a loss is the
    moment that loop ends, after which it sends [false]. Both sends wait while
    the channel is full, and the one of a loss may be dropped only when the
    node shuts down. [raft_leader] is whether that loop runs (nothing else
    completes a barrier or verifies the leader). *)

(** [make(chan bool, 100)] *)
Definition raftNotifyCh_cap : nat := 100.

(** Where [leaderLoop] is. *)
Inductive loop_pc :=
| LReconcile       (** at RECONCILE: waiting for the barrier *)
| LEstablish       (** in [establishLeadership], before it looks at the context *)
| LSetReady        (** the context was not done: about to raise the flag *)
| LParked          (** established: waiting for [stopCh], [revokeLeadership] deferred *)
| LFailed          (** [establishLeadership] failed: about to revoke *)
| LTransfer        (** in [leadershipTransfer] *)
| LWait            (** at WAIT: the poll of [stopCh] *)
| LSleep           (** the wait of five seconds *)
| LReturn          (** returning, nothing deferred *)
| LRevoke.         (** returning through the deferred [revokeLeadership] *)

(** Where [monitorLeadership] is. *)
Inductive monitor_pc :=
| MSelect
| MWaiting         (** [leaderLoopWg.Wait()] after a loss *)
| MLeaving         (** [leaderLoopWg.Wait()] on shutdown *)
| MExited.

#[global] Instance loop_pc_eq_dec : EqDecision loop_pc.
Proof. solve_decision. Defined.
#[global] Instance monitor_pc_eq_dec : EqDecision monitor_pc.
Proof. solve_decision. Defined.

Record lstate := MkL {
  raft_leader : bool;             (** raft's own view *)
  raft_term : Z;                  (** counts the gains of leadership *)
  raftNotifyCh : list bool;       (** oldest first *)
  mon : monitor_pc;
  leaderLoopCancel : bool;        (** [leaderLoopCancel != nil] *)
  stopCh : bool;                  (** the running loop's channel is closed *)
  loop : option loop_pc;          (** the goroutine, while it runs *)
  readyForConsistentReads : Z;
  shutdownCh : bool;
  seen : bool;                    (** the notification handled last *)
  barrier_term : Z;               (** the term of the last completed barrier *)
}.

Definition init : lstate := MkL false 0 [] MSelect false false None 0 false false 0.

Definition setConsistentReadReady (s : lstate) : lstate :=
  MkL (raft_leader s) (raft_term s) (raftNotifyCh s) (mon s) (leaderLoopCancel s) (stopCh s)
      (loop s) 1 (shutdownCh s) (seen s) (barrier_term s).
Definition resetConsistentReadReady (s : lstate) : lstate :=
  MkL (raft_leader s) (raft_term s) (raftNotifyCh s) (mon s) (leaderLoopCancel s) (stopCh s)
      (loop s) 0 (shutdownCh s) (seen s) (barrier_term s).
Definition revokeLeadership (s : lstate) : lstate := resetConsistentReadReady s.
Definition isReadyForConsistentReads (s : lstate) : bool :=
  bool_decide (readyForConsistentReads s = 1).

Definition goto (pc : option loop_pc) (s : lstate) : lstate :=
  MkL (raft_leader s) (raft_term s) (raftNotifyCh s) (mon s) (leaderLoopCancel s) (stopCh s)
      pc (readyForConsistentReads s) (shutdownCh s) (seen s) (barrier_term s).
Definition set_mon (m : monitor_pc) (cancel stop : bool) (pc : option loop_pc) (s : lstate) : lstate :=
  MkL (raft_leader s) (raft_term s) (raftNotifyCh s) m cancel stop
      pc (readyForConsistentReads s) (shutdownCh s) (seen s) (barrier_term s).
(** Take the notification [b] off the channel. *)
Definition receive (b : bool) (rest : list bool) (s : lstate) : lstate :=
  MkL (raft_leader s) (raft_term s) rest (mon s) (leaderLoopCancel s) (stopCh s)
      (loop s) (readyForConsistentReads s) (shutdownCh s) b (barrier_term s).

Inductive step : lstate → lstate → Prop :=
(** raft: an election won, leadership lost, the node shut down *)
| raft_gains s :
    raft_leader s = false → (length (raftNotifyCh s) < raftNotifyCh_cap)%nat →
    step s (MkL true (raft_term s + 1) (raftNotifyCh s ++ [true]) (mon s) (leaderLoopCancel s)
                (stopCh s) (loop s) (readyForConsistentReads s) (shutdownCh s) (seen s) (barrier_term s))
| raft_loses s :
    raft_leader s = true →
    step s (MkL false (raft_term s) (raftNotifyCh s ++ [false]) (mon s) (leaderLoopCancel s)
                (stopCh s) (loop s) (readyForConsistentReads s) (shutdownCh s) (seen s) (barrier_term s))
| raft_stops s :
    (** the notification is dropped *)
    raft_leader s = true → shutdownCh s = true →
    step s (MkL false (raft_term s) (raftNotifyCh s) (mon s) (leaderLoopCancel s)
                (stopCh s) (loop s) (readyForConsistentReads s) true (seen s) (barrier_term s))
| server_close s :
    shutdownCh s = false →
    step s (MkL (raft_leader s) (raft_term s) (raftNotifyCh s) (mon s) (leaderLoopCancel s)
                (stopCh s) (loop s) (readyForConsistentReads s) true (seen s) (barrier_term s))
(** monitorLeadership *)
| mon_gain s rest :
    mon s = MSelect → raftNotifyCh s = true :: rest → leaderLoopCancel s = false →
    step s (set_mon MSelect true false (Some LReconcile) (receive true rest s))
| mon_gain_running s rest :
    mon s = MSelect → raftNotifyCh s = true :: rest → leaderLoopCancel s = true →
    step s (receive true rest s)
| mon_loss s rest :
    mon s = MSelect → raftNotifyCh s = false :: rest → leaderLoopCancel s = true →
    step s (set_mon MWaiting true true (loop s) (receive false rest s))
| mon_loss_idle s rest :
    mon s = MSelect → raftNotifyCh s = false :: rest → leaderLoopCancel s = false →
    step s (receive false rest s)
| mon_waited s :
    mon s = MWaiting → loop s = None →
    step s (set_mon MSelect false false None s)
| mon_shutdown_running s :
    mon s = MSelect → shutdownCh s = true → leaderLoopCancel s = true →
    step s (set_mon MLeaving true true (loop s) s)
| mon_shutdown_idle s :
    mon s = MSelect → shutdownCh s = true → leaderLoopCancel s = false →
    step s (set_mon MExited false (stopCh s) (loop s) s)
| mon_left s :
    mon s = MLeaving → loop s = None →
    step s (set_mon MExited true (stopCh s) None s)
(** leaderLoop *)
| loop_barrier_ok s :
    loop s = Some LReconcile → raft_leader s = true →
    step s (MkL (raft_leader s) (raft_term s) (raftNotifyCh s) (mon s) (leaderLoopCancel s) (stopCh s)
                (Some LEstablish) (readyForConsistentReads s) (shutdownCh s) (seen s) (raft_term s))
| loop_barrier_lost s :
    (** [ErrNotLeader] or [ErrLeadershipLost] *)
    loop s = Some LReconcile → step s (goto (Some LReturn) s)
| loop_barrier_err s :
    loop s = Some LReconcile → step s (goto (Some LWait) s)
| loop_context_done s :
    (** the context is cancelled after [stopCh] is closed *)
    loop s = Some LEstablish → stopCh s = true → step s (goto (Some LFailed) s)
| loop_context_live s :
    loop s = Some LEstablish → step s (goto (Some LSetReady) s)
| loop_set_ready s :
    loop s = Some LSetReady → step s (goto (Some LParked) (setConsistentReadReady s))
| loop_failed s :
    loop s = Some LFailed → step s (goto (Some LTransfer) (revokeLeadership s))
| loop_transfer s attempt :
    loop s = Some LTransfer →
    step s (goto (Some (match (leadershipTransfer attempt).1 with None => LReturn | Some _ => LWait end)) s)
| loop_stopped s :
    loop s = Some LParked → stopCh s = true → step s (goto (Some LRevoke) s)
| loop_revoke s :
    loop s = Some LRevoke → step s (goto (Some LReturn) (revokeLeadership s))
| loop_wait_stopped s :
    loop s = Some LWait → stopCh s = true → step s (goto (Some LReturn) s)
| loop_wait_on s :
    loop s = Some LWait → stopCh s = false → step s (goto (Some LSleep) s)
| loop_sleep_stopped s :
    loop s = Some LSleep → stopCh s = true → step s (goto (Some LReturn) s)
| loop_sleep_over s :
    (** also when both channels are ready: [select] picks either *)
    loop s = Some LSleep → step s (goto (Some LReconcile) s)
| loop_done s :
    loop s = Some LReturn → step s (goto None s).

Definition reachable (s : lstate) : Prop := rtc step init s.

(** ** ConsistentRead *)

Definition second : Z := 1000000000.
Definition rpcHoldTimeout : Z := 5 * second.
Definition jitterFraction : Z := 16.

(** What the select of the polling loop is woken by: a tick (and what the flag
    says then), the deadline, or the shutdown of the node. *)
Inductive poll_event :=
| PTick (ready : bool)
| PDeadline
| PShutdown.

Fixpoint poll (events : list poll_event) : res unit :=
  match events with
  | PTick true :: _ => Ok tt
  | PTick false :: rest => poll rest
  | PDeadline :: _ => Err ErrNotReadyForConsistentReads
  | PShutdown :: _ => Err (Errorf "shutdown waiting for leader" [])
  | [] => NoFuel  (** nothing has woken the loop yet *)
  end.

(** [verify] is the outcome of [raft.VerifyLeader], [ready] the flag after it,
    [deadline] the time until the context's deadline when it has one. *)
Definition consistentReadWithContext (verify : option error) (ready : bool) (deadline : option Z)
    (events : list poll_event) : res unit :=
  match verify with
  | Some e => Err e
  | None =>
      if ready then Ok tt
      else
        let pollFor := default rpcHoldTimeout deadline in
        let interval := Z.quot pollFor jitterFraction in
        if decide (interval ≤ 0) then Err ErrNotReadyForConsistentReads else poll events
  end.

(** [until] is what is left of the five seconds when the code asks. *)
Definition ConsistentRead (verify : option error) (ready : bool) (until : Z)
    (events : list poll_event) : res unit :=
  consistentReadWithContext verify ready (Some until) events.

(** ** What a failed or successful transfer means *)

(** [leadershipTransfer] asks raft at most three times. It returns nil after
    the first attempt that succeeds (and makes no further one), and its error
    exactly when all three attempts fail. *)
Theorem leadershipTransfer_outcome attempt :
  match leadershipTransfer attempt with
  | (None, n) => (1 ≤ n ≤ 3)%nat ∧ attempt (n - 1)%nat = None ∧
                 ∀ k, (k < n - 1)%nat → attempt k ≠ None
  | (Some e, n) => n = 3%nat ∧ e = Errorf "failed to transfer leadership in %d attempts" [FInt 3] ∧
                   ∀ k, (k < 3)%nat → attempt k ≠ None
  end.
Proof.
  unfold leadershipTransfer. pose proof (retry_spec attempt 3 0) as H.
  destruct (retry attempt 0 3) as [[] n].
  - destruct H as (j & -> & ? & ? & Hk). simpl. rewrite Nat.sub_0_r.
    split_and!; [lia|lia|done|]. intros k ?. apply Hk. lia.
  - destruct H as (-> & Hk). split_and!; [done..|]. intros k ?. apply Hk. lia.
Qed.

(** ** The invariant of the interleaving *)

(** The notifications still to be handled after [b], when raft's own view is
    [leader]: gains and losses alternate and the last one is raft's view. *)
Fixpoint alternates (b : bool) (pending : list bool) (leader : bool) : Prop :=
  match pending with
  | [] => b = leader
  | c :: rest => c = negb b ∧ alternates c rest leader
  end.

(** How many of the pending notifications are gains. *)
Fixpoint gains (pending : list bool) : Z :=
  match pending with
  | [] => 0
  | c :: rest => (if c then 1 else 0) + gains rest
  end.

Lemma gains_app l k : gains (l ++ k) = gains l + gains k.
Proof. induction l as [|c l IH]; simpl; [done|]. rewrite IH. lia. Qed.

Lemma gains_nonneg l : 0 ≤ gains l.
Proof. induction l as [|[] l IH]; simpl; lia. Qed.

Lemma alternates_snoc b l leader :
  alternates b l leader → alternates b (l ++ [negb leader]) (negb leader).
Proof.
  revert b. induction l as [|c l IH]; simpl; intros b.
  - by intros ->.
  - intros [-> H]. split; [done|]. by apply IH.
Qed.

(** The barrier of the running loop has completed. *)
Definition past_barrier (pc : loop_pc) : bool :=
  match pc with
  | LEstablish | LSetReady | LParked | LRevoke => true
  | _ => false
  end.

(** The points at which the flag may be up. *)
Definition may_be_ready (pc : loop_pc) : bool :=
  match pc with LParked | LRevoke => true | _ => false end.

Record inv (s : lstate) : Prop := {
  inv_ready : readyForConsistentReads s = 0 ∨
    (readyForConsistentReads s = 1 ∧ ∃ pc, loop s = Some pc ∧ may_be_ready pc = true);
  inv_parked : loop s = Some LParked → readyForConsistentReads s = 1;
  inv_idle : leaderLoopCancel s = false → loop s = None;
  inv_stop : (mon s = MSelect → stopCh s = false) ∧
             (mon s = MWaiting → leaderLoopCancel s = true ∧ stopCh s = true) ∧
             (mon s = MLeaving → leaderLoopCancel s = true ∧ stopCh s = true);
  inv_notify : shutdownCh s = false →
    (mon s = MSelect ∧ seen s = leaderLoopCancel s ∨ mon s = MWaiting ∧ seen s = false) ∧
    alternates (seen s) (raftNotifyCh s) (raft_leader s);
  inv_barrier : barrier_term s ≤ raft_term s ∧
    (shutdownCh s = false → ∀ pc, loop s = Some pc → past_barrier pc = true →
     raft_term s - gains (raftNotifyCh s) ≤ barrier_term s);
}.

Lemma init_inv : inv init.
Proof. split; naive_solver. Qed.

(** One clause of the invariant after a step: the step's guards decide the
    scrutinees, and what is left is the clause before it. *)
Ltac step_cases H :=
  destruct H as [| | | | | | | | | | | | | | | | | | |s attempt| | | | | | |]; simpl in *;
  try destruct (leadershipTransfer attempt).1;
  repeat match goal with
  | E : loop ?s = _ |- _ => rewrite E in *
  | E : mon ?s = _ |- _ => rewrite E in *
  | E : raftNotifyCh ?s = _ |- _ => rewrite E in *
  | E : leaderLoopCancel ?s = _ |- _ => rewrite E in *
  | E : stopCh ?s = _ |- _ => rewrite E in *
  | E : raft_leader ?s = _ |- _ => rewrite E in *
  | E : shutdownCh ?s = _ |- _ => rewrite E in *
  end; simpl in *.

Lemma step_ready s s' : inv s → step s s' →
  (readyForConsistentReads s' = 0 ∨
   (readyForConsistentReads s' = 1 ∧ ∃ pc, loop s' = Some pc ∧ may_be_ready pc = true)) ∧
  (loop s' = Some LParked → readyForConsistentReads s' = 1).
Proof.
  intros [Hr Hp Hi _ _ _] H. step_cases H; try done;
    try (split; [|done]; first [by left | by eauto |
         destruct Hr as [?|(? & pc & Hpc & Hm)]; [by left|simplify_eq/=; eauto; done]]).
  - rewrite (Hi eq_refl) in Hr. split; [|done]. destruct Hr as [?|(_ & ? & ? & _)]; by left.
Qed.

Lemma step_control s s' : inv s → step s s' →
  (leaderLoopCancel s' = false → loop s' = None) ∧
  (mon s' = MSelect → stopCh s' = false) ∧
  (mon s' = MWaiting → leaderLoopCancel s' = true ∧ stopCh s' = true) ∧
  (mon s' = MLeaving → leaderLoopCancel s' = true ∧ stopCh s' = true).
Proof.
  intros [_ _ Hi (Hs1 & Hs2 & Hs3) _ _] H. 
  step_cases H; repeat split; intros; simplify_eq; try (by auto);
   try (by apply Hs2); try by apply Hs3.
  all: try (specialize (Hi ltac:(done)); done).
Qed.

Lemma step_notify s s' : inv s → step s s' → shutdownCh s' = false →
  (mon s' = MSelect ∧ seen s' = leaderLoopCancel s' ∨ mon s' = MWaiting ∧ seen s' = false) ∧
  alternates (seen s') (raftNotifyCh s') (raft_leader s').
Proof.
  intros [_ _ _ _ Hn _] H. step_cases H; intros Hd; try (by auto); try done;
    destruct (Hn Hd) as [Hm Ha]; try (by auto).
  - split; [done|]. by apply (alternates_snoc _ _ false).
  - split; [done|]. by apply (alternates_snoc _ _ true).
  - destruct Ha as [_ Ha]. auto.
  - destruct Ha as [Ha _]. naive_solver.
  - destruct Ha as [_ Ha]. auto.
  - destruct Ha as [Ha _]. naive_solver.
  - split; [|done]. left. naive_solver.
  - naive_solver.
Qed.

Lemma step_barrier s s' : inv s → step s s' →
  barrier_term s' ≤ raft_term s' ∧
  (shutdownCh s' = false → ∀ pc, loop s' = Some pc → past_barrier pc = true →
   raft_term s' - gains (raftNotifyCh s') ≤ barrier_term s').
Proof.
  intros [_ _ _ _ Hn [Hb1 Hb2]] H.
  step_cases H; (split; [lia|]); intros Hd pc Hpc Hp; simplify_eq/=; rewrite ?gains_app; simpl;
    pose proof (gains_nonneg (raftNotifyCh s)); try lia;
    try (specialize (Hb2 Hd _ Hpc Hp)); try (specialize (Hb2 Hd _ eq_refl eq_refl)); try lia.
  destruct (Hn Hd) as [[[_ Hs]|[Hs _]] [Ha _]]; [by rewrite Hs in Ha|done].
Qed.

Lemma step_inv s s' : inv s → step s s' → inv s'.
Proof.
  intros Hi H. destruct (step_ready _ _ Hi H), (step_control _ _ Hi H).
  split; eauto using step_notify, step_barrier.
Qed.

Lemma reachable_inv s : reachable s → inv s.
Proof.
  unfold reachable. revert s. apply rtc_ind_r; eauto using init_inv, step_inv.
Qed.

(** A raised flag, when the monitor has caught up with raft. *)
Lemma ready_caught_up s :
  inv s → shutdownCh s = false → mon s = MSelect → raftNotifyCh s = [] →
  readyForConsistentReads s = 1 → raft_leader s = true ∧ barrier_term s = raft_term s.
Proof.
  intros H Hd Hm Hq Hr. destruct (inv_ready s H) as [?|(_ & pc & Hl & Hpc)]; [lia|].
  destruct (inv_notify s H Hd) as [[[_ Hs]|[Hs _]] Ha]; [|congruence].
  destruct (inv_barrier s H) as [Hb1 Hb2]. specialize (Hb2 Hd _ Hl).
  rewrite Hq in *. simpl in *. split.
  - rewrite <-Ha, Hs. destruct (leaderLoopCancel s) eqn:E; [done|].
    by rewrite (inv_idle s H E) in Hl.
  - apply Z.le_antisymm; [done|]. rewrite Z.sub_0_r in Hb2. apply Hb2. by destruct pc.
Qed.

(** How a step changes raft's own fields. *)
Lemma step_terms s s' : step s s' →
  (raft_leader s' = raft_leader s → raft_term s' = raft_term s) ∧
  (raft_leader s = false → raft_leader s' = true →
   raft_term s' = raft_term s + 1 ∧ barrier_term s' = barrier_term s) ∧
  (raft_leader s = true → raft_leader s' = false →
   raft_term s' = raft_term s ∧ barrier_term s' = barrier_term s) ∧
  (barrier_term s' = barrier_term s ∨ barrier_term s' = raft_term s).
Proof. intros H. destruct H; simpl in *; split_and!; intros; try congruence; auto. Qed.

(** C11: Safety of the flag. In every reachable state of the interleaving the
    flag is 0 or 1, it is up only while a [leaderLoop] runs, past its barrier,
    and no loop runs when [monitorLeadership] believes there is none (so there
    is never a second one). When the node is not shutting down and the monitor
    has caught up with raft's notifications, a raised flag means that raft is the
    leader and that the barrier was completed in the present term. *)
Theorem ready_flag_is_sound s :
  reachable s →
  (isReadyForConsistentReads s = false ∧ readyForConsistentReads s = 0 ∨
   isReadyForConsistentReads s = true ∧ ∃ pc, loop s = Some pc ∧ may_be_ready pc = true) ∧
  (leaderLoopCancel s = false → loop s = None) ∧
  (shutdownCh s = false → mon s = MSelect → raftNotifyCh s = [] →
   isReadyForConsistentReads s = true → raft_leader s = true ∧ barrier_term s = raft_term s).
Proof.
  intros H%reachable_inv. unfold isReadyForConsistentReads. split_and!.
  - destruct (inv_ready s H) as [->|(-> & Hl)]; [by left|right]. by split.
  - apply (inv_idle s H).
  - intros Hd Hm Hq Hr%bool_decide_eq_true. by apply ready_caught_up.
Qed.

(** The leader that has established itself, in term 1. *)
Definition established : lstate :=
  MkL true 1 [] MSelect true false (Some LParked) 1 false true 1.

Lemma established_reachable : reachable established.
Proof.
  unfold reachable.
  eapply rtc_l; [by apply raft_gains; simpl; [done|unfold raftNotifyCh_cap; lia]|].
  eapply rtc_l; [by eapply mon_gain|]. eapply rtc_l; [by apply loop_barrier_ok|].
  eapply rtc_l; [by apply loop_context_live|]. eapply rtc_l; [by apply loop_set_ready|].
  apply rtc_refl.
Defined.

Lemma ready_flag_is_sound_witness :
  isReadyForConsistentReads established = true ∧
  raft_leader established = true ∧ barrier_term established = raft_term established.
Proof.
  split; [reflexivity|].
  apply (ready_flag_is_sound established established_reachable); reflexivity.
Defined.

(** The flag may lag behind raft. The field's comment says that the flag
    tells when the leader has applied its initial barrier; but a loss and a
    regain of leadership that the monitor has not handled yet leave it up, so
    there is a reachable state in which raft leads a new term, the barrier of
    that term has not been completed, and a consistent read whose
    [VerifyLeader] succeeds is let through at once. *)
Theorem ready_flag_may_be_stale :
  ∃ s, reachable s ∧ shutdownCh s = false ∧ raft_leader s = true ∧
       barrier_term s < raft_term s ∧
       consistentReadWithContext None (isReadyForConsistentReads s) (Some rpcHoldTimeout) [] = Ok tt.
Proof.
  exists (MkL true 2 [false; true] MSelect true false (Some LParked) 1 false true 1).
  split; [|repeat split; simpl; lia].
  unfold reachable. etrans; [apply established_reachable|].
  eapply rtc_l; [by apply raft_loses|].
  eapply rtc_l; [apply raft_gains; simpl; [done|unfold raftNotifyCh_cap; lia]|].
  apply rtc_refl.
Qed.

(** ** A loss is handled

    The loop, told to stop, comes to its end by steps of its own. *)

Definition loop_finishes (s : lstate) : Prop :=
  ∃ s', rtc step s s' ∧ loop s' = None ∧ mon s' = mon s ∧ readyForConsistentReads s' = 0 ∧
        raft_leader s' = raft_leader s ∧ raftNotifyCh s' = raftNotifyCh s.

Lemma finishes_step s s1 : step s s1 → mon s1 = mon s → raft_leader s1 = raft_leader s →
  raftNotifyCh s1 = raftNotifyCh s → loop_finishes s1 → loop_finishes s.
Proof.
  intros H1 Hm Hl Hq (s' & ? & ? & ? & ? & ? & ?). exists s'.
  split; [by eapply rtc_l|]. repeat split; congruence.
Qed.

Lemma loop_can_finish s :
  inv s → stopCh s = true → loop_finishes s.
Proof.
  intros Hi Hs.
  assert (Hnone : ∀ s0, loop s0 = None → readyForConsistentReads s0 = 0 → loop_finishes s0).
  { intros s0 ??. exists s0. split_and!; done. }
  assert (Hret : ∀ s0, loop s0 = Some LReturn → readyForConsistentReads s0 = 0 → loop_finishes s0).
  { intros s0 ??. eapply finishes_step; [by apply loop_done|done..|]. by apply Hnone. }
  assert (Hrev : ∀ s0, loop s0 = Some LRevoke → loop_finishes s0).
  { intros s0 ?. eapply finishes_step; [by apply loop_revoke|done..|]. by apply Hret. }
  assert (Hpark : ∀ s0, loop s0 = Some LParked → stopCh s0 = true → loop_finishes s0).
  { intros s0 ??. eapply finishes_step; [by apply loop_stopped|done..|]. by apply Hrev. }
  assert (Hset : ∀ s0, loop s0 = Some LSetReady → stopCh s0 = true → loop_finishes s0).
  { intros s0 ??. eapply finishes_step; [by apply loop_set_ready|done..|]. by apply Hpark. }
  assert (Htr : ∀ s0, loop s0 = Some LTransfer → readyForConsistentReads s0 = 0 → loop_finishes s0).
  { intros s0 ??. eapply finishes_step; [by apply (loop_transfer s0 (λ _, None))|done..|]. by apply Hret. }
  assert (Hr0 : (∀ pc, loop s = Some pc → may_be_ready pc = false) → readyForConsistentReads s = 0).
  { intros Hno. destruct (inv_ready s Hi) as [?|(_ & pc & Hpc & ?)]; [done|].
    apply Hno in Hpc. congruence. }
  destruct (loop s) as [pc|] eqn:E; [|apply Hnone, Hr0; naive_solver].
  destruct pc; eauto.
  - eapply finishes_step; [by apply loop_barrier_lost|done..|]. apply Hret; [done|]. apply Hr0; naive_solver.
  - eapply finishes_step; [by apply loop_context_live|done..|]. by apply Hset.
  - eapply finishes_step; [by apply loop_failed|done..|]. by apply Htr.
  - apply Htr; [done|]. apply Hr0; naive_solver.
  - eapply finishes_step; [by apply loop_wait_stopped|done..|]. apply Hret; [done|]. apply Hr0; naive_solver.
  - eapply finishes_step; [by apply loop_sleep_stopped|done..|]. apply Hret; [done|]. apply Hr0; naive_solver.
  - apply Hret; [done|]. apply Hr0; naive_solver.
Qed.

(** C25: No deadlock in the handover. Whenever [monitorLeadership] waits for the
    leader loop after a loss of leadership, wherever the loop is at that time,
    there is a continuation without any step of raft in which the loop returns,
    the flag is down and the monitor is back at its select, ready to start a new
    loop. *)
Theorem loss_can_be_handled s :
  reachable s → mon s = MWaiting →
  ∃ s', rtc step s s' ∧ mon s' = MSelect ∧ leaderLoopCancel s' = false ∧ loop s' = None ∧
        isReadyForConsistentReads s' = false ∧ raft_leader s' = raft_leader s ∧
        raftNotifyCh s' = raftNotifyCh s.
Proof.
  intros H%reachable_inv Hm.
  destruct (inv_stop s H) as (_ & Hw & _). destruct (Hw Hm) as [_ Hs].
  destruct (loop_can_finish s H Hs) as (s1 & Hrun & Hl & Hm1 & Hr & Hlead & Hq).
  eexists. split; [eapply rtc_r; [exact Hrun|apply mon_waited; congruence]|].
  simpl. unfold isReadyForConsistentReads. simpl. by rewrite Hr.
Qed.

(** A loss arrives while the leader is established. *)
Definition losing : lstate :=
  MkL false 1 [] MWaiting true true (Some LParked) 1 false false 1.

Lemma losing_reachable : reachable losing.
Proof.
  unfold reachable. etrans; [apply established_reachable|].
  eapply rtc_l; [by apply raft_loses|]. eapply rtc_l; [by eapply mon_loss|]. apply rtc_refl.
Defined.

Lemma loss_can_be_handled_witness :
  ∃ s', rtc step losing s' ∧ mon s' = MSelect ∧ leaderLoopCancel s' = false ∧ loop s' = None ∧
        isReadyForConsistentReads s' = false ∧ raft_leader s' = false ∧ raftNotifyCh s' = [].
Proof. apply (loss_can_be_handled losing losing_reachable eq_refl). Defined.

(** ** ConsistentRead *)

Lemma poll_spec events :
  match poll events with
  | Ok _ => ∃ i, events !! i = Some (PTick true) ∧ ∀ k, (k < i)%nat → events !! k = Some (PTick false)
  | Err e => ∃ i ev, events !! i = Some ev ∧ (∀ k, (k < i)%nat → events !! k = Some (PTick false)) ∧
      (ev = PDeadline ∧ e = ErrNotReadyForConsistentReads ∨
       ev = PShutdown ∧ e = Errorf "shutdown waiting for leader" [])
  | Panic _ => False
  | NoFuel => Forall (PTick false =.) events
  end.
Proof.
  induction events as [|[[]| |] events IH]; simpl; try done.
  - exists 0%nat. split; [done|lia].
  - destruct (poll events) as [u|e|p|]; [| |done|by constructor].
    + destruct IH as (i & Hi & Hk). exists (S i). split; [done|].
      intros [|k] ?; simpl; [done|]. apply Hk. lia.
    + destruct IH as (i & ev & Hi & Hk & He). exists (S i), ev. split_and!; [done| |done].
      intros [|k] ?; simpl; [done|]. apply Hk. lia.
  - exists 0%nat, PDeadline. split_and!; [done|lia|auto].
  - exists 0%nat, PShutdown. split_and!; [done|lia|auto].
Qed.

Lemma consistentRead_ok verify ready until events :
  match ConsistentRead verify ready until events with
  | Ok _ => verify = None ∧ (ready = true ∨ PTick true ∈ events)
  | Panic _ => False
  | _ => True
  end.
Proof.
  unfold ConsistentRead, consistentReadWithContext.
  destruct verify as [e|]; [done|]. destruct ready; [by auto|]. case_decide; [done|].
  pose proof (poll_spec events) as Hp. destruct (poll events); try done.
  destruct Hp as (i & Hi%list_elem_of_lookup_2 & _). auto.
Qed.

(** C24: The outcomes of [ConsistentRead]. It returns nil only after raft has
    verified the leadership and the flag has been seen up, at the first look or
    at a tick with only unsuccessful ticks before it. It fails with the error of
    [VerifyLeader], with the error of the shutdown, or with
    [ErrNotReadyForConsistentReads] when less than sixteen nanoseconds are left or
    the deadline passes while every tick saw the flag down. *)
Theorem ConsistentRead_outcome verify ready until events :
  match ConsistentRead verify ready until events with
  | Ok _ => verify = None ∧
      (ready = true ∨ 16 ≤ until ∧ ∃ i, events !! i = Some (PTick true) ∧
                      ∀ k, (k < i)%nat → events !! k = Some (PTick false))
  | Err e => verify = Some e ∨
      verify = None ∧ ready = false ∧
      (e = ErrNotReadyForConsistentReads ∧ (until < 16 ∨ PDeadline ∈ events) ∨
       e = Errorf "shutdown waiting for leader" [] ∧ PShutdown ∈ events)
  | Panic _ => False
  | NoFuel => verify = None ∧ ready = false ∧ Forall (PTick false =.) events
  end.
Proof.
  unfold ConsistentRead, consistentReadWithContext, jitterFraction. simpl.
  destruct verify as [e|]; [by left|]. destruct ready; [by auto|].
  assert (Hq : Z.quot until 16 ≤ 0 ↔ until < 16).
  { split; intros H; [apply Z.nle_gt; intros H1|].
    - pose proof (Z.quot_le_mono 16 until 16 ltac:(lia) H1). change (Z.quot 16 16) with 1 in *. lia.
    - destruct (decide (0 ≤ until)); [by rewrite Z.quot_small by lia|].
      rewrite <-(Z.opp_involutive until), Z.quot_opp_l by lia.
      pose proof (Z.quot_pos (- until) 16). lia. }
  case_decide as Hd; [right; split_and!; [done..|left; split; [done|left; by apply Hq]]|].
  pose proof (poll_spec events) as Hp. destruct (poll events) as [u|e|p|]; [| |done|done].
  - split; [done|right]. split; [lia|done].
  - right. split_and!; [done..|]. destruct Hp as (i & ev & Hi%list_elem_of_lookup_2 & _ & Hev).
    destruct Hev as [[-> ->]|[-> ->]]; auto.
Qed.
