(* ===== verification/Observer.v ===== *)
(** * Observer.v: the raft observer of engine/raft.go.

    [newRaft] registers an observer with raft, whose filter lets leader changes
    and failed heartbeats through, and starts [observe], which logs them until the
    node shuts down. Raft does not wait for the observer: it drops what does not
    fit its channel. *)
From S2P Require Import Prelude.

(** What raft reports: [o.Data]. *)
Inductive raft_observation :=
| LeaderObservation (leaderAddr leaderID : string)
| FailedHeartbeatObservation (peerID : string)
| OtherObservation.

Definition observerChanLen : nat := 50.

(** The filter given to [raft.NewObserver]. *)
Definition observer_filter (o : raft_observation) : bool :=
  match o with
  | LeaderObservation _ _ => true
  | FailedHeartbeatObservation _ => true
  | OtherObservation => false
  end.

Record observer := MkObserver {
  observerChan : list raft_observation;
  ob_registered : bool;            (** raft knows the observer *)
  ob_running : bool;               (** [observe] runs *)
  ob_shutdown : bool;              (** [shutdownCh] is closed *)
  ob_logged : list raft_observation;    (** what was logged *)
  ob_taken : list raft_observation;     (** what raft has put into the channel *)
}.

(** What [newRaft] leaves. *)
Definition observer_start : observer := MkObserver [] true true false [] [].

(** Raft offers an raft_observation; it is dropped when the channel is full. *)
Definition offer (o : raft_observation) (s : observer) : observer :=
  if ob_registered s && observer_filter o then
    if decide (length (observerChan s) < observerChanLen)%nat then
      MkObserver (observerChan s ++ [o]) (ob_registered s) (ob_running s) (ob_shutdown s) (ob_logged s)
        (ob_taken s ++ [o])
    else s
  else s.

Inductive observe_step : observer → observer → Prop :=
| raft_offers s o : observe_step s (offer o s)
| observe_logs s o rest :
    ob_running s = true → observerChan s = o :: rest →
    observe_step s (MkObserver rest (ob_registered s) true (ob_shutdown s) (ob_logged s ++ [o]) (ob_taken s))
| observe_stops s :
    (** [DeregisterObserver], and the goroutine returns *)
    ob_running s = true → ob_shutdown s = true →
    observe_step s (MkObserver (observerChan s) false false true (ob_logged s) (ob_taken s))
| node_closes s :
    observe_step s (MkObserver (observerChan s) (ob_registered s) (ob_running s) true (ob_logged s) (ob_taken s)).

Record observer_inv (s : observer) : Prop := {
  oi_bound : (length (observerChan s) ≤ observerChanLen)%nat;
  oi_order : ob_logged s ++ observerChan s = ob_taken s;
  oi_filter : Forall (λ o, observer_filter o = true) (ob_taken s);
  oi_registered : ob_registered s = ob_running s;
  oi_stopped : ob_running s = false → ob_shutdown s = true;
}.

Lemma observer_step_inv s s' : observer_inv s → observe_step s s' → observer_inv s'.
Proof.
  intros [H1 H2 H3 H4 H5] H. destruct H as [s o|s o rest Hr Hc|s Hr Hs|s].
  - unfold offer. destruct (ob_registered s && observer_filter o) eqn:E; [|by split].
    apply andb_prop in E as [Hreg Hf].
    case_decide; [|by split]. split; cbn -[observer_filter]; try done.
    + rewrite length_app. simpl. lia.
    + by rewrite (assoc_L (++)), H2.
    + apply Forall_app. split; [done|]. by apply Forall_singleton.
  - rewrite Hc in H1, H2. split; cbn in *; try done.
    + lia.
    + by rewrite <-(assoc_L (++)).
    + by rewrite H4.
  - by split.
  - by split.
Qed.

(** The observer, whenever raft reports and the node stops: its channel is never
    over its length; what is logged is, in order, what raft put into the channel,
    leader changes and failed heartbeats only; raft knows the observer exactly as
    long as [observe] runs; it stops only at a shutdown, and then it can. *)
Theorem observer_reachable_inv s :
  rtc observe_step observer_start s →
  observer_inv s ∧
  (ob_shutdown s = true → ob_running s = true → ∃ s', observe_step s s' ∧ ob_registered s' = false).
Proof.
  intros H. split; [|intros Hs Hr; eexists; split; [by apply observe_stops|done]].
  assert (observer_inv observer_start) as Hi by (split; cbn; try done; lia).
  induction H as [|x y z Hxy _ IH]; [done|]. apply IH. by eapply observer_step_inv.
Qed.
