(* ===== verification/Kv.v ===== *)
(** * Kv.v: engine/kv.go, the key-value operations of a node, and IsVoter.

    The operations that the RPC service calls: [Apply] proposes an insert to
    raft, [Query] reads the local store (after [ConsistentRead] when the read
    must be linearizable), the rest report on the cluster. The raft library is a
    parameter, the class [Raft]; what the code relies on is [RaftLaws]. While a
    call waits, raft drives the state machine by the steps of Replica.v: it may
    apply other entries, and take and install snapshots, whether the call succeeds
    or not. *)
From S2P Require Import Prelude Binary Paths Pebble FileSystem DataDir Snapshot Json Store Fsm History Replica Replicas Leader.

(** ** The raft library *)

(** The servers of raft's configuration. *)
Inductive ServerSuffrage := Voter | Nonvoter | Staging.

#[global] Instance ServerSuffrage_eq_dec : EqDecision ServerSuffrage.
Proof. solve_decision. Defined.

Definition Suffrage_String (s : ServerSuffrage) : string :=
  match s with Voter => "Voter" | Nonvoter => "Nonvoter" | Staging => "Staging" end.

Record raft_Server := MkRaftServer {
  srv_Suffrage : ServerSuffrage; srv_ID : string; srv_Address : string }.

(** A node of the cluster. [raft_Apply] waits for the future: it comes back
    with the index and the response, or with the error. While the code waits in a
    call, raft drives the state machine. What raft knows of that is not visible to
    the code, and named for the laws only: the committed log, how much of it the
    state machine has applied since its start and its database has seen, whether
    an [Apply] is between its two steps, and the snapshot being persisted. *)
Class Raft {P : Pebble} := {
  raft_node : Type;
  raft_Apply : bytes → Z → raft_node * fworld → ((Z * CommandResponse) + error) * (raft_node * fworld);
  raft_VerifyLeader : raft_node * fworld → option error * (raft_node * fworld);
  raft_AppliedIndex : raft_node → Z;
  raft_State_Leader : raft_node → bool;
  raft_LeaderWithID : raft_node → string * string;
  raft_GetConfiguration : raft_node → (list raft_Server + error) * raft_node;
  raft_log : raft_node → list raft_Log;
  raft_applied : raft_node → nat;
  raft_kept : raft_node → nat;
  raft_begun : raft_node → bool;
  raft_taken : raft_node → option (fsmSnapshot * nat * nat);
}.
Arguments raft_node : clear implicits.
Arguments raft_node {P} _.

Section raft.
Context {P : Pebble} {R : Raft} {G : Gzip}.

(** The node as a replica of the cluster. *)
Definition node_state (p : raft_node R * fworld) : replica :=
  MkReplica p.2 (raft_applied p.1) (raft_kept p.1) (raft_begun p.1) (raft_taken p.1) false.

(** Raft drives the state machine: it applies the entries of the log, takes and
    persists snapshots and installs those of the cluster, whose replicas all
    started with the map [m]. *)
Definition drives (m : gmap bytes bytes) (log : list raft_Log) : replica → replica → Prop :=
  rtc (λ r r', ∃ what, what ≠ Restarts ∧ replica_step log (snapshot_stream m log) what r r').

Definition raft_moves (m : gmap bytes bytes) (p p' : raft_node R * fworld) : Prop :=
  raft_log p.1 `prefix_of` raft_log p'.1 ∧ drives m (raft_log p'.1) (node_state p) (node_state p').
End raft.

(** While the code waits in a call on a replica that serves the log, raft may
    drive the state machine, whether the call succeeds or fails. The response of a
    successful [Apply] is what the state machine answered when it wrote the
    proposed entry, which is in the log with the index of the future. *)
Class RaftLaws {P : Pebble} {G : Gzip} (R : Raft) (m : gmap bytes bytes) := {
  raft_Apply_moves data timeout p out p' :
    replica_ok m (raft_log p.1) (node_state p) → raft_Apply data timeout p = (out, p') → raft_moves m p p';
  raft_Apply_answers data timeout p i resp p' :
    replica_ok m (raft_log p.1) (node_state p) → raft_Apply data timeout p = (inl (i, resp), p') →
    ∃ a b, drives m (raft_log p'.1) (node_state p) a ∧ drives m (raft_log p'.1) b (node_state p') ∧
      raft_log p'.1 !! rp_applied a = Some (MkLog i data) ∧ rp_applied b = S (rp_applied a) ∧
      apply_writes (MkLog i data) (rp_fw a) = (Ok resp, rp_fw b);
  raft_VerifyLeader_moves p v p' :
    replica_ok m (raft_log p.1) (node_state p) → raft_VerifyLeader p = (v, p') → raft_moves m p p';
}.

Section kv.
Context {P : Pebble} {R : Raft}.

(** The parts of the server that these operations use. *)
Record raftServer := MkServer {
  rs_raftId : string;
  rs_raftAddr : string;
  rs_raftDir : string;
  dbAppliedIndex : Z;
  rs_raft : raft_node R;
  rs_store : fworld;
}.

Definition set_applied (i : Z) (s : raftServer) : raftServer :=
  MkServer (rs_raftId s) (rs_raftAddr s) (rs_raftDir s) i (rs_raft s) (rs_store s).
Definition set_raft (r : raft_node R) (s : raftServer) : raftServer :=
  MkServer (rs_raftId s) (rs_raftAddr s) (rs_raftDir s) (dbAppliedIndex s) r (rs_store s).
Definition set_node (p : raft_node R * fworld) (s : raftServer) : raftServer :=
  MkServer (rs_raftId s) (rs_raftAddr s) (rs_raftDir s) (dbAppliedIndex s) p.1 p.2.

(** ** Apply *)

Definition raftApplyTimeout : Z := 3 * second.

(** [until] is the time until the deadline, when the context has one; without
    one the code asks for the zero time, which is long past. *)
Definition ctxTimeout (until : option Z) : Z :=
  match until with
  | Some timeout => if decide (timeout ≤ 0) then 0 else timeout
  | None => 0
  end.

(** The entry that is proposed for a key and a value. *)
Definition proposal (key val : string) : bytes :=
  let payload := MkSetPayload (string_bytes key) (string_bytes val) in
  let b := Marshal_SetPayload payload in
  Marshal_Command (MkCommand Insert b).

Definition proposal_timeout (until : option Z) : Z :=
  let timeout := ctxTimeout until in
  if decide (timeout ≤ raftApplyTimeout) then raftApplyTimeout else timeout.

(** The error of raft is put into the message as text. *)
Definition kv_Apply (until : option Z) (key val : string) : GoM raftServer Z :=
  λ s,
    match raft_Apply (proposal key val) (proposal_timeout until) (rs_raft s, rs_store s) with
    | (inr e, node) => (Err (Wrapf "Apply %s: %s" [FStr (rs_raftAddr s)] e), set_node node s)
    | (inl (index, resp), node) =>
        let s := set_applied index (set_node node s) in
        match RespError resp with
        | Some e => (Err e, s)
        | None => (Ok index, s)
        end
    end.

(** ** Query *)

(** What [Query] finds while it runs: for [ConsistentRead] the flag at its first
    look, the time that is left, and what wakes its polling loop; and what raft
    does meanwhile ([obs_during]) and between the read of the store and that of the
    index ([obs_after]). *)
Record observation := MkObs {
  obs_ready : bool;
  obs_until : Z;
  obs_events : list poll_event;
  obs_during : raft_node R * fworld → raft_node R * fworld;
  obs_after : raft_node R * fworld → raft_node R * fworld;
}.

Definition server_ConsistentRead (o : observation) : GoM raftServer unit :=
  λ s, let '(verify, node) := raft_VerifyLeader (rs_raft s, rs_store s) in
       (ConsistentRead verify (obs_ready o) (obs_until o) (obs_events o), set_node (obs_during o node) s).

Definition server_ReadLocal (key : bytes) : GoM raftServer CommandResponse :=
  λ s, let '(r, fw) := ReadLocal key (rs_store s) in
       (r, MkServer (rs_raftId s) (rs_raftAddr s) (rs_raftDir s) (dbAppliedIndex s) (rs_raft s) fw).

Definition kv_Query (key : bytes) (consistent : bool) (o : observation) : GoM raftServer (Z * bytes) :=
  s <- go_get ;;
  (if consistent then
     go_map_err (server_ConsistentRead o) (Wrapf "ConsistentRead %s: %s" [FStr (rs_raftAddr s)])
   else go_ret tt) ;;
  res <- server_ReadLocal key ;;
  match RespError res with
  | Some e => go_err e
  | None =>
      (λ s, (Ok tt, set_node (obs_after o (rs_raft s, rs_store s)) s)) ;;
      s <- go_get ;;
      go_ret (raft_AppliedIndex (rs_raft s), Val res)
  end.

(** ** Who leads, and who is in the cluster *)

Definition IsLeader (s : raftServer) : bool := raft_State_Leader (rs_raft s).

Definition GetLeader (s : raftServer) : bool * string * option error :=
  if IsLeader s then (true, "", None)
  else
    let '(leader, _) := raft_LeaderWithID (rs_raft s) in
    if decide (leader = "") then (false, "", Some ErrNoLeader)
    else (false, leader, None).

Record Server := MkServerInfo { ID : string; Addr : string; Suffrage : string }.

(** [servers[i].ID < servers[j].ID] orders the result of [sort.Slice]: an
    ascending permutation, and the only one when the IDs differ. *)
Definition id_le (a b : Server) : Prop := String.le (ID a) (ID b).

#[global] Instance id_le_dec : RelDecision id_le.
Proof. intros a b. unfold id_le. apply _. Defined.

Definition Nodes : GoM raftServer (list Server) :=
  λ s, let '(c, r) := raft_GetConfiguration (rs_raft s) in
       (match c with
        | inr e => Err e
        | inl rs =>
            let servers := map (λ x, MkServerInfo (srv_ID x) (srv_Address x) (Suffrage_String (srv_Suffrage x))) rs in
            Ok (merge_sort id_le servers)
        end, set_raft r s).

Fixpoint find_voter (id : string) (servers : list raft_Server) : bool :=
  match servers with
  | [] => false
  | srv :: servers =>
      if decide (srv_ID srv = id) then bool_decide (srv_Suffrage srv = Voter)
      else find_voter id servers
  end.

Definition IsVoter : GoM raftServer bool :=
  λ s, let '(c, r) := raft_GetConfiguration (rs_raft s) in
       (match c with
        | inr e => Err e
        | inl servers => Ok (find_voter (rs_raftId s) servers)
        end, set_raft r s).
End kv.

(** ** What the log means *)

Lemma spec_proposal m key val :
  spec_apply m (proposal key val) =
    (MkResponse [] None, <[cf_key (string_bytes key) := string_bytes val]> m).
Proof.
  unfold spec_apply, proposal. rewrite Unmarshal_Marshal_Command by by right. simpl.
  by rewrite Unmarshal_Marshal_SetPayload.
Qed.

(** The entry sets the key, wherever it is in the log. *)
Lemma prefix_map_proposal m log p i key val :
  log !! p = Some (MkLog i (proposal key val)) →
  prefix_map m log (S p) = <[cf_key (string_bytes key) := string_bytes val]> (prefix_map m log p).
Proof. intros H. rewrite (prefix_map_S _ _ _ _ H). cbn [Data]. by rewrite spec_proposal. Qed.

(** The key keeps its value while no entry writes it. *)
Lemma value_at_stays m key log p j :
  (p ≤ j)%nat → (∀ q e, (p ≤ q < j)%nat → log !! q = Some e → writes_key key (Data e) = false) →
  value_at m key log j = value_at m key log p.
Proof.
  intros Hpj H. unfold value_at, prefix_map.
  assert (take j log = take p log ++ drop p (take j log)) as E.
  { rewrite <-(take_drop p (take j log)) at 1. by rewrite take_take, Nat.min_l by lia. }
  rewrite E, spec_run_app. cbn [snd]. rewrite spec_run_other; [done|].
  apply Forall_lookup_2. intros q e Hq. rewrite lookup_drop in Hq.
  apply lookup_take_Some in Hq as [Hq Hlt]. apply (H (p + q)%nat e); [lia|done].
Qed.

Section kv_theorems.
Context {P : Pebble} {G : Gzip} `{!PebbleLaws P, !PebbleReliable P, !GzipLaws G} {R : Raft}.
Context (m : gmap bytes bytes) `{!RaftLaws R m}.

Abbreviation state s := (rs_raft s, rs_store s).

(** The server is up: its store serves what the log makes of [m]. *)
Definition up (s : raftServer (R := R)) : Prop := replica_ok m (raft_log (rs_raft s)) (node_state (state s)).

(** What raft drives stays right, and applies more. *)
Lemma drives_ok log r r' :
  replica_ok m log r → drives m log r r' → replica_ok m log r' ∧ (rp_applied r ≤ rp_applied r')%nat.
Proof.
  intros Hr H. induction H as [r|r r1 r' (what & Hw & Hst) _ IH]; [done|].
  assert (replica_ok m log r1) as Hr1 by by eapply replica_step_ok.
  destruct (IH Hr1) as [? ?]. split; [done|].
  pose proof (replica_step_counts _ _ _ _ _ Hst) as Hc. destruct what; try done; lia.
Qed.

Lemma replica_ok_prefix log log' r : log `prefix_of` log' → replica_ok m log r → replica_ok m log' r.
Proof. intros [l ->]. apply replica_ok_app. Qed.

Lemma moves_ok p p' :
  raft_moves m p p' → replica_ok m (raft_log p.1) (node_state p) →
  replica_ok m (raft_log p'.1) (node_state p') ∧ (raft_applied p.1 ≤ raft_applied p'.1)%nat.
Proof. intros [Hp Hd] Hr. apply (replica_ok_prefix _ _ _ Hp) in Hr. exact (drives_ok _ _ _ Hr Hd). Qed.

Lemma moves_trans p1 p2 p3 : raft_moves m p1 p2 → raft_moves m p2 p3 → raft_moves m p1 p3.
Proof.
  intros [H1 D1] [[l Hl] D2]. split; [by rewrite Hl; apply prefix_app_r|].
  etrans; [|exact D2]. rewrite Hl. clear -D1. unfold drives in *.
  induction D1 as [|r r1 r' (what & Hw & Hst) _ IH]; [done|]. eapply rtc_l; [|exact IH].
  exists what. split; [done|]. by apply replica_step_app.
Qed.

(** A proposal that raft reports as applied has been written by the state
    machine. *)
Lemma proposed_runs until key val s i resp p' :
  up s → raft_Apply (proposal key val) (proposal_timeout until) (state s) = (inl (i, resp), p') →
  resp = MkResponse [] None ∧
  ∃ k, raft_log p'.1 !! k = Some (MkLog i (proposal key val)) ∧
       (raft_applied (rs_raft s) ≤ k < raft_applied p'.1)%nat.
Proof.
  intros Hup H. pose proof (raft_Apply_moves _ _ (state s) _ _ Hup H) as [Hpre _].
  destruct (raft_Apply_answers _ _ (state s) _ _ _ Hup H) as (a & b & Ha & Hb & He & Hab & Hw).
  apply (replica_ok_prefix _ _ _ Hpre) in Hup. destruct (drives_ok _ _ _ Hup Ha) as [Hoka Hla].
  pose proof (ro_holds _ _ _ Hoka) as (_ & n & X & [Hsv Hcl] & _).
  destruct (applyCommand_ok (proposal key val) n X _ Hsv Hcl) as (w' & Hac & _).
  unfold apply_writes, on_store in Hw. cbn [Data] in Hw. rewrite Hac, spec_proposal in Hw.
  injection Hw as <- _. split; [done|]. exists (rp_applied a). split; [done|]. split; [exact Hla|].
  assert (rp_applied b ≤ raft_applied p'.1)%nat; [|lia]. clear -Hb.
  change (raft_applied p'.1) with (rp_applied (node_state p')). unfold drives in Hb.
  induction Hb as [|r r1 r' (what & Hw & Hst) _ IH]; [done|].
  pose proof (replica_step_counts _ _ _ _ _ Hst). destruct what; try done; lia.
Qed.

(** C15: The outcomes of [Apply]. When raft accepts the proposal, [Apply] returns
    the index of an entry and records it; the entry is in the committed log, the
    state machine has applied it during the call, and it sets exactly the key, to
    exactly the value. [Apply] never returns an error of the state machine. When
    raft refuses, the error comes back as text and the recorded index is
    unchanged. Either way raft may have driven the state machine meanwhile, and the
    store serves what the log makes of the initial map. *)
Theorem Apply_outcome until key val s :
  up s →
  ∃ s', up s' ∧ raft_moves m (state s) (state s') ∧
    match raft_Apply (proposal key val) (proposal_timeout until) (state s) with
    | (inl (i, _), _) =>
        kv_Apply until key val s = (Ok i, s') ∧ dbAppliedIndex s' = i ∧
        let log := raft_log (rs_raft s') in
        ∃ p, (Index <$> log !! p) = Some i ∧
          (raft_applied (rs_raft s) ≤ p < raft_applied (rs_raft s'))%nat ∧
          prefix_map m log (S p) = <[cf_key (string_bytes key) := string_bytes val]> (prefix_map m log p)
    | (inr e, _) =>
        kv_Apply until key val s = (Err (Wrapf "Apply %s: %s" [FStr (rs_raftAddr s)] e), s') ∧
        dbAppliedIndex s' = dbAppliedIndex s
    end.
Proof.
  intros Hup. unfold kv_Apply. destruct (raft_Apply _ _ _) as [[[i resp]|e] p'] eqn:H;
    pose proof (raft_Apply_moves _ _ (state s) _ _ Hup H) as Hm; pose proof (proj1 (moves_ok _ _ Hm Hup)) as Hok;
    destruct p' as [r' fw'].
  - destruct (proposed_runs _ _ _ _ _ _ _ Hup H) as [-> (k & Hk & Hb)].
    exists (set_applied i (set_node (r', fw') s)). split; [exact Hok|]. split; [exact Hm|].
    split; [reflexivity|]. split; [done|].
    cbn [fst] in Hk, Hb. exists k. cbn [set_applied set_node rs_raft fst]. split; [by rewrite Hk|].
    split; [exact Hb|]. by eapply prefix_map_proposal.
  - exists (set_node (r', fw') s). split; [exact Hok|]. split; [exact Hm|]. by split.
Qed.

(** What a read of a server that is up gives. *)
Lemma server_ReadLocal_ok key s :
  up s →
  ∃ n X fw, running n X (rs_store s) ∧
    between m (raft_log (rs_raft s)) (raft_applied (rs_raft s)) (raft_kept (rs_raft s)) X ∧
    server_ReadLocal key s = (Ok (MkResponse (default [] (X !! cf_key key)) None), set_node (rs_raft s, fw) s) ∧
    up (set_node (rs_raft s, fw) s).
Proof.
  intros Hup. pose proof (ro_holds _ _ _ Hup) as (_ & n & X & Hr & Hb & _).
  destruct (ReadLocal_ok key n X _ Hr) as (fw & H & _). exists n, X, fw. split; [exact Hr|]. split; [exact Hb|].
  split; [by unfold server_ReadLocal; cbn [node_state rp_fw snd] in H; rewrite H|].
  destruct Hup as [Hh Hk Ht]. split; [|done..]. exact (proj1 (holds_read _ _ _ _ _ _ _ _ _ Hh H)).
Qed.

(** What raft does during a [Query] is what raft may do. *)
Record obs_ok (o : observation (R := R)) : Prop := {
  during_moves p : raft_moves m p (obs_during o p);
  after_moves p : raft_moves m p (obs_after o p);
}.

(** [ConsistentRead] leaves the server up, where raft has driven it. *)
Lemma server_ConsistentRead_ok o s :
  up s → obs_ok o →
  let s1 := (server_ConsistentRead o s).2 in up s1 ∧ raft_moves m (state s) (state s1).
Proof.
  intros Hup Hobs. unfold server_ConsistentRead. destruct (raft_VerifyLeader (state s)) as [verify node] eqn:Hv.
  assert (raft_moves m (state s) (obs_during o node)) as Hmv.
  { eapply moves_trans; [by eapply raft_VerifyLeader_moves|]. apply (during_moves _ Hobs). }
  pose proof (proj1 (moves_ok _ _ Hmv Hup)) as Hok. unfold up. cbn [snd set_node rs_raft rs_store].
  by destruct (obs_during o node).
Qed.

(** What [Query] does from the read of the store on. *)
Definition query_local (key : bytes) (o : observation (R := R)) : GoM raftServer (Z * bytes) :=
  res <- server_ReadLocal key ;;
  match RespError res with
  | Some e => go_err e
  | None => (λ s, (Ok tt, set_node (obs_after o (state s)) s)) ;;
            s <- go_get ;;
            go_ret (raft_AppliedIndex (rs_raft s), Val res)
  end.

Lemma query_local_ok key o s :
  up s → obs_ok o →
  ∃ n X fw s', up s' ∧ running n X (rs_store s) ∧
    between m (raft_log (rs_raft s)) (raft_applied (rs_raft s)) (raft_kept (rs_raft s)) X ∧
    state s' = obs_after o (rs_raft s, fw) ∧
    query_local key o s = (Ok (raft_AppliedIndex (rs_raft s'), default [] (X !! cf_key key)), s').
Proof.
  intros Hup Hobs. destruct (server_ReadLocal_ok key s Hup) as (n & X & fw & Hr & Hb & H & Hup').
  exists n, X, fw, (set_node (obs_after o (rs_raft s, fw)) s).
  pose proof (proj1 (moves_ok _ _ (after_moves _ Hobs _) Hup')) as Hup2. cbn [set_node rs_raft rs_store fst snd] in Hup2.
  split; [by destruct (obs_after o (rs_raft s, fw))|]. do 2 (split; [done|]).
  split; [by destruct (obs_after o (rs_raft s, fw))|]. unfold query_local. erewrite go_bind_ok by exact H. reflexivity.
Qed.

(** C14: The outcomes of [Query]. A stale read always succeeds: it gives the value
    of the key in the local store (empty when there is none) at the time of the
    read, and raft's applied index after it. A consistent read gives the value in
    the store as it is when [ConsistentRead] has succeeded, which takes a
    leadership verified by a quorum and a raised flag, whatever raft has applied
    or installed meanwhile; otherwise it fails with that error as text. The value
    is that of the key after a prefix of the log that holds what the node has
    applied. *)
Theorem Query_outcome key (consistent : bool) o s :
  up s → obs_ok o →
  let '(verify, node) := raft_VerifyLeader (state s) in
  let read_at := if consistent then obs_during o node else state s in
  let value_read := ∃ n X fw s', up s' ∧ running n X read_at.2 ∧
    between m (raft_log read_at.1) (raft_applied read_at.1) (raft_kept read_at.1) X ∧
    state s' = obs_after o (read_at.1, fw) ∧
    kv_Query key consistent o s = (Ok (raft_AppliedIndex (rs_raft s'), default [] (X !! cf_key key)), s') in
  if consistent then
    match ConsistentRead verify (obs_ready o) (obs_until o) (obs_events o) with
    | Ok _ => verify = None ∧ (obs_ready o = true ∨ PTick true ∈ obs_events o) ∧ value_read
    | Err e => ∃ s', up s' ∧
        kv_Query key consistent o s = (Err (Wrapf "ConsistentRead %s: %s" [FStr (rs_raftAddr s)] e), s')
    | Panic p => False
    | NoFuel => ∃ s', up s' ∧ kv_Query key consistent o s = (NoFuel, s')
    end
  else value_read.
Proof.
  intros Hup Hobs. destruct (raft_VerifyLeader (state s)) as [verify node] eqn:Hv. cbv zeta.
  destruct consistent.
  2:{ destruct (query_local_ok key o s Hup Hobs) as (n & X & fw & s' & H1 & H2 & H3 & H4 & H5).
      exists n, X, fw, s'. do 4 (split; [done|]). exact H5. }
  set (s1 := set_node (obs_during o node) s).
  assert (server_ConsistentRead o s =
    (ConsistentRead verify (obs_ready o) (obs_until o) (obs_events o), s1)) as Hc
    by (unfold server_ConsistentRead; by rewrite Hv).
  destruct (server_ConsistentRead_ok o s Hup Hobs) as [Hup1 _]. rewrite Hc in Hup1. cbn [snd] in Hup1.
  pose proof (consistentRead_ok verify (obs_ready o) (obs_until o) (obs_events o)) as Ho.
  destruct (ConsistentRead _ _ _ _) as [u|e|p|].
  - destruct Ho as [-> Ho]. split; [done|]. split; [done|].
    destruct (query_local_ok key o s1 Hup1 Hobs) as (n & X & fw & s' & H1 & H2 & H3 & H4 & H5). exists n, X, fw, s'.
    do 4 (split; [done|]). unfold kv_Query. erewrite go_bind_ok by reflexivity.
    erewrite go_bind_ok; [exact H5|]. unfold go_map_err, go_try. by rewrite Hc.
  - exists s1. split; [done|]. unfold kv_Query. erewrite go_bind_ok by reflexivity.
    unfold go_bind at 1, go_map_err, go_try. by rewrite Hc.
  - done.
  - exists s1. split; [done|]. unfold kv_Query. erewrite go_bind_ok by reflexivity.
    unfold go_bind at 1, go_map_err, go_try. by rewrite Hc.
Qed.

(** A read that succeeds gives the value after a prefix of the log that holds what
    the node had applied before. *)
Lemma kv_Query_value key consistent o s i v s' :
  up s → obs_ok o → kv_Query key consistent o s = (Ok (i, v), s') →
  raft_log (rs_raft s) `prefix_of` raft_log (rs_raft s') ∧
  ∃ j, (raft_applied (rs_raft s) ≤ j ≤ length (raft_log (rs_raft s')))%nat ∧
       v = value_at m key (raft_log (rs_raft s')) j.
Proof.
  intros Hup Hobs Hq. unfold kv_Query in Hq. erewrite go_bind_ok in Hq by reflexivity.
  apply go_bind_Ok_inv in Hq as ([] & s1 & H1 & Hq). fold (query_local key o) in Hq.
  assert (up s1 ∧ raft_moves m (state s) (state s1)) as [Hup1 Hmv].
  { destruct consistent; [|injection H1 as <-; by split; [|split]].
    pose proof (server_ConsistentRead_ok o s Hup Hobs) as Hc. unfold go_map_err, go_try in H1.
    destruct (server_ConsistentRead o s) as [[u|e|p|] s2]; try done. by injection H1 as _ <-. }
  destruct (query_local_ok key o s1 Hup1 Hobs) as (n & X & fw & s2 & Hup2 & Hr & Hb & Hst & Hq2).
  rewrite Hq in Hq2. injection Hq2 as _ Ev <-. destruct (moves_ok _ _ Hmv Hup) as [_ Hle].
  pose proof (after_moves _ Hobs (rs_raft s1, fw)) as [Hpre _]. rewrite <-Hst in Hpre. cbn [fst] in Hpre, Hle.
  split; [etrans; [apply Hmv|exact Hpre]|].
  destruct (Hb (cf_key key)) as (j & Hj & E). exists j. pose proof (ro_kept _ _ _ Hup1) as Hk.
  cbn [node_state rp_kept fst] in Hk. destruct Hpre as [l Hl]. split.
  - rewrite Hl, length_app. lia.
  - rewrite Ev, E. unfold value_at. by rewrite Hl, prefix_map_app by lia.
Qed.

(** A write that [Apply] reported is in the log, and has been applied. *)
Lemma kv_Apply_inv until key val s i s1 :
  up s → kv_Apply until key val s = (Ok i, s1) →
  up s1 ∧ ∃ p, raft_log (rs_raft s1) !! p = Some (MkLog i (proposal key val)) ∧ (p < raft_applied (rs_raft s1))%nat.
Proof.
  intros Hup Ha. unfold kv_Apply in Ha.
  destruct (raft_Apply _ _ _) as [[[i' resp]|e] p'] eqn:H; [|done].
  destruct (proposed_runs _ _ _ _ _ _ _ Hup H) as [-> (k & Hk & Hb)].
  pose proof (proj1 (moves_ok _ _ (raft_Apply_moves _ _ (state s) _ _ Hup H) Hup)) as Hok.
  simpl in Ha. injection Ha as -> <-. destruct p' as [r' fw']. split; [exact Hok|]. exists k. split; [done|apply Hb].
Qed.

(** An acknowledged write is visible. When [Apply] has returned an index and a
    read of the node, stale or consistent, gives a value at any later time, that
    value is the one of the key after a prefix of the log that holds the entry;
    so it is what was written unless a later entry of the log wrote the same
    key. *)
Lemma written_is_read until key val consistent o s i s1 p' j v s2 :
  up s → obs_ok o → kv_Apply until key val s = (Ok i, s1) → raft_moves m (state s1) p' →
  kv_Query (string_bytes key) consistent o (set_node p' s1) = (Ok (j, v), s2) →
  let log := raft_log (rs_raft s2) in
  ∃ p k, log !! p = Some (MkLog i (proposal key val)) ∧ (p < k ≤ length log)%nat ∧
    v = value_at m (string_bytes key) log k ∧
    ((∀ q e, (p < q < k)%nat → log !! q = Some e → writes_key (string_bytes key) (Data e) = false) →
     v = string_bytes val).
Proof.
  intros Hup Hobs Ha Hmv Hq log. destruct (kv_Apply_inv _ _ _ _ _ _ Hup Ha) as (Hup1 & p & Hp & Hlt).
  destruct (moves_ok _ _ Hmv Hup1) as [Hok Hle]. destruct Hmv as [Hpre _].
  assert (up (set_node p' s1)) as Hup2 by (unfold up; cbn [set_node rs_raft rs_store]; by destruct p').
  destruct (kv_Query_value _ _ _ _ _ _ _ Hup2 Hobs Hq) as (Hpre2 & k & Hk & ->).
  cbn [set_node rs_raft fst] in *.
  assert (log !! p = Some (MkLog i (proposal key val))) as Hp2.
  { destruct Hpre as [l1 E1], Hpre2 as [l2 E2]. unfold log. rewrite E2, E1.
    by do 2 apply lookup_app_l_Some. }
  exists p, k. split; [done|]. fold log in Hk |- *. split; [lia|]. split; [done|]. intros Hno.
  rewrite (value_at_stays _ _ _ (S p) k); [|lia|intros q e Hqk; apply Hno; lia].
  unfold value_at. rewrite (prefix_map_proposal _ _ _ _ _ _ Hp2). by rewrite lookup_insert_eq.
Qed.
End kv_theorems.

(** ** The nodes of the cluster *)

#[global] Instance id_le_trans : Transitive id_le.
Proof. intros a b c. unfold id_le. by etrans. Qed.
#[global] Instance id_le_total : Total id_le.
Proof. intros a b. unfold id_le. apply (total String.le). Qed.

(** In a list without a repeated ID, an ID belongs to one server. *)
Lemma id_unique (l : list Server) x y : NoDup (ID <$> l) → x ∈ l → y ∈ l → ID x = ID y → x = y.
Proof.
  intros Hnd (i & Hi)%list_elem_of_lookup (j & Hj)%list_elem_of_lookup Heq.
  assert (i = j) as ->; [|congruence].
  eapply NoDup_lookup; [exact Hnd|by rewrite list_lookup_fmap, Hi|].
  by rewrite list_lookup_fmap, Hj, Heq.
Qed.

(** [Nodes] lists the configuration of the cluster, one entry per server, in
    ascending order of the IDs; when no ID is repeated this is the only such
    list. It fails exactly when raft cannot give its configuration. *)
Theorem Nodes_sorted {P : Pebble} {R : Raft} (s : raftServer) :
  let '(c, r) := raft_GetConfiguration (rs_raft s) in
  match c with
  | inr e => Nodes s = (Err e, set_raft r s)
  | inl rs =>
      let infos := map (λ x, MkServerInfo (srv_ID x) (srv_Address x) (Suffrage_String (srv_Suffrage x))) rs in
      ∃ l, Nodes s = (Ok l, set_raft r s) ∧ l ≡ₚ infos ∧ Sorted (λ a b, String.le (ID a) (ID b)) l ∧
           ∀ l', NoDup (srv_ID <$> rs) → l' ≡ₚ infos → Sorted id_le l' → l' = l
  end.
Proof.
  unfold Nodes. destruct (raft_GetConfiguration (rs_raft s)) as [[rs|e] r]; [|done]. set (infos := map _ rs).
  exists (merge_sort id_le infos). split; [done|].
  split; [apply merge_sort_Permutation|]. split; [apply (Sorted_merge_sort id_le)|].
  intros l' Hnd Hp Hs. apply (Sorted_unique_strong id_le); [|done|apply (Sorted_merge_sort _)|].
  - intros x y Hx Hy Hxy Hyx. rewrite Hp in Hx. rewrite merge_sort_Permutation in Hy.
    apply (id_unique infos); [|done..|by apply (anti_symm String.le)].
    unfold infos. rewrite <-list_fmap_compose. exact Hnd.
  - by rewrite Hp, merge_sort_Permutation.
Qed.

(** The node is a voter when the first server of the configuration with its ID is
    one. *)
Lemma find_voter_spec id servers :
  find_voter id servers = true ↔
  ∃ before srv after, servers = before ++ srv :: after ∧ Forall (λ x, srv_ID x ≠ id) before ∧
    srv_ID srv = id ∧ srv_Suffrage srv = Voter.
Proof.
  induction servers as [|x l IH]; simpl.
  { split; [done|]. intros (before & ? & ? & H & _). by destruct before. }
  destruct (decide (srv_ID x = id)) as [Hx|Hx].
  - rewrite bool_decide_eq_true. split; [by exists [], x, l|].
    intros ([|y before] & srv & after & E & Hf & Hid & Hv); simplify_eq/=; [done|].
    by apply Forall_cons in Hf as [? _].
  - rewrite IH. split; intros (before & srv & after & E & Hf & Hid & Hv).
    + exists (x :: before), srv, after. split; [by rewrite E|]. split; [by constructor|done].
    + destruct before as [|y before]; simplify_eq/=. apply Forall_cons in Hf as [_ Hf].
      by exists before, srv, after.
Qed.

(** The proposal waits at least three seconds: the timeout handed to raft is
    the time until the context's deadline, but never less than
    [raftApplyTimeout], also when there is no deadline or it has passed. *)
Theorem proposal_timeout_bounds until :
  proposal_timeout until = Z.max raftApplyTimeout (default 0 until) ∧
  raftApplyTimeout ≤ proposal_timeout until.
Proof.
  unfold proposal_timeout, ctxTimeout, raftApplyTimeout, second.
  destruct until as [u|]; simpl; repeat case_decide; lia.
Qed.

(** ** Witnesses: a cluster of one node *)

(** The node commits every proposal at the next index; its log starts after the
    index 7, and it takes no snapshots. *)
#[export] Instance Solo {P : Pebble} : Raft := {|
  raft_node := list raft_Log;
  raft_Apply := λ data _ '(log, fw),
    let e := MkLog (8 + Z.of_nat (length log)) data in
    if st_closed (sw_store (fw_sw fw)) then (inr ErrLeadershipLost, (log, fw))
    else match Apply e fw with
         | (Ok resp, fw') => (inl (Index e, resp), (log ++ [e], fw'))
         | _ => (inr ErrLeadershipLost, (log, fw))
         end;
  raft_VerifyLeader := λ p, (None, p);
  raft_AppliedIndex := λ log, 7 + Z.of_nat (length log);
  raft_State_Leader := λ _, true;
  raft_LeaderWithID := λ _, ("127.0.0.1:7000", "node1");
  raft_GetConfiguration := λ log, (inl [MkRaftServer Voter "node1" "127.0.0.1:7000"], log);
  raft_log := λ log, log;
  raft_applied := length;
  raft_kept := length;
  raft_begun := λ _, false;
  raft_taken := λ _, None;
|}.

(** The two steps of [Apply] at the end of the log. *)
Lemma solo_applies {P : Pebble} {G : Gzip} m (log : list raft_Log) e resp fw fw' :
  st_closed (sw_store (fw_sw fw)) = false → Apply e fw = (Ok resp, fw') →
  ∃ a b, drives m (log ++ [e]) (node_state (R := Solo) (log, fw)) a ∧
    drives m (log ++ [e]) b (node_state (R := Solo) (log ++ [e], fw')) ∧
    drives m (log ++ [e]) a b ∧
    rp_applied a = length log ∧ rp_applied b = S (length log) ∧
    apply_writes e (rp_fw a) = (Ok resp, rp_fw b).
Proof.
  intros Hcl Ha. set (fw1 := MkFW (set_index (fw_sm fw) (Index e)) (fw_sw fw) (fw_ch fw)).
  assert (apply_begins e fw = (Ok true, fw1)) as Hb.
  { unfold apply_begins, go_bind, go_ret, on_store, isclosed, the_store. simpl. rewrite Hcl.
    by destruct fw as [sm [st w] ch]. }
  rewrite Apply_steps in Ha. erewrite go_bind_ok in Ha by exact Hb.
  assert ((log ++ [e]) !! length log = Some e) as He by by apply list_lookup_middle.
  exists (MkReplica fw1 (length log) (length log) true None false),
    (MkReplica fw' (S (length log)) (Nat.max (length log) (S (length log))) false None false).
  split; [|split; [|split; [|done]]].
  - apply rtc_once. exists Works. split; [done|]. by eapply rp_begins.
  - replace (Nat.max (length log) (S (length log))) with (length (log ++ [e])) by (rewrite length_app; simpl; lia).
    replace (S (length log)) with (length (log ++ [e])) by (rewrite length_app; simpl; lia). apply rtc_refl.
  - apply rtc_once. exists Works. split; [done|].
    apply (rp_writes _ _ (MkReplica fw1 (length log) (length log) true None false) e resp); done.
Qed.

Lemma solo_laws {P : Pebble} {G : Gzip} m : RaftLaws Solo m.
Proof.
  split; [intros data timeout [log fw] out p'|intros data timeout [log fw] i resp p'|intros p v p'];
    intros Hok H; simpl in H.
  - destruct (st_closed _) eqn:Hcl; [injection H as _ <-; by split|].
    destruct (Apply _ fw) as [[resp|e|p|] fw1] eqn:E; injection H as _ <-; [|by split..].
    split; [by eexists|]. destruct (solo_applies m log _ _ _ _ Hcl E) as (a & b & H1 & H2 & H3 & _).
    etrans; [exact H1|]. by etrans.
  - destruct (st_closed _) eqn:Hcl; [done|].
    destruct (Apply _ fw) as [[resp'|e|p|] fw1] eqn:E; try done. injection H as <- <- <-.
    destruct (solo_applies m log _ _ _ _ Hcl E) as (a & b & H1 & H2 & _ & Ea & Eb & Hw).
    exists a, b. split; [done|]. split; [done|]. rewrite Ea. split; [by apply list_lookup_middle|]. by split.
  - injection H as _ <-. by split.
Qed.

Definition demo_server : raftServer (P := Mem no_fault) :=
  MkServer "node1" "127.0.0.1:7000" "/raft" 0 ([] : raft_node Solo) demo_fsm.

Lemma demo_up : up demo_map demo_server.
Proof.
  apply replica_init_ok. split; [exists "a"; split; [exact demo_running|done]|].
  split; [exact demo_chan|]. repeat split; reflexivity.
Qed.

(** The outcome of the proposal, computed. *)
Lemma demo_proposal :
  (raft_Apply (proposal "x" "1") (proposal_timeout None) (rs_raft demo_server, rs_store demo_server)).1 =
    inl (8, MkResponse [] None).
Proof. vm_compute. reflexivity. Qed.

Lemma Apply_outcome_witness :
  ∃ s' p, kv_Apply None "x" "1" demo_server = (Ok 8, s') ∧ dbAppliedIndex s' = 8 ∧
    prefix_map demo_map (raft_log (rs_raft s')) (S p) !! cf_key (string_bytes "x") = Some (string_bytes "1").
Proof.
  destruct (Apply_outcome (G := Stored) (GzipLaws0 := stored_laws) demo_map (RaftLaws0 := solo_laws demo_map)
    None "x" "1" demo_server demo_up) as (s' & _ & _ & H).
  pose proof demo_proposal as E. destruct (raft_Apply _ _ _) as [out node]. cbn [fst] in E. subst out.
  destruct H as (H1 & H2 & p & _ & _ & H3). exists s', p. split; [exact H1|]. split; [exact H2|].
  rewrite H3. apply lookup_insert_eq.
Defined.

(** A consistent read that finds the flag up at its second tick; nothing is applied
    meanwhile. *)
Definition demo_obs : observation (P := Mem no_fault) (R := Solo) :=
  MkObs false rpcHoldTimeout [PTick false; PTick true] id id.

Lemma demo_obs_ok : obs_ok (G := Stored) demo_map demo_obs.
Proof. split; intros p; by split. Qed.

Lemma Query_outcome_witness :
  ∃ s', kv_Query (string_bytes "k") true demo_obs demo_server =
          (Ok (7, default [] (demo_map !! cf_key (string_bytes "k"))), s').
Proof.
  pose proof (Query_outcome (G := Stored) (GzipLaws0 := stored_laws) demo_map (RaftLaws0 := solo_laws demo_map)
    (string_bytes "k") true demo_obs demo_server demo_up demo_obs_ok) as H.
  destruct H as (_ & _ & n & X & fw & s' & _ & _ & Hb & Hst & Hq).
  rewrite (between_exact _ _ _ _ _ Hb (le_n _)) in Hq. injection Hst as Hr _. rewrite Hr in Hq.
  exact (ex_intro _ s' Hq).
Defined.

(** A write and a read after it. *)
Definition demo_written : raftServer (P := Mem no_fault) := (kv_Apply None "x" "1" demo_server).2.

Lemma demo_written_ok : kv_Apply None "x" "1" demo_server = (Ok 8, demo_written).
Proof.
  unfold demo_written. assert ((kv_Apply None "x" "1" demo_server).1 = Ok 8) as H
    by (vm_compute; reflexivity).
  destruct (kv_Apply None "x" "1" demo_server). simpl in H. by subst.
Qed.

Lemma demo_read_ok :
  kv_Query (string_bytes "x") true demo_obs demo_written =
    (Ok (8, string_bytes "1"), (kv_Query (string_bytes "x") true demo_obs demo_written).2).
Proof.
  assert ((kv_Query (string_bytes "x") true demo_obs demo_written).1 = Ok (8, string_bytes "1")) as H
    by (vm_compute; reflexivity).
  destruct (kv_Query (string_bytes "x") true demo_obs demo_written). simpl in H. by subst.
Qed.
