(* ===== verification/Cluster.v ===== *)
(** * Cluster.v: what a linearizable read sees, in a cluster.

    One node (its leadership, Leader.v, and its state machine, Fsm.v) in a
    cluster that shares a log. Raft is the environment: [cstep] says what it may
    do (elect, commit, acknowledge, and everything of Replica.v: apply, persist and
    install snapshots, stop, crash and start the node again), the guarantees of its
    documentation being the side conditions. A client makes a linearizable read at the node, which takes
    the three steps of [Query] (engine/kv.go) and [ConsistentRead]
    (engine/linearizable.go): [VerifyLeader], the look at the flag, and the read of
    the local store. *)
From S2P Require Import Prelude Binary Paths Pebble FileSystem DataDir Snapshot Json Store Fsm History Replica Replicas Leader Kv.

(** Nothing that raft reported to the node waits to be handled, and the node is
    not shutting down. *)
Definition caught_up (s : lstate) : Prop :=
  shutdownCh s = false ∧ mon s = MSelect ∧ raftNotifyCh s = [].

#[global] Instance caught_up_dec s : Decision (caught_up s) := _.

Section cluster.
Context {P : Pebble} {G : Gzip}.

(** Where a read is: [known] is how much of the log had been acknowledged, or seen
    by an earlier linearizable read of this node, when it was asked for. A read
    that is done has its answer and [upto], how much of the log the node's database
    had seen. [fresh] tells whether the node had caught up when the flag was seen
    up. *)
Inductive read_state :=
| RIdle
| RAsked (known : nat)
| RVerified (known : nat)
| RPassed (known : nat) (fresh : bool)
| RDone (known : nat) (fresh : bool) (upto : nat) (answer : CommandResponse).

Record cluster := MkCluster {
  c_node : lstate;            (** the node's leadership *)
  c_rep : replica;            (** its state machine, and how much of the log it has applied and seen *)
  c_log : list raft_Log;      (** the committed entries of the cluster *)
  c_known : nat;              (** how much of it was acknowledged, or seen by linearizable reads of this node *)
  c_start : nat;              (** how much was committed when the node was last elected *)
  c_deposed : bool;           (** another leader has been elected since *)
  c_read : read_state;
}.

Definition with_node (s : lstate) (c : cluster) : cluster :=
  MkCluster s (c_rep c) (c_log c) (c_known c) (c_start c) (c_deposed c) (c_read c).
Definition with_read (r : read_state) (c : cluster) : cluster :=
  MkCluster (c_node c) (c_rep c) (c_log c) (c_known c) (c_start c) (c_deposed c) r.
Definition with_known (k : nat) (c : cluster) : cluster :=
  MkCluster (c_node c) (c_rep c) (c_log c) (Nat.max (c_known c) k) (c_start c) (c_deposed c) (c_read c).
Definition with_rep (r : replica) (c : cluster) : cluster :=
  MkCluster (c_node c) r (c_log c) (c_known c) (c_start c) (c_deposed c) (c_read c).
Definition commit (e : raft_Log) (c : cluster) : cluster :=
  MkCluster (c_node c) (c_rep c) (c_log c ++ [e]) (c_known c) (c_start c) (c_deposed c) (c_read c).

(** The node leads and no one else has been elected since. *)
Definition leads (c : cluster) : Prop := raft_leader (c_node c) = true ∧ c_deposed c = false.

(** The snapshots that may be installed: those that nodes persist (Replica.v,
    [persists_stream]). *)
Abbreviation available m c := (snapshot_stream m (c_log c)).

Inductive cstep (m : gmap bytes bytes) (key : bytes) : cluster → cluster → Prop :=
(** the node's goroutines, and raft's notifications *)
| c_local c s :
    step (c_node c) s → raft_leader s = raft_leader (c_node c) → barrier_term s = barrier_term (c_node c) →
    cstep m key c (with_node s c)
| c_barrier c s :
    (** the barrier of a leader completes when its state machine has applied
        everything that was committed before *)
    step (c_node c) s → raft_leader s = raft_leader (c_node c) → barrier_term s ≠ barrier_term (c_node c) →
    (c_start c ≤ rp_applied (c_rep c))%nat →
    cstep m key c (with_node s c)
| c_gain c s :
    (** a node that is elected has every committed entry in its log *)
    step (c_node c) s → raft_leader (c_node c) = false → raft_leader s = true →
    cstep m key c (MkCluster s (c_rep c) (c_log c) (c_known c) (length (c_log c)) false (c_read c))
| c_lose c s :
    step (c_node c) s → raft_leader (c_node c) = true → raft_leader s = false →
    cstep m key c (with_node s c)
(** the cluster *)
| c_depose c :
    cstep m key c (MkCluster (c_node c) (c_rep c) (c_log c) (c_known c) (c_start c) true (c_read c))
| c_commit c e : cstep m key c (commit e c)
| c_acknowledge_elsewhere c k :
    (** another node acknowledges a write, which it can only do as the leader:
        while this node leads, the entry was committed before the election *)
    ¬ leads c ∨ (k ≤ c_start c)%nat → (k ≤ length (c_log c))%nat → cstep m key c (with_known k c)
| c_acknowledge c :
    (** this node does: what it acknowledges has been applied by its state machine *)
    cstep m key c (with_known (rp_applied (c_rep c)) c)
(** the state machine *)
| c_works c what r :
    (** it applies entries, is read, takes and persists snapshots, fails to restore *)
    replica_step (c_log c) (available m c) what (c_rep c) r → what ≠ Installs → what ≠ Restarts →
    cstep m key c (with_rep r c)
| c_install c r :
    (** a leader does not install *)
    raft_leader (c_node c) = false → replica_step (c_log c) (available m c) Installs (c_rep c) r →
    cstep m key c (with_rep r c)
| c_restart c r :
    (** the node stops or crashes, and is started again; if it has a snapshot,
        [c_install] follows, otherwise raft applies the log from its beginning *)
    replica_step (c_log c) (available m c) Restarts (c_rep c) r →
    cstep m key c (MkCluster init r (c_log c) (c_known c) 0 (c_deposed c) RIdle)
(** the read *)
| c_ask c :
    c_read c = RIdle → cstep m key c (with_read (RAsked (c_known c)) c)
| c_verify c k :
    (** [VerifyLeader] succeeds: no one else had been elected when it was asked *)
    c_read c = RAsked k → leads c → cstep m key c (with_read (RVerified k) c)
| c_ready c k :
    c_read c = RVerified k → isReadyForConsistentReads (c_node c) = true →
    cstep m key c (with_read (RPassed k (bool_decide (caught_up (c_node c)))) c)
| c_answer c k fresh r fw :
    c_read c = RPassed k fresh → ReadLocal key (rp_fw (c_rep c)) = (Ok r, fw) →
    cstep m key c (with_read (RDone k fresh (rp_kept (c_rep c)) r) (with_rep (with_rfw fw (c_rep c)) c))
| c_learn c k fresh upto r :
    (** the client knows what it has read, and may read again *)
    c_read c = RDone k fresh upto r → cstep m key c (with_read RIdle (with_known upto c)).

(** The node starts as the replica [r], with no entry committed. *)
Definition cluster_init (r : replica) : cluster := MkCluster init r [] 0 0 false RIdle.

Definition cluster_reachable (m : gmap bytes bytes) (key : bytes) (r : replica) (c : cluster) : Prop :=
  rtc (cstep m key) (cluster_init r) c.

(** ** The invariant *)

(** What a client knows has been applied, or was committed before the election. *)
Definition covered (c : cluster) (k : nat) : Prop := (k ≤ c_start c)%nat ∨ (k ≤ rp_applied (c_rep c))%nat.

Definition read_ok (m : gmap bytes bytes) (key : bytes) (c : cluster) : Prop :=
  match c_read c with
  | RIdle => True
  | RAsked k => (k ≤ c_known c)%nat
  | RVerified k => covered c k
  | RPassed k fresh => fresh = true → (k ≤ rp_applied (c_rep c))%nat
  | RDone k fresh upto r =>
      (upto ≤ length (c_log c))%nat ∧ (leads c → covered c upto) ∧
      ∃ j, (fresh = true → (k ≤ j)%nat) ∧ (j ≤ upto)%nat ∧ r = MkResponse (value_at m key (c_log c) j) None
  end.
End cluster.

Section cluster_theorems.
Context `{PL : PebbleLaws, !PebbleReliable _, GL : GzipLaws}.

Record cinv (m : gmap bytes bytes) (key : bytes) (c : cluster) : Prop := {
  ci_node : inv (c_node c);
  ci_rep : replica_ok m (c_log c) (c_rep c);
  ci_start : (c_start c ≤ length (c_log c))%nat;
  ci_known : (c_known c ≤ length (c_log c))%nat;
  ci_leads : leads c → covered c (c_known c);
  ci_leader : raft_leader (c_node c) = true → covered c (rp_kept (c_rep c));
  ci_barrier : barrier_term (c_node c) = raft_term (c_node c) → (c_start c ≤ rp_applied (c_rep c))%nat;
  ci_read : read_ok m key c;
}.

Lemma cinv_init m key r : replica_init m r → cinv m key (cluster_init r).
Proof.
  intros Hr. pose proof (replica_init_ok m [] r Hr). split; simpl; try done; try lia; [apply init_inv|by intros []].
Qed.

(** *** Every step keeps the invariant *)

(** Steps of the node's goroutines keep what does not mention them. *)
Lemma cinv_node m key c s :
  cinv m key c → inv s →
  (raft_leader s = true → raft_leader (c_node c) = true) →
  (barrier_term s = raft_term s → (c_start c ≤ rp_applied (c_rep c))%nat) →
  cinv m key (with_node s c).
Proof.
  intros [] Hs Hl Hb. split; simpl; try done.
  - intros [H1 H2]. apply ci_leads0. split; [by apply Hl|done].
  - intros H. by apply ci_leader0, Hl.
  - unfold read_ok in *. simpl. destruct (c_read c); try done.
    destruct ci_read0 as (? & Hc & ?). split; [done|]. split; [|done].
    intros [H1 H2]. apply Hc. split; [by apply Hl|done].
Qed.

(** Steps of the state machine that leave applied what is applied. *)
Lemma cinv_rep m key c r :
  cinv m key c → replica_ok m (c_log c) r → (rp_applied (c_rep c) ≤ rp_applied r)%nat →
  (raft_leader (c_node c) = true → (rp_kept r ≤ Nat.max (rp_kept (c_rep c)) (rp_applied r))%nat) →
  cinv m key (with_rep r c).
Proof.
  intros [] Hr Ha Hl. split; simpl; try done.
  - intros Hld. specialize (ci_leads0 Hld). unfold covered in *. simpl. lia.
  - intros Hld. specialize (ci_leader0 Hld). specialize (Hl Hld). unfold covered in *. simpl. lia.
  - intros Hbt. specialize (ci_barrier0 Hbt). lia.
  - unfold read_ok, covered in *. simpl. destruct (c_read c) as [| | |k1 f|k1 f u a]; try done; try lia.
    + intros Hf. specialize (ci_read0 Hf). lia.
    + destruct ci_read0 as (? & Hc & ?). split; [done|]. split; [|done]. intros Hld. specialize (Hc Hld). lia.
Qed.

Lemma cinv_known m key c k :
  cinv m key c → (k ≤ length (c_log c))%nat → (leads c → covered c k) → cinv m key (with_known k c).
Proof.
  intros [] Hk Hc. split; simpl; try done; [lia| |].
  - intros Hld. specialize (ci_leads0 Hld). specialize (Hc Hld). unfold covered in *. simpl. lia.
  - unfold read_ok in *. simpl. destruct (c_read c); try done. lia.
Qed.

Lemma cinv_read m key c r : cinv m key c → read_ok m key (with_read r c) → cinv m key (with_read r c).
Proof. intros [] H. by split. Qed.

Lemma cinv_step m key c c' : cinv m key c → cstep m key c c' → cinv m key c'.
Proof.
  intros Hc H. pose proof Hc as [Hn Hr Hs Hk Hl Hle Hb Hrd]. pose proof (ro_kept _ _ _ Hr) as Hkl.
  pose proof (holds_le _ _ _ _ _ _ (ro_holds _ _ _ Hr)) as Hak. destruct H as
    [c s Hst Hlead Hba|c s Hst Hlead Hba Hsa|c s Hst H0 H1|c s Hst H0 H1|c|c e|c k Hnl Hkn|c
    |c what r Hst Hni Hnr|c r Hnl Hst|c r Hst
    |c Hi|c k Hi Hld|c k Hi Hrdy|c k fresh r fw Hi Hrl|c k fresh upto r Hi].
  - destruct (step_terms _ _ Hst) as (Ht & _). specialize (Ht Hlead).
    apply cinv_node; [done|by eapply step_inv|by rewrite Hlead|]. rewrite Ht, Hba. done.
  - apply cinv_node; [done|by eapply step_inv|by rewrite Hlead|done].
  - destruct (step_terms _ _ Hst) as (_ & Ht & _). destruct (Ht H0 H1) as [Ht1 Ht2].
    destruct (inv_barrier _ Hn) as [Hbt _].
    split; simpl; try done; [by eapply step_inv|by left|by left|rewrite Ht1, Ht2; lia|].
    unfold read_ok, covered in *. simpl. destruct (c_read c) as [| | | |k1 f u r]; try done; [lia|].
    destruct Hrd as (Hu & _ & Hj). split; [done|]. split; [by left|done].
  - destruct (step_terms _ _ Hst) as (_ & _ & Ht & _). destruct (Ht H0 H1) as [Ht1 Ht2].
    apply cinv_node; [done|by eapply step_inv|congruence|by rewrite Ht1, Ht2].
  - split; simpl; try done; [by intros [_ ?]|].
    unfold read_ok in *. simpl. destruct (c_read c); try done.
    destruct Hrd as (? & _ & ?). split; [done|]. split; [by intros [_ ?]|done].
  - split; simpl; rewrite ?length_app; simpl; try done; try lia; [by apply replica_ok_app|].
    unfold read_ok in *. simpl. destruct (c_read c); try done.
    destruct Hrd as (? & ? & j & ? & ? & ->). rewrite length_app. split; [lia|]. split; [done|].
    exists j. do 2 (split; [done|]). unfold value_at. by rewrite prefix_map_app by lia.
  - apply cinv_known; [done..|]. intros Hld. destruct Hnl as [?|?]; [done|by left].
  - apply cinv_known; [done|lia|by right].
  - pose proof (replica_step_counts _ _ _ _ _ Hst) as Hcn.
    apply cinv_rep; [done|by eapply replica_step_ok|destruct what; (done || lia)..].
  - apply cinv_rep; [done|by eapply replica_step_ok| |congruence].
    exact (replica_step_counts _ _ _ _ _ Hst).
  - pose proof (replica_step_ok m _ _ _ _ _ (λ _ _ _ H, H) Hr Hst).
    split; simpl; try done; try lia; [apply init_inv|by intros []].
  - apply cinv_read; [done|]. unfold read_ok. simpl. done.
  - apply cinv_read; [done|]. unfold read_ok in *. simpl. rewrite Hi in Hrd. specialize (Hl Hld).
    unfold covered in *. simpl. lia.
  - apply cinv_read; [done|]. unfold read_ok in *. simpl. rewrite Hi in Hrd.
    intros (Hd & Hm & Hq)%bool_decide_eq_true. apply bool_decide_eq_true in Hrdy.
    destruct (ready_caught_up _ Hn Hd Hm Hq Hrdy) as [_ Hbt]. specialize (Hb Hbt).
    unfold covered in *. lia.
  - destruct (holds_read _ _ _ _ _ _ _ _ _ (ro_holds _ _ _ Hr) Hrl) as (Hh & j & Hj & ->).
    apply cinv_read.
    { apply cinv_rep; simpl; [done| |done|lia]. destruct Hr. by split. }
    unfold read_ok in *. simpl. rewrite Hi in Hrd.
    split; [done|]. split; [intros [Hld _]; by apply Hle|].
    exists j. split; [|split; [lia|done]]. intros Hf. specialize (Hrd Hf). lia.
  - unfold read_ok in Hrd. rewrite Hi in Hrd. destruct Hrd as (Hu & Hcv & _).
    apply cinv_read; [by apply cinv_known|done].
Qed.

Lemma cinv_reachable m key r c : replica_init m r → cluster_reachable m key r c → cinv m key c.
Proof.
  intros Hr H. apply (cinv_init m key) in Hr. unfold cluster_reachable in H.
  remember (cluster_init r) as c0 eqn:E. clear E.
  induction H as [|x y z Hxy _ IH]; [done|]. apply IH. by eapply cinv_step.
Qed.

(** C1: Linearizable reads. However raft elects, commits, applies, acknowledges,
    takes and installs snapshots, and whenever the node stops, crashes (also in the
    middle of a restore) and starts again: when a linearizable read is answered,
    and the node had handled all of raft's notifications at the moment its flag was
    seen up, then the answer is the value of the key in the map that some prefix of
    the committed log makes of the initial one, and that prefix contains every
    entry whose write had been acknowledged by any node, and everything that an
    earlier linearizable read of this node could see, before the read was asked
    for. (What reads of other nodes have seen is not in it: they may be ahead.) *)
Theorem consistent_reads_are_linearizable m key r0 c k upto r :
  replica_init m r0 → cluster_reachable m key r0 c → c_read c = RDone k true upto r →
  ∃ j, (k ≤ j ≤ length (c_log c))%nat ∧ r = MkResponse (value_at m key (c_log c) j) None.
Proof.
  intros Hr Hc Hd. destruct (cinv_reachable m key r0 c Hr Hc) as [_ _ _ _ _ _ _ Hrd].
  unfold read_ok in Hrd. rewrite Hd in Hrd. destruct Hrd as (Hu & _ & j & H1 & H2 & ->).
  specialize (H1 eq_refl). exists j. split; [lia|done].
Qed.

(** [k] of a read is what was known when it was asked for. *)
Lemma ask_knows m key c c' :
  cstep m key c c' → c_read c = RIdle → c_read c' ≠ RIdle → c_read c' = RAsked (c_known c).
Proof. intros H Hi Hn. destruct H; simpl in *; congruence. Qed.

(** A node that starts, and has applied everything, can be elected and establish
    its leadership. *)
Lemma elects m key r log kn st dep rd :
  (length log ≤ rp_applied r)%nat →
  rtc (cstep m key) (MkCluster init r log kn st dep rd)
    (MkCluster established r log kn (length log) false rd).
Proof.
  intros Ha.
  set (s1 := MkL true 1 [true] MSelect false false None 0 false false 0).
  set (s2 := MkL true 1 [] MSelect true false (Some LReconcile) 0 false true 0).
  set (s3 := MkL true 1 [] MSelect true false (Some LEstablish) 0 false true 1).
  set (s4 := MkL true 1 [] MSelect true false (Some LSetReady) 0 false true 1).
  eapply rtc_l; [eapply (c_gain _ _ _ s1); [apply raft_gains; [done|unfold raftNotifyCh_cap; simpl; lia]|done..]|].
  eapply rtc_l; [by eapply (c_local _ _ _ s2); [by eapply mon_gain|..]|].
  eapply rtc_l; [by eapply (c_barrier _ _ _ s3); [by apply loop_barrier_ok|..]|].
  eapply rtc_l; [by eapply (c_local _ _ _ s4); [by apply loop_context_live|..]|].
  eapply rtc_l; [by eapply (c_local _ _ _ established); [by apply loop_set_ready|..]|].
  apply rtc_refl.
Qed.

(** ** A stale flag *)

(** C37: A linearizable read can miss an acknowledged write. The node is
    established as the leader, loses the leadership, and regains it after another
    leader has acknowledged the first write of a key. While the monitor has not
    handled the two notifications, the flag of the first leadership is still up:
    a linearizable read asked for now passes [VerifyLeader] and the flag before
    the state machine has applied the write, and answers the old value. *)
Theorem stale_flag_breaks_linearizability n m key val r :
  running n m (rp_fw r) → rp_applied r = 0%nat → rp_kept r = 0%nat →
  let old := default [] (m !! cf_key (string_bytes key)) in
  ∃ c e,
    cluster_reachable m (string_bytes key) r c ∧ shutdownCh (c_node c) = false ∧
    c_log c = [e] ∧ Data e = proposal key val ∧
    c_read c = RDone 1 false 0 (MkResponse old None) ∧
    value_at m (string_bytes key) (c_log c) 1 = string_bytes val.
Proof.
  intros Hr Ha Hk old. destruct (ReadLocal_ok (string_bytes key) n m _ Hr) as (fw' & Hrl & _).
  set (e := MkLog 1 (proposal key val)).
  set (s6 := MkL false 1 [false] MSelect true false (Some LParked) 1 false true 1).
  set (s7 := MkL true 2 [false; true] MSelect true false (Some LParked) 1 false true 1).
  exists (MkCluster s7 (with_rfw fw' r) [e] 1 1 false (RDone 1 false 0 (MkResponse old None))), e.
  split; [|split_and!; try done; unfold value_at, prefix_map; cbn [c_log take spec_run Data e];
           rewrite spec_proposal; cbn [snd]; by rewrite lookup_insert_eq].
  unfold cluster_reachable, cluster_init.
  etrans; [apply elects; simpl; lia|].
  eapply rtc_l; [by eapply (c_lose _ _ _ s6); [by apply raft_loses|..]|].
  eapply rtc_l; [apply (c_commit _ _ _ e)|].
  eapply rtc_l; [apply (c_acknowledge_elsewhere _ _ _ 1); [left; by intros []|simpl; lia]|].
  eapply rtc_l; [eapply (c_gain _ _ _ s7); [apply raft_gains; [done|unfold raftNotifyCh_cap; simpl; lia]|done..]|].
  eapply rtc_l; [by apply c_ask|]. eapply rtc_l; [apply c_verify; [reflexivity|split; reflexivity]|].
  eapply rtc_l; [by apply c_ready|]. eapply rtc_l; [by eapply c_answer|]. simpl. rewrite Hk. apply rtc_refl.
Qed.
End cluster_theorems.

(** ** Witnesses *)

Definition demo_log : raft_Log := MkLog 8 (proposal "x" "1").

(** The established leader commits, applies and acknowledges a write, stops, is
    started again, applies the write again and is elected again; a read that is
    asked for then is answered. *)
Lemma demo_read_reachable :
  ∃ rep r, cluster_reachable (G := Stored) demo_map (string_bytes "x") fresh_replica
    (MkCluster established rep [demo_log] 1 1 false (RDone 1 true 1 r)).
Proof.
  destruct (apply_in_steps demo_log "a" demo_map fresh_fsm fresh_running)
    as (fw1 & fw2 & Hb1 & Hw1 & Hr2 & Hst & Ho).
  set (w := MkWorld (w_disk (sw_world (fw_sw fw2))) ∅ [] [8] [1700000001] []).
  assert (baseDir (sw_store (fw_sw fw2)) = "/d") as Hdir by by rewrite Hst.
  assert (base_ok "/d" w) as Hbo.
  { destruct Ho as (Hfs & _). destruct demo_base_ok as [B1 B2 B3].
    split; [|done|]; cbn [w w_disk]; rewrite Hfs; [exact B1|exact B3]. }
  destruct (running_recoverable "a" _ fw2 _ Hr2 (or_introl eq_refl)) as (Hn & Hc & Hu & Hrec).
  rewrite Hdir in Hrec.
  destruct (NewStateMachine_reopen "127.0.0.1:7000" "node1" "/d" "a" _ w eq_refl Hbo Hn Hc Hu Hrec)
    as (fw3 & w3 & H3 & Hr3 & _).
  destruct (apply_in_steps demo_log "a" _ fw3 Hr3) as (fw4 & fw5 & Hb4 & Hw4 & Hr5 & _).
  destruct (ReadLocal_ok (string_bytes "x") "a" _ _ Hr5) as (fw6 & Hrl & _).
  rewrite <-Hdir in Hbo, H3. eexists (MkReplica fw6 1 1 false None true), _.
  unfold cluster_reachable, cluster_init. etrans; [apply elects; simpl; lia|].
  eapply rtc_l; [apply (c_commit _ _ _ demo_log)|].
  eapply rtc_l; [eapply (c_works _ _ _ Works); [eapply rp_begins; [reflexivity|reflexivity|exact Hb1]|done..]|].
  eapply rtc_l; [eapply (c_works _ _ _ Works); [eapply rp_writes; [reflexivity|reflexivity|exact Hw1]|done..]|].
  eapply rtc_l; [apply c_acknowledge|].
  eapply rtc_l; [eapply c_restart, (rp_restarts _ _ _ 1 true _ _ w); [apply leaves_stops|reflexivity|exact Hbo|exact H3]|].
  eapply rtc_l; [eapply (c_works _ _ _ Works); [eapply rp_begins; [reflexivity|reflexivity|exact Hb4]|done..]|].
  eapply rtc_l; [eapply (c_works _ _ _ Works); [eapply rp_writes; [reflexivity|reflexivity|exact Hw4]|done..]|].
  etrans; [by apply elects|].
  eapply rtc_l; [by apply c_ask|]. eapply rtc_l; [apply c_verify; [reflexivity|split; reflexivity]|].
  eapply rtc_l; [by apply c_ready|]. eapply rtc_l; [by eapply c_answer|]. apply rtc_refl.
Qed.

Lemma consistent_reads_are_linearizable_witness :
  ∃ rep r j, cluster_reachable (G := Stored) demo_map (string_bytes "x") fresh_replica
            (MkCluster established rep [demo_log] 1 1 false (RDone 1 true 1 r)) ∧
          (1 ≤ j ≤ 1)%nat ∧ r = MkResponse (value_at demo_map (string_bytes "x") [demo_log] j) None.
Proof.
  destruct demo_read_reachable as (rep & r & H). exists rep, r.
  destruct (consistent_reads_are_linearizable (GL := stored_laws) demo_map _ fresh_replica _ 1 1 r fresh_init
    H eq_refl) as (j & Hj & Hr).
  exact (ex_intro _ j (conj H (conj Hj Hr))).
Defined.

Lemma stale_flag_breaks_linearizability_witness :
  ∃ c e, cluster_reachable (G := Stored) demo_map (string_bytes "x") fresh_replica c ∧
    c_log c = [e] ∧ Data e = proposal "x" "1" ∧
    c_read c = RDone 1 false 0 (MkResponse (default [] (demo_map !! cf_key (string_bytes "x"))) None).
Proof.
  destruct (stale_flag_breaks_linearizability (G := Stored) "a" demo_map "x" "1" fresh_replica fresh_running
    eq_refl eq_refl) as (c & e & H1 & _ & H2 & H3 & H4 & _).
  exists c, e. split; [exact H1|]. split; [exact H2|]. split; [exact H3|exact H4].
Defined.
