(* ===== verification/Watch.v ===== *)
(** * Watch.v: service/blocking_query.go and the Watch handlers of service.go.

    A watcher blocks until raft's applied index has reached the index it asks
    for, a restore has abandoned the state, or its time is over; the streaming
    handlers do so in a loop. The watcher runs beside raft and the state machine:
    [watch_step] interleaves its steps with theirs. A query is two steps, since
    [Query] reads the store first and raft's applied index after it. *)
From S2P Require Import Prelude Binary Paths Pebble FileSystem DataDir Snapshot Json Store Fsm History Kv.

Record BlockingQueryResult := MkResult {
  r_Value : bytes; CurrentIndex : Z; Abandoned : bool }.

#[global] Instance BlockingQueryResult_eq_dec : EqDecision BlockingQueryResult.
Proof. solve_decision. Defined.

(** ** Timeouts (nanoseconds) *)

Definition BlockingQueryTimeout : Z := 300 * 1000000000.

(** [BlockingQuery]: 0 means the default. *)
Definition effective_timeout (timeout : Z) : Z :=
  if decide (timeout = 0) then BlockingQueryTimeout else timeout.

(** [Watch]: the seconds of the request as a duration, which wraps around. *)
Definition watch_timeout (timeoutSeconds : Z) : Z :=
  let timeout := int64 (timeoutSeconds * 1000000000) in
  if decide (timeout ≤ 0) then BlockingQueryTimeout else timeout.

(** C33: The time a watch waits at most. It is always positive; it is the number
    of seconds of the request when that number is positive and its nanoseconds
    fit 63 bits, and five minutes when it is 0 or negative within the same
    bounds. Outside of them the multiplication wraps around: a request for
    9223372037 seconds waits five minutes, and one for minus that many seconds
    waits almost 292 years. *)
Theorem watch_timeout_bounds s :
  0 < effective_timeout (watch_timeout s) < 2 ^ 63 ∧
  (0 < s ≤ 9223372036 → effective_timeout (watch_timeout s) = s * 1000000000) ∧
  (-9223372036 ≤ s ≤ 0 → effective_timeout (watch_timeout s) = BlockingQueryTimeout) ∧
  watch_timeout 9223372037 = BlockingQueryTimeout ∧
  watch_timeout (-9223372037) = 9223372036709551616.
Proof.
  assert (effective_timeout (watch_timeout s) = watch_timeout s) as ->.
  { unfold effective_timeout, watch_timeout, BlockingQueryTimeout. repeat case_decide; lia. }
  pose proof (int64_range (s * 1000000000)). unfold watch_timeout, BlockingQueryTimeout.
  split_and!; [case_decide; lia..| | |reflexivity|reflexivity].
  - intros. rewrite int64_small by lia. rewrite decide_False; lia.
  - intros. rewrite int64_small by lia. rewrite decide_True; lia.
Qed.

(** ** The node around the watcher *)

Section watch.
Context {P : Pebble} {G : Gzip}.

Record env := MkEnv {
  e_fw : fworld;             (** the state machine and its store *)
  e_applied : Z;             (** [raft.AppliedIndex()] *)
  e_queue : list raft_Log;   (** handed to the state machine, not applied yet *)
  e_snapshot : option Z;     (** the index of a snapshot that was just restored *)
  e_ctx : bool;              (** the caller's context is done *)
  e_restores : nat;          (** how many restores there were *)
}.

(** Raft counts an entry as applied when it hands it to the state machine's
    goroutine; that goroutine applies it later. The index of a restored snapshot
    is recorded after the restore. *)
Definition set_fw (fw : fworld) (e : env) : env :=
  MkEnv fw (e_applied e) (e_queue e) (e_snapshot e) (e_ctx e) (e_restores e).

Inductive env_step : env → env → Prop :=
| env_send e log :
    env_step e (MkEnv (e_fw e) (Index log) (e_queue e ++ [log]) (e_snapshot e) (e_ctx e) (e_restores e))
| env_consume e log rest resp fw' :
    e_queue e = log :: rest → Apply log (e_fw e) = (Ok resp, fw') →
    env_step e (MkEnv fw' (e_applied e) rest (e_snapshot e) (e_ctx e) (e_restores e))
| env_restore e rd start now i fw' :
    e_queue e = [] → Restore rd start now (e_fw e) = (Ok tt, fw') →
    env_step e (MkEnv fw' (e_applied e) [] (Some i) (e_ctx e) (S (e_restores e)))
| env_restore_failed e rd start now err fw' :
    e_queue e = [] → Restore rd start now (e_fw e) = (Err err, fw') →
    env_step e (MkEnv fw' (e_applied e) [] (e_snapshot e) (e_ctx e) (e_restores e))
| env_installed e i :
    e_snapshot e = Some i →
    env_step e (MkEnv (e_fw e) i (e_queue e) None (e_ctx e) (e_restores e))
| env_close e fw' :
    Close (e_fw e) = (Ok tt, fw') →
    env_step e (MkEnv fw' (e_applied e) (e_queue e) (e_snapshot e) (e_ctx e) (e_restores e))
| env_cancel e :
    env_step e (MkEnv (e_fw e) (e_applied e) (e_queue e) (e_snapshot e) true (e_restores e))
| env_read e key resp fw' :
    (** somebody else reads *)
    ReadLocal key (e_fw e) = (Ok resp, fw') → env_step e (set_fw fw' e).

(** [AbandonCh()] *)
Definition AbandonCh (e : env) : nat := abandonCh (fw_sm (e_fw e)).
Definition closed_chans (e : env) : gset nat := ch_closed (fw_ch (e_fw e)).

(** ** BlockingQuery *)

(** Why a result was returned. *)
Inductive reason := Fresh | TimedOut | Restored.

Inductive bq_pc :=
| BQuery (first : bool)                  (** calling [queryFn]: before the store is read *)
| BIndex (first : bool) (v : bytes)      (** the store was read: before the applied index is *)
| BWait                                  (** at the head of the loop *)
| BSelect (ch : nat)                     (** in the select, which has evaluated [AbandonCh()] *)
| BReturn (why : reason) (r : BlockingQueryResult)
| BError (err : error).

Record bq := MkBq { bq_at : bq_pc; bq_value : bytes; bq_index : Z; bq_expired : bool }.

Definition BlockingQuery_start : bq := MkBq (BQuery true) [] 0 false.

Definition goto_bq (pc : bq_pc) (b : bq) : bq := MkBq pc (bq_value b) (bq_index b) (bq_expired b).

(** What happens with an answer of [queryFn]. *)
Definition bq_answer (minIndex : Z) (first : bool) (v : bytes) (i : Z) (b : bq) : bq :=
  MkBq (if decide ((first = true ∧ minIndex = 0) ∨ minIndex ≤ i)
        then BReturn Fresh (MkResult v i false) else BWait) v i (bq_expired b).

Inductive bq_step (key : bytes) (minIndex : Z) : env * bq → env * bq → Prop :=
| bq_read e b first resp fw' :
    bq_at b = BQuery first → ReadLocal key (e_fw e) = (Ok resp, fw') → RespError resp = None →
    bq_step key minIndex (e, b) (set_fw fw' e, goto_bq (BIndex first (Val resp)) b)
| bq_read_failed e b first resp err fw' :
    bq_at b = BQuery first → ReadLocal key (e_fw e) = (Ok resp, fw') → RespError resp = Some err →
    bq_step key minIndex (e, b) (set_fw fw' e, goto_bq (BError err) b)
| bq_read_index e b first v :
    bq_at b = BIndex first v →
    bq_step key minIndex (e, b) (e, bq_answer minIndex first v (e_applied e) b)
| bq_enter e b :
    bq_at b = BWait → bq_step key minIndex (e, b) (e, goto_bq (BSelect (AbandonCh e)) b)
| bq_timeout e b ch :
    bq_at b = BSelect ch → bq_expired b = true ∨ e_ctx e = true →
    bq_step key minIndex (e, b)
      (e, goto_bq (BReturn TimedOut (MkResult (bq_value b) (bq_index b) false)) b)
| bq_abandoned e b ch :
    bq_at b = BSelect ch → ch ∈ closed_chans e →
    bq_step key minIndex (e, b) (e, goto_bq (BReturn Restored (MkResult [] 0 true)) b)
| bq_tick e b ch :
    bq_at b = BSelect ch → bq_step key minIndex (e, b) (e, goto_bq (BQuery false) b)
| bq_expire e b :
    bq_step key minIndex (e, b) (e, MkBq (bq_at b) (bq_value b) (bq_index b) true).

(** *** WatchKeyBlocking

    One call of [BlockingQuery], while the node goes on. *)
Definition WatchKeyBlocking_timeout : Z := 30 * 1000000000.
Definition WatchKeyBlocking_start : bq := BlockingQuery_start.

Inductive call_step (key : bytes) (minIndex : Z) : env * bq → env * bq → Prop :=
| call_env e e' b : env_step e e' → call_step key minIndex (e, b) (e', b)
| call_in s s' : bq_step key minIndex s s' → call_step key minIndex s s'.

(** ** Watch and WatchKey *)

Inductive w_pc :=
| WTop                                          (** at the head of the loop *)
| WIn (b : bq)                                  (** in [BlockingQuery] *)
| WDeliver (why : reason) (r : BlockingQueryResult)  (** in [stream.Send] or the callback *)
| WReturned (err : error).

Record watcher := MkWatcher {
  w_at : w_pc; w_min : Z; w_sent : list (reason * BlockingQueryResult) }.

(** The index that is asked for after a result. *)
Definition next_min (reset : Z) (r : BlockingQueryResult) : Z :=
  if Abandoned r then reset else uint 64 (CurrentIndex r + 1).

Definition at_w (pc : w_pc) (w : watcher) : watcher := MkWatcher pc (w_min w) (w_sent w).

(** The loop of a watcher that asks for [reset] after a restore. *)
Inductive watch_step (reset : Z) (key : bytes) : env * watcher → env * watcher → Prop :=
| w_env e e' w : env_step e e' → watch_step reset key (e, w) (e', w)
| w_cancelled e w err :
    w_at w = WTop → e_ctx e = true → watch_step reset key (e, w) (e, at_w (WReturned err) w)
| w_call e w :
    w_at w = WTop → e_ctx e = false →
    watch_step reset key (e, w) (e, at_w (WIn BlockingQuery_start) w)
| w_in e w b e' b' :
    w_at w = WIn b → bq_step key (w_min w) (e, b) (e', b') →
    watch_step reset key (e, w) (e', at_w (WIn b') w)
| w_error e w b err :
    w_at w = WIn b → bq_at b = BError err →
    watch_step reset key (e, w) (e, at_w (WReturned err) w)
| w_result e w b why r :
    w_at w = WIn b → bq_at b = BReturn why r →
    watch_step reset key (e, w) (e, at_w (WDeliver why r) w)
| w_deliver e w why r :
    w_at w = WDeliver why r →
    watch_step reset key (e, w) (e, MkWatcher WTop (next_min reset r) (w_sent w ++ [(why, r)]))
| w_deliver_failed e w why r err :
    w_at w = WDeliver why r → watch_step reset key (e, w) (e, at_w (WReturned err) w).

(** [Watch] starts at the index of the request and asks for 0 after a restore. *)
Definition Watch_reset : Z := 0.
Definition Watch_start (minIndex : Z) : watcher := MkWatcher WTop minIndex [].

(** [WatchKey] asks for [lastIndex+1], and [lastIndex] starts as 0. *)
Definition WatchKey_reset : Z := uint 64 (0 + 1).
Definition WatchKey_start : watcher := MkWatcher WTop WatchKey_reset [].

Definition watch_reachable (reset : Z) (key : bytes) (e : env) (w : watcher) (s : env * watcher) : Prop :=
  rtc (watch_step reset key) (e, w) s.

(** *** Several watchers

    Each with the key and the reset of its handler. *)
Record client := MkClient { cl_reset : Z; cl_key : bytes; cl_w : watcher }.

Inductive clients_step : env * list client → env * list client → Prop :=
| cl_env e e' cs : env_step e e' → clients_step (e, cs) (e', cs)
| cl_watch e e' cs i c w' :
    cs !! i = Some c → watch_step (cl_reset c) (cl_key c) (e, cl_w c) (e', w') →
    clients_step (e, cs) (e', <[i := MkClient (cl_reset c) (cl_key c) w']> cs).
End watch.

(** ** Channels *)

Section channels.
Context {P : Pebble} {G : Gzip}.

(** The abandon channel and the closed channels are as before. *)
Definition same_chans (fw fw' : fworld) : Prop :=
  fw_ch fw' = fw_ch fw ∧ abandonCh (fw_sm fw') = abandonCh (fw_sm fw).

Lemma on_store_chans {A} (m : GoM sworld A) fw : same_chans fw (on_store m fw).2.
Proof. unfold on_store. by destruct (m (fw_sw fw)). Qed.

Lemma same_chans_ok fw fw' : same_chans fw fw' → chan_ok fw → chan_ok fw'.
Proof. intros [H1 H2]. unfold chan_ok. by rewrite H1, H2. Qed.

(** A bind whose first half works on the store. *)
Lemma on_store_bind_chans {A B} (m : GoM sworld A) (f : A → GoM fworld B) fw :
  (∀ a fw', same_chans fw fw' → fw_sm fw' = fw_sm fw → same_chans fw' (f a fw').2) →
  same_chans fw (go_bind (on_store m) f fw).2.
Proof.
  intros Hf. pose proof (on_store_chans m fw) as H. unfold go_bind, on_store in *.
  destruct (m (fw_sw fw)) as [[a|e|p|] sw]; simpl in *; try done.
  apply (Hf a (MkFW (fw_sm fw) sw (fw_ch fw)) H eq_refl).
Qed.

Lemma Apply_chans log fw : same_chans fw (Apply log fw).2.
Proof.
  unfold Apply. apply on_store_bind_chans. intros closed fw' _ _.
  destruct closed; [done|]. go_simpl.
  pose proof (on_store_chans (applyCommand (Data log)) (MkFW (set_index (fw_sm fw') (Index log)) (fw_sw fw') (fw_ch fw'))) as H.
  exact H.
Qed.

Lemma ReadLocal_chans key fw : same_chans fw (ReadLocal key fw).2.
Proof. apply on_store_chans. Qed.

Lemma Close_chans fw : same_chans fw (Close fw).2.
Proof.
  unfold Close. apply on_store_bind_chans. intros [] fw' _ _; [done|]. apply on_store_chans.
Qed.

(** A restore that succeeds closes the channel and makes a new one; one that
    fails leaves the channels alone. *)
Lemma Restore_chans rd start now fw :
  chan_ok fw →
  match Restore rd start now fw with
  | (Ok _, fw') => chan_ok fw' ∧ abandonCh (fw_sm fw) ∈ ch_closed (fw_ch fw') ∧
                   ch_closed (fw_ch fw) ⊆ ch_closed (fw_ch fw')
  | (Err _, fw') => same_chans fw fw'
  | _ => True
  end.
Proof.
  intros (Hc1 & Hc2 & Hc3). unfold Restore.
  pose proof (on_store_chans isclosed fw) as H1. unfold go_bind at 1.
  destruct (on_store isclosed fw) as [[closed|e|p|] fw1]; try done.
  destruct closed; [done|]. simpl in H1.
  pose proof (on_store_chans (recoverSnapShot rd) fw1) as H2. unfold go_bind at 1.
  destruct (on_store (recoverSnapShot rd) fw1) as [[header|e|p|] fw2]; try done; simpl in H2.
  - destruct H1 as [E1 E2], H2 as [E3 E4]. destruct fw2 as [sm sw ch]. simpl in *.
    assert (ch = fw_ch fw) as -> by congruence.
    assert (abandonCh sm = abandonCh (fw_sm fw)) as E by congruence.
    unfold abandon, the_sm, set_sm, chan_make, chan_close, go_bind, go_ret.
    destruct (decide (LastIndex header > 0)); cbn; rewrite E, decide_False by done; cbn;
      (split; [|split; [set_solver|set_solver]]); (split; [simpl; lia|split; simpl; [|]]).
    all: try (rewrite not_elem_of_union, not_elem_of_singleton; split; [lia|]; intros H%Hc3; lia).
    all: intros c; rewrite elem_of_union, elem_of_singleton; intros [->|H%Hc3]; lia.
  - destruct H1, H2. split; congruence.
Qed.
End channels.

(** ** The invariant of a watcher *)

Section watch_inv.
Context {P : Pebble} {G : Gzip}.

(** What a result says about the index [m] that was asked for. *)
Definition result_ok (m : Z) (why : reason) (r : BlockingQueryResult) : Prop :=
  match why with
  | Fresh => Abandoned r = false ∧ (m = 0 ∨ m ≤ CurrentIndex r)
  | TimedOut => Abandoned r = false ∧ m ≠ 0 ∧ CurrentIndex r < m
  | Restored => r = MkResult [] 0 true
  end.

(** The results of a watcher that asked for [m] first. *)
Fixpoint sent_ok (reset m : Z) (sent : list (reason * BlockingQueryResult)) : Prop :=
  match sent with
  | [] => True
  | (why, r) :: rest => result_ok m why r ∧ sent_ok reset (next_min reset r) rest
  end.

(** The index it asks for after them. *)
Definition min_after (reset m : Z) (sent : list (reason * BlockingQueryResult)) : Z :=
  foldl (λ _ x, next_min reset x.2) m sent.

Fixpoint restored_count (sent : list (reason * BlockingQueryResult)) : nat :=
  match sent with
  | [] => 0
  | (Restored, _) :: rest => S (restored_count rest)
  | _ :: rest => restored_count rest
  end.

Lemma sent_ok_snoc reset m sent why r :
  sent_ok reset m sent → result_ok (min_after reset m sent) why r →
  sent_ok reset m (sent ++ [(why, r)]).
Proof.
  revert m. induction sent as [|[why' r'] sent IH]; intros m; simpl; [done|].
  intros [H1 H2] H3. split; [done|]. by apply IH.
Qed.

Lemma restored_count_app l k : restored_count (l ++ k) = (restored_count l + restored_count k)%nat.
Proof. induction l as [|[[] r] l IH]; simpl; lia. Qed.

(** Whether a query has seen an index below the one that was asked for. *)
Definition bq_ok (m : Z) (count restores : nat) (e : env) (b : bq) : Prop :=
  match bq_at b with
  | BQuery first | BIndex first _ => first = false → m ≠ 0 ∧ bq_index b < m
  | BWait => m ≠ 0 ∧ bq_index b < m
  | BSelect ch => (m ≠ 0 ∧ bq_index b < m) ∧
      (ch = AbandonCh e ∨ ch ∈ closed_chans e ∧ (count < restores)%nat)
  | BReturn why r => result_ok m why r ∧ (why = Restored → (count < restores)%nat)
  | BError _ => True
  end.

Record winv (reset m0 : Z) (base : nat) (s : env * watcher) : Prop := {
  winv_chans : chan_ok (e_fw s.1);
  winv_sent : sent_ok reset m0 (w_sent s.2);
  winv_min : w_min s.2 = min_after reset m0 (w_sent s.2);
  winv_count : (base + restored_count (w_sent s.2) ≤ e_restores s.1)%nat;
  winv_at :
    let count := (base + restored_count (w_sent s.2))%nat in
    match w_at s.2 with
    | WIn b => bq_ok (w_min s.2) count (e_restores s.1) s.1 b
    | WDeliver why r => result_ok (w_min s.2) why r ∧ (why = Restored → (count < e_restores s.1)%nat)
    | _ => True
    end;
}.

(** What a step of the node does to the channels: it leaves them alone, or it
    closes the present one. *)
Lemma env_step_chans e e' :
  chan_ok (e_fw e) → env_step e e' →
  chan_ok (e_fw e') ∧ (e_restores e ≤ e_restores e')%nat ∧ closed_chans e ⊆ closed_chans e' ∧
  (AbandonCh e' = AbandonCh e ∨ AbandonCh e ∈ closed_chans e' ∧ (e_restores e < e_restores e')%nat).
Proof.
  intros Hc H. destruct H; unfold AbandonCh, closed_chans; simpl; try by auto.
  - pose proof (Apply_chans log (e_fw e)) as Hs. rewrite H0 in Hs. simpl in Hs.
    split; [by eapply same_chans_ok|]. destruct Hs as [-> ->]. auto.
  - pose proof (Restore_chans rd start now (e_fw e) Hc) as Hs. rewrite H0 in Hs.
    destruct Hs as (? & ? & ?). split_and!; auto.
  - pose proof (Restore_chans rd start now (e_fw e) Hc) as Hs. rewrite H0 in Hs.
    split; [by eapply same_chans_ok|]. destruct Hs as [-> ->]. auto.
  - pose proof (Close_chans (e_fw e)) as Hs. rewrite H in Hs. simpl in Hs.
    split; [by eapply same_chans_ok|]. destruct Hs as [-> ->]. auto.
  - pose proof (ReadLocal_chans key (e_fw e)) as Hs. rewrite H in Hs. simpl in Hs.
    split; [by eapply same_chans_ok|]. destruct Hs as [-> ->]. auto.
Qed.

Lemma bq_ok_env m count e e' b :
  (count ≤ e_restores e)%nat → chan_ok (e_fw e) → env_step e e' →
  bq_ok m count (e_restores e) e b → bq_ok m count (e_restores e') e' b.
Proof.
  intros Hle Hc H. destruct (env_step_chans e e' Hc H) as (_ & Hr & Hcl & Ha).
  unfold bq_ok. destruct (bq_at b); try done.
  - intros [Hm Hch]. split; [done|].
    destruct Hch as [->|[Hin ?]]; [destruct Ha as [->|[? ?]]; [by left|right; split; [done|lia]]|].
    right. split; [by apply Hcl|lia].
  - intros [Hm Hw]. split; [done|]. intros Hy. specialize (Hw Hy). lia.
Qed.

Lemma bq_ok_step key m count e b e' b' :
  (count ≤ e_restores e)%nat → chan_ok (e_fw e) → bq_step key m (e, b) (e', b') →
  bq_ok m count (e_restores e) e b →
  chan_ok (e_fw e') ∧ e_restores e' = e_restores e ∧ bq_ok m count (e_restores e') e' b'.
Proof.
  intros Hle Hc H. inversion H; subst; unfold bq_ok; simpl;
    repeat match goal with E : bq_at b = _ |- _ => rewrite E; clear E end;
    try (pose proof (ReadLocal_chans key (e_fw e)) as Hs;
         match goal with E : ReadLocal _ _ = _ |- _ => rewrite E in Hs end; simpl in Hs;
         intros Hb; split; [by eapply same_chans_ok|done]).
  - intros Hb. split; [done|]. split; [done|]. unfold bq_answer. simpl. case_decide as Hd; simpl.
    + split; [|done]. split; [done|]. destruct Hd as [[_ ?]|?]; auto.
    + destruct first; [|specialize (Hb eq_refl); lia]. split; [|lia]. intros ->. apply Hd. by left.
  - intros Hb. split; [done|]. split; [done|]. auto.
  - intros [[? ?] _]. done.
  - intros [_ Hch]. do 3 (split; [done|]). intros _.
    destruct Hch as [->|[_ ?]]; [|done]. destruct Hc as (_ & Hop & _). done.
  - intros [? _]. done.
  - done.
Qed.

Lemma winv_step reset key m0 base s s' :
  winv reset m0 base s → watch_step reset key s s' → winv reset m0 base s'.
Proof.
  intros [H1 H2 H3 H4 H5] H. destruct H; simpl in *.
  - destruct (env_step_chans e e' H1 H) as (? & ? & _ & _). split; simpl; try done; [lia|].
    destruct (w_at w) eqn:E; try done.
    + by apply (bq_ok_env _ _ e).
    + destruct H5 as [? Hw]. split; [done|]. intros Hy. specialize (Hw Hy). lia.
  - by split.
  - split; simpl; try done.
  - rewrite H in H5. destruct (bq_ok_step key (w_min w) _ e b e' b' H4 H1 H0 H5) as (? & Hr & ?).
    split; simpl; try done. by rewrite Hr.
  - by split.
  - rewrite H in H5. unfold bq_ok in H5. rewrite H0 in H5. by split.
  - rewrite H in H5. destruct H5 as [Hr Hw]. rewrite H3 in Hr. split; simpl; try done.
    + by apply sent_ok_snoc.
    + unfold min_after. by rewrite foldl_app.
    + rewrite restored_count_app. simpl. destruct why; simpl; [lia..|]. specialize (Hw eq_refl). lia.
  - by split.
Qed.

Lemma winv_reachable reset key e0 m0 s :
  chan_ok (e_fw e0) → watch_reachable reset key e0 (MkWatcher WTop m0 []) s →
  winv reset m0 (e_restores e0) s.
Proof.
  intros Hc. unfold watch_reachable. revert s. apply rtc_ind_r; [|by eauto using winv_step].
  split; simpl; try done. lia.
Qed.
End watch_inv.

(** ** Theorems *)

Lemma sent_ok_next reset m sent k x1 x2 :
  sent_ok reset m sent → sent !! k = Some x1 → sent !! S k = Some x2 →
  result_ok (next_min reset x1.2) x2.1 x2.2.
Proof.
  revert m k. induction sent as [|[why r] sent IH]; intros m [|k]; simpl; try done.
  - intros [_ H] [= <-]. destruct sent as [|[why2 r2] sent]; [done|]. intros [= <-]. by destruct H.
  - intros [_ H]. by apply (IH (next_min reset r) k).
Qed.

Section watch_theorems.
Context {P : Pebble} `{!PebbleLaws P, !PebbleReliable P} {G : Gzip}.

(** C19: What a watcher is told, whatever raft, the state machine and restores do
    meanwhile. A result that follows one that was not an abandonment carries a
    higher index, unless it was returned because the time was over, and then its
    index is not higher (indexes below 2^64 - 1). The results say "abandoned" at
    most once per restore since the watch began, with an empty value and
    index 0. *)
Theorem watch_results_advance reset key m0 e0 e w :
  chan_ok (e_fw e0) → watch_reachable reset key e0 (MkWatcher WTop m0 []) (e, w) →
  (∀ k why1 r1 why2 r2,
     w_sent w !! k = Some (why1, r1) → w_sent w !! S k = Some (why2, r2) →
     Abandoned r1 = false → Abandoned r2 = false → 0 ≤ CurrentIndex r1 < 2 ^ 64 - 1 →
     (CurrentIndex r1 < CurrentIndex r2 ↔ why2 = Fresh)) ∧
  (∀ why r, (why, r) ∈ w_sent w → Abandoned r = true ↔ why = Restored) ∧
  (∀ r, (Restored, r) ∈ w_sent w → r = MkResult [] 0 true) ∧
  (e_restores e0 + restored_count (w_sent w) ≤ e_restores e)%nat.
Proof.
  intros Hc Hr. destruct (winv_reachable _ _ _ _ _ Hc Hr) as [_ Hs _ Hn _]. simpl in *.
  assert (∀ why r, (why, r) ∈ w_sent w → ∃ m, result_ok m why r) as Hall.
  { clear -Hs. revert m0 Hs. induction (w_sent w) as [|[why' r'] l IH]; intros m0 Hs why r;
      [by intros ?%not_elem_of_nil|]. destruct Hs as [H1 H2].
    intros [[= -> ->]|H]%elem_of_cons; [by eauto|by eapply IH]. }
  split_and!; [| |intros r [m H]%Hall; exact H|done].
  2:{ intros why r [m H]%Hall. destruct why; simpl in H; [destruct H as [-> _]..|subst]; done. }
  intros k why1 r1 why2 r2 H1 H2 Ha1 Ha2 Hi.
  pose proof (sent_ok_next _ _ _ _ _ _ Hs H1 H2) as H. simpl in H.
  unfold next_min in H. rewrite Ha1, uint_small in H by lia.
  destruct why2; simpl in H; [|split; [lia|done]|by subst].
  split; [done|]. intros _. lia.
Qed.

(** After a restore the channel that a select waits on is closed for good. *)
Lemma select_wakes key m count e b ch rd start now fw' i e2 :
  chan_ok (e_fw e) → bq_at b = BSelect ch → bq_ok m count (e_restores e) e b →
  Restore rd start now (e_fw e) = (Ok tt, fw') →
  rtc env_step (MkEnv fw' (e_applied e) [] (Some i) (e_ctx e) (S (e_restores e))) e2 →
  bq_step key m (e2, b) (e2, goto_bq (BReturn Restored (MkResult [] 0 true)) b).
Proof.
  intros Hc1 Hb Hok HR Hrun. unfold bq_ok in Hok. rewrite Hb in Hok. destruct Hok as [_ Hch].
  pose proof (Restore_chans rd start now (e_fw e) Hc1) as H. rewrite HR in H.
  destruct H as (Hc2 & Hin & Hsub).
  set (e1 := MkEnv fw' (e_applied e) [] (Some i) (e_ctx e) (S (e_restores e))) in *.
  assert (chan_ok (e_fw e2) ∧ closed_chans e1 ⊆ closed_chans e2) as [_ Hsub2].
  { assert (chan_ok (e_fw e1)) as Hc1' by exact Hc2. clear -Hrun Hc1'.
    induction Hrun as [x|x y z Hxy _ IH]; [done|].
    destruct (env_step_chans x y Hc1' Hxy) as (Hy & _ & Hs & _).
    destruct (IH Hy) as [? ?]. split; [done|]. by etrans. }
  eapply bq_abandoned; [done|]. apply Hsub2.
  destruct Hch as [->|[Hcl _]]; [exact Hin|by apply Hsub].
Qed.

(** What a watcher does to the node is something that the node can do by itself. *)
Lemma watch_step_env reset key e w e' w' :
  watch_step reset key (e, w) (e', w') → e' = e ∨ env_step e e'.
Proof.
  intros H. inversion H as [| | |? ? b ? b' _ Hb| | | |]; subst; try by (left + right).
  inversion Hb; subst; try (by left); right; by eapply env_read.
Qed.

(** Every watcher's view of a run with several watchers is a run of its own. *)
Lemma clients_project s0 s :
  rtc clients_step s0 s →
  ∀ i c, s.2 !! i = Some c →
  ∃ c0, s0.2 !! i = Some c0 ∧ cl_reset c = cl_reset c0 ∧ cl_key c = cl_key c0 ∧
        watch_reachable (cl_reset c) (cl_key c) s0.1 (cl_w c0) (s.1, cl_w c).
Proof.
  revert s. apply (rtc_ind_r (λ s, ∀ i c, s.2 !! i = Some c →
    ∃ c0, s0.2 !! i = Some c0 ∧ cl_reset c = cl_reset c0 ∧ cl_key c = cl_key c0 ∧
          watch_reachable (cl_reset c) (cl_key c) s0.1 (cl_w c0) (s.1, cl_w c))).
  { intros i c Hi. exists c. do 3 (split; [done|]). apply rtc_refl. }
  intros s1 s2 _ H1 IH i c Hi.
  destruct H1 as [e1 e' cs1 Hs|e1 e' cs1 k ck w' Hk Hs]; cbn [fst snd] in *.
  - destruct (IH i c Hi) as (c0 & ? & ? & ? & Hr). exists c0. do 3 (split; [done|]).
    eapply rtc_r; [exact Hr|]. by apply w_env.
  - destruct (decide (k = i)) as [->|Hne].
    + apply lookup_lt_Some in Hk as Hlt. rewrite list_lookup_insert_eq in Hi by done. injection Hi as <-.
      destruct (IH i ck Hk) as (c0 & ? & ? & ? & Hr). exists c0. do 3 (split; [done|]).
      eapply rtc_r; [exact Hr|exact Hs].
    + rewrite list_lookup_insert_ne in Hi by done.
      destruct (IH i c Hi) as (c0 & ? & ? & ? & Hr). exists c0. do 3 (split; [done|]).
      destruct (watch_step_env _ _ _ _ _ _ Hs) as [->|He]; [done|].
      eapply rtc_r; [exact Hr|]. by apply w_env.
Qed.

(** The same for a single watcher. *)
Theorem restore_wakes_watcher reset key m0 e0 e w b ch rd start now fw' i e2 :
  chan_ok (e_fw e0) → watch_reachable reset key e0 (MkWatcher WTop m0 []) (e, w) →
  w_at w = WIn b → bq_at b = BSelect ch →
  Restore rd start now (e_fw e) = (Ok tt, fw') →
  rtc env_step (MkEnv fw' (e_applied e) [] (Some i) (e_ctx e) (S (e_restores e))) e2 →
  watch_step reset key (e2, w)
    (e2, at_w (WIn (goto_bq (BReturn Restored (MkResult [] 0 true)) b)) w).
Proof.
  intros Hc Hr Hw Hb HR Hrun. destruct (winv_reachable _ _ _ _ _ Hc Hr) as [Hc1 _ _ _ Hat].
  simpl in *. rewrite Hw in Hat. eapply w_in; [done|]. by eapply select_wakes.
Qed.

(** And the other way round. *)
Lemma clients_lift reset key s1 s2 cs i :
  rtc (watch_step reset key) s1 s2 → cs !! i = Some (MkClient reset key s1.2) →
  rtc clients_step (s1.1, cs) (s2.1, <[i := MkClient reset key s2.2]> cs).
Proof.
  intros H. revert cs. induction H as [[e w]|[e1 w1] [e2 w2] [e3 w3] H1 _ IH]; intros cs Hi; cbn [fst snd] in *.
  - rewrite list_insert_id by done. apply rtc_refl.
  - eapply rtc_l; [exact (cl_watch e1 e2 cs i _ w2 Hi H1)|]. cbn [cl_reset cl_key].
    specialize (IH (<[i := MkClient reset key w2]> cs)). rewrite list_insert_insert_eq in IH. apply IH.
    rewrite list_lookup_insert_eq; [done|]. by eapply lookup_lt_Some.
Qed.

(** C20: A restore wakes every waiting watcher. However many watchers there are,
    with whatever keys: when a restore succeeds, then from that moment on, whatever
    else the node does, each of them that was in its select can take the branch that
    returns the abandoned result, until it leaves the select: no wake-up is lost. *)
Theorem restore_wakes_every_watcher e0 cs0 e cs rd start now fw' i e2 :
  chan_ok (e_fw e0) → Forall (λ c, w_at (cl_w c) = WTop ∧ w_sent (cl_w c) = []) cs0 →
  rtc clients_step (e0, cs0) (e, cs) →
  Restore rd start now (e_fw e) = (Ok tt, fw') →
  rtc env_step (MkEnv fw' (e_applied e) [] (Some i) (e_ctx e) (S (e_restores e))) e2 →
  Forall (λ c, ∀ b ch, w_at (cl_w c) = WIn b → bq_at b = BSelect ch →
    watch_step (cl_reset c) (cl_key c) (e2, cl_w c)
      (e2, at_w (WIn (goto_bq (BReturn Restored (MkResult [] 0 true)) b)) (cl_w c))) cs.
Proof.
  intros Hc H0 Hr HR Hrun. apply Forall_lookup. intros k c Hk b ch Hw Hb.
  destruct (clients_project _ _ Hr k c Hk) as (c0 & Hc0 & _ & _ & Hreach). cbn [fst snd] in *.
  destruct (Forall_lookup_1 _ _ _ _ H0 Hc0) as [Htop Hsent].
  destruct (cl_w c0) as [pc m sent]. simpl in Htop, Hsent. subst.
  destruct (winv_reachable _ _ _ _ _ Hc Hreach) as [Hc1 _ _ _ Hat]. simpl in *. rewrite Hw in Hat.
  eapply w_in; [done|]. by eapply select_wakes.
Qed.

(** C21: What [WatchKeyBlocking] returns, whatever the node does meanwhile: an
    answer at the index that was asked for or a later one; or, when its time is
    over or its context is done, one from before it; or that the state was
    abandoned, which only happens when a restore did happen during the call. *)
Theorem WatchKeyBlocking_result key minIndex e0 e b why r :
  chan_ok (e_fw e0) → rtc (call_step key minIndex) (e0, WatchKeyBlocking_start) (e, b) →
  bq_at b = BReturn why r →
  match why with
  | Fresh => Abandoned r = false ∧ (minIndex = 0 ∨ minIndex ≤ CurrentIndex r)
  | TimedOut => Abandoned r = false ∧ minIndex ≠ 0 ∧ CurrentIndex r < minIndex
  | Restored => r = MkResult [] 0 true ∧ (e_restores e0 < e_restores e)%nat
  end.
Proof.
  intros Hc Hr Hb.
  assert (chan_ok (e_fw e) ∧ (e_restores e0 ≤ e_restores e)%nat ∧
          bq_ok minIndex (e_restores e0) (e_restores e) e b) as (_ & _ & Hok).
  { clear Hb. change (let s := (e, b) in chan_ok (e_fw s.1) ∧ (e_restores e0 ≤ e_restores s.1)%nat ∧
      bq_ok minIndex (e_restores e0) (e_restores s.1) s.1 s.2). cbv zeta. revert Hr. generalize (e, b).
    apply (rtc_ind_r (λ s, chan_ok (e_fw s.1) ∧ (e_restores e0 ≤ e_restores s.1)%nat ∧
      bq_ok minIndex (e_restores e0) (e_restores s.1) s.1 s.2)); [done|].
    intros s1 s2 _ H1 (Hc1 & Hle & Hok).
    destruct H1 as [e1 e2 b1 He|[e1 b1] [e2 b2] Hb]; cbn [fst snd] in *.
    - destruct (env_step_chans _ _ Hc1 He) as (? & ? & _). split; [done|]. split; [lia|].
      by eapply bq_ok_env.
    - destruct (bq_ok_step key minIndex _ _ _ _ _ Hle Hc1 Hb Hok) as (? & -> & ?). by split. }
  unfold bq_ok in Hok. rewrite Hb in Hok. destruct Hok as [H1 H2]. destruct why; [done..|].
  split; [done|]. by apply H2.
Qed.

(** The loop that the comment of [WatchKeyBlocking] shows does not block: it asks
    for the index of the last result again, which is reached, so the first query
    answers at once although nothing has changed. *)
Theorem documented_loop_does_not_block key n m e i :
  running n m (e_fw e) → e_applied e = i →
  let r := MkResult (default [] (m !! cf_key key)) i false in
  ∃ e' b, rtc (bq_step key i) (e, WatchKeyBlocking_start) (e', b) ∧ bq_at b = BReturn Fresh r ∧
          running n m (e_fw e') ∧ e_applied e' = i.
Proof.
  intros Hr Hi r. destruct (ReadLocal_ok key n m _ Hr) as (fw' & H & Hr').
  eexists (set_fw fw' e), (bq_answer i true _ (e_applied e) _). split.
  { eapply rtc_l; [exact (bq_read _ _ _ WatchKeyBlocking_start true _ _ eq_refl H eq_refl)|].
    eapply rtc_l; [by eapply bq_read_index|]. apply rtc_refl. }
  unfold bq_answer. rewrite decide_True by (right; lia). subst i. done.
Qed.
End watch_theorems.

(** ** What a watcher can miss *)

Section watch_findings.
Context `{PL : PebbleLaws, !PebbleReliable _} {G : Gzip}.

(** A query of a running store, up to the read of the index. *)
Lemma watch_reads reset key n m e w b first :
  running n m (e_fw e) → w_at w = WIn b → bq_at b = BQuery first →
  ∃ fw', running n m fw' ∧ same_chans (e_fw e) fw' ∧ fw' = (ReadLocal key (e_fw e)).2 ∧
    watch_step reset key (e, w)
      (set_fw fw' e, at_w (WIn (goto_bq (BIndex first (default [] (m !! cf_key key))) b)) w).
Proof.
  intros Hr Hw Hb. destruct (ReadLocal_ok key n m _ Hr) as (fw' & H & Hr').
  pose proof (ReadLocal_chans key (e_fw e)) as Hc. rewrite H in Hc. exists fw'. do 2 (split; [done|]).
  split; [by rewrite H|]. eapply w_in; [done|]. exact (bq_read _ _ _ _ _ _ _ Hb H eq_refl).
Qed.

(** One call of [BlockingQuery] that need not wait, and the delivery. *)
Lemma watch_round reset key n m e w :
  running n m (e_fw e) → w_at w = WTop → e_ctx e = false → w_min w = 0 ∨ w_min w ≤ e_applied e →
  let r := MkResult (default [] (m !! cf_key key)) (e_applied e) false in
  ∃ fw', running n m fw' ∧ same_chans (e_fw e) fw' ∧
    rtc (watch_step reset key) (e, w)
      (set_fw fw' e, MkWatcher WTop (next_min reset r) (w_sent w ++ [(Fresh, r)])).
Proof.
  intros Hr Hw Hx Hm r.
  destruct (watch_reads reset key n m e (at_w (WIn BlockingQuery_start) w) BlockingQuery_start true
    Hr eq_refl eq_refl) as (fw1 & Hr1 & Hs1 & _ & H1).
  exists fw1. do 2 (split; [done|]). eapply rtc_l; [by apply w_call|]. eapply rtc_l; [exact H1|].
  eapply rtc_l; [by eapply w_in, bq_read_index|]. unfold bq_answer.
  rewrite decide_True by (destruct Hm; [by left|by right]).
  eapply rtc_l; [by eapply w_result|]. eapply rtc_l; [by eapply w_deliver|]. apply rtc_refl.
Qed.

(** One that has to wait: it comes to its select. *)
Lemma watch_waits reset key n m e w :
  running n m (e_fw e) → w_at w = WTop → e_ctx e = false → w_min w ≠ 0 → e_applied e < w_min w →
  ∃ fw', running n m fw' ∧ same_chans (e_fw e) fw' ∧ fw' = (ReadLocal key (e_fw e)).2 ∧
    rtc (watch_step reset key) (e, w)
      (set_fw fw' e, at_w (WIn (MkBq (BSelect (AbandonCh e)) (default [] (m !! cf_key key))
                                  (e_applied e) false)) w).
Proof.
  intros Hr Hw Hx Hm Hi.
  destruct (watch_reads reset key n m e (at_w (WIn BlockingQuery_start) w) BlockingQuery_start true
    Hr eq_refl eq_refl) as (fw1 & Hr1 & Hs1 & Hf1 & H1).
  exists fw1. do 3 (split; [done|]). eapply rtc_l; [by apply w_call|]. eapply rtc_l; [exact H1|].
  eapply rtc_l; [by eapply w_in, bq_read_index|]. unfold bq_answer.
  rewrite decide_False by (intros [[_ ?]|?]; simpl in *; [done|lia]).
  eapply rtc_l; [by eapply w_in, bq_enter|]. unfold AbandonCh, at_w, goto_bq. simpl.
  destruct Hs1 as [_ ->]. apply rtc_refl.
Qed.

(** C39: A watcher can miss a change. The store is read before raft's applied
    index, and raft counts an entry as applied when it has handed it over, so a
    value can be delivered with the index of a later write of the same key. The
    watcher then asks for the index after it: it waits, although the store holds
    a value that it was never told, until another entry is committed, a restore
    happens or its time is over. *)
Theorem watch_can_miss_update key val i n m fw :
  running n m fw → chan_ok fw → 0 ≤ i < 2 ^ 64 - 2 →
  let old := default [] (m !! cf_key (string_bytes key)) in
  ∃ e w b,
    watch_reachable Watch_reset (string_bytes key) (MkEnv fw i [] None false 0) (Watch_start 0) (e, w) ∧
    running n (<[cf_key (string_bytes key) := string_bytes val]> m) (e_fw e) ∧
    w_sent w = [(Fresh, MkResult old (i + 1) false)] ∧
    w_at w = WIn b ∧ bq_at b = BSelect (AbandonCh e) ∧ (AbandonCh e ∉ closed_chans e) ∧
    bq_value b = string_bytes val ∧ bq_expired b = false ∧
    e_queue e = [] ∧ e_ctx e = false ∧ e_applied e < w_min w.
Proof.
  intros Hr Hc Hi old.
  destruct (watch_reads Watch_reset (string_bytes key) n m (MkEnv fw i [] None false 0)
    (MkWatcher (WIn BlockingQuery_start) 0 []) BlockingQuery_start true Hr eq_refl eq_refl)
    as (fw1 & Hr1 & Hs1 & _ & H1). cbn [e_fw set_fw] in *.
  set (log := MkLog (i + 1) (proposal key val)).
  destruct (Apply_ok log n m fw1 Hr1) as (sw2 & Ha2 & Hr2 & _).
  pose proof (Apply_chans log fw1) as Hs2.
  change (Data log) with (proposal key val) in Ha2, Hr2.
  rewrite spec_proposal in Ha2, Hr2. cbn [fst snd] in Ha2, Hr2. rewrite Ha2 in Hs2. cbn [snd] in Hs2.
  set (fw2 := MkFW (set_index (fw_sm fw1) (Index log)) sw2 (fw_ch fw1)) in *.
  set (e2 := MkEnv fw2 (i + 1) [] None false 0).
  set (w2 := MkWatcher WTop (i + 2) [(Fresh, MkResult old (i + 1) false)]).
  destruct (watch_waits Watch_reset (string_bytes key) n _ e2 w2 Hr2)
    as (fw3 & Hr3 & Hs3 & _ & H3); [done..|simpl; lia|simpl; lia|].
  rewrite lookup_insert_eq in H3. assert (chan_ok fw2) as (_ & Hop & _) by eauto using same_chans_ok.
  assert (AbandonCh (set_fw fw3 e2) = AbandonCh e2 ∧ closed_chans (set_fw fw3 e2) = closed_chans e2)
    as [Hch Hcl] by (unfold AbandonCh, closed_chans; simpl; by destruct Hs3 as [-> ->]).
  set (b := MkBq (BSelect (AbandonCh e2)) (string_bytes val) (i + 1) false).
  exists (set_fw fw3 e2), (at_w (WIn b) w2), b.
  split; [|rewrite Hch, Hcl; simpl; split_and!; try done; lia].
  unfold watch_reachable. eapply rtc_l; [by apply w_call|]. eapply rtc_l; [exact H1|].
  eapply rtc_l; [apply w_env, (env_send _ log)|].
  eapply rtc_l; [by eapply w_in, bq_read_index|]. unfold bq_answer.
  rewrite decide_True by by left.
  eapply rtc_l; [by eapply w_result|]. eapply rtc_l; [by eapply w_deliver|].
  eapply rtc_l; [eapply w_env, env_consume; [reflexivity|exact Ha2]|].
  change (Index log) with (i + 1). unfold next_min. cbn [Abandoned CurrentIndex e_applied].
  rewrite uint_small by lia. replace (i + 1 + 1) with (i + 2) by lia. exact H3.
Qed.

(** A watcher can miss a restore. [AbandonCh] is asked for at every select
    and not before the first query, so a restore that happens while the query
    runs has already replaced the channel: the watcher, which asked for an index
    that is not reached, waits on the new channel and is not told that the state
    was abandoned. *)
Theorem watch_can_miss_restore key minIndex i n m fw rd start now j fw2 :
  running n m fw → chan_ok fw → i < minIndex → 0 < minIndex →
  Restore rd start now (ReadLocal key fw).2 = (Ok tt, fw2) →
  ∃ e w b,
    watch_reachable Watch_reset key (MkEnv fw i [] None false 0) (Watch_start minIndex) (e, w) ∧
    e_fw e = fw2 ∧ e_restores e = 1%nat ∧ e_snapshot e = Some j ∧ w_sent w = [] ∧
    w_at w = WIn b ∧ bq_at b = BSelect (AbandonCh e) ∧ (AbandonCh e ∉ closed_chans e).
Proof.
  intros Hr Hc Hi Hm HR.
  destruct (watch_reads Watch_reset key n m (MkEnv fw i [] None false 0)
    (MkWatcher (WIn BlockingQuery_start) minIndex []) BlockingQuery_start true Hr eq_refl eq_refl)
    as (fw1 & Hr1 & Hs1 & Hfw1 & H1). cbn [e_fw set_fw] in *. rewrite <-Hfw1 in HR.
  pose proof (Restore_chans rd start now fw1 (same_chans_ok _ _ Hs1 Hc)) as H2. rewrite HR in H2.
  destruct H2 as ((_ & Hop & _) & _ & _).
  set (e2 := MkEnv fw2 i [] (Some j) false 1).
  exists e2. eexists (MkWatcher (WIn (MkBq (BSelect (AbandonCh e2)) _ i false)) minIndex []), _.
  split; [|simpl; split_and!; done].
  unfold watch_reachable. eapply rtc_l; [by apply w_call|]. eapply rtc_l; [exact H1|].
  eapply rtc_l; [apply w_env; by eapply (env_restore _ rd start now j)|].
  eapply rtc_l; [by eapply w_in, bq_read_index|]. unfold bq_answer. cbn [w_min at_w e_applied set_fw].
  rewrite decide_False by (intros [[_ ?]|?]; lia).
  eapply rtc_l; [by eapply w_in, bq_enter|]. apply rtc_refl.
Qed.
End watch_findings.

(** ** Witnesses *)

Definition demo_key : bytes := string_bytes "k".
Definition demo_env (i : Z) : env (P := Mem no_fault) := MkEnv demo_fsm i [] None false 0.

(** Two results, with an entry handed over between them. *)
Lemma watch_results_advance_witness :
  ∃ e w r1 r2,
    watch_reachable (G := Stored) Watch_reset demo_key (demo_env 7) (Watch_start 0) (e, w) ∧
    w_sent w = [(Fresh, r1); (Fresh, r2)] ∧ CurrentIndex r1 < CurrentIndex r2.
Proof.
  destruct (watch_round (G := Stored) Watch_reset demo_key "a" demo_map (demo_env 7) (Watch_start 0) demo_running)
    as (fw1 & Hr1 & _ & H1); [done|done|by left|].
  set (e1 := MkEnv fw1 8 [MkLog 8 []] None false 0).
  destruct (watch_round (G := Stored) Watch_reset demo_key "a" demo_map e1
              (MkWatcher WTop 8 (w_sent (Watch_start 0) ++
                 [(Fresh, MkResult (default [] (demo_map !! cf_key demo_key)) 7 false)])) Hr1)
    as (fw2 & _ & _ & H2); [done|done|by right|].
  set (r1 := MkResult (default [] (demo_map !! cf_key demo_key)) 7 false) in *.
  set (r2 := MkResult (default [] (demo_map !! cf_key demo_key)) 8 false) in *.
  exists (set_fw fw2 e1), (MkWatcher WTop 9 [(Fresh, r1); (Fresh, r2)]), r1, r2.
  assert (watch_reachable (G := Stored) Watch_reset demo_key (demo_env 7) (Watch_start 0)
    (set_fw fw2 e1, MkWatcher WTop 9 [(Fresh, r1); (Fresh, r2)])) as Hreach.
  { unfold watch_reachable. etrans; [exact H1|]. eapply rtc_l; [apply w_env, (env_send _ (MkLog 8 []))|]. exact H2. }
  split; [exact Hreach|]. split; [reflexivity|].
  destruct (watch_results_advance Watch_reset demo_key 0 (demo_env 7) _ _ demo_chan Hreach) as (Hadv & _).
  apply (Hadv 0%nat Fresh r1 Fresh r2 eq_refl eq_refl eq_refl eq_refl); [simpl; lia|reflexivity].
Defined.

(** A restore of the demonstration snapshot after a read. *)
Definition demo_read : fworld (P := Mem no_fault) := (ReadLocal demo_key demo_fsm).2.
Definition demo_restored : fworld (P := Mem no_fault) :=
  (Restore (G := Stored) (MkReader demo_stream None) 0 0 demo_read).2.

Lemma demo_restores :
  Restore (G := Stored) (MkReader demo_stream None) 0 0 demo_read = (Ok tt, demo_restored).
Proof.
  unfold demo_restored.
  assert ((Restore (G := Stored) (MkReader demo_stream None) 0 0 demo_read).1 = Ok tt) as H
    by (vm_compute; reflexivity).
  destruct (Restore (G := Stored) (MkReader demo_stream None) 0 0 demo_read). simpl in H. by subst.
Qed.

(** Two watchers wait when the restore happens. *)
Definition demo_read2 : fworld (P := Mem no_fault) := (ReadLocal demo_key demo_read).2.
Definition demo_restored2 : fworld (P := Mem no_fault) :=
  (Restore (G := Stored) (MkReader demo_stream None) 0 0 demo_read2).2.

Lemma demo_restores2 :
  Restore (G := Stored) (MkReader demo_stream None) 0 0 demo_read2 = (Ok tt, demo_restored2).
Proof.
  unfold demo_restored2.
  assert ((Restore (G := Stored) (MkReader demo_stream None) 0 0 demo_read2).1 = Ok tt) as H
    by (vm_compute; reflexivity).
  destruct (Restore (G := Stored) (MkReader demo_stream None) 0 0 demo_read2). simpl in H. by subst.
Qed.

Definition demo_waiting (m : Z) : client :=
  MkClient Watch_reset demo_key
    (at_w (WIn (MkBq (BSelect 0%nat) (default [] (demo_map !! cf_key demo_key)) 7 false)) (Watch_start m)).

Lemma demo_clients_wait :
  rtc (clients_step (P := Mem no_fault) (G := Stored))
    (demo_env 7, [MkClient Watch_reset demo_key (Watch_start 9); MkClient Watch_reset demo_key (Watch_start 10)])
    (set_fw demo_read2 (demo_env 7), [demo_waiting 9; demo_waiting 10]).
Proof.
  destruct (watch_waits (G := Stored) Watch_reset demo_key "a" demo_map (demo_env 7) (Watch_start 9) demo_running)
    as (fw1 & Hr1 & _ & Hf1 & H1); [done|done|done|simpl; lia|].
  destruct (watch_waits (G := Stored) Watch_reset demo_key "a" demo_map (set_fw fw1 (demo_env 7)) (Watch_start 10) Hr1)
    as (fw2 & _ & _ & Hf2 & H2); [done|done|done|simpl; lia|].
  pose proof (ReadLocal_chans demo_key demo_fsm) as [_ Hch]. cbn [demo_env e_fw] in Hf1, H2. rewrite <-Hf1 in Hch.
  assert (AbandonCh (set_fw fw1 (demo_env 7)) = 0%nat) as Ha by exact Hch.
  rewrite Ha in H2. subst fw1. cbn [e_fw set_fw] in Hf2. subst fw2.
  etrans; [exact (clients_lift _ _ _ _ [_; _] 0 H1 eq_refl)|].
  exact (clients_lift _ _ _ _ [demo_waiting 9; _] 1 H2 eq_refl).
Qed.

Lemma restore_wakes_every_watcher_witness :
  ∃ e2 : env (P := Mem no_fault),
    Forall (λ c, ∀ b ch, w_at (cl_w c) = WIn b → bq_at b = BSelect ch →
      watch_step (G := Stored) (cl_reset c) (cl_key c) (e2, cl_w c)
        (e2, at_w (WIn (goto_bq (BReturn Restored (MkResult [] 0 true)) b)) (cl_w c)))
      [demo_waiting 9; demo_waiting 10].
Proof.
  exists (MkEnv demo_restored2 7 [] (Some 7) false 1).
  refine (restore_wakes_every_watcher (demo_env 7) _ (set_fw demo_read2 (demo_env 7)) _
            (MkReader demo_stream None) 0 0 demo_restored2 7 _ demo_chan _ demo_clients_wait demo_restores2 (rtc_refl _ _)).
  repeat constructor.
Defined.

Lemma WatchKeyBlocking_result_witness :
  ∃ (e : env (P := Mem no_fault)) b r,
    rtc (call_step (G := Stored) demo_key 0) (demo_env 7, WatchKeyBlocking_start) (e, b) ∧
    bq_at b = BReturn Fresh r ∧ Abandoned r = false.
Proof.
  destruct (ReadLocal_ok demo_key "a" demo_map demo_fsm demo_running) as (fw' & H & _).
  set (v := default [] (demo_map !! cf_key demo_key)) in H.
  set (r := MkResult v 7 false).
  assert (rtc (call_step (G := Stored) demo_key 0) (demo_env 7, WatchKeyBlocking_start)
            (set_fw fw' (demo_env 7), MkBq (BReturn Fresh r) v 7 false)) as Hr.
  { eapply rtc_l; [apply call_in; exact (bq_read _ _ (demo_env 7) WatchKeyBlocking_start true _ _ eq_refl H eq_refl)|].
    eapply rtc_l; [apply call_in; by eapply bq_read_index|]. apply rtc_refl. }
  exists (set_fw fw' (demo_env 7)), (MkBq (BReturn Fresh r) v 7 false), r.
  split; [exact Hr|]. split; [reflexivity|].
  exact (proj1 (WatchKeyBlocking_result demo_key 0 (demo_env 7) _ _ Fresh r demo_chan Hr eq_refl)).
Defined.

Lemma watch_can_miss_update_witness :
  ∃ e w, watch_reachable (G := Stored) Watch_reset demo_key (demo_env 7) (Watch_start 0) (e, w) ∧
         running "a" (<[cf_key demo_key := string_bytes "new"]> demo_map) (e_fw e) ∧
         w_sent w = [(Fresh, MkResult (default [] (demo_map !! cf_key demo_key)) 8 false)].
Proof.
  destruct (watch_can_miss_update (G := Stored) "k" "new" 7 "a" demo_map demo_fsm demo_running demo_chan)
    as (e & w & b & H1 & H2 & H3 & _); [lia|].
  exact (ex_intro _ e (ex_intro _ w (conj H1 (conj H2 H3)))).
Defined.

Lemma watch_can_miss_restore_witness :
  ∃ e w, watch_reachable (G := Stored) Watch_reset demo_key (demo_env 7) (Watch_start 9) (e, w) ∧
         e_restores e = 1%nat ∧ w_sent w = [].
Proof.
  destruct (watch_can_miss_restore (G := Stored) demo_key 9 7 "a" demo_map demo_fsm (MkReader demo_stream None) 0 0 7
              demo_restored demo_running demo_chan)
    as (e & w & b & H1 & _ & H2 & _ & H3 & _); [lia|lia|exact demo_restores|].
  exact (ex_intro _ e (ex_intro _ w (conj H1 (conj H2 H3)))).
Defined.
