(* ===== verification/Addr.v ===== *)
(** * Addr.v: gossip/gossip.go [ParseHostPort], and the functions of the Go
    standard library that the program reads addresses and numbers with:
    [net.SplitHostPort], [strconv.Atoi] and [strconv.ParseInt(s, 10, 64)]. *)
From S2P Require Import Prelude Json.

(** ** Searching *)

(** [strings.IndexByte] and [strings.LastIndexByte], with the character code. *)
Fixpoint index_byte (c : Z) (l : bytes) : option nat :=
  match l with
  | [] => None
  | b :: l => if decide (byte_val b = c) then Some 0%nat else S <$> index_byte c l
  end.

Fixpoint last_index_byte (c : Z) (l : bytes) : option nat :=
  match l with
  | [] => None
  | b :: l =>
      match last_index_byte c l with
      | Some i => Some (S i)
      | None => if decide (byte_val b = c) then Some 0%nat else None
      end
  end.

(** ** net.SplitHostPort *)

Definition c_colon : Z := 58.
Definition c_open : Z := 91.
Definition c_close : Z := 93.

Definition addrErr {A} (hostport : bytes) (why : string) : res A :=
  Err (Errorf why [FStr (bytes_string hostport)]).

(** The host, and where brackets may not occur any more. *)
Definition split_host (hostport : bytes) (i : nat) : res (bytes * nat * nat) :=
  match hostport with
  | b :: _ =>
      if decide (byte_val b = c_open) then
        match index_byte c_close hostport with
        | None => addrErr hostport "missing ']' in address"
        | Some end_ =>
            if decide (S end_ = length hostport) then addrErr hostport "missing port in address"
            else if decide (S end_ = i) then Ok (take (end_ - 1) (drop 1 hostport), 1%nat, S end_)
            else if decide (byte_val <$> hostport !! S end_ = Some c_colon)
            then addrErr hostport "too many colons in address"
            else addrErr hostport "missing port in address"
        end
      else
        let host := take i hostport in
        match index_byte c_colon host with
        | Some _ => addrErr hostport "too many colons in address"
        | None => Ok (host, 0%nat, 0%nat)
        end
  | [] => addrErr hostport "missing port in address"
  end.

Definition SplitHostPort (hostport : bytes) : res (bytes * bytes) :=
  match last_index_byte c_colon hostport with
  | None => addrErr hostport "missing port in address"
  | Some i =>
      res_bind (split_host hostport i) (λ '(host, j, k),
        match index_byte c_open (drop j hostport), index_byte c_close (drop k hostport) with
        | Some _, _ => addrErr hostport "unexpected '[' in address"
        | None, Some _ => addrErr hostport "unexpected ']' in address"
        | None, None => Ok (host, drop (S i) hostport)
        end)
  end.

(** ** strconv *)

Definition ErrSyntax : error := Errorf "invalid syntax" [].
Definition ErrRange : error := Errorf "value out of range" [].

(** A sign, then digits only; out of range it is an error. *)
Definition ParseInt64 (s : bytes) : res Z :=
  let '(neg, d) := match s with
                   | b :: r => if decide (byte_val b = 45) then (true, r)
                               else if decide (byte_val b = 43) then (false, r) else (false, s)
                   | [] => (false, [])
                   end in
  if decide (d ≠ [] ∧ forallb is_digit d) then
    let v := if neg : bool then - digits_val d else digits_val d in
    if decide (- 2 ^ 63 ≤ v < 2 ^ 63) then Ok v else Err ErrRange
  else Err ErrSyntax.

Definition Atoi (s : bytes) : res Z := ParseInt64 s.

(** ** ParseHostPort *)

Definition ParseHostPort (addr : bytes) : res (bytes * Z) :=
  res_bind (SplitHostPort addr) (λ '(host, portStr),
    res_bind (Atoi portStr) (λ port, Ok (host, port))).

Example ParseHostPort_examples :
  ParseHostPort (string_bytes "0.0.0.0:7946") = Ok (string_bytes "0.0.0.0", 7946) ∧
  ParseHostPort (string_bytes "[::1]:7946") = Ok (string_bytes "::1", 7946) ∧
  ParseHostPort (string_bytes "::1:7946") = addrErr (string_bytes "::1:7946") "too many colons in address" ∧
  ParseHostPort (string_bytes "localhost") = addrErr (string_bytes "localhost") "missing port in address" ∧
  ParseHostPort (string_bytes "localhost:http") = Err ErrSyntax.
Proof. vm_compute. done. Qed.

(** ** Numbers are read back *)

Lemma digits_val_snoc d b : digits_val (d ++ [b]) = digits_val d * 10 + (byte_val b - 48).
Proof. unfold digits_val. by rewrite foldl_app. Qed.

Lemma pretty_char_byte x :
  (x < 10)%N → ∃ b, Ascii.byte_of_ascii (pretty_N_char x) = b ∧ byte_val b = 48 + Z.of_N x ∧ is_digit b = true.
Proof.
  intros Hx. assert (x = 0 ∨ x = 1 ∨ x = 2 ∨ x = 3 ∨ x = 4 ∨ x = 5 ∨ x = 6 ∨ x = 7 ∨ x = 8 ∨ x = 9)%N
    as Hc by lia.
  destruct_or! Hc; subst; (eexists; split; [reflexivity|]); by vm_compute.
Qed.

(** What is printed before [s] are the digits of [x]. *)
Lemma pretty_N_go_digits x s :
  ∃ d, string_bytes (pretty_N_go x s) = d ++ string_bytes s ∧ forallb is_digit d = true ∧
       digits_val d = Z.of_N x ∧ ((0 < x)%N → d ≠ []).
Proof.
  revert s. induction (N.lt_wf_0 x) as [x _ IH]; intros s.
  destruct (decide (x = 0%N)) as [->|Hx].
  { exists []. by rewrite pretty_N_go_0. }
  rewrite pretty_N_go_step by lia.
  destruct (pretty_char_byte (x `mod` 10)) as (b & Hb & Hv & Hd); [by apply N.mod_lt|].
  destruct (IH (x `div` 10)%N ltac:(apply N.div_lt; lia) (String (pretty_N_char (x `mod` 10)) s))
    as (d & E1 & E2 & E3 & _).
  exists (d ++ [b]). split_and!.
  - rewrite E1. change (string_bytes (String ?c s)) with (Ascii.byte_of_ascii c :: string_bytes s).
    rewrite Hb. by rewrite <-(assoc_L (++)).
  - rewrite forallb_app, E2. simpl. by rewrite Hd.
  - rewrite digits_val_snoc, E3, Hv. pose proof (N.div_mod x 10). lia.
  - intros _. by destruct d.
Qed.

Lemma pretty_N_digits x :
  ∃ d, string_bytes (pretty x) = d ∧ forallb is_digit d = true ∧ digits_val d = Z.of_N x ∧ d ≠ [].
Proof.
  unfold pretty, pretty_N. case_decide as Hx; [subst; eexists; split_and!; (done || by vm_compute)|].
  destruct (pretty_N_go_digits x "") as (d & E1 & E2 & E3 & E4).
  exists d. rewrite E1. split_and!; [by rewrite app_nil_r|done..|]. apply E4. lia.
Qed.

Lemma digit_val b : is_digit b = true → 48 ≤ byte_val b ≤ 57.
Proof. intros H. by apply bool_decide_eq_true in H. Qed.

(** What is printed, is parsed; none of it is a colon or a bracket. *)
Lemma ParseInt64_pretty z : - 2 ^ 63 ≤ z < 2 ^ 63 → ParseInt64 (string_bytes (pretty z)) = Ok z.
Proof.
  intros Hz.
  assert (∃ d, forallb is_digit d = true ∧ digits_val d = Z.abs z ∧ d ≠ [] ∧
    string_bytes (pretty z) = if decide (z < 0) then byte_of_Z 45 :: d else d) as (d & E1 & E2 & E3 & ->).
  { destruct z as [|p|p].
    - by exists [byte_of_Z 48].
    - destruct (pretty_N_digits (Npos p)) as (d & <- & ? & ? & ?). eexists. split_and!; try done.
    - destruct (pretty_N_digits (Npos p)) as (d & <- & ? & ? & ?). eexists. split_and!; try done. }
  unfold ParseInt64. case_decide as Hn.
  - rewrite decide_True by by vm_compute.
    rewrite decide_True by by rewrite E1. rewrite decide_True by lia. f_equal. lia.
  - destruct d as [|b d]; [done|]. pose proof E1 as [Hb _]%andb_true_iff. apply digit_val in Hb.
    rewrite !decide_False by lia. rewrite decide_True by by rewrite E1.
    rewrite decide_True by lia. f_equal. lia.
Qed.

Lemma pretty_chars (z : Z) : Forall (λ b, byte_val b = 45 ∨ 48 ≤ byte_val b ≤ 57) (string_bytes (pretty z)).
Proof.
  assert (∀ x : N, Forall (λ b, byte_val b = 45 ∨ 48 ≤ byte_val b ≤ 57) (string_bytes (pretty x))) as HN.
  { intros x. destruct (pretty_N_digits x) as (d & -> & Hd & _). apply Forall_forall. intros b Hb.
    rewrite forallb_forall in Hd. right. apply digit_val, Hd. by apply list_elem_of_In. }
  destruct z as [|p|p]; [apply (HN 0%N)|apply (HN (Npos p))|].
  constructor; [by left|apply (HN (Npos p))].
Qed.

(** ** Addresses are split *)

Lemma index_byte_None c l : Forall (λ b, byte_val b ≠ c) l → index_byte c l = None.
Proof. induction 1 as [|b l Hb _ IH]; simpl; [done|]. rewrite decide_False by done. by rewrite IH. Qed.

Lemma index_byte_first c l b k :
  Forall (λ b, byte_val b ≠ c) l → byte_val b = c → index_byte c (l ++ b :: k) = Some (length l).
Proof.
  intros Hl Hb. induction Hl as [|a l Ha _ IH]; simpl; [by rewrite decide_True|].
  rewrite decide_False by done. by rewrite IH.
Qed.

Lemma last_index_byte_None c l : Forall (λ b, byte_val b ≠ c) l → last_index_byte c l = None.
Proof. induction 1 as [|b l Hb _ IH]; simpl; [done|]. rewrite IH. by rewrite decide_False. Qed.

Lemma last_index_byte_last c l b k :
  Forall (λ b, byte_val b ≠ c) k → byte_val b = c → last_index_byte c (l ++ b :: k) = Some (length l).
Proof.
  intros Hk Hb. induction l as [|a l IH]; simpl; [|by rewrite IH].
  rewrite last_index_byte_None by done. by rewrite decide_True.
Qed.

(** A host name or an IPv4 address: no colon and no bracket. *)
Definition host_char (b : byte) : Prop :=
  byte_val b ≠ c_colon ∧ byte_val b ≠ c_open ∧ byte_val b ≠ c_close.
(** An IPv6 address: no bracket. *)
Definition host6_char (b : byte) : Prop := byte_val b ≠ c_open ∧ byte_val b ≠ c_close.

Definition join4 (host port : bytes) : bytes := host ++ byte_of_Z c_colon :: port.
Definition join6 (host port : bytes) : bytes :=
  byte_of_Z c_open :: host ++ byte_of_Z c_close :: byte_of_Z c_colon :: port.

Lemma host_avoids c l :
  c = c_colon ∨ c = c_open ∨ c = c_close → Forall host_char l → Forall (λ b, byte_val b ≠ c) l.
Proof. intros Hc H. eapply Forall_impl; [exact H|]. intros b (? & ? & ?). by destruct_or! Hc; subst. Qed.

Lemma host6_avoids c l : c = c_open ∨ c = c_close → Forall host6_char l → Forall (λ b, byte_val b ≠ c) l.
Proof. intros Hc H. eapply Forall_impl; [exact H|]. intros b (? & ?). by destruct_or! Hc; subst. Qed.

Lemma drop_S_app (host : bytes) b port : drop (S (length host)) (host ++ b :: port) = port.
Proof. rewrite drop_app_ge by lia. by replace (S (length host) - length host)%nat with 1%nat by lia. Qed.

Lemma SplitHostPort_join4 host port :
  Forall host_char host → Forall host_char port → SplitHostPort (join4 host port) = Ok (host, port).
Proof.
  intros Hh Hp. unfold SplitHostPort, join4.
  rewrite last_index_byte_last by (done || by apply host_avoids; auto).
  assert (split_host (host ++ byte_of_Z c_colon :: port) (length host) = Ok (host, 0%nat, 0%nat)) as ->.
  { unfold split_host. destruct host as [|b host]; [done|]. cbn [app].
    pose proof Hh as [(_ & Hb & _) _]%Forall_cons. rewrite decide_False by done.
    rewrite app_comm_cons, take_app_length. by rewrite index_byte_None by (apply host_avoids; auto). }
  cbn [res_bind]. rewrite !drop_0.
  assert (∀ c, c = c_open ∨ c = c_close → index_byte c (host ++ byte_of_Z c_colon :: port) = None) as Hb.
  { intros c Hc. apply index_byte_None, Forall_app. split; [apply host_avoids; auto|].
    constructor; [by destruct_or! Hc; subst; vm_compute|]. apply host_avoids; auto. }
  rewrite !Hb by auto. by rewrite drop_S_app.
Qed.

Lemma SplitHostPort_join6 host port :
  Forall host6_char host → Forall host_char port → SplitHostPort (join6 host port) = Ok (host, port).
Proof.
  intros Hh Hp. unfold SplitHostPort.
  assert (join6 host port = (byte_of_Z c_open :: host ++ [byte_of_Z c_close]) ++ byte_of_Z c_colon :: port) as Hj.
  { unfold join6. simpl. by rewrite <-(assoc_L (++)). }
  rewrite Hj at 1. rewrite last_index_byte_last by (done || by apply host_avoids; auto).
  assert (length (byte_of_Z c_open :: host ++ [byte_of_Z c_close]) = S (S (length host))) as Hl.
  { simpl. rewrite length_app. simpl. lia. }
  assert (split_host (join6 host port) (length (byte_of_Z c_open :: host ++ [byte_of_Z c_close])) =
          Ok (host, 1%nat, S (S (length host)))) as Hs.
  { rewrite Hl. unfold split_host, join6. rewrite decide_True by done. cbn [index_byte].
    rewrite decide_False by by vm_compute.
    rewrite index_byte_first by (done || by apply host6_avoids; auto). cbn [fmap option_fmap option_map].
    rewrite decide_False by (simpl; rewrite length_app; simpl; lia). rewrite decide_True by done.
    simpl. rewrite Nat.sub_0_r. by rewrite drop_0, take_app_length. }
  rewrite Hs. cbn [res_bind]. rewrite Hl.
  assert (drop 1 (join6 host port) = host ++ byte_of_Z c_close :: byte_of_Z c_colon :: port) as -> by done.
  assert (drop (S (S (length host))) (join6 host port) = byte_of_Z c_colon :: port) as ->.
  { rewrite Hj, drop_app_ge by lia. rewrite Hl. by rewrite Nat.sub_diag. }
  rewrite index_byte_None; [rewrite index_byte_None|].
  - rewrite Hj, drop_app_ge by lia. rewrite Hl.
    by replace (S (S (S (length host))) - S (S (length host)))%nat with 1%nat by lia.
  - constructor; [by vm_compute|]. apply host_avoids; auto.
  - apply Forall_app. split; [apply host6_avoids; auto|]. repeat constructor; try by vm_compute.
    apply host_avoids; auto.
Qed.

(** [ParseHostPort] reads what it should: a host name or IPv4 address, a
    colon and a decimal port give that host and port, and so does an IPv6
    address in brackets; the port may be any 64-bit number. *)
Theorem ParseHostPort_reads host host6 port :
  Forall host_char host → Forall host6_char host6 → - 2 ^ 63 ≤ port < 2 ^ 63 →
  ParseHostPort (join4 host (string_bytes (pretty port))) = Ok (host, port) ∧
  ParseHostPort (join6 host6 (string_bytes (pretty port))) = Ok (host6, port).
Proof.
  intros Hh Hh6 Hp. assert (Forall host_char (string_bytes (pretty port))) as Hd.
  { eapply Forall_impl; [apply pretty_chars|]. intros b [?|?]; split_and!; unfold c_colon, c_open, c_close; lia. }
  unfold ParseHostPort, Atoi. rewrite SplitHostPort_join4, SplitHostPort_join6 by done.
  cbn [res_bind]. by rewrite ParseInt64_pretty.
Qed.

Lemma ParseHostPort_reads_witness :
  ParseHostPort (join4 (string_bytes "0.0.0.0") (string_bytes (pretty 7946))) = Ok (string_bytes "0.0.0.0", 7946) ∧
  ParseHostPort (join6 (string_bytes "::1") (string_bytes (pretty 7946))) = Ok (string_bytes "::1", 7946).
Proof.
  apply ParseHostPort_reads; [repeat constructor; by vm_compute|repeat constructor; by vm_compute|lia].
Defined.
