(* ===== verification/Gossip.v ===== *)
(** * Gossip.v: gossip/gossip.go and resolver/resolver.go.

    Each node gossips its metadata as JSON; from the join, leave and update
    events of the memberlist library a node builds the map from node IDs to
    metadata that the gossip resolver looks addresses up in. The static resolver
    is a map that the configuration gives. [AddressResolver] is the interface
    that the RPC service calls. *)
From S2P Require Import Prelude Json.

(** ** The metadata as JSON *)

Record NodeMeta := MkMeta { NodeID : string; RaftAddr : string; GRPCAddr : string }.

#[global] Instance NodeMeta_eq_dec : EqDecision NodeMeta.
Proof. solve_decision. Defined.

Definition hex_digit (v : Z) : byte := if decide (v < 10) then byte_of_Z (48 + v) else byte_of_Z (87 + v).

Definition backslash (c : Z) : bytes := [byte_of_Z 92; byte_of_Z c].
(** [\u00XY] *)
Definition u_escape (x : Z) : bytes :=
  backslash 117 ++ [byte_of_Z 48; byte_of_Z 48; hex_digit (x / 16); hex_digit (x mod 16)].
(** [\ufffd], for a byte that is no UTF-8 *)
Definition u_fffd : bytes := backslash 117 ++ string_bytes "fffd".
(** [\u2028] and [\u2029] *)
Definition u_202 (x : Z) : bytes := backslash 117 ++ string_bytes "202" ++ [hex_digit x].

(** How an ASCII character is written. *)
Definition ascii_escape (b : byte) : bytes :=
  let x := byte_val b in
  if decide (x = 34 ∨ x = 92) then backslash x
  else if decide (x = 8) then backslash 98
  else if decide (x = 12) then backslash 102
  else if decide (x = 10) then backslash 110
  else if decide (x = 13) then backslash 114
  else if decide (x = 9) then backslash 116
  else if decide (x < 32 ∨ x = 60 ∨ x = 62 ∨ x = 38) then u_escape x
  else [b].

(** The body of a JSON string, as [json.Marshal] writes it. *)
Fixpoint encode_string (l : bytes) : bytes :=
  match l with
  | [] => []
  | c :: l1 =>
    if decide (byte_val c < 0x80) then ascii_escape c ++ encode_string l1
    else
      match l1 with
      | b1 :: l2 =>
        if decide (utf8_two c b1) then c :: b1 :: encode_string l2
        else match l2 with
        | b2 :: l3 =>
          if decide (utf8_three c b1 ∧ cont b2) then
            (if decide (byte_val c = 0xE2 ∧ byte_val b1 = 0x80 ∧ (byte_val b2 = 0xA8 ∨ byte_val b2 = 0xA9))
             then u_202 (byte_val b2 - 0xA0) else [c; b1; b2]) ++ encode_string l3
          else match l3 with
          | b3 :: l4 =>
            if decide (utf8_four c b1 ∧ cont b2 ∧ cont b3) then c :: b1 :: b2 :: b3 :: encode_string l4
            else u_fffd ++ encode_string l1
          | [] => u_fffd ++ encode_string l1
          end
        | [] => u_fffd ++ encode_string l1
        end
      | [] => u_fffd ++ encode_string l1
      end
  end.

Definition Marshal_NodeMeta (m : NodeMeta) : bytes :=
  lbrace :: quoted (string_bytes "node_id") (colon :: quoted (encode_string (string_bytes (NodeID m)))
    (comma :: quoted (string_bytes "raft_addr") (colon :: quoted (encode_string (string_bytes (RaftAddr m)))
      (comma :: quoted (string_bytes "grpc_addr") (colon :: quoted (encode_string (string_bytes (GRPCAddr m)))
        [rbrace]))))).

Example Marshal_NodeMeta_example :
  Marshal_NodeMeta (MkMeta "n1" "127.0.0.1:50051" "<>") =
    string_bytes "{" ++ quoted (string_bytes "node_id") (colon :: quoted (string_bytes "n1")
      (comma :: quoted (string_bytes "raft_addr") (colon :: quoted (string_bytes "127.0.0.1:50051")
        (comma :: quoted (string_bytes "grpc_addr") (colon :: quoted (string_bytes "\u003c\u003e") [rbrace]))))).
Proof. vm_compute. reflexivity. Qed.

(** A string field: null leaves it as it is. *)
Definition store_string (old : string) (v : json) : string * option error :=
  match v with
  | JStr s => (bytes_string s, None)
  | JNull => (old, None)
  | _ => (old, Some typeError)
  end.

Fixpoint store_meta (m : NodeMeta) (l : list (bytes * json)) : NodeMeta * option error :=
  match l with
  | [] => (m, None)
  | (k, v) :: l =>
      let '(m', e) :=
        if names "node_id" k then
          let '(x, e) := store_string (NodeID m) v in (MkMeta x (RaftAddr m) (GRPCAddr m), e)
        else if names "raft_addr" k then
          let '(x, e) := store_string (RaftAddr m) v in (MkMeta (NodeID m) x (GRPCAddr m), e)
        else if names "grpc_addr" k then
          let '(x, e) := store_string (GRPCAddr m) v in (MkMeta (NodeID m) (RaftAddr m) x, e)
        else (m, None) in
      let '(r, e') := store_meta m' l in (r, first_err e e')
  end.

Definition Unmarshal_NodeMeta : bytes → res NodeMeta := unmarshal (MkMeta "" "" "") store_meta.

(** ** The gossip state *)

(** A call of [onJoin] or of [onLeave]. *)
Inductive callback := Joined (m : NodeMeta) | Left (m : NodeMeta).

(** [onJoin] and [onLeave] tell whether the callbacks have been set, [called]
    lists the calls made of them. *)
Record Gossip := MkGossip {
  localMeta : NodeMeta;
  nodes : gmap string NodeMeta;
  onJoin : bool;
  onLeave : bool;
  called : list callback;
}.

Definition set_nodes (g : Gossip) (n : gmap string NodeMeta) : Gossip :=
  MkGossip (localMeta g) n (onJoin g) (onLeave g) (called g).
Definition call_back (c : callback) (g : Gossip) : Gossip :=
  MkGossip (localMeta g) (nodes g) (onJoin g) (onLeave g) (called g ++ [c]).

(** The configuration, and the part of memberlist's that is set from it. *)
Record Config := MkGossipConfig {
  BindAddr : string;
  BindPort : Z;
  AdvertiseAddr : string;
  AdvertisePort : Z;
  Seeds : list string;
  cfg_NodeMeta : NodeMeta;
}.

Record MLConfig := MkMLConfig {
  ml_Name : string;
  ml_BindAddr : string;
  ml_BindPort : Z;
  ml_AdvertiseAddr : string;
  ml_AdvertisePort : Z;
}.

(** [lan] is [memberlist.DefaultLANConfig()]. *)
Definition memberlist_config (lan : MLConfig) (cfg : Config) : MLConfig :=
  MkMLConfig (NodeID (cfg_NodeMeta cfg)) (BindAddr cfg) (BindPort cfg)
    (if decide (AdvertiseAddr cfg = "") then ml_AdvertiseAddr lan else AdvertiseAddr cfg)
    (if decide (AdvertisePort cfg > 0) then AdvertisePort cfg else ml_AdvertisePort lan).

(** What [New] puts together before the memberlist starts. *)
Definition New (cfg : Config) : Gossip :=
  MkGossip (cfg_NodeMeta cfg) {[NodeID (cfg_NodeMeta cfg) := cfg_NodeMeta cfg]} false false [].

Definition OnJoin (g : Gossip) : Gossip :=
  MkGossip (localMeta g) (nodes g) true (onLeave g) (called g).
Definition OnLeave (g : Gossip) : Gossip :=
  MkGossip (localMeta g) (nodes g) (onJoin g) true (called g).

(** [nodeDelegate.NodeMeta]: what the node gossips; the limit is not looked at. *)
Definition delegate_NodeMeta (g : Gossip) (limit : Z) : bytes := Marshal_NodeMeta (localMeta g).

Definition NotifyJoin (meta : bytes) (g : Gossip) : Gossip :=
  if decide (len meta = 0) then g
  else match Unmarshal_NodeMeta meta with
       | Ok m =>
           let g := set_nodes g (<[NodeID m := m]> (nodes g)) in
           if onJoin g then call_back (Joined m) g else g
       | _ => g
       end.

Definition NotifyLeave (meta : bytes) (g : Gossip) : Gossip :=
  if decide (len meta = 0) then g
  else match Unmarshal_NodeMeta meta with
       | Ok m =>
           let g := set_nodes g (delete (NodeID m) (nodes g)) in
           if onLeave g then call_back (Left m) g else g
       | _ => g
       end.

Definition NotifyUpdate (meta : bytes) (g : Gossip) : Gossip := NotifyJoin meta g.

Definition Gossip_GetGRPCAddr (g : Gossip) (nodeID : string) : option string :=
  match nodes g !! nodeID with
  | None => None
  | Some meta => Some (GRPCAddr meta)
  end.

(** Go's iteration order is not fixed: the list is up to permutation. *)
Definition GetAllNodes (g : Gossip) : list NodeMeta := (map_to_list (nodes g)).*2.

(** [attempt i] is the outcome of the [i]-th [Join] of the seeds; the result is
    whether one succeeded and how many there were. *)
Definition join_seeds (seeds : list string) (attempt : nat → option error) : bool * nat :=
  if decide (len seeds > 0) then retry attempt 0 5 else (false, 0%nat).

(** ** Resolvers *)

Class AddressResolver (T : Type) := {
  GetGRPCAddr : T → string → option string;
  SetGRPCAddr : string → string → T → T;
  RemoveAddr : string → T → T;
}.

Record StaticResolver := MkStatic { addrs : gmap string string }.

(** The initial mappings are copied. *)
Definition NewStaticResolver (initial : list (string * string)) : StaticResolver :=
  MkStatic (foldl (λ m '(k, v), <[k := v]> m) ∅ initial).

#[export] Instance static_resolver : AddressResolver StaticResolver := {|
  GetGRPCAddr r nodeID := addrs r !! nodeID;
  SetGRPCAddr nodeID grpcAddr r := MkStatic (<[nodeID := grpcAddr]> (addrs r));
  RemoveAddr nodeID r := MkStatic (delete nodeID (addrs r));
|}.

(** The gossip resolver wraps anything that knows addresses, the gossip state in
    practice; setting and removing do nothing. *)
Class GRPCAddrGetter (T : Type) := { getter_GetGRPCAddr : T → string → option string }.

#[export] Instance gossip_getter : GRPCAddrGetter Gossip := {| getter_GetGRPCAddr := Gossip_GetGRPCAddr |}.

Record GossipResolver (T : Type) := MkGossipResolver { getter : T }.
Arguments MkGossipResolver {T}.
Arguments getter {T}.

Definition NewGossipResolver {T} (g : T) : GossipResolver T := MkGossipResolver g.

#[export] Instance gossip_resolver {T} `{!GRPCAddrGetter T} : AddressResolver (GossipResolver T) := {|
  GetGRPCAddr r nodeID := getter_GetGRPCAddr (getter r) nodeID;
  SetGRPCAddr _ _ r := r;
  RemoveAddr _ r := r;
|}.

(** ** The metadata survives the trip *)

(** A string with every byte that is no UTF-8 replaced, as the trip does. *)
Fixpoint sanitize (l : bytes) : bytes :=
  match l with
  | [] => []
  | c :: l1 =>
    if decide (byte_val c < 0x80) then c :: sanitize l1
    else
      match l1 with
      | b1 :: l2 =>
        if decide (utf8_two c b1) then c :: b1 :: sanitize l2
        else match l2 with
        | b2 :: l3 =>
          if decide (utf8_three c b1 ∧ cont b2) then c :: b1 :: b2 :: sanitize l3
          else match l3 with
          | b3 :: l4 =>
            if decide (utf8_four c b1 ∧ cont b2 ∧ cont b3) then c :: b1 :: b2 :: b3 :: sanitize l4
            else replacement ++ sanitize l1
          | [] => replacement ++ sanitize l1
          end
        | [] => replacement ++ sanitize l1
        end
      | [] => replacement ++ sanitize l1
      end
  end.

(** An ASCII character, escaped or not, is read back. *)
Lemma parse_str_ascii c k :
  byte_val c < 0x80 → parse_str (ascii_escape c ++ k) = prepend [c] (parse_str k).
Proof. intros H. destruct c; first [reflexivity | by exfalso; vm_compute in H]. Qed.

Lemma parse_str_fffd k : parse_str (u_fffd ++ k) = prepend replacement (parse_str k).
Proof. reflexivity. Qed.

(** The line and paragraph separators, which are escaped too. *)
Lemma parse_str_202 x k :
  x = 0xA8 ∨ x = 0xA9 →
  parse_str (u_202 (x - 0xA0) ++ k) =
    prepend [byte_of_Z 0xE2; byte_of_Z 0x80; byte_of_Z x] (parse_str k).
Proof. by intros [-> | ->]. Qed.

(** The first byte of a character of several bytes. *)
Lemma parse_str_multi c l1 :
  0x80 ≤ byte_val c →
  parse_str (c :: l1) =
    match l1 with
    | b1 :: l2 =>
      if decide (utf8_two c b1) then prepend [c; b1] (parse_str l2)
      else match l2 with
      | b2 :: l3 =>
        if decide (utf8_three c b1 ∧ cont b2) then prepend [c; b1; b2] (parse_str l3)
        else match l3 with
        | b3 :: l4 =>
          if decide (utf8_four c b1 ∧ cont b2 ∧ cont b3) then prepend [c; b1; b2; b3] (parse_str l4)
          else prepend replacement (parse_str l1)
        | [] => prepend replacement (parse_str l1)
        end
      | [] => prepend replacement (parse_str l1)
      end
    | [] => prepend replacement (parse_str l1)
    end.
Proof.
  intros H. cbn [parse_str]. cbv zeta. rewrite (decide_False (P := byte_val c = 34)) by lia.
  rewrite (decide_False (P := byte_val c < 32)) by lia.
  rewrite (decide_False (P := byte_val c = 92)) by lia.
  rewrite (decide_False (P := byte_val c < 0x80)) by lia. done.
Qed.

(** The step of the induction below: a character was read, the rest follows. *)
Lemma prepend_some p s rest : prepend p (Some (s, rest)) = Some (p ++ s, rest).
Proof. done. Qed.

(** Reading a string that was written gives it back, sanitized. *)
Lemma parse_str_encode l rest : parse_str (encode_string l ++ quote :: rest) = Some (sanitize l, rest).
Proof.
  induction l as [l IH] using (induction_ltof1 _ (@length byte)). unfold ltof in IH.
  destruct l as [|c l1]; [done|]. cbn [encode_string sanitize].
  destruct (decide (byte_val c < 0x80)) as [Hc|Hc].
  { rewrite <-(assoc_L (++)), parse_str_ascii by done. by rewrite (IH l1) by (simpl; lia). }
  assert (Hbad : parse_str ((u_fffd ++ encode_string l1) ++ quote :: rest) =
                 Some (replacement ++ sanitize l1, rest)).
  { rewrite <-(assoc_L (++)), parse_str_fffd. by rewrite (IH l1) by (simpl; lia). }
  destruct l1 as [|b1 l2]; [done|].
  destruct (decide (utf8_two c b1)) as [H2|H2].
  { cbn [app]. rewrite parse_str_multi, decide_True by (done || lia). by rewrite (IH l2) by (simpl; lia). }
  destruct l2 as [|b2 l3]; [done|].
  destruct (decide (utf8_three c b1 ∧ cont b2)) as [H3|H3].
  { rewrite <-(assoc_L (++)). case_decide as Hs.
    - destruct Hs as (E1 & E2 & E3).
      rewrite parse_str_202, (IH l3) by (done || (simpl; lia)).
      by rewrite prepend_some, <-E1, <-E2, !byte_of_val.
    - cbn [app]. rewrite parse_str_multi, decide_False, decide_True by (done || lia).
      by rewrite (IH l3) by (simpl; lia). }
  destruct l3 as [|b3 l4]; [done|].
  destruct (decide (utf8_four c b1 ∧ cont b2 ∧ cont b3)) as [H4|H4]; [|done].
  cbn [app]. rewrite parse_str_multi, decide_False, decide_False, decide_True by (done || lia).
  by rewrite (IH l4) by (simpl; lia).
Qed.

Lemma value_encoded f d s rest :
  value (S f) d (quoted (encode_string s) rest) = Some (JStr (sanitize s), rest).
Proof.
  unfold quoted. cbn [value skip_ws]. change (is_space quote) with false. cbv iota.
  change (char_is 123 quote) with false. change (char_is 91 quote) with false.
  change (char_is 34 quote) with true. cbv iota. by rewrite parse_str_encode.
Qed.

(** The object of three members that [Marshal_NodeMeta] writes. *)
Lemma parse_object3 k1 k2 k3 s1 s2 s3 :
  Forall plain k1 → Forall plain k2 → Forall plain k3 →
  parse (lbrace :: quoted k1 (colon :: quoted (encode_string s1)
    (comma :: quoted k2 (colon :: quoted (encode_string s2)
      (comma :: quoted k3 (colon :: quoted (encode_string s3) [rbrace])))))) =
    Some (JObj [(k1, JStr (sanitize s1)); (k2, JStr (sanitize s2)); (k3, JStr (sanitize s3))]).
Proof.
  intros H1 H2 H3. unfold parse.
  set (l := lbrace :: _). assert (8 ≤ length l)%nat as Hl.
  { subst l. unfold quoted. simpl. rewrite !length_app. simpl. rewrite !length_app. simpl.
    rewrite !length_app. simpl. lia. }
  assert (∃ f, S (2 * length l) = S (S (S (S (S (S f)))))) as [f ->]
    by (exists (2 * length l - 5)%nat; lia).
  subst l. rewrite value_object, members_quoted, value_encoded by done. cbn [skip_ws].
  change (is_space comma) with false. change (char_is 125 comma) with false.
  change (char_is 44 comma) with true. cbv iota.
  rewrite members_quoted, value_encoded by done. cbn [skip_ws].
  change (is_space comma) with false. change (char_is 125 comma) with false.
  change (char_is 44 comma) with true. cbv iota.
  rewrite members_quoted, value_encoded by done. cbn. done.
Qed.

Definition sanitize_string (s : string) : string := bytes_string (sanitize (string_bytes s)).

Lemma Unmarshal_Marshal_NodeMeta m :
  Unmarshal_NodeMeta (Marshal_NodeMeta m) =
    Ok (MkMeta (sanitize_string (NodeID m)) (sanitize_string (RaftAddr m)) (sanitize_string (GRPCAddr m))).
Proof.
  unfold Unmarshal_NodeMeta, unmarshal, Marshal_NodeMeta.
  rewrite parse_object3 by (apply plain_string; vm_compute; reflexivity). reflexivity.
Qed.

(** ASCII strings are valid. *)
Lemma sanitize_ascii s :
  forallb (λ b, bool_decide (byte_val b < 0x80)) (string_bytes s) = true → sanitize_string s = s.
Proof.
  intros H. unfold sanitize_string. rewrite <-(bytes_string_bytes s) at 2. f_equal.
  induction (string_bytes s) as [|b l IH]; [done|]. simpl in *.
  apply andb_true_iff in H as [Hb%bool_decide_eq_true H]. rewrite decide_True by done.
  by rewrite IH.
Qed.

(** ** The view of the cluster *)

(** The events of the memberlist, with the metadata of the node they are about. *)
Inductive event := NodeJoin (meta : bytes) | NodeLeave (meta : bytes) | NodeUpdate (meta : bytes).

Definition notify (g : Gossip) (ev : event) : Gossip :=
  match ev with
  | NodeJoin meta => NotifyJoin meta g
  | NodeLeave meta => NotifyLeave meta g
  | NodeUpdate meta => NotifyUpdate meta g
  end.

Definition notify_all (g : Gossip) (evs : list event) : Gossip := foldl notify g evs.

(** What an event says about the node [id]: nothing, that it is there with this
    metadata, or that it is gone. *)
Definition says (id : string) (ev : event) : option (option NodeMeta) :=
  let '(meta, present) := match ev with
                          | NodeJoin b | NodeUpdate b => (b, true)
                          | NodeLeave b => (b, false)
                          end in
  match Unmarshal_NodeMeta meta with
  | Ok m => if decide (NodeID m = id) then Some (if present then Some m else None) else None
  | _ => None
  end.

(** The last event that says something about [id]. *)
Fixpoint last_word (id : string) (before : option NodeMeta) (evs : list event) : option NodeMeta :=
  match evs with
  | [] => before
  | ev :: evs => last_word id (default before (says id ev)) evs
  end.

(** A callback does not touch the map. *)
Lemma nodes_call_if (b : bool) c g : nodes (if b then call_back c g else g) = nodes g.
Proof. by destruct b. Qed.

Lemma notify_lookup g ev id :
  nodes (notify g ev) !! id = default (nodes g !! id) (says id ev).
Proof.
  assert (∀ b, len b = 0 → Unmarshal_NodeMeta b = Err syntaxError) as Hnil.
  { intros [|x b]; [done|]. rewrite len_cons. pose proof (len_nonneg b). lia. }
  unfold says, notify, NotifyUpdate, NotifyJoin, NotifyLeave.
  destruct ev as [b|b|b]; (destruct (decide (len b = 0)) as [Hb|_]; [by rewrite (Hnil b Hb)|]);
    destruct (Unmarshal_NodeMeta b) as [m|?|?|]; try done; simpl;
    rewrite ?nodes_call_if; simpl; destruct (decide (NodeID m = id)) as [->|Hne]; simpl;
    by rewrite ?lookup_insert_eq, ?lookup_delete_eq, ?lookup_insert_ne, ?lookup_delete_ne by done.
Qed.

Lemma notify_all_lookup g evs id :
  nodes (notify_all g evs) !! id = last_word id (nodes g !! id) evs.
Proof.
  unfold notify_all. revert g. induction evs as [|ev evs IH]; intros g; [done|]. simpl.
  by rewrite IH, notify_lookup.
Qed.

(** Nobody announces the ID. *)
Lemma last_word_silent id before evs :
  Forall (λ ev, says id ev = None) evs → last_word id before evs = before.
Proof. intros H. revert before. induction H as [|ev evs Hev _ IH]; intros before; simpl; [done|]. by rewrite Hev. Qed.

Lemma says_announced id m :
  says id (NodeJoin (Marshal_NodeMeta m)) =
    if decide (sanitize_string (NodeID m) = id)
    then Some (Some (MkMeta (sanitize_string (NodeID m)) (sanitize_string (RaftAddr m)) (sanitize_string (GRPCAddr m))))
    else None.
Proof. unfold says. by rewrite Unmarshal_Marshal_NodeMeta. Qed.

(** C26: The map follows the events. After any sequence of join, leave and update
    events, including ones whose metadata is empty or no JSON, the resolver knows
    the gRPC address of a node exactly when the last event that says something
    about that node ID says that it is there, and then it is the address of that
    event; an ID that no event mentions keeps its entry. *)
Theorem gossip_view g evs id :
  nodes (notify_all g evs) !! id = last_word id (nodes g !! id) evs ∧
  GetGRPCAddr (NewGossipResolver (notify_all g evs)) id =
    GRPCAddr <$> last_word id (nodes g !! id) evs.
Proof.
  split; [apply notify_all_lookup|]. simpl. unfold Gossip_GetGRPCAddr. rewrite notify_all_lookup. by destruct (last_word _ _ _).
Qed.

(** C28: A node learns the addresses that another one announces. What
    [delegate_NodeMeta] of one node sends, [NotifyJoin] of another stores: the
    gRPC address is found under the node ID, both with every byte that is not
    UTF-8 replaced (the JSON encoder does that); an announced node that leaves is
    forgotten again. *)
Theorem announced_address_is_found sender receiver limit :
  let meta := delegate_NodeMeta sender limit in
  let id := sanitize_string (NodeID (localMeta sender)) in
  Gossip_GetGRPCAddr (NotifyJoin meta receiver) id =
    Some (sanitize_string (GRPCAddr (localMeta sender))) ∧
  Gossip_GetGRPCAddr (NotifyLeave meta (NotifyJoin meta receiver)) id = None.
Proof.
  intros meta id. subst meta id. unfold NotifyLeave, NotifyJoin, delegate_NodeMeta, Gossip_GetGRPCAddr.
  set (m := localMeta sender).
  assert (len (Marshal_NodeMeta m) ≠ 0) as Hl.
  { unfold Marshal_NodeMeta. rewrite len_cons.
    match goal with |- 1 + len ?l ≠ 0 => pose proof (len_nonneg l) end. lia. }
  rewrite !decide_False by done. rewrite Unmarshal_Marshal_NodeMeta.
  destruct receiver as [lm ns [] [] cs]; simpl; by rewrite lookup_insert_eq, lookup_delete_eq.
Qed.

(** *** The callbacks *)

(** What an event reports, when the callbacks are set. *)
Definition reports (ev : event) : option callback :=
  match ev with
  | NodeJoin b | NodeUpdate b =>
      match Unmarshal_NodeMeta b with Ok m => Some (Joined m) | _ => None end
  | NodeLeave b => match Unmarshal_NodeMeta b with Ok m => Some (Left m) | _ => None end
  end.

(** What a listener that replays the calls makes of a map. *)
Definition replay_call (n : gmap string NodeMeta) (c : callback) : gmap string NodeMeta :=
  match c with Joined m => <[NodeID m := m]> n | Left m => delete (NodeID m) n end.

Lemma notify_reports g ev :
  nodes (notify g ev) = from_option (replay_call (nodes g)) (nodes g) (reports ev) ∧
  onJoin (notify g ev) = onJoin g ∧ onLeave (notify g ev) = onLeave g ∧
  (onJoin g = true → onLeave g = true → called (notify g ev) = called g ++ option_list (reports ev)) ∧
  (onJoin g = false → onLeave g = false → called (notify g ev) = called g).
Proof.
  assert (∀ b, len b = 0 → Unmarshal_NodeMeta b = Err syntaxError) as Hnil.
  { intros [|x b]; [done|]. rewrite len_cons. pose proof (len_nonneg b). lia. }
  unfold notify, reports, NotifyUpdate, NotifyJoin, NotifyLeave.
  destruct ev as [b|b|b];
    (destruct (decide (len b = 0)) as [Hb|_]; [rewrite (Hnil b Hb); simpl; by rewrite app_nil_r|]);
    destruct (Unmarshal_NodeMeta b) as [m|?|?|]; simpl; rewrite ?app_nil_r; try done;
    destruct (onJoin g) eqn:E1, (onLeave g) eqn:E2; simpl; by rewrite ?E1, ?E2.
Qed.

Lemma notify_all_reports g evs :
  nodes (notify_all g evs) = foldl replay_call (nodes g) (omap reports evs) ∧
  onJoin (notify_all g evs) = onJoin g ∧ onLeave (notify_all g evs) = onLeave g ∧
  (onJoin g = true → onLeave g = true → called (notify_all g evs) = called g ++ omap reports evs) ∧
  (onJoin g = false → onLeave g = false → called (notify_all g evs) = called g).
Proof.
  unfold notify_all. revert g. induction evs as [|ev evs IH]; intros g.
  { simpl. by rewrite app_nil_r. }
  destruct (notify_reports g ev) as (N & J & L & C & C'). simpl.
  destruct (IH (notify g ev)) as (N2 & J2 & L2 & C2 & C2'). rewrite N2, J2, L2, N, J, L.
  split; [by destruct (reports ev)|]. do 2 (split; [done|]). split.
  - intros H1 H2. rewrite C2, C by congruence. destruct (reports ev); simpl; by rewrite <-(assoc_L (++)).
  - intros H1 H2. by rewrite C2', C' by congruence.
Qed.

(** C27: What the callbacks tell. [New] starts the memberlist and the engine sets
    the callbacks afterwards: events that come in before are in the map and are
    never reported, those that come later are all reported, in their order, and
    replaying the reports on top of the map as it was gives the map. *)
Theorem callbacks_follow_events cfg early late :
  let before := notify_all (New cfg) early in
  let after := notify_all (OnLeave (OnJoin before)) late in
  called after = omap reports late ∧
  nodes after = foldl replay_call (nodes before) (called after) ∧
  nodes before = foldl replay_call {[NodeID (cfg_NodeMeta cfg) := cfg_NodeMeta cfg]} (omap reports early).
Proof.
  intros before after. subst before after.
  destruct (notify_all_reports (New cfg) early) as (N & _ & _ & _ & C).
  destruct (notify_all_reports (OnLeave (OnJoin (notify_all (New cfg) early))) late) as (N2 & _ & _ & C2 & _).
  rewrite N2, C2 by done. cbn [OnLeave OnJoin called nodes]. by rewrite C, N.
Qed.

(** Joining the seeds is tried at most five times, and not again after a
    success; without seeds it is not tried at all. *)
Theorem join_seeds_outcome seeds attempt :
  match join_seeds seeds attempt with
  | (true, n) => seeds ≠ [] ∧ (1 ≤ n ≤ 5)%nat ∧ attempt (n - 1)%nat = None ∧
                 ∀ k, (k < n - 1)%nat → attempt k ≠ None
  | (false, n) => seeds = [] ∧ n = 0%nat ∨
                  seeds ≠ [] ∧ n = 5%nat ∧ ∀ k, (k < 5)%nat → attempt k ≠ None
  end.
Proof.
  unfold join_seeds. destruct seeds as [|s seeds]; [by left|].
  rewrite decide_True by (rewrite len_cons; pose proof (len_nonneg seeds); lia).
  pose proof (retry_spec attempt 5 0) as H. destruct (retry attempt 0 5) as [[] n].
  - destruct H as (j & -> & ? & ? & Hk). simpl. rewrite Nat.sub_0_r.
    split_and!; [done|lia|lia|done|]. intros k ?. apply Hk. lia.
  - destruct H as (-> & Hk). right. split_and!; [done..|]. intros k ?. apply Hk. lia.
Qed.
