(* ===== verification/Service.v ===== *)
(** * Service.v: service/service.go, the RPC handlers.

    A handler runs on the leader or forwards the request to it: it asks the node
    who leads, resolves the leader's gRPC address and calls it over a cached
    connection. The handlers are written against two interfaces: [KV], the
    operations of the node (Kv.v implements it), and [AddressResolver] (Gossip.v).
    The gRPC library is the class [Grpc]. *)
From S2P Require Import Prelude Binary Paths Pebble FileSystem DataDir Snapshot Json Store Fsm History Leader Kv Gossip.

(** ** Messages *)

Inductive request := AddRequest (key val : string) | GetRequest (key : string) (linearizable : bool).

Inductive response := AddResponse (commitIndex : Z) | GetResponse (readAtIndex : Z) (value : string).

(** The message type of a response. *)
Definition type_name (r : response) : string :=
  match r with AddResponse _ => "AddResponse" | GetResponse _ _ => "GetResponse" end.

(** The methods of the service descriptor, with their output types. *)
Definition methods : list (string * string) :=
  [("Add", "AddResponse"); ("Get", "GetResponse"); ("Stat", "StatResponse"); ("Watch", "WatchResponse")].

Definition ByName (name : string) : option (string * string) :=
  list_find (λ m, m.1 = name) methods ≫= λ x, Some x.2.

Definition protoTypes : list string :=
  ["AddRequest"; "AddResponse"; "GetRequest"; "GetResponse"; "WatchRequest"; "WatchResponse"].

(** A new message of the type, if it is one of the list. *)
Definition messageFromDescriptor {S} (d : string) : GoM S string :=
  if decide (d ∈ protoTypes) then go_ret d
  else go_panic "unknown type; please add it to protoTypes".

(** ** Connections *)

Inductive ConnState := Idle | Connecting | Ready | TransientFailure | Shutdown.

#[global] Instance ConnState_eq_dec : EqDecision ConnState.
Proof. solve_decision. Defined.

(** The cache, and the connections that were made: their address and state. *)
Record conns := MkConns {
  connCache : gmap string nat;
  conn_made : list (string * ConnState);
}.

Definition conn_state (c : conns) (n : nat) : ConnState :=
  match conn_made c !! n with Some (_, s) => s | None => Shutdown end.

Definition usable (s : ConnState) : bool :=
  match s with Idle | Connecting | Ready => true | _ => false end.

Definition conn_Close (n : nat) (c : conns) : conns :=
  MkConns (connCache c) (alter (λ x, (x.1, Shutdown)) n (conn_made c)).

(** [DialContext addr] does not wait for the connection: it fails or gives an
    idle one; the argument tells the attempts apart. [Invoke addr path req out]
    calls the method and decodes the answer into a message of type [out]. *)
Class Grpc := {
  DialContext : string → nat → option error;
  Invoke : string → string → request → string → response + error;
}.

Class GrpcLaws (R : Grpc) := {
  Invoke_type addr path req out r : Invoke addr path req out = inl r → type_name r = out;
}.

Section conns.
Context {R : Grpc}.

(** The look under the read lock. *)
Definition cached_conn (addr : string) (c : conns) : option nat :=
  match connCache c !! addr with
  | Some conn => if usable (conn_state c conn) then Some conn else None
  | None => None
  end.

(** Under the write lock: look again, drop a failed connection, dial. *)
Definition create_conn (addr : string) : GoM conns nat :=
  λ c, match cached_conn addr c with
       | Some conn => (Ok conn, c)
       | None =>
           let c := match connCache c !! addr with
                    | Some conn =>
                        let c := conn_Close conn c in
                        MkConns (delete addr (connCache c)) (conn_made c)
                    | None => c
                    end in
           match DialContext addr (length (conn_made c)) with
           | Some e => (Err e, c)
           | None =>
               let newConn := length (conn_made c) in
               (Ok newConn, MkConns (<[addr := newConn]> (connCache c)) (conn_made c ++ [(addr, Idle)]))
           end
       end.

(** [between] is what other goroutines and the library do between the locks. *)
Definition getOrCreateConn (between : conns → conns) (addr : string) : GoM conns nat :=
  λ c, match cached_conn addr c with
       | Some conn => (Ok conn, c)
       | None => create_conn addr (between c)
       end.

Definition CloseAllConns (c : conns) : conns :=
  MkConns ∅ (conn_made (foldr (λ kv c, conn_Close kv.2 c) c (map_to_list (connCache c)))).
End conns.

(** ** The interface of the node *)

Class KV (S : Type) := {
  KV_Apply : option Z → string → string → GoM S Z;
  KV_Query : bytes → bool → GoM S (Z * bytes);
  KV_GetLeader : S → bool * string * option error;
}.

(** What the node promises: it leads, or nobody does, or another one does. *)
Class KVLaws (S : Type) `{!KV S} := {
  KV_GetLeader_cases s :
    KV_GetLeader s = (true, "", None) ∨
    KV_GetLeader s = (false, "", Some ErrNoLeader) ∨
    (∃ leader, leader ≠ "" ∧ KV_GetLeader s = (false, leader, None));
}.

(** The engine's server; [o] is what a consistent read finds. *)
#[export] Instance server_KV {P : Pebble} {R : Raft} (o : observation) : KV raftServer := {|
  KV_Apply := kv_Apply;
  KV_Query key consistent := kv_Query key consistent o;
  KV_GetLeader := GetLeader;
|}.

Lemma server_KV_laws {P : Pebble} {R : Raft} (o : observation) : KVLaws raftServer (KV0 := server_KV o).
Proof.
  split. intros s. simpl. unfold GetLeader. destruct (IsLeader s); [by left|].
  destruct (raft_LeaderWithID (rs_raft s)) as [leader id]. case_decide; [by right; left|].
  right; right. eauto.
Qed.

(** ** The handlers *)

Section service.
Context {S T : Type} `{!KV S, !AddressResolver T} {R : Grpc}.
(** [strcase.ToCamel]. *)
Context (ToCamel : string → string).

Record GRPCService := MkService { sv_kv : S; sv_resolver : T; sv_conns : conns }.

(** The connection cache belongs to the package. *)
Definition NewGrpcServiceWithResolver (kv : S) (r : T) (c : conns) : GRPCService := MkService kv r c.

Definition on_kv {A} (m : GoM S A) : GoM GRPCService A :=
  λ s, let '(r, k) := m (sv_kv s) in (r, MkService k (sv_resolver s) (sv_conns s)).
Definition on_conns {A} (m : GoM conns A) : GoM GRPCService A :=
  λ s, let '(r, c) := m (sv_conns s) in (r, MkService (sv_kv s) (sv_resolver s) c).

(** Whether the request was forwarded, the answer, the error. *)
Definition forwarded : Type := bool * option response * option error.

Definition forwardRequestToLeader (between : conns → conns) (method : string) (req : request) :
    GoM GRPCService forwarded :=
  let m := match ByName method with Some m => Some m | None => ByName (ToCamel method) end in
  match m with
  | None => go_ret (false, None, Some (Errorf "unknown command %q" [FStr method]))
  | Some (name, output) =>
      s <- go_get ;;
      let '(isLeader, leader, rpcErr) := KV_GetLeader (sv_kv s) in
      if isLeader : bool then go_ret (false, None, None)
      else match rpcErr with
      | Some e => go_ret (false, None, Some e)
      | None =>
          match GetGRPCAddr (sv_resolver s) leader with
          | None => go_ret (false, None, Some (Errorf "unknown leader gRPC address for raft addr %s" [FStr leader]))
          | Some grpcAddr =>
              go_try (on_conns (getOrCreateConn between grpcAddr)) (λ conn,
                match conn with
                | inr e => go_ret (false, None, Some e)
                | inl _ =>
                    out <- messageFromDescriptor output ;;
                    match Invoke grpcAddr ("/Example/" +:+ name) req out with
                    | inr e => go_ret (false, None, Some e)
                    | inl resp => go_ret (true, Some resp, None)
                    end
                end)
          end
      end
  end.

(** [until] is the time until the deadline of the request's context. *)
Definition Add (between : conns → conns) (until : option Z) (key val : string) : GoM GRPCService response :=
  '(done_, resp, err) <- forwardRequestToLeader between "Add" (AddRequest key val) ;;
  match err with
  | Some e => go_err e
  | None =>
      if done_ : bool then
        match resp with
        | Some (AddResponse i) => go_ret (AddResponse i)
        | _ => go_panic "interface conversion"
        end
      else
        index <- on_kv (KV_Apply until key val) ;;
        go_ret (AddResponse index)
  end.

(** The local part of [Get]. *)
Definition Get_local (key : string) (linearizable : bool) : GoM GRPCService response :=
  '(index, val) <- on_kv (KV_Query (string_bytes key) linearizable) ;;
  go_ret (GetResponse index (bytes_string val)).

(** An error of the forwarding comes with [done_ = false]. *)
Definition Get (between : conns → conns) (key : string) (linearizable : bool) : GoM GRPCService response :=
  if linearizable then
    '(done_, resp, err) <- forwardRequestToLeader between "Get" (GetRequest key linearizable) ;;
    if done_ : bool then
      match err, resp with
      | Some e, _ => go_err e
      | None, Some (GetResponse i v) => go_ret (GetResponse i v)
      | None, _ => go_panic "interface conversion"
      end
    else Get_local key linearizable
  else Get_local key linearizable.
End service.

(** ** The cache keeps track of every connection *)

(** A cached connection was made for the address it is cached under, and a
    connection that is not cached any more has been closed. *)
Record conns_ok (c : conns) : Prop := {
  cached_made a n : connCache c !! a = Some n → ∃ st, conn_made c !! n = Some (a, st);
  uncached_closed n a st : conn_made c !! n = Some (a, st) → connCache c !! a = Some n ∨ st = Shutdown;
}.

Section conns_ok.
Context {R : Grpc}.

(** Dropping the connection of an address. *)
Lemma drop_ok addr n c :
  conns_ok c → connCache c !! addr = Some n →
  conns_ok (MkConns (delete addr (connCache c)) (conn_made (conn_Close n c))) ∧
  conn_state (conn_Close n c) n = Shutdown.
Proof.
  intros [H1 H2] Hn. destruct (H1 _ _ Hn) as [st0 Hst0]. split; [split; simpl|].
  - intros a k (Hne & Hk)%lookup_delete_Some. destruct (H1 _ _ Hk) as [st Hst]. exists st.
    rewrite list_lookup_alter_ne; [done|]. intros ->. congruence.
  - intros k a st Hk. destruct (decide (k = n)) as [->|Hkn].
    + rewrite list_lookup_alter_eq, Hst0 in Hk. simpl in Hk. simplify_eq. by right.
    + rewrite list_lookup_alter_ne in Hk by done. destruct (H2 _ _ _ Hk) as [Hc|?]; [|by right].
      left. rewrite lookup_delete_ne; [done|]. intros ->. congruence.
  - unfold conn_state. simpl. by rewrite list_lookup_alter_eq, Hst0.
Qed.

Lemma dial_ok addr c :
  conns_ok c → connCache c !! addr = None →
  conns_ok (MkConns (<[addr := length (conn_made c)]> (connCache c)) (conn_made c ++ [(addr, Idle)])).
Proof.
  intros [H1 H2] Hn. split; simpl.
  - intros a k. destruct (decide (a = addr)) as [->|Ha].
    + rewrite lookup_insert_eq. intros [= <-]. exists Idle.
      by rewrite lookup_app_r, Nat.sub_diag by lia.
    + rewrite lookup_insert_ne by done. intros Hk. destruct (H1 _ _ Hk) as [st Hst].
      exists st. by apply lookup_app_l_Some.
  - intros k a st [Hk|[Hle Hk]]%lookup_app_Some.
    + destruct (H2 _ _ _ Hk) as [Hc|?]; [left|by right]. rewrite lookup_insert_ne; [done|]. intros ->. congruence.
    + destruct (k - length (conn_made c))%nat as [|j] eqn:E; [|done]. simpl in Hk. simplify_eq.
      left. rewrite lookup_insert_eq. f_equal. lia.
Qed.

Lemma cached_conn_Some addr c n :
  cached_conn addr c = Some n → connCache c !! addr = Some n ∧ usable (conn_state c n) = true.
Proof.
  unfold cached_conn. destruct (connCache c !! addr) as [k|]; [|done].
  destruct (usable (conn_state c k)) eqn:E; naive_solver.
Qed.

Lemma create_conn_ok addr c : conns_ok c → conns_ok (create_conn addr c).2.
Proof.
  intros Hc. unfold create_conn. destruct (cached_conn addr c); [done|].
  destruct (connCache c !! addr) as [n|] eqn:E; cbn zeta.
  - destruct (drop_ok addr n c Hc E) as [Hd _]. destruct (DialContext _ _); [exact Hd|].
    apply (dial_ok addr _ Hd). simpl. apply lookup_delete_eq.
  - destruct (DialContext _ _); [done|]. by apply dial_ok.
Qed.

(** C18: [getOrCreateConn] under concurrency. Whatever other goroutines and the
    library do between the two locks, as long as they keep the cache consistent,
    the call gives the connection that is cached for the address at the end,
    made for that address and not failed when it was looked at, or the error of
    the dial, and then nothing is cached for the address. The cache is consistent
    afterwards (so a failed connection that was replaced has been closed) and the
    entries of the other addresses are as the other goroutines left them. *)
Theorem getOrCreateConn_spec between addr c :
  conns_ok c → conns_ok (between c) →
  match getOrCreateConn between addr c with
  | (Ok n, c') =>
      conns_ok c' ∧ connCache c' !! addr = Some n ∧ usable (conn_state c' n) = true ∧
      (∃ st, conn_made c' !! n = Some (addr, st)) ∧
      (c' = c ∨ ∀ a, a ≠ addr → connCache c' !! a = connCache (between c) !! a)
  | (Err e, c') =>
      conns_ok c' ∧ connCache c' !! addr = None ∧ (∃ k, DialContext addr k = Some e) ∧
      ∀ a, a ≠ addr → connCache c' !! a = connCache (between c) !! a
  | _ => False
  end.
Proof.
  intros Hc Hb. unfold getOrCreateConn. destruct (cached_conn addr c) as [n|] eqn:E1.
  { apply cached_conn_Some in E1 as [H1 H2]. split_and!; auto. by apply cached_made. }
  unfold create_conn. destruct (cached_conn addr (between c)) as [n|] eqn:E2.
  { apply cached_conn_Some in E2 as [H1 H2]. split_and!; auto. by apply cached_made. }
  set (c1 := match connCache (between c) !! addr with Some _ => _ | None => _ end).
  assert (conns_ok c1 ∧ connCache c1 !! addr = None ∧
          ∀ a, a ≠ addr → connCache c1 !! a = connCache (between c) !! a) as (Hc1 & Hn1 & Ho1).
  { subst c1. destruct (connCache (between c) !! addr) as [n|] eqn:En; [|done].
    destruct (drop_ok addr n _ Hb En) as [? _]. simpl in *. split_and!; [done|apply lookup_delete_eq|].
    intros a Ha. by rewrite lookup_delete_ne. }
  destruct (DialContext addr (length (conn_made c1))) as [e|] eqn:Ed; [by eauto|].
  pose proof (dial_ok addr c1 Hc1 Hn1) as Hd. simpl in *.
  assert ((conn_made c1 ++ [(addr, Idle)]) !! length (conn_made c1) = Some (addr, Idle)) as Hl
    by by rewrite lookup_app_r, Nat.sub_diag by lia.
  split_and!; [done|apply lookup_insert_eq|unfold conn_state; simpl; by rewrite Hl|by eauto|].
  right. intros a Ha. rewrite lookup_insert_ne by done. by apply Ho1.
Qed.

(** Closing a list of connections. *)
Lemma close_list l c n a st :
  conn_made (foldr (λ (kv : string * nat) c, conn_Close kv.2 c) c l) !! n = Some (a, st) →
  ∃ st0, conn_made c !! n = Some (a, st0) ∧ (st = Shutdown ∨ st = st0 ∧ n ∉ l.*2).
Proof.
  revert st. induction l as [|[k m] l IH]; intros st; simpl.
  { intros H. exists st. split; [done|]. right. split; [done|apply not_elem_of_nil]. }
  destruct (decide (n = m)) as [->|Hne].
  - rewrite list_lookup_alter_eq. intros ([a' st'] & Hx & [= -> <-])%fmap_Some.
    destruct (IH _ Hx) as (st0 & ? & _). eauto.
  - rewrite list_lookup_alter_ne by done. intros H. destruct (IH _ H) as (st0 & ? & [?|[? ?]]); [by eauto|].
    exists st0. split; [done|]. right. split; [done|]. by apply not_elem_of_cons.
Qed.

Lemma close_list_made l c n a st :
  conn_made c !! n = Some (a, st) →
  ∃ st', conn_made (foldr (λ (kv : string * nat) c, conn_Close kv.2 c) c l) !! n = Some (a, st').
Proof.
  intros H. induction l as [|[k j] l [st' IH]]; simpl; [by eauto|].
  destruct (decide (n = j)) as [->|Hne].
  - rewrite list_lookup_alter_eq, IH. by eauto.
  - rewrite list_lookup_alter_ne by done. by eauto.
Qed.

Lemma CloseAllConns_all c n a st :
  conns_ok c → conn_made (CloseAllConns c) !! n = Some (a, st) → st = Shutdown.
Proof.
  intros Hc H. apply close_list in H as (st0 & H & [?|[-> Hn]]); [done|].
  destruct (uncached_closed c Hc _ _ _ H) as [Hin|?]; [|done]. destruct Hn.
  apply list_elem_of_fmap. exists (a, n). split; [done|]. by apply elem_of_map_to_list.
Qed.

(** [CloseAllConns] leaves nothing open. When the cache is consistent, every
    connection that was ever made is shut down afterwards, and the cache is empty
    and consistent. *)
Theorem CloseAllConns_closes c :
  conns_ok c →
  connCache (CloseAllConns c) = ∅ ∧ conns_ok (CloseAllConns c) ∧
  ∀ n a st, conn_made (CloseAllConns c) !! n = Some (a, st) → st = Shutdown.
Proof.
  intros Hc. split; [done|].
  split; [split; simpl; [done|]|]; intros; [right|]; by eapply CloseAllConns_all.
Qed.
End conns_ok.

(** ** The handlers *)

Section handlers.
Context {S T : Type} `{!KV S, !KVLaws S, !AddressResolver T} {R : Grpc} `{!GrpcLaws R}.
Context (ToCamel : string → string).

Lemma getOrCreateConn_cases between addr c :
  (∃ n c', getOrCreateConn between addr c = (Ok n, c')) ∨
  (∃ e c', getOrCreateConn between addr c = (Err e, c')).
Proof.
  unfold getOrCreateConn, create_conn. destruct (cached_conn addr c); [by eauto|].
  destruct (cached_conn addr (between c)); [by eauto|]. destruct (DialContext _ _); eauto.
Qed.

(** What forwarding comes to; it never touches the node or the resolver. *)
Lemma forward_cases between method name output req (s : GRPCService (S := S) (T := T)) :
  ByName method = Some (name, output) → output ∈ protoTypes →
  ∃ s' fwd, forwardRequestToLeader ToCamel between method req s = (Ok fwd, s') ∧
    sv_kv s' = sv_kv s ∧ sv_resolver s' = sv_resolver s ∧
    match KV_GetLeader (sv_kv s) with
    | (true, _, _) => fwd = (false, None, None) ∧ s' = s
    | (false, _, Some e) => fwd = (false, None, Some e) ∧ s' = s
    | (false, leader, None) =>
        match GetGRPCAddr (sv_resolver s) leader with
        | None => fwd = (false, None, Some (Errorf "unknown leader gRPC address for raft addr %s" [FStr leader])) ∧ s' = s
        | Some addr =>
            (∃ e, fwd = (false, None, Some e)) ∨
            (∃ resp, Invoke addr ("/Example/" +:+ name) req output = inl resp ∧ type_name resp = output ∧
                     fwd = (true, Some resp, None))
        end
    end.
Proof.
  intros Hm Ho. unfold forwardRequestToLeader. rewrite Hm. erewrite go_bind_ok by reflexivity.
  destruct (KV_GetLeader (sv_kv s)) as [[[] leader] [e|]]; try by eexists _, _.
  destruct (GetGRPCAddr (sv_resolver s) leader) as [addr|]; [|by eexists _, _].
  unfold go_try, on_conns.
  destruct (getOrCreateConn_cases between addr (sv_conns s)) as [(n & c' & ->)|(e & c' & ->)].
  2:{ eexists _, _. split; [reflexivity|]. simpl. by eauto. }
  unfold messageFromDescriptor. rewrite decide_True by done. erewrite go_bind_ok by reflexivity.
  destruct (Invoke _ _ _ _) as [resp|e] eqn:E; (eexists _, _; split; [reflexivity|]); simpl;
    (do 2 (split; [done|])); [right|by eauto].
  exists resp. split; [done|]. split; [|done]. by eapply Invoke_type.
Qed.

(** C16: An insert is handled in one place. On the leader, [Add] proposes it to
    the local node and answers with its index or its error; on any other node it
    does not touch the local node: it answers with the index that the leader
    answered over the resolved address, or fails. It never panics there. *)
Theorem Add_outcome between until key val (s : GRPCService (S := S) (T := T)) :
  match KV_GetLeader (sv_kv s) with
  | (true, _, _) =>
      let '(r, k) := KV_Apply until key val (sv_kv s) in
      Add ToCamel between until key val s =
        (res_bind r (λ i, Ok (AddResponse i)), MkService k (sv_resolver s) (sv_conns s))
  | (false, leader, err) =>
      ∃ s', sv_kv s' = sv_kv s ∧
        ((∃ e, Add ToCamel between until key val s = (Err e, s')) ∨
         (∃ addr i, err = None ∧ GetGRPCAddr (sv_resolver s) leader = Some addr ∧
            Invoke addr "/Example/Add" (AddRequest key val) "AddResponse" = inl (AddResponse i) ∧
            Add ToCamel between until key val s = (Ok (AddResponse i), s')))
  end.
Proof.
  destruct (forward_cases between "Add" "Add" "AddResponse" (AddRequest key val) s) as (s' & fwd & Hf & Hk & _ & H);
    [reflexivity|set_solver|].
  assert (Hadd : Add ToCamel between until key val s =
    let '(done_, resp, err) := fwd in
    match err with
    | Some e => go_err e
    | None => if done_ : bool then match resp with Some (AddResponse i) => go_ret (AddResponse i)
                                   | _ => go_panic "interface conversion" end
              else index <- on_kv (KV_Apply until key val) ;; go_ret (AddResponse index)
    end s').
  { unfold Add. rewrite (go_bind_ok _ _ _ _ _ Hf). by destruct fwd as [[] ]. }
  destruct (KV_GetLeader (sv_kv s)) as [[[] leader] err].
  - destruct H as [-> ->]. destruct (KV_Apply until key val (sv_kv s)) as [r k] eqn:E.
    rewrite Hadd. unfold go_bind, on_kv. rewrite E. by destruct r.
  - exists s'. split; [done|]. destruct err as [e|]; [destruct H as [-> _]; by eauto|].
    destruct (GetGRPCAddr (sv_resolver s) leader) as [addr|]; [|destruct H as [-> _]; by eauto].
    destruct H as [[e ->]|(resp & Hi & Ht & ->)]; [by eauto|].
    right. destruct resp as [i|i v]; [|done]. exists addr, i. by rewrite Hadd.
Qed.


(** [Get] does not report why forwarding failed. The comment of
    [forwardRequestToLeader] lets the caller handle the request itself only when
    there is no error, and [Add] reports the error; but [Get] looks at the error
    only when the request was forwarded, which no error path says. So when nobody
    leads, or the leader's address is unknown, [Get] answers whatever the local
    consistent read gives and the error is lost. *)
Theorem Get_swallows_forwarding_error between until key val (s : GRPCService (S := S) (T := T)) e :
  (KV_GetLeader (sv_kv s) = (false, "", Some e) ∨
   ∃ leader, KV_GetLeader (sv_kv s) = (false, leader, None) ∧ GetGRPCAddr (sv_resolver s) leader = None ∧
             e = Errorf "unknown leader gRPC address for raft addr %s" [FStr leader]) →
  Add ToCamel between until key val s = (Err e, s) ∧
  Get ToCamel between key true s = Get_local key true s.
Proof.
  intros He. split.
  - destruct (forward_cases between "Add" "Add" "AddResponse" (AddRequest key val) s) as (s' & fwd & Hf & _ & _ & H);
      [reflexivity|set_solver|].
    assert (fwd = (false, None, Some e) ∧ s' = s) as [-> ->].
    { destruct He as [Hl|(leader & Hl & Hn & ->)]; rewrite Hl in H; [exact H|]. rewrite Hn in H. exact H. }
    unfold Add. by rewrite (go_bind_ok _ _ _ _ _ Hf).
  - destruct (forward_cases between "Get" "Get" "GetResponse" (GetRequest key true) s) as (s' & fwd & Hf & _ & _ & H);
      [reflexivity|set_solver|].
    assert (fwd = (false, None, Some e) ∧ s' = s) as [-> ->].
    { destruct He as [Hl|(leader & Hl & Hn & ->)]; rewrite Hl in H; [exact H|]. rewrite Hn in H. exact H. }
    unfold Get. by rewrite (go_bind_ok _ _ _ _ _ Hf).
Qed.
End handlers.

(** The service with the default static resolver. *)
Definition NewGrpcService {S : Type} (kv : S) (staticLookup : list (string * string)) (c : conns) :
    GRPCService (S := S) (T := StaticResolver) :=
  NewGrpcServiceWithResolver kv (NewStaticResolver staticLookup) c.

(** ** Forwarding with the gossip resolver *)

(** The state of a node that heard of the others by gossip. *)
Definition discovered (cfg : Config) (metas : list NodeMeta) : Gossip :=
  notify_all (New cfg) (map (λ m, NodeJoin (Marshal_NodeMeta m)) metas).

(** Forwarding does not work with gossip. The gossip map is keyed by node ID,
    but the handler looks the leader up by its raft address. So a follower that
    has heard of every node, the leader included, refuses every insert, unless
    the leader's raft address happens to be some node's ID. *)
Theorem gossip_forwarding_fails {S : Type} `{!KV S, !KVLaws S} {R : Grpc} `{!GrpcLaws R}
    ToCamel between until key val cfg metas leader (kv : S) c :
  leader ∈ metas →
  KV_GetLeader kv = (false, RaftAddr leader, None) →
  NodeID (cfg_NodeMeta cfg) ≠ RaftAddr leader →
  Forall (λ m, sanitize_string (NodeID m) ≠ RaftAddr leader) metas →
  let s := NewGrpcServiceWithResolver kv (NewGossipResolver (discovered cfg metas)) c in
  Add ToCamel between until key val s =
    (Err (Errorf "unknown leader gRPC address for raft addr %s" [FStr (RaftAddr leader)]), s).
Proof.
  intros _ Hl Hloc Hids s.
  assert (GetGRPCAddr (sv_resolver s) (RaftAddr leader) = None) as Hnone.
  { simpl. unfold Gossip_GetGRPCAddr, discovered. rewrite notify_all_lookup, last_word_silent.
    - simpl. by rewrite lookup_singleton_ne.
    - apply Forall_map. eapply Forall_impl; [exact Hids|]. intros m Hm. simpl.
      rewrite says_announced. by rewrite decide_False. }
  destruct (forward_cases ToCamel between "Add" "Add" "AddResponse" (AddRequest key val) s)
    as (s' & fwd & Hf & _ & _ & H); [reflexivity|set_solver|].
  simpl in H. rewrite Hl in H. simpl in Hnone. rewrite Hnone in H. destruct H as [-> ->].
  unfold Add. by rewrite (go_bind_ok _ _ _ _ _ Hf).
Qed.

(** ** Witnesses: a follower of a cluster of two *)

Definition leader_addr : string := "127.0.0.1:50051".

(** It knows the leader, and refuses to propose and to verify. *)
Definition Follower {P : Pebble} (leader : string) : Raft := {|
  raft_node := Z;
  raft_Apply := λ _ _ s, (inr ErrNotLeader, s);
  raft_VerifyLeader := λ p, (Some ErrNotLeader, p);
  raft_AppliedIndex := λ i, i;
  raft_State_Leader := λ _, false;
  raft_LeaderWithID := λ _, (leader, "node1");
  raft_GetConfiguration := λ i, (inl [], i);
  raft_log := λ _, [];
  raft_applied := λ _, 0%nat;
  raft_kept := λ _, 0%nat;
  raft_begun := λ _, false;
  raft_taken := λ _, None;
|}.

Definition follower_obs {P : Pebble} (leader : string) : observation (R := Follower leader) :=
  MkObs false rpcHoldTimeout [] id id.

Definition demo_follower (leader : string) : raftServer (P := Mem no_fault) (R := Follower leader) :=
  MkServer "node2" "127.0.0.1:50052" "/raft" 0 (7 : raft_node (Follower leader)) demo_fsm.

(** The library dials, and the leader answers with what was asked for. *)
Definition TypedRpc : Grpc := {|
  DialContext := λ _ _, None;
  Invoke := λ _ _ _ out,
    if decide (out = "AddResponse") then inl (AddResponse 8)
    else if decide (out = "GetResponse") then inl (GetResponse 8 "1")
    else inr (Errno 1);
|}.

Lemma typed_rpc_laws : GrpcLaws TypedRpc.
Proof. split. intros addr path req out r. simpl. repeat case_decide; naive_solver. Qed.

Definition demo_lookup : StaticResolver :=
  NewStaticResolver [("127.0.0.1:50051", "127.0.0.1:40051"); ("127.0.0.1:50052", "127.0.0.1:40052")].

Definition demo_service (leader : string) : GRPCService (S := raftServer) (T := StaticResolver) :=
  MkService (demo_follower leader) demo_lookup (MkConns ∅ []).

(** An insert that arrives at the follower is answered by the leader. *)
Lemma Add_outcome_witness :
  ∃ s' i, sv_kv s' = demo_follower leader_addr ∧
    Add (R := TypedRpc) (KV0 := server_KV (follower_obs leader_addr)) id id None "x" "1" (demo_service leader_addr) =
      (Ok (AddResponse i), s').
Proof.
  pose proof (Add_outcome (KV0 := server_KV (follower_obs leader_addr)) (KVLaws0 := server_KV_laws (follower_obs leader_addr))
    (GrpcLaws0 := typed_rpc_laws) id id None "x" "1" (demo_service leader_addr)) as H.
  destruct H as (s' & Hk & [[e He]|(addr & i & _ & _ & _ & H)]).
  - exfalso. apply (f_equal fst) in He. vm_compute in He. discriminate He.
  - exact (ex_intro _ s' (ex_intro _ i (conj Hk H))).
Defined.


(** Nobody leads. *)
Lemma Get_swallows_forwarding_error_witness :
  Add (R := TypedRpc) (KV0 := server_KV (follower_obs "")) id id None "x" "1" (demo_service "") =
    (Err ErrNoLeader, demo_service "") ∧
  Get (R := TypedRpc) (KV0 := server_KV (follower_obs "")) id id "x" true (demo_service "") =
    Get_local (KV0 := server_KV (follower_obs "")) "x" true (demo_service "").
Proof.
  apply (Get_swallows_forwarding_error (KV0 := server_KV (follower_obs "")) (KVLaws0 := server_KV_laws (follower_obs ""))
    (GrpcLaws0 := typed_rpc_laws)). left. reflexivity.
Defined.

Definition meta1 : NodeMeta := MkMeta "node1" leader_addr "127.0.0.1:40051".
Definition meta2 : NodeMeta := MkMeta "node2" "127.0.0.1:50052" "127.0.0.1:40052".
Definition config2 : Config := MkGossipConfig "0.0.0.0" 7946 "" 0 [] meta2.

Lemma gossip_forwarding_fails_witness :
  let s := NewGrpcServiceWithResolver (demo_follower leader_addr) (NewGossipResolver (discovered config2 [meta1; meta2])) (MkConns ∅ []) in
  Add (R := TypedRpc) (KV0 := server_KV (follower_obs leader_addr)) id id None "x" "1" s =
    (Err (Errorf "unknown leader gRPC address for raft addr %s" [FStr leader_addr]), s).
Proof.
  apply (gossip_forwarding_fails (KV0 := server_KV (follower_obs leader_addr)) (KVLaws0 := server_KV_laws (follower_obs leader_addr))
    (GrpcLaws0 := typed_rpc_laws) id id None "x" "1" config2 [meta1; meta2] meta1).
  - left.
  - reflexivity.
  - discriminate.
  - repeat constructor; vm_compute; discriminate.
Defined.

(** A cache with one failed connection. *)
Definition demo_conns : conns := MkConns {["a" := 0%nat]} [("a", TransientFailure)].

Lemma demo_conns_ok : conns_ok demo_conns.
Proof.
  split; simpl.
  - intros a n [<- <-]%lookup_singleton_Some. by eexists.
  - intros [|n] a st [= <- <-]. left. by rewrite lookup_singleton_eq.
Qed.

Lemma getOrCreateConn_spec_witness :
  conns_ok (getOrCreateConn (R := TypedRpc) id "a" demo_conns).2 ∧
  connCache (getOrCreateConn (R := TypedRpc) id "a" demo_conns).2 !! "a" = Some 1%nat.
Proof.
  destruct (getOrCreateConn_spec (R := TypedRpc) id "a" demo_conns demo_conns_ok demo_conns_ok) as (H1 & H2 & _).
  split; [exact H1|exact H2].
Defined.

Lemma CloseAllConns_closes_witness :
  connCache (CloseAllConns demo_conns) = ∅ ∧ conn_made (CloseAllConns demo_conns) = [("a", Shutdown)].
Proof.
  destruct (CloseAllConns_closes demo_conns demo_conns_ok) as (H1 & _). split; [exact H1|reflexivity].
Defined.
