(* ===== verification/Engine.v ===== *)
(** * Engine.v: engine/engine.go, the start and the shutdown of raft (engine/raft.go)
    and the command line of app.go.

    [NewEngineWithConfig] opens the state machine, starts raft and, if it is
    enabled, gossip, and serves gRPC; [Engine.Close] takes all of that down
    again. What the process holds is tracked by a trace of the resources that
    were acquired and released; the state machine, the gossip state and the
    connection cache are those of the other files. While [Close] runs, handlers and
    raft may still work on the state machine and on the cache. *)
From S2P Require Import Prelude Binary Paths Pebble FileSystem DataDir Snapshot Json Store Fsm Addr Gossip Service.

(** ** What the process holds *)

Inductive resource :=
| RStore          (** the state machine's database *)
| RRaftDB         (** raft's log store *)
| RTransport      (** raft's TCP transport *)
| RRaft           (** the raft library's goroutines *)
| RObserve        (** the goroutine of [observe] *)
| RMonitor        (** the goroutine of [monitorLeadership] *)
| RGossip         (** the memberlist *)
| RServer         (** the gRPC server *)
| RListener       (** its socket *)
| RServe.         (** the goroutine of [Serve] *)

#[global] Instance resource_eq_dec : EqDecision resource.
Proof. solve_decision. Defined.

(** [Signal r] tells a goroutine to end, without waiting for it. *)
Inductive action := Acquire (r : resource) | Release (r : resource) | Signal (r : resource).

#[global] Instance action_eq_dec : EqDecision action.
Proof. solve_decision. Defined.

(** How many times [r] is held after the actions. *)
Fixpoint held (r : resource) (tr : list action) : Z :=
  match tr with
  | [] => 0
  | Acquire r' :: tr => (if decide (r' = r) then 1 else 0) + held r tr
  | Release r' :: tr => (if decide (r' = r) then -1 else 0) + held r tr
  | Signal _ :: tr => held r tr
  end.

Lemma held_app r a b : held r (a ++ b) = held r a + held r b.
Proof. induction a as [|[] a IH]; simpl; rewrite ?IH; lia. Qed.

(** ** Configuration *)

Record EngineConfig := MkConfig {
  cfg_RaftDir : string;
  cfg_NodeID : string;
  cfg_RaftAddr : string;
  cfg_GRPCAddr : string;
  cfg_RaftBootstrap : bool;
  cfg_GossipEnabled : bool;
  cfg_GossipAddr : string;
  cfg_GossipSeeds : list string;
  cfg_StaticLookup : list (string * string);
}.

(** [filepath.Join(cfg.RaftDir, cfg.NodeID, name)] *)
Definition node_dir (cfg : EngineConfig) (name : string) : string :=
  Join (Join (cfg_RaftDir cfg) (cfg_NodeID cfg)) name.

Definition raftDBPath : string := "raftdb".
Definition raftSnapshotPath : string := "raft-snapshot".

(** The flags of app.go; the seeds are split at commas. *)
Record flags := MkFlags {
  fl_raft_addr : string; fl_grpc_addr : string; fl_raft_id : string; fl_raft_data_dir : string;
  fl_raft_bootstrap : bool; fl_gossip_addr : string; fl_gossip_seeds : string }.

Fixpoint split_comma (s : bytes) : list bytes :=
  match s with
  | [] => [[]]
  | b :: s =>
      if decide (byte_val b = 44) then [] :: split_comma s
      else match split_comma s with
           | x :: xs => (b :: x) :: xs
           | [] => [[b]]
           end
  end.

Definition defaultStaticLookup : list (string * string) :=
  [("127.0.0.1:50051", "127.0.0.1:40051");
   ("127.0.0.1:50052", "127.0.0.1:40052");
   ("127.0.0.1:50053", "127.0.0.1:40053")].

(** [main], up to the start of the engine; [log.Fatalf] is an error. *)
Definition main_config (f : flags) : res EngineConfig :=
  if decide (fl_raft_id f = "") then Err (Errorf "flag --raft_id is required" [])
  else if decide (fl_raft_addr f = "") then Err (Errorf "flag --raft_addr is required" [])
  else if decide (fl_grpc_addr f = "") then Err (Errorf "flag --grpc_addr is required" [])
  else
    let gossip := negb (bool_decide (fl_gossip_addr f = "")) in
    Ok (MkConfig (fl_raft_data_dir f) (fl_raft_id f) (fl_raft_addr f) (fl_grpc_addr f) (fl_raft_bootstrap f)
          gossip (if gossip then fl_gossip_addr f else "")
          (if gossip && negb (bool_decide (fl_gossip_seeds f = ""))
           then bytes_string <$> split_comma (string_bytes (fl_gossip_seeds f)) else [])
          defaultStaticLookup).

(** ** The libraries *)

(** The outcomes of the calls that start something: [None] is success. Starting
    raft may restore the latest snapshot into the state machine. *)
Class Platform {P : Pebble} := {
  NewPebbleStore : string → option error;
  NewFileSnapshotStore : string → option error;
  ResolveTCPAddr : string → option error;
  NewTCPTransport : string → option error;
  NewRaft : fworld → option error * fworld;
  BootstrapCluster : string → string → option error;
  AppliedIndex : Z;
  DefaultLANConfig : MLConfig;
  memberlist_Create : MLConfig → option error;
  Listen : string → option error;
}.

Section engine.
Context {P : Pebble} {PF : Platform}.

(** The state machine, and what the process has acquired and released. *)
Record proc := MkNode { n_fw : fworld; n_trace : list action }.

Definition acquire (r : resource) : GoM proc unit :=
  go_modify (λ s, MkNode (n_fw s) (n_trace s ++ [Acquire r])).
Definition release (r : resource) : GoM proc unit :=
  go_modify (λ s, MkNode (n_fw s) (n_trace s ++ [Release r])).
Definition signal (r : resource) : GoM proc unit :=
  go_modify (λ s, MkNode (n_fw s) (n_trace s ++ [Signal r])).
Definition on_fsm {A} (m : GoM fworld A) : GoM proc A :=
  λ s, let '(r, fw) := m (n_fw s) in (r, MkNode fw (n_trace s)).

(** [if err := call(); err != nil { return fmt.Errorf(...) }] *)
Definition must (outcome : option error) (wrap : error → error) : GoM proc unit :=
  match outcome with Some e => go_err (wrap e) | None => go_ret tt end.

(** ** newRaft *)

Definition newRaft (baseDir nodeId raftAddr : string) (raftBootstrap : bool) : GoM proc unit :=
  let dbPath := Join baseDir raftDBPath in
  must (NewPebbleStore dbPath) (Wrapf "pebbledb.NewPebbleStore(%q): %v" [FStr dbPath]) ;;
  acquire RRaftDB ;;
  let snapshotDir := Join baseDir raftSnapshotPath in
  must (NewFileSnapshotStore snapshotDir) (Wrapf "raft.NewFileSnapshotStore(%q, ...): %v" [FStr snapshotDir]) ;;
  must (ResolveTCPAddr raftAddr) (Wrapf "Could not resolve address: %s" []) ;;
  must (NewTCPTransport raftAddr) (Wrapf "Could not create tcp transport: %s" []) ;;
  acquire RTransport ;;
  err <- on_fsm (λ fw, let '(e, fw') := NewRaft fw in (Ok e, fw')) ;;
  must err (Wrapf "raft.NewRaft: %v" []) ;;
  acquire RRaft ;;
  acquire RObserve ;;
  (if raftBootstrap then
     must (BootstrapCluster nodeId raftAddr) (Wrapf "raft.Raft.BootstrapCluster: %v" [])
   else go_ret tt) ;;
  on_fsm (UpdateFsmIndex AppliedIndex) ;;
  acquire RMonitor.

(** [raftServer.close]: the closed [shutdownCh] tells the two goroutines to end
    (Observer.v, Leader.v); nothing waits for them. *)
Definition raft_close : GoM proc unit :=
  signal RObserve ;;
  signal RMonitor ;;
  release RRaft ;;
  release RTransport ;;
  release RRaftDB.

(** ** Gossip *)

(** [gossip.New]; the seeds are joined in the background. *)
Definition gossip_New (cfg : Config) : GoM proc Gossip :=
  let g := New cfg in
  must (memberlist_Create (memberlist_config DefaultLANConfig cfg)) (λ e, e) ;;
  acquire RGossip ;;
  go_ret g.

Definition setupGossip (cfg : EngineConfig) : GoM proc Gossip :=
  match ParseHostPort (string_bytes (cfg_GossipAddr cfg)) with
  | Ok (host, port) =>
      let meta := MkMeta (cfg_NodeID cfg) (cfg_RaftAddr cfg) (cfg_GRPCAddr cfg) in
      g <- gossip_New (MkGossipConfig (bytes_string host) port "" 0 (cfg_GossipSeeds cfg) meta) ;;
      go_ret (OnLeave (OnJoin g))
  | Err e => go_err (Wrapf "invalid gossip address: %v" [] e)
  | Panic m => go_panic m
  | NoFuel => go_lift NoFuel
  end.

(** ** The engine *)

(** An address resolver of either kind. *)
Inductive any_resolver := AStatic (r : StaticResolver) | AGossip (r : GossipResolver Gossip).

#[export] Instance any_resolver_resolver : AddressResolver any_resolver := {|
  GetGRPCAddr r id := match r with AStatic r => GetGRPCAddr r id | AGossip r => GetGRPCAddr r id end;
  SetGRPCAddr id a r := match r with
                        | AStatic r => AStatic (SetGRPCAddr id a r)
                        | AGossip r => AGossip (SetGRPCAddr id a r)
                        end;
  RemoveAddr id r := match r with
                     | AStatic r => AStatic (RemoveAddr id r)
                     | AGossip r => AGossip (RemoveAddr id r)
                     end;
|}.

Record Engine := MkEngine {
  en_node : proc;
  en_gossip : option Gossip;
  en_resolver : any_resolver;      (** [Engine.resolver] *)
  en_service : any_resolver;       (** the resolver of the registered service *)
  en_conns : conns;                (** the package's connection cache *)
  en_shutdown : bool;              (** [shutdownOnce] has run *)
}.

Definition GetResolver (e : Engine) : any_resolver := en_resolver e.
Definition GetGossip (e : Engine) : option Gossip := en_gossip e.

(** After the state machine is open; the address is checked after raft and
    gossip have been started. *)
Definition start_engine (cfg : EngineConfig) : GoM proc (option Gossip * any_resolver * any_resolver) :=
  newRaft (node_dir cfg "meta_data") (cfg_NodeID cfg) (cfg_RaftAddr cfg) (cfg_RaftBootstrap cfg) ;;
  '(g, r) <- (if cfg_GossipEnabled cfg then
                g <- go_map_err (setupGossip cfg) (Wrapf "failed to setup gossip: %v" []) ;;
                go_ret (Some g, AGossip (NewGossipResolver g))
              else go_ret (None, AStatic (NewStaticResolver []))) ;;
  acquire RServer ;;
  let service := if cfg_GossipEnabled cfg then r else AStatic (NewStaticResolver (cfg_StaticLookup cfg)) in
  '(_, port) <- go_map_err (go_lift (SplitHostPort (string_bytes (cfg_GRPCAddr cfg))))
                  (Wrapf "failed to parse grpc address (%q): %v" [FStr (cfg_GRPCAddr cfg)]) ;;
  must (Listen (":" +:+ bytes_string port)) (Wrapf "failed to listen: %v" []) ;;
  acquire RListener ;;
  acquire RServe ;;
  go_ret (g, r, service).

(** The start works on the file system and gives the engine, or the error and
    what the process then holds. *)
Definition NewEngineWithConfig (cfg : EngineConfig) (c : conns) (w : world) :
    res Engine * (world * list action) :=
  match NewStateMachine (cfg_RaftAddr cfg) (cfg_NodeID cfg) (node_dir cfg "user_data") w with
  | (Ok fw, _) =>
      match start_engine cfg (MkNode fw [Acquire RStore]) with
      | (Ok (g, r, service), s) =>
          (Ok (MkEngine s g r service c false), (sw_world (fw_sw (n_fw s)), n_trace s))
      | (Err e, s) => (Err e, (sw_world (fw_sw (n_fw s)), n_trace s))
      | (Panic m, s) => (Panic m, (sw_world (fw_sw (n_fw s)), n_trace s))
      | (NoFuel, s) => (NoFuel, (sw_world (fw_sw (n_fw s)), n_trace s))
      end
  | (Err e, w') => (Err e, (w', []))
  | (Panic m, w') => (Panic m, (w', []))
  | (NoFuel, w') => (NoFuel, (w', []))
  end.

(** ** Close

    What the handlers that are still running, and raft, do to the state machine and
    to the connection cache between the steps of [Close]: while the server stops
    (0), before raft is shut down (1), before the state machine is closed (2) and
    after that (3). When [GracefulStop] comes back in time there are no handlers
    after the first point; [Stop], after ten seconds, does not wait for them. *)
Definition interference : Type := nat → fworld * conns → fworld * conns.

Definition on_node {A} (m : GoM proc A) : GoM Engine A :=
  λ e, let '(r, s) := m (en_node e) in
       (r, MkEngine s (en_gossip e) (en_resolver e) (en_service e) (en_conns e) (en_shutdown e)).
Definition on_cache (f : conns → conns) : GoM Engine unit :=
  go_modify (λ e, MkEngine (en_node e) (en_gossip e) (en_resolver e) (en_service e) (f (en_conns e)) (en_shutdown e)).
Definition meanwhile (f : fworld * conns → fworld * conns) : GoM Engine unit :=
  go_modify (λ e, let '(fw, c) := f (n_fw (en_node e), en_conns e) in
                  MkEngine (MkNode fw (n_trace (en_node e))) (en_gossip e) (en_resolver e) (en_service e) c (en_shutdown e)).
(** [shutdownOnce] and the closed [shutdownCh]. *)
Definition set_shutdown : GoM Engine unit :=
  go_modify (λ e, MkEngine (en_node e) (en_gossip e) (en_resolver e) (en_service e) (en_conns e) true).

(** The error of the state machine's [Close] is not looked at. At the end [Close]
    waits for the goroutine of [Serve], which returns when the server is stopped. *)
Definition engine_Close (others : interference) : GoM Engine unit :=
  e <- go_get ;;
  if en_shutdown e then go_ret tt
  else
    set_shutdown ;;
    on_cache CloseAllConns ;;
    meanwhile (others 0%nat) ;;
    on_node (release RServer) ;;
    on_node (release RListener) ;;
    (match en_gossip e with Some _ => on_node (release RGossip) | None => go_ret tt end) ;;
    meanwhile (others 1%nat) ;;
    on_node raft_close ;;
    meanwhile (others 2%nat) ;;
    on_node (go_ignore (on_fsm Close)) ;;
    on_node (release RStore) ;;
    meanwhile (others 3%nat) ;;
    on_node (release RServe).

(** ** The program

    [main] of app.go. [ran] is what becomes of the engine until the signal comes;
    [panic(err)] and [log.Fatalf] end the process. *)
Definition node_main (f : flags) (ran : Engine → Engine) (others : interference) (w : world) :
    res unit * list action :=
  match main_config f with
  | Ok cfg =>
      match NewEngineWithConfig cfg (MkConns ∅ []) w with
      | (Ok e, _) => let '(r, e') := engine_Close others (ran e) in (r, n_trace (en_node e'))
      | (Err _, (_, tr)) => (Panic "err", tr)
      | (Panic m, (_, tr)) => (Panic m, tr)
      | (NoFuel, (_, tr)) => (NoFuel, tr)
      end
  | Err e => (Err e, [])
  | Panic m => (Panic m, [])
  | NoFuel => (NoFuel, [])
  end.
End engine.

(** ** Runs

    [appends l m]: when [m] succeeds, it has done the actions [l]. *)

Section engine_runs.
Context {P : Pebble} {PF : Platform}.

Definition appends {A} (l : list action) (m : GoM proc A) : Prop :=
  ∀ s a s', m s = (Ok a, s') → n_trace s' = n_trace s ++ l.

Lemma appends_ret {A} (a : A) : appends [] (go_ret a).
Proof. intros s b s' [= _ <-]. by rewrite app_nil_r. Qed.
Lemma appends_lift {A} (r : res A) : appends [] (go_lift r).
Proof. intros s b s' [= _ <-]. by rewrite app_nil_r. Qed.
Lemma appends_err {A} l e : appends l (go_err (A := A) e).
Proof. by intros s b s'. Qed.
Lemma appends_panic {A} l p : appends l (go_panic (A := A) p).
Proof. by intros s b s'. Qed.
Lemma appends_must o wrap : appends [] (must o wrap).
Proof. unfold must. destruct o; [apply appends_err|apply appends_ret]. Qed.
Lemma appends_acquire r : appends [Acquire r] (acquire r).
Proof. by intros s a s' [= _ <-]. Qed.
Lemma appends_release r : appends [Release r] (release r).
Proof. by intros s a s' [= _ <-]. Qed.
Lemma appends_on_fsm {A} (m : GoM fworld A) : appends [] (on_fsm m).
Proof. intros s a s'. unfold on_fsm. destruct (m (n_fw s)). intros [= _ <-]. by rewrite app_nil_r. Qed.
Lemma appends_bind {A B} l1 l2 (m : GoM proc A) (f : A → GoM proc B) :
  appends l1 m → (∀ a, appends l2 (f a)) → appends (l1 ++ l2) (go_bind m f).
Proof.
  intros Hm Hf s b s' (a & s1 & H1 & H2)%go_bind_Ok_inv.
  rewrite (Hf _ _ _ _ H2), (Hm _ _ _ H1). by rewrite (assoc_L (++)).
Qed.
Lemma appends_map_err {A} l (m : GoM proc A) f : appends l m → appends l (go_map_err m f).
Proof. intros Hm s a s'. unfold go_map_err, go_try. destruct (m s) as [[]] eqn:E; go_simpl; try done. intros [= <- <-]. by eapply Hm. Qed.

(** Run through a sequence of calls. *)
Ltac appends :=
  lazymatch goal with
  | |- appends _ (go_bind _ _) => eapply appends_bind; [appends|intros ?; appends]
  | |- appends _ (must _ _) => apply appends_must
  | |- appends _ (acquire _) => apply appends_acquire
  | |- appends _ (release _) => apply appends_release
  | |- appends _ (on_fsm _) => apply appends_on_fsm
  | |- appends _ (go_ret _) => apply appends_ret
  | |- appends _ (go_lift _) => apply appends_lift
  | |- appends _ (go_map_err _ _) => apply appends_map_err; appends
  | |- _ => idtac
  end.

(** What a successful start has acquired, in order. *)
Definition acquired (cfg : EngineConfig) : list action :=
  [Acquire RRaftDB; Acquire RTransport; Acquire RRaft; Acquire RObserve; Acquire RMonitor] ++
  (if cfg_GossipEnabled cfg then [Acquire RGossip] else []) ++
  [Acquire RServer; Acquire RListener; Acquire RServe].

(** What the shutdown does, in order. *)
Definition released (gossip : bool) : list action :=
  [Release RServer; Release RListener] ++
  (if gossip then [Release RGossip] else []) ++
  [Signal RObserve; Signal RMonitor; Release RRaft; Release RTransport; Release RRaftDB;
   Release RStore; Release RServe].

Lemma newRaft_appends baseDir id addr boot :
  appends [Acquire RRaftDB; Acquire RTransport; Acquire RRaft; Acquire RObserve; Acquire RMonitor]
          (newRaft baseDir id addr boot).
Proof.
  unfold newRaft. cbv zeta.
  eassert (appends _ (if boot then must (BootstrapCluster id addr) _ else go_ret tt)) as Hb.
  { destruct boot; [apply appends_must|apply appends_ret]. }
  change [Acquire RRaftDB; Acquire RTransport; Acquire RRaft; Acquire RObserve; Acquire RMonitor]
    with ([] ++ [Acquire RRaftDB] ++ [] ++ [] ++ [] ++ [Acquire RTransport] ++ [] ++ [] ++ [Acquire RRaft] ++
          [Acquire RObserve] ++ [] ++ [] ++ [Acquire RMonitor]).
  appends. exact Hb.
Qed.

Lemma setupGossip_appends cfg : appends [Acquire RGossip] (setupGossip cfg).
Proof.
  unfold setupGossip, gossip_New. cbv zeta. destruct (ParseHostPort _) as [[host port]|e|m|].
  - change [Acquire RGossip] with (([] ++ [Acquire RGossip] ++ []) ++ []). appends.
  - apply appends_err.
  - apply appends_panic.
  - by intros s a s'.
Qed.

Lemma start_appends cfg : appends (acquired cfg) (start_engine cfg).
Proof.
  unfold start_engine, acquired. cbv zeta. apply appends_bind; [apply newRaft_appends|intros _].
  apply appends_bind.
  - destruct (cfg_GossipEnabled cfg); [|apply appends_ret].
    change [Acquire RGossip] with ([Acquire RGossip] ++ []). appends. apply setupGossip_appends.
  - intros [g r].
    change [Acquire RServer; Acquire RListener; Acquire RServe]
      with ([Acquire RServer] ++ [] ++ [] ++ [Acquire RListener] ++ [Acquire RServe] ++ []).
    eapply appends_bind; [appends|intros _]. eapply appends_bind; [appends|intros [h port]]. appends.
Qed.

(** A successful start leaves the gossip state exactly when gossip is enabled. *)
Lemma start_gossip cfg s g r service s' :
  start_engine cfg s = (Ok (g, r, service), s') →
  bool_decide (is_Some g) = cfg_GossipEnabled cfg ∧
  service = (if cfg_GossipEnabled cfg then r else AStatic (NewStaticResolver (cfg_StaticLookup cfg))) ∧
  (cfg_GossipEnabled cfg = false → r = AStatic (NewStaticResolver [])).
Proof.
  unfold start_engine. cbv zeta. intros H.
  apply go_bind_Ok_inv in H as (_ & s1 & _ & H). apply go_bind_Ok_inv in H as ([g' r'] & s2 & Hg & H).
  apply go_bind_Ok_inv in H as (_ & s3 & _ & H). apply go_bind_Ok_inv in H as ([h port] & s4 & _ & H).
  apply go_bind_Ok_inv in H as (_ & s5 & _ & H). apply go_bind_Ok_inv in H as (_ & s6 & _ & H).
  apply go_bind_Ok_inv in H as (_ & s7 & _ & H). unfold go_ret in H. injection H as <- <- <- <-.
  destruct (cfg_GossipEnabled cfg).
  - apply go_bind_Ok_inv in Hg as (g0 & s8 & _ & Hg). unfold go_ret in Hg. injection Hg as <- <- <-.
    split_and!; [by apply bool_decide_eq_true; eauto|done..].
  - unfold go_ret in Hg. injection Hg as <- <- <-. split_and!; [by apply bool_decide_eq_false; intros []|done..].
Qed.
End engine_runs.

(** ** Theorems *)

Section engine_theorems.
Context {P : Pebble} `{!PebbleLaws P, !PebbleReliable P} {PF : Platform}.

Lemma NewEngine_Ok_inv cfg c w e w1 tr :
  NewEngineWithConfig cfg c w = (Ok e, (w1, tr)) →
  n_trace (en_node e) = Acquire RStore :: acquired cfg ∧ en_conns e = c ∧ en_shutdown e = false ∧
  bool_decide (is_Some (en_gossip e)) = cfg_GossipEnabled cfg ∧
  en_service e = (if cfg_GossipEnabled cfg then en_resolver e
                  else AStatic (NewStaticResolver (cfg_StaticLookup cfg))) ∧
  (cfg_GossipEnabled cfg = false → en_resolver e = AStatic (NewStaticResolver [])).
Proof.
  unfold NewEngineWithConfig. destruct (NewStateMachine _ _ _ w) as [[fw|?|?|] w']; try done.
  destruct (start_engine cfg _) as [[[[g r] service]|?|?|] s] eqn:E; try done.
  intros [= <- _ _]. simpl. rewrite (start_appends cfg _ _ _ E).
  destruct (start_gossip _ _ _ _ _ _ E) as (? & ? & ?). done.
Qed.

(** What handlers and raft may do to a running node: the state machine goes on to
    serve some map as long as it is open, and is not opened again; the cache stays
    consistent, and a connection that is shut down stays so. *)
Record others_ok (others : interference) : Prop := {
  oth_running i fw c n m : running n m fw → ∃ n' m', running n' m' (others i (fw, c)).1;
  oth_closed i fw c : st_closed (sw_store (fw_sw fw)) = true → st_closed (sw_store (fw_sw (others i (fw, c)).1)) = true;
  oth_conns i fw c : conns_ok c → conns_ok (others i (fw, c)).2;
  oth_shut i fw c k a : conn_made c !! k = Some (a, Shutdown) → conn_made (others i (fw, c)).2 !! k = Some (a, Shutdown);
}.

(** The state machine and the cache as [Close] finds them at its four points. *)
Definition close_point (others : interference) (e : Engine) : nat → fworld * conns :=
  let p0 := others 0%nat (n_fw (en_node e), CloseAllConns (en_conns e)) in
  let p1 := others 1%nat p0 in
  let p2 := others 2%nat p1 in
  λ i, match i with
       | 0%nat => p0
       | 1%nat => p1
       | 2%nat => p2
       | _ => others 3%nat ((Close p2.1).2, p2.2)
       end.

(** The run of the shutdown of an engine whose state machine closes. *)
Lemma engine_Close_ok others e :
  en_shutdown e = false → (Close (close_point others e 2).1).1 = Ok tt →
  engine_Close others e = (Ok tt, MkEngine
    (MkNode (close_point others e 3).1 (n_trace (en_node e) ++ released (bool_decide (is_Some (en_gossip e)))))
    (en_gossip e) (en_resolver e) (en_service e) (close_point others e 3).2 true).
Proof.
  intros Hs Hc. destruct e as [[fw tr] g r sv cs sh]. simpl in *. subst sh.
  unfold engine_Close, set_shutdown, on_cache, meanwhile, on_node, on_fsm, raft_close, release, signal. go_simpl.
  destruct (others 0%nat (fw, CloseAllConns cs)) as [fw0 c0]. simpl.
  destruct g as [g|]; simpl; destruct (others 1%nat (fw0, c0)) as [fw1 c1]; simpl;
    destruct (others 2%nat (fw1, c1)) as [fw2 c2]; simpl in *;
    destruct (Close fw2) as [r0 fw3]; simpl in *; subst r0; simpl;
    destruct (others 3%nat (fw3, c2)) as [fw4 c4]; simpl; unfold released; by rewrite <-!(assoc_L (++)).
Qed.

(** What is running when [Close] comes to the state machine, and what is left. *)
Lemma close_points_ok others e n m :
  others_ok others → running n m (n_fw (en_node e)) → conns_ok (en_conns e) →
  (∃ n' m', running n' m' (close_point others e 2).1) ∧
  (Close (close_point others e 2).1).1 = Ok tt ∧
  st_closed (sw_store (fw_sw (close_point others e 3).1)) = true ∧
  conns_ok (close_point others e 3).2 ∧
  ∀ k a st, conn_made (en_conns e) !! k = Some (a, st) → conn_made (close_point others e 3).2 !! k = Some (a, Shutdown).
Proof.
  intros [H1 H2 H3 H4] Hr Hc. simpl.
  set (c0 := CloseAllConns (en_conns e)). set (p0 := others 0%nat (n_fw (en_node e), c0)).
  set (p1 := others 1%nat p0). set (p2 := others 2%nat p1).
  assert (∀ i p n m, running n m p.1 → ∃ n' m', running n' m' (others i p).1) as Hrun by (intros i [fw c]; apply H1).
  assert (∀ i p, conns_ok p.2 → conns_ok (others i p).2) as Hco by (intros i [fw c]; apply H3).
  assert (∀ i p k a, conn_made p.2 !! k = Some (a, Shutdown) → conn_made (others i p).2 !! k = Some (a, Shutdown)) as Hsh
    by (intros i [fw c]; apply H4).
  destruct (Hrun 0%nat (n_fw (en_node e), c0) n m Hr) as (n0 & m0 & Hr0). fold p0 in Hr0.
  destruct (Hrun 1%nat p0 n0 m0 Hr0) as (n1 & m1 & Hr1). fold p1 in Hr1.
  destruct (Hrun 2%nat p1 n1 m1 Hr1) as (n2 & m2 & Hr2). fold p2 in Hr2.
  destruct (Close_ok n2 m2 _ Hr2) as (fw3 & Hcl & _ & _ & Hst & _).
  split; [by eauto|]. split; [by rewrite Hcl|]. split.
  { apply H2. rewrite Hcl. cbn [snd]. by rewrite Hst. }
  destruct (CloseAllConns_closes _ Hc) as (_ & Hc0 & Hall). fold c0 in Hc0, Hall.
  split; [by apply (Hco 3%nat (_, p2.2)), (Hco 2%nat p1), (Hco 1%nat p0), (Hco 0%nat (_, c0))|].
  intros k a st Hk. apply (Hsh 3%nat (_, p2.2)), (Hsh 2%nat p1), (Hsh 1%nat p0), (Hsh 0%nat (_, c0)). cbn [snd].
  destruct (close_list_made (map_to_list (connCache (en_conns e))) _ _ _ _ Hk) as [st' Hk'].
  rewrite <-(Hall _ _ _ Hk'). exact Hk'.
Qed.

(** C12: The shutdown releases what the start acquired, also while handlers and
    raft go on. After a successful start and any time of running, [Close] gives up
    the gRPC server and its socket first, then gossip, then tells the two
    goroutines of the node to end and shuts down raft, its transport and its log
    store, and then the database, and it waits for the goroutine of [Serve]. Each
    is released once, so nothing is held afterwards except the two goroutines,
    which have been told to end but not waited for. The state machine is closed,
    and so is every connection that was made before [Close]; a second [Close] does
    nothing. *)
Theorem shutdown_releases_everything cfg c w e w1 tr fw cs n m others :
  NewEngineWithConfig cfg c w = (Ok e, (w1, tr)) → running n m fw → conns_ok cs → others_ok others →
  let e1 := MkEngine (MkNode fw (n_trace (en_node e))) (en_gossip e) (en_resolver e) (en_service e)
              cs (en_shutdown e) in
  ∃ e2, engine_Close others e1 = (Ok tt, e2) ∧
    n_trace (en_node e2) = Acquire RStore :: acquired cfg ++ released (cfg_GossipEnabled cfg) ∧
    (∀ r, held r (n_trace (en_node e2)) = if decide (r = RObserve ∨ r = RMonitor) then 1 else 0) ∧
    Signal RObserve ∈ n_trace (en_node e2) ∧ Signal RMonitor ∈ n_trace (en_node e2) ∧
    st_closed (sw_store (fw_sw (n_fw (en_node e2)))) = true ∧
    (∀ k a st, conn_made cs !! k = Some (a, st) → conn_made (en_conns e2) !! k = Some (a, Shutdown)) ∧
    engine_Close others e2 = (Ok tt, e2).
Proof.
  intros Hn Hr Hc Ho e1. destruct (NewEngine_Ok_inv _ _ _ _ _ _ Hn) as (Htr & _ & Hsh & Hg & _).
  destruct (close_points_ok others e1 n m Ho Hr Hc) as (_ & Hcl & Hst & _ & Hall).
  pose proof (engine_Close_ok others e1 Hsh Hcl) as He. eexists. split; [exact He|].
  cbn [en_node n_trace n_fw en_conns e1 en_gossip]. rewrite Htr, Hg. split; [done|].
  assert (∀ r, Signal r ∈ released (cfg_GossipEnabled cfg) →
    Signal r ∈ (Acquire RStore :: acquired cfg) ++ released (cfg_GossipEnabled cfg)) as Hin
    by (intros r H; apply elem_of_app; by right).
  split; [intros r; unfold acquired, released; by destruct (cfg_GossipEnabled cfg), r|].
  split; [apply Hin; unfold released; destruct (cfg_GossipEnabled cfg); set_solver|].
  split; [apply Hin; unfold released; destruct (cfg_GossipEnabled cfg); set_solver|].
  split; [exact Hst|]. split; [exact Hall|]. done.
Qed.

(** A connection that is made late is never closed. The cache is emptied before
    the server is stopped: a handler that is still running, and forwards its
    request after that, dials and caches a new connection, and nothing closes it
    any more. *)
Theorem late_connection_leaks {GR : Grpc} e n m addr others :
  running n m (n_fw (en_node e)) → en_shutdown e = false →
  DialContext addr (length (conn_made (CloseAllConns (en_conns e)))) = None →
  (∀ fw c, others 0%nat (fw, c) = (fw, (getOrCreateConn id addr c).2)) →
  (∀ i p, i ≠ 0%nat → others i p = p) →
  ∃ e2 k, engine_Close others e = (Ok tt, e2) ∧
    connCache (en_conns e2) !! addr = Some k ∧ conn_state (en_conns e2) k = Idle.
Proof.
  intros Hr Hs Hd H0 Hi. set (c0 := CloseAllConns (en_conns e)) in *.
  assert (getOrCreateConn id addr c0 = (Ok (length (conn_made c0)),
    MkConns (<[addr := length (conn_made c0)]> (connCache c0)) (conn_made c0 ++ [(addr, Idle)]))) as E.
  { unfold getOrCreateConn, create_conn, cached_conn, id. cbn [c0 CloseAllConns connCache].
    rewrite lookup_empty. fold c0. change (conn_made (MkConns _ _)) with (conn_made c0) in *. by rewrite Hd. }
  assert (∀ i, close_point others e i = (if decide (i < 3)%nat then n_fw (en_node e) else (Close (n_fw (en_node e))).2,
    MkConns (<[addr := length (conn_made c0)]> (connCache c0)) (conn_made c0 ++ [(addr, Idle)]))) as Hp.
  { intros i. unfold close_point. fold c0. rewrite H0, E. cbn [snd]. rewrite !Hi by done.
    by destruct i as [|[|[|i]]]. }
  destruct (Close_ok n m _ Hr) as (fw1 & Hcl & _).
  eexists _, (length (conn_made c0)). split; [apply engine_Close_ok; [done|]|].
  - rewrite Hp, decide_True by lia. cbn [fst]. by rewrite Hcl.
  - cbn [en_conns]. rewrite Hp. cbn [snd connCache]. split; [apply lookup_insert_eq|].
    unfold conn_state. cbn [conn_made]. by rewrite lookup_app_r, Nat.sub_diag by lia.
Qed.

(** Nothing fails, and raft has no snapshot to restore. *)
Record quiet (cfg : EngineConfig) : Prop := {
  q_store d : NewPebbleStore d = None;
  q_snap d : NewFileSnapshotStore d = None;
  q_addr a : ResolveTCPAddr a = None;
  q_transport a : NewTCPTransport a = None;
  q_raft fw : NewRaft fw = (None, fw);
  q_boot : cfg_RaftBootstrap cfg = true → BootstrapCluster (cfg_NodeID cfg) (cfg_RaftAddr cfg) = None;
  q_gossip : cfg_GossipEnabled cfg = true →
    (∃ host port, ParseHostPort (string_bytes (cfg_GossipAddr cfg)) = Ok (host, port)) ∧
    (∀ c, memberlist_Create c = None);
  q_grpc : ∃ host port, SplitHostPort (string_bytes (cfg_GRPCAddr cfg)) = Ok (host, port);
  q_listen a : Listen a = None;
}.

Lemma go_bind_exists {A B} (m : GoM proc A) (f : A → GoM proc B) s (Q : B → proc → Prop) :
  (∃ a s1, m s = (Ok a, s1) ∧ ∃ b s', f a s1 = (Ok b, s') ∧ Q b s') →
  ∃ b s', go_bind m f s = (Ok b, s') ∧ Q b s'.
Proof. intros (a & s1 & H & b & s' & H2 & HQ). exists b, s'. by rewrite (go_bind_ok _ _ _ _ _ H). Qed.

Definition started (i : Z) (fw fw' : fworld) : Prop :=
  fw_sw fw' = fw_sw fw ∧ fsmIndex (fw_sm fw') = Z.max (fsmIndex (fw_sm fw)) i.

Lemma newRaft_ok cfg baseDir s :
  quiet cfg →
  ∃ u s', newRaft baseDir (cfg_NodeID cfg) (cfg_RaftAddr cfg) (cfg_RaftBootstrap cfg) s = (Ok u, s') ∧
          started AppliedIndex (n_fw s) (n_fw s').
Proof.
  intros [Q1 Q2 Q3 Q4 Q5 Q6 _ _ _]. unfold newRaft, must. cbv zeta.
  rewrite Q1, Q2, Q3, Q4. destruct s as [[sm sw ch] tr]. go_simpl. unfold on_fsm at 1. simpl. rewrite Q5. simpl.
  destruct (cfg_RaftBootstrap cfg); [rewrite Q6 by done|]; unfold on_fsm, UpdateFsmIndex; go_simpl;
    case_decide; simpl; eexists _, _; (split; [reflexivity|]); split; simpl; (done || lia).
Qed.

Lemma start_ok cfg s :
  quiet cfg →
  ∃ out s', start_engine cfg s = (Ok out, s') ∧ started AppliedIndex (n_fw s) (n_fw s').
Proof.
  intros Q. unfold start_engine. cbv zeta.
  destruct (newRaft_ok cfg (node_dir cfg "meta_data") s Q) as (u & s1 & H1 & Hs1).
  rewrite (go_bind_ok _ _ _ _ _ H1). destruct Q as [_ _ _ _ _ _ Q7 (host & port & Q8) Q9].
  assert (∃ gr s2, (if cfg_GossipEnabled cfg then
                g <- go_map_err (setupGossip cfg) (Wrapf "failed to setup gossip: %v" []) ;;
                go_ret (Some g, AGossip (NewGossipResolver g))
              else go_ret (None, AStatic (NewStaticResolver []))) s1 = (Ok gr, s2) ∧ n_fw s2 = n_fw s1)
    as ([g r] & s2 & H2 & Hs2).
  { destruct (cfg_GossipEnabled cfg); [|by eexists _, _].
    destruct Q7 as [(h & p & Hp) Hm]; [done|]. unfold setupGossip, gossip_New. rewrite Hp. unfold must. rewrite Hm.
    go_simpl. by eexists _, _. }
  rewrite (go_bind_ok _ _ _ _ _ H2). rewrite Q8. go_simpl. unfold must. rewrite Q9. simpl.
  eexists _, _. split; [reflexivity|]. simpl. by rewrite Hs2.
Qed.

(** C13: A restart keeps the data. An engine that serves [m] is closed and a new
    one is started on the same directories, with whatever addresses and with or
    without gossip, where nothing is applied while [Close] runs, nothing fails and
    raft has no snapshot to restore: the
    new engine serves [m] again, from the same database directory, and its index
    is the one raft reports as applied. *)
Theorem restart_keeps_data cfg cfg' c e n m others :
  let dir := node_dir cfg "user_data" in
  (∀ i fw c, (others i (fw, c)).1 = fw) →
  running n m (n_fw (en_node e)) → en_shutdown e = false →
  baseDir (sw_store (fw_sw (n_fw (en_node e)))) = dir →
  w_orc (sw_world (fw_sw (n_fw (en_node e)))) = [] →
  base_ok dir (sw_world (fw_sw (n_fw (en_node e)))) →
  cfg_RaftDir cfg' = cfg_RaftDir cfg → cfg_NodeID cfg' = cfg_NodeID cfg → quiet cfg' → 0 ≤ AppliedIndex →
  ∃ e1 e2 w2 tr,
    engine_Close others e = (Ok tt, e1) ∧
    NewEngineWithConfig cfg' c (sw_world (fw_sw (n_fw (en_node e1)))) = (Ok e2, (w2, tr)) ∧
    running n m (n_fw (en_node e2)) ∧ fsmIndex (fw_sm (n_fw (en_node e2))) = AppliedIndex.
Proof.
  intros dir Hoth Hr Hs Hdir Ho Hbo Hd1 Hd2 Q Hi.
  destruct (Close_ok n m _ Hr) as (fw2 & Hcl2 & _ & _ & _ & _ & Hdisk & Ho2).
  assert (∀ i p, (others i p).1 = p.1) as Hp by (intros i [fw0 c0]; apply Hoth).
  assert ((close_point others e 2).1 = n_fw (en_node e)) as Hp2 by (unfold close_point; by rewrite !Hp).
  assert ((close_point others e 3).1 = fw2) as Hp3.
  { unfold close_point. rewrite ?Hp. cbn [fst]. rewrite ?Hp. cbn [fst]. by rewrite Hcl2. }
  pose proof (engine_Close_ok others e Hs) as He. rewrite Hp2, Hp3, Hcl2 in He. specialize (He eq_refl).
  destruct Hr as [Hsv _].
  destruct (newStore_reopen dir n m (sw_world (fw_sw fw2)))
    as (st & w3 & H3 & Hsv3 & _ & Hc3 & _).
  { by apply Ho2. }
  { destruct Hbo as [B1 B2 B3]. by split; rewrite ?Hdisk. }
  { apply Hsv. } { apply Hsv. } { apply Hsv. }
  { rewrite Hdisk, <-Hdir. by apply serves_recoverable. }
  assert (node_dir cfg' "user_data" = dir) as Hnd by (unfold dir, node_dir; by rewrite Hd1, Hd2).
  set (fw3 := MkFW (MkSM (cfg_RaftAddr cfg') (cfg_NodeID cfg') 0 0%nat (MkMetrics 0 0 0 0 0 0 0 0))
                (MkSW st w3) (MkChans 1 ∅)).
  destruct (start_ok cfg' (MkNode fw3 [Acquire RStore]) Q) as ([[g r] sv] & s4 & H4 & Hsw & Hix).
  eexists _, _, _, _. split; [exact He|]. cbn [en_node n_fw].
  split; [|split].
  - unfold NewEngineWithConfig, NewStateMachine. rewrite Hnd. unfold go_bind. rewrite H3.
    fold fw3. rewrite H4. reflexivity.
  - simpl. unfold running. rewrite Hsw. done.
  - simpl. rewrite Hix. simpl. lia.
Qed.

(** The start only acquires, also when it fails. *)
Definition only_acquires (s s' : proc) : Prop :=
  ∃ l, n_trace s' = n_trace s ++ l ∧ Forall (λ a, ∃ r, a = Acquire r ∧ r ≠ RStore) l.

#[local] Instance only_acquires_refl : Reflexive only_acquires.
Proof. intros s. exists []. by rewrite app_nil_r. Qed.
#[local] Instance only_acquires_trans : Transitive only_acquires.
Proof.
  intros s1 s2 s3 (l1 & E1 & F1) (l2 & E2 & F2). exists (l1 ++ l2).
  rewrite E2, E1, (assoc_L (++)). split; [done|]. by apply Forall_app.
Qed.

Lemma acquire_only r : r ≠ RStore → maintains only_acquires (acquire r).
Proof. intros Hr s. exists [Acquire r]. split; [done|]. repeat constructor. eauto. Qed.
Lemma on_fsm_only {A} (m : GoM fworld A) : maintains only_acquires (on_fsm m).
Proof. intros s. unfold on_fsm. destruct (m (n_fw s)). exists []. by rewrite app_nil_r. Qed.
Lemma must_only o wrap : maintains only_acquires (must o wrap).
Proof. destruct o; intros s; apply only_acquires_refl. Qed.

Lemma start_only cfg : maintains only_acquires (start_engine cfg).
Proof.
  assert (∀ r, r ≠ RStore → maintains only_acquires (acquire r)) as Ha by apply acquire_only.
  assert (maintains only_acquires (setupGossip cfg)) as Hg.
  { unfold setupGossip, gossip_New. destruct (ParseHostPort _) as [[host port]|e|m|];
      repeat (apply maintains_bind; [apply _| |intros ?]);
      auto using must_only, maintains_ret, maintains_err, maintains_panic, maintains_lift with typeclass_instances. }
  unfold start_engine, newRaft. cbv zeta.
  repeat first
    [ apply maintains_bind; [apply _| |intros ?]
    | apply must_only | apply on_fsm_only | by apply Ha
    | apply maintains_map_err; [apply _..|] | exact Hg
    | apply maintains_ret, _ | apply maintains_lift, _ | apply maintains_err, _
    | match goal with |- maintains _ (match ?x with _ => _ end) => destruct x end
    | case_match ].
Qed.

(** A start that fails does not clean up. When [newRaft] or a later step
    fails, [NewEngineWithConfig] returns the error, but the database of the state
    machine and whatever else was acquired by then stay open: there is nobody who
    could close them. *)
Theorem failed_start_leaks cfg c w fw w1 e w2 tr :
  NewStateMachine (cfg_RaftAddr cfg) (cfg_NodeID cfg) (node_dir cfg "user_data") w = (Ok fw, w1) →
  NewEngineWithConfig cfg c w = (Err e, (w2, tr)) →
  held RStore tr = 1 ∧ (∀ r, Release r ∉ tr).
Proof.
  intros Hn. unfold NewEngineWithConfig. rewrite Hn.
  destruct (start_only cfg (MkNode fw [Acquire RStore])) as (l & El & Fl).
  destruct (start_engine cfg _) as [[[[g r] sv]|e'|?|] s]; try done. intros [= _ _ <-]. simpl in El.
  rewrite El. split.
  - simpl. rewrite Z.add_comm. clear El. induction Fl as [|a l (r & -> & Hr) _ IH]; simpl; [done|].
    rewrite decide_False by done. lia.
  - intros r [Hr|Hr]%elem_of_cons; [done|]. rewrite Forall_forall in Fl. by destruct (Fl _ Hr) as (? & ? & _).
Qed.

(** [GetResolver] is documented to return the resolver that the engine uses.
    Without gossip it does not: the service resolves with the static lookup of
    the configuration, [GetResolver] returns another, empty resolver. *)
Theorem GetResolver_differs cfg c w e w1 tr addr :
  NewEngineWithConfig cfg c w = (Ok e, (w1, tr)) → cfg_GossipEnabled cfg = false →
  GetGRPCAddr (GetResolver e) addr = None ∧
  en_service e = AStatic (NewStaticResolver (cfg_StaticLookup cfg)).
Proof.
  intros H Hg. destruct (NewEngine_Ok_inv _ _ _ _ _ _ H) as (_ & _ & _ & _ & Hs & Hr).
  unfold GetResolver. rewrite (Hr Hg), Hs, Hg. done.
Qed.
End engine_theorems.

(** ** The command line *)

(** [strings.Join(l, ",")] *)
Fixpoint join_comma (l : list bytes) : bytes :=
  match l with
  | [] => []
  | [x] => x
  | x :: l => x ++ byte_of_Z 44 :: join_comma l
  end.

Lemma split_comma_cons s : ∃ x xs, split_comma s = x :: xs.
Proof. destruct s as [|b s]; simpl; [by eauto|]. case_decide; [by eauto|]. destruct (split_comma s); eauto. Qed.

Lemma split_comma_join s : join_comma (split_comma s) = s.
Proof.
  induction s as [|b s IH]; [done|]. simpl. destruct (split_comma_cons s) as (x & xs & E). rewrite E in *.
  case_decide as Hb.
  - change (byte_of_Z 44 :: join_comma (x :: xs) = b :: s). by rewrite IH, <-Hb, byte_of_val.
  - rewrite <-IH. by destruct xs.
Qed.

Lemma split_comma_free s : Forall (λ x, byte_of_Z 44 ∉ x) (split_comma s).
Proof.
  induction s as [|b s IH]; simpl; [repeat constructor; apply not_elem_of_nil|].
  destruct (split_comma_cons s) as (x & xs & E). rewrite E in *.
  apply Forall_cons in IH as [Hx Hxs]. case_decide as Hb; repeat constructor; try done.
  - apply not_elem_of_nil.
  - apply not_elem_of_cons. split; [|done]. intros <-. by vm_compute in Hb.
Qed.

(** [main] starts an engine only when the node ID and both addresses are
    given; gossip is enabled exactly when a gossip address is, and the seeds are
    the pieces of the flag between commas, which join to the flag again. *)
Theorem main_config_outcome f :
  match main_config f with
  | Ok cfg =>
      fl_raft_id f ≠ "" ∧ fl_raft_addr f ≠ "" ∧ fl_grpc_addr f ≠ "" ∧
      cfg_NodeID cfg = fl_raft_id f ∧ cfg_RaftAddr cfg = fl_raft_addr f ∧
      cfg_GRPCAddr cfg = fl_grpc_addr f ∧ cfg_RaftDir cfg = fl_raft_data_dir f ∧
      (cfg_GossipEnabled cfg = true ↔ fl_gossip_addr f ≠ "") ∧
      (cfg_GossipEnabled cfg = true → fl_gossip_seeds f ≠ "" →
       join_comma (string_bytes <$> cfg_GossipSeeds cfg) = string_bytes (fl_gossip_seeds f) ∧
       Forall (λ s, byte_of_Z 44 ∉ string_bytes s) (cfg_GossipSeeds cfg))
  | Err e => fl_raft_id f = "" ∨ fl_raft_addr f = "" ∨ fl_grpc_addr f = ""
  | _ => False
  end.
Proof.
  unfold main_config. do 3 (case_decide; [by auto|]). simpl. do 7 (split; [done|]). split.
  { rewrite negb_true_iff, bool_decide_eq_false. done. }
  intros Hg Hs. rewrite Hg, (bool_decide_eq_false_2 _ Hs). simpl.
  rewrite <-list_fmap_compose.
  assert ((string_bytes ∘ bytes_string) <$> split_comma (string_bytes (fl_gossip_seeds f)) =
          split_comma (string_bytes (fl_gossip_seeds f))) as ->.
  { rewrite <-(list_fmap_id (split_comma _)) at 2. apply list_fmap_ext. intros. apply string_bytes_string. }
  split; [apply split_comma_join|]. apply Forall_fmap. eapply Forall_impl; [apply split_comma_free|].
  intros s Hc. simpl. by rewrite string_bytes_string.
Qed.

Section main_theorems.
Context {P : Pebble} `{!PebbleLaws P, !PebbleReliable P} {PF : Platform}.

(** The time until the signal leaves the resources of a started engine as they
    are, and its state machine running. *)
Definition keeps_running (ran : Engine → Engine) (w : world) : Prop :=
  ∀ cfg e x, NewEngineWithConfig cfg (MkConns ∅ []) w = (Ok e, x) →
       n_trace (en_node (ran e)) = n_trace (en_node e) ∧ en_gossip (ran e) = en_gossip e ∧
       en_shutdown (ran e) = en_shutdown e ∧ conns_ok (en_conns (ran e)) ∧
       ∃ n m, running n m (n_fw (en_node (ran e))).

(** The whole program. When a flag is missing it ends before anything is
    acquired; when it comes to its end after a signal, nothing that it acquired is
    still held, except the two goroutines that it has told to end. *)
Theorem node_main_outcome f ran others w :
  keeps_running ran w → others_ok others →
  match node_main f ran others w with
  | (Ok _, tr) => ∀ r, r ≠ RObserve → r ≠ RMonitor → held r tr = 0
  | (Err e, tr) => tr = [] ∧ (fl_raft_id f = "" ∨ fl_raft_addr f = "" ∨ fl_grpc_addr f = "")
  | _ => True
  end.
Proof.
  intros Hran Hoth. unfold node_main. pose proof (main_config_outcome f) as Hf.
  destruct (main_config f) as [cfg|e|m|]; [|done..].
  destruct (NewEngineWithConfig cfg _ w) as [[e|?|?|] [w1 tr]] eqn:E; [|done..].
  destruct (NewEngine_Ok_inv _ _ _ _ _ _ E) as (Htr & _ & Hsh & Hg & _).
  destruct (Hran _ _ _ E) as (Ht & Hgo & Hs & Hc & n & m & Hr).
  destruct (close_points_ok others (ran e) n m Hoth Hr Hc) as (_ & Hcl & _).
  rewrite (engine_Close_ok others (ran e)) by by rewrite ?Hs.
  simpl. rewrite Ht, Htr, Hgo, Hg. intros r. unfold acquired, released.
  by destruct (cfg_GossipEnabled cfg), r.
Qed.
End main_theorems.

(** ** Witnesses *)

Definition Calm {P : Pebble} : Platform := {|
  NewPebbleStore := λ _, None;
  NewFileSnapshotStore := λ _, None;
  ResolveTCPAddr := λ _, None;
  NewTCPTransport := λ _, None;
  NewRaft := λ fw, (None, fw);
  BootstrapCluster := λ _ _, None;
  AppliedIndex := 7;
  DefaultLANConfig := MkMLConfig "" "0.0.0.0" 7946 "" 7946;
  memberlist_Create := λ _, None;
  Listen := λ _, None;
|}.

(** The same, but the cluster has been bootstrapped before. *)
Definition Bootstrapped {P : Pebble} : Platform := {|
  NewPebbleStore := λ _, None;
  NewFileSnapshotStore := λ _, None;
  ResolveTCPAddr := λ _, None;
  NewTCPTransport := λ _, None;
  NewRaft := λ fw, (None, fw);
  BootstrapCluster := λ _ _, Some (Errno 1);
  AppliedIndex := 7;
  DefaultLANConfig := MkMLConfig "" "0.0.0.0" 7946 "" 7946;
  memberlist_Create := λ _, None;
  Listen := λ _, None;
|}.

Definition demo_cfg (boot gossip : bool) : EngineConfig :=
  MkConfig "/d" "n" "127.0.0.1:50051" "127.0.0.1:40051" boot gossip "0.0.0.0:7946" [] defaultStaticLookup.

Definition demo_fresh : world (P := Mem no_fault) := MkWorld (MkDisk ∅ ∅ ∅) ∅ [] [7] [1700000000] [].

(** A start on an empty disk, and the engine it gives. *)
Definition demo_run (gossip : bool) : res (Engine (P := Mem no_fault)) * (world * list action) :=
  NewEngineWithConfig (PF := Calm) (demo_cfg true gossip) (MkConns ∅ []) demo_fresh.

Definition demo_started (gossip : bool) : Engine (P := Mem no_fault) :=
  match (demo_run gossip).1 with
  | Ok e => e
  | _ => MkEngine (MkNode demo_fsm []) None (AStatic (NewStaticResolver [])) (AStatic (NewStaticResolver []))
           (MkConns ∅ []) false
  end.

Definition demo_left (gossip : bool) : world := (demo_run gossip).2.1.
Definition demo_trace (gossip : bool) : list action := (demo_run gossip).2.2.

Lemma demo_started_ok gossip :
  NewEngineWithConfig (PF := Calm) (demo_cfg true gossip) (MkConns ∅ []) demo_fresh =
    (Ok (demo_started gossip), (demo_left gossip, demo_trace gossip)).
Proof.
  unfold demo_started, demo_left, demo_trace. fold (demo_run gossip).
  assert (is_ok (demo_run gossip).1 = true) as H by (destruct gossip; vm_compute; reflexivity).
  destruct (demo_run gossip) as [[e|?|?|] [w tr]]; simpl in *; done.
Qed.

Lemma no_conns_ok : conns_ok (MkConns ∅ []).
Proof. by split. Qed.

(** Raft applies nothing more, and a handler dials the leader. *)
Definition demo_rpc : Grpc := {| DialContext _ _ := None; Invoke _ _ _ _ := inr (Errno 1) |}.

Definition demo_others : interference (P := Mem no_fault) :=
  λ i p, match i with 0%nat => (p.1, (getOrCreateConn (R := demo_rpc) id "a" p.2).2) | _ => p end.

Lemma demo_others_ok : others_ok demo_others.
Proof.
  split; intros [|i]; simpl; eauto.
  - intros fw c Hc. unfold getOrCreateConn. destruct (cached_conn "a" c); [done|]. by apply create_conn_ok.
  - intros fw c k a Hk. unfold getOrCreateConn. destruct (cached_conn "a" c); [done|].
    unfold create_conn, id. destruct (cached_conn "a" c); [done|]. simpl. apply lookup_app_l_Some.
    destruct (connCache c !! "a") as [j|]; [|done]. simpl. destruct (decide (k = j)) as [->|Hne].
    + by rewrite list_lookup_alter_eq, Hk.
    + by rewrite list_lookup_alter_ne.
Qed.

Lemma shutdown_releases_everything_witness :
  ∃ e2, engine_Close demo_others (MkEngine (MkNode demo_fsm (n_trace (en_node (demo_started true)))) (en_gossip (demo_started true))
           (en_resolver (demo_started true)) (en_service (demo_started true)) demo_conns
           (en_shutdown (demo_started true))) = (Ok tt, e2) ∧
        held RStore (n_trace (en_node e2)) = 0 ∧ held RGossip (n_trace (en_node e2)) = 0 ∧
        conn_made (en_conns e2) !! 0%nat = Some ("a", Shutdown).
Proof.
  destruct (shutdown_releases_everything (PF := Calm) (demo_cfg true true) (MkConns ∅ []) demo_fresh
    (demo_started true) (demo_left true) (demo_trace true) demo_fsm demo_conns "a" demo_map demo_others
    (demo_started_ok true) demo_running demo_conns_ok demo_others_ok)
    as (e2 & H1 & _ & H2 & _ & _ & _ & H3 & _).
  exact (ex_intro _ e2 (conj H1 (conj (H2 RStore) (conj (H2 RGossip) (H3 0%nat "a" TransientFailure eq_refl))))).
Defined.

Lemma GetResolver_differs_witness :
  GetGRPCAddr (GetResolver (demo_started false)) "127.0.0.1:50051" = None ∧
  en_service (demo_started false) = AStatic (NewStaticResolver defaultStaticLookup).
Proof.
  exact (GetResolver_differs (PF := Calm) (demo_cfg true false) (MkConns ∅ []) demo_fresh (demo_started false)
           (demo_left false) (demo_trace false) "127.0.0.1:50051" (demo_started_ok false) eq_refl).
Defined.

(** A second start with [--raft_bootstrap]. *)
Definition demo_opened : fworld (P := Mem no_fault) :=
  match (NewStateMachine "127.0.0.1:50051" "n" "/d/n/user_data" demo_fresh).1 with
  | Ok fw => fw
  | _ => demo_fsm
  end.

Lemma demo_opened_ok :
  NewStateMachine "127.0.0.1:50051" "n" "/d/n/user_data" demo_fresh =
    (Ok demo_opened, (NewStateMachine "127.0.0.1:50051" "n" "/d/n/user_data" demo_fresh).2).
Proof.
  unfold demo_opened.
  assert (is_ok (NewStateMachine "127.0.0.1:50051" "n" "/d/n/user_data" demo_fresh).1 = true) as H
    by (vm_compute; reflexivity).
  destruct (NewStateMachine "127.0.0.1:50051" "n" "/d/n/user_data" demo_fresh) as [[fw|?|?|] w]; simpl in *; done.
Qed.

Definition demo_refused : res (Engine (P := Mem no_fault)) * (world * list action) :=
  NewEngineWithConfig (PF := Bootstrapped) (demo_cfg true false) (MkConns ∅ []) demo_fresh.

Lemma demo_refused_ok :
  demo_refused = (Err (Wrapf "raft.Raft.BootstrapCluster: %v" [] (Errno 1)),
                  (demo_refused.2.1, demo_refused.2.2)).
Proof.
  assert (match demo_refused.1 with Err e => Some e | _ => None end =
          Some (Wrapf "raft.Raft.BootstrapCluster: %v" [] (Errno 1))) as H by (vm_compute; reflexivity).
  destruct demo_refused as [[?|e|?|] [w tr]]; simpl in *; congruence.
Qed.

Lemma failed_start_leaks_witness :
  held RStore demo_refused.2.2 = 1 ∧ (∀ r, Release r ∉ demo_refused.2.2).
Proof.
  apply (failed_start_leaks (PF := Bootstrapped) (demo_cfg true false) (MkConns ∅ []) demo_fresh demo_opened
    (NewStateMachine "127.0.0.1:50051" "n" "/d/n/user_data" demo_fresh).2
    (Wrapf "raft.Raft.BootstrapCluster: %v" [] (Errno 1)) demo_refused.2.1).
  - exact demo_opened_ok.
  - exact demo_refused_ok.
Defined.

(** A node that serves one entry from [/d/n/user_data/a]. *)
Definition user_disk : disk (P := Mem no_fault) :=
  MkDisk (<[path_of "/d" := NDir]> (<[path_of "/d/n" := NDir]> (<[path_of "/d/n/user_data" := NDir]>
           (<[path_of "/d/n/user_data/a" := NDir]>
           (<[path_of "/d/n/user_data/pebble.running" := NFile (dirname_record "/d/n/user_data/a") true]> ∅)))))
         (<[path_of "/d/n/user_data/a" := ({[ string_bytes "k" := string_bytes "v" ]} : gmap bytes bytes)]> ∅) ∅.

Definition user_store : sworld (P := Mem no_fault) :=
  MkSW (MkStore "/d/n/user_data" (path_of "/d/n/user_data/a") false)
       (MkWorld user_disk ∅ [] [7] [1700000000] []).

Definition user_fsm : fworld (P := Mem no_fault) := MkFW demo_sm user_store (MkChans 1 ∅).

Lemma user_above q data s :
  below q (path_of "/d/n/user_data") → d_fs user_disk !! q ≠ Some (NFile data s).
Proof.
  intros Hq Hf. cbn [user_disk d_fs] in Hf.
  repeat (apply lookup_insert_Some in Hf as [[Hp Hd]|[_ Hf]]; [try done|]);
    [|by rewrite lookup_empty in Hf].
  subst q. destruct Hq as [_ Hq]. vm_compute in Hq. destruct Hq as [k Hk].
  by apply (f_equal length) in Hk.
Qed.

Lemma user_running : running "a" demo_map user_fsm.
Proof.
  split; [|done].
  split; [by vm_compute|by split|by vm_compute|intros q data s; apply user_above|by vm_compute..| |].
  - apply not_elem_of_empty.
  - exists demo_map. split; [|done]. apply lookup_insert_eq.
Qed.

Lemma user_base_ok : base_ok "/d/n/user_data" (sw_world user_store).
Proof.
  split; [intros q data s; apply user_above|by vm_compute|].
  cbn [user_store sw_world w_disk user_disk d_fs]. demo_entries.
Qed.

Lemma calm_quiet cfg host port h p :
  SplitHostPort (string_bytes (cfg_GRPCAddr cfg)) = Ok (host, port) →
  ParseHostPort (string_bytes (cfg_GossipAddr cfg)) = Ok (h, p) →
  quiet (PF := Calm (P := Mem no_fault)) cfg.
Proof. intros H1 H2. split; try done; [|by exists host, port]. intros _. split; [by exists h, p|done]. Qed.

Definition user_engine : Engine (P := Mem no_fault) :=
  MkEngine (MkNode user_fsm []) None (AStatic (NewStaticResolver [])) (AStatic (NewStaticResolver []))
    (MkConns ∅ []) false.

Lemma restart_keeps_data_witness :
  ∃ e1 e2 w2 tr,
    engine_Close (λ _ p, p) user_engine = (Ok tt, e1) ∧
    NewEngineWithConfig (PF := Calm) (demo_cfg false true) (MkConns ∅ []) (sw_world (fw_sw (n_fw (en_node e1)))) =
      (Ok e2, (w2, tr)) ∧
    running "a" demo_map (n_fw (en_node e2)) ∧ fsmIndex (fw_sm (n_fw (en_node e2))) = 7.
Proof.
  apply (restart_keeps_data (PF := Calm) (demo_cfg true false) (demo_cfg false true) (MkConns ∅ []) user_engine "a" demo_map (λ _ p, p)).
  - done.
  - exact user_running.
  - reflexivity.
  - reflexivity.
  - reflexivity.
  - exact user_base_ok.
  - reflexivity.
  - reflexivity.
  - apply (calm_quiet (demo_cfg false true) (string_bytes "127.0.0.1") (string_bytes "40051") (string_bytes "0.0.0.0") 7946);
      vm_compute; reflexivity.
  - simpl. lia.
Defined.
