(* ===== verification/Output.v ===== *)
(** * Output.v: encoding/json's [MarshalIndent] and [time.Duration.String], which
    the statistics are printed with.

    [jout] is what the statistics are made of; [print] its JSON text with an
    indentation of four spaces. The parser of Json.v reads the text back. *)
From S2P Require Import Prelude Json Addr Gossip.

(** ** Values *)

Inductive jout :=
| OStr (s : string)
| OInt (z : Z)
| OBool (b : bool)
| OArr (l : list jout)
| OObj (l : list (string * jout)).

(** Nested induction: the property of every part. *)
Section jout_ind.
Context (Q : jout → Prop).
Context (HStr : ∀ s, Q (OStr s)) (HInt : ∀ z, Q (OInt z)) (HBool : ∀ b, Q (OBool b)).
Context (HArr : ∀ l, Forall Q l → Q (OArr l)) (HObj : ∀ l, Forall (λ kv, Q kv.2) l → Q (OObj l)).

Fixpoint jout_nested_ind (v : jout) : Q v :=
  match v with
  | OStr s => HStr s
  | OInt z => HInt z
  | OBool b => HBool b
  | OArr l =>
      HArr l ((fix go (l : list jout) : Forall Q l :=
                 match l with
                 | [] => Forall_nil_2 Q
                 | v :: l => Forall_cons_2 Q v l (jout_nested_ind v) (go l)
                 end) l)
  | OObj l =>
      HObj l ((fix go (l : list (string * jout)) : Forall (λ kv, Q kv.2) l :=
                 match l with
                 | [] => Forall_nil_2 _
                 | kv :: l => Forall_cons_2 _ kv l (jout_nested_ind kv.2) (go l)
                 end) l)
  end.
End jout_ind.

(** A Go map is printed in the order of its keys. *)
Definition key_le (a b : string * jout) : Prop := String.le a.1 b.1.
#[global] Instance key_le_dec : RelDecision key_le.
Proof. intros a b. unfold key_le. apply _. Defined.

Definition of_map (m : gmap string jout) : jout := OObj (merge_sort key_le (map_to_list m)).

(** ** The text *)

Definition space : byte := byte_of_Z 32.
Definition lbracket : byte := byte_of_Z 91.
Definition rbracket : byte := byte_of_Z 93.

(** A new line, [d] levels deep. *)
Definition newline (d : nat) : bytes := byte_of_Z 10 :: repeat space (4 * d).

(** The parts of an array or an object, each on a line of its own. *)
Definition print_list {A} (pr : A → bytes) (d : nat) : list A → bytes :=
  fix go l :=
    match l with
    | [] => []
    | x :: l => newline (S d) ++ pr x ++ match l with [] => [] | _ => comma :: go l end
    end.

Fixpoint print (d : nat) (v : jout) : bytes :=
  match v with
  | OStr s => quoted (encode_string (string_bytes s)) []
  | OInt z => string_bytes (pretty z)
  | OBool b => string_bytes (if b then "true" else "false")
  | OArr [] => [lbracket; rbracket]
  | OArr l => lbracket :: print_list (print (S d)) d l ++ newline d ++ [rbracket]
  | OObj [] => [lbrace; rbrace]
  | OObj l =>
      lbrace ::
      print_list (λ kv, quoted (encode_string (string_bytes kv.1)) [] ++ colon :: space :: print (S d) kv.2) d l ++
      newline d ++ [rbrace]
  end.

(** [json.MarshalIndent(v, "", "    ")] *)
Definition MarshalIndent (v : jout) : bytes := print 0 v.

(** What the text means: strings come back with every byte that is not UTF-8
    replaced. *)
Fixpoint to_json (v : jout) : json :=
  match v with
  | OStr s => JStr (sanitize (string_bytes s))
  | OInt z => JNum (string_bytes (pretty z))
  | OBool b => JBool b
  | OArr l => JArr (map to_json l)
  | OObj l => JObj (map (λ kv, (sanitize (string_bytes kv.1), to_json kv.2)) l)
  end.

Fixpoint height (v : jout) : Z :=
  match v with
  | OArr l => 1 + foldr (λ v h, Z.max (height v) h) 0 l
  | OObj l => 1 + foldr (λ kv h, Z.max (height kv.2) h) 0 l
  | _ => 0
  end.

Example MarshalIndent_example :
  MarshalIndent (OObj [("a", OInt 1); ("b", OArr [OBool true; OStr "<"]); ("c", OObj [])]) =
  string_bytes "{" ++ newline 1 ++ quoted (string_bytes "a") (string_bytes ": 1," ++ newline 1 ++
    quoted (string_bytes "b") (string_bytes ": [" ++ newline 2 ++ string_bytes "true," ++ newline 2 ++
      quoted (string_bytes "\u003c") (newline 1 ++ string_bytes "]," ++ newline 1 ++
        quoted (string_bytes "c") (string_bytes ": {}" ++ newline 0 ++ string_bytes "}")))).
Proof. vm_compute. reflexivity. Qed.

(** ** time.Duration.String *)

(** [fmtFrac]: the last [prec] digits without trailing zeros, and the rest. *)
Fixpoint fmtFrac (prec : nat) (v : Z) (started : bool) (buf : bytes) : bytes * Z :=
  match prec with
  | O => (if started then byte_of_Z 46 :: buf else buf, v)
  | S prec =>
      let digit := v mod 10 in
      let started := started || negb (bool_decide (digit = 0)) in
      fmtFrac prec (v / 10) started (if started : bool then byte_of_Z (48 + digit) :: buf else buf)
  end.

Definition decimal (z : Z) : bytes := string_bytes (pretty z).

(** The duration [d] in nanoseconds. *)
Definition Duration_String (d : Z) : string :=
  let u := Z.abs d in
  let body :=
    if decide (u < 1000000000) then
      if decide (u = 0) then string_bytes "0s"
      else if decide (u < 1000) then decimal u ++ string_bytes "ns"
      else if decide (u < 1000000) then
        let '(f, v) := fmtFrac 3 u false [] in decimal v ++ f ++ [byte_of_Z 0xC2; byte_of_Z 0xB5] ++ string_bytes "s"
      else let '(f, v) := fmtFrac 6 u false [] in decimal v ++ f ++ string_bytes "ms"
    else
      let '(f, v) := fmtFrac 9 u false [] in
      let seconds := decimal (v mod 60) ++ f ++ string_bytes "s" in
      let minutes := v / 60 in
      if decide (minutes > 0) then
        let seconds := decimal (minutes mod 60) ++ string_bytes "m" ++ seconds in
        let hours := minutes / 60 in
        if decide (hours > 0) then decimal hours ++ string_bytes "h" ++ seconds else seconds
      else seconds in
  bytes_string (if decide (d < 0) then byte_of_Z 45 :: body else body).

Example Duration_examples :
  Duration_String 0 = "0s" ∧ Duration_String 1500000000 = "1.5s" ∧ Duration_String 1100000 = "1.1ms" ∧
  Duration_String 3723000000001 = "1h2m3.000000001s" ∧ Duration_String (-90000000000) = "-1m30s" ∧
  Duration_String 42 = "42ns".
Proof. vm_compute. done. Qed.

(** ** The parser reads the text back *)

(** What may follow a number. *)
Definition num_end (rest : bytes) : Prop :=
  match rest with
  | [] => True
  | b :: _ => is_digit b = false ∧ byte_val b ≠ 46 ∧ byte_val b ≠ 101 ∧ byte_val b ≠ 69
  end.

Lemma digits_app d rest : forallb is_digit d = true → num_end rest → digits (d ++ rest) = (d, rest).
Proof.
  intros Hd Hr. induction d as [|b d IH]; simpl in *.
  - destruct rest as [|b r]; [done|]. destruct Hr as [Hb _]. simpl. by rewrite Hb.
  - apply andb_true_iff in Hd as [-> Hd]. by rewrite (IH Hd).
Qed.

(** A positive number does not start with a zero. *)
Lemma pretty_N_go_head x s :
  (0 < x)%N → ∃ b r, string_bytes (pretty_N_go x s) = b :: r ∧ 49 ≤ byte_val b ≤ 57.
Proof.
  revert s. induction (N.lt_wf_0 x) as [x _ IH]; intros s Hx.
  rewrite pretty_N_go_step by done.
  destruct (decide (x `div` 10 = 0)%N) as [Hd|Hd]; [|apply IH; [by apply N.div_lt|by apply N.neq_0_lt_0]].
  rewrite Hd, pretty_N_go_0. apply N.div_small_iff in Hd; [|done]. rewrite N.mod_small by done.
  destruct (pretty_char_byte x Hd) as (b & Hb & Hv & _).
  exists b, (string_bytes s). split; [by rewrite <-Hb|lia].
Qed.

(** How a number is printed: a sign, then digits. *)
Lemma decimal_shape z :
  ∃ b d, forallb is_digit (b :: d) = true ∧ (d = [] ∨ byte_val b ≠ 48) ∧
         decimal z = (if decide (z < 0) then [byte_of_Z 45] else []) ++ b :: d.
Proof.
  assert (∀ p, ∃ b d, forallb is_digit (b :: d) = true ∧ byte_val b ≠ 48 ∧
                      string_bytes (pretty (Npos p)) = b :: d) as Hp.
  { intros p. destruct (pretty_N_digits (Npos p)) as (d & E & Hd & _ & _).
    destruct (pretty_N_go_head (Npos p) "") as (b & r & E' & Hb); [done|].
    assert (pretty (Npos p) = pretty_N_go (Npos p) "") as Hp by reflexivity.
    rewrite Hp, E' in E. rewrite Hp, E'. subst d. exists b, r. split; [exact Hd|]. split; [lia|done]. }
  destruct z as [|p|p].
  - exists (byte_of_Z 48), []. split; [by vm_compute|]. split; [by left|by vm_compute].
  - destruct (Hp p) as (b & d & ? & ? & E). exists b, d. split; [done|]. split; [by right|]. exact E.
  - destruct (Hp p) as (b & d & ? & ? & E). exists b, d. split; [done|]. split; [by right|].
    unfold decimal. change (string_bytes (pretty (Zneg p))) with (byte_of_Z 45 :: string_bytes (pretty (Npos p))).
    by rewrite E.
Qed.

Lemma parse_num_decimal z rest : num_end rest → parse_num (decimal z ++ rest) = Some (decimal z, rest).
Proof.
  intros Hr. destruct (decimal_shape z) as (b & d & Hd & Hz & ->).
  assert (parse_frac rest = Some ([], rest)) as Hf.
  { destruct rest as [|c r]; [done|]. destruct Hr as (_ & ? & _). unfold parse_frac. by rewrite decide_False. }
  assert (parse_exp rest = Some ([], rest)) as He.
  { destruct rest as [|c r]; [done|]. destruct Hr as (_ & _ & ? & ?). unfold parse_exp. rewrite decide_False; [done|lia]. }
  assert (parse_int_part ((b :: d) ++ rest) = Some (b :: d, rest)) as Hi.
  { unfold parse_int_part. rewrite digits_app by done. case_decide; [|done]. by destruct Hz as [->|]. }
  assert (∀ sg, match parse_int_part ((b :: d) ++ rest) with
    | Some (i, l2) => match parse_frac l2 with
        | Some (f, l3) => match parse_exp l3 with Some (e, l4) => Some (sg ++ i ++ f ++ e, l4) | None => None end
        | None => None end
    | None => None end = Some (sg ++ b :: d, rest)) as Hall.
  { intros sg. rewrite Hi, Hf, He. by rewrite !app_nil_r. }
  unfold parse_num. case_decide as Hn.
  - cbn [app]. rewrite (decide_True (P := byte_val (byte_of_Z 45) = 45)) by by vm_compute. apply (Hall [byte_of_Z 45]).
  - pose proof Hd as [Hb _]%andb_true_iff. apply digit_val in Hb.
    cbn [app]. rewrite (decide_False (P := byte_val b = 45)) by lia. apply (Hall []).
Qed.

Lemma is_space_false b : 33 ≤ byte_val b → is_space b = false.
Proof. intros H. unfold is_space. rewrite !bool_decide_eq_false_2 by lia. done. Qed.

Lemma value_number f depth z rest :
  num_end rest → value (S f) depth (decimal z ++ rest) = Some (JNum (decimal z), rest).
Proof.
  intros Hr. pose proof (parse_num_decimal z rest Hr) as Hp.
  destruct (decimal_shape z) as (b & d & Hd & _ & E). rewrite E in *. clear E.
  assert (∃ c r, ((if decide (z < 0) then [byte_of_Z 45] else []) ++ b :: d) ++ rest = c :: r ∧
                 (byte_val c = 45 ∨ 48 ≤ byte_val c ≤ 57)) as (c & r & E & Hc).
  { pose proof Hd as [Hb _]%andb_true_iff. apply digit_val in Hb. case_decide.
    - eexists _, _. split; [reflexivity|]. by left.
    - eexists _, _. split; [reflexivity|]. by right. }
  rewrite E in *. cbn [value skip_ws]. rewrite is_space_false by lia. unfold char_is.
  rewrite !bool_decide_eq_false_2 by lia. cbv iota. by rewrite Hp.
Qed.

(** ** White space *)

Lemma skip_ws_newline d l : skip_ws (newline d ++ l) = skip_ws l.
Proof.
  unfold newline. cbn [app skip_ws]. change (is_space (byte_of_Z 10)) with true. cbv iota.
  induction (4 * d)%nat as [|n IH]; [done|]. cbn [repeat app skip_ws].
  change (is_space space) with true. exact IH.
Qed.

Lemma skip_ws_idemp l : skip_ws (skip_ws l) = skip_ws l.
Proof. induction l as [|b l IH]; [done|]. simpl. destruct (is_space b) eqn:E; [done|]. simpl. by rewrite E. Qed.

Lemma value_ws f depth l l' : skip_ws l = skip_ws l' → value f depth l = value f depth l'.
Proof. intros H. destruct f; [done|]. cbn [value]. by rewrite H. Qed.

Lemma members_ws f depth l l' : skip_ws l = skip_ws l' → members f depth l = members f depth l'.
Proof. intros H. destruct f; [done|]. cbn [members]. by rewrite H. Qed.

Lemma elements_ws f depth l l' : skip_ws l = skip_ws l' → elements f depth l = elements f depth l'.
Proof. intros H. destruct f; [done|]. cbn [elements]. by rewrite (value_ws _ _ _ _ H). Qed.

(** ** Objects and arrays *)

(** A field, as the text of an object has it. *)
Definition print_field (d : nat) (kv : string * jout) : bytes :=
  quoted (encode_string (string_bytes kv.1)) [] ++ colon :: space :: print (S d) kv.2.

(** The text of a value starts with none of these. *)
Lemma print_head d v :
  ∃ b r, print d v = b :: r ∧ is_space b = false ∧ char_is 93 b = false.
Proof.
  destruct v as [s|z|[]|[|v l]|[|kv l]]; try (eexists _, _; split; [reflexivity|by vm_compute]).
  destruct (decimal_shape z) as (b & d' & Hd & _ & E). cbn [print]. fold (decimal z). rewrite E.
  pose proof Hd as [Hb _]%andb_true_iff. apply digit_val in Hb.
  case_decide; [eexists _, _; split; [reflexivity|by vm_compute]|].
  eexists _, _. split; [reflexivity|]. split; [apply is_space_false; lia|].
  unfold char_is. rewrite bool_decide_eq_false_2 by lia. done.
Qed.

Lemma quoted_app s a b : quoted s a ++ b = quoted s (a ++ b).
Proof. unfold quoted. cbn [app]. by rewrite <-(assoc_L (++)). Qed.

Lemma num_end_newline d l : num_end (newline d ++ l).
Proof. unfold newline. simpl. by vm_compute. Qed.

Lemma num_end_comma l : num_end (comma :: l).
Proof. by vm_compute. Qed.

(** Reading one value of depth [d], whatever follows. *)
Definition reads_back (v : jout) : Prop := ∀ d depth rest fuel,
  depth + height v ≤ maxNestingDepth → num_end rest →
  (2 * length (print d v ++ rest) < fuel)%nat →
  value fuel depth (print d v ++ rest) = Some (to_json v, rest).

(** The elements of an array. *)
Lemma elements_print l d depth rest fuel :
  Forall reads_back l → l ≠ [] →
  depth + foldr (λ v h, Z.max (height v) h) 0 l ≤ maxNestingDepth →
  (2 * length (print_list (print (S d)) d l ++ newline d ++ rbracket :: rest) + 1 < fuel)%nat →
  elements fuel depth (print_list (print (S d)) d l ++ newline d ++ rbracket :: rest) =
    Some (map to_json l, rest).
Proof.
  intros Hl. revert fuel. induction Hl as [|v l Hv Hl IH]; intros fuel Hne Hd Hf; [done|].
  destruct fuel as [|fuel]; [lia|]. cbn [foldr] in Hd.
  set (text := print_list _ d (v :: l) ++ _) in *.
  set (after := match l with [] => [] | _ => comma :: print_list (print (S d)) d l end ++ newline d ++ rbracket :: rest).
  assert (text = newline (S d) ++ print (S d) v ++ after) as Et.
  { subst text after. destruct l; cbn [print_list]; by rewrite <-!(assoc_L (++)). }
  cbn [elements]. rewrite (value_ws fuel depth text (print (S d) v ++ after)) by (rewrite Et; apply skip_ws_newline).
  rewrite Et in Hf. rewrite length_app in Hf. unfold newline in Hf. simpl length in Hf.
  rewrite Hv; [|lia| |lia].
  2:{ subst after. destruct l; [apply num_end_newline|apply num_end_comma]. }
  destruct l as [|v' l].
  - subst after. cbn [app]. rewrite skip_ws_newline. reflexivity.
  - subst after. cbn [app skip_ws]. change (is_space comma) with false. cbv iota.
    change (char_is 93 comma) with false. change (char_is 44 comma) with true. cbv iota.
    rewrite IH; [done..|lia|]. rewrite length_app in Hf. cbn [app length] in Hf. lia.
Qed.

Lemma members_key f d k l :
  members (S f) d (quoted (encode_string k) (colon :: l)) =
    match value f d l with
    | None => None
    | Some (v, r3) =>
        match skip_ws r3 with
        | e :: r4 =>
            if char_is 125 e then Some ([(sanitize k, v)], r4)
            else if char_is 44 e then
              match members f d r4 with
              | Some (ms, r5) => Some ((sanitize k, v) :: ms, r5)
              | None => None
              end
            else None
        | [] => None
        end
    end.
Proof.
  unfold quoted. cbn [members skip_ws]. change (is_space quote) with false. cbv iota.
  change (negb (char_is 34 quote)) with false. cbv iota. rewrite parse_str_encode.
  cbn [skip_ws]. change (is_space colon) with false. cbv iota.
  by change (negb (char_is 58 colon)) with false.
Qed.

Definition field_json (kv : string * jout) : bytes * json := (sanitize (string_bytes kv.1), to_json kv.2).

Lemma print_list_app {A} (pr : A → bytes) d x l rest :
  print_list pr d (x :: l) ++ rest =
    newline (S d) ++ pr x ++ (match l with [] => [] | _ => comma :: print_list pr d l end ++ rest).
Proof. change (print_list pr d (x :: l)) with (newline (S d) ++ pr x ++ match l with [] => [] | _ => comma :: print_list pr d l end). by rewrite <-!(assoc_L (++)). Qed.

Lemma print_field_app d k v rest :
  print_field d (k, v) ++ rest = quoted (encode_string (string_bytes k)) (colon :: space :: print (S d) v ++ rest).
Proof. unfold print_field. rewrite <-(assoc_L (++)), quoted_app. done. Qed.

(** The members of an object. *)
Lemma members_print l d depth rest fuel :
  Forall (λ kv, reads_back kv.2) l → l ≠ [] →
  depth + foldr (λ kv h, Z.max (height kv.2) h) 0 l ≤ maxNestingDepth →
  (2 * length (print_list (print_field d) d l ++ newline d ++ rbrace :: rest) < fuel)%nat →
  members fuel depth (print_list (print_field d) d l ++ newline d ++ rbrace :: rest) =
    Some (map field_json l, rest).
Proof.
  intros Hl. revert fuel. induction Hl as [|[k v] l Hv Hl IH]; intros fuel Hne Hd Hf; [done|].
  destruct fuel as [|fuel]; [lia|]. cbn [foldr snd] in Hd, Hv.
  set (text := print_list _ d ((k, v) :: l) ++ _) in *.
  set (after := match l with [] => [] | _ => comma :: print_list (print_field d) d l end ++ newline d ++ rbrace :: rest).
  assert (text = newline (S d) ++ quoted (encode_string (string_bytes k)) (colon :: space :: print (S d) v ++ after)) as Et.
  { subst text after. rewrite print_list_app, print_field_app. done. }
  rewrite (members_ws _ depth text (quoted (encode_string (string_bytes k)) (colon :: space :: print (S d) v ++ after)))
    by (rewrite Et; apply skip_ws_newline).
  rewrite members_key.
  rewrite (value_ws fuel depth (space :: print (S d) v ++ after) (print (S d) v ++ after)) by reflexivity.
  rewrite Et in Hf. unfold newline, quoted in Hf. cbn [app length] in Hf. rewrite !length_app in Hf.
  cbn [app length] in Hf. rewrite length_app in Hf. cbn [length] in Hf.
  rewrite Hv; [|lia| |rewrite length_app in *; lia].
  2:{ subst after. destruct l; [apply num_end_newline|apply num_end_comma]. }
  destruct l as [|kv' l].
  - subst after. cbn [app]. rewrite skip_ws_newline. reflexivity.
  - subst after. cbn [app skip_ws]. change (is_space comma) with false. cbv iota.
    change (char_is 125 comma) with false. change (char_is 44 comma) with true. cbv iota.
    rewrite IH; [done..|lia|]. rewrite length_app in Hf. cbn [app length] in Hf. lia.
Qed.

Lemma value_open_array f depth l :
  depth < maxNestingDepth → (∃ b r, skip_ws l = b :: r ∧ char_is 93 b = false) →
  value (S f) depth (lbracket :: l) =
    match elements f (depth + 1) l with Some (es, r2) => Some (JArr es, r2) | None => None end.
Proof.
  intros Hd (b & r & E & Hb). cbn [value skip_ws]. change (is_space lbracket) with false. cbv iota.
  change (char_is 123 lbracket) with false. change (char_is 91 lbracket) with true. cbv iota.
  rewrite decide_False by lia. rewrite E, Hb. rewrite (elements_ws f _ (b :: r) l); [done|].
  by rewrite <-E, skip_ws_idemp.
Qed.

Lemma value_open_object f depth l :
  depth < maxNestingDepth → (∃ b r, skip_ws l = b :: r ∧ char_is 125 b = false) →
  value (S f) depth (lbrace :: l) =
    match members f (depth + 1) l with Some (ms, r2) => Some (JObj ms, r2) | None => None end.
Proof.
  intros Hd (b & r & E & Hb). cbn [value skip_ws]. change (is_space lbrace) with false. cbv iota.
  change (char_is 123 lbrace) with true. cbv iota.
  rewrite decide_False by lia. rewrite E, Hb. rewrite (members_ws f _ (b :: r) l); [done|].
  by rewrite <-E, skip_ws_idemp.
Qed.

Lemma height_list_nonneg {A} (h : A → Z) l : 0 ≤ foldr (λ x m, Z.max (h x) m) 0 l.
Proof. induction l; simpl; lia. Qed.

Lemma skip_ws_print_list {A} (pr : A → bytes) d x l rest :
  (∃ b r, pr x = b :: r ∧ is_space b = false) →
  ∃ r, skip_ws (print_list pr d (x :: l) ++ rest) = match pr x with b :: _ => b :: r | [] => [] end.
Proof.
  intros (b & r & E & Hb). cbn [print_list]. rewrite <-!(assoc_L (++)), skip_ws_newline, E.
  cbn [app skip_ws]. rewrite Hb. eauto.
Qed.

Lemma print_reads_back v : reads_back v.
Proof.
  induction v as [s|z|b|l IH|l IH] using jout_nested_ind; intros d depth rest fuel Hh Hr Hf;
    (destruct fuel as [|fuel]; [by apply Nat.nlt_0_r in Hf|]); cbn [height] in Hh.
  - cbn [print]. rewrite quoted_app. cbn [app]. apply value_encoded.
  - apply value_number, Hr.
  - by destruct b.
  - destruct l as [|v l].
    { cbn [foldr] in Hh. cbn [print app value skip_ws]. change (is_space lbracket) with false. cbv iota.
      change (char_is 123 lbracket) with false. change (char_is 91 lbracket) with true. cbv iota.
      rewrite decide_False by lia. reflexivity. }
    assert (print d (OArr (v :: l)) ++ rest =
            lbracket :: (print_list (print (S d)) d (v :: l) ++ newline d ++ rbracket :: rest)) as Ht
      by (cbn [print app]; by rewrite <-!(assoc_L (++))).
    rewrite Ht in *. cbn [length] in Hf. pose proof (height_list_nonneg height (v :: l)).
    rewrite value_open_array; [|lia|].
    + rewrite elements_print; [done|done|done|lia|lia].
    + destruct (print_head (S d) v) as (b & r & E & Hs & Hb).
      destruct (skip_ws_print_list (print (S d)) d v l (newline d ++ rbracket :: rest)) as [r' E']; [by eauto|].
      rewrite E in E'. exists b, r'. split; [exact E'|done].
  - destruct l as [|[k v] l].
    { cbn [foldr] in Hh. cbn [print app value skip_ws]. change (is_space lbrace) with false. cbv iota.
      change (char_is 123 lbrace) with true. cbv iota. rewrite decide_False by lia. reflexivity. }
    assert (print d (OObj ((k, v) :: l)) ++ rest =
            lbrace :: (print_list (print_field d) d ((k, v) :: l) ++ newline d ++ rbrace :: rest)) as Ht
      by (cbn [print app]; fold (print_field d); by rewrite <-!(assoc_L (++))).
    rewrite Ht in *. cbn [length] in Hf.
    pose proof (height_list_nonneg (λ kv : string * jout, height kv.2) ((k, v) :: l)).
    rewrite value_open_object; [|lia|].
    + rewrite members_print; [done|done|done|lia|lia].
    + destruct (skip_ws_print_list (print_field d) d (k, v) l (newline d ++ rbrace :: rest)) as [r' E'].
      { eexists _, _. split; [reflexivity|by vm_compute]. }
      eexists quote, r'. split; [exact E'|by vm_compute].
Qed.

(** What [MarshalIndent] prints is one JSON value, and it is the value that was
    printed: the parser of [Unmarshal] reads it back (every byte that is not
    UTF-8 replaced in strings). Values nested deeper than 10000 are not read by
    the parser. *)
Theorem MarshalIndent_reads_back v :
  height v ≤ maxNestingDepth → parse (MarshalIndent v) = Some (to_json v).
Proof.
  intros Hh. unfold parse, MarshalIndent. pose proof (print_reads_back v 0%nat 0 [] (S (2 * length (print 0 v)))) as H.
  rewrite app_nil_r in H. rewrite H; [done|lia|done|lia].
Qed.

Lemma MarshalIndent_reads_back_witness :
  parse (MarshalIndent (OObj [("voter", OBool true); ("nodes", OArr [OInt (-3); OStr "n1"])])) =
    Some (JObj [(string_bytes "voter", JBool true);
                (string_bytes "nodes", JArr [JNum (string_bytes "-3"); JStr (string_bytes "n1")])]).
Proof.
  rewrite (MarshalIndent_reads_back (OObj [("voter", OBool true); ("nodes", OArr [OInt (-3); OStr "n1"])]))
    by (vm_compute; congruence).
  vm_compute. reflexivity.
Defined.
