(* ===== verification/Stats.v ===== *)
(** * Stats.v: engine/kv.go [Stats] and service/service.go [Stat].

    The statistics are a map that gathers what raft, the data directories and the
    state machine report; the RPC handler answers with its JSON text. *)
From S2P Require Import Prelude Binary Paths Pebble FileSystem DataDir Snapshot Json Store Fsm History Leader Kv Addr Gossip Service Engine Output.

(** A value of raft's own statistics: a number where it reads as one. *)
Definition raft_value (v : string) : jout :=
  match ParseInt64 (string_bytes v) with
  | Ok z => OInt z
  | _ => OStr v
  end.

(** [omitempty] *)
Definition nonempty_field (k v : string) : list (string * jout) :=
  if decide (v = "") then [] else [(k, OStr v)].

Definition Server_json (x : Server) : jout :=
  OObj (nonempty_field "id" (ID x) ++ nonempty_field "addr" (Addr x) ++ nonempty_field "suffrage" (Suffrage x)).

Definition map_json (l : list (string * jout)) : jout := of_map (list_to_map l).

Section stats.
Context {P : Pebble} {R : Raft}.
(** [raft.Stats()], the counters of the observer, and a time in the time zone of
    the host. *)
Context (raft_Stats : raft_node R → gmap string string).
Context (GetNumObserved GetNumDropped : raft_node R → Z).
Context (Format_RFC3339 : Z → string).

(** The map of fsm.go. *)
Definition fsm_json (st : fsm_stats) : jout :=
  let m := stat_metrics st in
  map_json [("fsm_index", OInt (stat_index st));
            ("fsm_dir", OStr (stat_dir st));
            ("fsm_dir_size", OInt (stat_dir_size st));
            ("snapshot_count", OInt (SnapshotCount m));
            ("restore_count", OInt (RestoreCount m));
            ("last_snapshot_duration", OStr (Duration_String (LastSnapshotDuration m)));
            ("last_snapshot_size", OInt (LastSnapshotSize m));
            ("last_snapshot_records", OInt (LastSnapshotRecords m));
            ("last_snapshot_time", OStr (Format_RFC3339 (LastSnapshotTime m)));
            ("last_restore_duration", OStr (Duration_String (LastRestoreDuration m)));
            ("last_restore_time", OStr (Format_RFC3339 (LastRestoreTime m)))].

Definition on_rstore {A} (m : GoM fworld A) : GoM raftServer A :=
  λ s, let '(r, fw) := m (rs_store s) in
       (r, MkServer (rs_raftId s) (rs_raftAddr s) (rs_raftDir s) (dbAppliedIndex s) (rs_raft s) fw).

Definition logSize : GoM raftServer Z :=
  s <- go_get ;;
  on_rstore (on_store (on_world (DirSize (Join (rs_raftDir s) raftDBPath)))).

Definition kv_Stats : GoM raftServer (gmap string jout) :=
  nodes <- Nodes ;;
  s <- go_get ;;
  let '(leaderAddr, leaderID) := raft_LeaderWithID (rs_raft s) in
  let raftStats := raft_value <$> raft_Stats (rs_raft s) in
  size <- logSize ;;
  let raftStats := <["log_size" := OInt size]> raftStats in
  voter <- IsVoter ;;
  let raftStats := <["voter" := OBool voter]> raftStats in
  dirSz <- on_rstore (on_store (on_world (DirSize (rs_raftDir s)))) ;;
  fsmStats <- on_rstore Stats ;;
  s <- go_get ;;
  go_ret (list_to_map
    [("node_id", OStr (rs_raftId s));
     ("raft", of_map raftStats);
     ("db_applied_index", OInt (dbAppliedIndex s));
     ("last_applied_index", OInt (raft_AppliedIndex (rs_raft s)));
     ("addr", OStr (rs_raftAddr s));
     ("leader", map_json [("node_id", OStr leaderID); ("addr", OStr leaderAddr)]);
     ("observer", map_json [("observed", OInt (GetNumObserved (rs_raft s)));
                            ("dropped", OInt (GetNumDropped (rs_raft s)))]);
     ("nodes", OArr (map Server_json nodes));
     ("raft_dir", OStr (rs_raftDir s));
     ("raft_dir_size", OInt dirSz);
     ("fsm", fsm_json fsmStats)]).
End stats.

(** The handler, over whatever node gives the statistics. *)
Definition Stat {S T : Type} (KV_Stats : GoM S (gmap string jout)) : GoM (GRPCService (S := S) (T := T)) string :=
  stats <- on_kv KV_Stats ;;
  let b := MarshalIndent (of_map stats) in
  go_ret (bytes_string b).

(** ** The size of a directory *)

Section dirsize.
Context {P : Pebble}.

Definition file_size (n : FileSystem.node) : Z :=
  match n with NFile data _ => len data | NDir => 0 end.

(** The bytes of all files of the tree. *)
Definition disk_usage (root : path) (d : disk) : Z :=
  foldr (λ p s, default 0 (file_size <$> d_fs d !! p) + s) 0
        (filter (below root) (map_to_list (d_fs d)).*1).

Lemma walk_sizes_ok l size w :
  w_orc w = [] → Forall (λ p, is_Some (d_fs (w_disk w) !! p)) l →
  ∃ w', walk_sizes l size w =
          (Ok (size + foldr (λ p s, default 0 (file_size <$> d_fs (w_disk w) !! p) + s) 0 l), w') ∧
        w_disk w' = w_disk w ∧ w_orc w' = [] ∧ ∀ h, only_db h w w'.
Proof.
  intros Ho Hl. revert size w Ho Hl. induction l as [|p l IH]; intros size w Ho Hl.
  { exists w. simpl. rewrite Z.add_0_r. done. }
  apply Forall_cons in Hl as [[x Hx] Hl].
  assert (os_Lstat p w = (Ok x, upd w (w_disk w))) as E by (apply sys_ok; [done|by rewrite Hx]).
  destruct (IH (size + file_size x) (upd w (w_disk w))) as (w' & H & Hd & Ho' & Hdb); try done.
  exists w'. cbn [walk_sizes]. unfold go_try. rewrite E. cbn [foldr]. rewrite Hx. cbn [fmap option_fmap option_map default].
  split; [|split; [done|split; [done|]]].
  - destruct x as [|data sy]; simpl in *; rewrite ?Z.add_0_r in H; rewrite H; simpl; do 2 f_equal; lia.
  - intros h. etrans; [|apply Hdb]. split_and!; done.
Qed.

Lemma DirSize_ok name w :
  w_orc w = [] →
  ∃ w', DirSize name w = (Ok (disk_usage (path_of name) (w_disk w)), w') ∧
        w_disk w' = w_disk w ∧ w_orc w' = [] ∧ ∀ h, only_db h w w'.
Proof.
  intros Ho. unfold DirSize. erewrite go_bind_ok by reflexivity.
  destruct (walk_sizes_ok (filter (below (path_of name)) (map_to_list (d_fs (w_disk w))).*1) 0 w Ho)
    as (w' & H & ?).
  - apply Forall_forall. intros p [_ Hp]%list_elem_of_filter.
    apply list_elem_of_fmap in Hp as ([q x] & -> & Hq). apply elem_of_map_to_list in Hq. simpl. by rewrite Hq.
  - exists w'. by rewrite H.
Qed.
End dirsize.

(** ** Theorems *)

(** Look an entry of a map literal up. *)
Ltac map_entry :=
  cbn [list_to_map foldr fst snd]; repeat (rewrite lookup_insert_ne by done); apply lookup_insert_eq.

Section stats_theorems.
Context {P : Pebble} `{!PebbleLaws P, !PebbleReliable P} {R : Raft}.
Context (raft_Stats : raft_node R → gmap string string).
Context (GetNumObserved GetNumDropped : raft_node R → Z) (Format_RFC3339 : Z → string).

(** What [Stats] reports about raft: its own statistics, the size of its log, and
    whether the node is a voter. *)
Definition raft_report (r : raft_node R) (logsize : Z) (voter : bool) : gmap string jout :=
  <["voter" := OBool voter]> (<["log_size" := OInt logsize]> (raft_value <$> raft_Stats r)).

(** A system call that leaves the databases alone, on a server that is up. *)
Lemma on_rstore_world_ok {A} (m : GoM world A) a w' n k s :
  running n k (rs_store s) → m (sw_world (fw_sw (rs_store s))) = (Ok a, w') →
  w_disk w' = w_disk (sw_world (fw_sw (rs_store s))) → (∀ h, only_db h (sw_world (fw_sw (rs_store s))) w') →
  ∃ s', on_rstore (on_store (on_world m)) s = (Ok a, s') ∧ running n k (rs_store s') ∧
        sw_world (fw_sw (rs_store s')) = w' ∧ rs_raft s' = rs_raft s ∧ rs_raftDir s' = rs_raftDir s ∧ rs_raftId s' = rs_raftId s ∧
        sw_store (fw_sw (rs_store s')) = sw_store (fw_sw (rs_store s)) ∧
        fw_sm (rs_store s') = fw_sm (rs_store s).
Proof.
  intros [Hsv Hcl] H Hd Ho. unfold on_rstore, on_store, on_world. rewrite H. eexists. split; [reflexivity|].
  split; [|done]. split; [|exact Hcl]. simpl. destruct s as [i a' dr ap r [sm [st w] ch]]. simpl in *.
  pose proof Hsv as [_ _ _ _ _ _ _ _ _ (db & Hdb & Hm)]. simpl in *.
  eapply serves_write; [exact Hsv|apply Ho| |exact Hm]. by rewrite Hd.
Qed.

(** C36: [Stats] of a server whose store is up, when no system call fails. Raft is
    asked for its configuration twice, and the two answers may differ. [Stats]
    fails with the error of the first answer that is one, and then and otherwise
    leaves the data alone. If both are configurations it reports the servers of the
    first one, each with its ID, address and suffrage, in ascending order of the
    IDs; whether the first server of the second one that has the node's ID is a
    voter (no, if there is none); raft's applied index; and raft's own statistics,
    in which every value that is the decimal text of a 64-bit integer has become
    that integer. *)
Theorem Stats_reports n m s :
  running n m (rs_store s) → w_orc (sw_world (fw_sw (rs_store s))) = [] →
  let stats := kv_Stats raft_Stats GetNumObserved GetNumDropped Format_RFC3339 s in
  let '(c1, r1) := raft_GetConfiguration (rs_raft s) in
  let '(c2, r2) := raft_GetConfiguration r1 in
  match c1, c2 with
  | inr e, _ => ∃ s', stats = (Err e, s') ∧ running n m (rs_store s')
  | inl _, inr e => ∃ s', stats = (Err e, s') ∧ running n m (rs_store s')
  | inl servers, inl servers' => ∃ st s' nodes logsize voter,
      stats = (Ok st, s') ∧ running n m (rs_store s') ∧
      st !! "nodes" = Some (OArr (map Server_json nodes)) ∧
      nodes ≡ₚ map (λ x, MkServerInfo (srv_ID x) (srv_Address x) (Suffrage_String (srv_Suffrage x))) servers ∧
      Sorted (λ a b, String.le (ID a) (ID b)) nodes ∧
      st !! "last_applied_index" = Some (OInt (raft_AppliedIndex r2)) ∧
      st !! "raft" = Some (of_map (raft_report r1 logsize voter)) ∧
      (voter = true ↔ ∃ before srv after, servers' = before ++ srv :: after ∧
         Forall (λ x, srv_ID x ≠ rs_raftId s) before ∧ srv_ID srv = rs_raftId s ∧ srv_Suffrage srv = Voter) ∧
      (∀ k z, k ≠ "voter" → k ≠ "log_size" → - 2 ^ 63 ≤ z < 2 ^ 63 →
              raft_Stats r1 !! k = Some (pretty z) → raft_report r1 logsize voter !! k = Some (OInt z))
  end.
Proof.
  intros Hup Ho stats. pose proof (Nodes_sorted s) as Hn.
  destruct (raft_GetConfiguration (rs_raft s)) as [c1 r1] eqn:E1.
  destruct (raft_GetConfiguration r1) as [c2 r2] eqn:E2. unfold stats, kv_Stats.
  destruct c1 as [servers|e].
  2:{ eexists. split; [by apply go_bind_err|exact Hup]. }
  destruct Hn as (nodes & Hn & Hp & Hsorted & _).
  set (s0 := set_raft r1 s) in *. assert (running n m (rs_store s0)) as Hup0 by done.
  erewrite go_bind_ok by exact Hn. erewrite go_bind_ok by reflexivity.
  destruct (raft_LeaderWithID (rs_raft s0)) as [leaderAddr leaderID].
  destruct (DirSize_ok (Join (rs_raftDir s0) raftDBPath) _ Ho) as (w1 & H1 & Hd1 & Ho1 & Hdb1).
  destruct (on_rstore_world_ok _ _ _ n m s0 Hup0 H1 Hd1 Hdb1) as (s1 & F1 & Hup1 & Hw1 & Hr1 & Hdir1 & Hid1 & Hst1 & Hsm1).
  cbv zeta. assert (logSize s0 = (Ok (disk_usage (path_of (Join (rs_raftDir s0) raftDBPath))
    (w_disk (sw_world (fw_sw (rs_store s0))))), s1)) as HL by (unfold logSize; erewrite go_bind_ok by reflexivity; exact F1).
  erewrite go_bind_ok by exact HL.
  assert (IsVoter s1 = (match c2 with inr e => Err e | inl l => Ok (find_voter (rs_raftId s) l) end, set_raft r2 s1)) as Hv.
  { unfold IsVoter. rewrite Hr1. cbn [s0 set_raft rs_raft]. by rewrite E2, Hid1. }
  destruct c2 as [servers'|e].
  2:{ eexists. split; [by apply go_bind_err|exact Hup1]. }
  erewrite go_bind_ok by exact Hv. set (s1' := set_raft r2 s1) in *. assert (running n m (rs_store s1')) as Hup1' by done.
  rewrite <-Hw1 in Ho1.
  destruct (DirSize_ok (rs_raftDir s0) _ Ho1) as (w2 & H2 & Hd2 & Ho2 & Hdb2).
  destruct (on_rstore_world_ok _ _ _ n m s1' Hup1' H2 Hd2 Hdb2) as (s2 & F2 & Hup2 & Hw2 & Hr2 & Hdir2 & Hid2 & Hst2 & Hsm2).
  erewrite go_bind_ok by exact F2. rewrite <-Hw2 in Ho2.
  destruct (DirSize_ok (baseDir (sw_store (fw_sw (rs_store s2)))) _ Ho2) as (w3 & H3 & Hd3 & Ho3 & Hdb3).
  destruct (on_rstore_world_ok _ _ _ n m s2 Hup2 H3 Hd3 Hdb3) as (s3 & F3 & Hup3 & _ & Hr3 & _).
  assert (on_rstore Stats s2 =
    (Ok (MkStats (fsmIndex (fw_sm (rs_store s2))) (baseDir (sw_store (fw_sw (rs_store s2))))
           (disk_usage (path_of (baseDir (sw_store (fw_sw (rs_store s2))))) (w_disk (sw_world (fw_sw (rs_store s2)))))
           (metrics (fw_sm (rs_store s2)))), s3)) as F4.
  { unfold on_rstore, Stats, on_store, on_world, the_store, the_sm, go_bind, go_ret in *. simpl in *.
    rewrite H3 in *. simpl in *. by injection F3 as <-. }
  erewrite go_bind_ok by exact F4. erewrite go_bind_ok by reflexivity.
  eexists _, s3, nodes, _, (find_voter (rs_raftId s) servers'). split; [reflexivity|]. split; [done|].
  split; [map_entry|]. split; [exact Hp|]. split; [exact Hsorted|].
  split; [rewrite <-Hr2, <-Hr3 || (rewrite Hr3, Hr2; cbn [s1' set_raft rs_raft]); map_entry|].
  split; [map_entry|]. split; [apply find_voter_spec|].
  intros k z Hk1 Hk2 Hz Hk. unfold raft_report. rewrite !lookup_insert_ne by done.
  rewrite lookup_fmap, Hk. simpl. unfold raft_value. by rewrite ParseInt64_pretty.
Qed.
End stats_theorems.

Lemma height_of_map_Forall m : Forall (λ kv, height kv.2 ≤ height (of_map m) - 1) (merge_sort key_le (map_to_list m)).
Proof.
  unfold of_map. cbn [height]. generalize (merge_sort key_le (map_to_list m)). intros l.
  induction l as [|kv l IH]; [constructor|]. cbn [foldr]. constructor; [lia|].
  eapply Forall_impl; [exact IH|]. intros x Hx. simpl in *. lia.
Qed.

(** C35: [Stat] answers with JSON. The text is one JSON object whose members are
    the entries of the map that [Stats] returned, one member per entry, each with
    its value (strings with every byte that is not UTF-8 replaced). *)
Theorem Stat_answers_json {S T : Type} (KV_Stats : GoM S (gmap string jout))
    (s : GRPCService (S := S) (T := T)) stats k :
  KV_Stats (sv_kv s) = (Ok stats, k) → height (of_map stats) ≤ maxNestingDepth →
  ∃ text ms, Stat KV_Stats s = (Ok text, MkService k (sv_resolver s) (sv_conns s)) ∧
    parse (string_bytes text) = Some (JObj ms) ∧
    length ms = size stats ∧
    ∀ name v, stats !! name = Some v → (sanitize (string_bytes name), to_json v) ∈ ms.
Proof.
  intros H Hh. unfold Stat. erewrite go_bind_ok by (unfold on_kv; by rewrite H).
  eexists _, _. split; [reflexivity|]. rewrite string_bytes_string, (MarshalIndent_reads_back _ Hh).
  split; [reflexivity|]. split.
  - rewrite length_map, merge_sort_Permutation, length_map_to_list. done.
  - intros name v Hv. apply list_elem_of_fmap. exists (name, v). split; [done|].
    rewrite merge_sort_Permutation. by apply elem_of_map_to_list.
Qed.

(** ** Witnesses *)

Definition demo_raft_Stats {P : Pebble} (r : raft_node Solo) : gmap string string :=
  {["term" := pretty 3; "state" := "Leader"]}.

Lemma demo_server_quiet : w_orc (sw_world (fw_sw (rs_store demo_server))) = [].
Proof. reflexivity. Qed.

Lemma Stats_reports_witness :
  ∃ st s' m nodes, kv_Stats demo_raft_Stats (λ _, 0) (λ _, 0) (λ _, "") demo_server = (Ok st, s') ∧
    st !! "raft" = Some (of_map m) ∧ m !! "term" = Some (OInt 3) ∧
    st !! "nodes" = Some (OArr (map Server_json nodes)) ∧
    nodes ≡ₚ [MkServerInfo "node1" "127.0.0.1:7000" "Voter"] ∧
    st !! "last_applied_index" = Some (OInt 7).
Proof.
  pose proof (Stats_reports (R := Solo) demo_raft_Stats (λ _, 0) (λ _, 0) (λ _, "") "a" demo_map demo_server
    demo_running demo_server_quiet) as H.
  destruct H as (st & s' & nodes & size & voter & H1 & _ & H2 & H3 & _ & H4 & H5 & _ & H6).
  exists st, s', (raft_report demo_raft_Stats (rs_raft demo_server) size voter), nodes.
  split; [exact H1|]. split; [exact H5|]. split; [apply (H6 "term" 3); [done|done|lia|reflexivity]|].
  split; [exact H2|]. split; [exact H3|exact H4].
Defined.

Lemma Stat_answers_json_witness :
  let st : gmap string jout := {["addr" := OStr "127.0.0.1:7000"]} in
  ∃ text ms, Stat (λ k : nat, (Ok st, k)) (MkService (T := StaticResolver) 0%nat (NewStaticResolver []) (MkConns ∅ [])) =
    (Ok text, MkService 0%nat (NewStaticResolver []) (MkConns ∅ [])) ∧
    parse (string_bytes text) = Some (JObj ms) ∧
    (string_bytes "addr", JStr (string_bytes "127.0.0.1:7000")) ∈ ms.
Proof.
  intros st.
  destruct (Stat_answers_json (λ k : nat, (Ok st, k))
    (MkService (T := StaticResolver) 0%nat (NewStaticResolver []) (MkConns ∅ [])) st 0%nat eq_refl) as (t & ms & H1 & H2 & _ & H3).
  { vm_compute. congruence. }
  exists t, ms. split; [exact H1|]. split; [exact H2|]. exact (H3 "addr" (OStr "127.0.0.1:7000") eq_refl).
Defined.
