(* ===== verification/System.v ===== *)
(** * System.v: the parts together.

    The RPC service of service.go over the node of engine/kv.go: what a client of
    the leader sees. *)
From S2P Require Import Prelude Binary Paths Pebble FileSystem DataDir Snapshot Json Store Fsm History Replica Leader Kv Gossip Service.

Section system.
Context {P : Pebble} `{!PebbleLaws P, !PebbleReliable P} {GZ : Gzip} `{!GzipLaws GZ}.
Context {R : Raft} (m : gmap bytes bytes) `{!RaftLaws R m}.
Context {T : Type} `{!AddressResolver T} {G : Grpc} `{!GrpcLaws G}.
Context (ToCamel : string → string).

(** The service of a node; [o] is what its consistent reads find. *)
Abbreviation service := (GRPCService (S := raftServer) (T := T)).

(** On the leader nothing is forwarded. *)
Lemma leader_Add o between until key val (s : service) :
  IsLeader (sv_kv s) = true →
  Add (KV0 := server_KV o) ToCamel between until key val s =
    let '(r, k) := kv_Apply until key val (sv_kv s) in
    (res_bind r (λ i, Ok (AddResponse i)), MkService k (sv_resolver s) (sv_conns s)).
Proof.
  intros Hl. unfold Add, forwardRequestToLeader. go_simpl. unfold GetLeader. rewrite Hl.
  unfold on_kv. simpl. destruct (kv_Apply until key val (sv_kv s)) as [[i|e|p|] k]; done.
Qed.

Lemma leader_Get o between key linearizable (s : service) :
  IsLeader (sv_kv s) = true →
  Get (KV0 := server_KV o) ToCamel between key linearizable s =
    let '(r, k) := kv_Query (string_bytes key) linearizable o (sv_kv s) in
    (res_bind r (λ '(i, v), Ok (GetResponse i (bytes_string v))), MkService k (sv_resolver s) (sv_conns s)).
Proof.
  intros Hl. unfold Get, forwardRequestToLeader, Get_local. destruct linearizable.
  - go_simpl. unfold GetLeader. rewrite Hl. unfold on_kv. simpl.
    destruct (kv_Query _ _ _ _) as [[[i v]|e|p|] k]; done.
  - unfold go_bind, on_kv. simpl. destruct (kv_Query _ _ _ _) as [[[i v]|e|p|] k]; done.
Qed.

(** The service after raft has driven the node for any time. *)
Definition later (p : raft_node R * fworld) (s : service) : service :=
  MkService (set_node p (sv_kv s)) (sv_resolver s) (sv_conns s).

(** C6: What a client of the leader sees. The leader has answered [Add] with an
    index; after any time, in which raft may have committed and applied other
    entries, it answers [Get] for the same key, linearizable or not, while it
    leads. The entry that was added is in the committed log at some position with
    that index, and the answer is the value of the key after a prefix of the log
    that holds the entry: what was added, unless a later entry of that prefix wrote
    the key. *)
Theorem client_reads_its_write o between1 between2 until key val linearizable (s s1 s2 : service) p i j v :
  up m (sv_kv s) → obs_ok m o → IsLeader (sv_kv s) = true →
  Add (KV0 := server_KV o) ToCamel between1 until key val s = (Ok (AddResponse i), s1) →
  raft_moves m (rs_raft (sv_kv s1), rs_store (sv_kv s1)) p → IsLeader (sv_kv (later p s1)) = true →
  Get (KV0 := server_KV o) ToCamel between2 key linearizable (later p s1) = (Ok (GetResponse j v), s2) →
  let log := raft_log (rs_raft (sv_kv s2)) in
  ∃ at_ k, log !! at_ = Some (MkLog i (proposal key val)) ∧ (at_ < k ≤ length log)%nat ∧
    string_bytes v = value_at m (string_bytes key) log k ∧
    ((∀ q e, (at_ < q < k)%nat → log !! q = Some e → writes_key (string_bytes key) (Data e) = false) → v = val).
Proof.
  intros Hup Hobs Hl Ha Hmv Hl1 Hg. rewrite leader_Add in Ha by done. rewrite leader_Get in Hg by done.
  destruct (kv_Apply until key val (sv_kv s)) as [[i'|e|p'|] k] eqn:E; try done. injection Ha as -> <-.
  cbn [later sv_kv] in *. destruct (kv_Query _ _ _ _) as [[[j' w]|e|p'|] k2] eqn:E2; try done.
  injection Hg as -> <- <-. cbn [sv_kv].
  destruct (written_is_read m _ _ _ _ _ _ _ _ _ _ _ _ Hup Hobs E Hmv E2) as (at_ & n & H1 & H2 & H3 & H4).
  exists at_, n. rewrite string_bytes_string. split; [done|]. split; [done|]. split; [done|].
  intros Hno. rewrite (H4 Hno). apply bytes_string_bytes.
Qed.
End system.

(** ** Witness *)

Definition demo_leader : GRPCService (S := raftServer (R := Solo)) (T := StaticResolver) :=
  NewGrpcService demo_server [] (MkConns ∅ []).

Definition no_grpc : Grpc := {| DialContext _ _ := None; Invoke _ _ _ _ := inr ErrNoLeader |}.

#[local] Instance no_grpc_laws : GrpcLaws no_grpc.
Proof. by split. Qed.

Definition demo_added : GRPCService (S := raftServer (R := Solo)) (T := StaticResolver) :=
  MkService demo_written (NewStaticResolver []) (MkConns ∅ []).

(** Between the two requests the leader commits a write of another key. *)
Definition demo_later : raft_node (Solo (P := Mem no_fault)) * fworld :=
  (raft_Apply (Raft := Solo) (proposal "y" "2") 0 (rs_raft demo_written, rs_store demo_written)).2.

Lemma demo_later_moves : raft_moves (G := Stored) demo_map (rs_raft demo_written, rs_store demo_written) demo_later.
Proof.
  unfold demo_later. destruct (raft_Apply _ _ _) as [out p'] eqn:E.
  apply (raft_Apply_moves (RaftLaws := solo_laws demo_map) (proposal "y" "2") 0 _ out); [|exact E].
  exact (proj1 (kv_Apply_inv (GzipLaws0 := stored_laws) demo_map (RaftLaws0 := solo_laws demo_map) _ _ _ _ _ _
    demo_up demo_written_ok)).
Qed.

Definition demo_asked : GRPCService (S := raftServer (R := Solo)) (T := StaticResolver) := later demo_later demo_added.

Lemma demo_later_read :
  kv_Query (string_bytes "x") true demo_obs (sv_kv demo_asked) =
    (Ok (9, string_bytes "1"), (kv_Query (string_bytes "x") true demo_obs (sv_kv demo_asked)).2).
Proof.
  assert ((kv_Query (string_bytes "x") true demo_obs (sv_kv demo_asked)).1 = Ok (9, string_bytes "1")) as H
    by (vm_compute; reflexivity).
  destruct (kv_Query (string_bytes "x") true demo_obs (sv_kv demo_asked)). simpl in H. by subst.
Qed.

Lemma client_reads_its_write_witness :
  ∃ (log : list raft_Log) p k, log !! p = Some (MkLog 8 (proposal "x" "1")) ∧
    string_bytes "1" = value_at demo_map (string_bytes "x") log k.
Proof.
  assert (Add (KV0 := server_KV demo_obs) (R := no_grpc) (λ s, s) (λ c, c) None "x" "1" demo_leader =
          (Ok (AddResponse 8), demo_added)) as H1.
  { rewrite leader_Add by reflexivity. change (sv_kv demo_leader) with demo_server. rewrite demo_written_ok. reflexivity. }
  assert (∃ s2, Get (KV0 := server_KV demo_obs) (R := no_grpc) (λ s, s) (λ c, c) "x" true demo_asked =
          (Ok (GetResponse 9 (bytes_string (string_bytes "1"))), s2)) as [s2 H2].
  { rewrite leader_Get by reflexivity. rewrite demo_later_read. eexists. cbv beta iota. cbn [res_bind]. reflexivity. }
  rewrite bytes_string_bytes in H2.
  destruct (client_reads_its_write (GzipLaws0 := stored_laws) (G := no_grpc) demo_map
    (RaftLaws0 := solo_laws demo_map) (λ s, s) demo_obs (λ c, c) (λ c, c)
    None "x" "1" true demo_leader demo_added s2 demo_later 8 9 "1" demo_up demo_obs_ok eq_refl H1
    demo_later_moves eq_refl H2)
    as (p & k & H3 & _ & H4 & _).
  exact (ex_intro _ _ (ex_intro _ p (ex_intro _ k (conj H3 H4)))).
Defined.
