(* ===== verification/Client.v ===== *)
(** * Client.v: cmd/cmd.go, the demonstration client.

    The random identifiers it writes (drawn by rejection sampling), the sequence
    of calls of the key-value demonstration, the client side of a watch, and the
    program. *)
From S2P Require Import Prelude.

(** ** Random identifiers *)

Definition idChars : bytes :=
  string_bytes "ABCDEFGHIJKLMNOPQRSTUVWXYZabcdefghijklmnopqrstuvwxyz0123456789".

(** The largest byte that is used: [255 - byte(256%int(mod))]. *)
Definition max_random_byte (m : Z) : Z := uint 8 (255 - uint 8 (256 mod m)).

(** The loop over the bytes [r] that were read: [b] is what is filled so far;
    the flag tells whether it is full now. *)
Fixpoint fill (length : Z) (m : Z) (b r : bytes) : bytes * bool :=
  match r with
  | [] => (b, false)
  | c :: r =>
      if decide (byte_val c > max_random_byte m) then fill length m b r
      else
        let b := b ++ [byte_of_Z (byte_val c mod m)] in
        if decide (len b = length) then (b, true) else fill length m b r
  end.

(** [source i n] is the [i]-th read of [n] bytes from the random source. *)
Fixpoint random_loop (source : nat → Z → bytes) (length m : Z) (fuel i : nat) (b : bytes) : res bytes :=
  match fuel with
  | O => NoFuel
  | S fuel =>
      let '(b, full) := fill length m b (source i (length + Z.quot length 4)) in
      if full : bool then Ok b else random_loop source length m fuel (S i) b
  end.

(** [fuel] is how often the source is read at most. *)
Definition randomBytesMod (source : nat → Z → bytes) (fuel : nat) (length m : Z) : res bytes :=
  if decide (m = 0) then Panic "integer divide by zero"
  else if decide (length < 0) then Panic "makeslice: len out of range"
  else random_loop source length m fuel 0 [].

Fixpoint to_chars (b : bytes) : res bytes :=
  match b with
  | [] => Ok []
  | c :: b =>
      match idChars !! Z.to_nat (byte_val c) with
      | None => Panic "index out of range"
      | Some x => res_bind (to_chars b) (λ s, Ok (x :: s))
      end
  end.

Definition randomId (source : nat → Z → bytes) (fuel : nat) (idLen : Z) : res string :=
  res_bind (randomBytesMod source fuel idLen (len idChars)) (λ b,
    res_bind (to_chars b) (λ s, Ok (bytes_string s))).

(** ** The key-value demonstration *)

(** The calls of the service's client, and what it logs. *)
Inductive call :=
| CAdd (key val : string)
| CGet (key : string) (linearizable : bool)
| CStat.

(** [answer n c] is the outcome of the call [c], the [n]-th one. *)
Section demo.
Context (answer : nat → call → option error) (ids : nat → string).

(** One call; an error is fatal. *)
Definition rpc (c : call) : GoM (list call) unit :=
  λ s, match answer (length s) c with
       | Some e => (Err e, s ++ [c])
       | None => (Ok tt, s ++ [c])
       end.

(** [ids] are the results of [randomId] in order: a key and a value per round. *)
Fixpoint write_keys (i n : nat) : GoM (list call) (list string) :=
  match n with
  | O => go_ret []
  | S n =>
      let key := ids (2 * i) in
      let val := ids (2 * i + 1) in
      rpc (CAdd key val) ;;
      keys <- write_keys (S i) n ;;
      go_ret (key :: keys)
  end.

Fixpoint read_keys (i : nat) (keys : list string) : GoM (list call) unit :=
  match keys with
  | [] => go_ret tt
  | key :: keys =>
      let linearizable := bool_decide (i `mod` 3 = 0)%nat in
      rpc (CGet key linearizable) ;;
      read_keys (S i) keys
  end.

Definition runKVDemo : GoM (list call) unit :=
  keys <- write_keys 0 5 ;;
  read_keys 0 keys ;;
  rpc CStat.
End demo.

(** ** The client side of a watch *)

Record WatchResponse := MkWatchResponse { w_Value : string; w_CurrentIndex : Z; w_Abandoned : bool }.

Inductive recv := Received (r : WatchResponse) | StreamEOF | StreamError (e : error).

(** What it prints, and what it returns: nil at the end of the stream and when
    the state was abandoned. The last case: nothing has arrived yet. *)
Fixpoint watch_loop (rs : list recv) : list (string * Z) * res unit :=
  match rs with
  | [] => ([], NoFuel)
  | StreamEOF :: _ => ([], Ok tt)
  | StreamError e :: _ => ([], Err e)
  | Received r :: rs =>
      if w_Abandoned r then ([], Ok tt)
      else let '(out, res) := watch_loop rs in ((w_Value r, w_CurrentIndex r) :: out, res)
  end.

Record WatchRequest := MkWatchRequest { wr_Key : string; wr_MinIndex : Z; wr_TimeoutSeconds : Z }.

(** What [c.Watch] comes back with: an error, or a stream. *)
Definition stream : Type := list recv + error.

(** Every call watches from the beginning. *)
Definition doWatchKey (c_Watch : WatchRequest → stream) (key : string) : list (string * Z) * res unit :=
  match c_Watch (MkWatchRequest key 0 30) with
  | inr e => ([], Err e)
  | inl rs => watch_loop rs
  end.

(** One round of the loop of [runWatchDemo]: whether the context is done at its
    head, the answer to its call, and whether it is done when an error comes back. *)
Record round := MkRound { rd_done : bool; rd_watch : WatchRequest → stream; rd_done_after : bool }.

(** The outputs, and how often it slept before a retry. The last case: the
    rounds so far have not ended the loop. *)
Fixpoint watch_demo (key : string) (rounds : list round) : list (string * Z) * nat * res unit :=
  match rounds with
  | [] => ([], 0%nat, NoFuel)
  | r :: rounds =>
      if rd_done r then ([], 0%nat, Ok tt)
      else
        match doWatchKey (rd_watch r) key with
        | (out, Ok _) => let '(out', n, res) := watch_demo key rounds in (out ++ out', n, res)
        | (out, Err _) =>
            if rd_done_after r then (out, 0%nat, Ok tt)
            else let '(out', n, res) := watch_demo key rounds in (out ++ out', S n, res)
        | (out, Panic m) => (out, 0%nat, Panic m)
        | (out, NoFuel) => (out, 0%nat, NoFuel)
        end
  end.

(** The write that starts the demonstration; [log.Fatalf] ends it. The result
    has the call that was made. *)
Definition runWatchDemo (keyToWatch id : string) (add : option error) (rounds : list round) :
    call * (list (string * Z) * nat * res unit) :=
  (CAdd keyToWatch ("initial-value-" +:+ id),
   match add with
   | Some e => ([], 0%nat, Err e)
   | None => watch_demo keyToWatch rounds
   end).

(** What the select of the background writer is woken by: the end of the context,
    or a tick, with the outcome of its write and whether the context is done
    then. *)
Inductive writer_event := WriterDone | WriterTick (err : option error) (done_ : bool).

(** The calls it makes, and whether it has returned. *)
Fixpoint background_writer (keyToWatch : string) (ids : nat → string) (i : nat) (evs : list writer_event) :
    list call * bool :=
  match evs with
  | [] => ([], false)
  | WriterDone :: _ => ([], true)
  | WriterTick err done_ :: evs =>
      let c := CAdd keyToWatch ("updated-" +:+ ids i) in
      let next := let '(cs, b) := background_writer keyToWatch ids (S i) evs in (c :: cs, b) in
      match err with
      | Some _ => if done_ : bool then ([c], true) else next
      | None => next
      end
  end.

(** ** The program *)

(** The configuration of the client (durations in nanoseconds). *)
Record ClientConfig := MkClientConfig {
  Endpoints : list string; BalanceName : string; DialTimeout : Z; DialKeepAliveTime : Z;
  DialKeepAliveTimeout : Z; PermitWithoutStream : bool }.

(** [RoundRobinBalanceName] is the client library's. *)
Definition client_config (RoundRobinBalanceName : string) : ClientConfig :=
  MkClientConfig ["localhost:40051"; "localhost:40052"; "localhost:40053"] RoundRobinBalanceName
    (10 * 1000000000) (10 * 1000000000) (2 * 1000000000) true.

(** The flags [-watch] and [-key] with their defaults. *)
Record client_flags := MkClientFlags { watchMode : bool; keyToWatch : string }.
Definition default_flags : client_flags := MkClientFlags false "test-watch-key".

(** [NewClient] is the library's; [log.Fatalf] is an error. The calls made, and
    how the program ends; the calls of the background writer are in
    [background_writer]. *)
Definition client_main (NewClient : ClientConfig → option error) (RoundRobinBalanceName : string)
    (answer : nat → call → option error) (ids : nat → string) (rounds : list round) (f : client_flags) :
    list call * res unit :=
  match NewClient (client_config RoundRobinBalanceName) with
  | Some e => ([], Err (Wrapf "dialing failed: %v" [] e))
  | None =>
      if watchMode f then
        let add := answer 0%nat (CAdd (keyToWatch f) ("initial-value-" +:+ ids 0%nat)) in
        let '(c, (_, _, r)) := runWatchDemo (keyToWatch f) (ids 0%nat) add rounds in ([c], r)
      else let '(r, cs) := runKVDemo answer ids [] in (cs, r)
  end.

(** ** Rejection sampling *)

(** The bytes that are used, reduced. *)
Definition accepted (m : Z) (r : bytes) : bytes :=
  (λ c, byte_of_Z (byte_val c mod m)) <$> filter (λ c, byte_val c ≤ max_random_byte m) r.

Lemma accepted_app m r r' : accepted m (r ++ r') = accepted m r ++ accepted m r'.
Proof. unfold accepted. by rewrite filter_app, fmap_app. Qed.

Lemma accepted_cons m c r :
  accepted m (c :: r) =
    if decide (byte_val c > max_random_byte m) then accepted m r
    else byte_of_Z (byte_val c mod m) :: accepted m r.
Proof.
  unfold accepted. case_decide.
  - rewrite filter_cons_False by lia. done.
  - rewrite filter_cons_True by lia. done.
Qed.

Lemma fill_spec n m b r :
  len b < n →
  fill n m b r = if decide (n ≤ len b + len (accepted m r))
                 then (take (Z.to_nat n) (b ++ accepted m r), true) else (b ++ accepted m r, false).
Proof.
  revert b. induction r as [|c r IH]; intros b Hb.
  { simpl. change (accepted m []) with (@nil byte). rewrite decide_False by (change (len (@nil byte)) with 0; lia).
    by rewrite app_nil_r. }
  cbn [fill]. rewrite accepted_cons. case_decide as Hc; [by apply IH|]. cbv zeta.
  set (x := byte_of_Z (byte_val c mod m)).
  assert (len (b ++ [x]) = len b + 1) as Hl by (rewrite len_app; done).
  rewrite len_cons. pose proof (len_nonneg (accepted m r)) as Hr.
  destruct (decide (len (b ++ [x]) = n)) as [Hn|Hn].
  - rewrite decide_True by lia.
    assert (b ++ x :: accepted m r = (b ++ [x]) ++ accepted m r) as -> by (by rewrite <-(assoc_L (++))).
    rewrite take_app_length' by (unfold len in *; lia). done.
  - rewrite IH by lia. rewrite Hl, <-(assoc_L (++)). simpl.
    destruct (decide (n ≤ len b + (1 + len (accepted m r)))); [rewrite decide_True by lia|rewrite decide_False by lia]; done.
Qed.

(** Everything that is read in [fuel] reads. *)
Definition reads (source : nat → Z → bytes) (n : Z) (i fuel : nat) : bytes :=
  concat ((λ k, source k (n + Z.quot n 4)) <$> seq i fuel).

Lemma random_loop_spec source n m fuel i b :
  len b < n →
  random_loop source n m fuel i b =
    if decide (n ≤ len b + len (accepted m (reads source n i fuel)))
    then Ok (take (Z.to_nat n) (b ++ accepted m (reads source n i fuel))) else NoFuel.
Proof.
  revert i b. induction fuel as [|fuel IH]; intros i b Hb.
  { simpl. rewrite decide_False; [done|]. unfold reads. simpl. change (accepted m []) with (@nil byte).
    change (len (@nil byte)) with 0. lia. }
  cbn [random_loop]. rewrite fill_spec by done.
  unfold reads. cbn [seq fmap list_fmap concat]. fold (reads source n (S i) fuel).
  set (r := source i _). rewrite accepted_app, len_app.
  pose proof (len_nonneg (accepted m (reads source n (S i) fuel))).
  destruct (decide (n ≤ len b + len (accepted m r))) as [Hn|Hn].
  - rewrite decide_True by lia. rewrite (assoc_L (++)).
    rewrite (take_app_le (b ++ accepted m r)) by (rewrite length_app; unfold len in *; lia). done.
  - rewrite IH by (rewrite len_app; lia). rewrite len_app, <-(assoc_L (++)).
    destruct (decide (n ≤ len b + (len (accepted m r) + len (accepted m (reads source n (S i) fuel)))));
      [rewrite decide_True by lia|rewrite decide_False by lia]; done.
Qed.

(** [randomBytesMod] computes what it should, and returns. For a positive
    length and a modulus from 1 to 255, it gives the first [length] bytes that
    are not rejected, reduced by the modulus, as soon as that many have been
    read; every byte of the result is below the modulus. *)
Theorem randomBytesMod_result source fuel n m :
  0 < n → 0 < m < 256 →
  (n ≤ len (accepted m (reads source n 0 fuel)) →
   randomBytesMod source fuel n m = Ok (take (Z.to_nat n) (accepted m (reads source n 0 fuel)))) ∧
  (∀ b, randomBytesMod source fuel n m = Ok b → len b = n ∧ Forall (λ c, byte_val c < m) b).
Proof.
  intros Hn Hm. unfold randomBytesMod. rewrite !decide_False by lia.
  rewrite random_loop_spec by (change (len (@nil byte)) with 0; lia).
  change (len (@nil byte)) with 0. rewrite Z.add_0_l. simpl.
  split; [intros; by rewrite decide_True|].
  intros b. case_decide as Hl; [|done]. intros [= <-]. split.
  - unfold len in *. rewrite length_take. lia.
  - apply Forall_take. unfold accepted. apply Forall_fmap, Forall_forall. intros c _. simpl.
    rewrite byte_val_of_Z. pose proof (Z.mod_pos_bound (byte_val c) m). rewrite Z.mod_small by lia. lia.
Qed.

Lemma randomBytesMod_result_witness :
  let source := λ (i : nat) (n : Z), [byte_of_Z 250; byte_of_Z 63] in
  randomBytesMod source 3 2 62 = Ok [byte_of_Z 1; byte_of_Z 1] ∧
  Forall (λ c, byte_val c < 62) [byte_of_Z 1; byte_of_Z 1].
Proof.
  intros source. destruct (randomBytesMod_result source 3 2 62) as [H1 H2]; [lia|lia|].
  assert (randomBytesMod source 3 2 62 = Ok [byte_of_Z 1; byte_of_Z 1]) as H
    by (rewrite H1; [reflexivity|vm_compute; congruence]).
  split; [exact H|apply (H2 _ H)].
Defined.

(** The byte values 0 to 255. *)
Definition all_bytes : bytes := byte_of_Z <$> seqZ 0 256.

Lemma max_random_byte_spec m : 0 < m < 256 → max_random_byte m = m * (256 / m) - 1.
Proof.
  intros Hm. unfold max_random_byte. pose proof (Z.mod_pos_bound 256 m). pose proof (Z.div_mod 256 m).
  rewrite (uint_small 8 (256 mod m)) by (change (2 ^ 8) with 256; lia).
  rewrite uint_small by (change (2 ^ 8) with 256; lia). lia.
Qed.

(** The sampling has no bias. For every modulus from 1 to 255 and every
    residue, exactly [256 / m] of the 256 byte values are accepted and give that
    residue, so all residues are equally likely when the bytes are. *)
Theorem sampling_is_uniform m r :
  0 < m < 256 → 0 ≤ r < m →
  length (filter (λ c, byte_val c ≤ max_random_byte m ∧ byte_val c mod m = r) all_bytes) = Z.to_nat (256 / m).
Proof.
  intros Hm Hr. pose proof (Z.div_mod 256 m). pose proof (Z.mod_pos_bound 256 m).
  assert (filter (λ c, byte_val c ≤ max_random_byte m ∧ byte_val c mod m = r) all_bytes ≡ₚ
          (λ q, byte_of_Z (m * q + r)) <$> seqZ 0 (256 / m)) as ->.
  2:{ rewrite length_fmap, length_seqZ. done. }
  assert (∀ q, 0 ≤ q < 256 / m → 0 ≤ m * q + r < 256) as Hq by nia.
  apply NoDup_Permutation.
  - apply NoDup_filter. unfold all_bytes. apply NoDup_fmap_2_strong; [|apply NoDup_seqZ].
    intros x y Hx%elem_of_seqZ Hy%elem_of_seqZ E%(f_equal byte_val).
    rewrite !byte_val_of_Z, !Z.mod_small in E by lia. done.
  - apply NoDup_fmap_2_strong; [|apply NoDup_seqZ].
    intros x y Hx%elem_of_seqZ Hy%elem_of_seqZ E%(f_equal byte_val).
    rewrite !byte_val_of_Z, !Z.mod_small in E by (apply Hq; lia). nia.
  - intros c. rewrite list_elem_of_filter, list_elem_of_fmap, max_random_byte_spec by done.
    pose proof (byte_val_range c). split.
    + intros [[Hc Hcr] _]. exists (byte_val c / m). pose proof (Z.div_mod (byte_val c) m).
      split; [rewrite <-Hcr, <-Z.div_mod, byte_of_val by lia; done|].
      apply elem_of_seqZ. split; [apply Z.div_pos; lia|]. apply Z.div_lt_upper_bound; lia.
    + intros (q & -> & Hq'%elem_of_seqZ). rewrite byte_val_of_Z, Z.mod_small by (apply Hq; lia).
      split; [split; [nia|]|].
      * rewrite Z.add_comm, Z.mul_comm, Z.mod_add by lia. apply Z.mod_small. lia.
      * unfold all_bytes. apply list_elem_of_fmap. eexists. split; [reflexivity|].
        apply elem_of_seqZ. pose proof (Hq q). lia.
Qed.

Lemma sampling_is_uniform_witness :
  length (filter (λ c, byte_val c ≤ max_random_byte 62 ∧ byte_val c mod 62 = 61) all_bytes) = 4%nat.
Proof. apply (sampling_is_uniform 62 61); lia. Defined.

Lemma to_chars_ok b :
  Forall (λ c, byte_val c < 62) b →
  ∃ s, to_chars b = Ok s ∧ length s = length b ∧ Forall (λ c, c ∈ idChars) s.
Proof.
  induction 1 as [|c b Hc _ (s & E & Hl & Hs)]; [by exists []|]. simpl.
  pose proof (byte_val_range c).
  destruct (lookup_lt_is_Some_2 idChars (Z.to_nat (byte_val c))) as [x Hx].
  { change (length idChars) with 62%nat. lia. }
  exists (x :: s). rewrite Hx, E. simpl. split_and!; [done|lia|]. constructor; [|done].
  by eapply list_elem_of_lookup_2.
Qed.

(** C34: An identifier has the length that was asked for, and every character of it
    is one of the 62 of [idChars]; indexing [idChars] never panics. *)
Theorem randomId_shape source fuel n :
  0 < n →
  match randomId source fuel n with
  | Ok s => len (string_bytes s) = n ∧ Forall (λ c, c ∈ idChars) (string_bytes s)
  | NoFuel => len (accepted 62 (reads source n 0 fuel)) < n
  | _ => False
  end.
Proof.
  intros Hn. unfold randomId. change (len idChars) with 62. unfold randomBytesMod. rewrite !decide_False by lia.
  rewrite random_loop_spec by done. change (len (@nil byte)) with 0. rewrite Z.add_0_l.
  case_decide as Hl; [|cbn [res_bind]; lia]. cbn [res_bind app].
  assert (Forall (λ c, byte_val c < 62) (take (Z.to_nat n) (accepted 62 (reads source n 0 fuel)))) as Hb.
  { apply Forall_take. unfold accepted. apply Forall_fmap, Forall_forall. intros c _. simpl.
    rewrite byte_val_of_Z. pose proof (Z.mod_pos_bound (byte_val c) 62). rewrite Z.mod_small by lia. lia. }
  assert (length (take (Z.to_nat n) (accepted 62 (reads source n 0 fuel))) = Z.to_nat n) as Hlen
    by (rewrite length_take; unfold len in *; lia).
  destruct (to_chars_ok _ Hb) as (s & -> & Hs1 & Hs2). simpl. rewrite string_bytes_string.
  split; [unfold len in *; lia|done].
Qed.

Lemma randomId_shape_witness :
  let source := λ (i : nat) (n : Z), [byte_of_Z 250; byte_of_Z 63] in
  len (string_bytes "BB") = 2 ∧ Forall (λ c, c ∈ idChars) (string_bytes "BB").
Proof.
  intros source. pose proof (randomId_shape source 3 2) as H.
  assert (randomId source 3 2 = Ok "BB"%string) as E by (vm_compute; reflexivity).
  rewrite E in H. apply H. lia.
Defined.

(** With length 0 the loop never ends: the test that ends it comes after a
    byte is stored. *)
Theorem randomBytesMod_zero_hangs source fuel m :
  0 < m < 256 → (∀ i, source i 0 = []) → randomBytesMod source fuel 0 m = NoFuel.
Proof.
  intros Hm Hs. unfold randomBytesMod. rewrite !decide_False by lia.
  generalize 0%nat as i. induction fuel as [|fuel IH]; intros i; [done|]. simpl.
  change (0 + Z.quot 0 4) with 0. rewrite Hs. simpl. apply IH.
Qed.

Lemma randomBytesMod_zero_hangs_witness : randomBytesMod (λ _ _, []) 1000 0 62 = NoFuel.
Proof. apply randomBytesMod_zero_hangs; [lia|done]. Defined.

(** ** The demonstration *)

(** A fixed sequence of calls. *)
Fixpoint run_calls (answer : nat → call → option error) (l : list call) : GoM (list call) unit :=
  match l with
  | [] => go_ret tt
  | c :: l => rpc answer c ;; run_calls answer l
  end.

Lemma run_calls_spec answer l pre :
  match run_calls answer l pre with
  | (Ok _, s) => s = pre ++ l ∧ ∀ k c, l !! k = Some c → answer (length pre + k)%nat c = None
  | (Err e, s) => ∃ k c, l !! k = Some c ∧ answer (length pre + k)%nat c = Some e ∧ s = pre ++ take (S k) l ∧
                         ∀ j d, (j < k)%nat → l !! j = Some d → answer (length pre + j)%nat d = None
  | _ => False
  end.
Proof.
  revert pre. induction l as [|c l IH]; intros pre; simpl; [by rewrite app_nil_r|].
  unfold rpc at 1, go_bind. destruct (answer (length pre) c) as [e|] eqn:E.
  { exists 0%nat, c. rewrite Nat.add_0_r. split_and!; try done. lia. }
  specialize (IH (pre ++ [c])). rewrite length_app in IH. simpl in IH.
  destruct (run_calls answer l (pre ++ [c])) as [[u|e|p|] s]; try done.
  - destruct IH as [-> H]. rewrite <-(assoc_L (++)). split; [done|].
    intros [|k] d; simpl; [intros [= <-]; by rewrite Nat.add_0_r|]. intros Hd.
    specialize (H k d Hd). by replace (length pre + S k)%nat with (length pre + 1 + k)%nat by lia.
  - destruct IH as (k & d & Hd & He & -> & H). exists (S k), d. simpl. split; [done|].
    replace (length pre + S k)%nat with (length pre + 1 + k)%nat by lia. split; [done|].
    rewrite <-(assoc_L (++)). split; [done|].
    intros [|j] d' Hj; simpl; [intros [= <-]; by rewrite Nat.add_0_r|]. intros Hd'.
    specialize (H j d' ltac:(lia) Hd'). by replace (length pre + S j)%nat with (length pre + 1 + j)%nat by lia.
Qed.

Lemma run_calls_app answer l l' s :
  run_calls answer (l ++ l') s = go_bind (run_calls answer l) (λ _, run_calls answer l') s.
Proof.
  revert s. induction l as [|c l IH]; intros s; [done|]. simpl. unfold go_bind at 1 2 3.
  destruct (rpc answer c s) as [[u|e|p|] s']; [by rewrite IH|done..].
Qed.

Lemma write_keys_calls answer ids i n s :
  write_keys answer ids i n s =
    go_bind (run_calls answer ((λ j, CAdd (ids (2 * j)%nat) (ids (2 * j + 1)%nat)) <$> seq i n))
            (λ _, go_ret ((λ j, ids (2 * j)%nat) <$> seq i n)) s.
Proof.
  revert i s. induction n as [|n IH]; intros i s; [done|].
  cbn [write_keys seq fmap list_fmap run_calls]. unfold go_bind at 1 3 4.
  destruct (rpc answer _ s) as [[u|e|p|] s']; [|done..].
  unfold go_bind at 1. rewrite IH. unfold go_bind. by destruct (run_calls _ _ s') as [[]].
Qed.

Lemma read_keys_calls answer (ids : nat → string) i n s :
  read_keys answer i ((λ j, ids (2 * j)%nat) <$> seq i n) s =
    run_calls answer ((λ j, CGet (ids (2 * j)%nat) (bool_decide (j `mod` 3 = 0)%nat)) <$> seq i n) s.
Proof.
  revert i s. induction n as [|n IH]; intros i s; [done|].
  cbn [read_keys seq fmap list_fmap run_calls]. unfold go_bind.
  destruct (rpc answer _ s) as [[u|e|p|] s']; [by rewrite IH|done..].
Qed.

Lemma runKVDemo_run_calls answer ids s :
  runKVDemo answer ids s =
    run_calls answer (((λ i, CAdd (ids (2 * i)%nat) (ids (2 * i + 1)%nat)) <$> seq 0 5) ++
                      ((λ i, CGet (ids (2 * i)%nat) (bool_decide (i `mod` 3 = 0)%nat)) <$> seq 0 5) ++ [CStat]) s.
Proof.
  unfold runKVDemo. rewrite run_calls_app. unfold go_bind. rewrite write_keys_calls. unfold go_bind, go_ret.
  destruct (run_calls answer _ s) as [[u|e|p|] s1]; [|done..].
  rewrite run_calls_app, read_keys_calls. unfold go_bind.
  destruct (run_calls answer _ s1) as [[u'|e|p|] s2]; [|done..].
  simpl. unfold go_bind. by destruct (rpc answer CStat s2) as [[[]| | |] ?].
Qed.

(** The demonstration makes exactly these calls, in this order, as long as
    none fails: five inserts of the identifiers drawn, reads of the five keys, of
    which the first and the fourth are linearizable, and a request for the
    statistics. It stops at the first call that fails, with its error. *)
Theorem runKVDemo_calls answer ids :
  let calls := ((λ i, CAdd (ids (2 * i)%nat) (ids (2 * i + 1)%nat)) <$> seq 0 5) ++
               ((λ i, CGet (ids (2 * i)%nat) (bool_decide (i = 0 ∨ i = 3)%nat)) <$> seq 0 5) ++ [CStat] in
  match runKVDemo answer ids [] with
  | (Ok _, done_) => done_ = calls ∧ ∀ k c, calls !! k = Some c → answer k c = None
  | (Err e, done_) => ∃ k c, calls !! k = Some c ∧ answer k c = Some e ∧ done_ = take (S k) calls ∧
                             ∀ j d, (j < k)%nat → calls !! j = Some d → answer j d = None
  | _ => False
  end.
Proof.
  intros calls.
  assert (runKVDemo answer ids [] = run_calls answer calls []) as -> by apply runKVDemo_run_calls.
  pose proof (run_calls_spec answer calls []) as H.
  destruct (run_calls answer calls []) as [[u|e|p|] l]; simpl in H; done.
Qed.

(** ** The watch *)

Lemma watch_loop_cases rs :
  ∃ k, (watch_loop rs).1 = omap (λ r, match r with Received w => Some (w_Value w, w_CurrentIndex w) | _ => None end) (take k rs) ∧
    match (watch_loop rs).2 with
    | Ok _ => ∃ r, rs !! k = Some r ∧ (r = StreamEOF ∨ ∃ w, r = Received w ∧ w_Abandoned w = true)
    | Err e => rs !! k = Some (StreamError e)
    | Panic _ => False
    | NoFuel => k = length rs
    end.
Proof.
  induction rs as [|[w| |e] rs (k & Ho & Hr)]; simpl.
  - by exists 0%nat.
  - destruct (w_Abandoned w) eqn:Ha.
    { exists 0%nat. split; [done|]. exists (Received w). split; [done|]. right. by exists w. }
    exists (S k).
    destruct (watch_loop rs) as [out res]. simpl in *. rewrite Ho. split; [done|].
    destruct res; [exact Hr|exact Hr|done|by f_equal].
  - exists 0%nat. simpl. eauto.
  - by exists 0%nat.
Qed.

(** The client of a watch prints every answer in order up to the end of the
    stream, an error or an abandonment, and [doWatchKey] reports an error only
    when the stream could not be opened or broke. *)
Theorem doWatchKey_prints_answers c_Watch key :
  match c_Watch (MkWatchRequest key 0 30) with
  | inr e => doWatchKey c_Watch key = ([], Err e)
  | inl rs => ∃ k,
      (doWatchKey c_Watch key).1 =
        omap (λ r, match r with Received w => Some (w_Value w, w_CurrentIndex w) | _ => None end) (take k rs) ∧
      match (doWatchKey c_Watch key).2 with
      | Ok _ => ∃ r, rs !! k = Some r ∧ (r = StreamEOF ∨ ∃ w, r = Received w ∧ w_Abandoned w = true)
      | Err e => rs !! k = Some (StreamError e)
      | Panic _ => False
      | NoFuel => k = length rs
      end
  end.
Proof. unfold doWatchKey. destruct (c_Watch _); [apply watch_loop_cases|done]. Qed.

Lemma watch_demo_ends key rounds out n :
  watch_demo key rounds = (out, n, Ok tt) → Exists (λ x, rd_done x = true ∨ rd_done_after x = true) rounds.
Proof.
  revert out n. induction rounds as [|x rounds IH]; intros out n; simpl; [done|].
  destruct (rd_done x) eqn:Hd; [intros _; constructor; by left|].
  destruct (doWatchKey _ key) as [o [[]|e|m|]]; try done.
  - destruct (watch_demo key rounds) as [[o' n'] r]. intros [= _ _ ->]. right. by eapply IH.
  - destruct (rd_done_after x) eqn:Ha; [intros _; constructor; by right|].
    destruct (watch_demo key rounds) as [[o' n'] r]. intros [= _ _ ->]. right. by eapply IH.
Qed.

(** A round that is gone through while the demonstration goes on: the watch has
    come to an end, and the context is not done. *)
Definition goes_on (key : string) (r : round) : Prop :=
  rd_done r = false ∧
  match (doWatchKey (rd_watch r) key).2 with
  | Ok _ => True
  | Err _ => rd_done_after r = false
  | _ => False
  end.

Definition broke (key : string) (r : round) : bool :=
  match (doWatchKey (rd_watch r) key).2 with Err _ => true | _ => false end.

(** The demonstration watches again after every watch, whether its stream was
    closed, abandoned or broken, and sleeps before it does exactly when it broke.
    It returns once the context is done, having printed what every watch printed,
    in order. *)
Theorem watch_demo_watches_again key before r after :
  Forall (goes_on key) before → rd_done r = true →
  watch_demo key (before ++ r :: after) =
    (concat ((λ r, (doWatchKey (rd_watch r) key).1) <$> before),
     length (filter (λ r, broke key r = true) before), Ok tt).
Proof.
  intros Hb Hr. induction Hb as [|x before [Hd Hx] _ IH]; simpl; [by rewrite Hr|].
  rewrite Hd, IH, filter_cons. pose proof (eq_refl (broke key x)) as Hk. unfold broke at 1 in Hk.
  destruct (doWatchKey (rd_watch x) key) as [out [[]|e|m|]]; simpl in *; try done; rewrite <-Hk.
  - by rewrite decide_False.
  - by rewrite Hx, decide_True.
Qed.

(** The calls of the program: none when it cannot connect; the five writes, five
    reads and the statistics, or the first of them up to one that fails; with
    [-watch] the initial write, and the program does not end by itself. *)
Theorem client_main_calls NewClient name answer ids rounds f :
  let '(cs, r) := client_main NewClient name answer ids rounds f in
  match NewClient (client_config name) with
  | Some e => cs = [] ∧ r = Err (Wrapf "dialing failed: %v" [] e)
  | None =>
      if watchMode f then
        cs = [CAdd (keyToWatch f) ("initial-value-" +:+ ids 0%nat)] ∧
        (r = Ok tt → Exists (λ x, rd_done x = true ∨ rd_done_after x = true) rounds)
      else cs `prefix_of` ((λ i, CAdd (ids (2 * i)%nat) (ids (2 * i + 1)%nat)) <$> seq 0 5) ++
                          ((λ i, CGet (ids (2 * i)%nat) (bool_decide (i `mod` 3 = 0)%nat)) <$> seq 0 5) ++ [CStat]
  end.
Proof.
  unfold client_main. destruct (NewClient _) as [e|]; [done|]. destruct (watchMode f).
  - unfold runWatchDemo. destruct (answer _ _) as [e|]; [done|].
    destruct (watch_demo _ rounds) as [[out n] r] eqn:E. split; [done|]. intros ->.
    by eapply watch_demo_ends.
  - rewrite runKVDemo_run_calls. set (calls := (_ ++ _ ++ [CStat])). pose proof (run_calls_spec answer calls []) as H.
    destruct (run_calls answer calls []) as [[u|e|m|] cs]; [| |done..].
    + destruct H as [-> _]. done.
    + destruct H as (k & c & _ & _ & -> & _). apply prefix_take.
Qed.
